(* ===== verification/_CoqProject ===== *)
-Q . S2P
Prelude.v
Ranges.v
Provenance.v
Float.v
Rates.v
Errors.v
Disk.v
Context.v
H2.v
HyperIo.v
Text.v
HttpRange.v
Representation.v
Policy.v
Spec.v
SlotMap.v
Timers.v
Segment.v
SegmentSpec.v
PlanFrame.v
Credits.v
Reorder.v
Payload.v
Journal.v
Fetch.v
Probe.v
ProbeSpec.v
Digests.v
Artifact.v
World.v
Destination.v
DestinationSpec.v
Sinks.v
Lane.v
Lock.v
Profile.v
Controller.v
Resolver.v
Runtime.v
Lifecycle.v
Adaptive.v
Handle.v
Protocol.v
Frames.v
Refine.v
Admission.v
Runs.v
Commands.v
Control.v
ControlLaws.v
ControlRuns.v
Refresh.v
Engine.v
Shard.v
Wire.v
Demo.v
ControllerSpec.v
SchedulingSpec.v
LifecycleSpec.v
ControlSpec.v
ShardSpec.v
