(* ===== verification/Prelude.v ===== *)
(** * XDE: a verification of the download engine

    XDE downloads files over HTTP/1.1, HTTP/2 and HTTP/3 in segments. This
    library models the crate [crates/xde] (its sources are under
    [src/crates/xde/src/], and every path below is relative to that directory)
    as executable definitions and proves what makes it correct.

    ** The program, and who calls whom

    - An application builds an engine, submits downloads and waits for them
      ([engine.rs], [job.rs]). It talks to the control thread over bounded
      mailboxes.
    - The control thread ([control.rs]) owns the controller, the timers, and per
      job its result channel, context, journal and destination. It feeds
      observations to the controller and executes the actions that come back.
    - The controller ([core/controller.rs], on the world model [core/world.rs])
      is a deterministic state machine: it decides what to resolve, dial, probe,
      request, retry, commit and fail. Each job has a segment plan
      ([core/segment.rs]) that hands out byte ranges.
    - Shards ([shard.rs]) are threads that keep connections, lanes and
      destinations and run a task per dial, probe, fetch and mirror sample. A
      fetch ([http/fetch.rs]) reads a response body from the wire ([net/]) and
      gives chunks, charged to the memory budget ([storage/transfer.rs]), to a
      sink: a lane over the partial file ([storage/lane.rs]) or a destination of
      the application ([storage/destination.rs]).
    - Reports of the shards and of the resolver ([resolve.rs]) are the
      observations; verified ranges go to the journal ([storage/journal.rs]),
      from which an interrupted download resumes.

    ** Files and what they model

    Data and arithmetic:
    - [Prelude]: machine integers with their wrap-around, record updates, list
      lemmas, the tactics and hint databases of the library.
    - [Ranges] ([core/ranges.rs]), [Provenance] ([core/provenance.rs]), [Float]
      and [Rates] ([core/units.rs], [core/ewma.rs], [core/metrics.rs], binary64
      bit for bit), [Errors] ([core/error.rs], [core/disposition.rs]), [Text]
      (the string functions of the standard library), [HttpRange]
      ([http/range.rs]), [Representation] ([core/representation.rs],
      [integrity/overlap.rs]), [Policy] ([core/policy.rs]), [Spec]
      ([core/spec.rs], [core/ids.rs]), [Timers] ([core/timers.rs]), [Context]
      ([core/context.rs]), [SlotMap] (the interface of the arena crate).

    Scheduling:
    - [Segment], [SegmentSpec], [PlanFrame] ([core/segment.rs]); [World]
      ([core/world.rs]); [Controller], [Lifecycle], [Adaptive], [Handle]
      ([core/controller.rs]: state and scheduling, the end of jobs, the adaptive
      loops, one definition per observation); [Admission] ([admit_command] of
      [control.rs]).
    - [Protocol] states what the controller promises as elementary steps and an
      invariant, [Frames] and [Refine] prove that each handler is a sequence of
      such steps, [Runs] follows whole runs.
    - [ControllerSpec], [SchedulingSpec], [LifecycleSpec]: the theorems; [Demo]:
      a concrete engine on which their witnesses are evaluated.

    Threads:
    - [Commands] (events, commands, snapshots, progress), [Control] (the loop and
      the execution of actions), [ControlLaws], [ControlRuns] (its invariant,
      turn by turn), [Refresh] (nested credential refreshes), [ControlSpec] (the
      theorems); [Engine] (the public handles); [Resolver] ([resolve.rs]);
      [Runtime] ([runtime/handle.rs], [netctx.rs]); [Shard] and [ShardSpec]
      ([shard.rs]).

    Network:
    - [H2] ([net/h2.rs]), [HyperIo] ([net/hyper_io.rs]), [Wire]
      ([net/connector.rs], [net/h3.rs], [net/tls.rs], [net/tcp.rs],
      [net/body.rs]), [Fetch] ([http/fetch.rs], [http/mod.rs]), [Probe] and
      [ProbeSpec] ([http/probe.rs]).

    Storage:
    - [Disk] (a file system that can lose power), [Credits]
      ([storage/capacity.rs] and the budget of [storage/transfer.rs]), [Reorder]
      ([storage/reorder.rs]), [Payload] (the payloads of [storage/transfer.rs]),
      [Journal] ([storage/journal.rs]), [Digests], [Artifact], [Lane] and [Lock]
      ([storage/lane.rs], [integrity/hash.rs]), [Destination] and
      [DestinationSpec] ([storage/destination.rs], [storage/file.rs],
      [core/sink.rs]), [Sinks] (the sinks of [shard.rs], each a sequence of steps
      between awaits, over a lane or a destination), [Profile] (what is learned,
      on disk).

    A definition has the name of the function it translates; a struct is a record
    or a [Module] with its state [t]. State is passed explicitly, errors are the
    left of a sum, a panic is [None]. What is shared and mutated (pools and end
    flags of a shard, permits of payloads, the lock file) is a store of names.

    ** What the theorems show

    - The controller: every handler refines the protocol; the tables stay linked
      and well typed; every job ends once and no work is ordered for it then;
      work starts only within the limits and
      in the order of the fair queue; a commit is ordered only for a job with
      every byte verified; verified bytes are never given back; redirects,
      resumption, cancellation and admission do what they promise; scheduling
      ends.
    - The plan: every byte has one holder, or one stream has them all; only
      verified bytes count; no operation panics or runs on for ever.
    - The control thread: a waiter is answered once, with the outcome of its job
      unless the controller discards the destination; work stops with its job;
      what a crash-safe job has completed survives a loss of power, unless the
      disk failed a call and the journal says so; a job resumes from
      what is on disk; a commit comes after the lanes are closed.
    - Shards and connections: each ordered fetch is reported once; one request at
      a time uses an HTTP/1 connection, and one that waits is waited for; no
      wake-up of an HTTP/2 connection is lost and no stream suffers from its
      siblings; a response body is read as the protocol library received it. [Wire.over_wire_laws] and
      [Wire.over_wire_finite] discharge for the wire what [Fetch] asks of its
      environment, so the theorems on fetches hold over it.
    - Fetches and probes: nothing reaches the sink but the bytes asked for, of the
      representation expected; a probe claims what it saw.
    - Storage: a journal record is replaced atomically and reads back; a file is
      published only whole and verified, and the digest is that of the file
      however it is read; bytes of different sources are compared before they
      mix, on lanes and on any destination that keeps the laws of its interface,
      in whatever order the sinks run, as long as chunks under way at once do not
      overlap ([SinkRuns.overlapping_chunks_race] shows what happens then);
      the reorder buffer delivers the prefix; memory and capacity stay within
      their bounds and are charged as long as they are held; one process at a
      time coordinates a destination.
    - Where the code does not do what it says, a lemma shows it on an input; such
      lemmas stand beside the theorems of their component.

    ** Assumptions

    - Third-party code is a parameter: [SlotMapLib]/[SecMapLib] (slotmap),
      [WebLib] (url, blake3, formatting), [HeaderMapLib] (http), [HasherLib]
      (blake3, sha2), serializers, [exp], and what the network, DNS, the
      interfaces and the file system answer. Their laws are the classes named
      [...Laws] and section hypotheses, each of which has an instance.
    - Keys of removed arena entries are not used again for jobs (the [NoDup] of the
      admitted jobs, which slotmap's generations give up to 2^31 reuses of a
      slot).
    - [u64] arithmetic wraps as in the release profile; instants and durations are
      nanoseconds without an upper bound except where the code converts them;
      instants start at zero. A clock is read once per observation or command, and
      once per body frame, where the code reads it several times in a row.
    - An environment answers what a thread waits for: in [Control] an oracle that
      is asked question after question, in [Shard], [Resolver], [Runtime] and
      [Wire] an answer with each event (of a body: what hyper answers to each
      poll, what h3 answers to each [recv_data], and how the body ends), in
      [Destination] and [Sinks] a list of answers of system calls. A wait that
      never ends is an event that never comes.

    ** Fuel and bounds

    Loops of the source that are not structural take fuel. [pump] and
    [scale_connections] compute theirs and [scheduling_terminates] proves it
    enough; [ensure_probes] loops in the source without a bound, so running out
    of fuel is an outcome of its own, which the theorems allow for; gap scans and
    delivery loops have a measure that is proved to decrease; a fetch needs a
    unit per body frame; reading a body takes its length ([next_hyper_spec]);
    nested refreshes need one level ([Refresh]); the hash loop takes the bytes
    and the answers left. None of these bounds is reached.

    ** Not modelled

    - TCP, TLS, QUIC, HTTP framing, DNS, timers and executors: third-party crates;
      the calls that configure them ([apply_tuning], [net/exec.rs], the resolver's
      configuration) decide nothing. The write side of [net/hyper_io.rs] only
      forwards.
    - Floating-point parts of [core/profile.rs] that nothing calls
      ([Confidence::p], the ranking of [EndpointCandidates]).
    - [JobSpec] builders and header parsing by the http crate; tracing, [Debug] and
      [Display]; the event channel's own buffering (events are a trace before
      it is cut).
    - How a task that waits is woken: the listener of [ConnPool::acquire] and the
      notifications of release and retire, the wakers of the channels and of the
      capacity. A wait is a poll that can be repeated at any later step; that the
      task is woken for it is proved only for the task of HTTP/2 ([H2]).
    - Poisoned locks: no thread panics while it holds one.
    - A write that is still queued when the sink that ordered it is dropped keeps
      the sink in [Sinks] until the lane has answered.
    - Weak memory: atomics are read and written in program order, and threads
      interleave at the steps of the models.
    - The command line tool, benches, examples and tests.
*)

From stdpp Require Export base tactics list gmap strings sorting.
From Stdlib Require Export ZArith Lia.


(** ** Machine integers

    A [u64] is a [Z] in [[0, 2^64)]. The unchecked operators of the source
    ([+], [-], [*]) wrap modulo [2^64], as they do in the release profile (the
    workspace sets no [overflow-checks]); the [saturating_] methods clamp. *)

Declare Scope u64_scope.
Delimit Scope u64_scope with u64.

Definition u64_max : Z := 18446744073709551615.
Definition u64_mod : Z := 18446744073709551616.

Definition in_u64 (x : Z) : Prop := (0 <= x <= u64_max)%Z.

Definition u64_add (a b : Z) : Z := ((a + b) mod u64_mod)%Z.
Definition u64_sub (a b : Z) : Z := ((a - b) mod u64_mod)%Z.
Definition u64_mul (a b : Z) : Z := ((a * b) mod u64_mod)%Z.

Definition u64_sat_add (a b : Z) : Z := Z.min (a + b) u64_max.
Definition u64_sat_sub (a b : Z) : Z := Z.max (a - b) 0.
Definition u64_sat_mul (a b : Z) : Z := Z.min (a * b) u64_max.

(** [u64::clamp] panics when [lo > hi]; its callers' obligation is a lemma
    where it is used, so here it is the total function of the other case. *)
Definition u64_clamp (x lo hi : Z) : Z := Z.min (Z.max x lo) hi.

(** [u64::div_ceil]. *)
Definition u64_div_ceil (a b : Z) : Z := ((a + b - 1) / b)%Z.

Notation "a +% b" := (u64_add a b) (at level 50, left associativity) : u64_scope.
Notation "a -% b" := (u64_sub a b) (at level 50, left associativity) : u64_scope.
Notation "a *% b" := (u64_mul a b) (at level 40, left associativity) : u64_scope.

Open Scope u64_scope.
Open Scope Z_scope.

(** Exposes the numeric constants and the saturating operators to [lia]. *)
Ltac u64_unfold :=
  unfold in_u64, u64_sat_add, u64_sat_sub, u64_sat_mul, u64_clamp, u64_max, u64_mod in *.
Ltac u64_lia := u64_unfold; lia.

(** Replaces an arithmetic proposition that [lia] can decide by its truth value. *)
Ltac truth_of P :=
  let H := fresh in
  first [ assert (H : P <-> True) by (split; [done|intros _; lia])
        | assert (H : P <-> False) by (split; [lia|done]) ];
  rewrite H in *; clear H.

(** Decides a propositional combination of interval memberships and opaque
    atoms, once the position of the offset is known. *)
Ltac interval_tauto :=
  repeat match goal with
    | |- context [?a <= ?b < ?c] => truth_of (a <= b < c)
    | H : context [?a <= ?b < ?c] |- _ =>
        lazymatch type of H with a <= b < c => fail | _ => truth_of (a <= b < c) end
    end; tauto.

(** [lia] with quotients and remainders. *)
Ltac div_lia := u64_unfold; Z.div_mod_to_equations; lia.

Lemma u64_add_small a b : in_u64 (a + b) -> (a +% b) = a + b.
Proof. intros H. unfold u64_add. apply Z.mod_small. u64_lia. Qed.

Lemma u64_sub_small a b : in_u64 (a - b) -> (a -% b) = a - b.
Proof. intros H. unfold u64_sub. apply Z.mod_small. u64_lia. Qed.

Lemma u64_mul_small a b : in_u64 (a * b) -> (a *% b) = a * b.
Proof. intros H. unfold u64_mul. apply Z.mod_small. u64_lia. Qed.

Lemma u64_add_range a b : in_u64 (a +% b).
Proof. unfold u64_add. pose proof (Z.mod_pos_bound (a + b) u64_mod eq_refl). u64_lia. Qed.

Lemma u64_sub_range a b : in_u64 (a -% b).
Proof. unfold u64_sub. pose proof (Z.mod_pos_bound (a - b) u64_mod eq_refl). u64_lia. Qed.

Lemma u64_sat_sub_range a b : in_u64 a -> 0 <= b -> in_u64 (u64_sat_sub a b).
Proof. intros. u64_lia. Qed.

(** A [u32] addition, which wraps like the [u64] ones. *)
Definition u32_add (a b : Z) : Z := (a + b) mod 4294967296.
Definition u32_max : Z := 4294967295.
Definition u32_sat_add (a b : Z) : Z := Z.min (a + b) u32_max.

Create HintDb xde.
Create Rewrite HintDb u64.
#[export] Hint Resolve u64_add_range u64_sub_range u64_sat_sub_range : xde.
#[export] Hint Rewrite u64_add_small u64_sub_small u64_mul_small using u64_lia : u64.

(** Rewrites the wrapping operators whose result provably does not wrap. *)
Ltac u64_simpl := autorewrite with u64 in *.

(** ** Records

    [r <| f := v |>] is the record with one field replaced, [r <| f ::= g |>]
    with one field mapped. A record type declares how it is rebuilt from its
    projections; the setter of a field is read off that term. *)

Class Rebuild (R : Type) := rebuild : R -> R.
Class Setter {R E : Type} (field : R -> E) := update_field : (E -> E) -> R -> R.

Ltac setter_of field :=
  match type of field with
  | ?R -> ?E =>
      let whole := constr:(_ : Rebuild R) in
      let whole := eval hnf in whole in
      match eval pattern field in whole with
      | ?body _ =>
          let upd := constr:(fun (g : E -> E) (r : R) => body (fun r' => g (field r')) r) in
          let upd := eval cbv beta in upd in exact upd
      end
  end.

#[export] Hint Extern 0 (Setter ?field) => (setter_of field) : typeclass_instances.
Arguments update_field {R E} field {_} g r /.

Notation "r <| f := v |>" := (update_field f (fun _ => v) r)
  (at level 1, f at level 9, v at level 200, format "r  <| f  :=  v |>").
Notation "r <| f ::= g |>" := (update_field f g r)
  (at level 1, f at level 9, g at level 200, format "r  <| f  ::=  g |>").

(** ** Lists

    [partition_point], [splice] and the prefix/suffix facts they rest on. *)

Section partition_point.
Context {A : Type}.

(** [slice::partition_point]: the index of the first element that fails [p].
    (The standard library finds it by bisection, which returns this index on
    the partitioned slices its contract asks for.) *)
Fixpoint partition_point (p : A -> bool) (l : list A) : nat :=
  match l with
  | [] => 0
  | x :: l' => if p x then S (partition_point p l') else 0
  end.

(** [Vec::splice(lo..hi, repl)] for its effect on the vector. *)
Definition splice (l : list A) (lo hi : nat) (repl : list A) : list A :=
  take lo l ++ repl ++ drop hi l.

(** A slice is partitioned by [p] when no element satisfying [p] follows one
    that does not: the precondition of [partition_point]. *)
Definition partitioned (p : A -> bool) (l : list A) : Prop :=
  Forall (fun x => p x = false) (drop (partition_point p l) l).

Lemma partition_point_take p l :
  Forall (fun x => p x = true) (take (partition_point p l) l).
Proof.
  induction l as [|x l IH]; simpl; [constructor|].
  destruct (p x) eqn:E; simpl; constructor; auto.
Qed.

Lemma partition_point_lookup p l x : l !! partition_point p l = Some x -> p x = false.
Proof. induction l as [|y l IH]; simpl; [done|]. destruct (p y) eqn:E; [apply IH|]. by intros [= <-]. Qed.

Lemma partition_point_le p l : (partition_point p l <= length l)%nat.
Proof. induction l as [|x l IH]; simpl; [lia|]. destruct (p x); simpl; lia. Qed.

Lemma partition_point_mono p q l :
  (forall x, x ∈ l -> p x = true -> q x = true) ->
  (partition_point p l <= partition_point q l)%nat.
Proof.
  induction l as [|x l IH]; simpl; intros H; [lia|].
  destruct (p x) eqn:E; [|lia].
  rewrite (H x) by (auto; left). apply le_n_S, IH.
  intros y Hy. apply H. by right.
Qed.

Lemma partition_point_all p l :
  Forall (fun x => p x = true) l -> partition_point p l = length l.
Proof. induction 1 as [|x l Hx _ IH]; simpl; [done|]. rewrite Hx, IH. done. Qed.

Lemma partition_point_none p l :
  Forall (fun x => p x = false) l -> partition_point p l = 0%nat.
Proof. destruct 1 as [|x l Hx]; simpl; [done|]. by rewrite Hx. Qed.

Lemma partition_point_app p l1 l2 :
  Forall (fun x => p x = true) l1 ->
  partition_point p (l1 ++ l2) = (length l1 + partition_point p l2)%nat.
Proof. induction 1 as [|x l Hx _ IH]; simpl; [done|]. rewrite Hx, IH. done. Qed.

Lemma take_drop_3 (l : list A) lo hi :
  (lo <= hi)%nat -> l = take lo l ++ take (hi - lo) (drop lo l) ++ drop hi l.
Proof.
  intros H. rewrite <- (take_drop lo l) at 1. f_equal.
  rewrite <- (take_drop (hi - lo) (drop lo l)) at 1. f_equal.
  rewrite drop_drop. f_equal. lia.
Qed.
End partition_point.

Section vectors.
Context {A : Type}.

(** Assignment through [Vec::last_mut]. *)
Definition set_last (l : list A) (x : A) : list A := removelast l ++ [x].

(** [slice::sort_by_key]: the stable sort, by insertion. *)
Fixpoint sort_insert (key : A -> Z) (x : A) (l : list A) : list A :=
  match l with
  | [] => [x]
  | y :: l' => if key x <=? key y then x :: y :: l' else y :: sort_insert key x l'
  end.

Definition sort_by_key (key : A -> Z) (l : list A) : list A := foldr (sort_insert key) [] l.

(** [slice::sort_by] for an order given as its strict part, and
    [Iterator::min_by_key]: the first of the least elements. *)
Fixpoint insert_by (lt : A -> A -> bool) (x : A) (l : list A) : list A :=
  match l with
  | [] => [x]
  | y :: l' => if lt y x then y :: insert_by lt x l' else x :: y :: l'
  end.

Definition sort_by (lt : A -> A -> bool) (l : list A) : list A := foldr (insert_by lt) [] l.

Fixpoint min_from (lt : A -> A -> bool) (best : A) (l : list A) : A :=
  match l with [] => best | x :: l' => min_from lt (if lt x best then x else best) l' end.

Definition min_by (lt : A -> A -> bool) (l : list A) : option A :=
  match l with [] => None | x :: l' => Some (min_from lt x l') end.

(** [Vec::retain], [Vec::contains] and [Iterator::find] on boolean tests. *)
Definition retain (p : A -> bool) (l : list A) : list A := filter (fun x => p x = true) l.
Definition find (p : A -> bool) (l : list A) : option A := List.find p l.

Lemma min_from_elem lt b l : min_from lt b l ∈ b :: l.
Proof.
  revert b. induction l as [|x l IH]; intros b; [by left|]. cbn [min_from].
  destruct (proj1 (elem_of_cons _ _ _) (IH (if lt x b then x else b))) as [->|H]; [|by right; right].
  destruct (lt x b); [by right; left|by left].
Qed.

Lemma min_by_elem lt l x : min_by lt l = Some x -> x ∈ l.
Proof. destruct l as [|y l]; [done|]. intros [= <-]. apply min_from_elem. Qed.

Lemma min_by_None lt l : min_by lt l = None <-> l = [].
Proof. by destruct l. Qed.

(** The laws of an order given as its strict part, on the elements that [P]
    admits: asymmetric, and "not after" is transitive. *)
Record weak_order (P : A -> Prop) (lt : A -> A -> bool) : Prop := {
  wo_asym : forall a b, P a -> P b -> lt a b = true -> lt b a = false;
  wo_trans : forall a b c, P a -> P b -> P c -> lt a b = false -> lt b c = false -> lt a c = false }.

Lemma wo_refl P lt a : weak_order P lt -> P a -> lt a a = false.
Proof. intros [H _] Ha. destruct (lt a a) eqn:E; [|done]. rewrite <- E. by apply H. Qed.

Lemma min_from_least P lt b l : weak_order P lt -> Forall P (b :: l) -> forall y, y ∈ b :: l -> lt y (min_from lt b l) = false.
Proof.
  intros Hw. revert b. induction l as [|x l IH]; intros b Hp y; cbn [min_from].
  - intros ->%list_elem_of_singleton. inversion Hp; subst. by eapply wo_refl.
  - inversion Hp as [|? ? Hb' Hp']; subst. inversion Hp' as [|? ? Hx Hl]; subst.
    assert (Hn : Forall P ((if lt x b then x else b) :: l)) by (constructor; [by destruct (lt x b)|done]).
    assert (Hm : P (min_from lt (if lt x b then x else b) l)) by (rewrite Forall_forall in Hn; apply Hn, min_from_elem).
    pose proof (IH _ Hn _ (list_elem_of_here _ _)) as Hb.
    intros [->|[->|Hy]%elem_of_cons]%elem_of_cons; [| |apply IH; [done|by right]];
      destruct (lt x b) eqn:E; try done; (eapply (wo_trans _ _ Hw); [..|exact Hb]; try done); by eapply wo_asym.
Qed.

Lemma min_by_least P lt l x : weak_order P lt -> Forall P l -> min_by lt l = Some x -> forall y, y ∈ l -> lt y x = false.
Proof. intros Hw Hp. destruct l as [|z l]; [done|]. intros [= <-]. by eapply min_from_least. Qed.

Lemma insert_by_perm lt x l : insert_by lt x l ≡ₚ x :: l.
Proof.
  induction l as [|y l IH]; simpl; [done|]. destruct (lt y x); [|done]. rewrite IH. apply Permutation_swap.
Qed.

Lemma sort_by_perm lt l : sort_by lt l ≡ₚ l.
Proof. induction l as [|x l IH]; simpl; [done|]. by rewrite insert_by_perm, IH. Qed.

Lemma insert_by_sorted P lt x l : weak_order P lt -> P x -> Forall P l -> StronglySorted (fun a b => lt b a = false) l ->
  StronglySorted (fun a b => lt b a = false) (insert_by lt x l).
Proof.
  intros Hw Hx Hp. induction 1 as [|y l Hl IH Hy]; simpl; [by repeat constructor|]. inversion Hp as [|? ? Hpy Hpl]; subst.
  destruct (lt y x) eqn:E.
  - constructor; [by apply IH|]. rewrite insert_by_perm. apply Forall_cons. split; [by eapply wo_asym|done].
  - constructor; [by constructor|]. apply Forall_cons. split; [done|].
    rewrite Forall_forall in Hy, Hpl |- *. intros z Hz. eapply (wo_trans _ _ Hw z y x); auto.
Qed.

Lemma sort_by_sorted P lt l : weak_order P lt -> Forall P l -> StronglySorted (fun a b => lt b a = false) (sort_by lt l).
Proof.
  intros Hw. induction 1 as [|x l Hx Hl IH]; simpl; [constructor|]. eapply insert_by_sorted; [done..| |done].
  change (Forall P (sort_by lt l)). by rewrite sort_by_perm.
Qed.

Lemma retain_elem p l x : x ∈ retain p l <-> p x = true /\ x ∈ l.
Proof. unfold retain. by rewrite list_elem_of_filter. Qed.

Lemma find_Some p l x : find p l = Some x -> x ∈ l /\ p x = true.
Proof. intros [H ?]%List.find_some. split; [by apply list_elem_of_In|done]. Qed.

Lemma find_None p l x : find p l = None -> x ∈ l -> p x = false.
Proof. intros H Hx. eapply List.find_none; [exact H|by apply list_elem_of_In]. Qed.

Lemma set_last_snoc l x y : set_last (l ++ [x]) y = l ++ [y].
Proof. unfold set_last. by rewrite removelast_last. Qed.

Lemma sort_insert_perm key x l : sort_insert key x l ≡ₚ x :: l.
Proof.
  induction l as [|y l IH]; simpl; [done|]. case Z.leb_spec; [done|]. intros _.
  rewrite IH. apply Permutation_swap.
Qed.

Lemma sort_by_key_perm key l : sort_by_key key l ≡ₚ l.
Proof. induction l as [|x l IH]; simpl; [done|]. by rewrite sort_insert_perm, IH. Qed.

(** The head bounds the tail, all along. *)
Fixpoint key_sorted (key : A -> Z) (l : list A) : Prop :=
  match l with
  | [] => True
  | x :: l' => Forall (fun y => key x <= key y) l' /\ key_sorted key l'
  end.

Lemma sort_insert_sorted key x l : key_sorted key l -> key_sorted key (sort_insert key x l).
Proof.
  induction l as [|y l IH]; simpl; [auto|]. intros [Hy Hl].
  case Z.leb_spec; intros Hxy; simpl.
  - split; [|by split]. constructor; [done|].
    eapply Forall_impl; [exact Hy|]. simpl. lia.
  - split; [|by apply IH]. rewrite sort_insert_perm. constructor; [lia|done].
Qed.

Lemma sort_by_key_sorted key l : key_sorted key (sort_by_key key l).
Proof. induction l as [|x l IH]; simpl; [done|]. by apply sort_insert_sorted. Qed.
End vectors.

(** ** Filters and sorts *)

Lemma strongly_sorted_filter {A} (R : A -> A -> Prop) (P : A -> Prop) `{!forall x, Decision (P x)} (l : list A) :
  StronglySorted R l -> StronglySorted R (filter P l).
Proof.
  induction 1 as [|x l Hs IH Hx]; [constructor|]. rewrite filter_cons. destruct (decide (P x)); [|done].
  constructor; [done|]. apply Forall_forall. intros y [_ Hy]%list_elem_of_filter.
  by eapply Forall_forall in Hx.
Qed.

Lemma filter_all {A} (P : A -> Prop) `{!forall x, Decision (P x)} (l : list A) : Forall P l -> filter P l = l.
Proof. induction 1 as [|x l Hx _ IH]; [done|]. rewrite filter_cons, decide_True, IH; done. Qed.

Lemma filter_none {A} (P : A -> Prop) `{!forall x, Decision (P x)} (l : list A) :
  Forall (fun x => ~ P x) l -> filter P l = [].
Proof. induction 1 as [|x l Hx _ IH]; [done|]. rewrite filter_cons, decide_False; done. Qed.

Lemma filter_fmap {A B} (P : B -> Prop) `{!forall y, Decision (P y)} (f : A -> B) (l : list A) :
  filter P (f <$> l) = f <$> filter (fun x => P (f x)) l.
Proof.
  induction l as [|x l IH]; [done|]. rewrite fmap_cons, !filter_cons, IH.
  by destruct (decide (P (f x))).
Qed.

Lemma sort_by_key_fmap {A B} (f : A -> B) (k : B -> Z) l :
  sort_by_key k (f <$> l) = f <$> sort_by_key (fun x => k (f x)) l.
Proof.
  assert (Hi : forall x m, sort_insert k (f x) (f <$> m) = f <$> sort_insert (fun x => k (f x)) x m).
  { intros x m. induction m as [|y m IH]; simpl; [done|]. case Z.leb; simpl; [done|]. by f_equal. }
  induction l as [|x l IH]; [done|].
  change (sort_insert k (f x) (sort_by_key k (f <$> l)) =
          f <$> sort_insert (fun x => k (f x)) x (sort_by_key (fun x => k (f x)) l)).
  by rewrite IH, Hi.
Qed.

Lemma filter_fst_nodup {A B} (P : A * B -> Prop) `{!forall x, Decision (P x)} (l : list (A * B)) :
  NoDup l.*1 -> NoDup (filter P l).*1.
Proof.
  induction l as [|[a b] l IH]; [done|]. rewrite fmap_cons, NoDup_cons, filter_cons. intros [Hn Hl].
  destruct (decide (P (a, b))); [|by apply IH]. rewrite fmap_cons, NoDup_cons. split; [|by apply IH].
  intros (x&Hx1&Hx2)%list_elem_of_fmap. apply list_elem_of_filter in Hx2 as [_ Hx2].
  apply Hn, list_elem_of_fmap. eauto.
Qed.

Lemma filter_length_le {A} (P Q : A -> Prop) `{!forall x, Decision (P x)} `{!forall x, Decision (Q x)} (l : list A) :
  (forall x, Q x -> P x) -> (length (filter Q l) <= length (filter P l))%nat.
Proof.
  intros HPQ. induction l as [|x l IH]; [done|]. rewrite !filter_cons.
  destruct (decide (Q x)), (decide (P x)); simpl; try lia. exfalso. auto.
Qed.

Lemma filter_length_lt {A} (P Q : A -> Prop) `{!forall x, Decision (P x)} `{!forall x, Decision (Q x)} (l : list A) y :
  (forall x, Q x -> P x) -> y ∈ l -> P y -> ~ Q y -> (length (filter Q l) < length (filter P l))%nat.
Proof.
  intros HPQ Hy HP HQ. induction l as [|x l IH]; [by apply not_elem_of_nil in Hy|].
  rewrite !filter_cons. apply elem_of_cons in Hy as [->|Hy].
  - rewrite decide_False, decide_True by done. simpl. pose proof (filter_length_le P Q l HPQ). lia.
  - specialize (IH Hy). destruct (decide (Q x)), (decide (P x)); simpl; try lia. exfalso. auto.
Qed.

(** ** Strings *)

Lemma append_cancel (a b c : string) : a +:+ b = a +:+ c -> b = c.
Proof. induction a as [|x a IH]; cbn; [done|]. intros [= H]. by apply IH. Qed.
