(* ===== verification/Ranges.v ===== *)
(** * Byte ranges and range sets ([core/ranges.rs]).

    [ByteRange] is the half-open range of the source, [RangeSet] its sorted,
    disjoint, non-adjacent vector with the cached [covered] counter. Every
    operation is translated with the index arithmetic of the source
    ([partition_point], [splice]); the abstract value of a set is the set of
    byte offsets [RangeSet.mem], and [RangeSet.wf] is [assert_normalized]
    together with the [u64] bounds of the fields. *)

From S2P Require Import Prelude.
From stdpp Require Import pretty.
Local Open Scope Z_scope.

Module ByteRange.

Record t := new { start : Z; end_ : Z }.

#[export] Instance eq_dec : EqDecision t.
Proof. solve_decision. Defined.

(** [ByteRange::at]: the end wraps when [start + len] overflows. *)
Definition at_ (start len : Z) : t := new start (start +% len).

Definition len (r : t) : Z := end_ r -% start r.
Definition is_empty (r : t) : bool := start r >=? end_ r.
Definition contains (r : t) (off : Z) : bool := (off >=? start r) && (off <? end_ r).
Definition intersects (r o : t) : bool := (start r <? end_ o) && (start o <? end_ r).

Definition intersection (r o : t) : option t :=
  let s := Z.max (start r) (start o) in
  let e := Z.min (end_ r) (end_ o) in
  if s <? e then Some (new s e) else None.

Definition split_at (r : t) (at0 : Z) : t * t :=
  let at1 := u64_clamp at0 (start r) (end_ r) in
  (new (start r) at1, new at1 (end_ r)).

Definition truncated_to (r : t) (n : Z) : t :=
  new (start r) (Z.min (end_ r) (start r +% n)).

Definition to_http_range (r : t) : string :=
  "bytes=" +:+ pretty (start r) +:+ "-" +:+ pretty (end_ r -% 1).

(** The offsets a range denotes, and a range whose fields are machine words
    in the order [ByteRange::new] asserts. *)
Definition mem (x : Z) (r : t) : Prop := start r <= x < end_ r.
Definition wf (r : t) : Prop := 0 <= start r <= end_ r /\ end_ r <= u64_max.

Lemma contains_spec r x : contains r x = true <-> mem x r.
Proof. unfold contains, mem. rewrite andb_true_iff, Z.geb_le, Z.ltb_lt. lia. Qed.

Lemma is_empty_spec r : is_empty r = true <-> forall x, ~ mem x r.
Proof.
  unfold is_empty, mem. rewrite Z.geb_le. split; [lia|].
  intros H. specialize (H (start r)). lia.
Qed.

Lemma is_empty_false r : is_empty r = false <-> start r < end_ r.
Proof. unfold is_empty. rewrite Z.geb_leb, Z.leb_gt. done. Qed.

Lemma len_wf r : wf r -> len r = end_ r - start r.
Proof. intros [??]. unfold len. apply u64_sub_small. u64_lia. Qed.

Lemma intersection_mem r o x :
  (exists i, intersection r o = Some i /\ mem x i) <-> mem x r /\ mem x o.
Proof.
  unfold intersection, mem. destruct (Z.ltb_spec (Z.max (start r) (start o)) (Z.min (end_ r) (end_ o))).
  - split; [intros (?&[= <-]&?); simpl in *; lia|]. intros. eexists; split; [done|]. simpl; lia.
  - split; [intros (?&?&?); done|]. lia.
Qed.

Lemma intersection_Some r o i :
  intersection r o = Some i ->
  start i = Z.max (start r) (start o) /\ end_ i = Z.min (end_ r) (end_ o) /\ start i < end_ i.
Proof.
  unfold intersection. case Z.ltb_spec; [|done]. intros ? [= <-]. simpl. lia.
Qed.

Lemma intersection_None r o :
  intersection r o = None -> Z.min (end_ r) (end_ o) <= Z.max (start r) (start o).
Proof. unfold intersection. case Z.ltb_spec; [done|]. auto. Qed.
End ByteRange.

(** The decimal position arithmetic below is over the range fields, so [lia]
    sees [ByteRange.start]/[ByteRange.end_] as atoms. *)
Module RangeSet.
Import ByteRange.

Record t := mk { ranges : list ByteRange.t; covered : Z }.

Definition empty : t := mk [] 0.
Definition covered_len (s : t) : Z := covered s.
Definition segment_count (s : t) : nat := length (ranges s).
Definition is_empty (s : t) : bool := bool_decide (ranges s = []).
Definition iter (s : t) : list ByteRange.t := ranges s.
Definition clear (_ : t) : t := empty.

(** [.iter().map(|x| x.len()).sum::<u64>()]. *)
Definition sum_len (l : list ByteRange.t) : Z :=
  foldl (fun acc x => acc +% len x) 0 l.

(** Slice indexing: the source panics out of range. *)
Definition index (l : list ByteRange.t) (i : nat) : ByteRange.t :=
  default (new 0 0) (l !! i).

Definition insert (s : t) (r : ByteRange.t) : t :=
  if ByteRange.is_empty r then s else
  let lo := partition_point (fun x => end_ x <? start r) (ranges s) in
  let hi := partition_point (fun x => start x <=? end_ r) (ranges s) in
  if (lo =? hi)%nat then
    mk (splice (ranges s) lo lo [r]) (covered s +% len r)
  else
    let removed := sum_len (take (hi - lo) (drop lo (ranges s))) in
    let merged := new (Z.min (start r) (start (index (ranges s) lo)))
                      (Z.max (end_ r) (end_ (index (ranges s) (hi - 1)))) in
    mk (splice (ranges s) lo hi [merged]) ((covered s -% removed) +% len merged).

Definition remove (s : t) (r : ByteRange.t) : t :=
  if ByteRange.is_empty r || is_empty s then s else
  let lo := partition_point (fun x => end_ x <=? start r) (ranges s) in
  let hi := partition_point (fun x => start x <? end_ r) (ranges s) in
  if (hi <=? lo)%nat then s else
  let removed := sum_len (take (hi - lo) (drop lo (ranges s))) in
  let first := index (ranges s) lo in
  let last := index (ranges s) (hi - 1) in
  let replacement :=
    (if start first <? start r then [new (start first) (start r)] else []) ++
    (if end_ last >? end_ r then [new (end_ r) (end_ last)] else []) in
  let added := sum_len replacement in
  mk (splice (ranges s) lo hi replacement) ((covered s -% removed) +% added).

Definition from_ranges (it : list ByteRange.t) : t := foldl insert empty it.

Definition contains (s : t) (off : Z) : bool :=
  let i := partition_point (fun x => end_ x <=? off) (ranges s) in
  match ranges s !! i with
  | Some x => ByteRange.contains x off
  | None => false
  end.

Definition contains_range (s : t) (r : ByteRange.t) : bool :=
  if ByteRange.is_empty r then true else
  let i := partition_point (fun x => end_ x <=? start r) (ranges s) in
  match ranges s !! i with
  | Some x => (start x <=? start r) && (end_ x >=? end_ r)
  | None => false
  end.

Definition first_gap (s : t) (from limit : Z) : option ByteRange.t :=
  if from >=? limit then None else
  let i := partition_point (fun x => end_ x <=? from) (ranges s) in
  match ranges s !! i with
  | None => Some (new from limit)
  | Some cur =>
      if start cur >? from then Some (new from (Z.min (start cur) limit))
      else if end_ cur >=? limit then None
      else
        let nxt_start := match ranges s !! S i with
                         | Some n => Z.min (start n) limit
                         | None => limit
                         end in
        Some (new (end_ cur) nxt_start)
  end.

(** The [for] loop of [gaps], [break] included: [cur] is the loop variable. *)
Fixpoint gaps_loop (l : list ByteRange.t) (limit cur : Z) : list ByteRange.t * Z :=
  match l with
  | [] => ([], cur)
  | r :: l' =>
      if start r >=? limit then ([], cur) else
      let out := if start r >? cur then [new cur (Z.min (start r) limit)] else [] in
      let '(rest, cur') := gaps_loop l' limit (Z.max cur (end_ r)) in
      (out ++ rest, cur')
  end.

Definition gaps (s : t) (limit : Z) : list ByteRange.t :=
  let '(out, cur) := gaps_loop (ranges s) limit 0 in
  if cur <? limit then out ++ [new cur limit] else out.

Definition is_complete (s : t) (total : Z) : bool :=
  match ranges s with
  | [only] => (start only =? 0) && (end_ only >=? total)
  | [] => total =? 0
  | _ => false
  end.

Definition contiguous_prefix (s : t) : Z :=
  match ranges s with
  | r :: _ => if start r =? 0 then end_ r else 0
  | [] => 0
  end.

Definition union_with (s other : t) : t := foldl insert s (iter other).

(** The checks of [assert_normalized], in its order. *)
Fixpoint assert_normalized_loop (l : list ByteRange.t) (prev : option ByteRange.t) : bool :=
  match l with
  | [] => true
  | r :: l' =>
      negb (ByteRange.is_empty r) &&
      match prev with Some p => end_ p <? start r | None => true end &&
      assert_normalized_loop l' (Some r)
  end.

Definition assert_normalized (s : t) : bool :=
  assert_normalized_loop (ranges s) None && (sum_len (ranges s) =? covered s).

(** The serde representation: a sequence of [(start, end)] pairs. *)
Definition serialize (s : t) : list (Z * Z) := (fun r => (start r, end_ r)) <$> ranges s.

Definition deserialize (raw : list (Z * Z)) : t :=
  from_ranges ((fun p => new p.1 p.2) <$> filter (fun p => p.1 < p.2) raw).

(** ** Normal form

    [norm lb l]: non-empty ranges in increasing order, separated by at least
    one offset, the first one after [lb]. *)
Fixpoint norm (lb : Z) (l : list ByteRange.t) : Prop :=
  match l with
  | [] => True
  | r :: l' => lb < start r /\ start r < end_ r /\ norm (end_ r) l'
  end.

Fixpoint total (l : list ByteRange.t) : Z :=
  match l with [] => 0 | r :: l' => (end_ r - start r) + total l' end.

Definition last_end (lb : Z) (l : list ByteRange.t) : Z := foldl (fun _ r => end_ r) lb l.

Definition bounded (l : list ByteRange.t) : Prop := Forall (fun r => end_ r <= u64_max) l.

Definition wf (s : t) : Prop :=
  norm (-1) (ranges s) /\ bounded (ranges s) /\ covered s = total (ranges s).

Definition in_list (x : Z) (l : list ByteRange.t) : Prop := Exists (ByteRange.mem x) l.
Definition mem (x : Z) (s : t) : Prop := in_list x (ranges s).

Lemma in_list_app x l1 l2 : in_list x (l1 ++ l2) <-> in_list x l1 \/ in_list x l2.
Proof. apply Exists_app. Qed.
Lemma in_list_cons x r l : in_list x (r :: l) <-> ByteRange.mem x r \/ in_list x l.
Proof. apply Exists_cons. Qed.
Lemma in_list_nil x : in_list x [] <-> False.
Proof. apply Exists_nil. Qed.

Lemma norm_weaken lb lb' l : lb' <= lb -> norm lb l -> norm lb' l.
Proof. destruct l; simpl; [done|]. intuition lia. Qed.

Lemma norm_app lb l1 l2 : norm lb (l1 ++ l2) <-> norm lb l1 /\ norm (last_end lb l1) l2.
Proof. revert lb. induction l1 as [|r l1 IH]; intros lb; simpl; [tauto|]. rewrite IH. tauto. Qed.

Lemma last_end_ge lb l : norm lb l -> lb <= last_end lb l.
Proof.
  revert lb. induction l as [|r l IH]; intros lb; simpl; [lia|].
  intros (?&?&H). specialize (IH _ H). unfold last_end in *. lia.
Qed.

Lemma last_end_le lb l b : lb <= b -> Forall (fun r => end_ r <= b) l -> last_end lb l <= b.
Proof. intros H HF. revert lb H. induction HF; intros lb H0; simpl; auto. Qed.

Lemma last_end_lt lb l b : lb < b -> Forall (fun r => end_ r < b) l -> last_end lb l < b.
Proof. intros H HF. revert lb H. induction HF; intros lb H0; simpl; auto. Qed.

Lemma norm_lb lb l : norm lb l -> Forall (fun r => lb < start r /\ start r < end_ r) l.
Proof.
  revert lb. induction l as [|r l IH]; intros lb; simpl; [constructor|].
  intros (?&?&H). constructor; [lia|].
  eapply Forall_impl; [apply (IH _ H)|]. simpl. intros; lia.
Qed.

Lemma in_list_lb lb l x : norm lb l -> in_list x l -> lb < x.
Proof.
  intros H Hx. apply norm_lb in H. apply Exists_exists in Hx as (r&Hr&Hm).
  rewrite Forall_forall in H. specialize (H _ Hr). unfold ByteRange.mem in Hm. lia.
Qed.

Lemma in_list_ub lb l x : norm lb l -> in_list x l -> x < last_end lb l.
Proof.
  revert lb. induction l as [|r l IH]; intros lb; simpl; [by rewrite in_list_nil|].
  intros (?&?&H). rewrite in_list_cons. intros [Hm|Hx]; [|by apply IH].
  pose proof (last_end_ge _ _ H). unfold ByteRange.mem in Hm. unfold last_end in *. lia.
Qed.

Lemma total_app l1 l2 : total (l1 ++ l2) = total l1 + total l2.
Proof. induction l1 as [|r l1 IH]; simpl; lia. Qed.

Lemma total_bound lb l : norm lb l -> 0 <= total l <= last_end lb l - lb.
Proof.
  revert lb. induction l as [|r l IH]; intros lb; simpl; [lia|].
  intros (?&?&H). specialize (IH _ H). unfold last_end in *. lia.
Qed.


(** [l1] ends before every range of [l2] starts: what the three parts cut out
    of a normalized vector satisfy. *)
Lemma norm_cut lb l1 r l2 :
  norm lb (l1 ++ r :: l2) -> Forall (fun x => end_ x < start r) l1.
Proof.
  revert lb. induction l1 as [|x l1 IH]; intros lb; simpl; [constructor|].
  intros (?&?&H). constructor; [|by eapply IH].
  apply norm_lb in H. apply Forall_app in H as [_ H]. inversion H; subst. lia.
Qed.

(** The predicates the operations bisect on are partitioned over a
    normalized vector, so [partition_point] is called within its contract. *)
Lemma norm_partitioned lb l (p : ByteRange.t -> bool) :
  (forall r r', start r < end_ r -> end_ r < start r' -> start r' < end_ r' ->
     p r' = true -> p r = true) ->
  norm lb l -> partitioned p l.
Proof.
  intros Hp. revert lb. unfold partitioned. induction l as [|r l IH]; intros lb; simpl; [constructor|].
  intros (?&?&H). destruct (p r) eqn:E; simpl; [by eapply IH|].
  constructor; [done|]. apply norm_lb in H. eapply Forall_impl; [apply H|].
  simpl. intros r' [? ?]. destruct (p r') eqn:E'; [|done].
  rewrite (Hp r r') in E; auto.
Qed.

(** Two bisections, the second predicate weaker than the first, cut a
    normalized vector in three: before, touched, after. *)
Record cut3 (p q : ByteRange.t -> bool) (l A M C : list ByteRange.t) : Prop := {
  cut_eq : l = A ++ M ++ C;
  cut_lo : partition_point p l = length A;
  cut_hi : partition_point q l = (length A + length M)%nat;
  cut_before : Forall (fun x => p x = true) A;
  cut_touched : Forall (fun x => p x = false /\ q x = true) M;
  cut_after : Forall (fun x => q x = false) C }.

Lemma cut3_exists p q l :
  partitioned p l -> partitioned q l -> (forall x, x ∈ l -> p x = true -> q x = true) ->
  exists A M C, cut3 p q l A M C.
Proof.
  intros Hp Hq Hpq. set (lo := partition_point p l). set (hi := partition_point q l).
  assert (Hle : (lo <= hi)%nat) by (by apply partition_point_mono).
  assert (Hhi : (hi <= length l)%nat) by apply partition_point_le.
  exists (take lo l), (take (hi - lo) (drop lo l)), (drop hi l). split.
  - by apply take_drop_3.
  - rewrite length_take. lia.
  - rewrite !length_take, length_drop. lia.
  - apply partition_point_take.
  - apply Forall_and. split; [by apply Forall_take|].
    pose proof (partition_point_take q l) as HF. fold hi in HF.
    rewrite take_drop_commute. apply Forall_drop.
    by replace (lo + (hi - lo))%nat with hi by lia.
  - exact Hq.
Qed.

Section cut3.
Context {p q l A M C} (Hc : cut3 p q l A M C).

Lemma cut3_splice X :
  splice l (partition_point p l) (partition_point q l) X = A ++ X ++ C.
Proof.
  destruct Hc as [-> -> -> _ _ _]. unfold splice. rewrite take_app_length.
  f_equal. f_equal. rewrite app_assoc, <- length_app. apply drop_app_length.
Qed.

Lemma cut3_middle :
  take (partition_point q l - partition_point p l) (drop (partition_point p l) l) = M.
Proof.
  destruct Hc as [-> -> -> _ _ _]. rewrite drop_app_length.
  replace (length A + length M - length A)%nat with (length M) by lia.
  apply take_app_length.
Qed.

Lemma cut3_empty : (partition_point q l <= partition_point p l)%nat -> M = [].
Proof. destruct Hc as [-> -> -> _ _ _]. intros. apply length_zero_iff_nil. lia. Qed.

Lemma cut3_index :
  M ≠ [] ->
  (exists m1 M', M = m1 :: M' /\ index l (partition_point p l) = m1) /\
  (exists M' mk, M = M' ++ [mk] /\ index l (partition_point q l - 1) = mk).
Proof.
  intros HM. destruct Hc as [-> -> -> _ _ _]. unfold index. split.
  - destruct M as [|m1 M']; [done|]. exists m1, M'. split; [done|].
    rewrite lookup_app_r by lia. rewrite Nat.sub_diag. done.
  - destruct (exists_last HM) as (M'&mk&->). exists M', mk. split; [done|].
    rewrite length_app; simpl. rewrite app_assoc. rewrite lookup_app_l by (rewrite !length_app; simpl; lia).
    rewrite app_assoc. rewrite lookup_app_r by (rewrite length_app; lia).
    rewrite length_app.
    replace (length A + (length M' + 1) - 1 - (length A + length M'))%nat with 0%nat by lia. done.
Qed.
End cut3.

Lemma sum_len_total_from l acc :
  Forall (fun r => 0 <= start r <= end_ r) l -> bounded l -> 0 <= acc -> acc + total l <= u64_max ->
  foldl (fun acc x => acc +% len x) acc l = acc + total l.
Proof.
  revert acc. induction l as [|r l IH]; intros acc H HB Ha Hb; simpl in *; [lia|].
  inversion H; subst. inversion HB; subst.
  assert (0 <= total l) by (clear -H3; induction H3; simpl; lia).
  rewrite len_wf by (split; [done|u64_lia]). rewrite u64_add_small by u64_lia.
  rewrite IH by (auto; lia). lia.
Qed.

Lemma sum_len_total l :
  Forall (fun r => 0 <= start r <= end_ r) l -> bounded l -> total l <= u64_max ->
  sum_len l = total l.
Proof. intros. unfold sum_len. rewrite sum_len_total_from by (auto; lia). lia. Qed.

(** *** Bounds shared by the proofs about [insert] and [remove] *)

Lemma norm_nonneg l : norm (-1) l -> Forall (fun r => 0 <= start r <= end_ r) l.
Proof. intros H. eapply Forall_impl; [by apply norm_lb in H|]. simpl. lia. Qed.

Lemma bounded_last lb l : lb <= u64_max -> bounded l -> last_end lb l <= u64_max.
Proof. intros. by apply last_end_le. Qed.

Lemma total_u64 l : norm (-1) l -> bounded l -> 0 <= total l <= u64_max.
Proof.
  destruct l as [|r l]; [simpl; u64_lia|]. intros H HB.
  pose proof H as Hn. simpl in Hn. destruct Hn as (?&?&Hn).
  inversion HB; subst. pose proof (total_bound _ _ Hn).
  pose proof (bounded_last (end_ r) l ltac:(done) ltac:(done)). simpl. u64_lia.
Qed.

Lemma last_end_snoc lb l r : last_end lb (l ++ [r]) = end_ r.
Proof. unfold last_end. rewrite foldl_app. done. Qed.

Lemma norm_sub lb l1 l2 : norm lb (l1 ++ l2) -> norm lb l2.
Proof.
  rewrite norm_app. intros [H1 H2]. eapply norm_weaken; [|exact H2]. by apply last_end_ge.
Qed.

Lemma norm_after lb b l : norm lb l -> Forall (fun r => b < start r) l -> norm b l.
Proof. destruct l; simpl; [done|]. intros (?&?&?) HF. inversion HF. auto. Qed.

Lemma norm_before_lt lb l b :
  norm lb l -> lb < b -> Forall (fun r => end_ r < b) l -> last_end lb l < b.
Proof. intros. by apply last_end_lt. Qed.

Lemma sum_middle A M C :
  norm (-1) (A ++ M ++ C) -> bounded (A ++ M ++ C) ->
  sum_len M = total M /\ 0 <= total M /\ total (A ++ M ++ C) = total A + total M + total C /\
  0 <= total A + total C /\ total A + total M + total C <= u64_max.
Proof.
  intros HN HB. pose proof (total_u64 _ HN HB) as HT.
  pose proof HN as HN'. rewrite norm_app in HN'. destruct HN' as [HA HMC].
  apply norm_sub in HN. pose proof HN as HM. rewrite norm_app in HM. destruct HM as [HM HC].
  unfold bounded in HB. rewrite !Forall_app in HB. destruct HB as (HBA&HBM&HBC).
  rewrite !total_app in *. apply norm_sub in HN.
  pose proof (total_u64 _ HM HBM). pose proof (total_u64 _ HA HBA). pose proof (total_u64 _ HN HBC).
  rewrite sum_len_total; [lia| |done|lia].
  by apply norm_nonneg.
Qed.

(** *** [insert] *)

(** The range [insert] puts in place of the touched ranges [M]. *)
Inductive hull (r : ByteRange.t) : list ByteRange.t -> ByteRange.t -> Prop :=
| hull_nil : hull r [] r
| hull_touched m1 M' M'' mk :
    m1 :: M' = M'' ++ [mk] ->
    hull r (m1 :: M') (new (Z.min (start r) (start m1)) (Z.max (end_ r) (end_ mk))).

Lemma insert_nop s r : ByteRange.is_empty r = true -> insert s r = s.
Proof. intros H. unfold insert. by rewrite H. Qed.

Lemma insert_shape s r :
  norm (-1) (ranges s) -> start r < end_ r ->
  exists A M C h,
    ranges s = A ++ M ++ C /\
    insert s r = mk (A ++ h :: C) (match M with
                                   | [] => covered s +% len r
                                   | _ => (covered s -% sum_len M) +% len h
                                   end) /\
    hull r M h /\ Forall (fun x => end_ x < start r) A /\
    Forall (fun x => start r <= end_ x /\ start x <= end_ r) M /\
    Forall (fun x => end_ r < start x) C.
Proof.
  intros HN Hr. unfold insert.
  assert (ByteRange.is_empty r = false) as -> by (by apply ByteRange.is_empty_false).
  set (p := fun x => end_ x <? start r). set (q := fun x => start x <=? end_ r).
  destruct (cut3_exists p q (ranges s)) as (A&M&C&Hc).
  { apply (norm_partitioned (-1)); [|done]. unfold p. intros. rewrite Z.ltb_lt in *. lia. }
  { apply (norm_partitioned (-1)); [|done]. unfold q. intros. rewrite Z.leb_le in *. lia. }
  { intros x Hx. unfold p, q. rewrite Z.ltb_lt, Z.leb_le. apply norm_lb in HN.
    rewrite Forall_forall in HN. specialize (HN _ Hx). simpl in HN. lia. }
  pose proof (cut3_splice Hc) as Hs. pose proof (cut3_middle Hc) as Hm.
  assert (HF : Forall (fun x => end_ x < start r) A /\
    Forall (fun x => start r <= end_ x /\ start x <= end_ r) M /\ Forall (fun x => end_ r < start x) C).
  { destruct Hc as [_ _ _ HA HM HC]. repeat split; (eapply Forall_impl; [eassumption|]); unfold p, q; simpl;
      intros x; rewrite ?Z.ltb_lt, ?Z.ltb_ge, ?Z.leb_gt, ?Z.leb_le; lia. }
  exists A, M, C. case Nat.eqb_spec; intros Hlh.
  - exists r. specialize (Hs [r]). rewrite <- Hlh in Hs.
    assert (M = []) as -> by (apply (cut3_empty Hc); lia).
    split; [by apply (cut_eq _ _ _ _ _ _ Hc)|]. split; [|split; [constructor|done]].
    by rewrite Hs.
  - assert (HM : M ≠ []).
    { intros ->. destruct Hc as [_ E1 E2 _ _ _]. simpl in E2. lia. }
    destruct (cut3_index Hc HM) as [(m1&M'&E1&I1) (M''&mk'&E2&I2)]. rewrite I1, I2, Hs, Hm.
    eexists. split; [by apply (cut_eq _ _ _ _ _ _ Hc)|]. split; [|split; [|done]].
    + rewrite E1. done.
    + rewrite E1 in E2 |- *. by eapply hull_touched.
Qed.

Lemma hull_spec lb r M h :
  ByteRange.wf r -> start r < end_ r -> hull r M h -> norm lb M -> bounded M -> -1 <= lb ->
  Forall (fun x => start r <= end_ x /\ start x <= end_ r) M ->
  0 <= start h /\ start h < end_ h /\ end_ h <= u64_max /\
  (start h = start r \/ exists m, m ∈ M /\ start h = start m) /\
  (end_ h = end_ r \/ exists m, m ∈ M /\ end_ h = end_ m) /\
  (forall x, ByteRange.mem x h <-> ByteRange.mem x r \/ in_list x M).
Proof.
  intros [? ?] Hr Hh HN HB Hlb HT. destruct Hh as [|m1 M' M'' mk E].
  { split_and!; auto; try lia. intros x. rewrite in_list_nil. tauto. }
  assert (HNm : norm (start m1 - 1) (m1 :: M')) by (simpl in HN |- *; intuition lia).
  assert (Hle : last_end (start m1 - 1) (m1 :: M') = end_ mk) by (rewrite E; apply last_end_snoc).
  assert (end_ mk <= u64_max /\ start r <= end_ mk /\ start mk <= end_ r /\ start mk < end_ mk).
  { rewrite E in HB, HT, HN. unfold bounded in HB. apply norm_lb in HN.
    rewrite Forall_app in HB, HT, HN. destruct HB as [_ HB], HT as [_ HT], HN as [_ HN].
    inversion HB; inversion HT; inversion HN; subst. intuition lia. }
  pose proof (last_end_ge _ _ HNm). simpl in HN. rewrite Hle in *.
  inversion HT as [|? ? [? ?] _]; subst. simpl. split; [lia|]. split; [lia|]. split; [lia|].
  split; [|split; [|intros x; split]].
  - destruct (Z.min_spec (start r) (start m1)) as [[? ->]|[? ->]]; [by left|right].
    exists m1. split; [left|done].
  - destruct (Z.max_spec (end_ r) (end_ mk)) as [[? ->]|[? ->]]; [right|by left].
    exists mk. split; [|done]. rewrite E. apply elem_of_app. right. left.
  - unfold ByteRange.mem at 1; simpl. intros Hx.
    destruct (Z_lt_le_dec x (start r)); [right; rewrite in_list_cons; left; unfold ByteRange.mem; lia|].
    destruct (Z_lt_le_dec x (end_ r)); [left; unfold ByteRange.mem; lia|].
    right. rewrite E. rewrite in_list_app, in_list_cons. right; left. unfold ByteRange.mem; lia.
  - unfold ByteRange.mem at 2; simpl. intros [Hm|Hx]; [unfold ByteRange.mem in Hm; lia|].
    pose proof (in_list_lb _ _ _ HNm Hx). pose proof (in_list_ub _ _ _ HNm Hx). lia.
Qed.

Lemma norm_cross lb l1 l2 x y :
  norm lb (l1 ++ l2) -> x ∈ l1 -> y ∈ l2 -> end_ x < start y.
Proof.
  intros H Hx Hy. apply list_elem_of_split in Hy as (B&C&->).
  rewrite app_assoc in H. apply norm_cut in H. rewrite Forall_app, !Forall_forall in H.
  destruct H as [H _]. auto.
Qed.

(** Replacing the middle of a normalized vector by one range that keeps clear
    of both sides keeps it normalized. *)
Lemma norm_replace A M C h :
  norm (-1) (A ++ M ++ C) -> start h < end_ h -> -1 < start h ->
  Forall (fun x => end_ x < start h) A -> Forall (fun x => end_ h < start x) C ->
  norm (-1) (A ++ h :: C).
Proof.
  intros HN Hh H0 HA HC. rewrite norm_app in HN |- *. destruct HN as [HN1 HN2].
  split; [done|]. simpl. split; [|split; [done|]].
  - by apply (norm_before_lt (-1)).
  - eapply norm_after; [|done]. by eapply norm_sub.
Qed.

Lemma in_list_replace x A M C h r :
  (ByteRange.mem x h <-> ByteRange.mem x r \/ in_list x M) ->
  in_list x (A ++ h :: C) <-> in_list x (A ++ M ++ C) \/ ByteRange.mem x r.
Proof. rewrite !in_list_app, in_list_cons. tauto. Qed.

Lemma insert_wf_mem s r :
  wf s -> ByteRange.wf r ->
  wf (insert s r) /\ forall x, mem x (insert s r) <-> mem x s \/ ByteRange.mem x r.
Proof.
  intros (HN&HB&HT) Hr. destruct (ByteRange.is_empty r) eqn:E.
  { rewrite insert_nop by done. split; [done|]. intros x.
    rewrite ByteRange.is_empty_spec in E. specialize (E x). tauto. }
  apply ByteRange.is_empty_false in E.
  destruct (insert_shape s r HN E) as (A&M&C&h&Es&Ei&Hh&HA&HM&HC).
  rewrite Ei. unfold mem, wf. simpl. rewrite Es in *.
  pose proof (sum_middle _ _ _ HN HB) as (S1&S2&S3&S4&S5).
  assert (HNM : norm (last_end (-1) A) M) by (rewrite !norm_app in HN; tauto).
  pose proof (last_end_ge (-1) A ltac:(rewrite norm_app in HN; tauto)) as HgeA.
  pose proof HB as HB'. unfold bounded in HB'. rewrite !Forall_app in HB'. destruct HB' as (HBA&HBM&HBC).
  destruct (hull_spec _ r M h Hr E Hh HNM HBM ltac:(lia) HM) as (Hlo&Hlt&Hub&Hs&He&Hmem).
  assert (HNew : norm (-1) (A ++ h :: C)).
  { rewrite Forall_forall in HA, HC. eapply norm_replace; [exact HN|done|lia| |];
      rewrite Forall_forall; intros x Hx.
    - destruct Hs as [->|(m&Hm&->)]; [by apply HA|].
      eapply norm_cross; [exact HN|done|]. apply elem_of_app; auto.
    - destruct He as [->|(m&Hm&->)]; [by apply HC|].
      rewrite app_assoc in HN. eapply norm_cross; [exact HN| |done]. apply elem_of_app; auto. }
  assert (HBnew : bounded (A ++ h :: C)) by (unfold bounded; rewrite Forall_app, Forall_cons; done).
  pose proof (total_u64 _ HNew HBnew) as HTn. rewrite total_app in HTn. simpl in HTn.
  split; [split; [done|split; [done|]]|].
  - rewrite total_app. simpl. rewrite HT, S3. destruct Hh as [|m1 M' M'' mk' EM].
    + rewrite len_wf by done. simpl in *. rewrite u64_add_small; u64_lia.
    + rewrite S1. rewrite len_wf by (split; [lia|u64_lia]).
      rewrite u64_sub_small by u64_lia. rewrite u64_add_small; u64_lia.
  - intros x. apply in_list_replace, Hmem.
Qed.

(** *** [remove] *)

(** What is left of the touched ranges: a head before [r], a tail after. *)
Definition remnants (r first last : ByteRange.t) : list ByteRange.t :=
  (if start first <? start r then [new (start first) (start r)] else []) ++
  (if end_ last >? end_ r then [new (end_ r) (end_ last)] else []).

Lemma remove_shape s r :
  norm (-1) (ranges s) -> start r < end_ r ->
  (remove s r = s /\ Forall (fun x => end_ x <= start r \/ end_ r <= start x) (ranges s)) \/
  exists A m1 M' M'' mk' C,
    ranges s = A ++ (m1 :: M') ++ C /\ m1 :: M' = M'' ++ [mk'] /\
    remove s r = mk (A ++ remnants r m1 mk' ++ C)
                    ((covered s -% sum_len (m1 :: M')) +% sum_len (remnants r m1 mk')) /\
    Forall (fun x => end_ x <= start r) A /\
    Forall (fun x => start r < end_ x /\ start x < end_ r) (m1 :: M') /\
    Forall (fun x => end_ r <= start x) C.
Proof.
  intros HN Hr. unfold remove.
  assert (ByteRange.is_empty r = false) as -> by (by apply ByteRange.is_empty_false).
  unfold is_empty. case_bool_decide as He; simpl.
  { left. rewrite He. split; [done|constructor]. }
  set (p := fun x => end_ x <=? start r). set (q := fun x => start x <? end_ r).
  destruct (cut3_exists p q (ranges s)) as (A&M&C&Hc).
  { apply (norm_partitioned (-1)); [|done]. unfold p. intros. rewrite Z.leb_le in *. lia. }
  { apply (norm_partitioned (-1)); [|done]. unfold q. intros. rewrite Z.ltb_lt in *. lia. }
  { intros x Hx. unfold p, q. rewrite Z.ltb_lt, Z.leb_le. apply norm_lb in HN.
    rewrite Forall_forall in HN. specialize (HN _ Hx). simpl in HN. lia. }
  pose proof (cut3_splice Hc) as Hs. pose proof (cut3_middle Hc) as Hm.
  assert (HF : Forall (fun x => end_ x <= start r) A /\
    Forall (fun x => start r < end_ x /\ start x < end_ r) M /\ Forall (fun x => end_ r <= start x) C).
  { destruct Hc as [_ _ _ HA HM HC]. repeat split; (eapply Forall_impl; [eassumption|]); unfold p, q; simpl;
      intros x; rewrite ?Z.ltb_lt, ?Z.ltb_ge, ?Z.leb_gt, ?Z.leb_le; lia. }
  destruct HF as (HA&HM&HC). case Nat.leb_spec; intros Hlh.
  - left. split; [done|]. rewrite (cut_eq _ _ _ _ _ _ Hc), (cut3_empty Hc Hlh). simpl.
    apply Forall_app. split; (eapply Forall_impl; [eassumption|]); simpl; auto.
  - right. assert (HM0 : M ≠ []).
    { intros ->. destruct Hc as [_ E1 E2 _ _ _]. simpl in E2. lia. }
    destruct (cut3_index Hc HM0) as [(m1&M'&E1&I1) (M''&mk'&E2&I2)]. rewrite I1, I2, Hs, Hm.
    exists A, m1, M', M'', mk', C. pose proof (cut_eq _ _ _ _ _ _ Hc) as Hl.
    rewrite E1 in HM, E2, Hl |- *. split_and!; done.
Qed.

Lemma remnants_spec lb r m1 M' M'' mk' :
  start r < end_ r -> m1 :: M' = M'' ++ [mk'] -> norm lb (m1 :: M') ->
  Forall (fun x => start r < end_ x /\ start x < end_ r) (m1 :: M') ->
  norm lb (remnants r m1 mk') /\ last_end lb (remnants r m1 mk') <= end_ mk' /\
  Forall (fun x => end_ x <= end_ mk' /\ start m1 <= start x) (remnants r m1 mk') /\
  forall x, in_list x (remnants r m1 mk') <-> in_list x (m1 :: M') /\ ~ ByteRange.mem x r.
Proof.
  intros Hr E HN HT.
  assert (HNm : norm (start m1 - 1) (m1 :: M')) by (simpl in HN |- *; intuition lia).
  assert (Hle : last_end (start m1 - 1) (m1 :: M') = end_ mk') by (rewrite E; apply last_end_snoc).
  assert (start r < end_ mk' /\ start mk' < end_ r /\ start mk' < end_ mk').
  { rewrite E in HT, HN. apply norm_lb in HN. rewrite Forall_app in HT, HN.
    destruct HT as [_ HT], HN as [_ HN]. inversion HT; inversion HN; subst. intuition lia. }
  pose proof (last_end_ge _ _ HNm) as Hge. rewrite Hle in Hge. simpl in HN.
  inversion HT as [|? ? [? ?] _]; subst.
  assert (HM : forall x, in_list x (m1 :: M') -> start m1 <= x < end_ mk').
  { intros x Hx. pose proof (in_list_lb _ _ _ HNm Hx). pose proof (in_list_ub _ _ _ HNm Hx). lia. }
  assert (Hm1 : forall x, ByteRange.mem x m1 -> in_list x (m1 :: M')) by (intros; rewrite in_list_cons; auto).
  assert (Hmk : forall x, ByteRange.mem x mk' -> in_list x (m1 :: M')).
  { intros. rewrite E, in_list_app, in_list_cons. auto. }
  unfold remnants. unfold ByteRange.mem in *. rewrite Z.gtb_ltb. split_and!.
  - case Z.ltb_spec; case Z.ltb_spec; simpl; intros; intuition lia.
  - unfold last_end. case Z.ltb_spec; case Z.ltb_spec; simpl; intros; intuition lia.
  - case Z.ltb_spec; case Z.ltb_spec; simpl; intros; repeat constructor; simpl; lia.
  - intros x. specialize (HM x). specialize (Hm1 x). specialize (Hmk x).
    assert (in_list x (m1 :: M') /\ ~ (start r <= x < end_ r) <->
            (start m1 <= x < start r) \/ (end_ r <= x < end_ mk')) as ->.
    { split; [intros [Hx Hn]; specialize (HM Hx); lia|].
      intros [Hx|Hx]; (split; [|lia]); [apply Hm1; lia|apply Hmk; lia]. }
    case Z.ltb_spec; case Z.ltb_spec; simpl; intros;
      rewrite ?in_list_cons, in_list_nil; unfold ByteRange.mem; simpl; lia.
Qed.

Lemma remove_nop s r : ByteRange.is_empty r = true -> remove s r = s.
Proof. intros H. unfold remove. by rewrite H. Qed.

Lemma remove_wf_mem s r :
  wf s -> ByteRange.wf r ->
  wf (remove s r) /\ forall x, mem x (remove s r) <-> mem x s /\ ~ ByteRange.mem x r.
Proof.
  intros (HN&HB&HT) Hr. destruct (ByteRange.is_empty r) eqn:E.
  { rewrite remove_nop by done. split; [done|]. intros x.
    rewrite ByteRange.is_empty_spec in E. specialize (E x). tauto. }
  apply ByteRange.is_empty_false in E.
  destruct (remove_shape s r HN E) as [[-> HF]|(A&m1&M'&M''&mk'&C&Es&EM&Ei&HA&HM&HC)].
  { split; [done|]. intros x. split; [|tauto]. intros Hx. split; [done|].
    apply Exists_exists in Hx as (y&Hy&Hm). rewrite Forall_forall in HF. specialize (HF _ Hy).
    unfold ByteRange.mem in *. lia. }
  rewrite Ei. unfold mem, wf. simpl ranges. simpl covered. rewrite Es in *.
  pose proof (sum_middle _ _ _ HN HB) as (S1&S2&S3&S4&S5).
  assert (HNM : norm (last_end (-1) A) (m1 :: M')) by (rewrite !norm_app in HN; tauto).
  destruct (remnants_spec _ r m1 M' M'' mk' E EM HNM HM) as (HNr&Hle&HFr&Hmem).
  pose proof HB as HB'. unfold bounded in HB'. rewrite !Forall_app in HB'. destruct HB' as (HBA&HBM&HBC).
  assert (Hmk : end_ mk' <= u64_max) by (rewrite EM, Forall_app, Forall_cons in HBM; tauto).
  set (X := remnants r m1 mk') in *.
  assert (HCmk : norm (end_ mk') C).
  { rewrite EM in HN. rewrite !norm_app in HN. rewrite last_end_snoc in HN. tauto. }
  assert (HNew : norm (-1) (A ++ X ++ C)).
  { rewrite !norm_app in *. split_and!; [tauto|done|]. eapply norm_weaken; [|done]. done. }
  assert (HBnew : bounded (A ++ X ++ C)).
  { unfold bounded. rewrite !Forall_app. split_and!; try done.
    eapply Forall_impl; [exact HFr|]. simpl. lia. }
  pose proof (sum_middle _ _ _ HNew HBnew) as (T1&T2&T3&T4&T5).
  split; [split; [done|split; [done|]]|].
  - rewrite T3, T1, S1, HT, S3. rewrite u64_sub_small by u64_lia. rewrite u64_add_small; u64_lia.
  - intros x. rewrite !in_list_app. rewrite Hmem.
    assert (in_list x A -> ~ ByteRange.mem x r).
    { intros (y&Hy&Hm)%Exists_exists. rewrite Forall_forall in HA. specialize (HA _ Hy).
      unfold ByteRange.mem in *. lia. }
    assert (in_list x C -> ~ ByteRange.mem x r).
    { intros (y&Hy&Hm)%Exists_exists. rewrite Forall_forall in HC. specialize (HC _ Hy).
      unfold ByteRange.mem in *. lia. }
    tauto.
Qed.

(** ** Queries *)

Lemma empty_wf : wf empty.
Proof. split_and!; [done|constructor|done]. Qed.

Lemma mem_empty x : mem x empty <-> False.
Proof. apply in_list_nil. Qed.

Lemma norm_end_gap lb A c B : norm lb (A ++ c :: B) -> ~ in_list (end_ c) (A ++ c :: B).
Proof.
  intros H. rewrite in_list_app, in_list_cons.
  pose proof (norm_cut _ _ _ _ H) as HA. apply norm_sub in H. simpl in H. destruct H as (?&?&HB).
  intros [(y&Hy&Hm)%Exists_exists|[Hm|Hx]].
  - rewrite Forall_forall in HA. specialize (HA _ Hy). unfold ByteRange.mem in Hm. lia.
  - unfold ByteRange.mem in Hm. lia.
  - apply (in_list_lb _ _ _ HB) in Hx. lia.
Qed.

(** Where [partition_point(|x| x.end <= off)] lands. *)
Lemma locate lb l off :
  norm lb l ->
  exists A B, l = A ++ B /\ partition_point (fun x => end_ x <=? off) l = length A /\
    Forall (fun x => end_ x <= off) A /\ Forall (fun x => off < end_ x) B.
Proof.
  intros HN. set (p := fun x => end_ x <=? off). exists (take (partition_point p l) l), (drop (partition_point p l) l).
  pose proof (partition_point_le p l).
  assert (Hp : partitioned p l).
  { apply (norm_partitioned lb); [|done]. unfold p. intros. rewrite Z.leb_le in *. lia. }
  split_and!; [by rewrite take_drop|rewrite length_take; lia| |].
  - eapply Forall_impl; [apply partition_point_take|]. unfold p; simpl. intros x. by rewrite Z.leb_le.
  - eapply Forall_impl; [apply Hp|]. unfold p; simpl. intros x. rewrite Z.leb_gt. lia.
Qed.

Lemma before_not_mem A x off :
  Forall (fun r => end_ r <= off) A -> off <= x -> ~ in_list x A.
Proof.
  intros HA Hx (y&Hy&Hm)%Exists_exists. rewrite Forall_forall in HA. specialize (HA _ Hy).
  unfold ByteRange.mem in Hm. lia.
Qed.

Lemma after_not_mem lb B x : norm lb B -> x <= lb -> ~ in_list x B.
Proof. intros HB Hx H. apply (in_list_lb _ _ _ HB) in H. lia. Qed.

Lemma lookup_middle {A} (l1 l2 : list A) : (l1 ++ l2) !! length l1 = head l2.
Proof. rewrite lookup_app_r by lia. rewrite Nat.sub_diag. by destruct l2. Qed.

Lemma lookup_middle_S {A} (l1 l2 : list A) : (l1 ++ l2) !! S (length l1) = l2 !! 1%nat.
Proof. rewrite lookup_app_r by lia. f_equal. lia. Qed.

Lemma contains_mem s off : norm (-1) (ranges s) -> contains s off = true <-> mem off s.
Proof.
  intros HN. unfold contains, mem. destruct (locate _ _ off HN) as (A&B&E&->&HA&HB).
  rewrite E in *. rewrite lookup_middle. rewrite in_list_app.
  pose proof (before_not_mem A off off HA ltac:(lia)) as HnA.
  destruct B as [|c B]; simpl; [rewrite in_list_nil; split; [done|tauto]|].
  rewrite in_list_cons, contains_spec. apply norm_sub in HN. simpl in HN. destruct HN as (?&?&HN).
  inversion HB; subst. pose proof (after_not_mem _ _ off HN ltac:(lia)). tauto.
Qed.

Lemma contains_range_mem s r :
  norm (-1) (ranges s) ->
  contains_range s r = true <-> forall x, ByteRange.mem x r -> mem x s.
Proof.
  intros HN. unfold contains_range. destruct (ByteRange.is_empty r) eqn:Er.
  { rewrite ByteRange.is_empty_spec in Er. split; [|done]. intros _ x Hx. by apply Er in Hx. }
  apply ByteRange.is_empty_false in Er. unfold mem.
  destruct (locate _ _ (start r) HN) as (A&B&E&->&HA&HB). rewrite E in *.
  rewrite lookup_middle.
  assert (Hs : ByteRange.mem (start r) r) by (unfold ByteRange.mem; lia).
  pose proof (before_not_mem A (start r) (start r) HA ltac:(lia)) as HnA.
  destruct B as [|c B]; simpl.
  { split; [done|]. intros Hr. specialize (Hr _ Hs). rewrite in_list_app, in_list_nil in Hr. tauto. }
  pose proof (norm_end_gap _ _ _ _ HN) as Hgap.
  apply norm_sub in HN. simpl in HN. destruct HN as (?&?&HN). inversion HB; subst.
  rewrite andb_true_iff, Z.leb_le, Z.geb_le. split.
  - intros [? ?] x Hx. rewrite in_list_app, in_list_cons. right; left.
    unfold ByteRange.mem in *. lia.
  - intros Hr. pose proof (Hr _ Hs) as Hm. rewrite in_list_app, in_list_cons in Hm.
    pose proof (after_not_mem _ _ (start r) HN ltac:(lia)).
    destruct Hm as [?|[Hm|?]]; try tauto. unfold ByteRange.mem in Hm. split; [lia|].
    destruct (Z_lt_le_dec (end_ c) (end_ r)); [|lia]. exfalso. apply Hgap, Hr.
    unfold ByteRange.mem. lia.
Qed.

Lemma first_gap_Some s from limit g :
  norm (-1) (ranges s) -> first_gap s from limit = Some g ->
  from <= start g < end_ g /\ end_ g <= limit /\
  (forall x, from <= x < start g -> mem x s) /\
  (forall x, ByteRange.mem x g -> ~ mem x s) /\
  (end_ g = limit \/ mem (end_ g) s).
Proof.
  intros HN. unfold first_gap, mem. rewrite Z.geb_leb. case Z.leb_spec; [done|]. intros Hfl.
  destruct (locate _ _ from HN) as (A&B&E&->&HA&HB). rewrite E in *.
  rewrite lookup_middle, lookup_middle_S. destruct B as [|c B]; simpl.
  { intros [= <-]. simpl. split_and!; [lia|lia|lia|intros; lia| |by left]. unfold ByteRange.mem; simpl.
    intros x Hx. rewrite in_list_app, in_list_nil.
    pose proof (before_not_mem A x from HA ltac:(lia)). tauto. }
  pose proof (norm_sub _ _ _ HN) as HN'. simpl in HN'. destruct HN' as (?&?&HN').
  inversion HB as [|? ? Hc HB']; subst. rewrite Z.gtb_ltb, Z.geb_leb.
  assert (HnA : forall x, from <= x -> ~ in_list x A) by (intros; by eapply before_not_mem).
  case Z.ltb_spec; intros Hst; [|case Z.leb_spec; [done|]; intros Hend].
  - intros [= <-]. simpl. split_and!; [lia|lia|lia|intros; lia| |].
    + unfold ByteRange.mem; simpl. intros x Hx. rewrite in_list_app, in_list_cons.
      specialize (HnA x). pose proof (after_not_mem _ _ x HN' ltac:(lia)).
      unfold ByteRange.mem. intros [?|[?|?]]; [apply HnA; [lia|done]|lia|done].
    + destruct (Z.min_spec (start c) limit) as [[? ->]|[? ->]]; [right|by left].
      rewrite in_list_app, in_list_cons. right; left. unfold ByteRange.mem; lia.
  - intros [= <-]. simpl.
    assert (Hin : forall x, from <= x < end_ c -> in_list x (A ++ c :: B)).
    { intros x Hx. rewrite in_list_app, in_list_cons. right; left. unfold ByteRange.mem; lia. }
    destruct B as [|n B]; simpl in *.
    + split_and!; [lia|lia|lia|intros; apply Hin; lia| |by left]. unfold ByteRange.mem at 1; simpl. intros x Hx.
      rewrite in_list_app, in_list_cons, in_list_nil. unfold ByteRange.mem.
      intros [?|[?|?]]; [eapply HnA; [|done]; lia|lia|done].
    + destruct HN' as (?&?&HN'). split_and!; [lia|lia|lia|intros; apply Hin; lia| |].
      * unfold ByteRange.mem at 1; simpl. intros x Hx.
        rewrite in_list_app, !in_list_cons. unfold ByteRange.mem.
        pose proof (after_not_mem _ _ x HN' ltac:(lia)).
        intros [?|[?|[?|?]]]; [eapply HnA; [|done]; lia|lia|lia|done].
      * destruct (Z.min_spec (start n) limit) as [[? ->]|[? ->]]; [right|by left].
        rewrite in_list_app, !in_list_cons. right; right; left. unfold ByteRange.mem; lia.
Qed.

Lemma first_gap_None s from limit :
  norm (-1) (ranges s) -> first_gap s from limit = None ->
  forall x, from <= x < limit -> mem x s.
Proof.
  intros HN. unfold first_gap, mem. rewrite Z.geb_leb. case Z.leb_spec; [lia|]. intros Hfl.
  destruct (locate _ _ from HN) as (A&B&E&->&HA&HB). rewrite E.
  rewrite lookup_middle, lookup_middle_S. destruct B as [|c B]; simpl; [done|].
  rewrite Z.gtb_ltb, Z.geb_leb. case Z.ltb_spec; [done|]. case Z.leb_spec; [|done].
  intros ? ? _ x Hx. rewrite in_list_app, in_list_cons. right; left. unfold ByteRange.mem; lia.
Qed.

(** *** [gaps] *)

(** [gaps] from loop position [cur], the final push included. *)
Definition gaps_from (l : list ByteRange.t) (limit cur : Z) : list ByteRange.t :=
  let '(out, cur') := gaps_loop l limit cur in
  if cur' <? limit then out ++ [new cur' limit] else out.

Lemma gaps_from_cons r l limit cur :
  gaps_from (r :: l) limit cur =
  if start r >=? limit then (if cur <? limit then [new cur limit] else [])
  else (if start r >? cur then [new cur (Z.min (start r) limit)] else []) ++
       gaps_from l limit (Z.max cur (end_ r)).
Proof.
  unfold gaps_from; simpl. destruct (start r >=? limit); simpl; [done|].
  destruct (gaps_loop l limit (Z.max cur (end_ r))) as [out cur'].
  destruct (cur' <? limit); [|done]. by rewrite app_assoc.
Qed.

Lemma gaps_from_last l limit cur :
  (forall x, cur <= x < limit -> ~ in_list x l) ->
  let out := if cur <? limit then [new cur limit] else [] in
  norm (cur - 1) out /\ Forall (fun g => end_ g <= limit) out /\
  forall x, in_list x out <-> cur <= x < limit /\ ~ in_list x l.
Proof.
  intros Hl. simpl. case Z.ltb_spec; intros Hc.
  - split; [simpl; lia|]. split; [by repeat constructor|]. intros x. specialize (Hl x).
    rewrite in_list_cons, in_list_nil. unfold ByteRange.mem; simpl. tauto.
  - split; [done|]. split; [constructor|]. intros x. rewrite in_list_nil. lia.
Qed.

Lemma gaps_from_spec l limit cur lb :
  norm lb l -> lb <= cur -> Forall (fun r => cur <= start r) l ->
  norm (cur - 1) (gaps_from l limit cur) /\
  Forall (fun g => end_ g <= limit) (gaps_from l limit cur) /\
  forall x, in_list x (gaps_from l limit cur) <-> cur <= x < limit /\ ~ in_list x l.
Proof.
  revert cur lb. induction l as [|r l IH]; intros cur lb HN Hlb HF.
  { unfold gaps_from; simpl. apply gaps_from_last. intros x _ Hx. by apply in_list_nil in Hx. }
  rewrite gaps_from_cons. simpl in HN. destruct HN as (?&?&HN). inversion HF as [|? ? Hc _]; subst.
  assert (Hafter : forall x, x < start r -> ~ in_list x (r :: l)).
  { intros x Hx. eapply (after_not_mem (start r - 1)); [|lia]. simpl. split_and!; [lia|done|done]. }
  rewrite Z.geb_leb, Z.gtb_ltb. case Z.leb_spec; intros Hl.
  { apply gaps_from_last. intros x Hx. apply Hafter. lia. }
  replace (Z.max cur (end_ r)) with (end_ r) by lia.
  destruct (IH (end_ r) (end_ r) HN ltac:(lia)) as (IN&IF&IM).
  { eapply Forall_impl; [by eapply norm_lb|]. simpl. lia. }
  replace (Z.min (start r) limit) with (start r) by lia.
  split_and!.
  - case Z.ltb_spec; simpl; intros; [split_and!; [lia|lia|]|]; eapply norm_weaken; [|done| |done]; lia.
  - case Z.ltb_spec; simpl; intros; [constructor; [simpl; lia|]|]; done.
  - intros x. rewrite in_list_app, IM. specialize (Hafter x). rewrite in_list_cons in Hafter |- *.
    pose proof (after_not_mem _ _ x HN) as Hnl. unfold ByteRange.mem in *.
    case Z.ltb_spec; intros; rewrite ?in_list_cons, in_list_nil; unfold ByteRange.mem; simpl;
      destruct (Z_lt_le_dec x (start r)), (Z_lt_le_dec x (end_ r)); try tauto;
      intuition lia.
Qed.

Lemma gaps_spec s limit :
  norm (-1) (ranges s) ->
  norm (-1) (gaps s limit) /\ Forall (fun g => end_ g <= limit) (gaps s limit) /\
  forall x, in_list x (gaps s limit) <-> 0 <= x < limit /\ ~ mem x s.
Proof.
  intros HN. apply (gaps_from_spec (ranges s) limit 0 (-1) HN ltac:(lia)).
  eapply Forall_impl; [by eapply norm_lb|]. simpl. lia.
Qed.

(** *** The representation is canonical *)

Lemma norm_ext lb l1 l2 :
  norm lb l1 -> norm lb l2 -> (forall x, in_list x l1 <-> in_list x l2) -> l1 = l2.
Proof.
  assert (Hhd : forall lb r l l', norm lb (r :: l) -> norm lb l' ->
    (forall x, in_list x (r :: l) <-> in_list x l') -> exists r' l'', l' = r' :: l'' /\ start r' <= start r).
  { intros lb' r l l' HN HN' HE. destruct l' as [|r' l''].
    - exfalso. apply (in_list_nil (start r)), HE. rewrite in_list_cons. left.
      simpl in HN. unfold ByteRange.mem; lia.
    - exists r', l''. split; [done|]. simpl in HN.
      assert (Hin : in_list (start r) (r' :: l'')).
      { apply HE. rewrite in_list_cons. left. unfold ByteRange.mem; lia. }
      assert (HN2 : norm (start r' - 1) (r' :: l'')) by (simpl in *; intuition lia).
      apply (in_list_lb _ _ _ HN2) in Hin. lia. }
  assert (Hend : forall lb r l r' l', norm lb (r :: l) -> norm lb (r' :: l') -> start r = start r' ->
    (forall x, in_list x (r :: l) <-> in_list x (r' :: l')) -> end_ r <= end_ r').
  { intros lb' r l r' l' HN HN' Hst HE. destruct (Z_lt_le_dec (end_ r') (end_ r)); [|lia]. exfalso.
    apply (norm_end_gap lb' [] r' l' HN'). simpl. apply HE. rewrite in_list_cons. left.
    simpl in HN'. unfold ByteRange.mem. lia. }
  revert lb l2. induction l1 as [|r1 l1 IH]; intros lb l2 H1 H2 HE.
  { destruct l2 as [|r2 l2]; [done|]. destruct (Hhd _ _ _ _ H2 H1) as (?&?&?&?); [|done].
    intros x. by rewrite HE. }
  assert (HE' : forall x, in_list x l2 <-> in_list x (r1 :: l1)) by (intros x; by rewrite HE).
  destruct (Hhd _ _ _ _ H1 H2 HE) as (r2&l2'&->&Hs1).
  destruct (Hhd _ _ _ _ H2 H1 HE') as (?&?&[= <- <-]&Hs2).
  assert (Hs : start r1 = start r2) by lia.
  pose proof (Hend _ _ _ _ _ H1 H2 Hs HE). pose proof (Hend _ _ _ _ _ H2 H1 (eq_sym Hs) HE').
  assert (r1 = r2) as <- by (destruct r1, r2; simpl in *; f_equal; lia).
  f_equal. simpl in H1, H2. apply (IH (end_ r1)); [tauto|tauto|].
  intros x. specialize (HE x). rewrite !in_list_cons in HE.
  destruct H1 as (?&?&H1), H2 as (?&?&H2).
  pose proof (in_list_lb _ _ x H1). pose proof (in_list_lb _ _ x H2).
  unfold ByteRange.mem in HE. intuition lia.
Qed.

Lemma wf_ext s1 s2 : wf s1 -> wf s2 -> (forall x, mem x s1 <-> mem x s2) -> s1 = s2.
Proof.
  intros (N1&_&C1) (N2&_&C2) HE. pose proof (norm_ext _ _ _ N1 N2 HE) as E.
  destruct s1, s2; simpl in *; subst. done.
Qed.

(** *** [is_complete] *)

Lemma is_complete_spec s total0 : wf s -> 0 <= total0 -> (forall x, mem x s -> 0 <= x < total0) ->
  is_complete s total0 = true <-> forall x, 0 <= x < total0 -> mem x s.
Proof.
  intros (HN&_&_) Ht Hin. unfold is_complete, mem in *. destruct (ranges s) as [|r [|r' l]]; simpl in HN.
  - rewrite Z.eqb_eq. split; [intros ->; lia|]. intros H.
    destruct (Z.eq_dec total0 0); [done|]. exfalso. by apply (in_list_nil 0), H; lia.
  - rewrite andb_true_iff, Z.eqb_eq, Z.geb_le.
    assert (Hs : in_list (end_ r - 1) [r]) by (rewrite in_list_cons; left; unfold ByteRange.mem; lia).
    apply Hin in Hs. split.
    + intros [? ?] x Hx. rewrite in_list_cons. left. unfold ByteRange.mem. lia.
    + intros H. assert (H0 : in_list 0 [r]) by (apply H; lia).
      assert (Hl : in_list (total0 - 1) [r]) by (apply H; lia).
      rewrite in_list_cons, in_list_nil in H0, Hl. unfold ByteRange.mem in *. lia.
  - split; [done|]. intros H. exfalso.
    apply (norm_end_gap (start r - 1) [] r (r' :: l)); [simpl; intuition lia|]. apply H.
    destruct HN as (?&?&?&?&_). split; [lia|].
    assert (Hs : in_list (start r') (r :: r' :: l)) by (rewrite !in_list_cons; right; left; unfold ByteRange.mem; lia).
    apply Hin in Hs. lia.
Qed.

(** *** Folding [insert] *)

Lemma insert_all_wf_mem s it :
  wf s -> Forall ByteRange.wf it ->
  wf (foldl insert s it) /\ forall x, mem x (foldl insert s it) <-> mem x s \/ in_list x it.
Proof.
  intros Hs HF. revert s Hs. induction HF as [|r it Hr _ IH]; intros s Hs; simpl.
  { split; [done|]. intros x. rewrite in_list_nil. tauto. }
  destruct (insert_wf_mem s r Hs Hr) as [Hw Hm]. destruct (IH _ Hw) as [Hw' Hm'].
  split; [done|]. intros x. rewrite Hm', Hm, in_list_cons. tauto.
Qed.

Lemma wf_ranges s : wf s -> Forall ByteRange.wf (ranges s).
Proof.
  intros (HN&HB&_). apply norm_nonneg in HN. unfold bounded in HB.
  rewrite Forall_forall in *. intros r Hr. split; auto.
Qed.

Lemma assert_normalized_norm l prev lb :
  match prev with Some p => end_ p = lb | None => True end ->
  (prev = None -> Forall (fun r => lb < start r) l) ->
  assert_normalized_loop l prev = true <-> norm lb l.
Proof.
  revert prev lb. induction l as [|r l IH]; intros prev lb Hp Hn; simpl; [done|].
  rewrite !andb_true_iff, negb_true_iff, ByteRange.is_empty_false.
  rewrite (IH (Some r) (end_ r)) by done.
  destruct prev as [p|]; [rewrite Z.ltb_lt, Hp; tauto|].
  specialize (Hn eq_refl). inversion Hn; subst. tauto.
Qed.
End RangeSet.

(** ** The byte model

    What the property-based test of the source checks on random inputs, for all
    of them: a range set driven by any sequence of insertions and removals
    behaves as one boolean per offset. *)

Module ByteModel.
Inductive op := Insert (r : ByteRange.t) | Remove (r : ByteRange.t).

Definition op_range (o : op) : ByteRange.t := match o with Insert r | Remove r => r end.

Definition apply (s : RangeSet.t) (o : op) : RangeSet.t :=
  match o with
  | Insert r => RangeSet.insert s r
  | Remove r => RangeSet.remove s r
  end.

Definition run (ops : list op) : RangeSet.t := foldl apply RangeSet.empty ops.

Definition apply_model (m : Z -> bool) (o : op) : Z -> bool :=
  match o with
  | Insert r => fun x => m x || ByteRange.contains r x
  | Remove r => fun x => m x && negb (ByteRange.contains r x)
  end.

Definition run_model (ops : list op) : Z -> bool := foldl apply_model (fun _ => false) ops.

Lemma apply_refines s m o :
  RangeSet.wf s -> (forall x, RangeSet.mem x s <-> m x = true) -> ByteRange.wf (op_range o) ->
  RangeSet.wf (apply s o) /\ forall x, RangeSet.mem x (apply s o) <-> apply_model m o x = true.
Proof.
  intros Hw Hm Hr. destruct o as [r|r]; simpl in *.
  - destruct (RangeSet.insert_wf_mem s r Hw Hr) as [? E]. split; [done|]. intros x.
    rewrite E, Hm, orb_true_iff, ByteRange.contains_spec. done.
  - destruct (RangeSet.remove_wf_mem s r Hw Hr) as [? E]. split; [done|]. intros x.
    rewrite E, Hm, andb_true_iff, negb_true_iff, <- not_true_iff_false, ByteRange.contains_spec. done.
Qed.

Lemma run_refines ops s m :
  RangeSet.wf s -> (forall x, RangeSet.mem x s <-> m x = true) ->
  Forall (fun o => ByteRange.wf (op_range o)) ops ->
  RangeSet.wf (foldl apply s ops) /\
  forall x, RangeSet.mem x (foldl apply s ops) <-> foldl apply_model m ops x = true.
Proof.
  intros Hw Hm HF. revert s m Hw Hm. induction HF as [|o ops Ho _ IH]; intros s m Hw Hm; simpl; [done|].
  destruct (apply_refines s m o Hw Hm Ho). by apply IH.
Qed.
End ByteModel.

Section counting.
Import ByteRange RangeSet.

Lemma wf_assert_normalized s : RangeSet.wf s -> assert_normalized s = true.
Proof.
  intros Hw. pose proof Hw as (HN&HB&HC). unfold assert_normalized.
  rewrite andb_true_iff. split.
  - apply (assert_normalized_norm _ None (-1)); [done| |done]. intros _.
    eapply Forall_impl; [apply (norm_lb _ _ HN)|]. simpl. lia.
  - apply Z.eqb_eq. rewrite HC. apply sum_len_total; [by apply norm_nonneg|done|].
    by apply total_u64.
Qed.

Lemma filter_length_none {A} (P : A -> Prop) `{!forall x, Decision (P x)} (l : list A) :
  Forall (fun x => ~ P x) l -> length (filter P l) = 0%nat.
Proof. induction 1 as [|x l Hx _ IH]; [done|]. rewrite filter_cons_False by done. done. Qed.

Lemma filter_length_all {A} (P : A -> Prop) `{!forall x, Decision (P x)} (l : list A) :
  Forall P l -> length (filter P l) = length l.
Proof. induction 1 as [|x l Hx _ IH]; [done|]. rewrite filter_cons_True by done. simpl. by rewrite IH. Qed.

Lemma filter_length_ext {A} (P Q : A -> Prop)
    `{!forall x, Decision (P x)} `{!forall x, Decision (Q x)} (l : list A) :
  Forall (fun x => P x <-> Q x) l -> length (filter P l) = length (filter Q l).
Proof.
  induction 1 as [|x l Hx _ IH]; [done|]. destruct (decide (P x)).
  - rewrite !filter_cons_True by tauto. simpl. by rewrite IH.
  - rewrite !filter_cons_False by tauto. done.
Qed.

#[export] Instance in_list_dec x l : Decision (in_list x l).
Proof.
  unfold in_list. apply Exists_dec. intros r. unfold ByteRange.mem. apply _.
Defined.

(** The offsets of [[lo, hi)] a normalized vector covers. *)
Lemma total_counts lb l hi :
  norm lb l -> Forall (fun r => end_ r <= hi) l -> lb < hi ->
  Z.of_nat (length (filter (fun x => in_list x l) (seqZ (lb + 1) (hi - (lb + 1))))) = total l.
Proof.
  revert lb. induction l as [|r l IH]; intros lb HN HF Hlb; simpl.
  { rewrite filter_length_none; [done|]. apply Forall_forall. by intros x _ ?%in_list_nil. }
  simpl in HN. destruct HN as (?&?&HN). inversion HF as [|? ? Hr HF']; subst.
  replace (hi - (lb + 1)) with ((start r - (lb + 1)) + (end_ r - start r) + (hi - end_ r)) by lia.
  rewrite !seqZ_app by lia. rewrite !filter_app, !length_app.
  replace (lb + 1 + (start r - (lb + 1))) with (start r) by lia.
  replace (lb + 1 + (start r - (lb + 1) + (end_ r - start r))) with (end_ r) by lia.
  rewrite filter_length_none.
  2: { apply Forall_forall. intros x Hx%elem_of_seqZ Hin. rewrite in_list_cons in Hin.
       unfold ByteRange.mem in Hin. destruct Hin as [?|Hin]; [lia|].
       apply (in_list_lb _ _ _ HN) in Hin. lia. }
  rewrite filter_length_all.
  2: { apply Forall_forall. intros x Hx%elem_of_seqZ. rewrite in_list_cons. unfold ByteRange.mem. lia. }
  rewrite length_seqZ.
  assert (Hrest : Z.of_nat (length (filter (fun x => in_list x (r :: l)) (seqZ (end_ r) (hi - end_ r)))) = total l).
  { destruct (Z_lt_le_dec (end_ r) hi) as [Hlt|Hge].
    - rewrite <- (IH (end_ r)) by done.
      replace (hi - end_ r) with (1 + (hi - (end_ r + 1))) by lia.
      rewrite seqZ_app by lia. rewrite filter_app, length_app.
      rewrite (filter_length_none _ (seqZ (end_ r) 1)).
      2: { apply Forall_forall. intros x Hx%elem_of_seqZ. pose proof (norm_end_gap (start r - 1) [] r l) as Hg.
           simpl in Hg. replace x with (end_ r) by lia. apply Hg. split_and!; [lia|done|done]. }
      f_equal. apply filter_length_ext, Forall_forall. intros x Hx%elem_of_seqZ.
      rewrite in_list_cons. unfold ByteRange.mem. intuition lia.
    - assert (l = []) as ->.
      { destruct l as [|r2 l]; [done|]. simpl in HN. inversion HF'; subst. lia. }
      rewrite seqZ_nil by lia. done. }
  lia.
Qed.
End counting.

(** ** Theorems *)

(** C25. Whatever sequence of insertions and removals drives a range set, it
    stays normalized (its own [assert_normalized] passes, the cached [covered]
    counter included) and [contains] answers as the one-boolean-per-offset
    model does. *)
Theorem range_ops_refine_byte_model (ops : list ByteModel.op)
    (Hops : Forall (fun o => ByteRange.wf (ByteModel.op_range o)) ops) :
  RangeSet.wf (ByteModel.run ops) /\
  RangeSet.assert_normalized (ByteModel.run ops) = true /\
  forall x, RangeSet.contains (ByteModel.run ops) x = ByteModel.run_model ops x.
Proof.
  destruct (ByteModel.run_refines ops RangeSet.empty (fun _ => false)) as [Hw Hm].
  { apply RangeSet.empty_wf. }
  { intros x. rewrite RangeSet.mem_empty. done. }
  { done. }
  split; [done|]. split; [by apply wf_assert_normalized|]. intros x.
  apply eq_true_iff_eq. rewrite RangeSet.contains_mem by apply Hw. apply Hm.
Qed.

Lemma range_ops_refine_byte_model_witness :
  let ops := [ByteModel.Insert (ByteRange.new 10 20); ByteModel.Insert (ByteRange.new 20 30);
              ByteModel.Remove (ByteRange.new 15 25)] in
  RangeSet.ranges (ByteModel.run ops) = [ByteRange.new 10 15; ByteRange.new 25 30] /\
  RangeSet.covered (ByteModel.run ops) = 10 /\
  RangeSet.assert_normalized (ByteModel.run ops) = true.
Proof.
  split; [reflexivity|]. split; [reflexivity|].
  apply range_ops_refine_byte_model. repeat constructor; simpl; u64_lia.
Defined.

(** [covered_len] is the number of offsets in the set: no drift of the
    incrementally maintained counter, and no wrap-around. *)
Theorem covered_len_counts_offsets (s : RangeSet.t) (hi : Z)
    (Hw : RangeSet.wf s) (Hhi : Forall (fun r => ByteRange.end_ r <= hi) (RangeSet.ranges s))
    (Hpos : 0 <= hi) :
  RangeSet.covered_len s =
  Z.of_nat (length (filter (fun x => RangeSet.contains s x = true) (seqZ 0 hi))).
Proof.
  destruct Hw as (HN&HB&HC). unfold RangeSet.covered_len. rewrite HC.
  rewrite <- (total_counts (-1) (RangeSet.ranges s) hi) by (done || lia).
  f_equal. replace (hi - (-1 + 1)) with hi by lia.
  apply filter_length_ext, Forall_forall. intros x _.
  by rewrite RangeSet.contains_mem.
Qed.

Lemma covered_len_counts_offsets_witness :
  RangeSet.covered_len (RangeSet.from_ranges [ByteRange.new 3 5; ByteRange.new 8 9]) =
  Z.of_nat (length (filter (fun x => RangeSet.contains
     (RangeSet.from_ranges [ByteRange.new 3 5; ByteRange.new 8 9]) x = true) (seqZ 0 16))).
Proof.
  apply covered_len_counts_offsets; [|repeat constructor; simpl; lia|lia].
  split; [simpl; lia|]. split; [repeat constructor; simpl; u64_lia|reflexivity].
Defined.

(** [first_gap] returns the first maximal uncovered span at or after
    [from], cut at [limit], and [None] exactly when everything is covered. *)
Theorem first_gap_correct (s : RangeSet.t) (from limit : Z) (Hw : RangeSet.wf s) :
  match RangeSet.first_gap s from limit with
  | Some g =>
      from <= ByteRange.start g < ByteRange.end_ g /\ ByteRange.end_ g <= limit /\
      (forall x, from <= x < ByteRange.start g -> RangeSet.contains s x = true) /\
      (forall x, ByteRange.mem x g -> RangeSet.contains s x = false) /\
      (ByteRange.end_ g = limit \/ RangeSet.contains s (ByteRange.end_ g) = true)
  | None => forall x, from <= x < limit -> RangeSet.contains s x = true
  end.
Proof.
  destruct Hw as (HN&_&_). destruct (RangeSet.first_gap s from limit) as [g|] eqn:E.
  - destruct (RangeSet.first_gap_Some _ _ _ _ HN E) as (?&?&Hb&Hi&He).
    split; [done|]. split; [done|]. setoid_rewrite <- not_true_iff_false.
    setoid_rewrite RangeSet.contains_mem; [|done..]. done.
  - intros x Hx. rewrite RangeSet.contains_mem by done. by eapply RangeSet.first_gap_None.
Qed.

Lemma first_gap_correct_witness :
  let s := RangeSet.from_ranges [ByteRange.new 0 4; ByteRange.new 8 12] in
  RangeSet.first_gap s 2 20 = Some (ByteRange.new 4 8) /\
  RangeSet.contains s 3 = true.
Proof.
  split; [reflexivity|].
  assert (Hw : RangeSet.wf (RangeSet.from_ranges [ByteRange.new 0 4; ByteRange.new 8 12])).
  { split; [simpl; lia|]. split; [repeat constructor; simpl; u64_lia|reflexivity]. }
  destruct (first_gap_correct _ 2 20 Hw) as (_&_&H&_). apply H. simpl. lia.
Defined.

(** [gaps limit] is the complement of the set in [[0, limit)], itself in
    normal form: no gap is empty, none touches another. *)
Theorem gaps_complement (s : RangeSet.t) (limit : Z) (Hw : RangeSet.wf s) :
  RangeSet.norm (-1) (RangeSet.gaps s limit) /\
  Forall (fun g => ByteRange.end_ g <= limit) (RangeSet.gaps s limit) /\
  forall x, RangeSet.in_list x (RangeSet.gaps s limit) <->
            0 <= x < limit /\ RangeSet.contains s x = false.
Proof.
  destruct Hw as (HN&_&_). destruct (RangeSet.gaps_spec s limit HN) as (?&?&Hm).
  split; [done|]. split; [done|]. intros x.
  by rewrite Hm, <- not_true_iff_false, RangeSet.contains_mem.
Qed.

Lemma gaps_complement_witness :
  let s := RangeSet.from_ranges [ByteRange.new 2 4; ByteRange.new 8 12] in
  RangeSet.gaps s 10 = [ByteRange.new 0 2; ByteRange.new 4 8] /\ RangeSet.norm (-1) (RangeSet.gaps s 10).
Proof.
  split; [reflexivity|]. apply gaps_complement.
  split; [simpl; lia|]. split; [repeat constructor; simpl; u64_lia|reflexivity].
Defined.

(** A range set is determined by its offsets: building one from ranges in
    any order, with any duplicates, gives the same vector and counter. *)
Theorem from_ranges_order_irrelevant (l1 l2 : list ByteRange.t)
    (H1 : Forall ByteRange.wf l1) (H2 : Forall ByteRange.wf l2)
    (HE : forall x, RangeSet.in_list x l1 <-> RangeSet.in_list x l2) :
  RangeSet.from_ranges l1 = RangeSet.from_ranges l2.
Proof.
  destruct (RangeSet.insert_all_wf_mem _ l1 RangeSet.empty_wf H1) as [W1 M1].
  destruct (RangeSet.insert_all_wf_mem _ l2 RangeSet.empty_wf H2) as [W2 M2].
  apply RangeSet.wf_ext; [done|done|]. intros x.
  unfold RangeSet.from_ranges. by rewrite M1, M2, HE.
Qed.

Lemma from_ranges_order_irrelevant_witness :
  RangeSet.from_ranges [ByteRange.new 5 9; ByteRange.new 0 5; ByteRange.new 5 9] =
  RangeSet.from_ranges [ByteRange.new 0 9].
Proof.
  apply from_ranges_order_irrelevant.
  - repeat constructor; simpl; u64_lia.
  - repeat constructor; simpl; u64_lia.
  - intros x. rewrite !RangeSet.in_list_cons, !RangeSet.in_list_nil. unfold ByteRange.mem. simpl. lia.
Defined.

(** The completion test [is_complete total] holds exactly when every offset
    of [[0, total)] is in the set, for a set that lies within [[0, total)]. *)
Theorem is_complete_iff (s : RangeSet.t) (total : Z) (Hw : RangeSet.wf s) (Ht : 0 <= total)
    (Hin : Forall (fun r => ByteRange.end_ r <= total) (RangeSet.ranges s)) :
  RangeSet.is_complete s total = true <->
  forall x, 0 <= x < total -> RangeSet.contains s x = true.
Proof.
  setoid_rewrite RangeSet.contains_mem; [|apply Hw..]. apply RangeSet.is_complete_spec; [done..|].
  intros x (r&Hr&Hm)%Exists_exists. rewrite Forall_forall in Hin. specialize (Hin r Hr). simpl in Hin.
  destruct Hw as (HN&_&_). pose proof (RangeSet.norm_nonneg _ HN) as Hn. rewrite Forall_forall in Hn.
  specialize (Hn r Hr). simpl in Hn. unfold ByteRange.mem in Hm. lia.
Qed.

Lemma is_complete_iff_witness :
  let s := RangeSet.from_ranges [ByteRange.new 0 4; ByteRange.new 4 8] in
  RangeSet.is_complete s 8 = true /\ forall x, 0 <= x < 8 -> RangeSet.contains s x = true.
Proof.
  split; [reflexivity|]. apply is_complete_iff; [|lia|repeat constructor; simpl; lia|reflexivity].
  split; [simpl; lia|]. split; [repeat constructor; simpl; u64_lia|reflexivity].
Defined.

(** What the wire form of a set decodes to. *)
Lemma deserialize_spec raw : Forall (fun p => in_u64 p.1 /\ in_u64 p.2) raw ->
  RangeSet.wf (RangeSet.deserialize raw) /\
  forall x, RangeSet.mem x (RangeSet.deserialize raw) <-> Exists (fun p => p.1 <= x < p.2) raw.
Proof.
  intros Hraw. unfold RangeSet.deserialize, RangeSet.from_ranges.
  destruct (RangeSet.insert_all_wf_mem RangeSet.empty
    ((fun p => ByteRange.new p.1 p.2) <$> filter (fun p => p.1 < p.2) raw)) as [Hw Hm].
  { apply RangeSet.empty_wf. }
  { apply Forall_fmap, Forall_forall. intros p [Hp1 Hp2]%list_elem_of_filter.
    rewrite Forall_forall in Hraw. specialize (Hraw _ Hp2). unfold ByteRange.wf. simpl. u64_lia. }
  split; [done|]. intros x. rewrite Hm, RangeSet.mem_empty. unfold RangeSet.in_list.
  rewrite !Exists_exists. split.
  - intros [[]|(r&Hr&Hx)]. apply list_elem_of_fmap in Hr as (p&->&[_ Hp]%list_elem_of_filter).
    exists p. split; [done|]. by unfold ByteRange.mem in Hx.
  - intros (p&Hp&Hx). right. exists (ByteRange.new p.1 p.2). split; [|by unfold ByteRange.mem].
    apply list_elem_of_fmap. exists p. split; [done|]. apply list_elem_of_filter. split; [lia|done].
Qed.

Lemma deserialize_serialize s : RangeSet.wf s -> RangeSet.deserialize (RangeSet.serialize s) = s.
Proof.
  intros Hw. destruct (deserialize_spec (RangeSet.serialize s)) as [W M].
  { unfold RangeSet.serialize. apply Forall_fmap. eapply Forall_impl; [by apply RangeSet.wf_ranges|].
    simpl. intros r [? ?]. u64_lia. }
  apply RangeSet.wf_ext; [done|done|]. intros x. rewrite M.
  unfold RangeSet.serialize, RangeSet.mem, RangeSet.in_list. by rewrite Exists_fmap.
Qed.

(** Serde: whatever pairs a (possibly tampered) journal holds, the decoded
    set is normalized and denotes their union; and decoding an encoded set
    gives that set back. *)
Theorem range_set_serde (raw : list (Z * Z)) (s : RangeSet.t)
    (Hraw : Forall (fun p => in_u64 p.1 /\ in_u64 p.2) raw) (Hw : RangeSet.wf s) :
  RangeSet.wf (RangeSet.deserialize raw) /\
  (forall x, RangeSet.contains (RangeSet.deserialize raw) x = true <->
             Exists (fun p => p.1 <= x < p.2) raw) /\
  RangeSet.deserialize (RangeSet.serialize s) = s.
Proof.
  destruct (deserialize_spec raw Hraw) as [W M]. split; [done|]. split.
  - intros x. rewrite RangeSet.contains_mem by apply W. apply M.
  - by apply deserialize_serialize.
Qed.

Lemma range_set_serde_witness :
  RangeSet.ranges (RangeSet.deserialize [(9, 3); (4, 8); (0, 5)]) = [ByteRange.new 0 8] /\
  RangeSet.deserialize (RangeSet.serialize (RangeSet.from_ranges [ByteRange.new 1 2])) =
  RangeSet.from_ranges [ByteRange.new 1 2].
Proof.
  split; [reflexivity|].
  apply (range_set_serde [(9, 3)]).
  - repeat constructor; simpl; u64_lia.
  - split; [simpl; lia|]. split; [repeat constructor; simpl; u64_lia|reflexivity].
Defined.
