(* ===== verification/Provenance.v ===== *)
(** * First-writer provenance ([core/provenance.rs]).

    The interval map from artifact offsets to the source that first wrote them.
    [SourceId] is a key type of the [slotmap] crate: the code only compares
    keys, so the model takes any type with decidable equality. The abstract
    value of the map is the partial function [owner] from offsets to sources. *)

From S2P Require Import Prelude Ranges.
Local Open Scope Z_scope.

Module ArtifactProvenance.
Import ByteRange.

Section defs.
Context {SourceId : Type} `{!EqDecision SourceId}.

Abbreviation span := (ByteRange.t * SourceId)%type.

Record t := mk {
  spans : list span;
  first_writer : option SourceId;
  multi_writer : bool }.

Definition empty : t := mk [] None false.

Definition has_multiple_writers (p : t) : bool := multi_writer p.

(** The [for] loop of [foreign_spans]: [continue] before the [break] test. *)
Fixpoint foreign_spans_loop (l : list span) (range : ByteRange.t) (source : SourceId)
    : list ByteRange.t :=
  match l with
  | [] => []
  | (r, owner) :: l' =>
      if decide (owner = source) then foreign_spans_loop l' range source else
      let out := match intersection r range with Some inter => [inter] | None => [] end in
      if start r >=? end_ range then out
      else out ++ foreign_spans_loop l' range source
  end.

Definition foreign_spans (p : t) (range : ByteRange.t) (source : SourceId) : list ByteRange.t :=
  if negb (multi_writer p) then [] else foreign_spans_loop (spans p) range source.

(** What one owned span leaves of one hole. *)
Definition subtract_one (owned h : ByteRange.t) : list ByteRange.t :=
  match intersection h owned with
  | Some inter =>
      (if start h <? start inter then [new (start h) (start inter)] else []) ++
      (if end_ inter <? end_ h then [new (end_ inter) (end_ h)] else [])
  | None => [h]
  end.

(** The [for] loop over the owned spans, with its early [break]. *)
Fixpoint holes_loop (l : list span) (holes : list ByteRange.t) : list ByteRange.t :=
  match l with
  | [] => holes
  | (owned, _) :: l' =>
      let next := holes ≫= subtract_one owned in
      if bool_decide (next = []) then next else holes_loop l' next
  end.

(** One turn of the [drain] loop: [merged.last_mut()] is extended when it has
    the same source and reaches [r]. *)
Definition merge_step (merged : list span) (rs : span) : list span :=
  match last merged with
  | Some (lr, ls) =>
      if decide (ls = rs.2) then
        if end_ lr >=? start rs.1
        then set_last merged (new (start lr) (Z.max (end_ lr) (end_ rs.1)), ls)
        else merged ++ [rs]
      else merged ++ [rs]
  | None => merged ++ [rs]
  end.

Definition insert_span (l : list span) (range : ByteRange.t) (source : SourceId) : list span :=
  if ByteRange.is_empty range then l
  else foldl merge_step [] (sort_by_key (fun rs => start rs.1) (l ++ [(range, source)])).

Definition note_writer (p : t) (source : SourceId) : option SourceId * bool :=
  match first_writer p with
  | None => (Some source, multi_writer p)
  | Some existing =>
      if decide (existing = source) then (first_writer p, multi_writer p)
      else (first_writer p, true)
  end.

(** The sequential fast path: extend the last span in place. *)
Definition try_extend_last (l : list span) (range : ByteRange.t) (source : SourceId)
    : option (list span) :=
  match last l with
  | Some (lr, ls) =>
      if decide (ls = source) then
        if (start range >=? start lr) && (start range <=? end_ lr)
        then Some (set_last l (new (start lr) (Z.max (end_ lr) (end_ range)), ls))
        else None
      else None
  | None => None
  end.

Definition record_spans (l : list span) (range : ByteRange.t) (source : SourceId) : list span :=
  match try_extend_last l range source with
  | Some l' => l'
  | None =>
      if bool_decide (l = []) then [(range, source)]
      else foldl (fun acc h => insert_span acc h source) l (holes_loop l [range])
  end.

Definition record (p : t) (range : ByteRange.t) (source : SourceId) : t :=
  if ByteRange.is_empty range then p else
  let '(fw, mw) := note_writer p source in
  mk (record_spans (spans p) range source) fw mw.

(** The owner of an offset: the source of the span that covers it. *)
Fixpoint owner_in (l : list span) (x : Z) : option SourceId :=
  match l with
  | [] => None
  | (r, s) :: l' => if ByteRange.contains r x then Some s else owner_in l' x
  end.

Definition owner (p : t) (x : Z) : option SourceId := owner_in (spans p) x.

(** Spans are non-empty, in increasing order and disjoint (they may touch). *)
Fixpoint snorm (lb : Z) (l : list span) : Prop :=
  match l with
  | [] => True
  | (r, _) :: l' => lb <= start r /\ start r < end_ r /\ snorm (end_ r) l'
  end.
End defs.
Arguments t : clear implicits.

Section facts.
Context {SourceId : Type} `{!EqDecision SourceId}.
Abbreviation span := (ByteRange.t * SourceId)%type.
Implicit Types (l : list span) (s : SourceId).

Definition owns l (x : Z) s : Prop := exists r, (r, s) ∈ l /\ ByteRange.mem x r.

Definition disjoint (a b : span) : Prop := forall x, ~ (ByteRange.mem x a.1 /\ ByteRange.mem x b.1).

Fixpoint disj l : Prop :=
  match l with [] => True | a :: l' => Forall (disjoint a) l' /\ disj l' end.

Definition nonempty_from (lb : Z) l : Prop := Forall (fun a : span => lb <= start a.1 < end_ a.1) l.

Definition slast (lb : Z) l : Z := foldl (fun _ (a : span) => end_ a.1) lb l.

Lemma disjoint_sym a b : disjoint a b -> disjoint b a.
Proof. unfold disjoint. intros H x [? ?]. by apply (H x). Qed.

Lemma disj_perm l1 l2 : l1 ≡ₚ l2 -> disj l1 -> disj l2.
Proof.
  induction 1 as [|a l1 l2 HP IH|a b l|l1 l2 l3 _ IH1 _ IH2]; simpl.
  - done.
  - intros [HF Hd]. split; [by rewrite <- HP|auto].
  - rewrite !Forall_cons. intros ((?&?)&?&?). split_and!; try done. by apply disjoint_sym.
  - auto.
Qed.

Lemma owns_app l1 l2 x s : owns (l1 ++ l2) x s <-> owns l1 x s \/ owns l2 x s.
Proof. unfold owns. setoid_rewrite elem_of_app. naive_solver. Qed.

Lemma owns_cons r s' l x s : owns ((r, s') :: l) x s <-> (ByteRange.mem x r /\ s' = s) \/ owns l x s.
Proof. unfold owns. setoid_rewrite elem_of_cons. naive_solver. Qed.

Lemma owns_nil x s : owns [] x s <-> False.
Proof. unfold owns. setoid_rewrite elem_of_nil. naive_solver. Qed.

Lemma owns_perm l1 l2 x s : l1 ≡ₚ l2 -> owns l1 x s <-> owns l2 x s.
Proof. intros HP. unfold owns. by setoid_rewrite HP. Qed.

Lemma snorm_app lb l1 l2 : snorm lb (l1 ++ l2) <-> snorm lb l1 /\ snorm (slast lb l1) l2.
Proof.
  revert lb. induction l1 as [|[r s] l1 IH]; intros lb; simpl; [tauto|]. rewrite IH. tauto.
Qed.

Lemma snorm_weaken lb lb' l : lb' <= lb -> snorm lb l -> snorm lb' l.
Proof. destruct l as [|[r s] l]; simpl; [done|]. intuition lia. Qed.

Lemma snorm_nonempty lb l : snorm lb l -> nonempty_from lb l.
Proof.
  revert lb. induction l as [|[r s] l IH]; intros lb; simpl; [constructor|].
  intros (?&?&H). constructor; [simpl; lia|]. eapply Forall_impl; [apply (IH _ H)|]. simpl. lia.
Qed.

Lemma snorm_owns_lb lb l x s : snorm lb l -> owns l x s -> lb <= x.
Proof.
  intros HN%snorm_nonempty (r&Hr&Hm). unfold nonempty_from in HN. rewrite Forall_forall in HN.
  specialize (HN _ Hr). unfold ByteRange.mem in Hm. simpl in HN. lia.
Qed.

Lemma slast_le lb l : snorm lb l -> lb <= slast lb l.
Proof.
  revert lb. induction l as [|[r s] l IH]; intros lb; simpl; [lia|].
  intros (?&?&H). specialize (IH _ H). unfold slast in *. lia.
Qed.

Lemma snorm_owns_ub lb l x s : snorm lb l -> owns l x s -> x < slast lb l.
Proof.
  revert lb. induction l as [|[r s'] l IH]; intros lb; simpl; [by rewrite owns_nil|].
  intros (?&?&HN). rewrite owns_cons. intros [[Hm _]|Hx]; [|by apply IH].
  pose proof (slast_le _ _ HN). unfold ByteRange.mem in Hm. unfold slast in *. lia.
Qed.

Lemma snorm_disj lb l : snorm lb l -> disj l.
Proof.
  revert lb. induction l as [|[r s] l IH]; intros lb; simpl; [done|]. intros (?&?&H).
  split; [|by eapply IH]. apply snorm_nonempty in H. eapply Forall_impl; [exact H|].
  unfold disjoint, ByteRange.mem. simpl. intros; lia.
Qed.

Lemma sorted_snorm lb l :
  key_sorted (fun a : span => start a.1) l -> nonempty_from lb l -> disj l -> snorm lb l.
Proof.
  revert lb. induction l as [|[r s] l IH]; intros lb; simpl; [done|].
  intros [Hk Hks] HF [Hd Hdj]. inversion HF as [|? ? Hr HF']; subst. simpl in *.
  split; [lia|]. split; [lia|]. apply IH; [done| |done].
  unfold nonempty_from in *. rewrite Forall_forall in *. intros a Ha.
  specialize (Hk _ Ha). specialize (HF' _ Ha). specialize (Hd _ Ha (start a.1)).
  unfold ByteRange.mem in Hd. simpl in *. lia.
Qed.

Lemma owner_in_owns lb l x s : snorm lb l -> owner_in l x = Some s <-> owns l x s.
Proof.
  revert lb. induction l as [|[r s'] l IH]; intros lb; simpl; [rewrite owns_nil; naive_solver|].
  intros (?&?&HN). rewrite owns_cons. destruct (ByteRange.contains r x) eqn:E.
  - apply ByteRange.contains_spec in E. split; [naive_solver|].
    intros [[_ ->]|Ho]; [done|]. apply (snorm_owns_lb _ _ _ _ HN) in Ho. unfold ByteRange.mem in E. lia.
  - rewrite (IH _ HN). rewrite <- not_true_iff_false, ByteRange.contains_spec in E. tauto.
Qed.

Lemma owner_in_None lb l x : snorm lb l -> owner_in l x = None <-> forall s, ~ owns l x s.
Proof.
  intros HN. split.
  - intros E s Ho. apply (owner_in_owns _ _ _ _ HN) in Ho. congruence.
  - intros H. destruct (owner_in l x) as [s|] eqn:E; [|done].
    apply (owner_in_owns _ _ _ _ HN) in E. by apply H in E.
Qed.

(** *** Merging and inserting spans *)

Lemma merge_step_spec lb acc a l :
  snorm lb (acc ++ a :: l) ->
  snorm lb (merge_step acc a ++ l) /\
  forall x s, owns (merge_step acc a ++ l) x s <-> owns (acc ++ a :: l) x s.
Proof.
  intros HN. assert (Hdef : snorm lb ((acc ++ [a]) ++ l) /\
    forall x s, owns ((acc ++ [a]) ++ l) x s <-> owns (acc ++ a :: l) x s).
  { by rewrite <- app_assoc. }
  unfold merge_step. destruct a as [r sr]. simpl.
  destruct (last acc) as [[lr ls]|] eqn:El; [|done].
  apply last_Some in El as [B ->].
  case_decide as Hs; [subst ls|done]. rewrite Z.geb_leb. case Z.leb_spec; [|done]. intros Hle.
  rewrite set_last_snoc. rewrite <- app_assoc in HN. simpl in HN.
  rewrite snorm_app in HN. destruct HN as [HB HN]. simpl in HN. destruct HN as (?&?&?&?&HN).
  replace (Z.max (end_ lr) (end_ r)) with (end_ r) by lia. split.
  - rewrite <- app_assoc, snorm_app. split; [done|]. simpl. split_and!; [done|lia|done].
  - intros x s. rewrite <- !app_assoc. simpl. rewrite !owns_app, !owns_cons.
    unfold ByteRange.mem. simpl.
    assert (start lr <= x < end_ r <-> start lr <= x < end_ lr \/ start r <= x < end_ r) by lia. tauto.
Qed.

Lemma merge_spec lb l acc :
  snorm lb (acc ++ l) ->
  snorm lb (foldl merge_step acc l) /\
  forall x s, owns (foldl merge_step acc l) x s <-> owns (acc ++ l) x s.
Proof.
  revert acc. induction l as [|a l IH]; intros acc HN; simpl; [by rewrite app_nil_r in *|].
  destruct (merge_step_spec _ _ _ _ HN) as [HN' Hm]. destruct (IH _ HN') as [? Hm'].
  split; [done|]. intros x s. by rewrite Hm', Hm.
Qed.

Lemma insert_span_spec lb l h s :
  snorm lb l -> lb <= start h < end_ h -> (forall x s', ByteRange.mem x h -> ~ owns l x s') ->
  snorm lb (insert_span l h s) /\
  forall x s', owns (insert_span l h s) x s' <-> owns l x s' \/ (ByteRange.mem x h /\ s = s').
Proof.
  intros HN Hh Hd. unfold insert_span.
  assert (ByteRange.is_empty h = false) as -> by (apply ByteRange.is_empty_false; lia).
  set (key := fun rs : span => start rs.1). set (l' := l ++ [(h, s)]).
  pose proof (sort_by_key_perm key l') as HP.
  assert (HS : snorm lb (sort_by_key key l')).
  { apply sorted_snorm; [apply sort_by_key_sorted| |].
    - unfold nonempty_from. rewrite HP. unfold l'. apply Forall_app. split; [by apply snorm_nonempty|].
      constructor; [exact Hh|constructor].
    - apply (disj_perm ((h, s) :: l)).
      { rewrite HP. unfold l'. by rewrite Permutation_app_comm. }
      simpl. split; [|by eapply snorm_disj]. apply Forall_forall. intros [r sr] Hr x [Hx1 Hx2].
      apply (Hd x sr Hx1). by exists r. }
  destruct (merge_spec lb _ [] HS) as [? Hm]. split; [done|]. intros x s'. rewrite Hm. simpl.
  rewrite (owns_perm _ _ x s' HP). unfold l'. rewrite owns_app, owns_cons, owns_nil. tauto.
Qed.

(** *** Holes *)

Lemma subtract_one_spec lb o h :
  lb < start h -> start h < end_ h ->
  RangeSet.norm lb (subtract_one o h) /\ RangeSet.last_end lb (subtract_one o h) <= end_ h /\
  forall x, RangeSet.in_list x (subtract_one o h) <-> ByteRange.mem x h /\ ~ ByteRange.mem x o.
Proof.
  intros Hlb Hh. unfold subtract_one. destruct (intersection h o) as [i|] eqn:Ei.
  - apply intersection_Some in Ei as (Hs&He&Hi). unfold RangeSet.last_end. split; [|split].
    + case Z.ltb_spec; case Z.ltb_spec; simpl; intros; repeat split; lia.
    + case Z.ltb_spec; case Z.ltb_spec; simpl; intros; lia.
    + intros x. case Z.ltb_spec; case Z.ltb_spec; simpl; intros;
        rewrite ?RangeSet.in_list_cons, RangeSet.in_list_nil; unfold ByteRange.mem; simpl; lia.
  - apply intersection_None in Ei. split; [simpl; lia|]. split; [simpl; lia|]. intros x.
    rewrite RangeSet.in_list_cons, RangeSet.in_list_nil. unfold ByteRange.mem. lia.
Qed.

Lemma subtract_all_spec lb o holes :
  RangeSet.norm lb holes ->
  RangeSet.norm lb (holes ≫= subtract_one o) /\
  RangeSet.last_end lb (holes ≫= subtract_one o) <= RangeSet.last_end lb holes /\
  forall x, RangeSet.in_list x (holes ≫= subtract_one o) <->
            RangeSet.in_list x holes /\ ~ ByteRange.mem x o.
Proof.
  revert lb. induction holes as [|h t IH]; intros lb HN.
  { simpl. split; [done|]. split; [done|]. intros x. rewrite RangeSet.in_list_nil. tauto. }
  simpl in HN. destruct HN as (?&?&HN). rewrite bind_cons.
  destruct (subtract_one_spec lb o h) as (N1&L1&M1); [done|done|].
  destruct (IH _ HN) as (N2&L2&M2).
  assert (N2' : RangeSet.norm (RangeSet.last_end lb (subtract_one o h)) (t ≫= subtract_one o))
    by (eapply RangeSet.norm_weaken; done).
  split; [by apply RangeSet.norm_app|]. split.
  - unfold RangeSet.last_end in *. rewrite foldl_app. simpl.
    destruct (t ≫= subtract_one o) eqn:E; [|exact L2]. simpl in *.
    pose proof (RangeSet.last_end_ge _ _ HN). unfold RangeSet.last_end in *. lia.
  - intros x. rewrite RangeSet.in_list_app, M1, M2, RangeSet.in_list_cons. tauto.
Qed.

Lemma holes_loop_spec lb l holes :
  RangeSet.norm lb holes ->
  RangeSet.norm lb (holes_loop l holes) /\
  forall x, RangeSet.in_list x (holes_loop l holes) <->
            RangeSet.in_list x holes /\ forall s, ~ owns l x s.
Proof.
  revert holes. induction l as [|[o so] l IH]; intros holes HN; simpl.
  { split; [done|]. intros x. setoid_rewrite owns_nil. tauto. }
  destruct (subtract_all_spec lb o holes HN) as (N&_&M).
  assert (Ho : forall x, (forall s, ~ owns ((o, so) :: l) x s) <->
                         ~ ByteRange.mem x o /\ forall s, ~ owns l x s).
  { intros x. setoid_rewrite owns_cons. naive_solver. }
  case_bool_decide as E.
  - rewrite E in *. split; [done|]. intros x. specialize (M x). rewrite Ho.
    rewrite RangeSet.in_list_nil in M |- *. tauto.
  - destruct (IH _ N) as [N' M']. split; [done|]. intros x. rewrite M', M, Ho. tauto.
Qed.

Lemma insert_holes_spec lb hlb l holes s :
  snorm lb l -> RangeSet.norm hlb holes -> lb <= hlb + 1 ->
  (forall x s', RangeSet.in_list x holes -> ~ owns l x s') ->
  snorm lb (foldl (fun acc h => insert_span acc h s) l holes) /\
  forall x s', owns (foldl (fun acc h => insert_span acc h s) l holes) x s' <->
               owns l x s' \/ (RangeSet.in_list x holes /\ s = s').
Proof.
  revert hlb l. induction holes as [|h t IH]; intros hlb l HN HH Hlb Hd; simpl.
  { split; [done|]. intros x s'. rewrite RangeSet.in_list_nil. tauto. }
  simpl in HH. destruct HH as (?&?&HH).
  destruct (insert_span_spec lb l h s HN) as [HN' Ho]; [lia| |].
  { intros x s' Hx. apply Hd. rewrite RangeSet.in_list_cons. by left. }
  destruct (IH (end_ h) (insert_span l h s) HN' HH) as [HN'' Ho']; [lia| |].
  { intros x s' Hx. rewrite Ho. intros [Ho1|[Hm _]].
    - apply (Hd x s'); [|done]. rewrite RangeSet.in_list_cons. by right.
    - apply (RangeSet.in_list_lb _ _ _ HH) in Hx. unfold ByteRange.mem in Hm. lia. }
  split; [done|]. intros x s'. rewrite Ho', Ho, RangeSet.in_list_cons. tauto.
Qed.

(** *** [record] and [foreign_spans] *)

Lemma try_extend_last_spec lb l l' range s :
  snorm lb l -> start range < end_ range -> try_extend_last l range s = Some l' ->
  snorm lb l' /\
  forall x s', owns l' x s' <->
    owns l x s' \/ (ByteRange.mem x range /\ (forall s'', ~ owns l x s'') /\ s = s').
Proof.
  intros HN Hr. unfold try_extend_last. destruct (last l) as [[lr ls]|] eqn:El; [|done].
  apply last_Some in El as [B ->]. case_decide as Hs; [subst ls|done].
  rewrite Z.geb_leb. destruct (andb _ _) eqn:E; [|done]. intros [= <-].
  apply andb_true_iff in E as [E1%Z.leb_le E2%Z.leb_le]. rewrite set_last_snoc.
  rewrite snorm_app in HN. destruct HN as [HB HN]. simpl in HN. destruct HN as (?&?&_). split.
  - rewrite snorm_app. split; [done|]. simpl. split_and!; [done|lia|done].
  - intros x s'. rewrite !owns_app, !owns_cons, !owns_nil. unfold ByteRange.mem at 1. simpl.
    assert (Hno : (forall s'', ~ owns (B ++ [(lr, s)]) x s'') <->
                  ~ ByteRange.mem x lr /\ forall s'', ~ owns B x s'').
    { setoid_rewrite owns_app. setoid_rewrite owns_cons. setoid_rewrite owns_nil.
      split; [|naive_solver]. intros Hn. split; [|naive_solver]. intros Hm. apply (Hn s). tauto. }
    rewrite Hno.
    assert (HBx : start lr <= x -> forall s'', ~ owns B x s'').
    { intros Hx s'' Ho. apply (snorm_owns_ub _ _ _ _ HB) in Ho. lia. }
    unfold ByteRange.mem.
    destruct (Z_lt_le_dec x (start lr)); [intuition lia|].
    specialize (HBx ltac:(lia)). destruct (Z_lt_le_dec x (end_ lr)); intuition lia.
Qed.

Lemma record_spans_spec lb l range s :
  snorm lb l -> lb <= start range < end_ range ->
  snorm lb (record_spans l range s) /\
  forall x s', owns (record_spans l range s) x s' <->
    owns l x s' \/ (ByteRange.mem x range /\ (forall s'', ~ owns l x s'') /\ s = s').
Proof.
  intros HN Hr. unfold record_spans. destruct (try_extend_last l range s) as [l'|] eqn:E.
  { by eapply try_extend_last_spec; [|lia|]. }
  case_bool_decide as El.
  - subst l. split; [simpl; lia|]. intros x s'. rewrite owns_cons, owns_nil.
    setoid_rewrite owns_nil. tauto.
  - destruct (holes_loop_spec (start range - 1) l [range]) as [HH Hm]; [simpl; lia|].
    destruct (insert_holes_spec lb _ l _ s HN HH) as [HN' Ho]; [lia| |].
    { intros x s' Hx. apply Hm in Hx. apply Hx. }
    split; [done|]. intros x s'. rewrite Ho, Hm, RangeSet.in_list_cons, RangeSet.in_list_nil. tauto.
Qed.

Lemma foreign_loop_spec lb l range s x :
  snorm lb l ->
  RangeSet.in_list x (foreign_spans_loop l range s) <->
  ByteRange.mem x range /\ exists o, o ≠ s /\ owns l x o.
Proof.
  revert lb. induction l as [|[r o] l IH]; intros lb; simpl.
  { intros _. rewrite RangeSet.in_list_nil. setoid_rewrite owns_nil. naive_solver. }
  intros (?&?&HN). case_decide as Ho.
  { subst o. rewrite (IH _ HN). setoid_rewrite owns_cons. naive_solver. }
  assert (Hout : RangeSet.in_list x (match intersection r range with Some i => [i] | None => [] end) <->
                 ByteRange.mem x r /\ ByteRange.mem x range).
  { rewrite <- ByteRange.intersection_mem. destruct (intersection r range) as [i|];
      rewrite ?RangeSet.in_list_cons, RangeSet.in_list_nil; naive_solver. }
  assert (HE : (exists o', o' ≠ s /\ owns ((r, o) :: l) x o') <->
               ByteRange.mem x r \/ exists o', o' ≠ s /\ owns l x o').
  { setoid_rewrite owns_cons. naive_solver. }
  rewrite HE, Z.geb_leb. case Z.leb_spec; intros Hbr.
  - rewrite Hout. split; [tauto|]. intros [Hx [?|(o'&_&Ho')]]; [tauto|].
    apply (snorm_owns_lb _ _ _ _ HN) in Ho'. unfold ByteRange.mem in Hx. lia.
  - rewrite RangeSet.in_list_app, Hout, (IH _ HN). tauto.
Qed.
End facts.
End ArtifactProvenance.

(** ** Theorems *)

Section theorems.
Import ArtifactProvenance.
Context {SourceId : Type} `{!EqDecision SourceId}.

(** A map is reached from the empty one by recording ranges. *)
Definition record_all (writes : list (ByteRange.t * SourceId)) : ArtifactProvenance.t SourceId :=
  foldl (fun p w => record p w.1 w.2) empty writes.

(** The reference: the source of the first write that covers the offset. *)
Fixpoint first_write (writes : list (ByteRange.t * SourceId)) (x : Z) : option SourceId :=
  match writes with
  | [] => None
  | (r, s) :: ws => if ByteRange.contains r x then Some s else first_write ws x
  end.

Lemma record_owner (p : ArtifactProvenance.t SourceId) (range : ByteRange.t) (s : SourceId) :
  snorm 0 (spans p) -> 0 <= ByteRange.start range ->
  snorm 0 (spans (record p range s)) /\
  forall x, owner (record p range s) x =
    match owner p x with
    | Some o => Some o
    | None => if ByteRange.contains range x then Some s else None
    end.
Proof.
  intros HN H0. unfold record. destruct (ByteRange.is_empty range) eqn:E.
  { split; [done|]. intros x. rewrite ByteRange.is_empty_spec in E. specialize (E x).
    rewrite <- ByteRange.contains_spec in E. destruct (owner p x), (ByteRange.contains range x); done. }
  apply ByteRange.is_empty_false in E. destruct (note_writer p s) as [fw mw]. unfold owner. simpl.
  destruct (record_spans_spec 0 (spans p) range s HN) as [HN' Ho]; [lia|]. split; [done|]. intros x.
  destruct (owner_in (spans p) x) as [o|] eqn:Ep.
  - rewrite (owner_in_owns 0) by done. apply Ho. left. by apply (owner_in_owns 0).
  - pose proof Ep as Ep'. rewrite (owner_in_None 0) in Ep' by done.
    destruct (ByteRange.contains range x) eqn:Ec.
    + rewrite (owner_in_owns 0) by done. apply Ho. right. by apply ByteRange.contains_spec in Ec.
    + rewrite (owner_in_None 0) by done. intros s'. rewrite Ho.
      rewrite <- not_true_iff_false, ByteRange.contains_spec in Ec. intros [?|[? _]]; [|done].
      by eapply Ep'.
Qed.

Lemma record_all_snoc ws w : record_all (ws ++ [w]) = record (record_all ws) w.1 w.2.
Proof. unfold record_all. by rewrite foldl_app. Qed.

Lemma first_write_snoc ws r s x :
  first_write (ws ++ [(r, s)]) x =
  match first_write ws x with Some o => Some o | None => if ByteRange.contains r x then Some s else None end.
Proof. induction ws as [|[r' s'] ws IH]; simpl; [done|]. destruct (ByteRange.contains r' x); done. Qed.

Lemma record_all_owner ws :
  Forall (fun w => ByteRange.wf w.1) ws ->
  snorm 0 (spans (record_all ws)) /\ forall x, owner (record_all ws) x = first_write ws x.
Proof.
  induction ws as [|[r s] ws IH] using rev_ind; intros HF; [done|].
  apply Forall_app in HF as [HF Hr]. inversion Hr as [|? ? [[? ?] ?] _]; subst.
  destruct (IH HF) as [HN Ho]. rewrite record_all_snoc. simpl.
  destruct (record_owner (record_all ws) r s HN) as [HN' Ho']; [done|]. split; [done|].
  intros x. by rewrite Ho', Ho, first_write_snoc.
Qed.

Definition writer (w : ByteRange.t * SourceId) : bool := negb (ByteRange.is_empty w.1).

Lemma record_all_writers ws :
  first_writer (record_all ws) = snd <$> head (filter writer ws) /\
  (multi_writer (record_all ws) = true <->
   exists w1 w2, w1 ∈ ws /\ w2 ∈ ws /\ writer w1 = true /\ writer w2 = true /\ w1.2 ≠ w2.2).
Proof.
  induction ws as [|[r s] ws [IH1 IH2]] using rev_ind.
  { split; [done|]. split; [done|]. intros (w1&w2&Hw%elem_of_nil&_). done. }
  rewrite record_all_snoc. unfold record. simpl. rewrite filter_app.
  destruct (ByteRange.is_empty r) eqn:E.
  { rewrite filter_cons_False by (unfold writer; simpl; rewrite E; by intros []). rewrite filter_nil, app_nil_r.
    split; [done|]. rewrite IH2. split.
    - intros (w1&w2&?&?&?). exists w1, w2. rewrite !elem_of_app. naive_solver.
    - intros (w1&w2&H1%elem_of_app&H2%elem_of_app&W1&W2&Hne). exists w1, w2.
      assert (Hl : forall w, w ∈ [(r, s)] -> writer w = true -> False).
      { intros w ->%list_elem_of_singleton. unfold writer. simpl. by rewrite E. }
      destruct H1 as [?|?], H2 as [?|?]; try done; exfalso; eauto. }
  assert (Hw : writer (r, s) = true) by (unfold writer; simpl; by rewrite E).
  rewrite filter_cons_True by (by rewrite Hw). rewrite filter_nil.
  assert (Hhd : forall w0, head (filter writer ws) = Some w0 -> w0 ∈ ws /\ writer w0 = true).
  { intros w0 H0. assert (Hin : w0 ∈ filter writer ws) by (destruct (filter writer ws); [done|]; simplify_eq/=; left).
    apply list_elem_of_filter in Hin as [??]. split; [done|]. by apply Is_true_true. }
  unfold note_writer. rewrite IH1. destruct (head (filter writer ws)) as [w0|] eqn:Eh; simpl.
  - destruct (Hhd _ eq_refl) as [Hin0 Hw0].
    assert (Ehd : head (filter writer ws ++ [(r, s)]) = Some w0) by (destruct (filter writer ws); [done|exact Eh]).
    case_decide as Hs; rewrite Ehd; (split; [done|]).
    + rewrite IH2. split.
      * intros (w1&w2&?&?&?). exists w1, w2. rewrite !elem_of_app. naive_solver.
      * intros (w1&w2&H1%elem_of_app&H2%elem_of_app&W1&W2&Hne).
        destruct H1 as [H1| ->%list_elem_of_singleton], H2 as [H2| ->%list_elem_of_singleton]; simpl in *.
        -- by exists w1, w2.
        -- exists w1, w0. split_and!; try done. congruence.
        -- exists w0, w2. split_and!; try done. congruence.
        -- done.
    + split; [intros _|done]. exists w0, (r, s). rewrite !elem_of_app, !list_elem_of_singleton.
      split; [by left|]. split; [by right|]. done.
  - destruct (filter writer ws) as [|w0 f] eqn:Ef; [|done]. split; [done|]. rewrite IH2. split.
    + intros (w1&w2&?&?&?). exists w1, w2. rewrite !elem_of_app. naive_solver.
    + assert (Hno : forall w, w ∈ ws -> writer w = true -> False).
      { intros w Hin Ww. assert (w ∈ filter writer ws) as Hf; [|by rewrite Ef in Hf; apply elem_of_nil in Hf].
        apply list_elem_of_filter. split; [by rewrite Ww|done]. }
      intros (w1&w2&H1%elem_of_app&H2%elem_of_app&W1&W2&Hne).
      destruct H1 as [?| ->%list_elem_of_singleton], H2 as [?| ->%list_elem_of_singleton]; try done; exfalso; eauto.
Qed.

(** First writer wins: after any sequence of [record] calls, the map's
    spans are non-empty, sorted and disjoint, and the owner of every offset is
    the source of the first recorded range that covers it. *)
Theorem first_writer_wins (ws : list (ByteRange.t * SourceId))
    (Hws : Forall (fun w => ByteRange.wf w.1) ws) :
  snorm 0 (spans (record_all ws)) /\ forall x, owner (record_all ws) x = first_write ws x.
Proof. by apply record_all_owner. Qed.

(** [has_multiple_writers] holds exactly when two sources have written,
    and from then on [foreign_spans range s] is exactly the part of [range]
    whose first writer is another source. *)
Theorem foreign_spans_exact (ws : list (ByteRange.t * SourceId)) (range : ByteRange.t) (s : SourceId)
    (Hws : Forall (fun w => ByteRange.wf w.1) ws) :
  (has_multiple_writers (record_all ws) = true <->
   exists w1 w2, w1 ∈ ws /\ w2 ∈ ws /\ writer w1 = true /\ writer w2 = true /\ w1.2 ≠ w2.2) /\
  forall x, RangeSet.in_list x (foreign_spans (record_all ws) range s) <->
    has_multiple_writers (record_all ws) = true /\ ByteRange.contains range x = true /\
    exists o, o ≠ s /\ first_write ws x = Some o.
Proof.
  destruct (record_all_owner ws Hws) as [HN Ho]. split; [apply record_all_writers|]. intros x.
  unfold foreign_spans, has_multiple_writers. rewrite ByteRange.contains_spec.
  destruct (multi_writer (record_all ws)); simpl; [|rewrite RangeSet.in_list_nil; naive_solver].
  rewrite (foreign_loop_spec 0) by done. setoid_rewrite <- Ho. unfold owner.
  setoid_rewrite (owner_in_owns 0); [|done..]. tauto.
Qed.
End theorems.

Lemma first_writer_wins_witness :
  let ws := [(ByteRange.new 0 1000, 1%positive); (ByteRange.new 500 1500, 2%positive)] in
  ArtifactProvenance.spans (record_all ws) =
    [(ByteRange.new 0 1000, 1%positive); (ByteRange.new 1000 1500, 2%positive)] /\
  ArtifactProvenance.owner (record_all ws) 700 = Some 1%positive.
Proof.
  split; [vm_compute; reflexivity|].
  assert (Hws : Forall (fun w => ByteRange.wf w.1)
    [(ByteRange.new 0 1000, 1%positive); (ByteRange.new 500 1500, 2%positive)])
    by (repeat constructor; simpl; u64_lia).
  exact (proj2 (first_writer_wins _ Hws) 700).
Defined.

Lemma foreign_spans_exact_witness :
  let ws := [(ByteRange.new 0 1000, 1%positive); (ByteRange.new 500 1500, 2%positive)] in
  ArtifactProvenance.foreign_spans (record_all ws) (ByteRange.new 400 800) 2%positive =
    [ByteRange.new 400 800] /\
  RangeSet.in_list 700 (ArtifactProvenance.foreign_spans (record_all ws) (ByteRange.new 400 800) 2%positive).
Proof.
  split; [vm_compute; reflexivity|].
  assert (Hws : Forall (fun w => ByteRange.wf w.1)
    [(ByteRange.new 0 1000, 1%positive); (ByteRange.new 500 1500, 2%positive)])
    by (repeat constructor; simpl; u64_lia).
  apply (foreign_spans_exact _ _ _ Hws). split; [vm_compute; reflexivity|]. split; [vm_compute; reflexivity|].
  exists 1%positive. split; [discriminate|vm_compute; reflexivity].
Defined.
