(* ===== verification/Float.v ===== *)
(** * IEEE-754 doubles, durations and instants.

    [f64] is the Standard Library's specification of binary64
    ([Floats.SpecFloat] at precision 53 and maximal exponent 1024): a plain
    inductive type with computable, correctly rounded operations, so the rate
    arithmetic of the source is evaluated bit for bit and relies on no axiom.

    A [Duration] is a number of nanoseconds, an [Instant] a number of
    nanoseconds on the monotonic clock. *)

From S2P Require Import Prelude.
From Stdlib Require Import SpecFloat.
Local Open Scope Z_scope.

Abbreviation f64 := spec_float.

Definition prec64 : Z := 53.
Definition emax64 : Z := 1024.

Definition f64_add : f64 -> f64 -> f64 := SFadd prec64 emax64.
Definition f64_sub : f64 -> f64 -> f64 := SFsub prec64 emax64.
Definition f64_mul : f64 -> f64 -> f64 := SFmul prec64 emax64.
Definition f64_div : f64 -> f64 -> f64 := SFdiv prec64 emax64.
Definition f64_sqrt : f64 -> f64 := SFsqrt prec64 emax64.
Definition f64_opp : f64 -> f64 := SFopp.
Definition f64_abs : f64 -> f64 := SFabs.
Definition f64_ltb : f64 -> f64 -> bool := SFltb.
Definition f64_leb : f64 -> f64 -> bool := SFleb.

(** [n as f64] for an integer [n]: rounded to nearest even. *)
Definition f64_of_Z (n : Z) : f64 := binary_normalize prec64 emax64 n 0 false.

(** [n * 2^e], for the literals that are not integers. *)
Definition f64_scale (n e : Z) : f64 := binary_normalize prec64 emax64 n e false.

Definition f64_zero : f64 := S754_zero false.
Definition f64_one : f64 := f64_of_Z 1.
Definition f64_half : f64 := f64_scale 1 (-1).
Definition f64_infinity : f64 := S754_infinity false.

(** A decimal literal [n / 10^k]: the correctly rounded quotient. *)
Definition f64_lit (n k : Z) : f64 := f64_div (f64_of_Z n) (f64_of_Z (10 ^ k)).

Definition f64_is_nan (x : f64) : bool := match x with S754_nan => true | _ => false end.

Definition f64_is_finite (x : f64) : bool :=
  match x with S754_zero _ | S754_finite _ _ _ => true | _ => false end.

(** [f64::max] and [f64::min] ignore a NaN operand. *)
Definition f64_max (a b : f64) : f64 :=
  if f64_is_nan a then b else if f64_is_nan b then a else if f64_ltb a b then b else a.
Definition f64_min (a b : f64) : f64 :=
  if f64_is_nan a then b else if f64_is_nan b then a else if f64_ltb b a then b else a.

(** [f64::clamp] (a NaN passes through; [lo <= hi] is the caller's duty). *)
Definition f64_clamp (x lo hi : f64) : f64 :=
  if f64_ltb x lo then lo else if f64_ltb hi x then hi else x.

(** [x as u64]: truncation toward zero, saturating, NaN to 0. *)
Definition f64_to_u64 (x : f64) : Z :=
  match x with
  | S754_finite false m e =>
      Z.min u64_max (if e >=? 0 then Zpos m * 2 ^ e else Zpos m / 2 ^ (- e))
  | S754_infinity false => u64_max
  | _ => 0
  end.

(** [2f64.powi(n)] for a small natural [n]: repeated multiplication by 2. *)
Fixpoint f64_pow2 (n : nat) : f64 :=
  match n with O => f64_one | S n' => f64_mul (f64_of_Z 2) (f64_pow2 n') end.

(** ** Durations *)

Definition nanos_per_sec : Z := 1000000000.
Definition from_secs (s : Z) : Z := s * nanos_per_sec.
Definition from_millis (ms : Z) : Z := ms * 1000000.

(** [Duration::as_secs_f64]. *)
Definition as_secs_f64 (d : Z) : f64 :=
  f64_add (f64_of_Z (d / nanos_per_sec))
          (f64_div (f64_of_Z (d mod nanos_per_sec)) (f64_of_Z nanos_per_sec)).

(** The quotient rounded to nearest, ties to even. *)
Definition round_half_even (num den : Z) : Z :=
  let q := num / den in
  let r := num mod den in
  if 2 * r <? den then q
  else if den <? 2 * r then q + 1
  else if Z.even q then q else q + 1.

(** [Duration::from_secs_f64]: nearest nanosecond; [None] is its panic on a
    negative, non-finite or too large argument. *)
Definition from_secs_f64 (x : f64) : option Z :=
  match x with
  | S754_zero _ => Some 0
  | S754_finite false m e =>
      let n := if e >=? 0 then Zpos m * 2 ^ e * nanos_per_sec
               else round_half_even (Zpos m * nanos_per_sec) (2 ^ (- e)) in
      if n <? 2 ^ 64 * nanos_per_sec then Some n else None
  | _ => None
  end.

(** Durations scaled in binary32: [Duration::as_secs_f32], [from_secs_f32] and
    [mul_f32], whose panic is [None]. *)
Definition f32_of_Z (n : Z) : f64 := binary_normalize 24 128 n 0 false.
Definition f32_mul : f64 -> f64 -> f64 := SFmul 24 128.
Definition f32_div : f64 -> f64 -> f64 := SFdiv 24 128.
Definition f32_lit (n k : Z) : f64 := f32_div (f32_of_Z n) (f32_of_Z (10 ^ k)).

Definition as_secs_f32 (d : Z) : f64 :=
  SFadd 24 128 (f32_of_Z (d / nanos_per_sec))
               (f32_div (f32_of_Z (d mod nanos_per_sec)) (f32_of_Z nanos_per_sec)).

Definition mul_f32 (d : Z) (k : f64) : option Z := from_secs_f64 (f32_mul k (as_secs_f32 d)).

(** [f64::to_bits]. *)
Definition f64_to_bits (x : f64) : Z :=
  let sign (s : bool) := if s then 2 ^ 63 else 0 in
  match x with
  | S754_zero s => sign s
  | S754_infinity s => sign s + 2047 * 2 ^ 52
  | S754_nan => 2047 * 2 ^ 52 + 2 ^ 51
  | S754_finite s m e =>
      if Zpos m <? 2 ^ 52 then sign s + Zpos m
      else sign s + (e + 1075) * 2 ^ 52 + (Zpos m - 2 ^ 52)
  end.

(** [Instant::saturating_duration_since]. *)
Definition saturating_duration_since (now earlier : Z) : Z := Z.max (now - earlier) 0.

Lemma f64_to_u64_range x : in_u64 (f64_to_u64 x).
Proof.
  destruct x as [s|s| |s m e]; simpl; try (u64_lia); destruct s; try (u64_lia).
  case Z.geb_spec; intros.
  - assert (0 <= Zpos m * 2 ^ e) by (apply Z.mul_nonneg_nonneg; [lia|apply Z.pow_nonneg; lia]). u64_lia.
  - assert (0 <= Zpos m / 2 ^ (- e)) by (apply Z.div_pos; [lia|apply Z.pow_pos_nonneg; lia]). u64_lia.
Qed.
#[export] Hint Resolve f64_to_u64_range : xde.

Lemma f64_max_not_below x c :
  f64_is_nan c = false -> f64_ltb c c = false -> f64_ltb (f64_max x c) c = false.
Proof.
  intros Hn Hc. unfold f64_max. rewrite Hn. destruct (f64_is_nan x); [done|].
  destruct (f64_ltb x c) eqn:E; done.
Qed.
