(* ===== verification/Rates.v ===== *)
(** * Rates and their estimators ([core/units.rs], [core/ewma.rs],
    [core/metrics.rs]).

    [Rate] is the source's newtype over [f64]. The estimators use the
    platform's [exp], whose precision Rust leaves open: it is a parameter. *)

From S2P Require Import Prelude Float.
From Stdlib Require Import SpecFloat.
Local Open Scope Z_scope.

Definition KIB : Z := 1024.
Definition MIB : Z := 1024 * KIB.
Definition GIB : Z := 1024 * MIB.

Module Rate.

(** Bytes per second. *)
Record t := mk { bps : f64 }.

Definition ZERO : t := mk f64_zero.
Definition FLOOR : t := mk (f64_of_Z 1024).
Definition COLD_START : t := mk (f64_mul (f64_mul (f64_of_Z 128) (f64_of_Z 1024)) (f64_of_Z 1024)).

Definition from_bps (v : f64) : t :=
  mk (if f64_is_finite v && f64_ltb f64_zero v then v else f64_zero).

Definition from_mbps (v : f64) : t := from_bps (f64_mul v (f64_of_Z 125000)).

Definition nonzero (r : t) : f64 := f64_max (bps r) (bps FLOOR).

(** Bytes transferred in the duration [d] (nanoseconds). *)
Definition bytes_in (r : t) (d : Z) : Z :=
  f64_to_u64 (f64_max (f64_mul (bps r) (as_secs_f64 d)) f64_zero).

(** Time to move [n] bytes; [None] is the panic of [Duration::from_secs_f64]. *)
Definition time_for (r : t) (n : Z) : option Z :=
  from_secs_f64 (f64_div (f64_of_Z n) (nonzero r)).

Definition is_zero (r : t) : bool := f64_leb (bps r) f64_zero.
Definition min (r o : t) : t := mk (f64_min (bps r) (bps o)).
Definition max (r o : t) : t := mk (f64_max (bps r) (bps o)).
Definition add (r o : t) : t := mk (f64_add (bps r) (bps o)).
Definition sub (r o : t) : t := mk (f64_max (f64_sub (bps r) (bps o)) f64_zero).
Definition mul (r : t) (k : f64) : t := from_bps (f64_mul (bps r) k).
Definition sum (l : list t) : t := mk (foldl (fun acc r => f64_add acc (bps r)) f64_zero l).

(** The values a constructor of [Rate] lets through: zero or a positive finite
    number. *)
Definition valid (r : t) : Prop :=
  match bps r with
  | S754_zero false => True
  | S754_finite false _ _ => True
  | _ => False
  end.

Lemma from_bps_valid v : valid (from_bps v).
Proof.
  unfold from_bps, valid. destruct v as [s|s| |s m e]; simpl; try done.
  destruct s; done.
Qed.

Lemma bytes_in_range r d : in_u64 (bytes_in r d).
Proof. apply f64_to_u64_range. Qed.
End Rate.
#[export] Hint Resolve Rate.from_bps_valid Rate.bytes_in_range : xde.

Definition u32_sat_succ (n : Z) : Z := Z.min (n + 1) u32_max.

Module EwmaWithVariance.

Record t := mk { mean : f64; var : f64; tau : f64; samples : Z }.

Definition new (tau0 : Z) : t :=
  mk f64_zero f64_zero (f64_max (as_secs_f64 tau0) (f64_lit 1 3)) 0.

Section observe.
Context (exp : f64 -> f64).

(** [1 - exp(-dt / tau)], clamped to [[1e-4, 1]]. *)
Definition alpha (tau0 : f64) (dt : Z) : f64 :=
  f64_clamp (f64_sub f64_one (exp (f64_div (f64_opp (as_secs_f64 dt)) tau0)))
            (f64_lit 1 4) f64_one.

Definition observe (e : t) (value : f64) (dt : Z) : t :=
  if negb (f64_is_finite value) then e
  else if samples e =? 0 then mk value f64_zero (tau e) 1
  else
    let a := alpha (tau e) dt in
    let delta := f64_sub value (mean e) in
    mk (f64_add (mean e) (f64_mul a delta))
       (f64_mul (f64_sub f64_one a) (f64_add (var e) (f64_mul (f64_mul a delta) delta)))
       (tau e)
       (u32_sat_succ (samples e)).
End observe.

Definition variance (e : t) : f64 := var e.
Definition stddev (e : t) : f64 := f64_sqrt (f64_max (var e) f64_zero).
Definition is_warm (e : t) : bool := samples e >=? 3.
Definition rate (e : t) : Rate.t := Rate.from_bps (mean e).

Definition z_below (e : t) (value : f64) : f64 :=
  let sd := stddev e in
  if f64_ltb sd (f64_lit 1 9) then
    (if f64_ltb value (f64_mul (mean e) f64_half) then f64_of_Z 4 else f64_zero)
  else f64_div (f64_sub (mean e) value) sd.

Lemma observe_samples exp e v dt :
  0 <= samples e <= u32_max ->
  samples (observe exp e v dt) =
  if f64_is_finite v then Z.min (samples e + 1) u32_max else samples e.
Proof.
  intros H. unfold observe. destruct (f64_is_finite v); simpl; [|done].
  case Z.eqb_spec; simpl; [|done]. unfold u32_max. lia.
Qed.
End EwmaWithVariance.

Module Ewma.

Record t := mk { v : f64; tau : f64; init : bool }.

Definition new (tau0 : Z) : t := mk f64_zero (f64_max (as_secs_f64 tau0) (f64_lit 1 3)) false.

Definition observe (exp : f64 -> f64) (e : t) (value : f64) (dt : Z) : t :=
  if negb (f64_is_finite value) then e
  else if negb (init e) then mk value (tau e) true
  else mk (f64_add (v e) (f64_mul (EwmaWithVariance.alpha exp (tau e) dt) (f64_sub value (v e))))
          (tau e) (init e).

Definition get (e : t) : f64 := v e.
Definition is_init (e : t) : bool := init e.
End Ewma.

Module RateMeter.

Record t := mk {
  acc : Z;
  window_start : Z;
  window : Z;
  ewma : EwmaWithVariance.t;
  last_instant_rate : Rate.t }.

(** [now] is the [Instant::now()] of the constructor. *)
Definition new (now window0 tau0 : Z) : t :=
  mk 0 now window0 (EwmaWithVariance.new tau0) Rate.ZERO.

Definition add (m : t) (n : Z) : t :=
  mk (acc m +% n) (window_start m) (window m) (ewma m) (last_instant_rate m).

Definition tick (exp : f64 -> f64) (m : t) (now : Z) : t * option Rate.t :=
  let dt := saturating_duration_since now (window_start m) in
  if dt <? window m then (m, None)
  else
    let r := Rate.from_bps (f64_div (f64_of_Z (acc m)) (as_secs_f64 dt)) in
    (mk 0 now (window m) (EwmaWithVariance.observe exp (ewma m) (Rate.bps r) dt) r, Some r).

Definition smoothed (m : t) : Rate.t := EwmaWithVariance.rate (ewma m).
Definition instant (m : t) : Rate.t := last_instant_rate m.
Definition stats (m : t) : EwmaWithVariance.t := ewma m.
End RateMeter.

Module TransferSample.

(** One request's timing record; durations in nanoseconds. *)
Record t := mk {
  bytes : Z;
  ttfb : Z;
  response_wall : Z;
  receive_active : Z;
  memory_blocked : Z;
  destination_blocked : Z;
  next_pending : Z;
  max_frame_gap : Z;
  send_ready : Z;
  headers : Z;
  data_frames : Z;
  dest_accepts : Z;
  copy_count : Z;
  copied_bytes : Z;
  frame_p50 : Z;
  frame_p90 : Z;
  avg_frame : Z;
  io_reads_submitted : Z;
  io_reads_completed : Z;
  zero_read : Z;
  max_zero_read : Z }.

Definition receive_rate (s : t) : f64 :=
  f64_div (f64_of_Z (bytes s)) (f64_max (as_secs_f64 (receive_active s)) (f64_lit 1 9)).

Definition effective_rate (s : t) : f64 :=
  f64_div (f64_of_Z (bytes s)) (f64_max (as_secs_f64 (response_wall s)) (f64_lit 1 9)).

Definition stall_fraction (s : t) : f64 :=
  if response_wall s =? 0 then f64_zero
  else
    let stalled := memory_blocked s + destination_blocked s in
    f64_clamp (f64_div (as_secs_f64 stalled) (as_secs_f64 (response_wall s))) f64_zero f64_one.
End TransferSample.

(** ** Theorems *)

(** The sample counter of the estimator counts exactly the finite
    observations, saturating at [u32::MAX]: a NaN or infinite measurement never
    warms it up, and it is warm from the third finite one on. *)
Theorem ewma_counts_finite_samples (exp : f64 -> f64) (tau0 : Z) (obs : list (f64 * Z)) :
  let e := foldl (fun e o => EwmaWithVariance.observe exp e o.1 o.2) (EwmaWithVariance.new tau0) obs in
  let n := Z.of_nat (length (filter (fun o => f64_is_finite o.1 = true) obs)) in
  EwmaWithVariance.samples e = Z.min n u32_max /\
  (EwmaWithVariance.is_warm e = true <-> 3 <= n).
Proof.
  intros e n. assert (H : EwmaWithVariance.samples e = Z.min n u32_max).
  { unfold e, n. clear. induction obs as [|[v dt] obs IH] using rev_ind; [done|].
    rewrite foldl_app, filter_app, length_app. simpl.
    rewrite EwmaWithVariance.observe_samples by (rewrite IH; unfold u32_max; lia). rewrite IH.
    destruct (f64_is_finite v) eqn:E.
    - rewrite filter_cons_True by done. simpl. lia.
    - rewrite filter_cons_False by (simpl; congruence). simpl. lia. }
  split; [done|]. unfold EwmaWithVariance.is_warm. rewrite Z.geb_le, H. unfold u32_max. lia.
Qed.

(** A rate is always zero or a positive finite number, whatever float it
    is built from; the byte count it yields fits in a [u64]; and the divisor of
    [time_for] is never below the floor of 1 KiB/s. *)
Theorem rate_always_usable (v : f64) (d : Z) :
  Rate.valid (Rate.from_bps v) /\ in_u64 (Rate.bytes_in (Rate.from_bps v) d) /\
  f64_ltb (Rate.nonzero (Rate.from_bps v)) (Rate.bps Rate.FLOOR) = false.
Proof.
  split; [apply Rate.from_bps_valid|]. split; [apply Rate.bytes_in_range|].
  apply f64_max_not_below; vm_compute; reflexivity.
Qed.
