(* ===== verification/Errors.v ===== *)
(** * Errors and dispositions ([core/error.rs], [core/disposition.rs], and the
    failure types of [core/controller.rs]).

    An error says what happened, a disposition what to do next. Payload strings
    are kept; an [std::io::Error] is its [ErrorKind], the only part the code
    inspects. *)

From S2P Require Import Prelude Ranges.
Local Open Scope Z_scope.

(** The kinds of [std::io::ErrorKind] the classification distinguishes. *)
Inductive ErrorKind :=
| ConnectionReset | ConnectionAborted | BrokenPipe | UnexpectedEof | TimedOut
| ConnectionRefused | HostUnreachable | NotFoundKind | Unsupported | InvalidInput | Interrupted | OtherKind.

Inductive Disposition :=
| Accept
| RetrySameRange (after : option Z) (reason : string)
| BackOffOrigin (after : option Z) (reason : string)
| RefreshCredentials (status : Z)
| InvalidateArtifact (reason : string)
| RecheckLength
| FullBodyForRangeRequest
| RangeCapabilityLostD
| QuarantineSource (reason : string)
| Fatal (status : Z) (reason : string).

Inductive TransportError :=
| TransportIo (kind : ErrorKind)
| ConnectionRetired (reason : string)
| ConnectTimeout
| HandshakeFailed (msg : string)
| TlsError (msg : string).

Inductive HttpError :=
| Protocol (msg : string)
| RangeUnsupported (status : Z)
| OversizedBody (received expected : Z)
| PrematureEof (received expected : Z)
| InvalidStatus (status : Z)
| UnexpectedStatus (status : Z) (message : string)
| UnexpectedPartialContent
| CompressedPayload
| RateLimited (after : option Z)
| RangeCapabilityLost
| Dispositioned (d : Disposition) (status : Z).

Inductive DestinationError :=
| DestinationIo (kind : ErrorKind)
| Rejected (msg : string)
| Enospc
| LeaseConflict (msg : string)
| NonIdempotentRetry (msg : string).

Inductive PersistenceError :=
| PersistenceIo (kind : ErrorKind)
| Corrupt (msg : string).

Inductive ResolverError :=
| ResolverIo (kind : ErrorKind)
| ResolverNotFound (msg : string)
| ResolverTimeout.

Inductive RuntimeError :=
| RuntimeInit (msg : string)
| EngineBusy
| RuntimeEngineGone
| ThreadCreate (msg : string)
| RuntimeJoin (msg : string).

Inductive Error :=
| Transport (e : TransportError)
| Http (e : HttpError)
| Destination (e : DestinationError)
| Persistence (e : PersistenceError)
| Resolver (e : ResolverError)
| RepresentationChanged (reason : string)
| Integrity (msg : string)
| OverlapMismatch (offset : Z)
| CredentialsExpired
| Cancelled
| DeadlineExceeded
| Stalled (reason : string)
| EngineGone
| Config (msg : string)
| Runtime (e : RuntimeError)
| Other (msg : string).

(** [crate::core::Result]. *)
Abbreviation result A := (Error + A)%type.

Definition protocol (m : string) : Error := Http (Protocol m).
Definition destination (m : string) : Error := Destination (Rejected m).
Definition journal (m : string) : Error := Persistence (Corrupt m).

Definition is_destination_error (e : Error) : bool :=
  match e with Destination _ => true | _ => false end.

Definition is_persistence_error (e : Error) : bool :=
  match e with Persistence _ => true | _ => false end.

Definition is_range_retryable (e : Error) : bool :=
  match e with
  | Transport (TransportIo _) => true
  | Transport (ConnectionRetired _) => true
  | Transport ConnectTimeout => true
  | Http (RateLimited _) => true
  | Http (PrematureEof _ _) => true
  | Http (Protocol _) => true
  | _ => false
  end.

Definition invalidates_state (e : Error) : bool :=
  match e with
  | RepresentationChanged _ | OverlapMismatch _ => true
  | _ => false
  end.

(** ** Classification *)

(** The arms in the source's order; a status is a [u16]. *)
Definition classify_status (status : Z) (requested : option ByteRange.t)
    (retry_after : option Z) (is_resume : bool) : Disposition :=
  if (status =? 200) && bool_decide (is_Some requested) then
    (if is_resume then FullBodyForRangeRequest else Accept)
  else if (status =? 200) || (status =? 204) then Accept
  else if status =? 206 then Accept
  else if (status =? 301) || (status =? 302) || (status =? 303) || (status =? 307) || (status =? 308)
    then Fatal status "redirect must be resolved before fetching"
  else if (status =? 401) || (status =? 403) then RefreshCredentials status
  else if (status =? 404) || (status =? 410) then Fatal status "resource gone"
  else if status =? 408 then RetrySameRange None "request timeout"
  else if status =? 412 then InvalidateArtifact "precondition failed"
  else if status =? 416 then RecheckLength
  else if status =? 429 then BackOffOrigin retry_after "rate limited"
  else if (status =? 500) || (status =? 502) || (status =? 504)
    then RetrySameRange None "upstream error"
  else if status =? 503 then BackOffOrigin retry_after "service unavailable"
  else if (500 <=? status) && (status <? 600) then RetrySameRange None "server error"
  else Fatal status "unhandled status".

Definition classify_transport_error (e : Error) : Disposition :=
  match e with
  | Transport (TransportIo io) =>
      match io with
      | ConnectionReset | ConnectionAborted | BrokenPipe | UnexpectedEof | TimedOut =>
          RetrySameRange None "connection dropped"
      | ConnectionRefused | HostUnreachable => BackOffOrigin None "origin unreachable"
      | _ => RetrySameRange None "io error"
      end
  | Transport (ConnectionRetired _) => RetrySameRange None "connection retired"
  | Transport ConnectTimeout => BackOffOrigin None "connect timeout"
  | Http (RateLimited after) => BackOffOrigin after "rate limited"
  | Http (PrematureEof _ _) => RetrySameRange None "premature eof"
  | Http RangeCapabilityLost => FullBodyForRangeRequest
  | Http (Dispositioned d _) => d
  | Http (Protocol _) => RetrySameRange None "protocol error"
  | OverlapMismatch _ => QuarantineSource "overlap mismatch against verified data"
  | RepresentationChanged _ => InvalidateArtifact "representation changed"
  | Cancelled => Fatal 0 "cancelled"
  | DeadlineExceeded => Fatal 0 "deadline exceeded"
  | _ => Fatal 0 "unrecoverable"
  end.

(** ** Failures reported to the controller *)

Inductive ConnectFailure := CfDns | CfRefused | CfTimeout | CfTls | CfOther.

Definition retryable (f : ConnectFailure) : bool :=
  match f with CfTls => false | _ => true end.

Inductive ProbeFailureKind :=
| PfCredentials
| PfRateLimited (retry_after : option Z)
| PfTransport.

Record ProbeFailure := mkProbeFailure { pf_kind : ProbeFailureKind; pf_status : Z }.

Definition probe_failure_from_error (e : Error) : ProbeFailure :=
  match e with
  | Http (Dispositioned d status) =>
      match d with
      | RefreshCredentials _ => mkProbeFailure PfCredentials status
      | BackOffOrigin after _ => mkProbeFailure (PfRateLimited after) status
      | _ => mkProbeFailure PfTransport status
      end
  | Http (RangeUnsupported status) | Http (InvalidStatus status) => mkProbeFailure PfTransport status
  | _ => mkProbeFailure PfTransport 0
  end.

Inductive DestinationFailureKind := DfDigestMismatch | DfNoSpace | DfDestinationError.

Definition destination_failure_from_error (e : Error) : DestinationFailureKind :=
  match e with
  | Integrity _ => DfDigestMismatch
  | Destination Enospc => DfNoSpace
  | _ => DfDestinationError
  end.

(** ** Theorems *)

(** What a disposition asks of the network: fetch again, now or later. *)
Definition retries_network (d : Disposition) : bool :=
  match d with RetrySameRange _ _ | BackOffOrigin _ _ => true | _ => false end.

(** Retryability is judged once: except for a status the fetch layer has
    already classified, an error is sent back to the network exactly when
    [is_range_retryable] says so; no destination or persistence error ever is,
    and an error that invalidates local state never keeps the source's data. *)
Theorem transport_classification_agrees (e : Error) :
  (forall d s, e ≠ Http (Dispositioned d s)) ->
  retries_network (classify_transport_error e) = is_range_retryable e /\
  (is_destination_error e || is_persistence_error e = true ->
     classify_transport_error e = Fatal 0 "unrecoverable") /\
  (invalidates_state e = true ->
     (exists r, classify_transport_error e = InvalidateArtifact r) \/
     exists r, classify_transport_error e = QuarantineSource r).
Proof.
  intros H. destruct e as [[[]| | | |]|[]| | | | | | | | | | | | | |]; simpl; try (split_and!; naive_solver).
Qed.

Lemma transport_classification_agrees_witness :
  retries_network (classify_transport_error (Transport ConnectTimeout)) = true /\
  classify_transport_error (Destination Enospc) = Fatal 0 "unrecoverable".
Proof.
  split; [reflexivity|].
  apply (transport_classification_agrees (Destination Enospc)); [discriminate|reflexivity].
Defined.

(** A status line never lets a full body be written at a resume offset,
    and the status-driven outcomes are exhaustive: [Accept] only for 200, 204
    and 206, a network retry exactly for 408, 429 and the 5xx class, and the
    artifact is invalidated only by 412. *)
Theorem status_classification_sound (status : Z) (requested : option ByteRange.t)
    (retry_after : option Z) (is_resume : bool) :
  let d := classify_status status requested retry_after is_resume in
  (status = 200 -> is_Some requested -> is_resume = true -> d = FullBodyForRangeRequest) /\
  (d = Accept -> status = 204 \/ status = 206 \/
     (status = 200 /\ ~ (is_Some requested /\ is_resume = true))) /\
  (retries_network d = true <-> status = 408 \/ status = 429 \/ 500 <= status < 600) /\
  ((exists r, d = InvalidateArtifact r) <-> status = 412) /\
  (d = RecheckLength <-> status = 416).
Proof.
  intros d. unfold d, classify_status.
  destruct (Z.eqb_spec status 200) as [->|H200]; simpl.
  { case_bool_decide as Hr; [destruct is_resume|]; simpl; split_and!; try done; try lia; naive_solver lia. }
  assert (Hn : status = 200 -> is_Some requested -> is_resume = true -> False) by lia.
  repeat (case Z.eqb_spec; [intros ->; simpl; split_and!; try done; try lia; naive_solver lia|intros ?; simpl]).
  destruct (Z.leb_spec 500 status); simpl; [destruct (Z.ltb_spec status 600); simpl|];
    split_and!; try done; try lia; naive_solver lia.
Qed.
