(* ===== verification/Disk.v ===== *)
(** * A file system that can lose power.

    What the journal and the final commit rely on when they write, sync and
    rename: the operations of [std::fs] they call, their effect as seen by the
    process, and what a power loss may leave. *)

From S2P Require Import Prelude Errors.
Local Open Scope Z_scope.

(** A file system that loses power: what a file holds is certain only once the
    file is synced, and a rename only once its directory is. *)
Record file := mkFile { data : list Z; synced : bool }.
Abbreviation image := (gmap string file).

(** The directory as seen now, and the earlier images a power loss may still
    bring back. *)
Record disk := mkDisk { now_image : image; rollback : list image }.

Inductive fs_op :=
| Create (p : string)
| OpenFile (p : string)
| WriteAt (p : string) (off : Z) (bytes : list Z)
| WriteAll (p : string) (bytes : list Z)
| SetLen (p : string) (n : Z)
| SyncAll (p : string)
| Rename (from to : string)
| SyncParent
| RemoveFile (p : string).

(** [File::set_len]: cut, or extended with zeroes. *)
Definition resize (b : list Z) (n : Z) : list Z := take (Z.to_nat n) (b ++ replicate (Z.to_nat n) 0).

(** Bytes at a position: past the end they leave a hole of zeroes. *)
Definition overwrite (f bs : list Z) (off : Z) : list Z :=
  let n := Z.to_nat off in
  take n f ++ replicate (n - length f) 0 ++ bs ++ drop (n + length bs) f.

(** [Create] truncates what is there, [OpenFile] keeps it. *)
Definition apply_op (o : fs_op) (d : disk) : disk :=
  match o with
  | Create p => mkDisk (<[p := mkFile [] false]> (now_image d)) (rollback d)
  | OpenFile p => match now_image d !! p with
                  | Some _ => d
                  | None => mkDisk (<[p := mkFile [] false]> (now_image d)) (rollback d)
                  end
  | WriteAt p off b => mkDisk (alter (fun f => mkFile (overwrite (data f) b off) false) p (now_image d)) (rollback d)
  | WriteAll p b => mkDisk (alter (fun f => mkFile (data f ++ b) false) p (now_image d)) (rollback d)
  | SetLen p n => mkDisk (alter (fun f => mkFile (resize (data f) n) false) p (now_image d)) (rollback d)
  | SyncAll p => mkDisk (alter (fun f => mkFile (data f) true) p (now_image d)) (rollback d)
  | Rename a b =>
      match now_image d !! a with
      | Some f => mkDisk (<[b := f]> (delete a (now_image d))) (now_image d :: rollback d)
      | None => d
      end
  | SyncParent => mkDisk (now_image d) []
  | RemoveFile p => mkDisk (delete p (now_image d)) (rollback d)
  end.

(** Runs them, the call number [k] failing when [fault] is [Some (k, kind)]; the
    caller wraps the I/O error with [err]. *)
Fixpoint exec (err : ErrorKind -> Error) (ops : list fs_op) (fault : option (nat * ErrorKind)) (d : disk) : disk * result unit :=
  match ops with
  | [] => (d, inr tt)
  | o :: ops' =>
      match fault with
      | Some (O, k) => (d, inl (err k))
      | Some (S n, k) => exec err ops' (Some (n, k)) (apply_op o d)
      | None => exec err ops' None (apply_op o d)
      end
  end.

(** The states a run passes through: a write can stop in the middle. *)
Inductive during : disk -> list fs_op -> disk -> Prop :=
| during_here d ops : during d ops d
| during_torn d p b1 b2 ops : during d (WriteAll p (b1 ++ b2) :: ops) (apply_op (WriteAll p b1) d)
| during_torn_at d p off b1 b2 ops : during d (WriteAt p off (b1 ++ b2) :: ops) (apply_op (WriteAt p off b1) d)
| during_next d o ops d' : during (apply_op o d) ops d' -> during d (o :: ops) d'.

(** What a reader may find after the power comes back. *)
Definition survives (i : image) (after : string -> option (list Z)) : Prop :=
  forall p, match i !! p with
            | None => after p = None
            | Some f => synced f = true -> after p = Some (data f)
            end.

Definition power_loss (d : disk) (after : string -> option (list Z)) : Prop :=
  Exists (fun i => survives i after) (now_image d :: rollback d).

(** While the record is replaced: the path keeps its old file, or holds a
    synced new one; the temporary file, where the old image is the current one,
    matters to nobody. *)
Definition safe_image (p : string) (old : option (list Z)) (out : list Z) (i : image) : Prop :=
  i !! p = (fun b => mkFile b true) <$> old \/ i !! p = Some (mkFile out true).

Lemma safe_survives p old out i after : safe_image p old out i -> survives i after ->
  after p = old \/ after p = Some out.
Proof.
  intros [Hp|Hp] Hs; specialize (Hs p); rewrite Hp in Hs; [|right; by apply Hs].
  left. destruct old as [b|]; simpl in Hs; [by apply Hs|done].
Qed.

Definition safe_disk (p : string) (old : option (list Z)) (out : list Z) (d : disk) : Prop :=
  Forall (safe_image p old out) (now_image d :: rollback d).

Lemma safe_touch p old out d i : safe_disk p old out d -> i !! p = now_image d !! p ->
  safe_disk p old out (mkDisk i (rollback d)).
Proof.
  intros [Hn Hr]%Forall_cons Hi. constructor; [|done]. unfold safe_image in *. simpl. by rewrite Hi.
Qed.

Lemma safe_power_loss p old out d after : safe_disk p old out d -> power_loss d after ->
  after p = old \/ after p = Some out.
Proof.
  intros Hs (i&Hi&Ha)%Exists_exists. eapply Forall_forall in Hs; [|exact Hi]. by eapply safe_survives.
Qed.

Lemma exec_during err ops fault d d' r : exec err ops fault d = (d', r) -> during d ops d'.
Proof.
  revert fault d. induction ops as [|o ops IH]; simpl; intros fault d; [intros [= <- _]; constructor|].
  destruct fault as [[[|n] k]|]; [intros [= <- _]; constructor|..]; intros H; eapply during_next, IH, H.
Qed.


Lemma exec_fault err ops fault d d' e : exec err ops fault d = (d', inl e) ->
  exists n kd, fault = Some (n, kd) /\ (n < length ops)%nat /\ e = err kd.
Proof.
  revert fault d. induction ops as [|o ops IH]; cbn; intros fault d; [done|].
  destruct fault as [[[|n] kd]|]; [intros [= _ <-]; exists 0%nat, kd; split_and!; [done|lia|done]| |].
  - intros (n'&kd'&[= <- <-]&Hn&->)%IH. exists (S n), kd. split_and!; [done|lia|done].
  - by intros (n'&kd'&?&_)%IH.
Qed.

Lemma exec_error err ops fault d d' e : exec err ops fault d = (d', inl e) -> exists k, e = err k.
Proof. intros (n&k&_&_&->)%exec_fault. eauto. Qed.

(** Calls other than a write happen at once or not at all. *)
Lemma during_cons d o ops d' : during d (o :: ops) d' -> (forall p b, o ≠ WriteAll p b) -> (forall p off b, o ≠ WriteAt p off b) ->
  d' = d \/ during (apply_op o d) ops d'.
Proof. intros Hd Ho Ha. inversion Hd; subst; [by left|by exfalso; eapply Ho|by exfalso; eapply Ha|by right]. Qed.

Lemma during_nil d d' : during d [] d' -> d' = d.
Proof. by inversion 1. Qed.
