(* ===== verification/Context.v ===== *)
(** * The job context ([core/context.rs]).

    One atomic byte per job says whether it is active, cancelled, expired or
    finished; every blocking operation of a fetch races against it. *)

From S2P Require Import Prelude Errors.
Local Open Scope Z_scope.

Definition ACTIVE : Z := 0.
Definition CANCELLED : Z := 1.
Definition EXPIRED : Z := 2.
Definition FINISHED : Z := 3.

(** The shared cell, and how often its listeners were woken. *)
Record Inner := mkInner { state : Z; wakes : Z }.

Definition new : Inner := mkInner ACTIVE 0.

(** The compare-and-swap from [ACTIVE]. *)
Definition set_state (c : Inner) (s : Z) : Inner :=
  if state c =? ACTIVE then mkInner s (wakes c + 1) else c.

Definition cancel (c : Inner) : Inner := set_state c CANCELLED.
Definition expire (c : Inner) : Inner := set_state c EXPIRED.
Definition finish (c : Inner) : Inner := set_state c FINISHED.

Definition is_cancelled (c : Inner) : bool := (state c =? CANCELLED) || (state c =? EXPIRED).

Definition check (c : Inner) : result unit :=
  if (state c =? ACTIVE) || (state c =? FINISHED) then inr tt
  else if state c =? EXPIRED then inl DeadlineExceeded
  else inl Cancelled.

(** [run]: the operation and [cancelled()] are polled in turn, the operation
    first. A poll sees the context as it is then and the operation ready or
    not; [None] is a future that has not completed in these polls. *)
Fixpoint select {T} (polls : list (Inner * option (result T))) : option (result T) :=
  match polls with
  | [] => None
  | (_, Some r) :: _ => Some r
  | (c, None) :: polls' =>
      match check c with
      | inl e => Some (inl e)
      | inr _ => select polls'
      end
  end.

Definition run {T} (c : Inner) (polls : list (Inner * option (result T))) : option (result T) :=
  match check c with
  | inl e => Some (inl e)
  | inr _ => select polls
  end.

Inductive transition := Cancel | Expire | Finish.

Definition apply (c : Inner) (t : transition) : Inner :=
  match t with Cancel => cancel c | Expire => expire c | Finish => finish c end.

Definition target (t : transition) : Z := match t with Cancel => CANCELLED | Expire => EXPIRED | Finish => FINISHED end.

Lemma apply_terminal c t : state c ≠ ACTIVE -> apply c t = c.
Proof. intros Hc. destruct t; simpl; unfold cancel, expire, finish, set_state; case Z.eqb_spec; done. Qed.

Lemma run_terminal ts c : state c ≠ ACTIVE -> foldl apply c ts = c.
Proof. intros Hc. induction ts as [|t ts IH]; simpl; [done|]. by rewrite apply_terminal. Qed.

Lemma first_transition t ts : foldl apply new (t :: ts) = mkInner (target t) 1.
Proof. simpl. destruct t; simpl; by rewrite run_terminal. Qed.

(** Of all the racing cancels, expiries and finishes of a job the first one
    decides, for good, and wakes the listeners once: from then on every
    operation that starts is refused with that outcome's error without being
    polled, and one that is running ends with it at its next poll; a finished
    job refuses nothing. *)
Theorem first_transition_decides {T} (t : transition) (ts ts' : list transition)
    (polls : list (Inner * option (result T))) :
  let c := foldl apply new (t :: ts) in
  foldl apply c ts' = c /\ wakes c = 1 /\
  match t with
  | Finish => is_cancelled c = false /\ run c polls = select polls
  | Cancel => is_cancelled c = true /\ run c polls = Some (inl Cancelled) /\
      select ((c, None) :: polls) = Some (inl Cancelled)
  | Expire => is_cancelled c = true /\ run c polls = Some (inl DeadlineExceeded) /\
      select ((c, None) :: polls) = Some (inl DeadlineExceeded)
  end.
Proof.
  intros c. unfold c. rewrite first_transition. split; [apply run_terminal; by destruct t|].
  split; [done|]. by destruct t.
Qed.
