(* ===== verification/H2.v ===== *)
(** * The task of an HTTP/2 connection ([net/h2.rs]).

    One task polls the dispatcher, the I/O futures and every stream of a
    connection. A future is a value of a type that is not looked into; [poll]
    says what one poll of it makes of the future and of the world, and what the
    future asks of the handle meanwhile. *)

From S2P Require Import Prelude.
Local Open Scope Z_scope.

Definition Waker := nat.

(** ** Futures *)

Inductive polled (F : Type) := StillPending (f : F) | IsReady | Panics.
Arguments StillPending {F}. Arguments IsReady {F}. Arguments Panics {F}.

(** What a future may do with the handle while it is polled. *)
Inductive request (F : Type) := Admits (f : F) | PushesIo (f : F) | ShutsDown.
Arguments Admits {F}. Arguments PushesIo {F}. Arguments ShutsDown {F}.

Section h2.
Context {F W : Type} (poll : F -> W -> polled F * list (request F) * W).

(** ** The handle *)

(** [wakes]: the wakers that were woken, latest first. *)
Record H2Inner := mkH2 {
  dispatcher : option F; io : list F; streams : list F; waker : option Waker; closed : bool; wakes : list Waker }.
#[export] Instance H2Inner_rebuild : Rebuild H2Inner := fun s =>
  mkH2 (dispatcher s) (io s) (streams s) (waker s) (closed s) (wakes s).

Definition new : H2Inner := mkH2 None [] [] None false [].

Definition wake (s : H2Inner) : H2Inner :=
  match waker s with Some w => s <| wakes ::= cons w |> | None => s end.

Definition set_dispatcher (f : F) (s : H2Inner) : H2Inner := wake (s <| dispatcher := Some f |>).
Definition admit_stream (f : F) (s : H2Inner) : H2Inner := wake (s <| streams ::= fun l => l ++ [f] |>).
Definition push_io (f : F) (s : H2Inner) : H2Inner := wake (s <| io ::= fun l => l ++ [f] |>).
Definition shutdown (s : H2Inner) : H2Inner := wake (s <| closed := true |>).

Definition perform (s : H2Inner) (r : request F) : H2Inner :=
  match r with Admits f => admit_stream f s | PushesIo f => push_io f s | ShutsDown => shutdown s end.

(** ** One turn of the task

    [None]: a panic of the dispatcher or of an I/O future unwinds out of the
    task; only a stream is caught. *)

(** A poll of one future, its requests carried out. *)
Definition poll_one (f : F) (s : H2Inner) (w : W) : polled F * H2Inner * W :=
  let '(p, rs, w') := poll f w in (p, foldl perform s rs, w').

Definition poll_dispatcher (s : H2Inner) (w : W) : option (H2Inner * W) :=
  match dispatcher s with
  | None => Some (s, w)
  | Some f =>
      match poll_one f (s <| dispatcher := None |>) w with
      | (StillPending f', s', w') => Some (s' <| dispatcher := Some f' |>, w')
      | (IsReady, s', w') => Some (s', w')
      | (Panics, _, _) => None
      end
  end.

(** [retain_mut] over a list taken out of the handle. *)
Fixpoint retain_io (fs : list F) (s : H2Inner) (w : W) : option (list F * H2Inner * W) :=
  match fs with
  | [] => Some ([], s, w)
  | f :: fs' =>
      match poll_one f s w with
      | (Panics, _, _) => None
      | (p, s1, w1) =>
          match retain_io fs' s1 w1 with
          | Some (kept, s2, w2) => Some ((match p with StillPending f' => [f'] | _ => [] end) ++ kept, s2, w2)
          | None => None
          end
      end
  end.

Fixpoint retain_streams (fs : list F) (s : H2Inner) (w : W) : list F * H2Inner * W :=
  match fs with
  | [] => ([], s, w)
  | f :: fs' =>
      let '(p, s1, w1) := poll_one f s w in
      let '(kept, s2, w2) := retain_streams fs' s1 w1 in
      ((match p with StillPending f' => [f'] | IsReady | Panics => [] end) ++ kept, s2, w2)
  end.

(** What was pushed meanwhile comes first. *)
Definition poll_io (s : H2Inner) (w : W) : option (H2Inner * W) :=
  match retain_io (io s) (s <| io := [] |>) w with
  | Some (kept, s', w') => Some (s' <| io ::= fun l => l ++ kept |>, w')
  | None => None
  end.

Definition poll_streams (s : H2Inner) (w : W) : H2Inner * W :=
  let '(kept, s', w') := retain_streams (streams s) (s <| streams := [] |>) w in
  (s' <| streams ::= fun l => l ++ kept |>, w').

Definition poll_drivers (s : H2Inner) (w : W) : option (H2Inner * W) :=
  match poll_dispatcher s w with Some (s', w') => poll_io s' w' | None => None end.

(** [true]: the task is over. *)
Definition poll_task (cx : Waker) (s : H2Inner) (w : W) : option (bool * H2Inner * W) :=
  match poll_drivers (s <| waker := Some cx |>) w with
  | None => None
  | Some (s1, w1) =>
      let '(s2, w2) := poll_streams s1 w1 in
      match poll_drivers s2 w2 with
      | None => None
      | Some (s3, w3) => Some (closed s3 && (match streams s3 with [] => true | _ => false end), s3, w3)
      end
  end.
End h2.
Arguments H2Inner F : clear implicits.

(** ** Properties *)

Module H2Spec.

(** *** What a turn does to the streams *)

Section turns.
Context {F W : Type} (poll : F -> W -> polled F * list (request F) * W).

(** Each future polled once, in order. *)
Fixpoint outcomes (fs : list F) (w : W) : list (polled F) :=
  match fs with
  | [] => []
  | f :: fs' => let '(p, _, w') := poll f w in p :: outcomes fs' w'
  end.
Definition survivors (ps : list (polled F)) : list F :=
  ps ≫= fun p => match p with StillPending f => [f] | IsReady | Panics => [] end.
Definition admitted (rs : list (request F)) : list F :=
  rs ≫= fun r => match r with Admits f => [f] | PushesIo _ | ShutsDown => [] end.

Lemma perform_streams rs s : streams (foldl perform s rs) = streams s ++ admitted rs.
Proof.
  revert s. induction rs as [|r rs IH]; intros s; cbn [foldl]; [by rewrite app_nil_r|]. rewrite IH.
  change (admitted (r :: rs)) with ((match r with Admits f => [f] | _ => [] end) ++ admitted rs). rewrite app_assoc. f_equal.
  destruct r; unfold perform, admit_stream, push_io, shutdown, wake; cbn; destruct (waker s); cbn; by rewrite ?app_nil_r.
Qed.

(** The streams [s'] has beyond those of [s] were admitted meanwhile. *)
Definition grows (s s' : H2Inner F) : Prop := exists rs, streams s' = streams s ++ admitted rs.
#[local] Instance grows_preorder : PreOrder grows.
Proof.
  split; [intros s; exists []; by rewrite app_nil_r|]. intros a b c [r1 H1] [r2 H2]. exists (r1 ++ r2).
  unfold admitted. by rewrite bind_app, app_assoc, H2, H1.
Qed.

Lemma poll_one_grows f s w p s' w' : poll_one poll f s w = (p, s', w') -> grows s s'.
Proof. unfold poll_one. destruct (poll f w) as [[? rs] ?]. intros [= <- <- <-]. exists rs. apply perform_streams. Qed.

Lemma retain_io_grows fs s w kept s' w' : retain_io poll fs s w = Some (kept, s', w') -> grows s s'.
Proof.
  revert s w kept s' w'. induction fs as [|f fs IH]; intros s w kept s' w' E; cbn in E; [by injection E as <- <- <-|].
  destruct (poll_one poll f s w) as [[p s1] w1] eqn:E1. apply poll_one_grows in E1.
  destruct p; [| |done]; (destruct (retain_io poll fs s1 w1) as [[[k s2] w2]|] eqn:E2; [|done]; injection E as <- <- <-;
    apply IH in E2; by etransitivity).
Qed.

Lemma poll_drivers_grows s w s' w' : poll_drivers poll s w = Some (s', w') -> grows s s'.
Proof.
  unfold poll_drivers. destruct (poll_dispatcher poll s w) as [[s1 w1]|] eqn:E1; [|done]. intros E2. transitivity s1.
  - unfold poll_dispatcher in E1. destruct (dispatcher s) as [f|]; [|by injection E1 as <- <-].
    destruct (poll_one _ f _ w) as [[p s2] w2] eqn:E. apply poll_one_grows in E as [rs Hrs].
    destruct p; [| |done]; injection E1 as <- <-; exists rs; exact Hrs.
  - unfold poll_io in E2. destruct (retain_io _ _ _ _) as [[[k s2] w2]|] eqn:E; [|done]. injection E2 as <- <-.
    apply retain_io_grows in E as [rs Hrs]. exists rs. exact Hrs.
Qed.

Lemma retain_streams_spec fs s w kept s' w' : retain_streams poll fs s w = (kept, s', w') ->
  kept = survivors (outcomes fs w) /\ grows s s'.
Proof.
  revert s w kept s' w'. induction fs as [|f fs IH]; intros s w kept s' w' E; cbn in E; [by injection E as <- <- <-|].
  destruct (poll_one poll f s w) as [[p s1] w1] eqn:E1. destruct (retain_streams poll fs s1 w1) as [[k s2] w2] eqn:E2.
  injection E as <- <- <-. apply IH in E2 as [-> H2]. pose proof (poll_one_grows _ _ _ _ _ _ E1) as H1.
  unfold poll_one in E1. cbn [outcomes]. destruct (poll f w) as [[q rs] v]. injection E1 as -> <- ->. split; [|by etransitivity].
  unfold survivors. by rewrite bind_cons.
Qed.

(** A turn of the task polls every stream of the connection exactly once, those that
    were admitted by its drivers in this turn included, and lets go only of the
    ones whose own poll finished or panicked: the siblings of a stream that
    panics are all polled and kept, and nothing that is admitted while they run
    is lost. The task is over exactly when it was shut down and no stream is
    left. *)
Theorem siblings_continue cx s w over s' w' : poll_task poll cx s w = Some (over, s', w') ->
  exists asked now here later, let here' := streams s ++ admitted asked in
    streams s' = admitted here ++ survivors (outcomes here' now) ++ admitted later /\
    length (outcomes here' now) = length here' /\
    (over = true <-> closed s' = true /\ streams s' = []).
Proof.
  unfold poll_task. destruct (poll_drivers poll (s <| waker := Some cx |>) w) as [[s1 w1]|] eqn:E1; [|done].
  unfold poll_streams. destruct (retain_streams _ _ _ _) as [[k s2] w2] eqn:E2.
  destruct (poll_drivers poll _ w2) as [[s3 w3]|] eqn:E3; [|done]. intros [= <- <- <-].
  apply poll_drivers_grows in E1 as [asked H1], E3 as [later H3]. apply retain_streams_spec in E2 as [-> [here H2]].
  cbn in H1, H2, H3. exists asked, w1, here, later. cbn zeta. rewrite <- H1. split_and!.
  - by rewrite H3, H2, app_assoc.
  - generalize (streams s1) as fs. clear. intros fs. revert w1. induction fs as [|f fs IH]; intros w; [done|]. cbn.
    destruct (poll f w) as [[p rs] v]. cbn. by rewrite IH.
  - destruct (closed s3), (streams s3); cbn; intuition congruence.
Qed.
End turns.

(** *** Wake-ups *)

Section wakeups.
Context {F W : Type} (poll : F -> W -> polled F * list (request F) * W).

(** The futures marked: [true] once polled where they are kept. *)
Definition marked_request (r : request F) : request (F * bool) :=
  match r with Admits f => Admits (f, false) | PushesIo f => PushesIo (f, false) | ShutsDown => ShutsDown end.
Definition marked_poll (f : F * bool) (w : W) : polled (F * bool) * list (request (F * bool)) * W :=
  let '(p, rs, w') := poll f.1 w in
  (match p with StillPending f' => StillPending (f', true) | IsReady => IsReady | Panics => Panics end, marked_request <$> rs, w').

Abbreviation H := (H2Inner (F * bool)).

Definition seen (f : F * bool) : Prop := f.2 = true.
Definition all_seen (s : H) : Prop := (forall f, dispatcher s = Some f -> seen f) /\ Forall seen (io s) /\ Forall seen (streams s).

(** The rest of the engine and the executor: a turn begins with no wake-up due. *)
Inductive op := Admit (f : F) | SetDispatcher (f : F) | PushIo (f : F) | Shutdown | Turn (cx : Waker).

(** [over] is what the last turn answered. *)
Definition run_op (c : bool * H * W) (o : op) : option (bool * H * W) :=
  let '(over, s, w) := c in
  match o with
  | Admit f => Some (over, admit_stream (f, false) s, w)
  | SetDispatcher f => Some (over, set_dispatcher (f, false) s, w)
  | PushIo f => Some (over, push_io (f, false) s, w)
  | Shutdown => Some (over, shutdown s, w)
  | Turn cx => poll_task marked_poll cx (s <| wakes := [] |>) w
  end.
Fixpoint run (c : bool * H * W) (os : list op) : option (bool * H * W) :=
  match os with [] => Some c | o :: os' => match run_op c o with Some c' => run c' os' | None => None end end.

(** From [s] on, [cx] is woken or nothing was asked of the handle. *)
Definition asks (cx : Waker) (s s' : H) : Prop :=
  waker s' = Some cx /\ (cx ∈ wakes s -> cx ∈ wakes s') /\ (cx ∈ wakes s' \/ s' = s).

Lemma asks_trans cx s1 s2 s3 : asks cx s1 s2 -> asks cx s2 s3 -> asks cx s1 s3.
Proof. intros (A1&A2&A3) (B1&B2&B3). split_and!; [done|auto|]. destruct B3 as [| ->]; [by left|]. done. Qed.

Lemma perform_asks cx rs s : waker s = Some cx -> asks cx s (foldl perform s rs).
Proof.
  revert s. induction rs as [|r rs IH]; intros s Hs; cbn [foldl]; [by split_and!; [| |right]|].
  assert (H1 : waker (perform s r) = Some cx /\ cx ∈ wakes (perform s r)).
  { destruct r; unfold perform, admit_stream, push_io, shutdown, wake; cbn; rewrite Hs; cbn; (split; [done|by left]). }
  destruct H1 as [H1 H2]. destruct (IH _ H1) as (A1&A2&A3). split_and!; [done|auto|left; auto].
Qed.

Lemma marked_poll_seen f w p rs w' : marked_poll f w = (p, rs, w') -> forall f', p = StillPending f' -> seen f'.
Proof. unfold marked_poll. destruct (poll f.1 w) as [[q ?] ?]. intros [= <- <- <-] f'. by destruct q; intros [= <-]. Qed.

Lemma poll_one_asks cx f s w p s' w' : waker s = Some cx -> poll_one marked_poll f s w = (p, s', w') ->
  asks cx s s' /\ forall f', p = StillPending f' -> seen f'.
Proof.
  unfold poll_one. intros Hs E. destruct (marked_poll f w) as [[q rs] v] eqn:Ep. injection E as <- <- <-.
  split; [by apply perform_asks|]. by eapply marked_poll_seen.
Qed.

Lemma retain_io_asks cx fs s w kept s' w' : waker s = Some cx -> retain_io marked_poll fs s w = Some (kept, s', w') ->
  asks cx s s' /\ Forall seen kept.
Proof.
  revert s w kept s' w'. induction fs as [|f fs IH]; intros s w kept s' w' Hs E; cbn in E; [injection E as <- <- <-; by split; [split_and!; [| |right]|constructor]|].
  destruct (poll_one marked_poll f s w) as [[p s1] w1] eqn:E1. apply (poll_one_asks cx) in E1 as [H1 H1']; [|done].
  destruct p as [f'| |]; [| |done]; (destruct (retain_io marked_poll fs s1 w1) as [[[k s2] w2]|] eqn:E2; [|done]; injection E as <- <- <-;
    apply IH in E2 as [H2 H2']; [|by destruct H1]; split; [by eapply asks_trans|]; cbn; auto).
Qed.

Lemma retain_streams_asks cx fs s w kept s' w' : waker s = Some cx -> retain_streams marked_poll fs s w = (kept, s', w') ->
  asks cx s s' /\ Forall seen kept.
Proof.
  revert s w kept s' w'. induction fs as [|f fs IH]; intros s w kept s' w' Hs E; cbn in E; [injection E as <- <- <-; by split; [split_and!; [| |right]|constructor]|].
  destruct (poll_one marked_poll f s w) as [[p s1] w1] eqn:E1. apply (poll_one_asks cx) in E1 as [H1 H1']; [|done].
  destruct (retain_streams marked_poll fs s1 w1) as [[k s2] w2] eqn:E2. injection E as <- <- <-.
  apply IH in E2 as [H2 H2']; [|by destruct H1]. split; [by eapply asks_trans|]. destruct p; cbn; auto.
Qed.

(** What a phase of the turn leaves: a wake-up, or [P] of the state. *)
Definition settled (cx : Waker) (P : H -> Prop) (s : H) : Prop := waker s = Some cx /\ (cx ∈ wakes s \/ P s).

Definition drivers_seen (s : H) : Prop := (forall f, dispatcher s = Some f -> seen f) /\ Forall seen (io s).

Lemma poll_drivers_settled cx s w s' w' (P : list (F * bool) -> Prop) : settled cx (fun s => P (streams s)) s ->
  poll_drivers marked_poll s w = Some (s', w') -> settled cx (fun s' => drivers_seen s' /\ P (streams s')) s'.
Proof.
  intros [Hs Hp]. unfold poll_drivers. destruct (poll_dispatcher marked_poll s w) as [[s1 w1]|] eqn:E1; [|done]. intros E2.
  assert (H1 : settled cx (fun s1 => (forall f, dispatcher s1 = Some f -> seen f) /\ P (streams s1)) s1).
  { unfold poll_dispatcher in E1. destruct (dispatcher s) as [f|] eqn:Ed.
    2:{ injection E1 as <- <-. split; [done|]. destruct Hp; [by left|]. right. split; [by rewrite Ed|done]. }
    destruct (poll_one _ f _ w) as [[p s2] w2] eqn:E. apply (poll_one_asks cx) in E as [(A1&A2&A3) Hf]; [|done]. cbn in *.
    assert (Hp2 : cx ∈ wakes s2 \/ s2 = s <| dispatcher := None |> /\ P (streams s)).
    { destruct A3; [by left|]. destruct Hp; [left; auto|by right]. }
    destruct p as [f'| |]; [| |done]; injection E1 as <- <-; (split; [done|]); (destruct Hp2 as [|[-> ?]]; [by left|right]); cbn; split; try done.
    intros f0 [= <-]. by apply Hf. }
  destruct H1 as [H1 H1']. unfold poll_io in E2. destruct (retain_io _ _ _ _) as [[[k s2] w2]|] eqn:E; [|done]. injection E2 as <- <-.
  apply (retain_io_asks cx) in E as [(A1&A2&A3) Hk]; [|done]. cbn in *. split; [done|]. cbn.
  destruct H1' as [|[Hd HP]]; [left; auto|]. destruct A3 as [| ->]; [by left|]. right. by split.
Qed.

(** Nothing is due for nothing. *)
Definition attended (c : bool * H * W) : Prop :=
  let '(over, s, _) := c in forall cx, waker s = Some cx ->
    cx ∈ wakes s \/ (all_seen s /\ (closed s = true -> streams s = [] -> over = true)).

Lemma wake_attended over (s' : H) w : attended (over, wake s', w).
Proof. intros cx. unfold wake. destruct (waker s') as [x|] eqn:E; cbn; [|by rewrite E]. rewrite E. intros [= ->]. left. by left. Qed.

Lemma turn_attended cx s w c : poll_task marked_poll cx s w = Some c -> attended c.
Proof.
  unfold poll_task. destruct (poll_drivers _ _ w) as [[s1 w1]|] eqn:E1; [|done].
  apply (poll_drivers_settled cx _ _ _ _ (fun _ => True)) in E1 as [H1 _]; [|split; [done|by right]].
  unfold poll_streams. destruct (retain_streams _ _ _ _) as [[k s2] w2] eqn:E2.
  apply (retain_streams_asks cx) in E2 as [(A1&A2&A3) Hk]; [|done].
  destruct (poll_drivers marked_poll _ w2) as [[s3 w3]|] eqn:E3; [|done]. intros [= <-].
  apply (poll_drivers_settled cx _ _ _ _ (Forall seen)) in E3 as [B1 B2].
  2:{ split; [done|]. cbn. destruct A3 as [| ->]; [by left|by right]. }
  intros cx'. rewrite B1. intros [= <-]. destruct B2 as [|[[D1 D2] D3]]; [by left|]. right. split; [done|].
  intros -> ->. done.
Qed.

(** C36. No wake-up of a connection is lost: whatever is admitted, pushed, set or shut
    down, between its turns or by the futures in the middle of one, the task has
    been woken since its last turn began, or every future it keeps was polled
    where it is kept, and a shut down task without streams has said that it is
    over. *)
Theorem no_wakeup_is_lost os w over (s : H) w' : run (false, new, w) os = Some (over, s, w') ->
  forall cx, waker s = Some cx -> cx ∈ wakes s \/ (all_seen s /\ (closed s = true -> streams s = [] -> over = true)).
Proof.
  assert (Hrun : forall c, attended c -> forall c', run c os = Some c' -> attended c').
  { induction os as [|o os IH]; intros c Hc c' E; cbn in E; [by injection E as <-|].
    destruct (run_op c o) as [c1|] eqn:E1; [|done]. apply (IH c1); [|done]. destruct c as [[ov s1] w1].
    destruct o; cbn in E1; try (injection E1 as <-; by eapply wake_attended). by apply turn_attended in E1. }
  intros E. apply Hrun in E; [exact E|]. intros cx Hw. done.
Qed.
End wakeups.

(** *** A connection with four streams *)

(** A future that is polled so many more times; the seventh panics, and the fifth
    admits another one. *)
Definition countdown (f : nat) (w : nat) : polled nat * list (request nat) * nat :=
  (match f with O => IsReady | 7%nat => Panics | Datatypes.S n => StillPending n end, (if (f =? 5)%nat then [Admits 3%nat] else []), Datatypes.S w).

Definition busy : H2Inner nat := mkH2 (Some 2%nat) [1%nat] [7; 5; 0; 2]%nat None false [].

Lemma siblings_continue_witness : exists s' w', poll_task countdown 9%nat busy 0%nat = Some (false, s', w') /\
  (streams s' = [3; 4; 1]%nat) /\ ~ (closed s' = true /\ streams s' = []).
Proof.
  destruct (poll_task countdown 9%nat busy 0%nat) as [[[over s'] w']|] eqn:E; [|discriminate E].
  destruct (siblings_continue countdown _ _ _ _ _ _ E) as (asked&now&here&later&_&_&Hover).
  injection E as <- <- <-. eexists _, _. split_and!; [reflexivity..|]. intros Hc. discriminate (proj2 Hover Hc).
Defined.

Lemma no_wakeup_is_lost_witness : exists c, run countdown (false, new, 0%nat) [SetDispatcher 6%nat; Turn 1%nat; Admit 5%nat; Turn 2%nat; Turn 2%nat] = Some c /\
  (2%nat ∈ wakes c.1.2 \/ all_seen c.1.2).
Proof.
  destruct (run countdown _ _) as [[[over s] w']|] eqn:E; [|discriminate E].
  pose proof (no_wakeup_is_lost countdown _ _ _ _ _ E) as Hw. exists (over, s, w'). split; [done|]. cbn.
  assert (Hc : waker s = Some 2%nat) by (injection E as <- <- <-; reflexivity).
  destruct (Hw _ Hc) as [|[? _]]; [by left|by right].
Defined.
End H2Spec.
