(* ===== verification/HyperIo.v ===== *)
(** * The bridge between the runtime's streams and hyper ([net/hyper_io.rs]).

    One poll of a read, and the counters of reads that all connections of a shard
    share. Writes, flushes and shutdowns are handed on unchanged. *)

From S2P Require Import Prelude Errors.
Local Open Scope Z_scope.

(** ** Counters *)

Record IoReadCounters := mkCounters { submitted : Z; completed : Z; inflight : Z; zero_read : Z; max_zero : Z }.
#[export] Instance IoReadCounters_rebuild : Rebuild IoReadCounters := fun c =>
  mkCounters (submitted c) (completed c) (inflight c) (zero_read c) (max_zero c).

Record IoReadState := mkIoRead { counters : IoReadCounters; zero_since : option Z }.
Definition IO_READ : IoReadState := mkIoRead (mkCounters 0 0 0 0 0) None.

Definition idle_for (d : Z) (c : IoReadCounters) : IoReadCounters := c <| zero_read ::= Z.add d |> <| max_zero ::= Z.max d |>.

Definition io_read_snapshot (now : Z) (s : IoReadState) : IoReadState * IoReadCounters :=
  match zero_since s with
  | Some since => let c := idle_for (now - since) (counters s) in (mkIoRead c (Some now), c)
  | None => (s, counters s)
  end.

Definition note_read_submit (now : Z) (s : IoReadState) : IoReadState :=
  let s := if inflight (counters s) =? 0
           then match zero_since s with Some since => mkIoRead (idle_for (now - since) (counters s)) None | None => s end
           else s in
  mkIoRead ((counters s) <| submitted ::= Z.add 1 |> <| inflight := 1 |>) (zero_since s).

Definition note_read_complete (now : Z) (s : IoReadState) : IoReadState :=
  mkIoRead ((counters s) <| completed ::= Z.add 1 |> <| inflight := 0 |>) (Some now).

(** ** Reads *)

(** What the stream says to a poll. *)
Inductive stream_read := StreamPending | StreamError (k : ErrorKind) | StreamRead (n : Z).

(** [None] is [Pending]; a count is how far the buffer advances. *)
Definition poll_answer := option (ErrorKind + Z).

(** The same for both streams: [cap] is the room that was offered. *)
Definition poll_read (cap now : Z) (answer : stream_read) (armed : bool) (s : IoReadState) : poll_answer * bool * IoReadState :=
  match answer with
  | StreamPending => if armed then (None, true, s) else (None, true, note_read_submit now s)
  | StreamError k => (Some (inl k), false, s)
  | StreamRead n =>
      let s := if armed then note_read_complete now s else s in
      (Some (if n >? cap then inl OtherKind else inr n), false, s)
  end.

(** All of the buffer in the clear, at most 64 KiB of it over TLS. *)
Definition poll_read_plain (remaining : Z) := poll_read remaining.
Definition poll_read_tls (remaining : Z) := poll_read (Z.min remaining (64 * 1024)).

(** ** Properties *)

(** A shard: which of its connections wait for a read. *)
Record Reads := mkReads { shared : IoReadState; waiting : list bool }.
Record Poll := mkPoll { connection : nat; over_tls : bool; room : Z; at_ : Z; says : stream_read }.

Definition run_poll (r : Reads) (p : Poll) : Reads * poll_answer :=
  match waiting r !! connection p with
  | None => (r, None)
  | Some armed =>
      let '(a, armed', s) := (if over_tls p then poll_read_tls else poll_read_plain) (room p) (at_ p) (says p) armed (shared r) in
      (mkReads s (<[connection p := armed']> (waiting r)), a)
  end.

(** A read never hands on more bytes than there is room for, and over TLS at most
    64 KiB are prepared at a time. *)
Lemma reads_fit p r r' n : run_poll r p = (r', Some (inr n)) -> n <= room p /\ (over_tls p = true -> n <= 64 * 1024).
Proof.
  unfold run_poll, poll_read_tls, poll_read_plain, poll_read. destruct (waiting r !! connection p) as [armed|]; [|done].
  destruct (over_tls p), (says p) as [|k|m]; try done; try (by destruct armed); rewrite Z.gtb_ltb; case Z.ltb_spec; try done;
    intros Hm [= <- <-]; split; (lia || done).
Qed.

Definition outstanding (r : Reads) : Z := Z.of_nat (length (filter (fun b => b = true) (waiting r))).

Lemma outstanding_insert l i (b a : bool) : l !! i = Some a ->
  Z.of_nat (length (filter (fun b => b = true) (<[i := b]> l))) =
  Z.of_nat (length (filter (fun b => b = true) l)) + (if b then 1 else 0) - (if a then 1 else 0).
Proof.
  revert i. induction l as [|x l IH]; intros [|i] Hi; [done..| |].
  - injection Hi as ->. change (<[O := b]> (a :: l)) with (b :: l). rewrite !filter_cons. destruct a, b; rewrite ?(decide_True (P := true = true)), ?(decide_False (P := false = true)) by done; cbn [length]; lia.
  - change (<[S i := b]> (x :: l)) with (x :: <[i := b]> l). specialize (IH i Hi). rewrite !filter_cons.
    destruct (decide (x = true)); cbn [length]; lia.
Qed.

(** Every read that was submitted is completed, still waited for, or failed. *)
Lemma reads_are_accounted_for n ps : let r := foldl (fun r p => (run_poll r p).1) (mkReads IO_READ (replicate n false)) ps in
  exists failed, 0 <= failed /\
    submitted (counters (shared r)) = completed (counters (shared r)) + outstanding r + failed /\ 0 <= inflight (counters (shared r)) <= 1.
Proof.
  cbn zeta. set (inv := fun r => exists failed, 0 <= failed /\
    submitted (counters (shared r)) = completed (counters (shared r)) + outstanding r + failed /\ 0 <= inflight (counters (shared r)) <= 1).
  assert (Hstep : forall ps r, inv r -> inv (foldl (fun r p => (run_poll r p).1) r ps)).
  { clear. induction ps as [|p ps IH]; intros r Hr; [done|]. cbn [foldl]. apply IH. destruct Hr as (f&Hf&He&Hi).
    unfold run_poll. destruct (waiting r !! connection p) as [armed|] eqn:Ew; [|by exists f].
    assert (Hcap : exists cap, (if over_tls p then poll_read_tls else poll_read_plain) (room p) (at_ p) (says p) armed (shared r) =
      poll_read cap (at_ p) (says p) armed (shared r)) by (destruct (over_tls p); by eexists).
    destruct Hcap as [cap ->]. unfold poll_read. destruct (says p) as [|k|m].
    - destruct armed; cbn.
      + exists f. unfold outstanding in *. cbn. rewrite (outstanding_insert _ _ _ _ Ew). split_and!; (done || lia).
      + exists f. unfold outstanding in *. cbn. rewrite (outstanding_insert _ _ _ _ Ew). unfold note_read_submit.
        destruct (inflight _ =? 0), (zero_since (shared r)); cbn; split_and!; (done || lia).
    - exists (f + (if armed then 1 else 0)). unfold outstanding in *. cbn. rewrite (outstanding_insert _ _ _ _ Ew). destruct armed; split_and!; (done || lia).
    - exists f. unfold outstanding in *. cbn. rewrite (outstanding_insert _ _ _ _ Ew). destruct armed; cbn; split_and!; (done || lia). }
  apply Hstep. exists 0. split; [done|]. cbn. split; [|done]. unfold outstanding. cbn.
  induction n as [|n IH]; [done|]. cbn. exact IH.
Qed.

(** [inflight] is a flag of the shard, not a count: the completion of one read
    clears it while another is waited for, and an error leaves it set. *)
Lemma inflight_forgets_siblings :
  let r := foldl (fun r p => (run_poll r p).1) (mkReads IO_READ [false; false])
    [mkPoll 0 false 10 0 StreamPending; mkPoll 1 false 10 1 StreamPending; mkPoll 0 false 10 2 (StreamRead 4)] in
  inflight (counters (shared r)) = 0 /\ outstanding r = 1 /\
  inflight (counters (shared (run_poll (run_poll (mkReads IO_READ [false]) (mkPoll 0 false 10 0 StreamPending)).1 (mkPoll 0 false 10 1 (StreamError OtherKind))).1)) = 1.
Proof. vm_compute. done. Qed.
