(* ===== verification/Text.v ===== *)
(** * The string functions of the Rust standard library the parsers use.

    Header text is ASCII ([HeaderValue::to_str] admits visible ASCII and tab
    only), so a string is a list of ASCII characters; [trim] strips the ASCII
    part of the Unicode White_Space property. *)

From S2P Require Import Prelude.
From stdpp Require Import pretty.
From Stdlib Require Import Ascii String.
Local Open Scope Z_scope.

Definition code (c : ascii) : Z := Z.of_N (N_of_ascii c).

Definition is_ws (c : ascii) : bool := ((9 <=? code c) && (code c <=? 13)) || (code c =? 32).

Fixpoint trim_start (s : string) : string :=
  match s with
  | EmptyString => EmptyString
  | String c s' => if is_ws c then trim_start s' else s
  end.

Fixpoint trim_end (s : string) : string :=
  match s with
  | EmptyString => EmptyString
  | String c s' =>
      match trim_end s' with
      | EmptyString => if is_ws c then EmptyString else String c EmptyString
      | t => String c t
      end
  end.

Definition trim (s : string) : string := trim_end (trim_start s).

Fixpoint strip_prefix (p s : string) : option string :=
  match p, s with
  | EmptyString, _ => Some s
  | String a p', String b s' => if Ascii.eqb a b then strip_prefix p' s' else None
  | String _ _, EmptyString => None
  end.

(** [str::split_once] on a character: the first occurrence. *)
Fixpoint split_once (c : ascii) (s : string) : option (string * string) :=
  match s with
  | EmptyString => None
  | String x s' =>
      if Ascii.eqb x c then Some (EmptyString, s')
      else match split_once c s' with
           | Some (a, b) => Some (String x a, b)
           | None => None
           end
  end.

Definition starts_with (p s : string) : bool :=
  match strip_prefix p s with Some _ => true | None => false end.

Definition to_ascii_lowercase (c : ascii) : ascii :=
  if (65 <=? code c) && (code c <=? 90) then ascii_of_N (Z.to_N (code c + 32)) else c.

Fixpoint eq_ignore_ascii_case (a b : string) : bool :=
  match a, b with
  | EmptyString, EmptyString => true
  | String x a', String y b' =>
      Ascii.eqb (to_ascii_lowercase x) (to_ascii_lowercase y) && eq_ignore_ascii_case a' b'
  | _, _ => false
  end.

(** [str::split] on a character, all pieces. *)
Fixpoint split (c : ascii) (s : string) : list string :=
  match s with
  | EmptyString => [EmptyString]
  | String x s' =>
      if Ascii.eqb x c then EmptyString :: split c s'
      else match split c s' with
           | a :: l => String x a :: l
           | [] => [String x EmptyString]
           end
  end.

Definition digit (c : ascii) : option Z :=
  if (48 <=? code c) && (code c <=? 57) then Some (code c - 48) else None.

(** [char::to_digit(16)]. *)
Definition hex_digit (c : ascii) : option Z :=
  if (48 <=? code c) && (code c <=? 57) then Some (code c - 48)
  else if (97 <=? code c) && (code c <=? 102) then Some (code c - 87)
  else if (65 <=? code c) && (code c <=? 70) then Some (code c - 55)
  else None.

(** The digit loop of [u64::from_str], with its overflow checks. *)
Fixpoint parse_digits (acc : Z) (s : string) : option Z :=
  match s with
  | EmptyString => Some acc
  | String c s' =>
      match digit c with
      | Some d => let v := acc * 10 + d in if v >? u64_max then None else parse_digits v s'
      | None => None
      end
  end.

(** [u64::from_str]: one leading [+] is accepted, an empty numeral is not. *)
Definition parse_u64 (s : string) : option Z :=
  match s with
  | EmptyString => None
  | String c EmptyString => if Ascii.eqb c "+" then None else parse_digits 0 s
  | String c s' => if Ascii.eqb c "+" then parse_digits 0 s' else parse_digits 0 s
  end.

(** ** Facts *)

Lemma digit_range c d : digit c = Some d -> 0 <= d <= 9.
Proof.
  unfold digit. destruct (andb _ _) eqn:E; [|done]. intros [= <-].
  apply andb_true_iff in E as [?%Z.leb_le ?%Z.leb_le]. lia.
Qed.

Lemma parse_digits_range s acc v : in_u64 acc -> parse_digits acc s = Some v -> in_u64 v.
Proof.
  revert acc. induction s as [|c s IH]; simpl; intros acc Ha; [by intros [= <-]|].
  destruct (digit c) as [d|] eqn:E; [|done]. apply digit_range in E.
  rewrite Z.gtb_ltb. case Z.ltb_spec; [done|]. intros ?. apply IH. u64_lia.
Qed.

Lemma parse_u64_range s v : parse_u64 s = Some v -> in_u64 v.
Proof.
  assert (H0 : in_u64 0) by u64_lia.
  unfold parse_u64. destruct s as [|c [|c' s]]; [done| |]; case Ascii.eqb_spec; intros _; try done;
    by apply parse_digits_range.
Qed.

(** Characters a piece of text is made of. *)
Fixpoint all_chars (p : ascii -> bool) (s : string) : bool :=
  match s with EmptyString => true | String c s' => p c && all_chars p s' end.

Definition is_digit (c : ascii) : bool := bool_decide (is_Some (digit c)).

Definition show_u64 (n : Z) : string := pretty (Z.to_N n).

Lemma pretty_char_digit x : (x < 10)%N -> digit (pretty_N_char x) = Some (Z.of_N x).
Proof.
  intros H. assert (x = 0 \/ x = 1 \/ x = 2 \/ x = 3 \/ x = 4 \/ x = 5 \/ x = 6 \/ x = 7 \/ x = 8 \/ x = 9)%N by lia.
  repeat (destruct H0 as [->|H0]; [reflexivity|]). by subst.
Qed.

Lemma pretty_go_parse x s :
  Z.of_N x <= u64_max -> parse_digits 0 (pretty_N_go x s) = parse_digits (Z.of_N x) s.
Proof.
  revert s. induction (N.lt_wf_0 x) as [x _ IH]; intros s Hx.
  destruct (decide (x = 0)%N) as [->|Hn]; [by rewrite pretty_N_go_0|].
  rewrite pretty_N_go_step by lia. rewrite IH; [|by apply N.div_lt; lia|rewrite N2Z.inj_div; div_lia].
  simpl. rewrite pretty_char_digit by (by apply N.mod_lt).
  rewrite N2Z.inj_div, N2Z.inj_mod. change (Z.of_N 10) with 10.
  replace (Z.of_N x / 10 * 10 + Z.of_N x mod 10) with (Z.of_N x) by div_lia.
  rewrite Z.gtb_ltb. case Z.ltb_spec; [lia|done].
Qed.

Lemma pretty_go_digits x s : all_chars is_digit s = true -> all_chars is_digit (pretty_N_go x s) = true.
Proof.
  revert s. induction (N.lt_wf_0 x) as [x _ IH]; intros s Hs.
  destruct (decide (x = 0)%N) as [->|Hn]; [by rewrite pretty_N_go_0|].
  rewrite pretty_N_go_step by lia. apply IH; [by apply N.div_lt; lia|]. simpl. rewrite Hs, andb_true_r.
  unfold is_digit. rewrite pretty_char_digit by (by apply N.mod_lt). done.
Qed.

Lemma pretty_go_nonempty x s : s ≠ EmptyString -> pretty_N_go x s ≠ EmptyString.
Proof.
  revert s. induction (N.lt_wf_0 x) as [x _ IH]; intros s Hs.
  destruct (decide (x = 0)%N) as [->|Hn]; [by rewrite pretty_N_go_0|].
  rewrite pretty_N_go_step by lia. apply IH; [by apply N.div_lt; lia|done].
Qed.

Lemma show_digits n : all_chars is_digit (show_u64 n) = true.
Proof.
  unfold show_u64, pretty, pretty_N. case_decide; [done|]. by apply pretty_go_digits.
Qed.

Lemma show_nonempty n : show_u64 n ≠ EmptyString.
Proof.
  unfold show_u64, pretty, pretty_N. case_decide; [done|].
  rewrite pretty_N_go_step by lia. by apply pretty_go_nonempty.
Qed.

Lemma parse_u64_digits s :
  all_chars is_digit s = true -> s ≠ EmptyString -> parse_u64 s = parse_digits 0 s.
Proof.
  destruct s as [|c [|c' s]]; intros Hd Hne; [done| |]; simpl in Hd |- *;
    case Ascii.eqb_spec; intros Hc; try done; rewrite Hc in Hd; done.
Qed.

(** A [u64] printed in decimal parses back. *)
Lemma parse_show n : in_u64 n -> parse_u64 (show_u64 n) = Some n.
Proof.
  intros H. rewrite parse_u64_digits by (apply show_digits || apply show_nonempty).
  unfold show_u64, pretty, pretty_N. case_decide as Hz.
  - assert (n = 0) as -> by u64_lia. done.
  - rewrite pretty_go_parse by u64_lia. simpl. f_equal. u64_lia.
Qed.

Lemma all_chars_impl p q s :
  (forall c, p c = true -> q c = true) -> all_chars p s = true -> all_chars q s = true.
Proof.
  intros H. induction s as [|c s IH]; simpl; [done|]. rewrite !andb_true_iff. intros [? ?]. split; auto.
Qed.

Lemma digit_not_ws c : is_digit c = true -> negb (is_ws c) = true.
Proof.
  unfold is_digit, digit, is_ws. rewrite bool_decide_eq_true. destruct (andb _ _) eqn:E; [|by intros []].
  intros _. apply andb_true_iff in E as [?%Z.leb_le ?%Z.leb_le].
  apply negb_true_iff, orb_false_iff. rewrite andb_false_iff, !Z.leb_gt, Z.eqb_neq. lia.
Qed.

Lemma digit_not_sep c x : is_digit c = true -> is_digit x = false -> Ascii.eqb c x = false.
Proof. intros Hc Hx. apply Ascii.eqb_neq. congruence. Qed.

Lemma trim_end_id s : all_chars (fun c => negb (is_ws c)) s = true -> trim_end s = s.
Proof.
  induction s as [|c s IH]; simpl; [done|]. rewrite andb_true_iff, negb_true_iff. intros [Hc Hs].
  rewrite IH by done. destruct s; [by rewrite Hc|done].
Qed.

Lemma trim_end_app a b : trim_end b ≠ EmptyString -> trim_end (a +:+ b) = a +:+ trim_end b.
Proof.
  intros Hb. induction a as [|c a IH]; simpl; [done|]. rewrite IH.
  destruct a as [|x a]; simpl; [by destruct (trim_end b)|done].
Qed.

Lemma trim_start_id c s : is_ws c = false -> trim_start (String c s) = String c s.
Proof. simpl. by intros ->. Qed.

Lemma trim_id s : all_chars (fun c => negb (is_ws c)) s = true -> trim s = s.
Proof.
  intros H. unfold trim. destruct s as [|c s]; [done|].
  rewrite trim_start_id; [by apply trim_end_id|]. simpl in H. apply andb_true_iff in H as [H _].
  by apply negb_true_iff.
Qed.

Lemma trim_show n : trim (show_u64 n) = show_u64 n.
Proof. apply trim_id. eapply all_chars_impl; [apply digit_not_ws|apply show_digits]. Qed.

Lemma split_once_app c a b :
  all_chars (fun x => negb (Ascii.eqb x c)) a = true -> split_once c (a +:+ String c b) = Some (a, b).
Proof.
  induction a as [|x a IH]; simpl; [by rewrite Ascii.eqb_refl|]. fold String.app.
  rewrite andb_true_iff, negb_true_iff. intros [-> H]. by rewrite IH.
Qed.

Lemma all_chars_app p a b : all_chars p (a +:+ b) = all_chars p a && all_chars p b.
Proof. induction a as [|x a IH]; simpl; [done|]. fold String.app. by rewrite IH, andb_assoc. Qed.
