(* ===== verification/HttpRange.v ===== *)
(** * [Content-Range] ([http/range.rs]).

    The parser, the check of a 206 against the request, and the range in the
    engine's half-open form. *)

From S2P Require Import Prelude Ranges Errors Text.
From Stdlib Require Import Ascii String.
Local Open Scope Z_scope.

Module ContentRange.

Record t := mk { first : Z; last : Z; complete_length : option Z }.

(** [u64::checked_add] and [u64::checked_sub]. *)
Definition checked_add (a b : Z) : option Z := if a + b >? u64_max then None else Some (a + b).
Definition checked_sub (a b : Z) : option Z := if a <? b then None else Some (a - b).

Definition len (c : t) : Z :=
  match checked_sub (last c) (first c) with
  | Some diff => match checked_add diff 1 with Some n => n | None => 0 end
  | None => 0
  end.

Definition is_empty (c : t) : bool := first c >? last c.

Definition as_range (c : t) : result ByteRange.t :=
  match checked_add (last c) 1 with
  | Some e => inr (ByteRange.new (first c) e)
  | None => inl (protocol "Content-Range last=u64::MAX overflow")
  end.

Definition validate_against (c : t) (requested : ByteRange.t) : result unit :=
  if negb (first c =? ByteRange.start requested) then
    inl (protocol "Content-Range starts at another offset than asked for")
  else
  match checked_add (last c) 1 with
  | None => inl (protocol "Content-Range last overflow")
  | Some e =>
      if e >? ByteRange.end_ requested then inl (protocol "Content-Range ends beyond requested")
      else if last c <? first c then inl (protocol "Content-Range last < first")
      else match complete_length c with
           | Some total =>
               if last c >=? total then inl (protocol "Content-Range last >= complete length")
               else inr tt
           | None => inr tt
           end
  end.

Definition ok_or {A} (o : option A) (e : Error) : result A :=
  match o with Some a => inr a | None => inl e end.

(** The tail of the parser, once the numbers are read. *)
Definition finish (first0 last0 : Z) (total : string) : result t :=
  if last0 <? first0 then inl (protocol "Content-Range last < first")
  else if last0 =? u64_max then inl (protocol "Content-Range last=u64::MAX is invalid")
  else if String.eqb (trim total) "*" then inr (mk first0 last0 None)
  else match parse_u64 (trim total) with
       | None => inl (protocol "bad complete length")
       | Some cl =>
           if cl =? 0 then inl (protocol "Content-Range complete length cannot be 0")
           else inr (mk first0 last0 (Some cl))
       end.

Definition parse_span (span total : string) : result t :=
  match split_once "-"%char (trim span) with
  | None => inl (protocol "malformed Content-Range span")
  | Some (a, b) =>
      match parse_u64 (trim a) with
      | None => inl (protocol "bad range start")
      | Some f =>
          match parse_u64 (trim b) with
          | None => inl (protocol "bad range end")
          | Some l => finish f l total
          end
      end
  end.

Definition parse_content_range (v0 : string) : result t :=
  let v := trim v0 in
  match (match strip_prefix "bytes " v with Some r => Some r | None => strip_prefix "bytes=" v end) with
  | None => inl (protocol "unsupported Content-Range unit")
  | Some rest =>
      match split_once "/"%char rest with
      | None => inl (protocol "malformed Content-Range")
      | Some (span, total) =>
          if String.eqb (trim span) "*" then inl (protocol "unsatisfied Content-Range")
          else parse_span span total
      end
  end.

(** The header a conforming server sends for a range (RFC 9110). *)
Definition print (c : t) : string :=
  "bytes " +:+ show_u64 (first c) +:+ "-" +:+ show_u64 (last c) +:+ "/" +:+
  match complete_length c with Some n => show_u64 n | None => "*" end.

(** What the wire format can say: [u64] fields, a non-empty span below
    [u64::MAX], a positive complete length. *)
Definition wf (c : t) : Prop :=
  0 <= first c <= last c /\ last c < u64_max /\
  match complete_length c with Some n => 0 < n <= u64_max | None => True end.

Lemma finish_ok f l total c :
  in_u64 f -> in_u64 l -> finish f l total = inr c -> wf c /\ first c = f /\ last c = l.
Proof.
  intros Hf Hl. unfold finish. case Z.ltb_spec; [done|]. case Z.eqb_spec; [done|]. intros Hm Hfl.
  destruct (String.eqb _ _); [intros [= <-]; unfold wf; simpl; u64_lia|].
  destruct (parse_u64 (trim total)) as [cl|] eqn:E; [|done]. apply parse_u64_range in E.
  case Z.eqb_spec; [done|]. intros Hcl [= <-]. unfold wf; simpl. u64_lia.
Qed.

Lemma parse_ok v c : parse_content_range v = inr c -> wf c.
Proof.
  unfold parse_content_range, parse_span. destruct (match strip_prefix _ _ with Some r => _ | None => _ end); [|done].
  destruct (split_once _ _) as [[span total]|]; [|done]. destruct (String.eqb _ _); [done|].
  destruct (split_once _ _) as [[a b]|]; [|done].
  destruct (parse_u64 (trim a)) as [f|] eqn:Ea; [|done]. destruct (parse_u64 (trim b)) as [l|] eqn:Eb; [|done].
  apply parse_u64_range in Ea, Eb. intros H. by apply finish_ok in H as [? _].
Qed.

Lemma digits_no_sep n x : is_digit x = false -> all_chars (fun c => negb (Ascii.eqb c x)) (show_u64 n) = true.
Proof.
  intros Hx. eapply all_chars_impl; [|apply show_digits]. intros c Hc. simpl.
  by rewrite (digit_not_sep c x).
Qed.

Lemma span_no_slash a b :
  all_chars (fun c => negb (Ascii.eqb c "/")) (show_u64 a +:+ "-" +:+ show_u64 b) = true.
Proof. by rewrite !all_chars_app, !digits_no_sep. Qed.

Lemma show_no_ws n : all_chars (fun c => negb (is_ws c)) (show_u64 n) = true.
Proof. eapply all_chars_impl; [apply digit_not_ws|apply show_digits]. Qed.

Definition span_text (c : t) : string := show_u64 (first c) +:+ "-" +:+ show_u64 (last c).

Definition total_text (c : t) : string :=
  match complete_length c with Some n => show_u64 n | None => "*" end.

Lemma print_parts c : print c = "bytes " +:+ span_text c +:+ String "/" (total_text c).
Proof.
  assert (H : forall a b d : string, (a +:+ b) +:+ d = a +:+ (b +:+ d)).
  { intros a b d. induction a as [|x a IH]; [done|]. exact (f_equal (String x) IH). }
  unfold print, span_text. by rewrite !H.
Qed.

Lemma parts_no_ws c : all_chars (fun x => negb (is_ws x)) (span_text c +:+ String "/" (total_text c)) = true.
Proof.
  unfold span_text, total_text. rewrite !all_chars_app, !show_no_ws. simpl.
  destruct (complete_length c); [apply show_no_ws|done].
Qed.

Lemma trim_print c : trim (print c) = "bytes " +:+ span_text c +:+ String "/" (total_text c).
Proof.
  rewrite print_parts. unfold trim.
  change (trim_start ("bytes " +:+ ?x)) with ("bytes " +:+ x).
  rewrite trim_end_app; rewrite trim_end_id by apply parts_no_ws; [done|].
  unfold span_text. pose proof (show_nonempty (first c)). by destruct (show_u64 (first c)).
Qed.

Lemma span_trim c : trim (span_text c) = span_text c.
Proof. apply trim_id. unfold span_text. by rewrite !all_chars_app, !show_no_ws. Qed.

Lemma span_not_star c : String.eqb (span_text c) "*" = false.
Proof.
  apply String.eqb_neq. unfold span_text. intros E.
  assert (H : all_chars (fun c => negb (Ascii.eqb c "-")) (show_u64 (first c) +:+ "-" +:+ show_u64 (last c)) = true)
    by by rewrite E.
  by rewrite !all_chars_app, andb_false_r in H.
Qed.

Lemma finish_print c : wf c -> finish (first c) (last c) (total_text c) = inr c.
Proof.
  destruct c as [f l o]. unfold wf, finish, total_text. simpl. intros (?&?&Ho).
  case Z.ltb_spec; [lia|]. intros _. case Z.eqb_spec; [u64_lia|]. intros _.
  destruct o as [n|]; [|done]. rewrite trim_id by apply show_no_ws.
  destruct (String.eqb (show_u64 n) "*") eqn:E.
  { apply String.eqb_eq in E. pose proof (show_digits n) as Hd. by rewrite E in Hd. }
  rewrite parse_show by u64_lia. case Z.eqb_spec; [lia|done].
Qed.

Lemma parse_print c : wf c -> parse_content_range (print c) = inr c.
Proof.
  intros Hw. unfold parse_content_range. rewrite trim_print.
  change (strip_prefix "bytes " ("bytes " +:+ ?x)) with (Some x).
  cbv iota beta. rewrite split_once_app by apply span_no_slash. rewrite span_trim, span_not_star.
  unfold parse_span. rewrite span_trim.
  assert (span_text c = show_u64 (first c) +:+ String "-" (show_u64 (last c))) as -> by done.
  rewrite split_once_app by (by apply digits_no_sep). rewrite !trim_show.
  destruct Hw as (?&?&?). rewrite !parse_show by u64_lia. by apply finish_print.
Qed.

(** What the check of a 206 accepts. *)
Lemma validate_ok c r :
  0 <= first c -> validate_against c r = inr tt <->
  first c = ByteRange.start r /\ first c <= last c /\ last c < ByteRange.end_ r /\
  last c < u64_max /\ match complete_length c with Some n => last c < n | None => True end.
Proof.
  intros H0. unfold validate_against, checked_add. rewrite Z.gtb_ltb.
  case Z.eqb_spec; simpl; [intros E|naive_solver].
  case Z.ltb_spec; [split; [done|u64_lia]|]. intros Hm. rewrite Z.gtb_ltb.
  case Z.ltb_spec; [split; [done|lia]|]. intros ?. case Z.ltb_spec; [split; [done|lia]|]. intros ?.
  destruct (complete_length c) as [n|]; [|split; [|done]; intros _; u64_lia].
  rewrite Z.geb_leb. case Z.leb_spec; split; try done; u64_lia.
Qed.
End ContentRange.

(** ** Theorems *)

(** Whatever [Content-Range] text the parser accepts describes a non-empty
    range of [u64] offsets with a positive complete length; and it accepts the
    header of every such range, giving it back. *)
Theorem content_range_parser (v : string) (c : ContentRange.t) :
  (ContentRange.parse_content_range v = inr c -> ContentRange.wf c) /\
  (ContentRange.wf c -> ContentRange.parse_content_range (ContentRange.print c) = inr c).
Proof. split; [apply ContentRange.parse_ok|apply ContentRange.parse_print]. Qed.

(** A 206 is believed only for the bytes asked for: when a parsed header
    passes [validate_against], its half-open range starts at the requested
    offset, is not empty, lies within the request and within the complete
    length, and [len] is its length; and every such header passes. *)
Theorem validated_range_within_request (v : string) (c : ContentRange.t) (requested : ByteRange.t)
    (Hp : ContentRange.parse_content_range v = inr c) :
  ContentRange.validate_against c requested = inr tt <->
  exists r, ContentRange.as_range c = inr r /\
    ByteRange.start r = ByteRange.start requested /\ ByteRange.start r < ByteRange.end_ r /\
    ByteRange.end_ r <= ByteRange.end_ requested /\ ContentRange.len c = ByteRange.end_ r - ByteRange.start r /\
    match ContentRange.complete_length c with Some n => ByteRange.end_ r <= n | None => True end.
Proof.
  apply ContentRange.parse_ok in Hp as (H1&H2&_). rewrite ContentRange.validate_ok by lia.
  assert (Ha : ContentRange.as_range c = inr (ByteRange.new (ContentRange.first c) (ContentRange.last c + 1))).
  { unfold ContentRange.as_range, ContentRange.checked_add. rewrite Z.gtb_ltb.
    case Z.ltb_spec; [u64_lia|done]. }
  assert (Hl : ContentRange.len c = ContentRange.last c - ContentRange.first c + 1).
  { unfold ContentRange.len, ContentRange.checked_sub, ContentRange.checked_add.
    case Z.ltb_spec; [lia|]. intros _. rewrite Z.gtb_ltb. case Z.ltb_spec; [u64_lia|done]. }
  rewrite Ha, Hl. split.
  - intros (?&?&?&?&Hc). eexists. split; [done|]. simpl. split_and!; try lia.
    destruct (ContentRange.complete_length c); [lia|done].
  - intros (r&[= <-]&?&?&?&?&Hc). simpl in *. split_and!; try lia.
    destruct (ContentRange.complete_length c); [lia|done].
Qed.

Lemma validated_range_within_request_witness :
  exists c, ContentRange.parse_content_range "bytes 500-999/10000" = inr c /\
    ContentRange.validate_against c (ByteRange.new 500 1000) = inr tt /\
    exists r, ContentRange.as_range c = inr r /\ ByteRange.start r = 500.
Proof.
  eexists. split; [vm_compute; reflexivity|]. split; [vm_compute; reflexivity|].
  destruct (proj1 (validated_range_within_request "bytes 500-999/10000"
    (ContentRange.mk 500 999 (Some 10000)) (ByteRange.new 500 1000) ltac:(vm_compute; reflexivity))
    ltac:(vm_compute; reflexivity)) as (r&Hr&Hs&_).
  exists r. split; [exact Hr|exact Hs].
Defined.

Lemma content_range_parser_witness :
  ContentRange.parse_content_range (ContentRange.print (ContentRange.mk 0 1023 None)) =
  inr (ContentRange.mk 0 1023 None).
Proof. apply (content_range_parser EmptyString). unfold ContentRange.wf. simpl. u64_lia. Defined.
