(* ===== verification/Representation.v ===== *)
(** * Representation identity and overlap checks ([core/representation.rs],
    [integrity/overlap.rs], and [parse_retry_after] of [core/disposition.rs]).

    Times are nanoseconds since the Unix epoch. The [url], [http] and [httpdate]
    crates are parameters: a URL is opaque with the three accessors the code
    uses, a header map is the function from a name to its first value when that
    value is visible ASCII. *)

From S2P Require Import Prelude Ranges Float Errors Text.
From Stdlib Require Import Ascii String.
From stdpp Require Import base list.
Local Open Scope Z_scope.

Inductive ValidatorStrength := StrengthStrong | StrengthWeak | StrengthNone.
Inductive ValidatorMatch := MatchStrong | MatchWeak | MatchUnknown | MatchMismatch.

#[export] Instance ValidatorMatch_eq_dec : EqDecision ValidatorMatch.
Proof. solve_decision. Defined.

Definition is_weak_etag (e : string) : bool := starts_with "W/" e.

(** [Option<String>] comparison of two present values. *)
Definition same_str (a b : string) : bool := String.eqb a b.

Module JournaledFingerprint.

Record t := mk {
  content_length : option Z;
  etag : option string;
  last_modified_unix : option Z;
  final_url : string;
  redirect_chain : list string;
  header_identity : list Z;
  content_coding : option string }.

(** The arms of the nested match for the last-modified/length evidence. *)
Definition matches_dates (a b : t) : ValidatorMatch :=
  match last_modified_unix a, last_modified_unix b with
  | Some x, Some y =>
      if x =? y then
        match content_length a, content_length b with
        | Some p, Some q => if p =? q then MatchWeak else MatchMismatch
        | _, _ => MatchWeak
        end
      else
        match content_length a, content_length b with
        | Some p, Some q => if negb (p =? q) then MatchMismatch else MatchUnknown
        | _, _ => MatchUnknown
        end
  | _, _ =>
      match content_length a, content_length b with
      | Some p, Some q => if negb (p =? q) then MatchMismatch else MatchUnknown
      | _, _ => MatchUnknown
      end
  end.

Definition matches (a b : t) : ValidatorMatch :=
  if negb (bool_decide (header_identity a = header_identity b)) then MatchUnknown
  else
    match etag a, etag b with
    | Some x, Some y =>
        if same_str x y && negb (is_weak_etag x) then MatchStrong
        else if same_str x y then MatchWeak
        else MatchMismatch
    | _, _ => matches_dates a b
    end.
End JournaledFingerprint.

Module RemoteFingerprint.
Section url.
Context {Url : Type}.
Context (url_scheme : Url -> string) (url_host : Url -> option string) (url_port : Url -> option Z).
Context (url_to_string : Url -> string) (url_parse : string -> option Url).
Context (parse_http_date : string -> option Z).

Record t := mk {
  content_length : option Z;
  etag : option string;
  last_modified : option Z;
  final_url : Url;
  redirect_chain : list Url;
  content_coding : option string;
  accept_ranges_hint : bool }.

Definition from_headers (url : Url) (get : string -> option string) : t :=
  mk (match get "content-length" with Some s => parse_u64 s | None => None end)
     (get "etag")
     (match get "last-modified" with Some s => parse_http_date s | None => None end)
     url
     []
     (match get "content-encoding" with
      | Some s => if eq_ignore_ascii_case (trim s) "identity" then None else Some s
      | None => None
      end)
     (match get "accept-ranges" with
      | Some v => existsb (fun tok => eq_ignore_ascii_case (trim tok) "bytes") (Text.split ","%char v)
      | None => false
      end).

Definition validator_strength (f : t) : ValidatorStrength :=
  match etag f with
  | Some e => if negb (is_weak_etag e) && starts_with (String (ascii_of_nat 34) EmptyString) e
              then StrengthStrong else StrengthWeak
  | None => match last_modified f with Some _ => StrengthWeak | None => StrengthNone end
  end.

Definition if_range_value (f : t) : option string :=
  match validator_strength f with
  | StrengthStrong => etag f
  | StrengthWeak | StrengthNone => None
  end.

Definition is_compressed (f : t) : bool := bool_decide (is_Some (content_coding f)).

(** [t.duration_since(UNIX_EPOCH).ok().map(|d| d.as_secs())]. *)
Definition unix_secs (time : Z) : option Z :=
  if time <? 0 then None else Some (time / nanos_per_sec).

Definition to_journal (f : t) (identity : list Z) : JournaledFingerprint.t :=
  JournaledFingerprint.mk (content_length f) (etag f)
    (match last_modified f with Some time => unix_secs time | None => None end)
    (url_to_string (final_url f)) (url_to_string <$> redirect_chain f) identity (content_coding f).

Definition compare_with_journal (f : t) (j : JournaledFingerprint.t) (identity : list Z)
    : ValidatorMatch :=
  match url_parse (JournaledFingerprint.final_url j) with
  | None => MatchMismatch
  | Some previous_url =>
      if negb (same_str (url_scheme (final_url f)) (url_scheme previous_url))
         || negb (bool_decide (url_host (final_url f) = url_host previous_url))
         || negb (bool_decide (url_port (final_url f) = url_port previous_url))
      then MatchMismatch
      else JournaledFingerprint.matches (to_journal f identity) j
  end.
End url.
Arguments t : clear implicits.
End RemoteFingerprint.

(** [parse_retry_after]; [now] is [SystemTime::now()]. *)
Definition parse_retry_after (parse_http_date : string -> option Z) (now : Z) (v : string) : option Z :=
  match parse_u64 (trim v) with
  | Some secs => Some (from_secs (Z.min secs 3600))
  | None =>
      match parse_http_date v with
      | None => None
      | Some when_ => if when_ <? now then None else Some (Z.min (when_ - now) (from_secs 3600))
      end
  end.

(** ** The representation lock *)

Module RepresentationLock.

Record t := mk { etag : option string; last_modified : option Z; total_length : option Z }.

Definition new (e : option string) (lm : option Z) (tl : option Z) : t := mk e lm tl.
Definition default : t := mk None None None.

(** [validate] mutates the lock field by field and returns at the first
    conflict, so the fields learned before it stay learned: the result is the
    lock after the call and the outcome. *)
Definition validate (l : t) (e : option string) (lm tl : option Z) : t * result unit :=
  match (match etag l, e with
         | Some expected, Some actual =>
             if negb (same_str expected actual) then inl (RepresentationChanged "ETag mismatch across range requests")
             else inr l
         | None, Some actual => inr (mk (Some actual) (last_modified l) (total_length l))
         | _, _ => inr l
         end) with
  | inl err => (l, inl err)
  | inr l1 =>
      match (match last_modified l1, lm with
             | Some expected, Some actual =>
                 if negb (expected =? actual) then inl (RepresentationChanged "Last-Modified timestamp changed across range requests")
                 else inr l1
             | None, Some actual => inr (mk (etag l1) (Some actual) (total_length l1))
             | _, _ => inr l1
             end) with
      | inl err => (l1, inl err)
      | inr l2 =>
          match total_length l2, tl with
          | Some expected, Some actual =>
              if negb (expected =? actual) then (l2, inl (RepresentationChanged "total length changed"))
              else (l2, inr tt)
          | None, Some actual => (mk (etag l2) (last_modified l2) (Some actual), inr tt)
          | _, _ => (l2, inr tt)
          end
      end
  end.
End RepresentationLock.

(** The second copy of the lock, in [integrity/overlap.rs]: nested [if let]s
    with early returns. *)
Module IntegrityLock.
Import RepresentationLock.

Definition validate_len (l : t) (tl : option Z) : t * result unit :=
  match total_length l with
  | Some expected_len =>
      match tl with
      | Some actual_len =>
          if negb (expected_len =? actual_len) then (l, inl (RepresentationChanged "total length changed"))
          else (l, inr tt)
      | None => (l, inr tt)
      end
  | None =>
      match tl with
      | Some actual_len => (mk (etag l) (last_modified l) (Some actual_len), inr tt)
      | None => (l, inr tt)
      end
  end.

Definition validate_lm (l : t) (lm tl : option Z) : t * result unit :=
  match last_modified l with
  | Some expected_lm =>
      match lm with
      | Some actual_lm =>
          if negb (expected_lm =? actual_lm)
          then (l, inl (RepresentationChanged "Last-Modified timestamp changed across range requests"))
          else validate_len l tl
      | None => validate_len l tl
      end
  | None =>
      match lm with
      | Some actual_lm => validate_len (mk (etag l) (Some actual_lm) (total_length l)) tl
      | None => validate_len l tl
      end
  end.

Definition validate (l : t) (e : option string) (lm tl : option Z) : t * result unit :=
  match etag l with
  | Some expected_etag =>
      match e with
      | Some actual_etag =>
          if negb (same_str expected_etag actual_etag)
          then (l, inl (RepresentationChanged "ETag mismatch across range requests"))
          else validate_lm l lm tl
      | None => validate_lm l lm tl
      end
  | None =>
      match e with
      | Some actual_etag => validate_lm (mk (Some actual_etag) (last_modified l) (total_length l)) lm tl
      | None => validate_lm l lm tl
      end
  end.
End IntegrityLock.

(** ** Overlap verification *)

Module OverlapGuard.

Inductive verdict := Match | Skipped | Mismatch (offset : Z).

Record t := mk {
  mismatches : Z;
  distinct_connections_failed : Z;
  degrade_threshold : Z }.

Definition new (threshold : Z) : t := mk 0 0 threshold.

(** [u32] increment, wrapping. *)
Definition u32_succ (n : Z) : Z := (n + 1) mod 4294967296.

(** [.zip().position(|(a, b)| a != b)]. *)
Fixpoint position_diff (a b : list Z) : option Z :=
  match a, b with
  | x :: a', y :: b' =>
      if negb (x =? y) then Some 0
      else match position_diff a' b' with Some i => Some (i + 1) | None => None end
  | _, _ => None
  end.

Definition check (g : t) (at_ : Z) (existing incoming : list Z) : t * verdict :=
  let n := Nat.min (length existing) (length incoming) in
  if (n =? 0)%nat then (g, Skipped)
  else if bool_decide (take n existing = take n incoming) then (g, Match)
  else
    let first_bad := default 0 (position_diff (take n existing) (take n incoming)) in
    (mk (u32_succ (mismatches g)) (distinct_connections_failed g) (degrade_threshold g),
     Mismatch (at_ +% first_bad)).

Definition note_connection_failed (g : t) : t :=
  mk (mismatches g) (u32_succ (distinct_connections_failed g)) (degrade_threshold g).

Definition should_degrade (g : t) : bool := distinct_connections_failed g >=? degrade_threshold g.

Definition resume_probe (start overlap : Z) : option ByteRange.t :=
  if (start =? 0) || (overlap =? 0) then None
  else
    let n := Z.min overlap start in
    Some (ByteRange.new (start -% n) start).

Lemma position_diff_spec a b :
  length a = length b ->
  match position_diff a b with
  | Some i => exists k, i = Z.of_nat k /\ take k a = take k b /\ a !! k ≠ b !! k /\ (k < length a)%nat
  | None => a = b
  end.
Proof.
  revert b. induction a as [|x a IH]; intros [|y b] Hl; simpl in *; try done.
  case Z.eqb_spec; simpl; intros Hxy.
  - subst y. specialize (IH b ltac:(lia)). destruct (position_diff a b) as [i|]; [|by subst].
    destruct IH as (k&->&Ht&Hd&Hk). exists (S k). simpl. rewrite Ht. split_and!; [lia|done|done|lia].
  - exists 0%nat. simpl. split_and!; [done|done|congruence|lia].
Qed.
End OverlapGuard.

(** ** Theorems *)

(** One response's evidence. *)
Abbreviation evidence := (option string * option Z * option Z)%type.

Definition validate_all (l : RepresentationLock.t) (es : list evidence) : RepresentationLock.t * bool :=
  foldl (fun (acc : RepresentationLock.t * bool) (e : evidence) =>
           let '(l', r) := RepresentationLock.validate acc.1 e.1.1 e.1.2 e.2 in
           (l', acc.2 && match r with inr _ => true | inl _ => false end))
        (l, true) es.

(** [a] is what the lock holds, [x] what a response says. *)
Definition agrees {A} (a x : option A) : Prop :=
  match a, x with Some u, Some v => u = v | None, Some _ => False | _, None => True end.

Definition keeps {A} (before after : option A) : Prop := match before with Some u => after = Some u | None => True end.

Lemma validate_spec l e lm tl :
  let '(l', r) := RepresentationLock.validate l e lm tl in
  keeps (RepresentationLock.etag l) (RepresentationLock.etag l') /\
  keeps (RepresentationLock.last_modified l) (RepresentationLock.last_modified l') /\
  keeps (RepresentationLock.total_length l) (RepresentationLock.total_length l') /\
  (r = inr tt ->
     agrees (RepresentationLock.etag l') e /\ agrees (RepresentationLock.last_modified l') lm /\
     agrees (RepresentationLock.total_length l') tl).
Proof.
  unfold RepresentationLock.validate, same_str.
  destruct l as [[le|] [ll|] [lt|]], e as [e|], lm as [lm|], tl as [tl|]; simpl;
    try (destruct (String.eqb_spec le e); simpl); try (destruct (Z.eqb_spec ll lm); simpl);
    try (destruct (Z.eqb_spec lt tl); simpl); subst; split_and!; done.
Qed.

Lemma keeps_agrees {A} (a b x : option A) : keeps a b -> agrees a x -> agrees b x.
Proof. destruct a, b, x; simpl; try done; congruence. Qed.

Lemma validate_all_spec l es :
  (validate_all l es).2 = true ->
  keeps (RepresentationLock.etag l) (RepresentationLock.etag (validate_all l es).1) /\
  keeps (RepresentationLock.last_modified l) (RepresentationLock.last_modified (validate_all l es).1) /\
  keeps (RepresentationLock.total_length l) (RepresentationLock.total_length (validate_all l es).1) /\
  Forall (fun e : evidence =>
    agrees (RepresentationLock.etag (validate_all l es).1) e.1.1 /\
    agrees (RepresentationLock.last_modified (validate_all l es).1) e.1.2 /\
    agrees (RepresentationLock.total_length (validate_all l es).1) e.2) es.
Proof.
  induction es as [|[[e lm] tl] es IH] using rev_ind.
  { intros _. simpl. destruct l as [[] [] []]; split_and!; try done; constructor. }
  unfold validate_all in *. rewrite foldl_app. simpl.
  destruct (foldl _ (l, true) es) as [l0 ok] eqn:E. simpl in *.
  pose proof (validate_spec l0 e lm tl) as H. destruct (RepresentationLock.validate l0 e lm tl) as [l' r].
  simpl. rewrite andb_true_iff. intros [Hok Hr]. destruct (IH Hok) as (K1&K2&K3&HF).
  destruct H as (k1&k2&k3&Ha). destruct r as [err|[]]; [done|]. destruct (Ha eq_refl) as (a1&a2&a3).
  assert (Ht : forall A (a b c : option A), keeps a b -> keeps b c -> keeps a c)
    by (intros A [u|] b c; simpl; [by intros ->|done]).
  split; [by eapply Ht|]. split; [by eapply Ht|]. split; [by eapply Ht|].
  apply Forall_app. split; [|by constructor].
  eapply Forall_impl; [exact HF|]. simpl. intros ev (?&?&?).
  split_and!; eapply keeps_agrees; eassumption.
Qed.

(** Responses a representation lock lets through, in any number and order,
    all come from one representation: no two of them give different ETags,
    Last-Modified dates or total lengths, nor differ from evidence the lock held
    before. *)
Theorem lock_admits_one_representation (l : RepresentationLock.t) (es : list evidence)
    (Hok : (validate_all l es).2 = true) (e1 e2 : evidence) (H1 : e1 ∈ es) (H2 : e2 ∈ es) :
  (forall a b, e1.1.1 = Some a -> e2.1.1 = Some b -> a = b) /\
  (forall a b, e1.1.2 = Some a -> e2.1.2 = Some b -> a = b) /\
  (forall a b, e1.2 = Some a -> e2.2 = Some b -> a = b) /\
  (forall a b, RepresentationLock.etag l = Some a -> e1.1.1 = Some b -> a = b).
Proof.
  destruct (validate_all_spec l es Hok) as (K1&_&_&HF). rewrite Forall_forall in HF.
  destruct (HF _ H1) as (A1&B1&C1), (HF _ H2) as (A2&B2&C2).
  assert (Hag : forall A (s x y : option A) a b, agrees s x -> agrees s y -> x = Some a -> y = Some b -> a = b).
  { intros A [u|] x y a b Hx Hy -> ->; simpl in *; [congruence|done]. }
  split; [intros a b; by eapply Hag|]. split; [intros a b; by eapply Hag|]. split; [intros a b; by eapply Hag|].
  intros a b Ha Hb. rewrite Ha in K1. simpl in K1. rewrite K1, Hb in A1. done.
Qed.

Lemma lock_admits_one_representation_witness :
  (validate_all RepresentationLock.default [(Some "v1", None, Some 10); (None, Some 7, None); (Some "v1", None, Some 10)]).2 = true /\
  ((Some "v1", None, Some 10) : evidence).2 = Some 10 /\
  forall a b, Some "v1" = Some a -> Some "v1" = Some b -> a = b.
Proof.
  split; [vm_compute; reflexivity|]. split; [reflexivity|].
  refine (proj1 (lock_admits_one_representation RepresentationLock.default
    [(Some "v1", None, Some 10); (None, Some 7, None); (Some "v1", None, Some 10)] _
    (Some "v1", None, Some 10) (Some "v1", None, Some 10) _ _)).
  - vm_compute; reflexivity.
  - left.
  - left.
Defined.

(** The two copies of the lock (core and integrity) agree on every lock
    and every response: the same outcome and the same lock afterwards. *)
Theorem integrity_lock_equivalent (l : RepresentationLock.t) (e : option string) (lm tl : option Z) :
  IntegrityLock.validate l e lm tl = RepresentationLock.validate l e lm tl.
Proof.
  unfold IntegrityLock.validate, IntegrityLock.validate_lm, IntegrityLock.validate_len, RepresentationLock.validate.
  destruct l as [[le|] [ll|] [lt|]], e as [e|], lm as [lm|], tl as [tl|]; simpl;
    try (destruct (same_str le e); simpl); try (destruct (ll =? lm); simpl);
    try (destruct (lt =? tl); simpl); done.
Qed.

(** Resuming: a journaled fingerprint matches itself unless it has no
    evidence to match by; the verdict does not depend on which side is the
    journal; [Strong] needs equal strong ETags and equal request headers; and
    [Mismatch] needs a real conflict of ETags or lengths. *)
Theorem journal_match_sound (a b : JournaledFingerprint.t) :
  JournaledFingerprint.matches a b = JournaledFingerprint.matches b a /\
  JournaledFingerprint.matches a a ≠ MatchMismatch /\
  (JournaledFingerprint.matches a b = MatchStrong <->
     JournaledFingerprint.header_identity a = JournaledFingerprint.header_identity b /\
     exists e, JournaledFingerprint.etag a = Some e /\ JournaledFingerprint.etag b = Some e /\ is_weak_etag e = false) /\
  (JournaledFingerprint.matches a b = MatchMismatch ->
     (exists x y, JournaledFingerprint.etag a = Some x /\ JournaledFingerprint.etag b = Some y /\ x ≠ y) \/
     (exists x y, JournaledFingerprint.content_length a = Some x /\ JournaledFingerprint.content_length b = Some y /\ x ≠ y)).
Proof.
  destruct a as [la ea da ua ra ia ca], b as [lb eb db ub rb ib cb].
  unfold JournaledFingerprint.matches, JournaledFingerprint.matches_dates, same_str. simpl.
  split; [|split; [|split]].
  - rewrite (bool_decide_ext (ia = ib) (ib = ia)) by done. destruct (bool_decide (ib = ia)); simpl; [|done].
    destruct ea as [xa|], eb as [xb|]; simpl.
    { rewrite (String.eqb_sym xb xa). destruct (String.eqb_spec xa xb) as [->|]; done. }
    all: destruct da as [da|], db as [db|]; rewrite ?(Z.eqb_sym db da); try destruct (Z.eqb_spec da db);
      destruct la as [la|], lb as [lb|]; rewrite ?(Z.eqb_sym lb la); done.
  - rewrite bool_decide_true by done. simpl. destruct ea as [xa|].
    { rewrite String.eqb_refl. by destruct (negb _). }
    destruct da as [da|], la as [la|]; rewrite ?Z.eqb_refl; done.
  - destruct (decide (ia = ib)) as [Hi|Hi]; [rewrite bool_decide_true by done|rewrite bool_decide_false by done]; simpl.
    2: split; [done|naive_solver].
    destruct ea as [xa|], eb as [xb|].
    { destruct (String.eqb_spec xa xb) as [->|Hne]; simpl; [|split; [done|by intros (_&x&[= ->]&[= ->]&_)]].
      destruct (is_weak_etag xb) eqn:Ew; simpl.
      - split; [done|]. intros (_&x&[= <-]&_&Hx). congruence.
      - split; [|done]. intros _. split; [done|eauto]. }
    all: split; [repeat case_match; done|intros [_ (?&?&?&_)]; done].
  - destruct (bool_decide (ia = ib)); simpl; [|done]. destruct ea as [xa|], eb as [xb|].
    { destruct (String.eqb_spec xa xb) as [->|Hne]; simpl; [by destruct (negb _)|]. left; eauto. }
    all: destruct la as [la|], lb as [lb|]; try (repeat case_match; done);
      destruct (Z.eqb_spec la lb); simpl; try (repeat case_match; done); right; eauto.
Qed.

(** [If-Range] carries only a strong validator: when the header value is
    produced it is the response's ETag, quoted and not weak. *)
Theorem if_range_is_strong {Url} (f : RemoteFingerprint.t Url) (v : string) :
  RemoteFingerprint.if_range_value f = Some v <->
  RemoteFingerprint.etag f = Some v /\ is_weak_etag v = false /\
  exists rest, v = String (ascii_of_nat 34) rest.
Proof.
  unfold RemoteFingerprint.if_range_value, RemoteFingerprint.validator_strength.
  destruct (RemoteFingerprint.etag f) as [e|]; [|destruct (RemoteFingerprint.last_modified f); naive_solver].
  destruct (is_weak_etag e) eqn:Ew; simpl; [split; [done|naive_solver]|].
  destruct e as [|c rest]; [split; [done|naive_solver]|].
  change (starts_with (String (ascii_of_nat 34) EmptyString) (String c rest))
    with (match (if Ascii.eqb (ascii_of_nat 34) c then Some rest else None) with Some _ => true | None => false end).
  destruct (Ascii.eqb_spec (ascii_of_nat 34) c) as [<-|Hc]; simpl; split; intros H.
  - injection H as <-. split_and!; eauto.
  - naive_solver.
  - done.
  - destruct H as ([= <-]&_&r&[= Hr _]). congruence.
Qed.

(** The overlap check compares the common prefix and nothing else: it
    matches exactly on equal non-empty prefixes, and a mismatch names the first
    differing byte and is counted. *)
Theorem overlap_check_correct (g : OverlapGuard.t) (at_ : Z) (existing incoming : list Z) :
  let n := Nat.min (length existing) (length incoming) in
  let '(g', v) := OverlapGuard.check g at_ existing incoming in
  match v with
  | OverlapGuard.Skipped => n = 0%nat /\ g' = g
  | OverlapGuard.Match => (0 < n)%nat /\ take n existing = take n incoming /\ g' = g
  | OverlapGuard.Mismatch offset =>
      exists k, (k < n)%nat /\ offset = (at_ +% Z.of_nat k) /\
        take k existing = take k incoming /\ existing !! k ≠ incoming !! k /\
        OverlapGuard.mismatches g' = OverlapGuard.u32_succ (OverlapGuard.mismatches g) /\
        OverlapGuard.distinct_connections_failed g' = OverlapGuard.distinct_connections_failed g
  end.
Proof.
  intros n. unfold OverlapGuard.check. fold n. case Nat.eqb_spec; [done|]. intros Hn.
  case_bool_decide as E; [split_and!; [lia|done|done]|].
  pose proof (OverlapGuard.position_diff_spec (take n existing) (take n incoming)) as H.
  rewrite !length_take in H. specialize (H ltac:(lia)).
  destruct (OverlapGuard.position_diff _ _) as [i|]; [|done].
  destruct H as (k&->&Ht&Hd&Hk). exists k. simpl. rewrite !take_take in Ht. rewrite !lookup_take_lt in Hd by lia.
  replace (k `min` n)%nat with k in Ht by lia. split_and!; try done. lia.
Qed.
