(* ===== verification/Policy.v ===== *)
(** * Transfer policies and engine limits ([core/policy.rs]).

    The ceilings a job runs under, their clamping against the engine's limits,
    the two-axis concurrency and the retry backoff. *)

From S2P Require Import Prelude Float Rates.
Local Open Scope Z_scope.

Definition as_u8 (x : Z) : Z := x mod 256.

Inductive HttpVersionPolicy := Auto | Http1Only | Http2PriorKnowledge.

Record RedirectPolicy := mkRedirectPolicy {
  allow_https_to_http : bool;
  forward_credentials_cross_origin : bool }.

Definition RedirectPolicy_default : RedirectPolicy := mkRedirectPolicy false false.

Record TransportLimits := mkTransportLimits {
  max_physical_connections : Z;
  max_streams_per_connection : Z;
  max_active_assignments : Z }.

Definition TransportLimits_default : TransportLimits := mkTransportLimits 8 16 8.

Record SegmentationPolicy := mkSegmentationPolicy {
  min_piece : Z;
  max_piece : Z;
  tail_threshold : Z;
  tail_min_piece : Z;
  alignment : Z;
  straggler_z : f64;
  straggler_share : f64;
  straggler_grace : Z }.

Definition SegmentationPolicy_default : SegmentationPolicy :=
  mkSegmentationPolicy (256 * 1024) (512 * MIB) (64 * MIB) (64 * 1024) (64 * 1024)
    (f64_of_Z 2) f64_half (from_secs 2).

Record RetryPolicy := mkRetryPolicy {
  max_attempts_per_range : Z;
  base_backoff : Z;
  max_backoff : Z;
  jitter : bool }.

Definition RetryPolicy_default : RetryPolicy := mkRetryPolicy 6 (from_millis 250) (from_secs 30) true.

Record TransferPolicy := mkTransferPolicy {
  transport : TransportLimits;
  initial_physical_connections : Z;
  initial_streams_per_connection : Z;
  segmentation : SegmentationPolicy;
  retry : RetryPolicy;
  max_redirects : Z;
  redirects : RedirectPolicy;
  allow_compressed : bool;
  http_version : HttpVersionPolicy }.

Definition TransferPolicy_default : TransferPolicy :=
  mkTransferPolicy TransportLimits_default 1 1 SegmentationPolicy_default RetryPolicy_default 10
    RedirectPolicy_default false Auto.

(** ** The builder *)

Definition with_transport (p : TransferPolicy) (t : TransportLimits) : TransferPolicy :=
  mkTransferPolicy t (initial_physical_connections p) (initial_streams_per_connection p)
    (segmentation p) (retry p) (max_redirects p) (redirects p) (allow_compressed p) (http_version p).

Definition with_initial (p : TransferPolicy) (phys streams : Z) : TransferPolicy :=
  mkTransferPolicy (transport p) phys streams
    (segmentation p) (retry p) (max_redirects p) (redirects p) (allow_compressed p) (http_version p).

Definition build_max_physical_connections (p : TransferPolicy) (v : Z) : TransferPolicy :=
  with_transport p (mkTransportLimits (Z.max v 1) (max_streams_per_connection (transport p))
                      (max_active_assignments (transport p))).

Definition build_max_streams_per_connection (p : TransferPolicy) (v : Z) : TransferPolicy :=
  with_transport p (mkTransportLimits (max_physical_connections (transport p)) (Z.max v 1)
                      (max_active_assignments (transport p))).

Definition build_initial_streams_per_connection (p : TransferPolicy) (v : Z) : TransferPolicy :=
  with_initial p (initial_physical_connections p) (Z.max v 1).

Definition build_allow_compressed (p : TransferPolicy) (v : bool) : TransferPolicy :=
  mkTransferPolicy (transport p) (initial_physical_connections p) (initial_streams_per_connection p)
    (segmentation p) (retry p) (max_redirects p) (redirects p) v (http_version p).

(** ** Engine limits *)

Module EngineLimits.

Record t := mk {
  memory_bytes : Z;
  max_jobs : Z;
  max_physical_connections : Z;
  max_connections_per_origin : Z;
  max_active_assignments : Z }.

Definition default : t := mk (256 * 1024 * 1024) 128 64 16 32.

Definition clamp_policy (l : t) (policy : TransferPolicy) : TransferPolicy :=
  let max_p := Z.max (as_u8 (max_connections_per_origin l)) 1 in
  let tr := transport policy in
  let tr' := mkTransportLimits (Z.min (Policy.max_physical_connections tr) max_p)
               (max_streams_per_connection tr) (Policy.max_active_assignments tr) in
  with_initial (with_transport policy tr')
    (Z.min (initial_physical_connections policy) (Policy.max_physical_connections tr'))
    (Z.min (Z.max (initial_streams_per_connection policy) 1) (max_streams_per_connection tr')).
End EngineLimits.

(** ** Retry backoff *)

(** [RetryPolicy::backoff] with the number [r] its random source yields; [None]
    is the panic of [Duration::from_secs_f64]. *)
Definition backoff (p : RetryPolicy) (attempt : Z) (r : f64) : option Z :=
  let exp := f64_mul (as_secs_f64 (base_backoff p)) (f64_pow2 (Z.to_nat (Z.min attempt 16))) in
  let capped := f64_min exp (as_secs_f64 (max_backoff p)) in
  let v := if jitter p then f64_mul capped r else capped in
  from_secs_f64 (f64_max v (f64_lit 1 3)).

(** ** Concurrency *)

Module Concurrency.

Record t := mk { physical_connections : Z; logical_streams : Z }.

Definition default : t := mk 0 0.
Definition total_streams (c : t) : Z := logical_streams c.

Definition clamped (c : t) (p : TransferPolicy) : t :=
  mk (u64_clamp (physical_connections c) 1 (max_physical_connections (transport p)))
     (u64_clamp (logical_streams c) 1 (max_streams_per_connection (transport p))).
End Concurrency.

(** A policy as the builder and [clamp_policy] leave it: no ceiling is zero. *)
Definition policy_wf (p : TransferPolicy) : Prop :=
  1 <= max_physical_connections (transport p) <= 255 /\
  1 <= max_streams_per_connection (transport p) <= 65535.

(** ** Theorems *)

(** Clamping against the engine's limits lowers the job's own ceilings or
    leaves them, never raises one; the starting parallelism fits the clamped
    ceilings; everything else is untouched; the ceilings stay usable, so the
    adaptive loop's [Concurrency::clamped] never panics under the clamped
    policy and stays within it; and clamping twice is clamping once. *)
Theorem clamp_policy_never_raises (l : EngineLimits.t) (p : TransferPolicy) (Hp : policy_wf p) :
  let q := EngineLimits.clamp_policy l p in
  max_physical_connections (transport q) <= max_physical_connections (transport p) /\
  max_physical_connections (transport q) <= Z.max (EngineLimits.max_connections_per_origin l mod 256) 1 /\
  initial_physical_connections q <= initial_physical_connections p /\
  initial_physical_connections q <= max_physical_connections (transport q) /\
  1 <= initial_streams_per_connection q <= max_streams_per_connection (transport q) /\
  max_streams_per_connection (transport q) = max_streams_per_connection (transport p) /\
  segmentation q = segmentation p /\ retry q = retry p /\ redirects q = redirects p /\
  policy_wf q /\ EngineLimits.clamp_policy l q = q /\
  (forall c, 1 <= Concurrency.physical_connections (Concurrency.clamped c q)
               <= max_physical_connections (transport q) /\
             1 <= Concurrency.logical_streams (Concurrency.clamped c q)
               <= max_streams_per_connection (transport q)).
Proof.
  destruct Hp as [Hp Hs].
  assert (Hq : policy_wf (EngineLimits.clamp_policy l p)) by (unfold policy_wf; simpl; lia).
  intros q. split_and!; try done; try (simpl; unfold as_u8; lia).
  - unfold q, EngineLimits.clamp_policy, with_initial, with_transport. simpl.
    f_equal; [f_equal|..]; lia.
  - destruct Hq. intros c. simpl. u64_lia.
Qed.

Lemma clamp_policy_never_raises_witness :
  policy_wf TransferPolicy_default /\
  max_physical_connections
    (transport (EngineLimits.clamp_policy EngineLimits.default TransferPolicy_default)) <= 8.
Proof.
  assert (H : policy_wf TransferPolicy_default) by (vm_compute; split; split; discriminate).
  split; [exact H|]. apply (clamp_policy_never_raises EngineLimits.default TransferPolicy_default H).
Defined.

(** The engine limit is narrowed to eight bits before it is used as a ceiling:
    an engine configured for 256 connections per origin allows one. *)
Lemma clamp_policy_truncates :
  max_physical_connections
    (transport (EngineLimits.clamp_policy (EngineLimits.mk 0 0 0 256 0) TransferPolicy_default)) = 1.
Proof. reflexivity. Qed.

(** The default backoff without jitter doubles from 250 ms up to the cap of
    30 s, exactly to the nanosecond, whatever the attempt number. *)
Theorem default_backoff_schedule (attempt : Z) (r : f64) (H : 0 <= attempt) :
  backoff (mkRetryPolicy 6 (from_millis 250) (from_secs 30) false) attempt r =
  Some (Z.min (from_millis 250 * 2 ^ attempt) (from_secs 30)).
Proof.
  destruct (Z.leb_spec attempt 16) as [Hle|Hgt].
  - assert (Hn : exists n : nat, (n <= 16)%nat /\ attempt = Z.of_nat n) by (exists (Z.to_nat attempt); lia).
    destruct Hn as (n&Hn&->). do 17 (destruct n as [|n]; [vm_compute; reflexivity|]). lia.
  - transitivity (Some (from_secs 30)).
    + unfold backoff. rewrite Z.min_r by lia. vm_compute. reflexivity.
    + f_equal. symmetry. apply Z.min_r.
      pose proof (Z.pow_le_mono_r 2 16 attempt ltac:(lia) ltac:(lia)) as Hpow. change (2 ^ 16) with 65536 in Hpow.
      unfold from_secs, from_millis, nanos_per_sec. lia.
Qed.

Lemma default_backoff_schedule_witness :
  backoff (mkRetryPolicy 6 (from_millis 250) (from_secs 30) false) 3 f64_zero = Some (from_secs 2).
Proof. rewrite (default_backoff_schedule 3 f64_zero) by lia. reflexivity. Defined.
