(* ===== verification/Spec.v ===== *)
(** * Job specifications and identities ([core/spec.rs], [core/ids.rs]).

    What an application asks for: sources with their headers, priority,
    urgency, durability and integrity; the digests it may expect; and the
    identities the engine derives from URLs. [Url] is the [url] crate's type,
    its accessors are parameters, and a [HeaderMap] is the list of
    (lower-case name, value) pairs its iterator yields. *)

From S2P Require Import Prelude Float Errors Text Policy.
From stdpp Require Import sorting.
From Stdlib Require Import Ascii String.
From stdpp Require Import base list strings.
Local Open Scope Z_scope.

(** ** Priority, urgency, durability *)

Inductive Priority := Background | Low | Normal | High | Critical.

Definition weight (p : Priority) : f64 :=
  match p with
  | Background => f64_lit 25 2
  | Low => f64_of_Z 1
  | Normal => f64_of_Z 4
  | High => f64_of_Z 12
  | Critical => f64_of_Z 40
  end.

Inductive Urgency := LatencySensitive | ThroughputSensitive.

Definition piece_duration_target (u : Urgency) : Z :=
  match u with LatencySensitive => from_millis 800 | ThroughputSensitive => from_millis 3000 end.

Definition allocator_bias (u : Urgency) : f64 :=
  match u with LatencySensitive => f64_lit 16 1 | ThroughputSensitive => f64_one end.

Inductive Durability := Relaxed | Periodic (interval : Z) | CrashSafe.

Definition Durability_default : Durability := Periodic (from_secs 2).

(** ** Integrity *)

Inductive HashKind := Blake3 | Sha256.

#[export] Instance HashKind_eq_dec : EqDecision HashKind.
Proof. solve_decision. Defined.

Inductive ExpectedDigest := ExpectedBlake3 (v : list Z) | ExpectedSha256 (v : list Z).

Record Digest := mkDigest { dg_kind : HashKind; dg_value : list Z }.

Record DigestCheck := mkDigestCheck { dc_kind : HashKind; dc_expected : option (list Z) }.

Record IntegritySpec := mkIntegritySpec {
  expected : option ExpectedDigest;
  compute : option HashKind;
  overlap_bytes : Z;
  verify_on_resume : bool }.

Definition strict (e : ExpectedDigest) : IntegritySpec := mkIntegritySpec (Some e) None 4096 true.
Definition overlap_only (bytes : Z) : IntegritySpec := mkIntegritySpec None None bytes true.

Definition digest_of_expected (e : ExpectedDigest) : Digest :=
  match e with ExpectedBlake3 v => mkDigest Blake3 v | ExpectedSha256 v => mkDigest Sha256 v end.

Definition kind (e : ExpectedDigest) : HashKind :=
  match e with ExpectedBlake3 _ => Blake3 | ExpectedSha256 _ => Sha256 end.

Definition bytes (e : ExpectedDigest) : list Z :=
  match e with ExpectedBlake3 b => b | ExpectedSha256 b => b end.

Definition hex_char (d : Z) : ascii :=
  ascii_of_N (Z.to_N (if d <? 10 then 48 + d else 87 + d)).

(** [format!("{b:02x}")] over the bytes. *)
Fixpoint hex (v : list Z) : string :=
  match v with
  | [] => EmptyString
  | b :: v' => String (hex_char (b / 16)) (String (hex_char (b mod 16)) (hex v'))
  end.

(** The loop over the two-character chunks. *)
Fixpoint parse_pairs (s : string) : option (list Z) :=
  match s with
  | String a (String b s') =>
      match hex_digit a with
      | None => None
      | Some hi =>
          match hex_digit b with
          | None => None
          | Some lo => option_map (cons (Z.lor (Z.shiftl hi 4 mod 256) lo)) (parse_pairs s')
          end
      end
  | _ => Some []
  end.

Definition parse_hex (k : HashKind) (s0 : string) : option ExpectedDigest :=
  let s := trim s0 in
  if negb (Nat.eqb (String.length s) 64) then None
  else match parse_pairs s with
       | None => None
       | Some out => Some (match k with Blake3 => ExpectedBlake3 out | Sha256 => ExpectedSha256 out end)
       end.

Fixpoint lowercase (s : string) : string :=
  match s with EmptyString => EmptyString | String c s' => String (to_ascii_lowercase c) (lowercase s') end.

Definition is_byte (b : Z) : Prop := 0 <= b < 256.

(** Every character, decided by running over the 256 of them. *)
Lemma ascii_all (P : ascii -> bool) :
  forallb (fun n => P (ascii_of_nat n)) (seq 0 256) = true -> forall c, P c = true.
Proof.
  rewrite forallb_forall. intros H c. rewrite <- (ascii_nat_embedding c). apply H.
  apply in_seq. pose proof (nat_ascii_bounded c). lia.
Qed.

Lemma hex_digit_spec c d :
  hex_digit c = Some d -> 0 <= d < 16 /\ to_ascii_lowercase c = hex_char d.
Proof.
  intros H.
  pose proof (ascii_all (fun c => match hex_digit c with
    | Some d => (0 <=? d) && (d <? 16) && Ascii.eqb (to_ascii_lowercase c) (hex_char d)
    | None => true end) ltac:(vm_compute; reflexivity) c) as Hc.
  cbv beta in Hc. rewrite H in Hc. rewrite !andb_true_iff, Ascii.eqb_eq in Hc.
  destruct Hc as [[?%Z.leb_le ?%Z.ltb_lt] ?]. auto.
Qed.

Lemma hex_char_digit c d :
  0 <= d < 16 -> to_ascii_lowercase c = hex_char d -> hex_digit c = Some d.
Proof.
  intros Hd. assert (Hn : exists n : nat, (n < 16)%nat /\ d = Z.of_nat n) by (exists (Z.to_nat d); lia).
  destruct Hn as (n&Hn&->). intros Hc.
  pose proof (ascii_all (fun c => forallb (fun n =>
    implb (Ascii.eqb (to_ascii_lowercase c) (hex_char (Z.of_nat n)))
      (match hex_digit c with Some d => d =? Z.of_nat n | None => false end)) (seq 0 16))
    ltac:(vm_compute; reflexivity) c) as H.
  cbv beta in H. rewrite forallb_forall in H. specialize (H n ltac:(apply in_seq; lia)).
  cbv beta in H. rewrite Hc, Ascii.eqb_refl in H. simpl in H.
  destruct (hex_digit c) as [d|]; [|done]. apply Z.eqb_eq in H. by subst.
Qed.

Lemma byte_join hi lo : 0 <= hi < 16 -> 0 <= lo < 16 ->
  Z.lor (Z.shiftl hi 4 mod 256) lo = 16 * hi + lo.
Proof.
  intros Hh Hl.
  assert (Hn : exists n m : nat, (n < 16)%nat /\ (m < 16)%nat /\ hi = Z.of_nat n /\ lo = Z.of_nat m)
    by (exists (Z.to_nat hi), (Z.to_nat lo); lia).
  destruct Hn as (n&m&Hn&Hm&->&->).
  assert (H : forallb (fun n => forallb (fun m =>
    Z.lor (Z.shiftl (Z.of_nat n) 4 mod 256) (Z.of_nat m) =? 16 * Z.of_nat n + Z.of_nat m)
    (seq 0 16)) (seq 0 16) = true) by (vm_compute; reflexivity).
  rewrite forallb_forall in H. specialize (H n ltac:(apply in_seq; lia)). cbv beta in H.
  rewrite forallb_forall in H. specialize (H m ltac:(apply in_seq; lia)). by apply Z.eqb_eq in H.
Qed.

Lemma hex_length v : String.length (hex v) = (2 * List.length v)%nat.
Proof. induction v as [|b v IH]; simpl; [done|]. rewrite IH. lia. Qed.

Lemma lowercase_length s : String.length (lowercase s) = String.length s.
Proof. induction s as [|c s IH]; simpl; congruence. Qed.

Lemma parse_pairs_spec n s v : String.length s = (2 * n)%nat ->
  parse_pairs s = Some v <-> List.length v = n /\ Forall is_byte v /\ lowercase s = hex v.
Proof.
  revert s v. induction n as [|n IH]; intros s v Hs.
  { destruct s; [|done]. simpl. split; [intros [= <-]; split_and!; try done; constructor|].
    intros (Hl&_). by destruct v. }
  destruct s as [|a [|b s]]; [done|simpl in Hs; lia|]. simpl in Hs. simpl. split.
  - destruct (hex_digit a) as [hi|] eqn:Ea; [|done]. destruct (hex_digit b) as [lo|] eqn:Eb; [|done].
    apply hex_digit_spec in Ea as [Hhi Ha]. apply hex_digit_spec in Eb as [Hlo Hb].
    destruct (parse_pairs s) as [w|] eqn:Ep; [|done]. intros [= <-]. apply IH in Ep as (Hl&Hw&Hx); [|lia].
    rewrite byte_join by done. split_and!; [simpl; lia|constructor; [unfold is_byte; lia|done]|].
    simpl. rewrite Hx, Ha, Hb. do 3 f_equal; [|f_equal]; div_lia.
  - intros (Hl&Hv&Hx). destruct v as [|x v]; [done|]. apply Forall_cons in Hv as [Hx' Hv].
    injection Hx as Ha Hb Hx. unfold is_byte in Hx'.
    rewrite (hex_char_digit a (x / 16)), (hex_char_digit b (x mod 16)) by (try done; div_lia).
    assert (parse_pairs s = Some v) as -> by (apply IH; [lia|]; simpl in Hl; split_and!; [lia|done|done]).
    simpl. rewrite byte_join by div_lia. do 2 f_equal. div_lia.
Qed.

(** ** Sources *)

Section sources.
Context {Url : Type}.
Context (scheme : Url -> string) (host_str : Url -> option string)
        (port_or_known_default : Url -> option Z) (as_str : Url -> string).

Abbreviation HeaderMap := (list (string * string)).

(** A header value carries the mark that keeps it out of logs and hop targets. *)
Record HeaderValue := mkHeaderValue { hv_text : string; is_sensitive : bool }.

(** The header lines without the marks. *)
Definition plain (h : list (string * HeaderValue)) : HeaderMap := (fun e => (e.1, hv_text e.2)) <$> h.

Record SourceRequest := mkSourceRequest {
  url : Url; headers : list (string * HeaderValue); source_weight : Z }.

Definition SourceRequest_new (u : Url) : SourceRequest := mkSourceRequest u [] 128.

(** What the application wants. *)
Record JobSpec := mkJobSpec {
  js_sources : list SourceRequest;
  js_integrity : IntegritySpec;
  js_priority : Priority;
  js_urgency : Urgency;
  js_deadline : option Z;
  js_persistence : Durability;
  js_policy : TransferPolicy;
  js_label : option string }.

Definition IntegritySpec_default : IntegritySpec := mkIntegritySpec None None 4096 true.

Definition JobSpec_new (u : Url) : JobSpec :=
  mkJobSpec [SourceRequest_new u] IntegritySpec_default Normal ThroughputSensitive None
    Durability_default TransferPolicy_default None.

Record TransportOriginKey := mkOriginKey { ok_scheme : string; ok_host : string; ok_port : Z }.

Definition origin_key (s : SourceRequest) : TransportOriginKey :=
  mkOriginKey (scheme (url s)) (default "localhost" (host_str (url s)))
    (default 80 (port_or_known_default (url s))).

Definition from_url (u : Url) : option TransportOriginKey :=
  if negb (String.eqb (scheme u) "http" || String.eqb (scheme u) "https") then None
  else Some (mkOriginKey (scheme u) (default "" (host_str u)) (default 80 (port_or_known_default u))).

Definition authority (k : TransportOriginKey) : string :=
  let is_default := (String.eqb (ok_scheme k) "https" && (ok_port k =? 443)) ||
                    (String.eqb (ok_scheme k) "http" && (ok_port k =? 80)) in
  if is_default then ok_host k else ok_host k +:+ ":" +:+ show_u64 (ok_port k).

Definition managed_headers : list string :=
  ["host"; "range"; "if-range"; "content-length"; "accept-encoding"; "transfer-encoding";
   "connection"; "keep-alive"; "proxy-connection"; "te"; "trailer"; "upgrade"].

Definition reject_managed_header (name : string) : result unit :=
  if existsb (String.eqb name) managed_headers then inl (Config ("header " +:+ name +:+ " is managed by XDE"))
  else inr tt.

Definition header (s : SourceRequest) (name : string) (value : HeaderValue) : result SourceRequest :=
  match reject_managed_header name with
  | inl e => inl e
  | inr _ => inr (mkSourceRequest (url s) (headers s ++ [(name, value)]) (source_weight s))
  end.

(** ** The representation fingerprint *)

Definition is_credential (name : string) : bool :=
  existsb (String.eqb name) ["authorization"; "proxy-authorization"; "cookie"].

(** Tuples of byte strings in Rust's order. *)
Definition entry_le (a b : string * string) : Prop :=
  (a.1 ≠ b.1 /\ String.le a.1 b.1) \/ (a.1 = b.1 /\ String.le a.2 b.2).

#[export] Instance entry_le_dec : RelDecision entry_le.
Proof. intros a b. unfold entry_le. apply _. Defined.

(** The eight little-endian bytes of a length. *)
Fixpoint le_bytes (k : nat) (n : Z) : string :=
  match k with
  | O => EmptyString
  | S k' => String (ascii_of_N (Z.to_N (n mod 256))) (le_bytes k' (n / 256))
  end.

Definition encode_entry (e : string * string) : string :=
  le_bytes 8 (Z.of_nat (String.length e.1)) +:+ e.1 +:+
  le_bytes 8 (Z.of_nat (String.length e.2)) +:+ e.2.

Definition encode_entries (l : HeaderMap) : string := foldr (fun e acc => encode_entry e +:+ acc) "" l.

Definition representation_entries (h : HeaderMap) : HeaderMap :=
  merge_sort entry_le (filter (fun e => is_credential e.1 = false) h).

(** The message hashed, and [fingerprint_of] for a hash function (BLAKE3 in
    key-derivation mode). *)
Definition fingerprint_message (u : Url) (h : HeaderMap) : string :=
  as_str u +:+ encode_entries (representation_entries h).

Definition fingerprint_of (hash : string -> list Z) (u : Url) (h : HeaderMap) : list Z :=
  hash (fingerprint_message u h).

Definition representation_fingerprint (hash : string -> list Z) (s : SourceRequest) : list Z :=
  fingerprint_of hash (url s) (plain (headers s)).
End sources.

(** ** The order on entries and the encoding *)

#[export] Instance entry_le_trans : Transitive entry_le.
Proof.
  intros [a1 a2] [b1 b2] [c1 c2]. unfold entry_le. simpl.
  intros [[Hab Hl]|[-> Hl]] [[Hbc Hm]|[-> Hm]].
  - left. split; [|by transitivity b1]. intros ->. apply Hab. by apply (anti_symm String.le).
  - left. auto.
  - left. auto.
  - right. split; [done|]. by transitivity b2.
Qed.

#[export] Instance entry_le_antisymm : AntiSymm (=) entry_le.
Proof.
  intros [a1 a2] [b1 b2]. unfold entry_le. simpl.
  intros [[Hab Hl]|[-> Hl]] [[Hbc Hm]|[? Hm]]; try congruence.
  - destruct Hab. by apply (anti_symm String.le).
  - f_equal. by apply (anti_symm String.le).
Qed.

#[export] Instance entry_le_total : Total entry_le.
Proof.
  intros [a1 a2] [b1 b2]. unfold entry_le. simpl. destruct (decide (a1 = b1)) as [->|Hn].
  - destruct (total String.le a2 b2); [left|right]; right; auto.
  - destruct (total String.le a1 b1); [left|right]; left; auto.
Qed.

Lemma append_inj s1 s2 t1 t2 : String.length s1 = String.length s2 ->
  s1 +:+ t1 = s2 +:+ t2 -> s1 = s2 /\ t1 = t2.
Proof.
  revert s2. induction s1 as [|a s1 IH]; intros [|b s2]; simpl; try done. intros [= Hl] [= -> H].
  destruct (IH _ Hl H) as [-> ->]. done.
Qed.

Lemma append_assoc s t u : (s +:+ t) +:+ u = s +:+ (t +:+ u).
Proof. induction s as [|a s IH]; [done|]. exact (f_equal (String a) IH). Qed.

Lemma le_bytes_length k n : String.length (le_bytes k n) = k.
Proof. revert n. induction k as [|k IH]; intros n; simpl; [done|]. by rewrite IH. Qed.

Lemma le_bytes_inj k n m : 0 <= n < 256 ^ Z.of_nat k -> 0 <= m < 256 ^ Z.of_nat k ->
  le_bytes k n = le_bytes k m -> n = m.
Proof.
  revert n m. induction k as [|k IH]; intros n m Hn Hm; [simpl in *; lia|].
  rewrite Nat2Z.inj_succ, Z.pow_succ_r in Hn, Hm by lia. intros [= Hd Ht].
  apply IH in Ht; [|div_lia..].
  apply (f_equal N_of_ascii) in Hd. rewrite !N_ascii_embedding in Hd by div_lia. div_lia.
Qed.

(** Headers fit the length prefix. *)
Definition entry_fits (e : string * string) : Prop :=
  in_u64 (Z.of_nat (String.length e.1)) /\ in_u64 (Z.of_nat (String.length e.2)).

Lemma prefixed_inj s1 s2 t1 t2 :
  in_u64 (Z.of_nat (String.length s1)) -> in_u64 (Z.of_nat (String.length s2)) ->
  le_bytes 8 (Z.of_nat (String.length s1)) +:+ s1 +:+ t1 =
  le_bytes 8 (Z.of_nat (String.length s2)) +:+ s2 +:+ t2 -> s1 = s2 /\ t1 = t2.
Proof.
  intros H1 H2 H. apply append_inj in H as [Hl H]; [|by rewrite !le_bytes_length].
  apply le_bytes_inj in Hl; [|change (256 ^ Z.of_nat 8) with (u64_max + 1); u64_lia..].
  apply append_inj in H; [done|lia].
Qed.

Lemma encode_entries_inj l1 l2 : Forall entry_fits l1 -> Forall entry_fits l2 ->
  encode_entries l1 = encode_entries l2 -> l1 = l2.
Proof.
  revert l2. induction l1 as [|[n1 v1] l1 IH]; intros [|[n2 v2] l2] H1 H2 H; [done|done..|].
  apply Forall_cons in H1 as [[Hn1 Hv1] H1]. apply Forall_cons in H2 as [[Hn2 Hv2] H2].
  simpl in H. unfold encode_entry in H. cbn [fst snd] in H. rewrite !append_assoc in H.
  apply prefixed_inj in H as [-> H]; [|done..]. apply prefixed_inj in H as [-> H]; [|done..].
  f_equal. by apply IH.
Qed.

Lemma representation_entries_perm h :
  representation_entries h ≡ₚ filter (fun e => is_credential e.1 = false) h.
Proof. apply merge_sort_Permutation. Qed.

Lemma representation_entries_eq h1 h2 :
  representation_entries h1 = representation_entries h2 <->
  filter (fun e => is_credential e.1 = false) h1 ≡ₚ filter (fun e => is_credential e.1 = false) h2.
Proof.
  split; intros H.
  - by rewrite <- !representation_entries_perm, H.
  - apply (Sorted_unique entry_le); [apply (Sorted_merge_sort entry_le)..|].
    rewrite <- !representation_entries_perm in H. exact H.
Qed.

(** ** Theorems *)

(** Reading back a printed digest gives the digest; more precisely, a text
    is read as a digest of the requested kind exactly when, trimmed and in lower
    case, it is that digest's 64 hexadecimal characters. *)
Theorem digest_hex_roundtrip (k : HashKind) (s : string) (d : ExpectedDigest) :
  parse_hex k s = Some d <->
  kind d = k /\ List.length (bytes d) = 32%nat /\ Forall is_byte (bytes d) /\
  lowercase (trim s) = hex (bytes d).
Proof.
  unfold parse_hex. case Nat.eqb_spec; simpl; intros Hl.
  - split.
    + destruct (parse_pairs (trim s)) as [v|] eqn:E; [|done]. intros [= <-].
      apply (parse_pairs_spec 32) in E; [|done]. by destruct k.
    + intros (<-&Hb&Hf&Hx). assert (parse_pairs (trim s) = Some (bytes d)) as -> by (by apply (parse_pairs_spec 32)).
      by destruct d.
  - split; [done|]. intros (_&Hb&_&Hx). apply (f_equal String.length) in Hx.
    rewrite lowercase_length, hex_length in Hx. lia.
Qed.

(** The representation fingerprint depends on the URL and on the multiset
    of representation headers only: refreshing credentials or reordering headers
    keeps it, and for one URL the hashed message tells any other change apart. *)
Theorem fingerprint_message_exact {Url} (as_str : Url -> string) (u : Url)
    (h1 h2 : list (string * string)) (H1 : Forall entry_fits h1) (H2 : Forall entry_fits h2) :
  fingerprint_message as_str u h1 = fingerprint_message as_str u h2 <->
  filter (fun e => is_credential e.1 = false) h1 ≡ₚ filter (fun e => is_credential e.1 = false) h2.
Proof.
  rewrite <- representation_entries_eq. unfold fingerprint_message. split; [|congruence].
  intros H%append_cancel. apply encode_entries_inj; [..|done];
    apply Forall_forall; intros e He; rewrite representation_entries_perm in He;
    apply list_elem_of_filter in He as [_ He]; by eapply Forall_forall in He.
Qed.

Lemma fingerprint_message_exact_witness :
  fingerprint_message (fun s => s) "https://a/" [("cookie", "x=1"); ("accept", "*/*")] =
  fingerprint_message (fun s => s) "https://a/" [("accept", "*/*"); ("authorization", "Bearer t")].
Proof.
  apply (fingerprint_message_exact (fun s => s) "https://a/").
  - repeat constructor; vm_compute; discriminate.
  - repeat constructor; vm_compute; discriminate.
  - vm_compute. reflexivity.
Defined.

(** Headers the engine sets itself cannot be supplied by the application. *)
Lemma header_accepts_unmanaged {Url} (s s' : SourceRequest (Url := Url)) name value :
  header s name value = inr s' <->
  (name ∉ managed_headers) /\
  s' = mkSourceRequest (url s) (headers s ++ [(name, value)]) (source_weight s).
Proof.
  unfold header, reject_managed_header. destruct (existsb _ managed_headers) eqn:E.
  - apply existsb_exists in E as (x&Hx&->%String.eqb_eq). split; [done|].
    intros [H _]. destruct H. by apply list_elem_of_In.
  - split; [intros [= <-]|intros [_ ->]; done]. split; [|done]. intros H.
    assert (existsb (String.eqb name) managed_headers = true); [|congruence].
    apply existsb_exists. exists name. rewrite String.eqb_refl. split; [by apply list_elem_of_In|done].
Qed.
