(* ===== verification/SlotMap.v ===== *)
(** * The generational arena interface.

    Jobs, artifacts, sources, origins, endpoints, connections and assignments
    live in the [slotmap] crate's maps. That crate is not part of the
    repository: its map is the class [SlotMapLib] of operations, what its
    documentation promises is the class [SlotMapLaws], and every theorem of a
    client is proved from these two. [Counter] is a concrete instance, for
    evaluating the model. *)

From S2P Require Import Prelude.
Local Open Scope Z_scope.

(** One key type serves every map: the typed keys of [core/ids.rs] are newtypes
    of the same index-and-version pair. *)
Class SlotMapLib := {
  key : Type;
  key_eq_dec :: EqDecision key;
  key_countable :: Countable key;
  (** [Default] is the null key, [Ord] the order of index and version. *)
  key_null : key;
  key_ltb : key -> key -> bool;
  slotmap : Type -> Type;
  sm_new : forall V, slotmap V;
  sm_insert : forall V, V -> slotmap V -> key * slotmap V;
  sm_get : forall V, slotmap V -> key -> option V;
  (** Assignment through [get_mut] to a present key. *)
  sm_set : forall V, slotmap V -> key -> V -> slotmap V;
  sm_remove : forall V, slotmap V -> key -> option V * slotmap V;
  (** [iter()], in the map's own order. *)
  sm_iter : forall V, slotmap V -> list (key * V) }.

Arguments sm_new {_ V}.
Arguments sm_insert {_ V} v m.
Arguments sm_get {_ V} m k.
Arguments sm_set {_ V} m k v.
Arguments sm_remove {_ V} m k.
Arguments sm_iter {_ V} m.

Section view.
Context {L : SlotMapLib}.

(** The finite map a slot map holds. *)
Definition sm_view {V} (m : slotmap V) : gmap key V := list_to_map (sm_iter m).

Definition sm_len {V} (m : slotmap V) : Z := Z.of_nat (length (sm_iter m)).
Definition sm_is_empty {V} (m : slotmap V) : bool := match sm_iter m with [] => true | _ => false end.
Definition sm_values {V} (m : slotmap V) : list V := (sm_iter m).*2.
Definition sm_keys {V} (m : slotmap V) : list key := (sm_iter m).*1.

(** [if let Some(x) = m.get_mut(k) { *x = f(x) }]. *)
Definition sm_modify {V} (m : slotmap V) (k : key) (f : V -> V) : slotmap V :=
  match sm_get m k with Some v => sm_set m k (f v) | None => m end.

(** A loop over [iter_mut()]. *)
Definition sm_update_all {V} (f : key -> V -> V) (m : slotmap V) : slotmap V :=
  foldl (fun acc kv => sm_set acc kv.1 (f kv.1 kv.2)) m (sm_iter m).
End view.

Class SlotMapLaws (L : SlotMapLib) := {
  sm_iter_new V : sm_iter (sm_new (V := V)) = [];
  sm_iter_nodup V (m : slotmap V) : NoDup (sm_iter m).*1;
  sm_get_view V (m : slotmap V) k : sm_get m k = sm_view m !! k;
  key_ltb_irrefl k : key_ltb k k = false;
  key_ltb_trans j k l : key_ltb j k = true -> key_ltb k l = true -> key_ltb j l = true;
  key_ltb_total j k : key_ltb j k = false -> key_ltb k j = false -> j = k;
  sm_insert_not_null V (v : V) m : (sm_insert v m).1 ≠ key_null;
  sm_insert_fresh V (v : V) m : sm_view m !! (sm_insert v m).1 = None;
  sm_insert_view V (v : V) m : sm_view (sm_insert v m).2 = <[(sm_insert v m).1 := v]> (sm_view m);
  sm_set_view V (m : slotmap V) k v : is_Some (sm_view m !! k) -> sm_view (sm_set m k v) = <[k := v]> (sm_view m);
  sm_remove_value V (m : slotmap V) k : (sm_remove m k).1 = sm_view m !! k;
  sm_remove_view V (m : slotmap V) k : sm_view (sm_remove m k).2 = delete k (sm_view m) }.

Section laws.
Context {L : SlotMapLib} {HL : SlotMapLaws L}.

Lemma sm_view_new V : sm_view (sm_new (V := V)) = ∅.
Proof. unfold sm_view. by rewrite sm_iter_new. Qed.

Lemma sm_iter_elem {V} (m : slotmap V) k v : (k, v) ∈ sm_iter m <-> sm_view m !! k = Some v.
Proof. apply elem_of_list_to_map, sm_iter_nodup. Qed.

Lemma sm_iter_perm {V} (m : slotmap V) : sm_iter m ≡ₚ map_to_list (sm_view m).
Proof. symmetry. apply map_to_list_to_map, sm_iter_nodup. Qed.

Lemma sm_len_size {V} (m : slotmap V) : sm_len m = Z.of_nat (size (sm_view m)).
Proof. unfold sm_len. rewrite (sm_iter_perm m). by rewrite length_map_to_list. Qed.

Lemma sm_is_empty_view {V} (m : slotmap V) : sm_is_empty m = true <-> sm_view m = ∅.
Proof.
  unfold sm_is_empty. split.
  - unfold sm_view. by destruct (sm_iter m).
  - intros H. destruct (sm_iter m) as [|[k v] l] eqn:E; [done|].
    assert (Hk : sm_view m !! k = Some v) by (apply sm_iter_elem; rewrite E; left).
    by rewrite H, lookup_empty in Hk.
Qed.

Lemma sm_modify_view {V} (m : slotmap V) k f : sm_view (sm_modify m k f) = alter f k (sm_view m).
Proof.
  unfold sm_modify. rewrite sm_get_view. destruct (sm_view m !! k) as [v|] eqn:E.
  - rewrite sm_set_view by eauto. symmetry. apply map_eq. intros j.
    destruct (decide (j = k)) as [->|]; by rewrite ?lookup_alter_eq, ?lookup_insert_eq, ?lookup_alter_ne, ?lookup_insert_ne, ?E.
  - symmetry. apply map_eq. intros j. destruct (decide (j = k)) as [->|]; by rewrite ?lookup_alter_eq, ?lookup_alter_ne, ?E.
Qed.

Lemma sm_update_all_view {V} (f : key -> V -> V) (m : slotmap V) k :
  sm_view (sm_update_all f m) !! k = f k <$> sm_view m !! k.
Proof.
  assert (H : forall l acc, NoDup l.*1 -> (forall kv, kv ∈ l -> is_Some (sm_view acc !! kv.1)) ->
    sm_view (foldl (fun acc kv => sm_set acc kv.1 (f kv.1 kv.2)) acc l) !! k =
      match (list_to_map l : gmap key V) !! k with Some v => Some (f k v) | None => sm_view acc !! k end).
  { induction l as [|[i v] l IH]; intros acc Hn Hp; [done|]. cbn [foldl fst snd]. apply NoDup_cons in Hn as [Hi Hn].
    assert (Hs : is_Some (sm_view acc !! i)) by (apply (Hp (i, v)); left).
    rewrite IH; [|done|].
    - cbn. rewrite sm_set_view by done. destruct (decide (i = k)) as [->|Hk].
      + rewrite !lookup_insert_eq. by rewrite not_elem_of_list_to_map_1.
      + by rewrite !lookup_insert_ne.
    - intros [j w] Hj. rewrite sm_set_view by done. cbn. destruct (decide (i = j)) as [->|Hij].
      + rewrite lookup_insert_eq. eauto.
      + rewrite lookup_insert_ne by done. apply (Hp (j, w)). by right. }
  unfold sm_update_all. rewrite H; [|apply sm_iter_nodup|].
  - unfold sm_view. by destruct (list_to_map (sm_iter m) !! k).
  - intros [i v] Hi. apply sm_iter_elem in Hi. eauto.
Qed.

(** Lookups after each operation, for rewriting. *)
Lemma get_new V k : sm_get (sm_new (V := V)) k = None.
Proof. by rewrite sm_get_view, sm_view_new, lookup_empty. Qed.
Lemma get_modify {V} (m : slotmap V) k f i :
  sm_get (sm_modify m k f) i = if decide (i = k) then f <$> sm_get m k else sm_get m i.
Proof.
  rewrite !sm_get_view, sm_modify_view. case_decide; [subst; apply lookup_alter_eq|by rewrite lookup_alter_ne].
Qed.
Lemma get_remove {V} (m : slotmap V) k i :
  sm_get (sm_remove m k).2 i = if decide (i = k) then None else sm_get m i.
Proof. rewrite !sm_get_view, sm_remove_view. case_decide; [subst; apply lookup_delete_eq|by rewrite lookup_delete_ne]. Qed.
Lemma get_insert {V} (v : V) m i :
  sm_get (sm_insert v m).2 i = if decide (i = (sm_insert v m).1) then Some v else sm_get m i.
Proof. rewrite !sm_get_view, sm_insert_view. case_decide; [subst; apply lookup_insert_eq|by rewrite lookup_insert_ne]. Qed.
Lemma get_insert_fresh {V} (v : V) m : sm_get m (sm_insert v m).1 = None.
Proof. rewrite sm_get_view. apply sm_insert_fresh. Qed.
Lemma get_set {V} (m : slotmap V) k v i : is_Some (sm_get m k) ->
  sm_get (sm_set m k v) i = if decide (i = k) then Some v else sm_get m i.
Proof.
  rewrite !sm_get_view. intros H. rewrite sm_set_view by done.
  case_decide; [subst; apply lookup_insert_eq|by rewrite lookup_insert_ne].
Qed.
Lemma get_update_all {V} (f : key -> V -> V) m i : sm_get (sm_update_all f m) i = f i <$> sm_get m i.
Proof. by rewrite !sm_get_view, sm_update_all_view. Qed.

(** Lengths. *)
Lemma len_same {V} (m m' : slotmap V) : (forall k, is_Some (sm_get m' k) <-> is_Some (sm_get m k)) -> sm_len m' = sm_len m.
Proof.
  intros H. rewrite !sm_len_size, <- !size_dom. f_equal. f_equal. apply leibniz_equiv.
  apply set_equiv. intros k. rewrite !elem_of_dom, <- !sm_get_view. apply H.
Qed.
Lemma len_modify {V} (m : slotmap V) k f : sm_len (sm_modify m k f) = sm_len m.
Proof. apply len_same. intros i. rewrite get_modify. case_decide; [subst; apply fmap_is_Some|done]. Qed.
Lemma len_update_all {V} (f : key -> V -> V) m : sm_len (sm_update_all f m) = sm_len m.
Proof. apply len_same. intros i. rewrite get_update_all. apply fmap_is_Some. Qed.
Lemma len_remove_le {V} (m : slotmap V) k : sm_len (sm_remove m k).2 <= sm_len m.
Proof.
  rewrite !sm_len_size, sm_remove_view, map_size_delete. destruct (sm_view m !! k); unfold id; lia.
Qed.
Lemma len_insert {V} (v : V) m : sm_len (sm_insert v m).2 = sm_len m + 1.
Proof.
  rewrite !sm_len_size, sm_insert_view, map_size_insert_None by apply sm_insert_fresh. lia.
Qed.

Lemma sm_iter_Some {V} (m : slotmap V) kv : kv ∈ sm_iter m <-> sm_get m kv.1 = Some kv.2.
Proof. destruct kv as [k v]. by rewrite sm_iter_elem, sm_get_view. Qed.
End laws.

(** ** Secondary maps

    [SecondaryMap] attaches values to keys of another map. Inserting under a
    key that the other map has dropped can silently do nothing; inserting can
    also displace the value of such a key. *)

Class SecMapLib (L : SlotMapLib) := {
  secmap : Type -> Type;
  sec_new : forall V, secmap V;
  sec_get : forall V, secmap V -> key -> option V;
  sec_insert : forall V, secmap V -> key -> V -> secmap V;
  (** Assignment through [get_mut] to a present key. *)
  sec_set : forall V, secmap V -> key -> V -> secmap V;
  sec_remove : forall V, secmap V -> key -> secmap V }.

Arguments sec_new {_ _ V}.
Arguments sec_get {_ _ V} m k.
Arguments sec_insert {_ _ V} m k v.
Arguments sec_set {_ _ V} m k v.
Arguments sec_remove {_ _ V} m k.

Class SecMapLaws (L : SlotMapLib) (S : SecMapLib L) := {
  sec_get_new V k : sec_get (sec_new (V := V)) k = None;
  sec_get_insert V (m : secmap V) k v : sec_get (sec_insert m k v) k = Some v \/ sec_insert m k v = m;
  sec_get_insert_present V (m : secmap V) k v : is_Some (sec_get m k) -> sec_get (sec_insert m k v) k = Some v;
  sec_get_insert_ne V (m : secmap V) k k' v : k ≠ k' ->
    sec_get (sec_insert m k v) k' = sec_get m k' \/ sec_get (sec_insert m k v) k' = None;
  sec_get_set V (m : secmap V) k v : is_Some (sec_get m k) -> sec_get (sec_set m k v) k = Some v;
  sec_get_set_ne V (m : secmap V) k k' v : k ≠ k' -> sec_get (sec_set m k v) k' = sec_get m k';
  sec_get_remove V (m : secmap V) k : sec_get (sec_remove m k) k = None;
  sec_get_remove_ne V (m : secmap V) k k' : k ≠ k' -> sec_get (sec_remove m k) k' = sec_get m k' }.

Definition sec_modify {L : SlotMapLib} {S : SecMapLib L} {V} (m : secmap V) (k : key) (f : V -> V) : secmap V :=
  match sec_get m k with Some v => sec_set m k (f v) | None => m end.

(** ** A concrete instance *)

Module Counter.

Record t (V : Type) := mk { next : N; entries : gmap N V }.
Arguments mk {V}.
Arguments next {V}.
Arguments entries {V}.

Definition fresh_key {V} (m : t V) : N :=
  if decide (entries m !! next m = None /\ next m ≠ 0%N) then next m
  else fresh ({[0%N]} ∪ dom (entries m)).

Definition insert {V} (v : V) (m : t V) : N * t V :=
  let k := fresh_key m in (k, mk (N.succ k) (<[k := v]> (entries m))).

Definition lib : SlotMapLib := {|
  key := N;
  key_null := 0%N;
  key_ltb := N.ltb;
  slotmap := t;
  sm_new V := mk 1%N ∅;
  sm_insert V := insert;
  sm_get V m k := entries m !! k;
  sm_set V m k v := mk (next m) (<[k := v]> (entries m));
  sm_remove V m k := (entries m !! k, mk (next m) (delete k (entries m)));
  sm_iter V m := map_to_list (entries m) |}.

#[local] Existing Instance lib.

Lemma view_entries {V} (m : t V) : sm_view m = entries m.
Proof. apply list_to_map_to_list. Qed.

Lemma fresh_key_spec {V} (m : t V) : entries m !! fresh_key m = None /\ fresh_key m ≠ 0%N.
Proof.
  unfold fresh_key. destruct (decide _) as [H|_]; [done|].
  pose proof (is_fresh ({[0%N]} ∪ dom (entries m))) as H. set_unfold in H.
  split; [apply not_elem_of_dom|]; tauto.
Qed.

Definition sec_lib : SecMapLib lib := {|
  secmap V := gmap (key (SlotMapLib := lib)) V;
  sec_new V := ∅;
  sec_get V m k := m !! k;
  sec_insert V m k v := <[k := v]> m;
  sec_set V m k v := <[k := v]> m;
  sec_remove V m k := delete k m |}.

#[global] Instance sec_laws : SecMapLaws lib sec_lib.
Proof.
  split; intros; cbn -[lookup insert delete empty];
    rewrite ?lookup_empty, ?lookup_insert_eq, ?lookup_delete_eq, ?lookup_insert_ne, ?lookup_delete_ne; auto.
Qed.

#[global] Instance laws : SlotMapLaws lib.
Proof.
  split; intros; rewrite ?view_entries; try done.
  - apply NoDup_fst_map_to_list.
  - apply N.ltb_irrefl.
  - revert H H0. unfold key_ltb; simpl. rewrite !N.ltb_lt. apply N.lt_trans.
  - revert H H0. unfold key_ltb; simpl. rewrite !N.ltb_ge. intros. by apply N.le_antisymm.
  - apply fresh_key_spec.
  - apply fresh_key_spec.
Qed.
End Counter.
