(* ===== verification/Timers.v ===== *)
(** * The timer queue ([core/timers.rs]).

    A [BinaryHeap] is kept as the bag of its items: [peek] is a maximal item of
    the source's order (earliest instant, then lowest sequence number), [pop]
    removes it. *)

From S2P Require Import Prelude Ranges SlotMap.
From stdpp Require Import sorting.
Local Open Scope Z_scope.

Section timers.
Context {L : SlotMapLib}.

(** An assignment across jobs ([core/ids.rs]). *)
Record AssignmentRef := mkAssignmentRef { ar_job : key; ar_assignment : key }.

#[export] Instance AssignmentRef_eq_dec : EqDecision AssignmentRef.
Proof. solve_decision. Defined.

Inductive TimerEvent :=
| JobDeadline (job : key)
| RetryReady (assignment : AssignmentRef) (range : ByteRange.t) (attempt : Z)
| ResolveRetry (origin : key) (host : string) (port : Z)
| OriginCooldownExpired (origin : key)
| CheckpointDue (job : key)
| EndpointStagger (origin : key) (rank : Z)
| AdaptiveTick (origin : key)
| DrainConnection (connection : key)
| RebalanceTick (origin : key).
End timers.

Module TimerQueue.
Section queue.
Context {event : Type}.

Record ScheduledItem := mkItem { at_ : Z; seq : Z; ev : event }.

(** [cmp]: the earlier instant, then the lower sequence number, is greater. *)
Definition cmp (a b : ScheduledItem) : comparison :=
  match at_ b ?= at_ a with Eq => seq b ?= seq a | c => c end.

Record t := mk { heap : list ScheduledItem; next_seq : Z }.

Definition new : t := mk [] 0.

(** A maximal item and the others. *)
Fixpoint extract_max (l : list ScheduledItem) : option (ScheduledItem * list ScheduledItem) :=
  match l with
  | [] => None
  | x :: l' =>
      match extract_max l' with
      | None => Some (x, [])
      | Some (m, rest) =>
          match cmp x m with Lt => Some (m, x :: rest) | _ => Some (x, m :: rest) end
      end
  end.

Definition peek (q : t) : option ScheduledItem := option_map fst (extract_max (heap q)).

Definition schedule (q : t) (at0 : Z) (e : event) : t :=
  mk (mkItem at0 (next_seq q) e :: heap q) (next_seq q +% 1).

Definition next_deadline (q : t) : option Z := option_map at_ (peek q).

Definition pop_expired (q : t) (now : Z) : option event * t :=
  match extract_max (heap q) with
  | Some (m, rest) => if at_ m <=? now then (Some (ev m), mk rest (next_seq q)) else (None, q)
  | None => (None, q)
  end.

(** The loop pops at most every item, so the heap's size is enough fuel. *)
Fixpoint drain_loop (fuel : nat) (q : t) (now : Z) : list event * t :=
  match fuel with
  | O => ([], q)
  | S fuel' =>
      match pop_expired q now with
      | (None, q') => ([], q')
      | (Some e, q') => let '(es, q'') := drain_loop fuel' q' now in (e :: es, q'')
      end
  end.

Definition drain_expired (q : t) (now : Z) : list event * t := drain_loop (S (length (heap q))) q now.

Definition is_empty (q : t) : bool := match heap q with [] => true | _ => false end.
Definition len (q : t) : Z := Z.of_nat (length (heap q)).

(** ** The firing order *)

Definition before (a b : ScheduledItem) : Prop :=
  at_ a < at_ b \/ (at_ a = at_ b /\ seq a <= seq b).

#[global] Instance before_dec : RelDecision before.
Proof. intros a b. unfold before. apply _. Defined.

#[global] Instance before_trans : Transitive before.
Proof. intros a b c. unfold before. lia. Qed.

#[global] Instance before_total : Total before.
Proof. intros a b. unfold trichotomy, before. lia. Qed.

Lemma cmp_before a b : cmp a b = Lt -> before b a.
Proof.
  unfold cmp, before.
  destruct (Z.compare_spec (at_ b) (at_ a)), (Z.compare_spec (seq b) (seq a)); intros; try done; lia.
Qed.

Lemma cmp_not_before a b : cmp a b ≠ Lt -> before a b.
Proof.
  unfold cmp, before.
  destruct (Z.compare_spec (at_ b) (at_ a)), (Z.compare_spec (seq b) (seq a)); intros; try done; lia.
Qed.

Lemma extract_max_spec l :
  match extract_max l with
  | None => l = []
  | Some (m, rest) => l ≡ₚ m :: rest /\ Forall (before m) l
  end.
Proof.
  induction l as [|x l IH]; simpl; [done|]. destruct (extract_max l) as [[m rest]|].
  - destruct IH as [Hp Hf]. rewrite Forall_forall in Hf.
    destruct (cmp x m) eqn:E.
    1, 3: assert (Hx : before x m) by (apply cmp_not_before; congruence);
      split; [by rewrite Hp|]; constructor; [right; lia|];
      apply Forall_forall; intros y Hy; transitivity m; [done|by apply Hf].
    apply cmp_before in E. split; [rewrite Hp; apply Permutation_swap|]. constructor; [done|].
    by apply Forall_forall.
  - subst. split; [done|]. constructor; [right; lia|constructor].
Qed.

Definition expired (now : Z) (i : ScheduledItem) : Prop := at_ i <= now.

#[global] Instance expired_dec now i : Decision (expired now i).
Proof. unfold expired. apply _. Defined.

(** What [drain_loop] returns, with the items it popped. *)
Lemma drain_loop_spec fuel q now : (length (heap q) < fuel)%nat ->
  exists popped rest, drain_loop fuel q now = (ev <$> popped, mk rest (next_seq q)) /\
    heap q ≡ₚ popped ++ rest /\ StronglySorted before popped /\
    Forall (expired now) popped /\ Forall (fun i => ~ expired now i) rest /\
    Forall (fun i => Forall (before i) rest) popped.
Proof.
  revert q. induction fuel as [|fuel IH]; intros q Hf; [lia|]. simpl. unfold pop_expired.
  pose proof (extract_max_spec (heap q)) as H. destruct (extract_max (heap q)) as [[m rest]|] eqn:E.
  - destruct H as [Hp Hm]. case Z.leb_spec; intros Hn.
    + destruct (IH (mk rest (next_seq q))) as (p&r&Hd&Hr&Hs&He&Hne&Hb).
      { simpl. apply Permutation_length in Hp. simpl in Hp. lia. }
      rewrite Hd. exists (m :: p), r. simpl in *. rewrite Hp, Forall_cons in Hm. destruct Hm as [_ Hm].
      rewrite Hr in Hm. apply Forall_app in Hm as [Hmp Hmr].
      split_and!; [done|by rewrite Hp, Hr|by constructor|by constructor|done|by constructor].
    + exists [], (heap q). split_and!; [by destruct q|done|constructor|constructor| |constructor].
      apply Forall_forall. intros i Hi. rewrite Forall_forall in Hm. specialize (Hm i Hi).
      unfold before in Hm. unfold expired. lia.
  - exists [], (heap q). split_and!; [by destruct q|done|constructor|constructor| |constructor].
    rewrite H. constructor.
Qed.
End queue.
Arguments ScheduledItem : clear implicits.
Arguments t : clear implicits.
End TimerQueue.

(** ** Refinement of a queue in scheduling order *)

Section refinement.
Context {event : Type}.

(** The abstract queue lists the pending timers in the order they were
    scheduled; what is due fires in time order, ties first come first served. *)
Abbreviation pending := (list (Z * event)).

Definition spec_drain (p : pending) (now : Z) : list event * pending :=
  (snd <$> sort_by_key fst (filter (fun te => te.1 <= now) p), filter (fun te => ~ te.1 <= now) p).

Inductive timer_op := Schedule (at_ : Z) (e : event) | Drain (now : Z).

Definition spec_step (acc : list (list event) * pending) (o : timer_op) : list (list event) * pending :=
  match o with
  | Schedule a e => (acc.1, acc.2 ++ [(a, e)])
  | Drain now => let '(es, p) := spec_drain acc.2 now in (acc.1 ++ [es], p)
  end.

Definition queue_step (acc : list (list event) * TimerQueue.t event) (o : timer_op)
    : list (list event) * TimerQueue.t event :=
  match o with
  | Schedule a e => (acc.1, TimerQueue.schedule acc.2 a e)
  | Drain now => let '(es, q) := TimerQueue.drain_expired acc.2 now in (acc.1 ++ [es], q)
  end.

Definition pair_of (i : TimerQueue.ScheduledItem event) : Z * event := (TimerQueue.at_ i, TimerQueue.ev i).

(** The bag of the heap is the pending list with increasing sequence numbers. *)
Definition refines (q : TimerQueue.t event) (p : pending) : Prop :=
  exists l, TimerQueue.heap q ≡ₚ l /\ pair_of <$> l = p /\
    StronglySorted (fun a b => TimerQueue.seq a < TimerQueue.seq b) l /\
    Forall (fun i => TimerQueue.seq i < TimerQueue.next_seq q) l.

Lemma sort_insert_before x (l : list (TimerQueue.ScheduledItem event)) :
  StronglySorted TimerQueue.before l -> Forall (fun i => TimerQueue.seq x < TimerQueue.seq i) l ->
  StronglySorted TimerQueue.before (sort_insert TimerQueue.at_ x l).
Proof.
  induction 1 as [|y l Hs IH Hy]; intros Hx; simpl; [constructor; constructor|].
  apply Forall_cons in Hx as [Hxy Hx]. case Z.leb_spec; intros Hle.
  - constructor; [by constructor|]. constructor; [unfold TimerQueue.before; lia|].
    eapply Forall_impl; [exact Hy|]. intros z Hz. unfold TimerQueue.before in *. lia.
  - constructor; [by apply IH|]. rewrite sort_insert_perm. constructor; [unfold TimerQueue.before; lia|done].
Qed.

Lemma sort_by_key_before (l : list (TimerQueue.ScheduledItem event)) :
  StronglySorted (fun a b => TimerQueue.seq a < TimerQueue.seq b) l ->
  StronglySorted TimerQueue.before (sort_by_key TimerQueue.at_ l).
Proof.
  induction 1 as [|x l Hs IH Hx]; simpl; [constructor|]. apply sort_insert_before; [done|].
  change (foldr (sort_insert TimerQueue.at_) [] l) with (sort_by_key TimerQueue.at_ l).
  by rewrite sort_by_key_perm.
Qed.

Lemma refines_schedule q p a e : refines q p -> TimerQueue.next_seq q + 1 <= u64_max ->
  0 <= TimerQueue.next_seq q -> refines (TimerQueue.schedule q a e) (p ++ [(a, e)]).
Proof.
  intros (l&Hp&He&Hs&Hf) Hn H0.
  exists (l ++ [TimerQueue.mkItem a (TimerQueue.next_seq q) e]). simpl. rewrite u64_add_small by u64_lia.
  split_and!.
  - rewrite Hp. apply Permutation_cons_append.
  - by rewrite fmap_app, He.
  - clear Hp He. induction Hs as [|x l Hs IH Hx]; simpl; [repeat constructor|].
    apply Forall_cons in Hf as [Hxf Hf]. constructor; [by apply IH|]. apply Forall_app. split; [done|].
    by constructor.
  - apply Forall_app. split; [eapply Forall_impl; [exact Hf|]; simpl; lia|]. constructor; [simpl; lia|constructor].
Qed.

Lemma refines_drain q p now : refines q p ->
  exists q', TimerQueue.drain_expired q now = ((spec_drain p now).1, q') /\
    refines q' (spec_drain p now).2 /\ TimerQueue.next_seq q' = TimerQueue.next_seq q.
Proof.
  intros (l&Hp&He&Hs&Hf). unfold TimerQueue.drain_expired.
  destruct (TimerQueue.drain_loop_spec (S (length (TimerQueue.heap q))) q now ltac:(lia))
    as (po&re&Hd&Hh&Hsp&Hdue&Hnot&_).
  assert (Hpo : po ≡ₚ filter (TimerQueue.expired now) l).
  { rewrite <- Hp, Hh, filter_app. rewrite (filter_all _ po), (filter_none _ re) by done. by rewrite app_nil_r. }
  assert (Hre : re ≡ₚ filter (fun i => ~ TimerQueue.expired now i) l).
  { rewrite <- Hp, Hh, filter_app. rewrite (filter_all _ re) by done. rewrite filter_none; [done|].
    eapply Forall_impl; [exact Hdue|]. simpl. tauto. }
  assert (Heq : po = sort_by_key TimerQueue.at_ (filter (TimerQueue.expired now) l)).
  { apply (StronglySorted_unique_strong TimerQueue.before); [|done| |by rewrite sort_by_key_perm].
    2: { apply sort_by_key_before. by apply strongly_sorted_filter. }
    intros x y Hx Hy Hxy Hyx.
    rewrite Hpo in Hx. rewrite sort_by_key_perm in Hy.
    apply list_elem_of_filter in Hx as [_ Hx]. apply list_elem_of_filter in Hy as [_ Hy].
    assert (Hseq : TimerQueue.seq x = TimerQueue.seq y) by (unfold TimerQueue.before in *; lia).
    clear -Hs Hx Hy Hseq. induction Hs as [|z l Hs IH Hz]; [by apply not_elem_of_nil in Hx|].
    rewrite Forall_forall in Hz.
    apply elem_of_cons in Hx as [->|Hx], Hy as [->|Hy]; [done|..|by apply IH].
    - specialize (Hz y Hy). lia.
    - specialize (Hz x Hx). lia. }
  exists (TimerQueue.mk re (TimerQueue.next_seq q)). rewrite Hd. unfold spec_drain. subst p.
  split_and!; [|..|done].
  - f_equal. rewrite Heq.
    rewrite (filter_fmap (fun te : Z * event => te.1 <= now) pair_of l).
    rewrite (sort_by_key_fmap pair_of fst). rewrite <- list_fmap_compose. reflexivity.
  - exists (filter (fun i => ~ TimerQueue.expired now i) l). simpl. split_and!.
    + done.
    + rewrite (filter_fmap (fun te : Z * event => ~ te.1 <= now) pair_of l). reflexivity.
    + by apply strongly_sorted_filter.
    + apply Forall_forall. intros i [_ Hi]%list_elem_of_filter. by eapply Forall_forall in Hf.
Qed.
End refinement.

(** ** Theorems *)

(** The timer queue implements the queue in scheduling order: for any
    sequence of fewer than [2^64] schedules, mixed with any number of drains,
    every drain returns exactly the timers due by then that no earlier drain
    returned, in order of instant and, for equal instants, of scheduling. *)
Theorem timers_fire_in_order {event : Type} (ops : list (@timer_op event))
    (Hlen : Z.of_nat (length ops) <= u64_max) :
  (foldl queue_step ([], TimerQueue.new) ops).1 = (foldl spec_step ([], []) ops).1.
Proof.
  assert (H : let r := foldl queue_step ([], TimerQueue.new) ops in
    let s := foldl spec_step ([], []) ops in
    r.1 = s.1 /\ refines r.2 s.2 /\ 0 <= TimerQueue.next_seq r.2 <= Z.of_nat (length ops)).
  { induction ops as [|o ops IH] using rev_ind.
    { simpl. split_and!; try done; try lia. exists []. split_and!; try done; constructor. }
    rewrite length_app in Hlen. simpl in Hlen. cbv zeta. rewrite !foldl_app, length_app.
    specialize (IH ltac:(lia)). cbv zeta in IH.
    destruct (foldl queue_step _ ops) as [os q], (foldl spec_step _ ops) as [ss p].
    destruct IH as (Ho&Hr&Hn). simpl in *. subst os. destruct o as [a e|now]; simpl.
    - split_and!; [done|by apply refines_schedule; try lia|..]; rewrite u64_add_small by u64_lia; lia.
    - destruct (refines_drain q p now Hr) as (q'&Hd&Hr'&Hn'). rewrite Hd. simpl.
      split_and!; [done|done|lia..]. }
  apply H.
Qed.

Lemma timers_fire_in_order_witness :
  (foldl queue_step ([], TimerQueue.new)
     [Schedule 50 "a"%string; Schedule 20 "b"%string; Schedule 50 "c"%string; Drain 30; Schedule 10 "d"%string; Drain 60]).1
  = [["b"%string]; ["d"%string; "a"%string; "c"%string]].
Proof.
  rewrite (timers_fire_in_order [Schedule 50 "a"%string; Schedule 20 "b"%string; Schedule 50 "c"%string;
    Drain 30; Schedule 10 "d"%string; Drain 60]) by (vm_compute; discriminate).
  vm_compute. reflexivity.
Defined.
