(* ===== verification/Segment.v ===== *)
(** * Speed-aware dynamic segmentation ([core/segment.rs]).

    A [SegmentPlan] hands out byte ranges of one artifact: it carves unclaimed
    gaps, steals the tail of the assignment that will finish last, defers failed
    ranges, and counts only verified bytes. [None] as the result of an operation
    is a panic of the source ([u64::clamp] with [min > max]). *)

From S2P Require Import Prelude Float Rates Ranges Policy SlotMap.
Local Open Scope Z_scope.

(** ** Alignment *)

Definition align_up (v align : Z) : Z :=
  if align <=? 1 then v else u64_div_ceil v align *% align.

Definition snap_end (r : ByteRange.t) (align total : Z) : ByteRange.t :=
  let s1 := ByteRange.start r +% 1 in
  let e := Z.min (Z.min (align_up (ByteRange.end_ r) align) total) (Z.max (ByteRange.end_ r) s1) in
  ByteRange.new (ByteRange.start r) (Z.min (Z.max e s1) total).

(** [u64::clamp], which panics on an empty interval. *)
Definition checked_clamp (x lo hi : Z) : option Z :=
  if lo <=? hi then Some (u64_clamp x lo hi) else None.

(** [Iterator::max_by_key]: the last of the maximal elements. *)
Fixpoint max_by_key_from {A} (f : A -> Z) (best : A) (l : list A) : A :=
  match l with
  | [] => best
  | x :: l' => max_by_key_from f (if f best <=? f x then x else best) l'
  end.

Definition max_by_key {A} (f : A -> Z) (l : list A) : option A :=
  match l with [] => None | x :: l' => Some (max_by_key_from f x l') end.

Definition max_Z (l : list Z) : option Z := max_by_key (fun x => x) l.

Module Assignment.
Section assignment.
Context {L : SlotMapLib}.

Record t := mk {
  range : ByteRange.t;
  wire_received : Z;
  destination_submitted : Z;
  destination_committed : Z;
  committed_ranges : RangeSet.t;
  started : Z;
  last_progress : Z;
  rate : EwmaWithVariance.t;
  overlap : Z;
  truncated : bool;
  connection : option key;
  attempt : Z }.

Definition cursor (a : t) : Z :=
  match RangeSet.first_gap (committed_ranges a) (ByteRange.start (range a)) (ByteRange.end_ (range a)) with
  | Some gap => ByteRange.start gap
  | None => ByteRange.end_ (range a)
  end.

Definition remaining (a : t) : Z := u64_sat_sub (ByteRange.end_ (range a)) (cursor a).
Definition is_done (a : t) : bool := cursor a >=? ByteRange.end_ (range a).

Definition eta (a : t) : option Z :=
  Rate.time_for (Rate.from_bps (EwmaWithVariance.mean (rate a))) (remaining a).

Definition wire_range (a : t) : ByteRange.t :=
  let s := cursor a in
  ByteRange.new (u64_sat_sub s (Z.min (overlap a) s)) (ByteRange.end_ (range a)).

(** A truncated assignment keeps the head of its range. *)
Definition cut_at (a : t) (cut : Z) : t :=
  mk (ByteRange.new (ByteRange.start (range a)) cut) (wire_received a) (destination_submitted a)
    (destination_committed a) (committed_ranges a) (started a) (last_progress a) (rate a)
    (overlap a) true (connection a) (attempt a).

Definition with_attempt (a : t) (n : Z) : t :=
  mk (range a) (wire_received a) (destination_submitted a) (destination_committed a)
    (committed_ranges a) (started a) (last_progress a) (rate a) (overlap a) (truncated a)
    (connection a) n.

Definition with_connection (a : t) (c : option key) : t :=
  mk (range a) (wire_received a) (destination_submitted a) (destination_committed a)
    (committed_ranges a) (started a) (last_progress a) (rate a) (overlap a) (truncated a)
    c (attempt a).

Definition add_wire (n : Z) (a : t) : t :=
  mk (range a) (u64_sat_add (wire_received a) n) (destination_submitted a) (destination_committed a)
    (committed_ranges a) (started a) (last_progress a) (rate a) (overlap a) (truncated a)
    (connection a) (attempt a).

Definition add_submitted (n : Z) (a : t) : t :=
  mk (range a) (wire_received a) (u64_sat_add (destination_submitted a) n) (destination_committed a)
    (committed_ranges a) (started a) (last_progress a) (rate a) (overlap a) (truncated a)
    (connection a) (attempt a).

(** A new assignment ([push_assignment]). *)
Definition new (r : ByteRange.t) (now overlap0 : Z) : t :=
  mk r 0 0 0 RangeSet.empty now now (EwmaWithVariance.new (from_secs 4)) overlap0 false None 0.
End assignment.
End Assignment.

Module DeferredWork.
Record t := mk { range : ByteRange.t; until : Z; attempt : Z }.
End DeferredWork.

Inductive Claim {L : SlotMapLib} :=
| Fresh (id : key)
| Stolen (new from : key)
| Saturated
| Complete.

Module SegmentPlan.
Section plan.
Context {L : SlotMapLib}.
Context (exp : f64 -> f64).

Record t := mk {
  total : option Z;
  completed : RangeSet.t;
  claimed : RangeSet.t;
  assignments : slotmap Assignment.t;
  cfg : SegmentationPolicy;
  piece_duration : Z;
  overlap_bytes : Z;
  single_stream : bool;
  deferred : list DeferredWork.t }.

Definition new (total0 : option Z) (completed0 : RangeSet.t) (cfg0 : SegmentationPolicy)
    (piece_duration0 overlap0 : Z) : t :=
  mk total0 completed0 completed0 sm_new cfg0 piece_duration0 overlap0 false [].

Definition set_single_stream (p : t) (on : bool) : t :=
  mk (total p) (completed p) (claimed p) (assignments p) (cfg p) (piece_duration p)
    (overlap_bytes p) on (deferred p).

Definition set_total (p : t) (n : Z) : t :=
  mk (Some n) (completed p) (claimed p) (assignments p) (cfg p) (piece_duration p)
    (overlap_bytes p) (single_stream p) (deferred p).

Definition with_assignments (p : t) (m : slotmap Assignment.t) : t :=
  mk (total p) (completed p) (claimed p) m (cfg p) (piece_duration p) (overlap_bytes p)
    (single_stream p) (deferred p).

Definition with_claimed (p : t) (c : RangeSet.t) : t :=
  mk (total p) (completed p) c (assignments p) (cfg p) (piece_duration p) (overlap_bytes p)
    (single_stream p) (deferred p).

Definition with_completed (p : t) (c : RangeSet.t) : t :=
  mk (total p) c (claimed p) (assignments p) (cfg p) (piece_duration p) (overlap_bytes p)
    (single_stream p) (deferred p).

Definition with_deferred (p : t) (d : list DeferredWork.t) : t :=
  mk (total p) (completed p) (claimed p) (assignments p) (cfg p) (piece_duration p) (overlap_bytes p)
    (single_stream p) d.

(** ** Queries *)

Definition bytes_done (p : t) : Z := RangeSet.covered_len (completed p).

Definition bytes_remaining (p : t) : option Z :=
  option_map (fun n => u64_sat_sub n (RangeSet.covered_len (completed p))) (total p).

Definition active_workers (p : t) : Z := sm_len (assignments p).
Definition in_flight (p : t) : Z := sm_len (assignments p).

Definition gap_is_deferred (p : t) (gap : ByteRange.t) (now : Z) : bool :=
  existsb (fun d => (DeferredWork.until d >? now) && ByteRange.intersects (DeferredWork.range d) gap)
    (deferred p).

(** [now] is what [Instant::now()] reads during the call. *)
Definition has_unclaimed (p : t) (now : Z) : bool :=
  match total p with
  | None => false
  | Some n =>
      match RangeSet.first_gap (claimed p) 0 n with
      | Some gap => negb (gap_is_deferred p gap now)
      | None => false
      end || existsb (fun d => DeferredWork.until d <=? now) (deferred p)
  end.

Definition admits_worker (p : t) (now : Z) : bool :=
  match total p with
  | Some n =>
      if single_stream p then sm_is_empty (assignments p) && negb (RangeSet.is_complete (completed p) n)
      else has_unclaimed p now && negb (RangeSet.is_complete (completed p) n)
  | None => sm_is_empty (assignments p)
  end.

Definition pending_attempt_for (p : t) (r : ByteRange.t) : Z :=
  default 0 (max_Z (DeferredWork.attempt <$>
    filter (fun d => ByteRange.intersects (DeferredWork.range d) r = true) (deferred p))).

Definition is_complete (p : t) : bool :=
  match total p with Some n => RangeSet.is_complete (completed p) n | None => false end.

Definition is_finite (r : ByteRange.t) : bool := negb (ByteRange.end_ r =? u64_max).

(** ** Deferred work *)

Definition defer (p : t) (r : ByteRange.t) (until attempt : Z) : t :=
  if ByteRange.is_empty r then p
  else
    let c := if is_finite r then RangeSet.insert (claimed p) r else claimed p in
    with_deferred (with_claimed p c) (deferred p ++ [DeferredWork.mk r until attempt]).

(** The loop of [release_due] over the drained list. *)
Fixpoint release_loop (ds : list DeferredWork.t) (now : Z) (c : RangeSet.t) (max_attempt : Z)
    (keep : list DeferredWork.t) : RangeSet.t * Z * list DeferredWork.t :=
  match ds with
  | [] => (c, max_attempt, keep)
  | d :: ds' =>
      if DeferredWork.until d <=? now then
        let c' := if is_finite (DeferredWork.range d) then RangeSet.remove c (DeferredWork.range d) else c in
        release_loop ds' now c' (Z.max max_attempt (DeferredWork.attempt d)) keep
      else release_loop ds' now c max_attempt (keep ++ [d])
  end.

Definition release_due (p : t) (now : Z) : Z * t :=
  let '(c, m, keep) := release_loop (deferred p) now (claimed p) 0 [] in
  (m, with_deferred (with_claimed p c) keep).

Definition clamp_max_piece (p : t) (max_piece0 : Z) : t :=
  if max_piece0 >? 0 then
    let c := cfg p in
    mk (total p) (completed p) (claimed p) (assignments p)
      (mkSegmentationPolicy (min_piece c) (Z.min (max_piece c) max_piece0) (tail_threshold c)
         (tail_min_piece c) (alignment c) (straggler_z c) (straggler_share c) (straggler_grace c))
      (piece_duration p) (overlap_bytes p) (single_stream p) (deferred p)
  else p.

(** ** Choosing a piece *)

(** The loop of [next_claimable_gap]. Every turn leaves behind at least one
    deferred entry for good, so one turn more than there are entries is enough;
    [None] would be a turn too many. *)
Fixpoint gap_loop (fuel : nat) (p : t) (total0 now pos : Z) : option (option ByteRange.t) :=
  match fuel with
  | O => None
  | S fuel' =>
      if pos <? total0 then
        match RangeSet.first_gap (claimed p) pos total0 with
        | None => Some None
        | Some gap =>
            if negb (gap_is_deferred p gap now) then Some (Some gap)
            else
              let skip := default (ByteRange.end_ gap)
                (max_Z ((fun d => ByteRange.end_ (DeferredWork.range d)) <$>
                  filter (fun d => (DeferredWork.until d >? now) &&
                                   ByteRange.intersects (DeferredWork.range d) gap = true)
                    (deferred p))) in
              gap_loop fuel' p total0 now (Z.max skip (u64_sat_add (ByteRange.start gap) 1))
        end
      else Some None
  end.

Definition next_claimable_gap (p : t) (total0 now : Z) : option ByteRange.t :=
  default None (gap_loop (S (length (deferred p))) p total0 now 0).

Definition piece_len_for (p : t) (est : Rate.t) (remaining_total : Z) : option Z :=
  let by_duration := Rate.bytes_in est (piece_duration p) in
  let tail := remaining_total <=? tail_threshold (cfg p) in
  let min := if tail then tail_min_piece (cfg p) else min_piece (cfg p) in
  let max := if tail && (remaining_total <? max_piece (cfg p))
             then Z.max (max_piece (cfg p) / 8) min else max_piece (cfg p) in
  option_map (fun n => align_up n (alignment (cfg p))) (checked_clamp by_duration min max).

Definition push_assignment (p : t) (r : ByteRange.t) (now overlap0 : Z) : key * t :=
  let c := if is_finite r then RangeSet.insert (claimed p) r else claimed p in
  let '(id, m) := sm_insert (Assignment.new r now overlap0) (assignments p) in
  (id, with_assignments (with_claimed p c) m).

(** ** Stealing *)

Definition steal_rate (est : Rate.t) (a : Assignment.t) : f64 :=
  if EwmaWithVariance.is_warm (Assignment.rate a)
  then f64_max (EwmaWithVariance.mean (Assignment.rate a)) (Rate.bps Rate.FLOOR)
  else Rate.nonzero est.

(** The eta proxy in microseconds. *)
Definition steal_key (est : Rate.t) (a : Assignment.t) : Z :=
  f64_to_u64 (f64_mul (f64_div (f64_of_Z (Assignment.remaining a)) (f64_max (steal_rate est a) f64_one))
                (f64_of_Z 1000000)).

(** What the victim already received or submitted. *)
Definition protected (a : Assignment.t) : Z :=
  u64_sat_add (ByteRange.start (Assignment.range a))
    (Z.max (Assignment.wire_received a) (Assignment.destination_submitted a)).

(** [x = R * v1 / (v1 + v2)], the share of [rem] bytes the incumbent keeps. *)
Definition steal_share (est : Rate.t) (a : Assignment.t) (rem : Z) : Z :=
  let v1 := f64_max (if EwmaWithVariance.is_warm (Assignment.rate a)
                     then EwmaWithVariance.mean (Assignment.rate a) else Rate.nonzero est)
                    (Rate.bps Rate.FLOOR) in
  let v2 := Rate.nonzero est in
  f64_to_u64 (f64_mul (f64_of_Z rem) (f64_div v1 (f64_add v1 v2))).

(** The cut between [protected] and [end], keeping at least [mp] on each side;
    [None] when the clamp panics, [Some None] when there is no cut. *)
Definition cut_between (share cursor pr e mp align : Z) : option (option Z) :=
  let rem := u64_sat_sub e pr in
  match checked_clamp share mp (rem -% mp) with
  | None => None
  | Some keep =>
      let cut := Z.min (align_up (pr +% keep) align) (e -% mp) in
      Some (if (cut >? cursor) && (cut <? e) then Some cut else None)
  end.

(** The smallest piece currently worth splitting off. *)
Definition min_split (p : t) : Z :=
  if match bytes_remaining p with Some r => r <=? tail_threshold (cfg p) | None => false end
  then tail_min_piece (cfg p) else min_piece (cfg p).

(** The cut point for a victim; [Some None] when it is not worth splitting. *)
Definition cut_point (p : t) (est : Rate.t) (a : Assignment.t) : option (option Z) :=
  let pr := protected a in
  let e := ByteRange.end_ (Assignment.range a) in
  let rem := u64_sat_sub e pr in
  let mp := min_split p in
  if rem <? u64_sat_mul mp 2 then Some None
  else cut_between (steal_share est a rem) (Assignment.cursor a) pr e mp (alignment (cfg p)).

Definition plan_steal (p : t) (est : Rate.t) (now : Z) : option (option (key * Z)) :=
  match max_by_key (fun ka => steal_key est ka.2)
          (filter (fun ka => (saturating_duration_since now (Assignment.started ka.2)
                                >=? straggler_grace (cfg p)) = true)
            (filter (fun ka => Assignment.truncated ka.2 = false) (sm_iter (assignments p)))) with
  | None => Some None
  | Some (victim, a) => option_map (option_map (fun cut => (victim, cut))) (cut_point p est a)
  end.

(** ** Claiming work *)

(** How much of a gap one claim takes. *)
Definition take_len (p : t) (total0 piece : Z) (solo : bool) (peer_slots : Z) : Z :=
  let t0 := Z.max piece 1 in
  if solo then t0
  else
    let inflight := Z.min (sm_len (assignments p)) 255 in
    let slots_left := Z.max (u64_sat_sub (Z.max peer_slots 1) inflight) 1 in
    if slots_left >? 1 then
      let unclaimed := u64_sat_sub total0 (RangeSet.covered_len (claimed p)) in
      if unclaimed >? u64_sat_mul (min_piece (cfg p)) 2
      then Z.max (Z.min t0 (unclaimed / slots_left)) (min_piece (cfg p))
      else t0
    else t0.

(** The verified-overlap prefix requested before a fresh piece. *)
Definition overlap_for (p : t) (take : ByteRange.t) : Z :=
  let desired := Z.min (overlap_bytes p) (ByteRange.start take) in
  if (desired >? 0) &&
     RangeSet.contains_range (claimed p)
       (ByteRange.new (ByteRange.start take -% desired) (ByteRange.start take))
  then desired else 0.

Definition claim_gap (p : t) (total0 piece : Z) (gap : ByteRange.t) (now : Z) (solo : bool)
    (peer_slots : Z) : Claim * t :=
  let take0 := ByteRange.truncated_to gap (take_len p total0 piece solo peer_slots) in
  let take := snap_end take0 (alignment (cfg p)) total0 in
  let att := pending_attempt_for p take in
  let '(id, p') := push_assignment p take now (overlap_for p take) in
  (Fresh id, with_assignments p' (sm_modify (assignments p') id (fun a => Assignment.with_attempt a att))).

Definition claim_steal (p : t) (est : Rate.t) (now : Z) : option (Claim * t) :=
  match plan_steal p est now with
  | None => None
  | Some None => Some (Saturated, p)
  | Some (Some (victim, cut)) =>
      match sm_get (assignments p) victim with
      | None => Some (Saturated, p)
      | Some v =>
          let p1 := with_assignments p (sm_set (assignments p) victim (Assignment.cut_at v cut)) in
          let '(id, p2) := push_assignment p1 (ByteRange.new cut (ByteRange.end_ (Assignment.range v))) now 0 in
          Some (Stolen id victim, p2)
      end
  end.

Definition claim_with (p : t) (est : Rate.t) (now : Z) (solo : bool) (peer_slots : Z) : option (Claim * t) :=
  match total p with
  | None =>
      if negb (sm_is_empty (assignments p)) then Some (Saturated, p)
      else
        let '(id, p') := push_assignment p (ByteRange.new (RangeSet.contiguous_prefix (completed p)) u64_max) now 0 in
        Some (Fresh id, p')
  | Some total0 =>
      if RangeSet.is_complete (completed p) total0 then Some (Complete, p)
      else if single_stream p then
        if negb (sm_is_empty (assignments p)) then Some (Saturated, p)
        else
          let s := RangeSet.contiguous_prefix (completed p) in
          if s >=? total0 then Some (Complete, p)
          else let '(id, p') := push_assignment p (ByteRange.new s total0) now 0 in Some (Fresh id, p')
      else
        let remaining_total := total0 -% RangeSet.covered_len (completed p) in
        match piece_len_for p est remaining_total with
        | None => None
        | Some piece =>
            match next_claimable_gap p total0 now with
            | Some gap => Some (claim_gap p total0 piece gap now solo peer_slots)
            | None => if solo then Some (Saturated, p) else claim_steal p est now
            end
        end
  end.

Definition claim (p : t) (est : Rate.t) (now : Z) : option (Claim * t) := claim_with p est now false 2.

(** ** Progress, verification, failure *)

Definition on_wire_received (p : t) (id : key) (n : Z) : t :=
  with_assignments p (sm_modify (assignments p) id (Assignment.add_wire n)).

Definition on_submitted (p : t) (id : key) (n : Z) : t :=
  with_assignments p (sm_modify (assignments p) id (Assignment.add_submitted n)).

(** A range cut to an assignment, empty at its start when disjoint. *)
Definition clip (r : ByteRange.t) (a : Assignment.t) : ByteRange.t :=
  default (ByteRange.new (ByteRange.start (Assignment.range a)) (ByteRange.start (Assignment.range a)))
    (ByteRange.intersection r (Assignment.range a)).

Definition note_commit (a : Assignment.t) (r : ByteRange.t) (now : Z) : Assignment.t :=
  let before := Assignment.cursor a in
  let c := RangeSet.insert (Assignment.committed_ranges a) (clip r a) in
  let a1 := Assignment.mk (Assignment.range a) (Assignment.wire_received a)
    (Assignment.destination_submitted a) (RangeSet.covered_len c) c (Assignment.started a)
    (Assignment.last_progress a) (Assignment.rate a) (Assignment.overlap a) (Assignment.truncated a)
    (Assignment.connection a) (Assignment.attempt a) in
  let advanced := u64_sat_sub (Assignment.cursor a1) before in
  if advanced =? 0 then a1
  else
    let dt := saturating_duration_since now (Assignment.last_progress a) in
    let rate' := if dt >? from_millis 20
                 then EwmaWithVariance.observe exp (Assignment.rate a)
                        (f64_div (f64_of_Z advanced) (as_secs_f64 dt)) dt
                 else Assignment.rate a in
    Assignment.mk (Assignment.range a) (Assignment.wire_received a)
      (Assignment.destination_submitted a) (RangeSet.covered_len c) c (Assignment.started a)
      now rate' (Assignment.overlap a) (Assignment.truncated a)
      (Assignment.connection a) (Assignment.attempt a).

Definition on_destination_committed (p : t) (id : key) (r : ByteRange.t) (now : Z) : t :=
  if ByteRange.is_empty r then p
  else with_assignments p (sm_modify (assignments p) id (fun a => note_commit a r now)).

Definition on_response_verified (p : t) (id : key) (r : ByteRange.t) : t :=
  if ByteRange.is_empty r then p
  else match sm_get (assignments p) id with
       | None => p
       | Some a =>
           let r' := clip r a in
           if ByteRange.is_empty r' then p
           else with_claimed (with_completed p (RangeSet.insert (completed p) r'))
                  (RangeSet.insert (claimed p) r')
       end.

(** Removes from [c] what the gaps of [done] leave of a range. *)
Definition release_gaps (done c : RangeSet.t) (r : ByteRange.t) : RangeSet.t :=
  foldl (fun acc gap =>
           match ByteRange.intersection gap r with
           | Some u => RangeSet.remove acc u
           | None => acc
           end) c (RangeSet.gaps done (ByteRange.end_ r)).

Definition finish_verified (p : t) (id : key) : option Assignment.t * t :=
  match sm_remove (assignments p) id with
  | (None, _) => (None, p)
  | (Some a, m) =>
      let rs := RangeSet.iter (Assignment.committed_ranges a) in
      let done := foldl RangeSet.insert (completed p) rs in
      let c := foldl RangeSet.insert (claimed p) rs in
      let c' := if is_finite (Assignment.range a) then release_gaps done c (Assignment.range a) else c in
      (Some a, with_claimed (with_completed (with_assignments p m) done) c')
  end.

Definition finish (p : t) (id : key) : option Assignment.t * t := finish_verified p id.

Definition abandon (p : t) (id : key) : option Assignment.t * t :=
  match sm_remove (assignments p) id with
  | (None, _) => (None, p)
  | (Some a, m) =>
      let c := if is_finite (Assignment.range a)
               then release_gaps (completed p) (claimed p) (Assignment.range a) else claimed p in
      (Some a, with_claimed (with_assignments p m) c)
  end.

Definition invalidate (p : t) (r : ByteRange.t) : t :=
  with_claimed (with_completed p (RangeSet.remove (completed p) r)) (RangeSet.remove (claimed p) r).

(** ** Fleet statistics *)

Definition warm (p : t) : list Assignment.t :=
  filter (fun a => EwmaWithVariance.is_warm (Assignment.rate a) = true) (sm_values (assignments p)).

Definition rate_stats (p : t) : EwmaWithVariance.t :=
  foldl (fun agg a => EwmaWithVariance.observe exp agg (EwmaWithVariance.mean (Assignment.rate a)) (from_secs 1))
    (EwmaWithVariance.new (from_secs 4)) (warm p).

Definition fleet_stats (p : t) : option (f64 * f64) :=
  let rates := (fun a => EwmaWithVariance.mean (Assignment.rate a)) <$> warm p in
  match rates with
  | [] => None
  | _ =>
      let n := f64_of_Z (Z.of_nat (length rates)) in
      let mean := f64_div (foldl f64_add f64_zero rates) n in
      let var := f64_div (foldl f64_add f64_zero
                   ((fun r => f64_mul (f64_sub r mean) (f64_sub r mean)) <$> rates)) n in
      Some (mean, f64_sqrt (f64_max var f64_zero))
  end.

Definition is_straggler (p : t) (now : Z) (fleet_mean fleet_sd : f64) (a : Assignment.t) : bool :=
  let mean := EwmaWithVariance.mean (Assignment.rate a) in
  if saturating_duration_since now (Assignment.started a) <? straggler_grace (cfg p) then false
  else if negb (EwmaWithVariance.is_warm (Assignment.rate a)) then false
  else if Assignment.remaining a <? tail_min_piece (cfg p) then false
  else
    let z := if f64_ltb fleet_sd (f64_lit 1 9) then
               (if f64_ltb mean (f64_mul fleet_mean f64_half) then f64_of_Z 4 else f64_zero)
             else f64_div (f64_sub fleet_mean mean) fleet_sd in
    f64_leb (straggler_z (cfg p)) z || f64_ltb mean (f64_mul fleet_mean (straggler_share (cfg p))).

Definition stragglers (p : t) (now : Z) : list key :=
  if sm_len (assignments p) <? 2 then []
  else match fleet_stats p with
       | None => []
       | Some (fm, fsd) => (filter (fun ka => is_straggler p now fm fsd ka.2 = true) (sm_iter (assignments p))).*1
       end.

Definition stalled (p : t) (now limit : Z) : list key :=
  (filter (fun ka => (saturating_duration_since now (Assignment.last_progress ka.2) >? limit) = true)
    (sm_iter (assignments p))).*1.

(** ** Rebalancing *)

(** The loop over [completed] that releases the holes of [[pos, end)]. *)
Fixpoint release_tail (cs : list ByteRange.t) (end0 pos : Z) (c : RangeSet.t) : RangeSet.t :=
  match cs with
  | [] => if pos <? end0 then RangeSet.remove c (ByteRange.new pos end0) else c
  | x :: cs' =>
      if ByteRange.end_ x <=? pos then release_tail cs' end0 pos c
      else if ByteRange.start x >=? end0 then
        (if pos <? end0 then RangeSet.remove c (ByteRange.new pos end0) else c)
      else
        let c' := if ByteRange.start x >? pos
                  then RangeSet.remove c (ByteRange.new pos (Z.min (ByteRange.start x) end0)) else c in
        let pos' := Z.max pos (ByteRange.end_ x) in
        if pos' >=? end0 then (if pos' <? end0 then RangeSet.remove c' (ByteRange.new pos' end0) else c')
        else release_tail cs' end0 pos' c'
  end.

(** The new end of a straggler, when shrinking it is worth the churn. *)
Definition rebalance_cut (p : t) (a : Assignment.t) : option Z :=
  if negb (EwmaWithVariance.is_warm (Assignment.rate a)) then None
  else
    let rate := f64_max (EwmaWithVariance.mean (Assignment.rate a)) (Rate.bps Rate.FLOOR) in
    let keep := Z.max (Z.max (f64_to_u64 (f64_mul rate (as_secs_f64 (piece_duration p)))) (min_piece (cfg p)))
                  (tail_min_piece (cfg p)) in
    let cur := Assignment.cursor a in
    let e := ByteRange.end_ (Assignment.range a) in
    let remaining := u64_sat_sub e cur in
    if remaining <=? u64_sat_mul keep 2 then None
    else
      let new_end := Z.min (align_up (cur +% keep) (alignment (cfg p))) e in
      if (new_end >=? e) || (new_end <=? cur) then None else Some new_end.

Definition rebalance_one (p : t) (id : key) : t * list (key * Z) :=
  match sm_get (assignments p) id with
  | None => (p, [])
  | Some a =>
      match rebalance_cut p a with
      | None => (p, [])
      | Some new_end =>
          let p1 := with_assignments p (sm_set (assignments p) id (Assignment.cut_at a new_end)) in
          (with_claimed p1 (release_tail (RangeSet.iter (completed p)) (ByteRange.end_ (Assignment.range a))
                              new_end (claimed p)),
           [(id, new_end)])
      end
  end.

Definition rebalance_stragglers (p : t) (now : Z) : t * list (key * Z) :=
  if sm_len (assignments p) <? 2 then (p, [])
  else foldl (fun acc id => let '(p', cuts) := rebalance_one acc.1 id in (p', acc.2 ++ cuts))
         (p, []) (stragglers p now).

Definition eta (p : t) (spare_capacity : Rate.t) : option Z :=
  match total p with
  | None => None
  | Some n =>
      let left := u64_sat_sub n (RangeSet.covered_len (completed p)) in
      if left =? 0 then Some 0
      else
        match mapM Assignment.eta (sm_values (assignments p)) with
        | None => None
        | Some etas =>
            let worker_eta := default 0 (max_Z etas) in
            let unclaimed := RangeSet.sum_len (RangeSet.gaps (claimed p) n) in
            option_map (Z.max worker_eta) (Rate.time_for spare_capacity unclaimed)
        end
  end.
End plan.
End SegmentPlan.
