(* ===== verification/SegmentSpec.v ===== *)
(** * What the segmentation plan guarantees.

    The accounting invariant of [Segment.SegmentPlan] under the operations the
    controller drives it with, and the theorems about claiming, stealing,
    deferring, verifying and rebalancing. *)

From S2P Require Import Prelude Float Rates Ranges Policy SlotMap Segment.
Local Open Scope Z_scope.

(** ** Alignment *)

Lemma align_up_spec v align : 0 <= v -> 0 <= align -> v + align <= u64_max ->
  v <= align_up v align <= v + Z.max 0 (align - 1) /\ (1 < align -> (align | align_up v align)).
Proof.
  intros Hv Ha Hs. unfold align_up. case Z.leb_spec; intros Hal; [lia|].
  unfold u64_div_ceil.
  assert (Hd : v <= (v + align - 1) / align * align <= v + (align - 1)) by div_lia.
  rewrite u64_mul_small by u64_lia. split; [lia|]. intros _. apply Z.divide_factor_r.
Qed.

Lemma snap_end_id r align total : 0 <= ByteRange.start r -> ByteRange.start r < ByteRange.end_ r ->
  ByteRange.end_ r <= total -> 0 <= align -> total + align <= u64_max -> snap_end r align total = r.
Proof.
  intros H0 H1 H2 H3 H4. unfold snap_end. rewrite u64_add_small by u64_lia.
  pose proof (align_up_spec (ByteRange.end_ r) align ltac:(lia) H3 ltac:(lia)) as [Hb _].
  destruct r as [s e]. simpl in *. f_equal. lia.
Qed.

(** ** Sets *)

Section sets.
Import RangeSet.

Lemma release_gaps_fold gs c r : wf c -> Forall ByteRange.wf gs -> ByteRange.wf r ->
  let c' := foldl (fun acc gap => match ByteRange.intersection gap r with
                                  | Some u => remove acc u | None => acc end) c gs in
  wf c' /\ forall x, mem x c' <-> mem x c /\ ~ (in_list x gs /\ ByteRange.mem x r).
Proof.
  intros Hc Hg Hr. revert c Hc. induction Hg as [|g gs Hg _ IH]; intros c Hc; simpl.
  { split; [done|]. intros x. rewrite in_list_nil. tauto. }
  destruct (ByteRange.intersection g r) as [u|] eqn:E.
  - assert (Hu : ByteRange.wf u).
    { apply ByteRange.intersection_Some in E as (?&?&?). unfold ByteRange.wf in *. lia. }
    destruct (remove_wf_mem c u Hc Hu) as [Hw Hm]. destruct (IH _ Hw) as [Hw' Hm'].
    split; [done|]. intros x. rewrite Hm', Hm, in_list_cons.
    pose proof (ByteRange.intersection_mem g r x) as Hi. rewrite E in Hi.
    assert (Hu' : ByteRange.mem x u <-> ByteRange.mem x g /\ ByteRange.mem x r).
    { rewrite <- Hi. split; [eauto|]. by intros (i&[= <-]&?). }
    tauto.
  - destruct (IH _ Hc) as [Hw' Hm']. split; [done|]. intros x. rewrite Hm', in_list_cons.
    pose proof (ByteRange.intersection_mem g r x) as Hi. rewrite E in Hi.
    assert (Hn : ~ (ByteRange.mem x g /\ ByteRange.mem x r)) by (rewrite <- Hi; by intros (i&?&?)). tauto.
Qed.

Lemma gaps_wf s limit : wf s -> limit <= u64_max -> Forall ByteRange.wf (gaps s limit).
Proof.
  intros (HN&_&_) Hl. destruct (gaps_spec s limit HN) as (HG&HE&_). apply norm_nonneg in HG.
  rewrite Forall_forall in *. intros g Hg. split; [by apply HG|]. specialize (HE g Hg). simpl in HE. lia.
Qed.

Lemma release_gaps_spec done c r : wf done -> wf c -> ByteRange.wf r ->
  wf (SegmentPlan.release_gaps done c r) /\
  forall x, mem x (SegmentPlan.release_gaps done c r) <->
            mem x c /\ (ByteRange.mem x r -> mem x done).
Proof.
  intros Hd Hc Hr. unfold SegmentPlan.release_gaps.
  destruct (release_gaps_fold (gaps done (ByteRange.end_ r)) c r Hc) as [Hw Hm];
    [apply gaps_wf; [done|apply Hr]|done|]. split; [done|]. intros x. rewrite Hm.
  destruct (gaps_spec done (ByteRange.end_ r) (proj1 Hd)) as (_&_&HG). rewrite HG.
  assert (Hb : ByteRange.mem x r -> 0 <= x < ByteRange.end_ r)
    by (unfold ByteRange.mem; destruct Hr; lia).
  destruct (decide (in_list x (ranges done))) as [Hi|Hn]; unfold mem; tauto.
Qed.

Lemma release_tail_spec cs e pos lb c : norm lb cs -> -1 <= lb -> wf c -> 0 <= pos -> e <= u64_max ->
  wf (SegmentPlan.release_tail cs e pos c) /\
  forall x, mem x (SegmentPlan.release_tail cs e pos c) <->
            mem x c /\ (pos <= x < e -> in_list x cs).
Proof.
  assert (Hfin : forall c pos, wf c -> 0 <= pos -> e <= u64_max ->
    wf (if pos <? e then remove c (ByteRange.new pos e) else c) /\
    forall x, mem x (if pos <? e then remove c (ByteRange.new pos e) else c) <-> mem x c /\ ~ (pos <= x < e)).
  { intros c0 p0 Hc0 Hp He. case Z.ltb_spec; intros Hlt.
    - apply remove_wf_mem; [done|]. unfold ByteRange.wf. simpl. lia.
    - split; [done|]. intros x. intuition lia. }
  revert pos lb c. induction cs as [|y cs IH]; intros pos lb c HN Hlb Hc Hp He; simpl.
  { destruct (Hfin c pos Hc Hp He) as [Hw Hm]. split; [done|]. intros x. rewrite Hm, in_list_nil. tauto. }
  simpl in HN. destruct HN as (Hy1&Hy2&HN). case Z.leb_spec; intros Hye.
  { destruct (IH pos _ c HN ltac:(lia) Hc Hp He) as [Hw Hm]. split; [done|]. intros x.
    rewrite Hm, in_list_cons. unfold ByteRange.mem. intuition lia. }
  rewrite Z.geb_leb. case Z.leb_spec; intros Hse.
  { destruct (Hfin c pos Hc Hp He) as [Hw Hm]. split; [done|]. intros x. rewrite Hm.
    assert (Hno : pos <= x < e -> ~ in_list x (y :: cs)).
    { intros Hx. eapply (after_not_mem (ByteRange.start y - 1)); [|lia]. simpl. split_and!; [lia|done|done]. }
    tauto. }
  set (c' := if ByteRange.start y >? pos then _ else c).
  assert (Hc' : wf c' /\ forall x, mem x c' <-> mem x c /\ ~ (pos <= x < ByteRange.start y)).
  { unfold c'. rewrite Z.gtb_ltb. case Z.ltb_spec; intros Hsp.
    - destruct (remove_wf_mem c (ByteRange.new pos (Z.min (ByteRange.start y) e)) Hc) as [Hw Hm];
        [unfold ByteRange.wf; simpl; lia|]. split; [done|]. intros x. rewrite Hm. unfold ByteRange.mem. simpl.
      intuition lia.
    - split; [done|]. intros x. intuition lia. }
  destruct Hc' as [Hw' Hm']. replace (Z.max pos (ByteRange.end_ y)) with (ByteRange.end_ y) by lia.
  assert (Hafter : forall x, x < ByteRange.end_ y -> ~ in_list x cs).
  { intros x Hx. eapply after_not_mem; [exact HN|lia]. }
  rewrite Z.geb_leb. case Z.leb_spec; intros Hee.
  - case Z.ltb_spec; intros; [lia|]. split; [done|]. intros x. rewrite Hm', in_list_cons.
    specialize (Hafter x). unfold ByteRange.mem.
    destruct (Z_lt_le_dec x (ByteRange.end_ y)) as [Hx|Hx]; [specialize (Hafter Hx)|clear Hafter];
      destruct (Z_lt_le_dec x (ByteRange.start y)), (Z_lt_le_dec x pos), (Z_lt_le_dec x e); try lia; interval_tauto.
  - destruct (IH (ByteRange.end_ y) _ c' HN ltac:(lia) Hw' ltac:(lia) He) as [Hw Hm]. split; [done|].
    intros x. rewrite Hm, Hm', in_list_cons. specialize (Hafter x). unfold ByteRange.mem.
    destruct (Z_lt_le_dec x (ByteRange.end_ y)) as [Hx|Hx]; [specialize (Hafter Hx)|clear Hafter];
      destruct (Z_lt_le_dec x (ByteRange.start y)), (Z_lt_le_dec x pos), (Z_lt_le_dec x e); try lia; interval_tauto.
Qed.
End sets.

(** ** The accounting invariant *)

Section invariant.
Context {L : SlotMapLib} {HL : SlotMapLaws L}.
Context (exp : f64 -> f64).
Import SegmentPlan.

Definition view (p : t) : gmap key Assignment.t := sm_view (assignments p).

(** Who answers for an offset. *)
Definition done (p : t) (x : Z) : Prop := RangeSet.mem x (completed p).
Definition held_by (p : t) (id : key) (x : Z) : Prop :=
  exists a, view p !! id = Some a /\ ByteRange.mem x (Assignment.range a).
Definition postponed (p : t) (x : Z) : Prop :=
  Exists (fun d => ByteRange.mem x (DeferredWork.range d)) (deferred p).
Definition unclaimed (p : t) (x : Z) : Prop := ~ RangeSet.mem x (claimed p).

(** The policy numbers under which the source's arithmetic cannot overflow or
    panic: no minimum above the maximum, and headroom for one aligned piece. *)
Record cfg_ok (total0 : Z) (c : SegmentationPolicy) : Prop := {
  ok_total : 0 <= total0;
  ok_min : 1 <= min_piece c <= max_piece c;
  ok_tail : 1 <= tail_min_piece c <= max_piece c;
  ok_align : 0 <= alignment c;
  ok_room : total0 + max_piece c + alignment c < u64_max }.

(** One assignment: a range of the artifact, commits within it and within what
    was received. *)
Record asg_ok (total0 : Z) (a : Assignment.t) : Prop := {
  ak_range : 0 <= ByteRange.start (Assignment.range a) <= ByteRange.end_ (Assignment.range a) /\
             ByteRange.end_ (Assignment.range a) <= total0;
  ak_wire : in_u64 (Assignment.wire_received a) /\ in_u64 (Assignment.destination_submitted a);
  ak_committed : RangeSet.wf (Assignment.committed_ranges a);
  ak_inside : forall x, RangeSet.mem x (Assignment.committed_ranges a) ->
                ByteRange.mem x (Assignment.range a) /\ x < protected a }.

Record def_ok (total0 : Z) (d : DeferredWork.t) : Prop := {
  dk_nonempty : 0 <= ByteRange.start (DeferredWork.range d) < ByteRange.end_ (DeferredWork.range d);
  dk_bound : ByteRange.end_ (DeferredWork.range d) <= total0 }.

Definition disjoint_def (d e : DeferredWork.t) : Prop :=
  forall x, ByteRange.mem x (DeferredWork.range d) -> ~ ByteRange.mem x (DeferredWork.range e).

Record inv (total0 : Z) (p : t) : Prop := {
  inv_total : total p = Some total0;
  inv_multi : single_stream p = false;
  inv_cfg : cfg_ok total0 (cfg p);
  inv_completed : RangeSet.wf (completed p);
  inv_claimed : RangeSet.wf (claimed p);
  inv_bound : forall x, RangeSet.mem x (claimed p) -> 0 <= x < total0;
  inv_asg : forall id a, view p !! id = Some a -> asg_ok total0 a;
  inv_def : Forall (def_ok total0) (deferred p);
  (** Claimed is exactly: verified, in flight, or waiting out a backoff. *)
  inv_acct : forall x, RangeSet.mem x (claimed p) <->
                       done p x \/ (exists id, held_by p id x) \/ postponed p x;
  (** And never two of these at once. *)
  inv_one_worker : forall i j x, held_by p i x -> held_by p j x -> i = j;
  inv_worker_not_done : forall i x, held_by p i x -> ~ done p x;
  inv_worker_not_postponed : forall i x, held_by p i x -> ~ postponed p x;
  inv_postponed_not_done : forall x, postponed p x -> ~ done p x;
  inv_def_disjoint : StronglySorted disjoint_def (deferred p) }.

Lemma range_wf total0 r : 0 <= ByteRange.start r <= ByteRange.end_ r /\ ByteRange.end_ r <= total0 ->
  total0 < u64_max -> ByteRange.wf r /\ is_finite r = true.
Proof.
  intros [H1 H2] H. unfold ByteRange.wf, is_finite. split; [u64_lia|].
  rewrite negb_true_iff, Z.eqb_neq. lia.
Qed.

Lemma cfg_total total0 c : cfg_ok total0 c -> total0 < u64_max.
Proof. intros [????]. lia. Qed.

(** A plan over a resumed set. *)
Lemma new_inv total0 done0 c dur ov : cfg_ok total0 c -> RangeSet.wf done0 ->
  (forall x, RangeSet.mem x done0 -> 0 <= x < total0) ->
  inv total0 (new (Some total0) done0 c dur ov).
Proof.
  intros Hc Hw Hb.
  assert (Hv : view (new (Some total0) done0 c dur ov) = ∅) by apply sm_view_new.
  assert (Hh : forall id x, ~ held_by (new (Some total0) done0 c dur ov) id x).
  { intros id x (a&Ha&_). by rewrite Hv, lookup_empty in Ha. }
  assert (Hp : forall x, ~ postponed (new (Some total0) done0 c dur ov) x) by (intros x H; by apply Exists_nil in H).
  split; try done; try (intros; exfalso; by (eapply Hh + eapply Hp)).
  - intros id a Ha. by rewrite Hv, lookup_empty in Ha.
  - intros x. split; [by left|]. intros [?|[[id H]|H]]; [done|by apply Hh in H|by apply Hp in H].
  - constructor.
Qed.

(** *** Assignments that change without moving *)

Definition same_but_assignments (p p' : t) : Prop :=
  total p' = total p /\ single_stream p' = single_stream p /\ cfg p' = cfg p /\
  completed p' = completed p /\ claimed p' = claimed p /\ deferred p' = deferred p.

Lemma held_by_alter p p' f i : view p' = alter f i (view p) ->
  (forall a, Assignment.range (f a) = Assignment.range a) ->
  forall j x, held_by p' j x <-> held_by p j x.
Proof.
  intros Hv Hr j x. unfold held_by. rewrite Hv. destruct (decide (j = i)) as [->|Hn].
  - rewrite lookup_alter_eq. destruct (view p !! i) as [a|]; simpl.
    + split; intros (b&[= <-]&H); eexists; (split; [done|]); by rewrite Hr in *.
    + by split; intros (b&?&?).
  - by rewrite lookup_alter_ne.
Qed.

Lemma inv_alter total0 p p' f i : inv total0 p -> same_but_assignments p p' ->
  view p' = alter f i (view p) -> (forall a, Assignment.range (f a) = Assignment.range a) ->
  (forall a, view p !! i = Some a -> asg_ok total0 a -> asg_ok total0 (f a)) -> inv total0 p'.
Proof.
  intros Hi (E1&E2&E3&E4&E5&E6) Hv Hr Hok. pose proof (held_by_alter p p' f i Hv Hr) as Hh.
  assert (Hd : forall x, done p' x <-> done p x) by (intros x; unfold done; by rewrite E4).
  assert (Hp : forall x, postponed p' x <-> postponed p x) by (intros x; unfold postponed; by rewrite E6).
  destruct Hi. split; rewrite ?E1, ?E2, ?E3, ?E4, ?E5, ?E6; try done.
  - intros id a Ha. rewrite Hv in Ha. destruct (decide (id = i)) as [->|Hn].
    + rewrite lookup_alter_eq in Ha. destruct (view p !! i) as [b|] eqn:E; [|done].
      injection Ha as <-. eauto.
    + rewrite lookup_alter_ne in Ha by done. eauto.
  - intros x. rewrite inv_acct0, Hd, Hp. setoid_rewrite Hh. done.
  - intros i' j x. rewrite !Hh. eauto.
  - intros i' x. rewrite Hh, Hd. eauto.
  - intros i' x. rewrite Hh, Hp. eauto.
  - intros x. rewrite Hp, Hd. eauto.
Qed.

Lemma protected_mono total0 a b : asg_ok total0 a -> total0 < u64_max ->
  Assignment.range b = Assignment.range a ->
  Assignment.wire_received a <= Assignment.wire_received b ->
  Assignment.destination_submitted a <= Assignment.destination_submitted b ->
  protected a <= protected b.
Proof. intros [[? _] ? _ _] ? E ? ?. unfold protected. rewrite E. u64_lia. Qed.

Lemma asg_ok_mono total0 a b : asg_ok total0 a -> total0 < u64_max ->
  Assignment.range b = Assignment.range a ->
  Assignment.committed_ranges b = Assignment.committed_ranges a ->
  Assignment.wire_received a <= Assignment.wire_received b <= u64_max ->
  Assignment.destination_submitted a <= Assignment.destination_submitted b <= u64_max ->
  asg_ok total0 b.
Proof.
  intros Ha HT Er Ec [Hw Hw'] [Hs Hs']. pose proof (protected_mono total0 a b Ha HT Er Hw Hs) as Hp.
  destruct Ha as [? [[? ?] [? ?]] ? Hin]. split; rewrite ?Er, ?Ec; try done.
  - unfold in_u64. lia.
  - intros x Hx. destruct (Hin x Hx). split; [done|lia].
Qed.

Lemma sat_add_ge x n : 0 <= n -> in_u64 x -> x <= u64_sat_add x n <= u64_max.
Proof. u64_lia. Qed.

Lemma on_wire_received_inv total0 p id n : inv total0 p -> 0 <= n -> inv total0 (on_wire_received p id n).
Proof.
  intros Hi Hn. pose proof (cfg_total _ _ (inv_cfg _ _ Hi)) as HT.
  apply (inv_alter total0 p _ (Assignment.add_wire n) id Hi); [by split_and!|apply sm_modify_view|done|].
  intros a Hv Ha. destruct (ak_wire _ _ Ha) as [Hw [_ Hs]].
  apply (asg_ok_mono total0 a _ Ha HT); simpl; [done|done|by apply sat_add_ge|lia].
Qed.

Lemma on_submitted_inv total0 p id n : inv total0 p -> 0 <= n -> inv total0 (on_submitted p id n).
Proof.
  intros Hi Hn. pose proof (cfg_total _ _ (inv_cfg _ _ Hi)) as HT.
  apply (inv_alter total0 p _ (Assignment.add_submitted n) id Hi); [by split_and!|apply sm_modify_view|done|].
  intros a Hv Ha. destruct (ak_wire _ _ Ha) as [[_ Hw] Hs].
  apply (asg_ok_mono total0 a _ Ha HT); simpl; [done|done|lia|by apply sat_add_ge].
Qed.

Lemma clip_spec total0 a r : asg_ok total0 a -> total0 < u64_max -> ByteRange.wf r ->
  ByteRange.wf (clip r a) /\
  forall x, ByteRange.mem x (clip r a) <-> ByteRange.mem x r /\ ByteRange.mem x (Assignment.range a).
Proof.
  intros [[Hr Ht] _ _ _] HT Hw. unfold clip.
  pose proof (ByteRange.intersection_mem r (Assignment.range a)) as Hi.
  destruct (ByteRange.intersection r (Assignment.range a)) as [u|] eqn:E; simpl.
  - split.
    + apply ByteRange.intersection_Some in E as (?&?&?). unfold ByteRange.wf in *. u64_lia.
    + intros x. rewrite <- Hi. split; [eauto|]. by intros (i&[= <-]&?).
  - split; [unfold ByteRange.wf; simpl; u64_lia|]. intros x. rewrite <- Hi. unfold ByteRange.mem. simpl.
    split; [lia|]. by intros (i&?&?).
Qed.

Lemma note_commit_range a r now : Assignment.range (note_commit exp a r now) = Assignment.range a /\
  Assignment.wire_received (note_commit exp a r now) = Assignment.wire_received a /\
  Assignment.destination_submitted (note_commit exp a r now) = Assignment.destination_submitted a /\
  Assignment.committed_ranges (note_commit exp a r now) =
    RangeSet.insert (Assignment.committed_ranges a) (clip r a).
Proof. unfold note_commit. by case Z.eqb_spec. Qed.

(** Writes are acknowledged for bytes that were received. *)
Definition commit_received (p : t) (id : key) (r : ByteRange.t) : Prop :=
  forall a, view p !! id = Some a -> ByteRange.end_ r <= protected a.

Lemma on_destination_committed_inv total0 p id r now : inv total0 p -> ByteRange.wf r ->
  commit_received p id r -> inv total0 (on_destination_committed exp p id r now).
Proof.
  intros Hi Hw Hc. unfold on_destination_committed. destruct (ByteRange.is_empty r); [done|].
  pose proof (cfg_total _ _ (inv_cfg _ _ Hi)).
  eapply inv_alter; [exact Hi|by split_and!|apply sm_modify_view| |].
  { intros a. apply note_commit_range. }
  intros a Hv Ha. specialize (Hc a Hv). pose proof Ha as [Hr Hwr Hcm Hin].
  destruct (note_commit_range a r now) as (E1&E2&E3&E4).
  destruct (clip_spec total0 a r Ha ltac:(done) Hw) as [Hcw Hcmem].
  destruct (RangeSet.insert_wf_mem _ _ Hcm Hcw) as [Hiw Him].
  split; rewrite ?E1, ?E2, ?E3, ?E4; try done.
  intros x. rewrite Him. unfold protected. rewrite E1, E2, E3. fold (protected a).
  intros [Hx|Hx]; [by apply Hin|]. apply Hcmem in Hx as [Hxr Hxa]. split; [done|].
  unfold ByteRange.mem in Hxr. lia.
Qed.
(** *** New assignments *)

Lemma push_view p r now ov id p' : push_assignment p r now ov = (id, p') ->
  view p !! id = None /\ view p' = <[id := Assignment.new r now ov]> (view p) /\
  total p' = total p /\ single_stream p' = single_stream p /\ cfg p' = cfg p /\
  completed p' = completed p /\ deferred p' = deferred p /\
  claimed p' = if is_finite r then RangeSet.insert (claimed p) r else claimed p.
Proof.
  unfold push_assignment. pose proof (sm_insert_fresh _ (Assignment.new r now ov) (assignments p)) as H1.
  pose proof (sm_insert_view _ (Assignment.new r now ov) (assignments p)) as H2.
  destruct (sm_insert _ _) as [i m]. simpl in *. intros [= <- <-]. by split_and!.
Qed.

Lemma held_by_insert p p' id a : view p' = <[id := a]> (view p) ->
  forall j x, held_by p' j x <-> (j = id /\ ByteRange.mem x (Assignment.range a)) \/ (j ≠ id /\ held_by p j x).
Proof.
  intros Hv j x. unfold held_by. rewrite Hv. destruct (decide (j = id)) as [->|Hn].
  - rewrite lookup_insert_eq. split; [intros (b&[= <-]&?); auto|]. intros [[_ ?]|[? _]]; [eauto|done].
  - rewrite lookup_insert_ne by done. split; [auto|]. by intros [[? _]|[_ ?]].
Qed.

Lemma new_asg_ok total0 r now ov :
  0 <= ByteRange.start r <= ByteRange.end_ r /\ ByteRange.end_ r <= total0 ->
  asg_ok total0 (Assignment.new r now ov).
Proof.
  intros Hr. split; simpl; [done|u64_lia|apply RangeSet.empty_wf|].
  intros x Hx. by apply RangeSet.mem_empty in Hx.
Qed.

(** [r] is handed to a new assignment: it was unclaimed, or [p0] had it with
    workers that gave it up in [p]. *)
Lemma push_core total0 p0 p r now ov id p' : inv total0 p0 ->
  same_but_assignments p0 p ->
  0 <= ByteRange.start r <= ByteRange.end_ r /\ ByteRange.end_ r <= total0 ->
  (forall i a, view p !! i = Some a -> asg_ok total0 a) ->
  (forall i x, held_by p i x -> held_by p0 i x /\ ~ ByteRange.mem x r) ->
  (forall i x, held_by p0 i x -> held_by p i x \/ ByteRange.mem x r) ->
  (forall x, ByteRange.mem x r -> unclaimed p0 x \/ exists i, held_by p0 i x) ->
  push_assignment p r now ov = (id, p') -> inv total0 p'.
Proof.
  intros Hi (E1&E2&E3&E4&E5&E6) Hr Hok Hsub Hsup Hfree Hpush.
  pose proof (cfg_total _ _ (inv_cfg _ _ Hi)) as HT. destruct (range_wf _ _ Hr HT) as [Hrw Hfin].
  apply push_view in Hpush as (Hid&Hv&F1&F2&F3&F4&F5&F6). rewrite Hfin, E5 in F6.
  pose proof (held_by_insert p p' id _ Hv) as Hh. simpl in Hh.
  destruct (RangeSet.insert_wf_mem _ _ (inv_claimed _ _ Hi) Hrw) as [Hcw Hcm].
  assert (Hd : forall x, done p' x <-> done p0 x) by (intros x; unfold done; by rewrite F4, E4).
  assert (Hp : forall x, postponed p' x <-> postponed p0 x) by (intros x; unfold postponed; by rewrite F5, E6).
  assert (Hrd : forall x, ByteRange.mem x r -> ~ done p0 x /\ ~ postponed p0 x).
  { intros x Hx. destruct (Hfree x Hx) as [Hu|[i Hi']].
    - unfold unclaimed in Hu. rewrite (inv_acct _ _ Hi) in Hu. tauto.
    - split; [by eapply inv_worker_not_done|by eapply inv_worker_not_postponed]. }
  destruct Hi. split; rewrite ?F1, ?F2, ?F3, ?F4, ?F5, ?F6, ?E1, ?E2, ?E3, ?E4, ?E6; try done.
  - intros x. rewrite Hcm. unfold ByteRange.mem. intros [?|?]; [by apply inv_bound0|lia].
  - intros j a Ha. rewrite Hv in Ha. destruct (decide (j = id)) as [->|Hn].
    + rewrite lookup_insert_eq in Ha. injection Ha as <-. by apply new_asg_ok.
    + rewrite lookup_insert_ne in Ha by done. eauto.
  - intros x. rewrite Hcm, inv_acct0, Hd, Hp. setoid_rewrite Hh. split.
    + intros [[?|[[i Hx]|?]]|Hx]; [by left| |by right; right|right; left; eauto].
      destruct (Hsup _ _ Hx) as [Hx'|Hx']; [|right; left; eauto].
      right; left. exists i. right. split; [|done]. intros ->. destruct Hx' as (b&Hb&_). congruence.
    + intros [?|[[i [[-> ?]|[_ Hx]]]|?]]; [tauto|tauto| |tauto]. apply Hsub in Hx as [Hx _]. eauto.
  - intros i j x. rewrite !Hh. intros [[-> Hx]|[Hn Hx]] [[-> Hy]|[Hm Hy]]; [done|..].
    + by apply Hsub in Hy as [_ ?].
    + by apply Hsub in Hx as [_ ?].
    + apply Hsub in Hx as [Hx _]. apply Hsub in Hy as [Hy _]. eauto.
  - intros i x. rewrite Hh, Hd. intros [[-> Hx]|[_ Hx]]; [by apply Hrd|]. apply Hsub in Hx as [Hx _]. eauto.
  - intros i x. rewrite Hh, Hp. intros [[-> Hx]|[_ Hx]]; [by apply Hrd|]. apply Hsub in Hx as [Hx _]. eauto.
  - intros x. rewrite Hp, Hd. eauto.
Qed.

Lemma push_fresh_inv total0 p r now ov id p' : inv total0 p ->
  0 <= ByteRange.start r <= ByteRange.end_ r /\ ByteRange.end_ r <= total0 ->
  (forall x, ByteRange.mem x r -> unclaimed p x) ->
  push_assignment p r now ov = (id, p') -> inv total0 p'.
Proof.
  intros Hi Hr Hu. apply (push_core total0 p p r now ov id p' Hi); [by split_and!|done|apply Hi|..].
  - intros i x Hx. split; [done|]. intros Hm. apply (Hu x Hm). apply (inv_acct _ _ Hi). eauto.
  - auto.
  - auto.
Qed.
(** *** Choosing a gap *)

Lemma gap_is_deferred_spec p gap now :
  gap_is_deferred p gap now = true <->
  Exists (fun d => now < DeferredWork.until d /\ ByteRange.start (DeferredWork.range d) < ByteRange.end_ gap /\
                   ByteRange.start gap < ByteRange.end_ (DeferredWork.range d)) (deferred p).
Proof.
  unfold gap_is_deferred. rewrite existsb_exists, Exists_exists. setoid_rewrite list_elem_of_In.
  setoid_rewrite andb_true_iff. unfold ByteRange.intersects. setoid_rewrite andb_true_iff.
  setoid_rewrite Z.gtb_ltb. setoid_rewrite Z.ltb_lt. done.
Qed.

Lemma intersects_common r g : ByteRange.start r < ByteRange.end_ r -> ByteRange.start g < ByteRange.end_ g ->
  ByteRange.start r < ByteRange.end_ g -> ByteRange.start g < ByteRange.end_ r ->
  ByteRange.mem (Z.max (ByteRange.start r) (ByteRange.start g)) r /\
  ByteRange.mem (Z.max (ByteRange.start r) (ByteRange.start g)) g.
Proof. unfold ByteRange.mem. lia. Qed.

(** Backoffs are claimed, so the first unclaimed gap is never one of them. *)
Lemma gap_not_deferred total0 p gap now : inv total0 p ->
  ByteRange.start gap < ByteRange.end_ gap -> (forall x, ByteRange.mem x gap -> unclaimed p x) ->
  gap_is_deferred p gap now = false.
Proof.
  intros Hi Hg Hu. apply not_true_iff_false. rewrite gap_is_deferred_spec.
  intros (d&Hd&_&H1&H2)%Exists_exists. pose proof (inv_def _ _ Hi) as Hok. rewrite Forall_forall in Hok.
  destruct (Hok d Hd) as [Hne _].
  destruct (intersects_common (DeferredWork.range d) gap) as [Hm1 Hm2]; [lia|done|done|done|].
  apply (Hu _ Hm2). apply (inv_acct _ _ Hi). right; right. apply Exists_exists. eauto.
Qed.

Lemma next_claimable_gap_first total0 p now : inv total0 p ->
  next_claimable_gap p total0 now = RangeSet.first_gap (claimed p) 0 total0.
Proof.
  intros Hi. unfold next_claimable_gap. simpl. case Z.ltb_spec; intros HT.
  - destruct (RangeSet.first_gap (claimed p) 0 total0) as [gap|] eqn:E; [|done].
    apply RangeSet.first_gap_Some in E as (H1&_&_&Hm&_); [|apply Hi].
    by rewrite (gap_not_deferred total0) by (done || lia).
  - simpl. unfold RangeSet.first_gap. rewrite Z.geb_leb. case Z.leb_spec; [done|lia].
Qed.

Lemma piece_len_for_spec total0 p est rem : inv total0 p ->
  exists n, piece_len_for p est rem = Some n /\ 0 <= n <= max_piece (cfg p) + alignment (cfg p).
Proof.
  intros Hi. destruct (inv_cfg _ _ Hi) as [HT Hmin Htail Hal Hroom]. unfold piece_len_for.
  set (tail := rem <=? tail_threshold (cfg p)).
  set (mn := if tail then tail_min_piece (cfg p) else min_piece (cfg p)).
  set (mx := if tail && (rem <? max_piece (cfg p)) then Z.max (max_piece (cfg p) / 8) mn else max_piece (cfg p)).
  assert (Hmn : 1 <= mn <= max_piece (cfg p)) by (unfold mn; destruct tail; lia).
  assert (Hmx : mn <= mx <= max_piece (cfg p)).
  { unfold mx. destruct (tail && _); [|lia]. assert (max_piece (cfg p) / 8 <= max_piece (cfg p)) by div_lia. lia. }
  unfold checked_clamp. case Z.leb_spec; [|lia]. intros _. simpl. eexists. split; [done|].
  set (v := u64_clamp _ mn mx). assert (Hv : mn <= v <= mx) by (unfold v, u64_clamp; lia).
  destruct (align_up_spec v (alignment (cfg p)) ltac:(lia) Hal ltac:(lia)) as [? _]. lia.
Qed.

Lemma take_len_spec p total0 piece solo slots : 1 <= min_piece (cfg p) ->
  1 <= take_len p total0 piece solo slots <= Z.max (Z.max piece 1) (min_piece (cfg p)).
Proof.
  intros Hp. unfold take_len. destruct solo; [lia|].
  destruct (Z.max (u64_sat_sub _ _) 1 >? 1); [|lia]. destruct (u64_sat_sub total0 _ >? _); lia.
Qed.

(** *** Fresh claims *)

Lemma first_gap_claim total0 p gap : inv total0 p ->
  RangeSet.first_gap (claimed p) 0 total0 = Some gap ->
  0 <= ByteRange.start gap < ByteRange.end_ gap /\ ByteRange.end_ gap <= total0 /\
  (forall x, ByteRange.mem x gap -> unclaimed p x) /\
  (forall x, 0 <= x < ByteRange.start gap -> ~ unclaimed p x).
Proof.
  intros Hi E. apply RangeSet.first_gap_Some in E as (?&?&Hb&Hm&_); [|apply Hi].
  split_and!; try done; try lia. intros x Hx Hu. by apply Hu, Hb.
Qed.

(** The range a fresh claim takes from a gap. *)
Definition taken (p : t) (total0 piece : Z) (gap : ByteRange.t) (solo : bool) (slots : Z) : ByteRange.t :=
  ByteRange.new (ByteRange.start gap)
    (Z.min (ByteRange.end_ gap) (ByteRange.start gap + take_len p total0 piece solo slots)).

Lemma taken_eq total0 p piece gap solo slots : inv total0 p ->
  0 <= ByteRange.start gap < ByteRange.end_ gap -> ByteRange.end_ gap <= total0 ->
  0 <= piece <= max_piece (cfg p) + alignment (cfg p) ->
  snap_end (ByteRange.truncated_to gap (take_len p total0 piece solo slots)) (alignment (cfg p)) total0 =
    taken p total0 piece gap solo slots /\
  ByteRange.start (taken p total0 piece gap solo slots) < ByteRange.end_ (taken p total0 piece gap solo slots).
Proof.
  intros Hi Hg Hge Hn. destruct (inv_cfg _ _ Hi) as [HT Hmin Htail Hal Hroom].
  pose proof (take_len_spec p total0 piece solo slots ltac:(lia)) as Hl.
  assert (Ht : ByteRange.truncated_to gap (take_len p total0 piece solo slots) =
    taken p total0 piece gap solo slots).
  { unfold ByteRange.truncated_to, taken. rewrite u64_add_small by u64_lia. done. }
  rewrite Ht. split; [|unfold taken; simpl; lia].
  apply snap_end_id; unfold taken; simpl; lia.
Qed.

Lemma claim_gap_spec total0 p piece gap now solo slots c p' : inv total0 p ->
  RangeSet.first_gap (claimed p) 0 total0 = Some gap ->
  0 <= piece <= max_piece (cfg p) + alignment (cfg p) ->
  claim_gap p total0 piece gap now solo slots = (c, p') ->
  exists id a, c = Fresh id /\ view p !! id = None /\ view p' = <[id := a]> (view p) /\
    Assignment.range a = taken p total0 piece gap solo slots /\
    Assignment.overlap a = overlap_for p (Assignment.range a) /\ inv total0 p'.
Proof.
  intros Hi Hgap Hn. destruct (first_gap_claim _ _ _ Hi Hgap) as (Hg1&Hg2&Hu&_).
  destruct (taken_eq total0 p piece gap solo slots Hi Hg1 Hg2 Hn) as [Heq Hne].
  unfold claim_gap. rewrite Heq. set (take := taken p total0 piece gap solo slots) in *.
  destruct (push_assignment p take now _) as [id q] eqn:Hpush. intros [= <- <-].
  assert (Hq : inv total0 q).
  { apply (push_fresh_inv total0 p take now _ id q Hi) in Hpush; [done| |].
    - unfold take, taken in *. simpl in *. lia.
    - intros x Hx. apply Hu. unfold take, taken, ByteRange.mem in *. simpl in *. lia. }
  apply push_view in Hpush as (Hid&Hv&_).
  set (att := pending_attempt_for p take).
  assert (Hv' : view (with_assignments q (sm_modify (assignments q) id (fun a => Assignment.with_attempt a att))) =
    alter (fun a => Assignment.with_attempt a att) id (view q)) by apply sm_modify_view.
  exists id, (Assignment.with_attempt (Assignment.new take now (overlap_for p take)) att).
  split_and!; try done.
  - rewrite Hv', Hv. apply map_eq. intros j. destruct (decide (j = id)) as [->|Hj].
    + by rewrite lookup_alter_eq, !lookup_insert_eq.
    + by rewrite lookup_alter_ne, !lookup_insert_ne.
  - apply (inv_alter total0 q _ (fun a => Assignment.with_attempt a att) id Hq); [by split_and!|done|done|].
    intros a _ Ha. destruct Ha. by split.
Qed.
(** *** Stealing *)

Lemma max_by_key_elem {A} (f : A -> Z) l x : max_by_key f l = Some x -> x ∈ l.
Proof.
  destruct l as [|y l]; [done|]. simpl. intros [= <-]. revert y. induction l as [|z l IH]; intros y; [by left|].
  simpl. destruct (f y <=? f z).
  - right. apply IH.
  - destruct (proj1 (elem_of_cons _ _ _) (IH y)) as [->|?]; [by left|by right; right].
Qed.

Lemma max_by_key_None {A} (f : A -> Z) l : max_by_key f l = None <-> l = [].
Proof. by destruct l. Qed.

Lemma plan_steal_spec p est now victim cut : plan_steal p est now = Some (Some (victim, cut)) ->
  exists v, view p !! victim = Some v /\ Assignment.truncated v = false /\
    straggler_grace (cfg p) <= saturating_duration_since now (Assignment.started v) /\
    cut_point p est v = Some (Some cut).
Proof.
  unfold plan_steal. destruct (max_by_key _ _) as [[k v]|] eqn:E; [|done].
  apply max_by_key_elem in E. apply list_elem_of_filter in E as [Hg E].
  apply list_elem_of_filter in E as [Ht E]. simpl in *. apply sm_iter_elem in E.
  destruct (cut_point p est v) as [[c|]|] eqn:Hc; [|done..]. intros [= -> ->].
  exists v. rewrite Z.geb_le in Hg. by split_and!.
Qed.

Lemma cut_between_spec share cur pr e mp align cut :
  0 <= pr -> 1 <= mp -> 2 * mp <= e - pr -> 0 <= align -> e + align <= u64_max ->
  cut_between share cur pr e mp align = Some (Some cut) ->
  pr + mp <= cut /\ cut + mp <= e /\ cur < cut.
Proof.
  intros Hpr Hmp Hrem Hal He. unfold cut_between, checked_clamp.
  assert (Er : u64_sat_sub e pr = e - pr) by (unfold u64_sat_sub; lia). rewrite Er.
  rewrite !u64_sub_small by u64_lia. case Z.leb_spec; [intros _|lia].
  assert (Hk : mp <= u64_clamp share mp (e - pr - mp) <= e - pr - mp) by (unfold u64_clamp; lia).
  generalize dependent (u64_clamp share mp (e - pr - mp)). intros k Hk.
  rewrite u64_add_small by u64_lia.
  destruct (align_up_spec (pr + k) align ltac:(lia) Hal ltac:(lia)) as [? _].
  destruct (andb _ _) eqn:E; [|done]. intros [= <-]. rewrite andb_true_iff, Z.gtb_lt in E. lia.
Qed.

Lemma min_split_bounds total0 p : inv total0 p -> 1 <= min_split p <= max_piece (cfg p).
Proof.
  intros Hi. destruct (inv_cfg _ _ Hi) as [_ Hmin Htail _ _]. unfold min_split.
  destruct (bytes_remaining p) as [r|]; [destruct (r <=? _)|]; lia.
Qed.

Lemma cut_point_spec total0 p est v cut : inv total0 p -> asg_ok total0 v -> cut_point p est v = Some (Some cut) ->
  protected v + min_split p <= cut /\ cut + min_split p <= ByteRange.end_ (Assignment.range v) /\
  1 <= min_split p /\ Assignment.cursor v < cut.
Proof.
  intros Hi Hv. destruct (inv_cfg _ _ Hi) as [HT Hmin Htail Hal Hroom].
  pose proof (min_split_bounds _ _ Hi) as Hms.
  assert (Hpr : 0 <= protected v) by (destruct Hv as [[? ?] [[? ?] [? ?]] _ _]; unfold protected; u64_lia).
  destruct Hv as [[Hr Ht] _ _ _]. unfold cut_point. case Z.ltb_spec; [done|]. intros Hrem Hc.
  apply cut_between_spec in Hc; [lia|done|lia| |done|lia].
  unfold u64_sat_sub, u64_sat_mul in Hrem. lia.
Qed.

(** The size guard of a steal keeps its clamp from panicking. *)
Lemma cut_point_total total0 p est v : inv total0 p -> asg_ok total0 v -> is_Some (cut_point p est v).
Proof.
  intros Hi Hv. destruct (inv_cfg _ _ Hi) as [HT Hmin Htail Hal Hroom].
  pose proof (min_split_bounds _ _ Hi) as Hms.
  assert (Hpr : 0 <= protected v) by (destruct Hv as [[? ?] [[? ?] [? ?]] _ _]; unfold protected; u64_lia).
  destruct Hv as [[Hr Ht] _ _ _]. unfold cut_point. case Z.ltb_spec; [eauto|]. intros Hrem. unfold cut_between, checked_clamp.
  assert (Er : u64_sat_sub (ByteRange.end_ (Assignment.range v)) (protected v) = ByteRange.end_ (Assignment.range v) - protected v)
    by (unfold u64_sat_sub, u64_sat_mul in *; lia).
  rewrite Er in *. assert (H2 : 2 * min_split p <= ByteRange.end_ (Assignment.range v) - protected v)
    by (unfold u64_sat_mul in Hrem; clear Er; lia). clear Hrem.
  rewrite u64_sub_small by (unfold in_u64; clear Er; lia). case Z.leb_spec; [eauto|lia].
Qed.

Lemma plan_steal_total total0 p est now : inv total0 p -> is_Some (plan_steal p est now).
Proof.
  intros Hi. unfold plan_steal. destruct (max_by_key _ _) as [[k v]|] eqn:E; [|eauto].
  apply max_by_key_elem in E. apply list_elem_of_filter in E as [_ E]. apply list_elem_of_filter in E as [_ E].
  apply sm_iter_elem in E. destruct (cut_point_total total0 p est v Hi (inv_asg _ _ Hi k v E)) as [c ->]. by eexists.
Qed.

Lemma claim_steal_total total0 p est now : inv total0 p -> is_Some (claim_steal p est now).
Proof.
  intros Hi. unfold claim_steal. destruct (plan_steal_total total0 p est now Hi) as [[[victim cut]|] ->]; [|by eexists].
  destruct (sm_get _ _); [|by eexists]. destruct (push_assignment _ _ _ _). by eexists.
Qed.

Lemma held_by_set p p' i a b : view p !! i = Some a -> view p' = <[i := b]> (view p) ->
  (forall x, ByteRange.mem x (Assignment.range b) -> ByteRange.mem x (Assignment.range a)) ->
  forall j x, held_by p' j x -> held_by p j x.
Proof.
  intros Ha Hv Hr j x Hx. apply (held_by_insert _ _ _ _ Hv) in Hx as [[-> Hx]|[_ Hx]]; [|done].
  exists a. auto.
Qed.

Lemma claim_steal_spec total0 p est now c p' : inv total0 p -> claim_steal p est now = Some (c, p') ->
  (c = Saturated /\ p' = p) \/
  exists id victim v cut, c = Stolen id victim /\ view p !! victim = Some v /\ view p !! id = None /\
    Assignment.truncated v = false /\
    protected v + min_split p <= cut /\ cut + min_split p <= ByteRange.end_ (Assignment.range v) /\
    1 <= min_split p /\
    view p' = <[id := Assignment.new (ByteRange.new cut (ByteRange.end_ (Assignment.range v))) now 0]>
                (<[victim := Assignment.cut_at v cut]> (view p)) /\
    completed p' = completed p /\ inv total0 p'.
Proof.
  intros Hi. unfold claim_steal. destruct (plan_steal p est now) as [[[victim cut]|]|] eqn:E; [|intros [= <- <-]; auto|done].
  apply plan_steal_spec in E as (v&Hv&Htr&_&Hc). rewrite sm_get_view. unfold view in Hv. rewrite Hv. fold (view p) in Hv.
  pose proof (inv_asg _ _ Hi _ _ Hv) as Hok.
  destruct (cut_point_spec _ _ _ _ _ Hi Hok Hc) as (H1&H2&H3&_).
  destruct (push_assignment _ _ _ _) as [id q] eqn:Hpush. intros [= <- <-].
  right. exists id, victim, v, cut.
  set (p1 := with_assignments p (sm_set (assignments p) victim (Assignment.cut_at v cut))) in *.
  assert (Hv1 : view p1 = <[victim := Assignment.cut_at v cut]> (view p)) by (apply sm_set_view; eauto).
  pose proof (ak_range _ _ Hok) as [Hr Ht]. pose proof (ak_wire _ _ Hok) as [Hw1 Hw2].
  assert (Hps : ByteRange.start (Assignment.range v) <= protected v).
  { pose proof (cfg_total _ _ (inv_cfg _ _ Hi)). unfold protected. u64_lia. }
  assert (Hcut : asg_ok total0 (Assignment.cut_at v cut)).
  { split; simpl; [lia|done|apply Hok|]. intros x Hx. destruct (ak_inside _ _ Hok x Hx) as [Hm Hp].
    unfold ByteRange.mem in *. unfold protected in *. simpl in *. split; lia. }
  pose proof (held_by_insert p p1 victim _ Hv1) as Hh. simpl in Hh.
  assert (Hinv : inv total0 q).
  { apply (push_core total0 p p1 (ByteRange.new cut (ByteRange.end_ (Assignment.range v))) now 0 id q Hi);
      [by split_and!|simpl; lia|..|exact Hpush].
    - intros i a Ha. rewrite Hv1 in Ha. destruct (decide (i = victim)) as [->|Hn].
      + rewrite lookup_insert_eq in Ha. by injection Ha as <-.
      + rewrite lookup_insert_ne in Ha by done. by apply (inv_asg _ _ Hi i).
    - intros i x. rewrite Hh. intros [[-> Hx]|[Hn Hx]].
      + unfold ByteRange.mem in *. simpl in *. split; [|lia]. exists v. split; [done|]. unfold ByteRange.mem. lia.
      + split; [done|]. intros Hx'. apply Hn. eapply (inv_one_worker _ _ Hi); [exact Hx|].
        exists v. split; [done|]. unfold ByteRange.mem in *. simpl in *. lia.
    - intros i x Hx. destruct (decide (i = victim)) as [->|Hn].
      + destruct Hx as (a&Ha&Hx). rewrite Hv in Ha. injection Ha as <-. unfold ByteRange.mem in *. simpl.
        destruct (Z_lt_le_dec x cut); [left|right; lia]. apply Hh. left. split; [done|]. simpl.
        unfold ByteRange.mem. simpl. lia.
      + left. apply Hh. auto.
    - intros x Hx. right. exists victim, v. split; [done|]. unfold ByteRange.mem in *. simpl in *. lia. }
  apply push_view in Hpush as (Hid&Hvq&_&_&_&Hcq&_). rewrite Hv1 in Hid, Hvq.
  split_and!; try done.
  destruct (decide (id = victim)) as [->|Hn]; [by rewrite lookup_insert_eq in Hid|].
  by rewrite lookup_insert_ne in Hid.
Qed.
(** *** Leaving *)

Lemma held_by_delete p p' id : view p' = delete id (view p) ->
  forall j x, held_by p' j x <-> j ≠ id /\ held_by p j x.
Proof.
  intros Hv j x. unfold held_by. rewrite Hv. destruct (decide (j = id)) as [->|Hn].
  - rewrite lookup_delete_eq. split; [by intros (?&?&?)|by intros [? _]].
  - rewrite lookup_delete_ne by done. tauto.
Qed.

(** A worker leaves: the verified part [V] of its range stays claimed, the rest
    becomes claimable. *)
Lemma leave_core total0 p p' id a (V : Z -> Prop) : inv total0 p -> view p !! id = Some a ->
  total p' = total p -> single_stream p' = single_stream p -> cfg p' = cfg p -> deferred p' = deferred p ->
  view p' = delete id (view p) ->
  (forall x, V x -> ByteRange.mem x (Assignment.range a)) ->
  RangeSet.wf (completed p') -> (forall x, done p' x <-> done p x \/ V x) ->
  RangeSet.wf (claimed p') ->
  (forall x, RangeSet.mem x (claimed p') <->
     RangeSet.mem x (claimed p) /\ (ByteRange.mem x (Assignment.range a) -> done p' x)) ->
  inv total0 p'.
Proof.
  intros Hi Ha E1 E2 E3 E6 Hv HV Hdw Hd Hcw Hc.
  pose proof (held_by_delete p p' id Hv) as Hh.
  assert (Hp : forall x, postponed p' x <-> postponed p x) by (intros x; unfold postponed; by rewrite E6).
  assert (Hai : forall x, held_by p id x <-> ByteRange.mem x (Assignment.range a)).
  { intros x. unfold held_by. rewrite Ha. split; [by intros (b&[= <-]&?)|eauto]. }
  assert (HVh : forall x, V x -> held_by p id x) by (intros x Hx; apply Hai, HV, Hx).
  destruct Hi. split; rewrite ?E1, ?E2, ?E3, ?E6; try done.
  - intros x Hx. apply Hc in Hx as [Hx _]. auto.
  - intros j b Hb. rewrite Hv in Hb. apply lookup_delete_Some in Hb as [_ Hb]. eauto.
  - intros x. rewrite Hc, inv_acct0, Hp. setoid_rewrite Hh. split.
    + intros [[Hx|[[i Hx]|Hx]] Hr]; [left; apply Hd; auto| |auto].
      destruct (decide (i = id)) as [->|Hn]; [|right; left; eauto].
      left. apply Hr, Hai, Hx.
    + intros [Hx|[[i [Hn Hx]]|Hx]].
      * split; [|done]. apply Hd in Hx as [?|?]; [by left|]. right; left. exists id. auto.
      * split; [right; left; eauto|]. intros Hx'%Hai. destruct Hn. by eapply inv_one_worker0.
      * split; [auto|]. intros Hx'%Hai. destruct (inv_worker_not_postponed0 _ _ Hx' Hx).
  - intros i j x [_ Hx]%Hh [_ Hy]%Hh. eauto.
  - intros i x [Hn Hx]%Hh. rewrite Hd. intros [?|HVx]; [by eapply inv_worker_not_done0|].
    apply Hn. eapply inv_one_worker0; [done|by apply HVh].
  - intros i x [_ Hx]%Hh. rewrite Hp. eauto.
  - intros x. rewrite Hp, Hd. intros Hx [?|HVx]; [by eapply inv_postponed_not_done0|].
    by apply (inv_worker_not_postponed0 id x (HVh x HVx)).
Qed.

Lemma abandon_spec total0 p id a : inv total0 p -> view p !! id = Some a ->
  let p' := (abandon p id).2 in
  (abandon p id).1 = Some a /\ view p' = delete id (view p) /\ completed p' = completed p /\
  deferred p' = deferred p /\
  (forall x, RangeSet.mem x (claimed p') <-> RangeSet.mem x (claimed p) /\ ~ ByteRange.mem x (Assignment.range a)) /\
  inv total0 p'.
Proof.
  intros Hi Ha. pose proof (inv_asg _ _ Hi _ _ Ha) as Hok. pose proof (cfg_total _ _ (inv_cfg _ _ Hi)) as HT.
  destruct (range_wf _ _ (ak_range _ _ Hok) HT) as [Hrw Hfin].
  unfold abandon. pose proof (sm_remove_value _ (assignments p) id) as H1.
  pose proof (sm_remove_view _ (assignments p) id) as H2. unfold view in Ha. rewrite Ha in H1.
  destruct (sm_remove (assignments p) id) as [o m]. simpl in H1, H2. subst o. rewrite Hfin. simpl.
  destruct (release_gaps_spec (completed p) (claimed p) (Assignment.range a)) as [Hw Hm]; [apply Hi|apply Hi|done|].
  assert (Hnd : forall x, ByteRange.mem x (Assignment.range a) -> ~ done p x).
  { intros x Hx. eapply (inv_worker_not_done _ _ Hi id). exists a. auto. }
  split_and!; [done|exact H2|done|done| |].
  - intros x. rewrite Hm. specialize (Hnd x). unfold done in Hnd. tauto.
  - apply (leave_core total0 p _ id a (fun _ => False) Hi Ha); try done; [apply Hi|].
    intros x. unfold done. simpl. tauto.
Qed.

Lemma abandon_missing p id : view p !! id = None -> abandon p id = (None, p).
Proof.
  intros Ha. unfold abandon. pose proof (sm_remove_value _ (assignments p) id) as H1.
  unfold view in Ha. rewrite Ha in H1. destruct (sm_remove (assignments p) id) as [o m]. simpl in H1. by subst o.
Qed.

(** The verified part of a response and the worker's exit. *)
Lemma finish_core total0 p p1 id a (V : Z -> Prop) : inv total0 p -> view p !! id = Some a ->
  same_but_assignments p (with_claimed (with_completed p1 (completed p)) (claimed p)) ->
  assignments p1 = assignments p ->
  (forall x, V x -> ByteRange.mem x (Assignment.range a)) ->
  RangeSet.wf (completed p1) -> (forall x, done p1 x <-> done p x \/ V x) ->
  RangeSet.wf (claimed p1) -> (forall x, RangeSet.mem x (claimed p1) <-> RangeSet.mem x (claimed p) \/ V x) ->
  let p' := (finish_verified p1 id).2 in
  (finish_verified p1 id).1 = Some a /\ view p' = delete id (view p) /\ deferred p' = deferred p /\
  (forall x, done p' x <-> done p x \/ V x \/ RangeSet.mem x (Assignment.committed_ranges a)) /\
  inv total0 p'.
Proof.
  intros Hi Ha (E1&E2&E3&_&_&E6) Eas HV Hdw Hd Hcw Hc. simpl in E1, E2, E3, E6.
  pose proof (inv_asg _ _ Hi _ _ Ha) as Hok. pose proof (cfg_total _ _ (inv_cfg _ _ Hi)) as HT.
  destruct (range_wf _ _ (ak_range _ _ Hok) HT) as [Hrw Hfin].
  unfold finish_verified. rewrite Eas. pose proof (sm_remove_value _ (assignments p) id) as H1.
  pose proof (sm_remove_view _ (assignments p) id) as H2. unfold view in Ha. rewrite Ha in H1.
  destruct (sm_remove (assignments p) id) as [o m]. simpl in H1, H2. subst o. rewrite Hfin. simpl.
  destruct Hok as [Hr _ Hcm Hin].
  destruct (RangeSet.insert_all_wf_mem (completed p1) _ Hdw (RangeSet.wf_ranges _ Hcm)) as [Hw1 Hm1].
  destruct (RangeSet.insert_all_wf_mem (claimed p1) _ Hcw (RangeSet.wf_ranges _ Hcm)) as [Hw2 Hm2].
  unfold RangeSet.iter in *. set (D := foldl RangeSet.insert (completed p1) _) in *.
  set (C := foldl RangeSet.insert (claimed p1) _) in *.
  destruct (release_gaps_spec D C (Assignment.range a) Hw1 Hw2 Hrw) as [Hw Hm].
  assert (HD : forall x, RangeSet.mem x D <-> done p x \/ V x \/ RangeSet.mem x (Assignment.committed_ranges a)).
  { intros x. rewrite Hm1. unfold done in Hd. rewrite Hd. unfold RangeSet.mem. tauto. }
  split_and!; [done|exact H2|done|exact HD|].
  apply (leave_core total0 p _ id a (fun x => V x \/ RangeSet.mem x (Assignment.committed_ranges a)) Hi Ha); try done.
  - intros x [?|?]; [by apply HV|by apply Hin].
  - intros x. rewrite Hm, Hm2, Hc. unfold done at 1. simpl.
    assert (Hcl : V x \/ RangeSet.mem x (Assignment.committed_ranges a) -> RangeSet.mem x (claimed p)).
    { intros Hx. apply (inv_acct _ _ Hi). right; left. exists id, a. split; [done|].
      destruct Hx; [by apply HV|by apply Hin]. }
    unfold RangeSet.mem at 3. unfold RangeSet.mem in *. tauto.
Qed.

Lemma finish_missing p id : view p !! id = None -> finish_verified p id = (None, p).
Proof.
  intros Ha. unfold finish_verified. pose proof (sm_remove_value _ (assignments p) id) as H1.
  unfold view in Ha. rewrite Ha in H1. destruct (sm_remove (assignments p) id) as [o m]. simpl in H1. by subst o.
Qed.

(** What the controller does with a verified response. *)
Definition verified (p : t) (id : key) (r : ByteRange.t) : t :=
  (finish_verified (on_response_verified p id r) id).2.

Lemma verified_spec total0 p id r : inv total0 p -> ByteRange.wf r ->
  inv total0 (verified p id r) /\
  match view p !! id with
  | None => verified p id r = p
  | Some a =>
      view (verified p id r) = delete id (view p) /\ deferred (verified p id r) = deferred p /\
      forall x, done (verified p id r) x <->
        done p x \/ (ByteRange.mem x r /\ ByteRange.mem x (Assignment.range a)) \/
        RangeSet.mem x (Assignment.committed_ranges a)
  end.
Proof.
  intros Hi Hr. unfold verified, on_response_verified. rewrite sm_get_view. fold (view p).
  destruct (view p !! id) as [a|] eqn:Ha.
  2: { destruct (ByteRange.is_empty r); by rewrite finish_missing. }
  pose proof (inv_asg _ _ Hi _ _ Ha) as Hok. pose proof (cfg_total _ _ (inv_cfg _ _ Hi)) as HT.
  set (V := fun x => ByteRange.mem x r /\ ByteRange.mem x (Assignment.range a)).
  destruct (clip_spec total0 a r Hok HT Hr) as [Hcw Hcm].
  assert (Hskip : (forall x, ~ V x) -> inv total0 (finish_verified p id).2 /\
    view (finish_verified p id).2 = delete id (view p) /\ deferred (finish_verified p id).2 = deferred p /\
    (forall x, done (finish_verified p id).2 x <-> done p x \/ V x \/ RangeSet.mem x (Assignment.committed_ranges a))).
  { intros Hno. destruct (finish_core total0 p p id a V Hi Ha) as (_&?&?&?&?); try done; try apply Hi.
    - by intros x ?%Hno.
    - intros x. specialize (Hno x). tauto.
    - intros x. specialize (Hno x). tauto. }
  destruct (ByteRange.is_empty r) eqn:Er.
  { apply Hskip. intros x [Hx _]. rewrite ByteRange.is_empty_spec in Er. by apply (Er x). }
  destruct (ByteRange.is_empty (clip r a)) eqn:Ec.
  { apply Hskip. intros x Hx. rewrite ByteRange.is_empty_spec in Ec. apply (Ec x), Hcm, Hx. }
  destruct (RangeSet.insert_wf_mem (completed p) (clip r a) (inv_completed _ _ Hi) Hcw) as [Hw1 Hm1].
  destruct (RangeSet.insert_wf_mem (claimed p) (clip r a) (inv_claimed _ _ Hi) Hcw) as [Hw2 Hm2].
  set (p1 := with_claimed _ _).
  destruct (finish_core total0 p p1 id a V Hi Ha) as (_&?&?&?&?); try done.
  - by intros x [_ ?].
  - intros x. unfold done. simpl. rewrite Hm1, Hcm. done.
  - intros x. simpl. rewrite Hm2, Hcm. done.
Qed.
(** *** Backoff *)

Lemma Exists_snoc {A} (P : A -> Prop) l x : Exists P (l ++ [x]) <-> Exists P l \/ P x.
Proof. rewrite Exists_app, Exists_cons, Exists_nil. tauto. Qed.

Lemma StronglySorted_snoc {A} (R : A -> A -> Prop) l x :
  StronglySorted R l -> Forall (fun y => R y x) l -> StronglySorted R (l ++ [x]).
Proof.
  induction 1 as [|y l Hs IH Hy]; intros Hf; simpl; [repeat constructor|].
  apply Forall_cons in Hf as [Hyx Hf]. constructor; [by apply IH|]. apply Forall_app. auto.
Qed.

Lemma defer_inv total0 p r until att : inv total0 p ->
  0 <= ByteRange.start r <= ByteRange.end_ r /\ ByteRange.end_ r <= total0 ->
  (forall x, ByteRange.mem x r -> unclaimed p x) ->
  inv total0 (defer p r until att) /\
  (forall x, postponed (defer p r until att) x <-> postponed p x \/ ByteRange.mem x r).
Proof.
  intros Hi Hr Hu. pose proof (cfg_total _ _ (inv_cfg _ _ Hi)) as HT.
  destruct (range_wf _ _ Hr HT) as [Hrw Hfin]. unfold defer.
  destruct (ByteRange.is_empty r) eqn:E.
  { split; [done|]. intros x. rewrite ByteRange.is_empty_spec in E. specialize (E x). tauto. }
  apply ByteRange.is_empty_false in E. rewrite Hfin.
  destruct (RangeSet.insert_wf_mem (claimed p) r (inv_claimed _ _ Hi) Hrw) as [Hcw Hcm].
  set (p' := with_deferred _ _).
  assert (Hp : forall x, postponed p' x <-> postponed p x \/ ByteRange.mem x r).
  { intros x. unfold postponed, p'. simpl. rewrite Exists_snoc. done. }
  split; [|done].
  assert (Hfree : forall x, ByteRange.mem x r -> ~ done p x /\ (forall i, ~ held_by p i x) /\ ~ postponed p x).
  { intros x Hx. specialize (Hu x Hx). unfold unclaimed in Hu. rewrite (inv_acct _ _ Hi) in Hu.
    split_and!; [tauto|intros i Hh; apply Hu; eauto|tauto]. }
  destruct Hi. split; try done.
  - intros x. unfold p'. simpl. rewrite Hcm. unfold ByteRange.mem. intros [?|?]; [by apply inv_bound0|lia].
  - unfold p'. simpl. apply Forall_app. split; [done|]. constructor; [|constructor]. split; simpl; lia.
  - intros x. rewrite Hp. unfold p'. simpl. rewrite Hcm, inv_acct0. unfold done, held_by. simpl. tauto.
  - intros i x Hh. rewrite Hp. intros [?|Hx]; [by eapply inv_worker_not_postponed0|].
    by apply (proj1 (proj2 (Hfree x Hx)) i).
  - intros x. rewrite Hp. intros [?|Hx]; [by apply inv_postponed_not_done0|]. by apply Hfree.
  - unfold p'. simpl. apply StronglySorted_snoc; [done|]. apply Forall_forall. intros d Hd x Hx Hxr.
    apply (Hfree x Hxr). apply Exists_exists. eauto.
Qed.

(** A failed range goes to backoff, as the controller does it. *)
Definition retry_later (p : t) (id : key) (until att : Z) : t :=
  match abandon p id with
  | (Some a, p') => defer p' (Assignment.range a) until att
  | (None, p') => p'
  end.

Lemma retry_later_inv total0 p id until att : inv total0 p -> inv total0 (retry_later p id until att).
Proof.
  intros Hi. unfold retry_later. destruct (view p !! id) as [a|] eqn:Ha; [|by rewrite abandon_missing].
  destruct (abandon_spec _ _ _ _ Hi Ha) as (H1&_&_&_&Hc&Hi').
  destruct (abandon p id) as [o p']. simpl in *. subst o.
  apply defer_inv; [done|apply (inv_asg _ _ Hi _ _ Ha)|].
  intros x Hx Hcl. apply Hc in Hcl as [_ ?]. done.
Qed.

Lemma release_loop_spec ds now c m keep : RangeSet.wf c -> Forall (fun d => ByteRange.wf (DeferredWork.range d) /\
    is_finite (DeferredWork.range d) = true) ds ->
  exists c' m', release_loop ds now c m keep =
    (c', m', keep ++ filter (fun d => ~ DeferredWork.until d <= now) ds) /\ RangeSet.wf c' /\
  forall x, RangeSet.mem x c' <-> RangeSet.mem x c /\
    ~ Exists (fun d => DeferredWork.until d <= now /\ ByteRange.mem x (DeferredWork.range d)) ds.
Proof.
  intros Hc Hf. revert c m keep Hc. induction Hf as [|d ds [Hd Hfin] _ IH]; intros c m keep Hc; simpl.
  { exists c, m. rewrite app_nil_r. split_and!; [done|done|]. intros x. rewrite Exists_nil. tauto. }
  case Z.leb_spec; intros Hn.
  - rewrite Hfin. destruct (RangeSet.remove_wf_mem c _ Hc Hd) as [Hw Hm].
    destruct (IH _ (Z.max m (DeferredWork.attempt d)) keep Hw) as (c'&m'&->&Hw'&Hm').
    exists c', m'. rewrite filter_cons_False by tauto. split_and!; [done|done|].
    intros x. rewrite Hm', Hm, Exists_cons. tauto.
  - destruct (IH c m (keep ++ [d]) Hc) as (c'&m'&->&Hw'&Hm').
    exists c', m'. rewrite filter_cons_True by lia. rewrite <- app_assoc. split_and!; [done|done|].
    intros x. rewrite Hm', Exists_cons. intuition lia.
Qed.

Lemma def_unique l d e x : StronglySorted disjoint_def l -> d ∈ l -> e ∈ l ->
  ByteRange.mem x (DeferredWork.range d) -> ByteRange.mem x (DeferredWork.range e) -> d = e.
Proof.
  induction 1 as [|y l Hs IH Hy]; [by intros ?%not_elem_of_nil|]. rewrite Forall_forall in Hy.
  intros [->|Hd]%elem_of_cons [->|He]%elem_of_cons Hxd Hxe; [done|..|by apply IH].
  - by destruct (Hy e He x Hxd).
  - by destruct (Hy d Hd x Hxe).
Qed.

Lemma release_due_inv total0 p now : inv total0 p ->
  inv total0 (release_due p now).2 /\
  deferred (release_due p now).2 = filter (fun d => ~ DeferredWork.until d <= now) (deferred p) /\
  view (release_due p now).2 = view p /\ completed (release_due p now).2 = completed p.
Proof.
  intros Hi. pose proof (cfg_total _ _ (inv_cfg _ _ Hi)) as HT. unfold release_due.
  assert (Hf : Forall (fun d => ByteRange.wf (DeferredWork.range d) /\ is_finite (DeferredWork.range d) = true) (deferred p)).
  { eapply Forall_impl; [apply Hi|]. intros d [? ?]. apply (range_wf total0); [lia|done]. }
  destruct (release_loop_spec (deferred p) now (claimed p) 0 [] (inv_claimed _ _ Hi) Hf) as (c'&m'&->&Hw&Hm).
  simpl. set (p' := with_deferred _ _). split_and!; [|done|done|done].
  assert (Hp : forall x, postponed p' x <->
    Exists (fun d => ~ DeferredWork.until d <= now /\ ByteRange.mem x (DeferredWork.range d)) (deferred p)).
  { intros x. unfold postponed, p'. simpl. rewrite !Exists_exists. setoid_rewrite list_elem_of_filter. naive_solver. }
  assert (Hps : forall x, postponed p' x -> postponed p x).
  { intros x. rewrite Hp. unfold postponed. rewrite !Exists_exists. naive_solver. }
  assert (Hkeep : forall x d, postponed p' x -> d ∈ deferred p -> ByteRange.mem x (DeferredWork.range d) ->
    ~ DeferredWork.until d <= now).
  { intros x d Hx Hd Hxd. apply Hp, Exists_exists in Hx as (e&He&Hn&Hxe).
    by rewrite (def_unique (deferred p) d e x (inv_def_disjoint _ _ Hi)). }
  assert (Hcl : forall x, RangeSet.mem x c' <-> RangeSet.mem x (claimed p) /\
    (postponed p x -> postponed p' x)).
  { intros x. rewrite Hm. split; intros [Hc Hx]; (split; [done|]).
    - intros (d&Hd&Hxd)%Exists_exists. apply Hp, Exists_exists. exists d. split; [done|]. split; [|done].
      intros Hle. apply Hx, Exists_exists. eauto.
    - intros (d&Hd&Hle&Hxd)%Exists_exists. eapply (Hkeep x d); [|done..]. apply Hx, Exists_exists. eauto. }
  destruct Hi. split; try done.
  - intros x Hx. apply Hcl in Hx as [Hx _]. auto.
  - apply Forall_forall. intros d [_ Hd]%list_elem_of_filter. by eapply Forall_forall in inv_def0.
  - intros x. unfold p' at 1. simpl. rewrite Hcl, inv_acct0. change (done p' x) with (done p x).
    change (forall id, held_by p' id x) with (forall id, held_by p id x).
    split; [tauto|]. intros [?|[[id Hx]|?]].
    + split; [tauto|]. intros Hpx. by destruct (inv_postponed_not_done0 x Hpx).
    + split; [right; left; by exists id|]. intros Hpx. by destruct (inv_worker_not_postponed0 id x Hx).
    + split; [auto|done].
  - intros i x Hx Hpx. eapply inv_worker_not_postponed0; [exact Hx|by apply Hps].
  - intros x Hpx. apply inv_postponed_not_done0. by apply Hps.
  - by apply strongly_sorted_filter.
Qed.

(** *** Rebalancing *)

Lemma rebalance_cut_range p a n : rebalance_cut p a = Some n ->
  Assignment.cursor a < n < ByteRange.end_ (Assignment.range a).
Proof.
  unfold rebalance_cut. cbv zeta. destruct (negb _); [done|]. case Z.leb_spec; [done|]. intros _.
  generalize (Z.min (align_up (Assignment.cursor a +%
    Z.max (Z.max (f64_to_u64 (f64_mul (f64_max (EwmaWithVariance.mean (Assignment.rate a)) (Rate.bps Rate.FLOOR))
      (as_secs_f64 (piece_duration p)))) (min_piece (cfg p))) (tail_min_piece (cfg p))) (alignment (cfg p)))
    (ByteRange.end_ (Assignment.range a))).
  intros ne. destruct (orb _ _) eqn:E; [done|]. intros [= <-]. apply orb_false_iff in E as [E1 E2].
  rewrite Z.geb_leb in E1. apply Z.leb_gt in E1, E2. lia.
Qed.

Lemma cursor_bounds a : RangeSet.wf (Assignment.committed_ranges a) ->
  ByteRange.start (Assignment.range a) <= ByteRange.end_ (Assignment.range a) ->
  ByteRange.start (Assignment.range a) <= Assignment.cursor a <= ByteRange.end_ (Assignment.range a).
Proof.
  intros Hw Hr. unfold Assignment.cursor. destruct (RangeSet.first_gap _ _ _) as [g|] eqn:E; [|lia].
  apply RangeSet.first_gap_Some in E as (?&?&_); [lia|apply Hw].
Qed.

Lemma rebalance_one_spec total0 p id : inv total0 p ->
  (rebalance_one p id = (p, []) \/
   exists a n, view p !! id = Some a /\ rebalance_cut p a = Some n /\ (rebalance_one p id).2 = [(id, n)] /\
     view (rebalance_one p id).1 = <[id := Assignment.cut_at a n]> (view p) /\
     completed (rebalance_one p id).1 = completed p /\ deferred (rebalance_one p id).1 = deferred p /\
     (forall x, RangeSet.mem x (claimed (rebalance_one p id).1) <->
        RangeSet.mem x (claimed p) /\ ~ (n <= x < ByteRange.end_ (Assignment.range a)))).
Proof.
  intros Hi. unfold rebalance_one. rewrite sm_get_view. fold (view p).
  destruct (view p !! id) as [a|] eqn:Ha; [|by left]. destruct (rebalance_cut p a) as [n|] eqn:Hc; [|by left].
  right. exists a, n. pose proof (inv_asg _ _ Hi _ _ Ha) as Hok. pose proof (cfg_total _ _ (inv_cfg _ _ Hi)) as HT.
  destruct (rebalance_cut_range p a n Hc) as [Hcn Hne].
  split_and!; try done; [apply sm_set_view; eauto|]. simpl. intros x.
  destruct Hok as [[Hr Ht] _ Hcm Hin].
  pose proof (cursor_bounds a Hcm ltac:(lia)) as H0.
  destruct (release_tail_spec (RangeSet.ranges (completed p)) (ByteRange.end_ (Assignment.range a)) n (-1) (claimed p))
    as [_ Hm]; [apply Hi|lia|apply Hi|lia|lia|].
  unfold RangeSet.iter. rewrite Hm. split; intros [Hx Hx']; (split; [done|]).
  - intros Hxn. eapply (inv_worker_not_done _ _ Hi id x); [|by apply Hx']. exists a. split; [done|].
    unfold ByteRange.mem. lia.
  - tauto.
Qed.
(** A straggler may only be cut above what it has committed. *)
Definition cuts_above_commits (p : t) (ids : list key) : Prop :=
  forall id a n x, id ∈ ids -> view p !! id = Some a -> rebalance_cut p a = Some n ->
    RangeSet.mem x (Assignment.committed_ranges a) -> x < n.

Lemma rebalance_one_inv total0 p id : inv total0 p -> cuts_above_commits p [id] ->
  inv total0 (rebalance_one p id).1.
Proof.
  intros Hi Hc. destruct (rebalance_one_spec total0 p id Hi) as [->|(a&n&Ha&Hn&_&Hv&Ed&Ep&Hm)]; [done|].
  assert (Hfr : total (rebalance_one p id).1 = total p /\ single_stream (rebalance_one p id).1 = single_stream p /\
    cfg (rebalance_one p id).1 = cfg p /\ RangeSet.wf (claimed (rebalance_one p id).1)).
  { unfold rebalance_one. rewrite sm_get_view. fold (view p). rewrite Ha, Hn. split_and!; try done. simpl.
    pose proof (inv_asg _ _ Hi _ _ Ha) as [[? ?] _ Hcm _]. pose proof (cfg_total _ _ (inv_cfg _ _ Hi)).
    pose proof (cursor_bounds a Hcm ltac:(lia)). pose proof (rebalance_cut_range p a n Hn).
    eapply (release_tail_spec _ _ _ (-1)); [apply Hi|lia|apply Hi|lia|lia]. }
  destruct Hfr as (E1&E2&E3&Hw). set (p' := (rebalance_one p id).1) in *.
  pose proof (rebalance_cut_range p a n Hn) as [Hlo Hhi].
  pose proof (inv_asg _ _ Hi _ _ Ha) as Hok. pose proof Hok as [[Hr Ht] Hwr Hcm Hin].
  pose proof (cursor_bounds a Hcm ltac:(lia)) as Hcb.
  pose proof (held_by_insert p p' id _ Hv) as Hh. simpl in Hh.
  assert (Hai : forall x, held_by p id x <-> ByteRange.mem x (Assignment.range a)).
  { intros x. unfold held_by. rewrite Ha. split; [by intros (b&[= <-]&?)|eauto]. }
  assert (Hsub : forall i x, held_by p' i x -> held_by p i x).
  { intros i x. rewrite Hh. intros [[-> Hx]|[_ Hx]]; [|done]. apply Hai. unfold ByteRange.mem in *. simpl in *. lia. }
  assert (Hd : forall x, done p' x <-> done p x) by (intros x; unfold done; by rewrite Ed).
  assert (Hp : forall x, postponed p' x <-> postponed p x) by (intros x; unfold postponed; by rewrite Ep).
  assert (Htail : forall x, n <= x < ByteRange.end_ (Assignment.range a) -> held_by p id x).
  { intros x Hx. apply Hai. unfold ByteRange.mem. lia. }
  destruct Hi. split; rewrite ?E1, ?E2, ?E3, ?Ed, ?Ep; try done.
  - intros x Hx. apply Hm in Hx as [Hx _]. auto.
  - intros i b Hb. rewrite Hv in Hb. destruct (decide (i = id)) as [->|Hne].
    + rewrite lookup_insert_eq in Hb. injection Hb as <-. split; simpl; [lia|done|done|].
      intros x Hx. destruct (Hin x Hx) as [Hxr Hxp]. split; [|done].
      pose proof (Hc id a n x ltac:(left) Ha Hn Hx). unfold ByteRange.mem in *. simpl. lia.
    + rewrite lookup_insert_ne in Hb by done. eauto.
  - intros x. rewrite Hm, inv_acct0, Hd, Hp. setoid_rewrite Hh. split.
    + intros [[?|[[i Hx]|?]] Hnx]; [auto| |auto]. right; left. exists i.
      destruct (decide (i = id)) as [->|Hne]; [left|right; done]. split; [done|].
      apply Hai in Hx. unfold ByteRange.mem in *. simpl. lia.
    + intros [Hx|[[i Hx]|Hx]].
      * split; [auto|]. intros Hx'%Htail. by apply (inv_worker_not_done0 id x).
      * destruct Hx as [[-> Hx]|[Hne Hx]].
        { split; [|unfold ByteRange.mem in Hx; simpl in Hx; lia]. right; left. exists id. apply Hai.
          unfold ByteRange.mem in *. simpl in *. lia. }
        split; [right; left; eauto|]. intros Hx'%Htail. by destruct (Hne (inv_one_worker0 _ _ _ Hx Hx')).
      * split; [auto|]. intros Hx'%Htail. by apply (inv_worker_not_postponed0 id x).
  - intros i j x Hx Hy. eauto.
  - intros i x Hx. rewrite Hd. eauto.
  - intros i x Hx. rewrite Hp. eauto.
  - intros x. rewrite Hp, Hd. eauto.
Qed.
Lemma rebalance_one_other total0 p id : inv total0 p -> forall ids, id ∉ ids ->
  cuts_above_commits p ids -> cuts_above_commits (rebalance_one p id).1 ids.
Proof.
  intros Hi ids Hid Hc. destruct (rebalance_one_spec total0 p id Hi) as [->|(a&n&Ha&Hn&_&Hv&_)]; [done|].
  intros j b m x Hj Hb Hm Hx. assert (Hne : j ≠ id) by congruence.
  rewrite Hv, lookup_insert_ne in Hb by done. apply (Hc j b m x Hj Hb); [|done].
  revert Hm. unfold rebalance_one. rewrite sm_get_view. fold (view p). by rewrite Ha, Hn.
Qed.

Lemma rebalance_fold_inv total0 ids p cuts : inv total0 p -> NoDup ids -> cuts_above_commits p ids ->
  inv total0 (foldl (fun acc id => let '(p', cuts) := rebalance_one acc.1 id in (p', acc.2 ++ cuts))
                (p, cuts) ids).1.
Proof.
  intros Hi Hnd. revert p cuts Hi. induction Hnd as [|id ids Hid _ IH]; intros p cuts Hi Hc; simpl; [done|].
  assert (Hone : cuts_above_commits p [id]).
  { intros j a n x Hj. apply Hc. apply list_elem_of_singleton in Hj as ->. by left. }
  pose proof (rebalance_one_inv total0 p id Hi Hone) as Hi'.
  pose proof (rebalance_one_other total0 p id Hi ids Hid) as Hc'.
  destruct (rebalance_one p id) as [p' cs]. simpl in *. apply IH; [done|]. apply Hc'.
  intros j a n x Hj. apply Hc. by right.
Qed.

Lemma stragglers_nodup p now : NoDup (stragglers p now).
Proof.
  unfold stragglers. destruct (_ <? 2); [constructor|]. destruct (fleet_stats p) as [[fm fsd]|]; [|constructor].
  apply filter_fst_nodup, sm_iter_nodup.
Qed.

Lemma rebalance_one_completed p id : completed (rebalance_one p id).1 = completed p.
Proof.
  unfold rebalance_one. destruct (sm_get _ _) as [a|]; [|done]. by destruct (rebalance_cut p a).
Qed.

Lemma rebalance_completed p now : completed (rebalance_stragglers p now).1 = completed p.
Proof.
  unfold rebalance_stragglers. destruct (_ <? 2); [done|]. generalize (stragglers p now). intros ids.
  generalize (@nil (key * Z)). revert p. induction ids as [|id ids IH]; intros p cuts; simpl; [done|].
  pose proof (rebalance_one_completed p id) as H. destruct (rebalance_one p id) as [p' cs]. simpl in *.
  by rewrite IH.
Qed.

Lemma rebalance_inv total0 p now : inv total0 p -> cuts_above_commits p (stragglers p now) ->
  inv total0 (rebalance_stragglers p now).1.
Proof.
  intros Hi Hc. unfold rebalance_stragglers. destruct (_ <? 2); [done|].
  apply rebalance_fold_inv; [done|apply stragglers_nodup|done].
Qed.

(** *** Invalidation and destination limits *)

Lemma invalidate_inv total0 p r : inv total0 p -> ByteRange.wf r ->
  (forall x, ByteRange.mem x r -> (forall i, ~ held_by p i x) /\ ~ postponed p x) ->
  inv total0 (invalidate p r).
Proof.
  intros Hi Hr Hf. destruct (RangeSet.remove_wf_mem (completed p) r (inv_completed _ _ Hi) Hr) as [Hw1 Hm1].
  destruct (RangeSet.remove_wf_mem (claimed p) r (inv_claimed _ _ Hi) Hr) as [Hw2 Hm2].
  assert (Hd : forall x, done (invalidate p r) x <-> done p x /\ ~ ByteRange.mem x r) by done.
  destruct Hi. split; try done.
  - intros x [Hx _]%Hm2. auto.
  - intros x. simpl. rewrite Hm2, inv_acct0, Hd. change (held_by (invalidate p r)) with (held_by p).
    change (postponed (invalidate p r) x) with (postponed p x). split; [tauto|].
    intros [?|[[i Hx]|?]]; [tauto| |]; (split; [eauto|]); intros Hxr; destruct (Hf x Hxr) as [? ?]; naive_solver.
  - intros i x Hx [? _]%Hd. by apply (inv_worker_not_done0 i x).
  - intros x Hx [? _]%Hd. by apply (inv_postponed_not_done0 x).
Qed.

Lemma clamp_max_piece_inv total0 p n : inv total0 p -> min_piece (cfg p) <= n -> tail_min_piece (cfg p) <= n ->
  inv total0 (clamp_max_piece p n).
Proof.
  intros Hi H1 H2. unfold clamp_max_piece. destruct (n >? 0); [|done].
  destruct Hi. split; try done. destruct inv_cfg0. split; simpl; lia.
Qed.

(** *** Claiming *)

Lemma is_complete_done total0 p : inv total0 p ->
  RangeSet.is_complete (completed p) total0 = true <-> forall x, 0 <= x < total0 -> done p x.
Proof.
  intros Hi. pose proof (ok_total _ _ (inv_cfg _ _ Hi)).
  apply RangeSet.is_complete_spec; [apply Hi|done|]. intros x Hx. apply (inv_bound _ _ Hi).
  apply (inv_acct _ _ Hi). by left.
Qed.

(** What a claim may do, in full. *)
Lemma claim_with_spec total0 p est now solo slots : inv total0 p ->
  exists c p', claim_with p est now solo slots = Some (c, p') /\ inv total0 p' /\ completed p' = completed p /\
  match c with
  | Complete => p' = p /\ forall x, 0 <= x < total0 -> done p x
  | Fresh id => exists a, view p !! id = None /\ view p' = <[id := a]> (view p) /\
      0 <= ByteRange.start (Assignment.range a) < ByteRange.end_ (Assignment.range a) /\
      ByteRange.end_ (Assignment.range a) <= total0 /\
      (forall x, ByteRange.mem x (Assignment.range a) -> unclaimed p x) /\
      (forall x, 0 <= x < ByteRange.start (Assignment.range a) -> ~ unclaimed p x) /\
      Assignment.overlap a = overlap_for p (Assignment.range a)
  | Stolen id victim => (forall x, 0 <= x < total0 -> ~ unclaimed p x) /\ solo = false /\
      exists v cut, view p !! victim = Some v /\ view p !! id = None /\ Assignment.truncated v = false /\
      protected v + min_split p <= cut /\ cut + min_split p <= ByteRange.end_ (Assignment.range v) /\
      1 <= min_split p /\
      view p' = <[id := Assignment.new (ByteRange.new cut (ByteRange.end_ (Assignment.range v))) now 0]>
                  (<[victim := Assignment.cut_at v cut]> (view p))
  | Saturated => p' = p /\ forall x, 0 <= x < total0 -> ~ unclaimed p x
  end.
Proof.
  intros Hi. unfold claim_with. rewrite (inv_total _ _ Hi), (inv_multi _ _ Hi).
  destruct (RangeSet.is_complete (completed p) total0) eqn:Ec.
  { exists Complete, p. split_and!; try done. by apply is_complete_done. }
  destruct (piece_len_for_spec total0 p est (total0 -% RangeSet.covered_len (completed p)) Hi) as (n&->&Hn).
  rewrite (next_claimable_gap_first total0 p now Hi).
  destruct (RangeSet.first_gap (claimed p) 0 total0) as [gap|] eqn:Eg.
  - destruct (claim_gap p total0 n gap now solo slots) as [c p'] eqn:Ecl.
    destruct (claim_gap_spec total0 p n gap now solo slots c p' Hi Eg Hn Ecl) as (id&a&->&Hid&Hv&Hr&Hov&Hi').
    destruct (first_gap_claim total0 p gap Hi Eg) as (H1&H2&H3&H4).
    destruct (taken_eq total0 p n gap solo slots Hi H1 H2 Hn) as [_ Hne].
    exists (Fresh id), p'. split_and!; [done|done| |].
    { unfold claim_gap in Ecl. destruct (push_assignment _ _ _ _) as [i q] eqn:Hp. injection Ecl as _ <-.
      apply push_view in Hp as (_&_&_&_&_&?&_). done. }
    exists a. rewrite Hr in *. split_and!; try done; unfold taken in *; simpl in *; try lia.
    intros x Hx. apply H3. unfold ByteRange.mem in *. simpl in *. lia.
  - assert (Hfull : forall x, 0 <= x < total0 -> ~ unclaimed p x).
    { intros x Hx Hu. apply Hu. eapply RangeSet.first_gap_None; [apply Hi|exact Eg|done]. }
    destruct solo.
    { exists Saturated, p. by split_and!. }
    destruct (claim_steal_total total0 p est now Hi) as [[c p'] Es]. exists c, p'. rewrite Es.
    destruct (claim_steal_spec total0 p est now c p' Hi Es) as [[-> ->]|(id&victim&v&cut&->&?&?&?&?&?&?&?&?&?)].
    + by split_and!.
    + split_and!; try done. exists v, cut. by split_and!.
Qed.
(** *** Scanning for a gap always ends *)

(** The deferred entries a scan at [pos] can still meet. *)
Definition ahead (p : t) (now pos : Z) : list DeferredWork.t :=
  filter (fun d => now < DeferredWork.until d /\ pos < ByteRange.end_ (DeferredWork.range d)) (deferred p).

Lemma max_by_key_from_ge {A} (f : A -> Z) l b : f b <= f (max_by_key_from f b l) /\
  Forall (fun x => f x <= f (max_by_key_from f b l)) l.
Proof.
  revert b. induction l as [|x l IH]; intros b; simpl; [split; [lia|constructor]|].
  destruct (IH (if f b <=? f x then x else b)) as [H1 H2].
  destruct (Z.leb_spec (f b) (f x)); (split; [lia|]); constructor; try done; lia.
Qed.

Lemma max_Z_ge l m x : max_Z l = Some m -> x ∈ l -> x <= m.
Proof.
  unfold max_Z, max_by_key. destruct l as [|y l]; [done|]. intros [= <-].
  destruct (max_by_key_from_ge (fun x => x) l y) as [H1 H2]. rewrite Forall_forall in H2.
  intros [->|Hx]%elem_of_cons; [done|by apply H2].
Qed.

Lemma gap_loop_total p total0 now fuel pos : RangeSet.wf (claimed p) ->
  (length (ahead p now pos) < fuel)%nat -> total0 <= u64_max -> is_Some (gap_loop fuel p total0 now pos).
Proof.
  intros Hw. revert pos. induction fuel as [|fuel IH]; intros pos Hf HT; [lia|]. simpl.
  case Z.ltb_spec; intros Hpos; [|eauto].
  destruct (RangeSet.first_gap (claimed p) pos total0) as [gap|] eqn:E; [|eauto].
  apply RangeSet.first_gap_Some in E as (Hg&Hge&_); [|apply Hw].
  destruct (gap_is_deferred p gap now) eqn:Ed; simpl; [|eauto].
  apply gap_is_deferred_spec, Exists_exists in Ed as (d&Hd&Hu&H1&H2).
  set (cand := (fun d => ByteRange.end_ (DeferredWork.range d)) <$> filter _ (deferred p)).
  assert (Hin : ByteRange.end_ (DeferredWork.range d) ∈ cand).
  { apply list_elem_of_fmap. exists d. split; [done|]. apply list_elem_of_filter. split; [|done].
    unfold ByteRange.intersects. rewrite !andb_true_iff, Z.gtb_ltb, !Z.ltb_lt. lia. }
  destruct (max_Z cand) as [mx|] eqn:Em.
  2: { unfold max_Z in Em. apply max_by_key_None in Em. rewrite Em in Hin. by apply not_elem_of_nil in Hin. }
  pose proof (max_Z_ge _ _ _ Em Hin) as Hmx. clear Em Hin. clearbody cand. simpl. unfold id.
  assert (Hnp : mx <= Z.max mx (u64_sat_add (ByteRange.start gap) 1) /\
                pos <= Z.max mx (u64_sat_add (ByteRange.start gap) 1)) by lia.
  revert Hnp. generalize (Z.max mx (u64_sat_add (ByteRange.start gap) 1)). intros np [Hn1 Hn2].
  apply IH; [|done]. apply (Nat.lt_le_trans _ (length (ahead p now pos))); [|lia].
  apply (filter_length_lt _ _ _ d); cbv beta; [|done|lia|intros [_ Hlt]; lia].
  intros x [? Hx]. split; [done|]. lia.
Qed.

(** ** The plan as a transition system *)

Inductive plan_op :=
| OpClaim (est : Rate.t) (now : Z) (solo : bool) (peer_slots : Z)
| OpWireReceived (id : key) (n : Z)
| OpSubmitted (id : key) (n : Z)
| OpCommitted (id : key) (r : ByteRange.t) (now : Z)
| OpVerified (id : key) (r : ByteRange.t)
| OpAbandon (id : key)
| OpRetryLater (id : key) (until attempt : Z)
| OpReleaseDue (now : Z)
| OpRebalance (now : Z)
| OpInvalidate (r : ByteRange.t)
| OpClampMaxPiece (n : Z).

Definition run_op (p : t) (o : plan_op) : option t :=
  match o with
  | OpClaim est now solo slots => option_map snd (claim_with p est now solo slots)
  | OpWireReceived id n => Some (on_wire_received p id n)
  | OpSubmitted id n => Some (on_submitted p id n)
  | OpCommitted id r now => Some (on_destination_committed exp p id r now)
  | OpVerified id r => Some (verified p id r)
  | OpAbandon id => Some (abandon p id).2
  | OpRetryLater id until att => Some (retry_later p id until att)
  | OpReleaseDue now => Some (release_due p now).2
  | OpRebalance now => Some (rebalance_stragglers p now).1
  | OpInvalidate r => Some (invalidate p r)
  | OpClampMaxPiece n => Some (clamp_max_piece p n)
  end.

(** What the environment owes: words are words, writes are acknowledged for
    received bytes, stragglers are cut above their commits (so they are in the
    controller, which notes no commits: [PlanFrame.fits_cuts_above_commits]), only
    settled bytes are invalidated, and a destination's limit is no smaller than a minimum
    piece. *)
Definition op_ok (p : t) (o : plan_op) : Prop :=
  match o with
  | OpWireReceived _ n | OpSubmitted _ n => 0 <= n
  | OpCommitted id r _ => ByteRange.wf r /\ commit_received p id r
  | OpVerified _ r => ByteRange.wf r
  | OpRebalance now => cuts_above_commits p (stragglers p now)
  | OpInvalidate r => ByteRange.wf r /\ forall x, ByteRange.mem x r -> (forall i, ~ held_by p i x) /\ ~ postponed p x
  | OpClampMaxPiece n => min_piece (cfg p) <= n /\ tail_min_piece (cfg p) <= n
  | _ => True
  end.

Inductive reachable (total0 : Z) : t -> Prop :=
| reach_new done0 c dur ov : cfg_ok total0 c -> RangeSet.wf done0 ->
    (forall x, RangeSet.mem x done0 -> 0 <= x < total0) ->
    reachable total0 (new (Some total0) done0 c dur ov)
| reach_step p o p' : reachable total0 p -> op_ok p o -> run_op p o = Some p' -> reachable total0 p'.

Lemma run_op_inv total0 p o : inv total0 p -> op_ok p o -> exists p', run_op p o = Some p' /\ inv total0 p'.
Proof.
  intros Hi Ho. destruct o; simpl in *.
  - destruct (claim_with_spec total0 p est now solo peer_slots Hi) as (c&p'&->&Hi'&_). eauto.
  - eexists; split; [done|]. by apply on_wire_received_inv.
  - eexists; split; [done|]. by apply on_submitted_inv.
  - eexists; split; [done|]. destruct Ho. by apply on_destination_committed_inv.
  - eexists; split; [done|]. by apply verified_spec.
  - eexists; split; [done|]. destruct (view p !! id) as [a|] eqn:Ha; [|by rewrite abandon_missing].
    by apply (abandon_spec total0 p id a Hi Ha).
  - eexists; split; [done|]. by apply retry_later_inv.
  - eexists; split; [done|]. by apply release_due_inv.
  - eexists; split; [done|]. by apply rebalance_inv.
  - eexists; split; [done|]. destruct Ho. by apply invalidate_inv.
  - eexists; split; [done|]. destruct Ho. by apply clamp_max_piece_inv.
Qed.

Lemma reachable_inv total0 p : reachable total0 p -> inv total0 p.
Proof.
  induction 1 as [|p o p' _ IH Ho Hr]; [by apply new_inv|].
  destruct (run_op_inv total0 p o IH Ho) as (q&Hq&?). congruence.
Qed.

(** ** Plans that are served as one stream

    A plan of unknown length, or one that was made single-stream, has one worker
    at a time, which gets everything from the end of the verified prefix on. *)

Inductive streaming : t -> Prop :=
| stream_new total0 done0 c dur ov on : total0 = None \/ on = true ->
    streaming (set_single_stream (new total0 done0 c dur ov) on)
| stream_step p o p' : streaming p -> run_op p o = Some p' -> streaming p'.

Definition one_stream (p : t) : Prop := total p = None \/ single_stream p = true.
Definition one_worker (p : t) : Prop := forall i j, is_Some (view p !! i) -> is_Some (view p !! j) -> i = j.

(** A step that gives no work out. *)
Record no_more (p p' : t) : Prop := {
  nm_total : total p' = total p;
  nm_stream : single_stream p' = single_stream p;
  nm_workers : forall i, is_Some (view p' !! i) -> is_Some (view p !! i) }.

#[local] Instance no_more_preorder : PreOrder no_more.
Proof. split; [by intros p|]. intros p q r [A B C] [A' B' C']. split; [congruence..|auto]. Qed.

Lemma no_more_alter p p' f i : total p' = total p -> single_stream p' = single_stream p -> view p' = alter f i (view p) -> no_more p p'.
Proof. intros Ht Hs Hv. split; [done..|]. intros j. by rewrite Hv, lookup_alter_is_Some. Qed.

Lemma no_more_delete p p' i : total p' = total p -> single_stream p' = single_stream p -> view p' = delete i (view p) -> no_more p p'.
Proof. intros Ht Hs Hv. split; [done..|]. intros j. rewrite Hv. by intros [? [_ ?]%lookup_delete_Some]. Qed.

Lemma no_more_same p p' : total p' = total p -> single_stream p' = single_stream p -> assignments p' = assignments p -> no_more p p'.
Proof. intros Ht Hs Hv. split; [done..|]. intros j. unfold view. by rewrite Hv. Qed.

Lemma no_more_abandon p id : no_more p (abandon p id).2.
Proof.
  unfold abandon. pose proof (sm_remove_view _ (assignments p) id) as H. destruct (sm_remove (assignments p) id) as [[a|] m]; [|done].
  by apply (no_more_delete _ _ id).
Qed.

Lemma no_more_finish p id : no_more p (finish_verified p id).2.
Proof.
  unfold finish_verified. pose proof (sm_remove_view _ (assignments p) id) as H. destruct (sm_remove (assignments p) id) as [[a|] m]; [|done].
  by apply (no_more_delete _ _ id).
Qed.

Lemma no_more_rebalance p now : no_more p (rebalance_stragglers p now).1.
Proof.
  unfold rebalance_stragglers. destruct (_ <? 2); [done|]. generalize (stragglers p now), (@nil (key * Z)). intros ids.
  revert p. induction ids as [|id ids IH]; intros p cuts; [done|]. cbn [foldl fst snd].
  assert (H : no_more p (rebalance_one p id).1).
  { unfold rebalance_one. rewrite sm_get_view. destruct (sm_view _ !! id) as [a|] eqn:Ea; [|done].
    destruct (rebalance_cut p a) as [n|]; [|done]. split; [done..|]. intros i. unfold view. cbn. rewrite sm_set_view by eauto.
    rewrite lookup_insert_is_Some'. intros [->|?]; [by rewrite Ea|done]. }
  destruct (rebalance_one p id) as [p1 cs]. etrans; [exact H|]. apply IH.
Qed.

(** What a claim of such a plan does. *)
Lemma stream_claim p est now solo slots : one_stream p -> exists c p', claim_with p est now solo slots = Some (c, p') /\
  total p' = total p /\ single_stream p' = single_stream p /\ completed p' = completed p /\
  match c with
  | Fresh id => view p = ∅ /\ exists a, view p' = {[id := a]} /\
      Assignment.range a = ByteRange.new (RangeSet.contiguous_prefix (completed p)) (default u64_max (total p)) /\
      forall n, total p = Some n -> RangeSet.contiguous_prefix (completed p) < n
  | Stolen _ _ => False
  | _ => p' = p
  end.
Proof.
  intros Hone. unfold claim_with.
  assert (Hpush : forall e, sm_is_empty (assignments p) = true -> exists c p',
    (let '(id, p') := push_assignment p (ByteRange.new (RangeSet.contiguous_prefix (completed p)) e) now 0 in Some (Fresh id, p')) = Some (c, p') /\
    total p' = total p /\ single_stream p' = single_stream p /\ completed p' = completed p /\
    exists id, c = Fresh id /\ view p = ∅ /\ exists a, view p' = {[id := a]} /\
      Assignment.range a = ByteRange.new (RangeSet.contiguous_prefix (completed p)) e).
  { intros e Hem. apply sm_is_empty_view in Hem. fold (view p) in Hem.
    destruct (push_assignment _ _ _ _) as [id q] eqn:Hq. apply push_view in Hq as (_&Hv&Ht&Hs&_&Hc&_).
    exists (Fresh id), q. split_and!; try done. exists id. split_and!; try done. eexists. split; [by rewrite Hv, Hem|done]. }
  destruct (total p) as [n|] eqn:Et.
  - destruct Hone as [?|Hs]; [congruence|]. rewrite Hs. destruct (RangeSet.is_complete _ _); [by exists Complete, p|].
    destruct (sm_is_empty (assignments p)) eqn:Ee; cbn [negb]; [|by exists Saturated, p].
    rewrite Z.geb_leb. case Z.leb_spec; intros Hlt; [by exists Complete, p|].
    destruct (Hpush n eq_refl) as (c&q&->&H1&H2&H3&id&->&H4&a&H5&H6). exists (Fresh id), q. rewrite H1, H2, Hs. split_and!; try done.
    exists a. split_and!; [done..|]. by intros m [= <-].
  - destruct (sm_is_empty (assignments p)) eqn:Ee; cbn [negb]; [|by exists Saturated, p].
    destruct (Hpush u64_max eq_refl) as (c&q&->&H1&H2&H3&id&->&H4&a&H5&H6). exists (Fresh id), q. rewrite H1, H2. split_and!; try done.
    by exists a.
Qed.

Lemma stream_step_ok p o : one_stream p -> one_worker p -> exists p', run_op p o = Some p' /\ one_stream p' /\ one_worker p'.
Proof.
  intros Hs Hw. assert (Hno : forall p', no_more p p' -> one_stream p' /\ one_worker p').
  { intros p' [Ht Hst Hv]. split; [unfold one_stream; by rewrite Ht, Hst|]. intros i j Hi%Hv Hj%Hv. by apply Hw. }
  destruct o; cbn [run_op]; try (eexists; split; [reflexivity|apply Hno]).
  - destruct (stream_claim p est now solo peer_slots Hs) as (c&p'&->&H1&H2&_&H). exists p'. split; [done|].
    split; [unfold one_stream; by rewrite H1, H2|]. destruct c as [id|? ?| |]; [|done|by subst..].
    destruct H as (_&a&Hv&_). intros i j. rewrite Hv, !lookup_singleton_is_Some. congruence.
  - eapply no_more_alter; [done..|]. apply sm_modify_view.
  - eapply no_more_alter; [done..|]. apply sm_modify_view.
  - unfold on_destination_committed. destruct (ByteRange.is_empty r); [done|]. eapply no_more_alter; [done..|]. apply sm_modify_view.
  - unfold verified. etrans; [|apply no_more_finish]. unfold on_response_verified. destruct (ByteRange.is_empty r); [done|].
    destruct (sm_get _ _); [|done]. cbn zeta. destruct (ByteRange.is_empty _); [done|]. by apply no_more_same.
  - apply no_more_abandon.
  - unfold retry_later. pose proof (no_more_abandon p id) as H. destruct (abandon p id) as [[a|] q]; [|done]. etrans; [exact H|].
    unfold defer. destruct (ByteRange.is_empty _); [done|]. by apply no_more_same.
  - unfold release_due. destruct (release_loop _ _ _ _ _) as [[c m] keep]. by apply no_more_same.
  - apply no_more_rebalance.
  - by apply no_more_same.
  - unfold clamp_max_piece. destruct (n >? 0); [|done]. by apply no_more_same.
Qed.

Lemma streaming_inv p : streaming p -> one_stream p /\ one_worker p.
Proof.
  induction 1 as [total0 done0 c dur ov on H|p o p' _ [IH1 IH2] Hr].
  - split; [exact H|]. intros i j. unfold view. cbn. rewrite sm_view_new, lookup_empty. by intros [].
  - destruct (stream_step_ok p o IH1 IH2) as (q&Hq&?). congruence.
Qed.
End invariant.

(** ** Theorems *)

Import SegmentPlan.

Section theorems.
Context {L : SlotMapLib} {HL : SlotMapLaws L}.
Context (exp : f64 -> f64).

(** C22. No byte of an artifact that is fetched in pieces is ever lost or worked
    on twice: in every reachable plan of known length that is not single-stream
    each offset is verified, or assigned to exactly one live worker, or waiting
    out a backoff, or claimable, and never two of these. A plan that is served
    as one stream, because its length is not known or the source or the
    destination cannot take pieces, has one worker at a time; that worker is
    given the whole rest from the end of the verified prefix on, the verified
    bytes behind the first hole included, which are then fetched again. *)
Theorem every_byte_has_one_holder (p : t) :
  (forall total0 x, reachable exp total0 p -> 0 <= x < total0 ->
     (done p x \/ (exists id, held_by p id x) \/ postponed p x \/ unclaimed p x) /\
     (forall i j, held_by p i x -> held_by p j x -> i = j) /\
     (forall i, held_by p i x -> ~ done p x /\ ~ postponed p x /\ ~ unclaimed p x) /\
     (postponed p x -> ~ done p x /\ ~ unclaimed p x) /\ (done p x -> ~ unclaimed p x)) /\
  (streaming exp p ->
     (forall i j, is_Some (view p !! i) -> is_Some (view p !! j) -> i = j) /\
     forall est now solo slots id p', claim_with p est now solo slots = Some (Fresh id, p') ->
       view p = ∅ /\ completed p' = completed p /\
       forall x, held_by p' id x <-> RangeSet.contiguous_prefix (completed p) <= x < default u64_max (total p)).
Proof.
  split.
  - intros total0 x Hr Hx. pose proof (reachable_inv exp total0 p Hr) as Hi. pose proof (inv_acct _ _ Hi x) as Ha. unfold unclaimed.
    split_and!.
    + destruct (decide (RangeSet.in_list x (RangeSet.ranges (claimed p)))) as [Hc|Hc].
      * apply Ha in Hc. tauto.
      * do 3 right. exact Hc.
    + intros i j. apply (inv_one_worker _ _ Hi).
    + intros i Hh. split_and!; [by apply (inv_worker_not_done _ _ Hi i)|by apply (inv_worker_not_postponed _ _ Hi i)|].
      assert (RangeSet.mem x (claimed p)) by (apply Ha; eauto). tauto.
    + intros Hp. split; [by apply (inv_postponed_not_done _ _ Hi)|]. tauto.
    + tauto.
  - intros Hst. destruct (streaming_inv exp p Hst) as [Hs Hw]. split; [exact Hw|]. intros est now solo slots id p' Hc.
    destruct (stream_claim p est now solo slots Hs) as (c&q&Hq&_&_&Hd&H). rewrite Hc in Hq. injection Hq as <- <-.
    destruct H as (Hv&a&Hv'&Hr&_). split_and!; [done|done|]. intros x. unfold held_by. rewrite Hv'. split.
    + intros (b&Hb&Hx). apply lookup_singleton_Some in Hb as [_ <-]. by rewrite Hr in Hx.
    + intros Hx. exists a. rewrite lookup_singleton_eq, Hr. by split.
Qed.

(** C32. The operations the controller drives a plan with never panic. In every
    reachable plan that is fetched in pieces an operation whose environment
    keeps its side of the bargain returns, and the result is again reachable:
    no minimum piece is above the maximum, neither in the policy nor after the
    destination's limit is applied, writes are acknowledged for received bytes,
    a straggler is cut above its commits, and only settled bytes are
    invalidated. In a plan served as one stream every operation returns. *)
Theorem plan_operations_return (p : t) (o : plan_op) :
  (forall total0, reachable exp total0 p -> op_ok p o -> exists p', run_op exp p o = Some p' /\ reachable exp total0 p') /\
  (streaming exp p -> exists p', run_op exp p o = Some p' /\ streaming exp p').
Proof.
  split.
  - intros total0 Hr Ho. destruct (run_op_inv exp total0 p o (reachable_inv exp total0 p Hr) Ho) as (p'&Hp&_).
    exists p'. split; [done|]. by eapply reach_step.
  - intros Hst. destruct (streaming_inv exp p Hst) as [Hs Hw]. destruct (stream_step_ok exp p o Hs Hw) as (p'&Hp&_).
    exists p'. split; [done|]. by eapply stream_step.
Qed.

(** Claiming is exclusive and work-conserving: a claim is answered with a
    fresh assignment exactly when some byte is unclaimed, and then with a
    non-empty range of unclaimed bytes that starts at the first of them; it is
    [Complete] only when every byte is verified, and [Saturated] only when every
    byte is accounted for. *)
Theorem claim_exclusive_work_conserving (total0 : Z) (p p' : t) (est : Rate.t) (now : Z) (solo : bool)
    (slots : Z) (c : Claim) (Hr : reachable exp total0 p)
    (Hc : claim_with p est now solo slots = Some (c, p')) :
  ((exists id, c = Fresh id) <-> exists x, 0 <= x < total0 /\ unclaimed p x) /\
  (forall id, c = Fresh id -> exists a, view p !! id = None /\ view p' = <[id := a]> (view p) /\
     0 <= ByteRange.start (Assignment.range a) < ByteRange.end_ (Assignment.range a) /\
     ByteRange.end_ (Assignment.range a) <= total0 /\
     (forall x, ByteRange.mem x (Assignment.range a) -> unclaimed p x) /\
     (forall x, 0 <= x < ByteRange.start (Assignment.range a) -> ~ unclaimed p x)) /\
  (c = Complete -> forall x, 0 <= x < total0 -> done p x) /\
  (c = Saturated -> p' = p).
Proof.
  pose proof (reachable_inv exp total0 p Hr) as Hi.
  destruct (claim_with_spec total0 p est now solo slots Hi) as (c'&q&Hq&_&_&Hcase).
  rewrite Hc in Hq. injection Hq as <- <-. destruct c as [id|id victim| |].
  - destruct Hcase as (a&Hid&Hv&Hn&Hb&Hu&Hf&_). split_and!; try done.
    + split; [intros _|eauto]. exists (ByteRange.start (Assignment.range a)). split; [lia|].
      apply Hu. unfold ByteRange.mem. lia.
    + intros id' [= <-]. exists a. split_and!; try done; lia.
  - destruct Hcase as [Hf _]. split_and!; try done. split; [by intros [? ?]|].
    intros (x&Hx&Hu). by destruct (Hf x Hx).
  - destruct Hcase as [-> Hf]. split_and!; try done. split; [by intros [? ?]|].
    intros (x&Hx&Hu). by destruct (Hf x Hx).
  - destruct Hcase as [-> Hf]. split_and!; try done. split; [by intros [? ?]|].
    intros (x&Hx&Hu). exfalso. apply Hu, (inv_acct _ _ Hi). left. auto.
Qed.

(** A steal never touches what the victim already received or submitted:
    the victim keeps its head up to a cut at least one minimum piece above that
    frontier, the thief gets exactly the rest, at least a minimum piece, and
    nothing else in the plan changes owner. *)
Theorem steal_respects_frontier (total0 : Z) (p p' : t) (est : Rate.t) (now : Z) (slots : Z)
    (thief victim : key) (Hr : reachable exp total0 p)
    (Hc : claim_with p est now false slots = Some (Stolen thief victim, p')) :
  exists v cut, view p !! victim = Some v /\ view p !! thief = None /\ Assignment.truncated v = false /\
    protected v + min_split p <= cut /\ cut + min_split p <= ByteRange.end_ (Assignment.range v) /\
    1 <= min_split p /\
    view p' = <[thief := Assignment.new (ByteRange.new cut (ByteRange.end_ (Assignment.range v))) now 0]>
                (<[victim := Assignment.cut_at v cut]> (view p)).
Proof.
  pose proof (reachable_inv exp total0 p Hr) as Hi.
  destruct (claim_with_spec total0 p est now false slots Hi) as (c'&q&Hq&_&_&Hcase).
  rewrite Hc in Hq. injection Hq as <- <-. destruct Hcase as (_&_&v&cut&Hv). eauto.
Qed.

(** C23. Only verified bytes count: an offset becomes verified in one step only,
    the controller's handling of a verified response, and then it lies in that
    response or among the bytes its worker committed; every other operation but
    invalidation leaves the verified set as it is. *)
Theorem only_verified_bytes_complete (total0 : Z) (p p' : t) (o : plan_op) (x : Z)
    (Hr : reachable exp total0 p) (Ho : op_ok p o) (Hs : run_op exp p o = Some p') (Hx : done p' x) :
  done p x \/
  exists id r a, o = OpVerified id r /\ view p !! id = Some a /\
    ByteRange.mem x (Assignment.range a) /\
    (ByteRange.mem x r \/ RangeSet.mem x (Assignment.committed_ranges a)).
Proof.
  pose proof (reachable_inv exp total0 p Hr) as Hi. destruct o; simpl in Hs, Ho.
  - destruct (claim_with_spec total0 p est now solo peer_slots Hi) as (c&q&Hq&_&Hd&_). rewrite Hq in Hs.
    injection Hs as <-. left. unfold done in *. by rewrite <- Hd.
  - injection Hs as <-. by left.
  - injection Hs as <-. by left.
  - injection Hs as <-. left. revert Hx. unfold on_destination_committed. by destruct (ByteRange.is_empty r).
  - injection Hs as <-. destruct (verified_spec total0 p id r Hi Ho) as [_ Hv].
    destruct (view p !! id) as [a|] eqn:Ha; [|rewrite Hv in Hx; by left]. destruct Hv as (_&_&Hd).
    apply Hd in Hx as [?|[[? ?]|Hx]]; [by left|right; exists id, r, a; by split_and!; auto|].
    right. exists id, r, a. split_and!; [done|done| |by right]. by apply (inv_asg _ _ Hi id a Ha).
  - injection Hs as <-. left. destruct (view p !! id) as [a|] eqn:Ha; [|by rewrite abandon_missing in Hx].
    destruct (abandon_spec total0 p id a Hi Ha) as (_&_&Hd&_). unfold done in *. by rewrite <- Hd.
  - injection Hs as <-. left. unfold retry_later in Hx. destruct (view p !! id) as [a|] eqn:Ha.
    + destruct (abandon_spec total0 p id a Hi Ha) as (H1&_&Hd&_). destruct (abandon p id) as [o q].
      simpl in *. subst o. revert Hx. unfold defer, done. destruct (ByteRange.is_empty _); simpl; by rewrite Hd.
    + by rewrite abandon_missing in Hx.
  - injection Hs as <-. left. destruct (release_due_inv total0 p now Hi) as (_&_&_&Hd). unfold done in *. by rewrite <- Hd.
  - injection Hs as <-. left. unfold done in *. by rewrite <- (rebalance_completed p now).
  - injection Hs as <-. left. destruct Ho as [Hr' _].
    apply (RangeSet.remove_wf_mem (completed p) r (inv_completed _ _ Hi) Hr') in Hx. by destruct Hx.
  - injection Hs as <-. left. revert Hx. unfold clamp_max_piece. by destruct (n >? 0).
Qed.
(** A failed range comes back, and only when it should: abandoning makes
    exactly the worker's range claimable again; postponing it instead keeps
    every byte of it out of reach until the backoff has elapsed, and releases
    every byte of it from then on. *)
Theorem failed_range_comes_back (total0 : Z) (p : t) (id : key) (a : Assignment.t) (until attempt now : Z)
    (Hr : reachable exp total0 p) (Ha : view p !! id = Some a) :
  (forall x, unclaimed (abandon p id).2 x <-> unclaimed p x \/ ByteRange.mem x (Assignment.range a)) /\
  (forall x, ByteRange.mem x (Assignment.range a) ->
     unclaimed (release_due (retry_later p id until attempt) now).2 x <-> until <= now).
Proof.
  pose proof (reachable_inv exp total0 p Hr) as Hi.
  destruct (abandon_spec total0 p id a Hi Ha) as (H1&Hv&Hd&Hdef&Hc&Hi').
  split.
  { intros x. unfold unclaimed. rewrite Hc.
    destruct (decide (RangeSet.in_list x (RangeSet.ranges (claimed p)))); unfold RangeSet.mem;
      destruct (ByteRange.contains (Assignment.range a) x) eqn:E;
      [apply ByteRange.contains_spec in E|apply not_true_iff_false in E; rewrite ByteRange.contains_spec in E|..];
      tauto. }
  intros x Hx. unfold retry_later. destruct (abandon p id) as [o q] eqn:Eab. simpl in *. subst o.
  pose proof (inv_asg _ _ Hi id a Ha) as Hok.
  destruct (defer_inv total0 q (Assignment.range a) until attempt Hi' (ak_range _ _ Hok)) as [Hi'' Hp].
  { intros y Hy Hcl. by apply Hc in Hcl as [_ ?]. }
  set (q' := defer q (Assignment.range a) until attempt) in *.
  destruct (release_due_inv total0 q' now Hi'') as (Hi3&Hdef3&Hv3&Hd3).
  assert (Hne : ByteRange.is_empty (Assignment.range a) = false).
  { apply ByteRange.is_empty_false. unfold ByteRange.mem in Hx. lia. }
  assert (Hq' : view q' = view q /\ completed q' = completed q /\
    deferred q' = deferred q ++ [DeferredWork.mk (Assignment.range a) until attempt]).
  { unfold q', defer. by rewrite Hne. }
  destruct Hq' as (Hvq&Hcq&Hdq).
  assert (Hhx : held_by p id x) by (exists a; auto).
  unfold unclaimed. rewrite (inv_acct _ _ Hi3).
  assert (Hnd : ~ done (release_due q' now).2 x).
  { unfold done. rewrite Hd3, Hcq, Hd. by apply (inv_worker_not_done _ _ Hi id). }
  assert (Hnh : forall i, ~ held_by (release_due q' now).2 i x).
  { intros i Hh. unfold held_by in Hh. rewrite Hv3, Hvq, Hv in Hh.
    destruct Hh as (b&Hb&Hxb). apply lookup_delete_Some in Hb as [Hne' Hb].
    apply Hne'. apply (inv_one_worker _ _ Hi id i x Hhx). exists b. auto. }
  set (d := DeferredWork.mk (Assignment.range a) until attempt) in *.
  assert (Hin : d ∈ deferred q') by (rewrite Hdq; apply elem_of_app; right; by left).
  assert (Hpost : postponed (release_due q' now).2 x <-> ~ until <= now).
  { unfold postponed. rewrite Hdef3. split.
    - intros (e&He&Hxe)%Exists_exists. apply list_elem_of_filter in He as [Hue He].
      rewrite (def_unique (deferred q') e d x (inv_def_disjoint _ _ Hi'') He Hin Hxe Hx) in Hue. exact Hue.
    - intros Hle. apply Exists_exists. exists d. split; [|done]. apply list_elem_of_filter. by split. }
  rewrite Hpost. split.
  - intros Hno. destruct (Z_le_gt_dec until now); [done|]. exfalso. apply Hno. right; right. lia.
  - intros Hle [?|[[i ?]|?]]; [done|by apply (Hnh i)|done].
Qed.

(** The scan for a claimable gap ends on every plan, whatever is deferred:
    one turn per deferred entry and one more are enough. *)
Theorem gap_scan_terminates (total0 : Z) (p : t) (now pos : Z) (fuel : nat)
    (Hw : RangeSet.wf (claimed p)) (HT : total0 <= u64_max) (Hf : (length (deferred p) < fuel)%nat) :
  exists r, gap_loop fuel p total0 now pos = Some r.
Proof.
  apply gap_loop_total; [done| |done]. eapply Nat.le_lt_trans; [|exact Hf]. unfold ahead.
  rewrite <- (filter_all (fun _ : DeferredWork.t => True) (deferred p)) at 2 by (by apply Forall_true).
  by apply filter_length_le.
Qed.

(** A destination whose largest operation is smaller than the policy's
    minimum piece makes the plan panic: after the controller clamps the maximum
    piece to that limit, claiming work outside the tail hits [u64::clamp] with
    its bounds crossed. *)
Theorem small_destination_limit_panics (total0 n : Z) (p : t) (est : Rate.t) (now : Z) (solo : bool) (slots : Z)
    (Hr : reachable exp total0 p) (Hn : 0 < n < min_piece (cfg p))
    (Hinc : exists x, 0 <= x < total0 /\ ~ done p x)
    (Htail : tail_threshold (cfg p) < total0 -% bytes_done p) :
  claim_with (clamp_max_piece p n) est now solo slots = None.
Proof.
  pose proof (reachable_inv exp total0 p Hr) as Hi. destruct (inv_cfg _ _ Hi) as [_ Hmin _ _ _].
  unfold clamp_max_piece. rewrite Z.gtb_ltb. case Z.ltb_spec; [|lia]. intros _. unfold claim_with. simpl.
  rewrite (inv_total _ _ Hi), (inv_multi _ _ Hi).
  destruct (RangeSet.is_complete (completed p) total0) eqn:Ec.
  { exfalso. destruct Hinc as (x&Hx&Hnd). apply Hnd. by apply (proj1 (is_complete_done total0 p Hi) Ec). }
  unfold piece_len_for. simpl. unfold bytes_done in Htail. case Z.leb_spec; [lia|]. intros _. simpl.
  unfold checked_clamp. case Z.leb_spec; [lia|done].
Qed.
End theorems.

(** [align_up] is the least multiple of the alignment not below its
    argument, within one alignment of it. A claim's end, however, is never moved
    by [snap_end]: the aligned end is capped by the end it started from. *)
Theorem alignment_correct (v align : Z) (r : ByteRange.t) (total0 : Z)
    (Hv : 0 <= v) (Ha : 0 < align) (Hs : v + align <= u64_max)
    (Hr : 0 <= ByteRange.start r < ByteRange.end_ r) (Ht : ByteRange.end_ r <= total0)
    (Hts : total0 + align <= u64_max) :
  (align | align_up v align) /\ v <= align_up v align /\
  (forall m, (align | m) -> v <= m -> align_up v align <= m) /\
  snap_end r align total0 = r.
Proof.
  destruct (align_up_spec v align Hv ltac:(lia) Hs) as [Hb Hd].
  assert (Hdiv : (align | align_up v align)).
  { destruct (Z.eq_dec align 1) as [->|]; [apply Z.divide_1_l|apply Hd; lia]. }
  split_and!; [done|lia| |apply snap_end_id; lia].
  intros m [k ->] Hm. destruct Hdiv as [j Hj]. rewrite Hj in *.
  assert (j <= k \/ k + 1 <= j) as [?|?] by lia; [nia|]. nia.
Qed.

(** ** Witnesses on a 64 MiB + 1 MiB artifact with the default policy *)

#[local] Existing Instance Counter.lib.

Module Sample.

Definition exp0 : f64 -> f64 := fun _ => f64_zero.
Definition size : Z := 65 * MIB.
Definition plan0 : t (L := Counter.lib) :=
  SegmentPlan.new (Some size) RangeSet.empty SegmentationPolicy_default (from_secs 3) 0.

Lemma cfg0_ok : cfg_ok size SegmentationPolicy_default.
Proof. split; vm_compute; repeat split; discriminate. Qed.

Lemma reach0 : reachable exp0 size plan0.
Proof.
  apply reach_new; [apply cfg0_ok|apply RangeSet.empty_wf|]. intros x Hx. by apply RangeSet.mem_empty in Hx.
Qed.

Definition claim_op (solo : bool) : plan_op (L := Counter.lib) := OpClaim Rate.COLD_START 0 solo 1.

Definition plan1 : t (L := Counter.lib) :=
  default plan0 (run_op exp0 plan0 (claim_op true)).

Lemma reach1 : reachable exp0 size plan1.
Proof.
  apply (reach_step exp0 size plan0 (claim_op true)); [apply reach0|done|]. unfold plan1.
  destruct (run_op_inv exp0 size plan0 (claim_op true) (reachable_inv _ _ _ reach0) I) as (p&->&_). done.
Qed.

(** The only worker's key. *)
Definition id1 : key (SlotMapLib := Counter.lib) := 1%N.

(** Which answer a claim gave, and about which victim. *)
Definition answer (r : option (Claim (L := Counter.lib) * t (L := Counter.lib))) : option (Z * N) :=
  match r with
  | Some (Fresh _, _) => Some (0, 0%N)
  | Some (Stolen _ v, _) => Some (1, v)
  | Some (Saturated, _) => Some (2, 0%N)
  | Some (Complete, _) => Some (3, 0%N)
  | None => None
  end.

Lemma fresh0 : answer (claim_with plan0 Rate.COLD_START 0 true 1) = Some (0, 0%N).
Proof. vm_compute. reflexivity. Qed.

Lemma steal1 : answer (claim_with plan1 Rate.COLD_START (from_secs 10) false 1) = Some (1, id1).
Proof. vm_compute. reflexivity. Qed.

(** The range of the worker. *)
Definition range1 : option (Z * Z) :=
  option_map (fun a => (ByteRange.start (Assignment.range a), ByteRange.end_ (Assignment.range a)))
    (view plan1 !! id1).

Lemma range1_eq : range1 = Some (0, size).
Proof. vm_compute. reflexivity. Qed.

Lemma worker1 : exists a, view plan1 !! id1 = Some a /\ ByteRange.mem 5 (Assignment.range a).
Proof.
  pose proof range1_eq as H. unfold range1 in H. destruct (view plan1 !! id1) as [a|]; [|done].
  exists a. split; [done|]. simpl in H. unfold ByteRange.mem. injection H as -> ->. vm_compute. split; [discriminate|reflexivity].
Qed.
End Sample.

(** A plan with a hole before its verified bytes that is switched to one stream,
    as when a server turns out to ignore ranges. *)
Module Holed.
Definition ranges0 : RangeSet.t := RangeSet.insert (RangeSet.insert RangeSet.empty (ByteRange.new 0 100)) (ByteRange.new 200 300).
Definition holed : t (L := Counter.lib) :=
  set_single_stream (SegmentPlan.new (Some Sample.size) ranges0 SegmentationPolicy_default (from_secs 3) 0) true.
Definition claimed1 : option (Claim (L := Counter.lib) * t (L := Counter.lib)) := claim_with holed Rate.COLD_START 0 false 1.

Lemma streaming0 : streaming Sample.exp0 holed.
Proof. apply stream_new. by right. Qed.

Lemma claimed1_fresh : exists p', claimed1 = Some (Fresh Sample.id1, p').
Proof.
  assert (H : match claimed1 with Some (Fresh i, _) => bool_decide (i = Sample.id1) | _ => false end = true) by (vm_compute; reflexivity).
  destruct claimed1 as [[c p']|]; [|discriminate H]. destruct c as [i| | |]; try discriminate H.
  apply bool_decide_eq_true in H as ->. by exists p'.
Qed.
End Holed.

(** Offset 250 is verified and fetched again. *)
Lemma every_byte_has_one_holder_witness :
  (0 <= 5 < Sample.size /\ forall i j, held_by Sample.plan1 i 5 -> held_by Sample.plan1 j 5 -> i = j) /\
  exists p', Holed.claimed1 = Some (Fresh Sample.id1, p') /\ RangeSet.covered_len (completed p') = 200 /\ held_by p' Sample.id1 250.
Proof.
  split.
  - assert (Hx : 0 <= 5 < Sample.size) by (vm_compute; split; [discriminate|reflexivity]).
    split; [exact Hx|]. exact (proj1 (proj2 (proj1 (every_byte_has_one_holder Sample.exp0 Sample.plan1) Sample.size 5 Sample.reach1 Hx))).
  - destruct Holed.claimed1_fresh as [p' Hc]. exists p'. split; [exact Hc|].
    destruct (proj2 (every_byte_has_one_holder Sample.exp0 Holed.holed) Holed.streaming0) as [_ H].
    destruct (H Rate.COLD_START 0 false 1 Sample.id1 p' Hc) as (_&Hd&Hh). rewrite Hd. split; [vm_compute; reflexivity|].
    apply Hh. vm_compute. split; [discriminate|reflexivity].
Defined.

Lemma plan_operations_return_witness :
  (exists p', run_op Sample.exp0 Sample.plan1 (Sample.claim_op false) = Some p' /\ reachable Sample.exp0 Sample.size p') /\
  (exists p', run_op Sample.exp0 Holed.holed (OpClampMaxPiece 1) = Some p' /\ streaming Sample.exp0 p').
Proof.
  split.
  - apply (proj1 (plan_operations_return Sample.exp0 Sample.plan1 _) Sample.size Sample.reach1). exact I.
  - apply (proj2 (plan_operations_return Sample.exp0 Holed.holed _) Holed.streaming0).
Defined.

Lemma claim_exclusive_work_conserving_witness :
  exists id p', claim_with Sample.plan0 Rate.COLD_START 0 true 1 = Some (Fresh id, p') /\
    exists x, 0 <= x < Sample.size /\ unclaimed Sample.plan0 x.
Proof.
  pose proof Sample.fresh0 as Ha.
  destruct (claim_with Sample.plan0 Rate.COLD_START 0 true 1) as [[c p']|] eqn:E; [|discriminate Ha].
  pose proof (claim_exclusive_work_conserving Sample.exp0 Sample.size Sample.plan0 p' Rate.COLD_START 0 true 1 c
    Sample.reach0 E) as [H _].
  destruct c as [id|? ?| |]; [|discriminate Ha..].
  exists id, p'. split; [reflexivity|]. apply H. by exists id.
Defined.

Lemma steal_respects_frontier_witness :
  exists p' thief v cut,
    claim_with Sample.plan1 Rate.COLD_START (from_secs 10) false 1 = Some (Stolen thief Sample.id1, p') /\
    view Sample.plan1 !! Sample.id1 = Some v /\ protected v + min_split Sample.plan1 <= cut.
Proof.
  pose proof Sample.steal1 as Ha.
  destruct (claim_with Sample.plan1 Rate.COLD_START (from_secs 10) false 1) as [[c p']|] eqn:E; [|discriminate Ha].
  destruct c as [?|thief victim| |]; [discriminate Ha| |discriminate Ha..].
  injection Ha as ->.
  destruct (steal_respects_frontier Sample.exp0 Sample.size Sample.plan1 p' Rate.COLD_START (from_secs 10) 1
    thief Sample.id1 Sample.reach1 E) as (v&cut&Hv&_&_&Hc&_).
  exists p', thief, v, cut. split; [reflexivity|]. split; [exact Hv|exact Hc].
Defined.

Lemma only_verified_bytes_complete_witness :
  let o := OpVerified Sample.id1 (ByteRange.new 0 10) in
  exists p', run_op Sample.exp0 Sample.plan1 o = Some p' /\ done p' 5 /\
    (done Sample.plan1 5 \/
     exists id r a, o = OpVerified id r /\ view Sample.plan1 !! id = Some a /\
       ByteRange.mem 5 (Assignment.range a) /\
       (ByteRange.mem 5 r \/ RangeSet.mem 5 (Assignment.committed_ranges a))).
Proof.
  assert (Hw : ByteRange.wf (ByteRange.new 0 10)) by (vm_compute; repeat split; discriminate).
  assert (Hd : done (verified Sample.plan1 Sample.id1 (ByteRange.new 0 10)) 5).
  { destruct Sample.worker1 as (a&Ha&Hm).
    destruct (verified_spec Sample.size Sample.plan1 Sample.id1 (ByteRange.new 0 10)
      (reachable_inv _ _ _ Sample.reach1) Hw) as [_ Hv].
    rewrite Ha in Hv. destruct Hv as (_&_&Hv). apply Hv. right; left. split; [|exact Hm].
    vm_compute. split; [discriminate|reflexivity]. }
  eexists. split; [reflexivity|]. split; [exact Hd|].
  exact (only_verified_bytes_complete Sample.exp0 Sample.size Sample.plan1
    (verified Sample.plan1 Sample.id1 (ByteRange.new 0 10)) (OpVerified Sample.id1 (ByteRange.new 0 10))
    5 Sample.reach1 Hw eq_refl Hd).
Defined.

Lemma failed_range_comes_back_witness :
  unclaimed (release_due (retry_later Sample.plan1 Sample.id1 100 1) 99).2 5 <-> 100 <= 99.
Proof.
  destruct Sample.worker1 as (a&Ha&Hm).
  exact (proj2 (failed_range_comes_back Sample.exp0 Sample.size Sample.plan1 Sample.id1 a 100 1 99
    Sample.reach1 Ha) 5 Hm).
Defined.

Lemma gap_scan_terminates_witness :
  exists r, gap_loop 1 Sample.plan0 Sample.size 0 0 = Some r.
Proof.
  apply (gap_scan_terminates Sample.size Sample.plan0 0 0 1).
  - exact RangeSet.empty_wf.
  - vm_compute. discriminate.
  - simpl. lia.
Defined.

Lemma small_destination_limit_panics_witness :
  claim_with (clamp_max_piece Sample.plan0 4096) Rate.COLD_START 0 false 4 = None.
Proof.
  apply (small_destination_limit_panics Sample.exp0 Sample.size 4096 Sample.plan0).
  - exact Sample.reach0.
  - vm_compute. split; reflexivity.
  - exists 0. split; [vm_compute; split; [discriminate|reflexivity]|]. intros H. by apply RangeSet.mem_empty in H.
  - reflexivity.
Defined.

Lemma alignment_correct_witness :
  align_up 100 64 = 128 /\ snap_end (ByteRange.new 0 100) 64 1000 = ByteRange.new 0 100.
Proof.
  split; [reflexivity|]. apply (alignment_correct 100 64 (ByteRange.new 0 100) 1000);
    vm_compute; repeat split; discriminate || reflexivity.
Defined.
