(* ===== verification/PlanFrame.v ===== *)
(** * What every plan keeps, whatever its policy.

    [SegmentSpec] proves the plan correct for policies whose numbers make sense.
    The controller also runs plans of other policies, and in single-stream mode.
    For all of them the operations keep the verified bytes within the artifact
    and never give a verified byte back: [evolves] is that promise, and what the
    theorems about the controller use of a plan. *)

From S2P Require Import Prelude Ranges Float Rates Policy SlotMap Segment SegmentSpec.
Local Open Scope Z_scope.

Section frame.
Context {L : SlotMapLib} {HL : SlotMapLaws L}.
Import SegmentPlan.

(** The end of the artifact, as far as it is known. *)
Definition extent (p : t) : Z := default u64_max (total p).

Definition asg_fits (e : Z) (a : Assignment.t) : Prop :=
  0 <= ByteRange.start (Assignment.range a) /\ ByteRange.end_ (Assignment.range a) <= e /\
  Assignment.committed_ranges a = RangeSet.empty.

Record fits (p : t) : Prop := {
  ft_total : in_u64 (extent p);
  ft_wf : RangeSet.wf (completed p);
  ft_bound : forall x, RangeSet.mem x (completed p) -> 0 <= x < extent p;
  ft_asg : map_Forall (fun _ => asg_fits (extent p)) (sm_view (assignments p)) }.

Record evolves (p p' : t) : Prop := {
  ev_total : total p' = total p;
  ev_fits : fits p -> fits p';
  ev_mono : fits p -> forall x, RangeSet.mem x (completed p) -> RangeSet.mem x (completed p') }.

#[export] Instance evolves_preorder : PreOrder evolves.
Proof.
  split.
  - by split.
  - intros p q r [T1 F1 M1] [T2 F2 M2]. split; [by rewrite T2|auto|auto].
Qed.

(** Steps that leave the verified bytes alone. *)
Lemma evolves_still p p' : total p' = total p -> completed p' = completed p ->
  (fits p -> map_Forall (fun _ => asg_fits (extent p)) (sm_view (assignments p'))) -> evolves p p'.
Proof.
  intros Ht Hc Ha. split; [done| |by rewrite Hc]. intros Hf. pose proof (Ha Hf) as Ha'. destruct Hf.
  assert (He : extent p' = extent p) by (unfold extent; by rewrite Ht).
  split; rewrite ?Hc, ?He; done.
Qed.

Lemma evolves_same p p' : total p' = total p -> completed p' = completed p -> assignments p' = assignments p -> evolves p p'.
Proof. intros Ht Hc Ha. apply evolves_still; [done..|]. rewrite Ha. apply ft_asg. Qed.

Lemma evolves_complete p p' : fits p -> evolves p p' -> is_complete p = true -> is_complete p' = true.
Proof.
  intros Hf [Ht Hf' Hm]. specialize (Hf' Hf). specialize (Hm Hf). unfold is_complete. rewrite Ht.
  destruct (total p) as [n|] eqn:E; [|done]. destruct Hf as [H1 H2 H3 _], Hf' as [_ H2' H3' _].
  unfold extent, in_u64 in *. rewrite ?Ht, E in *. simpl in *.
  rewrite !RangeSet.is_complete_spec by (done || lia). auto.
Qed.

(** *** Claims *)

Lemma fits_get p id a : fits p -> sm_get (assignments p) id = Some a -> asg_fits (extent p) a.
Proof. intros [_ _ _ H] Ha. rewrite sm_get_view in Ha. by apply (map_Forall_lookup_1 _ _ id a H). Qed.

Lemma push_evolves p r now ov id p' : 0 <= ByteRange.start r -> ByteRange.end_ r <= extent p ->
  push_assignment p r now ov = (id, p') -> evolves p p'.
Proof.
  intros Hs He Hp. apply push_view in Hp as (_&Hv&Ht&_&_&Hc&_).
  apply evolves_still; [done..|]. intros [_ _ _ Ha]. unfold view in Hv. rewrite Hv. by apply map_Forall_insert_2.
Qed.

(** One assignment changed in place. *)
Lemma alter_evolves p m : (forall i a', sm_view m !! i = Some a' -> exists a, sm_view (assignments p) !! i = Some a /\
    (fits p -> asg_fits (extent p) a -> asg_fits (extent p) a')) -> evolves p (with_assignments p m).
Proof.
  intros H. apply evolves_still; [done..|]. intros Hf i a' Hi. destruct (H _ _ Hi) as (a&Ha&Hk).
  apply Hk; [done|]. by apply (ft_asg _ Hf i).
Qed.

Lemma modify_evolves p id f : (forall a, asg_fits (extent p) a -> asg_fits (extent p) (f a)) ->
  evolves p (with_assignments p (sm_modify (assignments p) id f)).
Proof.
  intros Hf. apply alter_evolves. intros i a'. rewrite sm_modify_view. destruct (decide (i = id)) as [->|Hn].
  - rewrite lookup_alter_eq. destruct (sm_view (assignments p) !! id) as [a|]; [|done]. intros [= <-]. eauto.
  - rewrite lookup_alter_ne by done. eauto.
Qed.

Lemma first_gap_bounds s from limit g : RangeSet.first_gap s from limit = Some g ->
  0 <= from -> 0 <= ByteRange.start g /\ ByteRange.end_ g <= limit.
Proof.
  unfold RangeSet.first_gap. rewrite Z.geb_leb. case Z.leb_spec; [done|]. intros Hfl.
  destruct (RangeSet.ranges s !! _) as [c|] eqn:E.
  - rewrite Z.gtb_ltb, Z.geb_leb. case Z.ltb_spec; [intros; simplify_eq/=; lia|].
    case Z.leb_spec; [done|]. intros ? ? [= <-] ?. apply partition_point_lookup in E. apply Z.leb_gt in E. simpl.
    destruct (RangeSet.ranges s !! _); simpl; lia.
  - intros [= <-]. simpl. lia.
Qed.

Lemma gap_loop_bounds fuel p n now pos g : gap_loop fuel p n now pos = Some (Some g) ->
  0 <= pos -> 0 <= ByteRange.start g /\ ByteRange.end_ g <= n.
Proof.
  revert pos. induction fuel as [|fuel IH]; intros pos; [done|]. cbn [gap_loop].
  case Z.ltb_spec; [|done]. intros _. destruct (RangeSet.first_gap _ _ _) as [gap|] eqn:E; [|done].
  destruct (negb _).
  - intros [= ->] Hp. by apply (first_gap_bounds _ _ _ _ E).
  - intros H Hp. apply (IH _ H). apply first_gap_bounds in E; [|done]. u64_lia.
Qed.

Lemma snap_bounds r align n : ByteRange.start (snap_end r align n) = ByteRange.start r /\
  ByteRange.end_ (snap_end r align n) <= n.
Proof. unfold snap_end. simpl. lia. Qed.

Lemma claim_gap_evolves p n piece gap now solo slots c p' : total p = Some n -> 0 <= ByteRange.start gap ->
  claim_gap p n piece gap now solo slots = (c, p') -> evolves p p'.
Proof.
  intros Ht Hg. unfold claim_gap.
  set (r := ByteRange.truncated_to _ _). destruct (snap_bounds r (alignment (cfg p)) n) as [Hs He].
  destruct (push_assignment _ _ _ _) as [id p1] eqn:Ep. intros [= _ <-].
  apply push_evolves in Ep; [|by rewrite Hs|unfold extent; rewrite Ht; done].
  etrans; [exact Ep|]. by apply modify_evolves.
Qed.

Lemma cut_point_inside p est a cut : cut_point p est a = Some (Some cut) ->
  Assignment.cursor a < cut < ByteRange.end_ (Assignment.range a).
Proof.
  unfold cut_point, cut_between. destruct (_ <? _); [done|]. destruct (checked_clamp _ _ _); [|done].
  rewrite Z.gtb_ltb. destruct (_ <? _) eqn:E1; simpl; [|done].
  destruct (_ <? ByteRange.end_ _) eqn:E2; [|done]. intros [= <-]. apply Z.ltb_lt in E1, E2. lia.
Qed.

Lemma cursor_start a : Assignment.committed_ranges a = RangeSet.empty ->
  ByteRange.start (Assignment.range a) < ByteRange.end_ (Assignment.range a) ->
  Assignment.cursor a = ByteRange.start (Assignment.range a).
Proof.
  intros Hc Hl. unfold Assignment.cursor. rewrite Hc. unfold RangeSet.first_gap. rewrite Z.geb_leb.
  case Z.leb_spec; [lia|]. done.
Qed.

(** Nothing committed: the cursor is at the start, or the range is empty. *)
Lemma cursor_fits e a : asg_fits e a -> 0 <= Assignment.cursor a \/ ByteRange.end_ (Assignment.range a) <= Assignment.cursor a.
Proof.
  intros (H0&_&Hc). destruct (decide (ByteRange.start (Assignment.range a) < ByteRange.end_ (Assignment.range a))).
  - left. by rewrite cursor_start.
  - right. unfold Assignment.cursor. rewrite Hc. unfold RangeSet.first_gap. rewrite Z.geb_leb. case Z.leb_spec; lia.
Qed.

(** The controller's plans note no commits, so that every cut of theirs is above
    what was committed. *)
Lemma fits_cuts_above_commits p ids : fits p -> cuts_above_commits p ids.
Proof.
  intros Hf id a n x _ Ha _ Hx. destruct (ft_asg _ Hf _ _ Ha) as (_&_&Hc). rewrite Hc in Hx. by apply RangeSet.mem_empty in Hx.
Qed.

Lemma cut_at_fits e a cut : asg_fits e a -> cut < ByteRange.end_ (Assignment.range a) -> asg_fits e (Assignment.cut_at a cut).
Proof. intros (?&?&?) ?. split_and!; simpl; [done|lia|done]. Qed.

Lemma set_evolves p id a b : sm_get (assignments p) id = Some a ->
  (fits p -> asg_fits (extent p) a -> asg_fits (extent p) b) ->
  evolves p (with_assignments p (sm_set (assignments p) id b)).
Proof.
  rewrite sm_get_view. intros Ha Hk. apply alter_evolves. intros i a'. rewrite sm_set_view by eauto.
  destruct (decide (i = id)) as [->|Hn]; [rewrite lookup_insert_eq; intros [= <-]|rewrite lookup_insert_ne by done]; eauto.
Qed.

Lemma contiguous_prefix_nonneg s : RangeSet.wf s -> 0 <= RangeSet.contiguous_prefix s.
Proof.
  intros (Hn&_&_). unfold RangeSet.contiguous_prefix. destruct (RangeSet.ranges s) as [|r l]; [done|].
  cbn in Hn. case Z.eqb_spec; lia.
Qed.

(** The single worker of a plan without parallelism. *)
Lemma push_prefix_evolves p e now id p' : e = extent p ->
  push_assignment p (ByteRange.new (RangeSet.contiguous_prefix (completed p)) e) now 0 = (id, p') -> evolves p p'.
Proof.
  intros -> Hp. apply push_view in Hp as (_&Hv&Ht&_&_&Hc&_). apply evolves_still; [done..|].
  intros Hf. unfold view in Hv. rewrite Hv. apply map_Forall_insert_2; [|apply Hf].
  split_and!; [apply contiguous_prefix_nonneg, Hf|done|done].
Qed.

(** The old worker keeps the head, the new one takes the tail. *)
Lemma claim_steal_evolves p est now c p' : claim_steal p est now = Some (c, p') -> evolves p p'.
Proof.
  unfold claim_steal. destruct (plan_steal p est now) as [[[victim cut]|]|] eqn:E; [|intros [= _ <-]; reflexivity|done].
  apply plan_steal_spec in E as (v&Hv&_&_&Hc%cut_point_inside). unfold view in Hv.
  rewrite sm_get_view, Hv. destruct (push_assignment _ _ _ _) as [id p2] eqn:Ep. intros [= _ <-].
  apply push_view in Ep as (_&Hv2&Ht&_&_&Hcm&_). unfold view in Hv2. cbn in Hv2, Ht, Hcm.
  apply evolves_still; [done..|]. intros Hf. pose proof (ft_asg _ Hf _ _ Hv) as Ha.
  rewrite Hv2, sm_set_view by eauto. repeat apply map_Forall_insert_2; [| |apply Hf].
  - destruct Ha as (H0&He&Hr). cbn. split_and!; [|done|done].
    simpl. destruct (cursor_fits _ _ (conj H0 (conj He Hr))); lia.
  - apply cut_at_fits; [done|lia].
Qed.

Lemma claim_with_evolves p est now solo slots c p' : claim_with p est now solo slots = Some (c, p') -> evolves p p'.
Proof.
  unfold claim_with. destruct (total p) as [n|] eqn:Ht.
  - destruct (RangeSet.is_complete _ _); [intros [= _ <-]; reflexivity|].
    destruct (single_stream p).
    + destruct (negb _); [intros [= _ <-]; reflexivity|]. destruct (_ >=? n); [intros [= _ <-]; reflexivity|].
      destruct (push_assignment _ _ _ _) as [id p1] eqn:Ep. intros [= _ <-]. revert Ep. apply push_prefix_evolves.
      unfold extent. by rewrite Ht.
    + destruct (piece_len_for _ _ _) as [piece|]; [|done]. unfold next_claimable_gap.
      destruct (gap_loop _ _ _ _ _) as [[g|]|] eqn:Eg; simpl; [intros [= H]|..].
      * apply gap_loop_bounds in Eg; [|done]. revert H. apply claim_gap_evolves; [done|lia].
      * destruct solo; [intros [= _ <-]; reflexivity|]. intros H. by apply claim_steal_evolves in H.
      * destruct solo; [intros [= _ <-]; reflexivity|]. intros H. by apply claim_steal_evolves in H.
  - destruct (negb _); [intros [= _ <-]; reflexivity|].
    destruct (push_assignment _ _ _ _) as [id p1] eqn:Ep. intros [= _ <-]. revert Ep. apply push_prefix_evolves.
    unfold extent. by rewrite Ht.
Qed.

(** *** Leaving, waiting, finishing *)

Lemma remove_evolves p id c : evolves p (with_claimed (with_assignments p (sm_remove (assignments p) id).2) c).
Proof.
  apply evolves_still; [done..|]. intros Hf. cbn. rewrite sm_remove_view. apply map_Forall_delete, Hf.
Qed.

Lemma abandon_evolves p id : evolves p (abandon p id).2.
Proof.
  unfold abandon. pose proof (remove_evolves p id) as H. destruct (sm_remove _ _) as [[a|] m]; [apply H|reflexivity].
Qed.

Lemma defer_evolves p r until0 att : evolves p (defer p r until0 att).
Proof. unfold defer. destruct (ByteRange.is_empty r); [reflexivity|]. by apply evolves_same. Qed.

Lemma release_due_evolves p now : evolves p (release_due p now).2.
Proof. unfold release_due. destruct (release_loop _ _ _ _ _) as [[c m] keep]. by apply evolves_same. Qed.

Lemma verified_evolves p id r : ByteRange.wf r -> evolves p (on_response_verified p id r).
Proof.
  intros Hr. unfold on_response_verified. destruct (ByteRange.is_empty r); [reflexivity|].
  destruct (sm_get _ _) as [a|] eqn:Ea; [|reflexivity]. destruct (ByteRange.is_empty (clip r a)) eqn:Ec; [reflexivity|].
  apply ByteRange.is_empty_false in Ec.
  assert (Hc : fits p -> ByteRange.wf (clip r a) /\ ByteRange.end_ (clip r a) <= extent p).
  { intros Hf. destruct (fits_get _ _ _ Hf Ea) as (H0&He&_). pose proof (ft_total _ Hf) as Hu.
    revert Ec. unfold clip. destruct (ByteRange.intersection r (Assignment.range a)) as [u|] eqn:Eu; simpl; [|lia].
    apply ByteRange.intersection_Some in Eu as (E1&E2&E3). unfold ByteRange.wf in *. u64_lia. }
  split; [done|..].
  - intros Hf. destruct (Hc Hf) as [Hw He]. pose proof (ft_bound _ Hf) as Hb.
    destruct (RangeSet.insert_wf_mem (completed p) _ (ft_wf _ Hf) Hw) as [Hi Hm].
    split; cbn; [apply Hf|done| |apply Hf]. intros x [Hx|Hx]%Hm; [by apply Hb|]. unfold ByteRange.mem, ByteRange.wf in *.
    unfold extent in *. cbn. lia.
  - intros Hf x Hx. cbn. apply RangeSet.insert_wf_mem; [apply Hf|by apply Hc|by left].
Qed.

Lemma finish_evolves p id : evolves p (finish_verified p id).2.
Proof.
  unfold finish_verified. pose proof (sm_remove_value _ (assignments p) id) as Hv.
  pose proof (sm_remove_view _ (assignments p) id) as Hm.
  destruct (sm_remove _ _) as [[a|] m]; cbn in *; [|reflexivity].
  assert (He : fits p -> RangeSet.iter (Assignment.committed_ranges a) = []).
  { intros Hf. by destruct (ft_asg _ Hf id a (eq_sym Hv)) as (_&_&->). }
  split; cbn; [done|..].
  - intros Hf. rewrite (He Hf). cbn. destruct Hf. split; try done. cbn. rewrite Hm. by apply map_Forall_delete.
  - intros Hf x. by rewrite (He Hf).
Qed.

(** *** Rebalancing and detaching *)

Lemma rebalance_one_evolves p id : evolves p (rebalance_one p id).1.
Proof.
  unfold rebalance_one. destruct (sm_get _ _) as [a|] eqn:Ea; [|reflexivity].
  destruct (rebalance_cut p a) as [n|] eqn:Ec; [|reflexivity]. cbn.
  apply rebalance_cut_range in Ec.
  transitivity (with_assignments p (sm_set (assignments p) id (Assignment.cut_at a n))); [|by apply evolves_same].
  apply (set_evolves _ _ _ _ Ea). intros _ Ha. apply cut_at_fits; [done|lia].
Qed.

Lemma rebalance_evolves p now : evolves p (rebalance_stragglers p now).1.
Proof.
  unfold rebalance_stragglers. destruct (_ <? 2); [reflexivity|].
  assert (H : forall ids acc, evolves p acc.1 ->
    evolves p (foldl (fun acc id => let '(p', cuts) := rebalance_one acc.1 id in (p', acc.2 ++ cuts)) acc ids).1).
  { induction ids as [|id ids IH]; intros acc Ha; [done|]. cbn [foldl]. apply IH.
    pose proof (rebalance_one_evolves acc.1 id) as H. destruct (rebalance_one acc.1 id) as [q cuts]. by etrans. }
  by apply H.
Qed.

(** *** New plans *)

Lemma new_fits t s c d o : in_u64 (default u64_max t) -> RangeSet.wf s ->
  (forall x, RangeSet.mem x s -> 0 <= x < default u64_max t) -> fits (new t s c d o).
Proof. intros Ht Hw Hb. split; try done. cbn. rewrite sm_view_new. apply map_Forall_empty. Qed.

Lemma fits_same p p' : total p' = total p -> completed p' = completed p -> assignments p' = assignments p ->
  fits p -> fits p'.
Proof. intros. by apply (evolves_same p). Qed.
End frame.
