(* ===== verification/Credits.v ===== *)
(** * Memory and destination-capacity accounting ([storage/transfer.rs],
    [storage/capacity.rs]).

    Two counting disciplines bound what is in flight: a byte budget taken by one
    compare-and-swap, with a reserve for the worker at the artifact's frontier,
    and a pool of permits per destination taken one at a time from a channel. *)

From S2P Require Import Prelude Errors.
Local Open Scope Z_scope.

(** ** The memory budget *)

Module MemoryBudget.

Inductive ProgressClass := Frontier | Speculative.

#[export] Instance ProgressClass_eq_dec : EqDecision ProgressClass.
Proof. solve_decision. Defined.

Record t := mk { limit : Z; used : Z; reserve : Z }.

Definition with_reserve (limit0 reserve0 : Z) : t :=
  mk (Z.max limit0 1) 0 (Z.min reserve0 limit0).

Definition new (limit0 : Z) : t := with_reserve limit0 0.

Definition available (b : t) : Z := u64_sat_sub (limit b) (used b).

(** How far a class may fill the budget for a request of [bytes]. *)
Definition effective_limit (b : t) (bytes : Z) (class : ProgressClass) : Z :=
  match class with
  | Frontier => limit b
  | Speculative =>
      let usable := limit b -% reserve b in
      if bytes >? usable then bytes else usable
  end.

(** One turn of the loop of [acquire_classed] that finds the counter unchanged:
    an error, a grant, or [inr None] for a wait. *)
Definition try_acquire (b : t) (bytes : Z) (class : ProgressClass) : result (option t) :=
  if bytes >? limit b then inl (Config "payload exceeds the memory budget")
  else
    let headroom := u64_sat_sub (effective_limit b bytes class) (used b) in
    if bytes <=? headroom then inr (Some (mk (limit b) (used b +% bytes) (reserve b)))
    else inr None.

(** [Drop for MemoryPermit]. *)
Definition release (b : t) (bytes : Z) : t := mk (limit b) (used b -% bytes) (reserve b).

(** The budget with the permits outstanding. *)
Record system := mkSystem { budget : t; permits : list (Z * ProgressClass) }.

Inductive step : system -> system -> Prop :=
| step_acquire s bytes class b' : 0 <= bytes ->
    try_acquire (budget s) bytes class = inr (Some b') ->
    step s (mkSystem b' ((bytes, class) :: permits s))
| step_release s ps1 bytes class ps2 :
    permits s = ps1 ++ (bytes, class) :: ps2 ->
    step s (mkSystem (release (budget s) bytes) (ps1 ++ ps2)).

Inductive reachable (limit0 reserve0 : Z) : system -> Prop :=
| reach_init : reachable limit0 reserve0 (mkSystem (with_reserve limit0 reserve0) [])
| reach_step s s' : reachable limit0 reserve0 s -> step s s' -> reachable limit0 reserve0 s'.

Definition total_bytes (ps : list (Z * ProgressClass)) : Z := foldr (fun p acc => p.1 + acc) 0 ps.

Definition speculative_bytes (ps : list (Z * ProgressClass)) : Z :=
  total_bytes (filter (fun p => p.2 = Speculative) ps).

(** The permits, newest first: each non-empty speculative one that fits the
    unreserved area [usable] found room there beside the older ones. *)
Fixpoint keeps (usable : Z) (ps : list (Z * ProgressClass)) : Prop :=
  match ps with
  | [] => True
  | (b, c) :: old => (c = Speculative -> 0 < b <= usable -> b + total_bytes old <= usable) /\ keeps usable old
  end.

Record inv (limit0 reserve0 : Z) (s : system) : Prop := {
  inv_limit : limit (budget s) = Z.max limit0 1;
  inv_reserve : reserve (budget s) = Z.min reserve0 limit0;
  inv_used : used (budget s) = total_bytes (permits s);
  inv_nonneg : Forall (fun p => 0 <= p.1) (permits s);
  inv_bound : total_bytes (permits s) <= limit (budget s);
  inv_keeps : keeps (limit (budget s) - reserve (budget s)) (permits s) }.

Lemma total_bytes_app a b : total_bytes (a ++ b) = total_bytes a + total_bytes b.
Proof. induction a as [|x a IH]; simpl; lia. Qed.

Lemma total_bytes_nonneg ps : Forall (fun p => 0 <= p.1) ps -> 0 <= total_bytes ps.
Proof. induction 1; simpl; lia. Qed.

Lemma keeps_remove usable ps1 p ps2 : 0 <= p.1 -> keeps usable (ps1 ++ p :: ps2) -> keeps usable (ps1 ++ ps2).
Proof.
  intros Hp. induction ps1 as [|[b c] ps1 IH]; simpl; [destruct p; tauto|]. intros [H1 H2]. split; [|auto].
  intros Hc Hb. specialize (H1 Hc Hb). rewrite total_bytes_app in *. simpl in H1. lia.
Qed.

Lemma speculative_le ps : Forall (fun p => 0 <= p.1) ps -> speculative_bytes ps <= total_bytes ps.
Proof.
  unfold speculative_bytes. induction 1 as [|[b c] ps Hb _ IH]; [done|]. rewrite filter_cons.
  simpl in *. destruct (decide (c = Speculative)); simpl; lia.
Qed.

Lemma keeps_speculative usable ps : Forall (fun p => 0 <= p.1) ps -> 0 <= usable -> keeps usable ps ->
  Forall (fun p => p.2 = Speculative -> p.1 <= usable) ps -> speculative_bytes ps <= usable.
Proof.
  unfold speculative_bytes. intros Hnn Hu. induction Hnn as [|[b c] ps Hb Hnn IH]; simpl; [done|].
  intros [H1 H2] [Hx Hf]%Forall_cons. rewrite filter_cons. simpl in *. destruct (decide (c = Speculative)) as [->|].
  - simpl. pose proof (speculative_le ps Hnn). unfold speculative_bytes in *. specialize (Hx eq_refl).
    destruct (decide (b = 0)) as [->|]; [by apply IH|]. specialize (H1 eq_refl ltac:(lia)). lia.
  - by apply IH.
Qed.

Lemma try_acquire_granted b bytes class b' : try_acquire b bytes class = inr (Some b') ->
  0 <= bytes -> 0 <= used b <= limit b -> limit b <= u64_max -> 0 <= reserve b <= limit b ->
  b' = mk (limit b) (used b + bytes) (reserve b) /\ used b + bytes <= limit b /\
  (class = Speculative -> 0 < bytes <= limit b - reserve b -> used b + bytes <= limit b - reserve b).
Proof.
  unfold try_acquire. rewrite Z.gtb_ltb. case Z.ltb_spec; [done|]. intros Hl. case Z.leb_spec; [|done].
  intros Hh [= <-] Hb Hu Hm Hr. unfold u64_sat_sub, effective_limit in Hh.
  destruct class; rewrite ?Z.gtb_ltb in Hh.
  - rewrite u64_add_small by u64_lia. split_and!; [done|lia|done].
  - rewrite u64_sub_small in Hh by u64_lia.
    destruct (Z.ltb_spec (limit b - reserve b) bytes);
      (rewrite u64_add_small by u64_lia; split_and!; [done|lia|lia]).
Qed.

Lemma budget_reachable_inv limit0 reserve0 s : 0 <= limit0 <= u64_max -> 0 <= reserve0 ->
  reachable limit0 reserve0 s -> inv limit0 reserve0 s.
Proof.
  intros Hl Hr. induction 1 as [|s s' _ IH Hs].
  { split; simpl; try done; lia. }
  destruct IH as [I1 I2 I3 I4 I5 I6]. pose proof (total_bytes_nonneg _ I4) as H0.
  destruct Hs as [s bytes class b' Hb Ha|s ps1 bytes class ps2 Hp].
  - apply try_acquire_granted in Ha as (->&Hle&Hk); [|u64_lia..]. split; simpl; try done; try lia.
    + by constructor.
    + split; [|done]. intros Hc Hsz. specialize (Hk Hc Hsz). lia.
  - rewrite Hp in *. apply Forall_app in I4 as [I4a I4b]. apply Forall_cons in I4b as [I4x I4b].
    rewrite total_bytes_app in *. simpl in *.
    pose proof (total_bytes_nonneg _ I4a). pose proof (total_bytes_nonneg _ I4b).
    split; simpl; try done; rewrite ?total_bytes_app; try lia.
    + rewrite u64_sub_small by u64_lia. lia.
    + by apply Forall_app.
    + by eapply keeps_remove; [|exact I6].
Qed.
End MemoryBudget.

(** ** Destination-capacity credits *)

Module Capacity.

Definition BYTE_UNIT : Z := 256 * 1024.

Definition units_for (bytes total_units : Z) : Z :=
  if bytes =? 0 then 0
  else Z.max (Z.min (u64_div_ceil bytes BYTE_UNIT) total_units) 1.

(** A pool: a bounded channel holds one token per free permit. *)
Record Permits := mkPermits { tokens : Z; bound : Z }.

Definition Permits_new (count : Z) : Permits := mkPermits count count.

(** [recv_async] when a token is there, [try_send] for [n] tokens. *)
Definition take (p : Permits) : option Permits :=
  if 0 <? tokens p then Some (mkPermits (tokens p - 1) (bound p)) else None.

Definition release (p : Permits) (n : Z) : Permits :=
  mkPermits (Z.min (tokens p + n) (bound p)) (bound p).

Record Credits := mkCredits { max_inflight_bytes : Z; byte_units : Z; bytes : Permits; ops : Permits }.

Definition new (max_bytes max_ops : Z) : Credits :=
  let units := Z.max (max_bytes / BYTE_UNIT) 1 in
  mkCredits max_bytes units (Permits_new units) (Permits_new (Z.max max_ops 1)).

(** One call of [CapacityGuard::acquire] for an operation of [len] bytes: it
    waits for an operation permit, then for its byte units one by one, then
    holds the guard until it is dropped. *)
Inductive task :=
| WantsOp (len : Z)
| WantsUnits (got len : Z)
| Holds (len : Z).

Record system := mkSystem { credits : Credits; tasks : list task }.

Definition units_of (c : Credits) (len : Z) : Z := units_for len (byte_units c).

Definition with_pools (c : Credits) (b o : Permits) : Credits :=
  mkCredits (max_inflight_bytes c) (byte_units c) b o.

(** The calls run on several shards, so they interleave at every receive.
    Dropping a future that is still waiting runs no destructor of a guard: the
    guard does not exist yet. *)
Inductive step : system -> system -> Prop :=
| step_call s len : 0 <= len ->
    step s (mkSystem (credits s) (WantsOp len :: tasks s))
| step_op s ts1 len ts2 o :
    tasks s = ts1 ++ WantsOp len :: ts2 -> take (ops (credits s)) = Some o ->
    step s (mkSystem (with_pools (credits s) (bytes (credits s)) o) (ts1 ++ WantsUnits 0 len :: ts2))
| step_unit s ts1 got len ts2 b :
    tasks s = ts1 ++ WantsUnits got len :: ts2 -> got < units_of (credits s) len ->
    take (bytes (credits s)) = Some b ->
    step s (mkSystem (with_pools (credits s) b (ops (credits s))) (ts1 ++ WantsUnits (got + 1) len :: ts2))
| step_ready s ts1 got len ts2 :
    tasks s = ts1 ++ WantsUnits got len :: ts2 -> got = units_of (credits s) len ->
    step s (mkSystem (credits s) (ts1 ++ Holds len :: ts2))
| step_drop s ts1 len ts2 :
    tasks s = ts1 ++ Holds len :: ts2 ->
    step s (mkSystem (with_pools (credits s) (release (bytes (credits s)) (units_of (credits s) len))
                        (release (ops (credits s)) 1)) (ts1 ++ ts2))
| step_cancel s ts1 t ts2 :
    tasks s = ts1 ++ t :: ts2 -> (forall len, t ≠ Holds len) ->
    step s (mkSystem (credits s) (ts1 ++ ts2)).

Inductive steps : system -> system -> Prop :=
| steps_refl s : steps s s
| steps_cons s s' s'' : step s s' -> steps s' s'' -> steps s s''.

(** What a call has taken from the two pools. *)
Definition units_held (total : Z) (t : task) : Z :=
  match t with WantsOp _ => 0 | WantsUnits got _ => got | Holds len => units_for len total end.
Definition ops_held (t : task) : Z := match t with WantsOp _ => 0 | _ => 1 end.

(** The operations and the bytes in flight; an operation counts for at most
    the whole ceiling. *)
Definition op_inflight (t : task) : Z := match t with Holds _ => 1 | _ => 0 end.
Definition bytes_inflight (ceiling : Z) (t : task) : Z :=
  match t with Holds len => Z.min len ceiling | _ => 0 end.

Definition sum_by (f : task -> Z) (ts : list task) : Z := foldr (fun t acc => f t + acc) 0 ts.

(** A call that cannot move: the token it waits for is not there. *)
Definition waits (s : system) (t : task) : Prop :=
  match t with
  | WantsOp _ => tokens (ops (credits s)) = 0
  | WantsUnits got len => got < units_of (credits s) len /\ tokens (bytes (credits s)) = 0
  | Holds _ => False
  end.

Definition task_ok (total : Z) (t : task) : Prop :=
  match t with
  | WantsOp len => 0 <= len
  | WantsUnits got len => 0 <= len /\ 0 <= got <= units_for len total
  | Holds len => 0 <= len
  end.

Definition pool_ok (p : Permits) : Prop := 0 <= tokens p <= bound p.

(** Conservation, with the free and the held permits of each kind bounded by
    [u] and [o]. *)
Record inv (total u o : Z) (s : system) : Prop := {
  inv_total : byte_units (credits s) = total /\ 1 <= total;
  inv_free : pool_ok (bytes (credits s)) /\ pool_ok (ops (credits s));
  inv_tasks : Forall (task_ok total) (tasks s);
  inv_bsum : tokens (bytes (credits s)) + sum_by (units_held total) (tasks s) <= u;
  inv_osum : tokens (ops (credits s)) + sum_by ops_held (tasks s) <= o }.

Lemma sum_by_app f a b : sum_by f (a ++ b) = sum_by f a + sum_by f b.
Proof. induction a as [|x a IH]; simpl; lia. Qed.

Lemma sum_by_le f g ts : Forall (fun t => f t <= g t) ts -> sum_by f ts <= sum_by g ts.
Proof. induction 1 as [|t ts Ht _ IH]; simpl; lia. Qed.

Lemma units_for_bounds len total : 0 <= len -> 1 <= total ->
  0 <= units_for len total <= total /\ Z.min len (total * BYTE_UNIT) <= units_for len total * BYTE_UNIT.
Proof.
  intros Hl Ht. unfold units_for, u64_div_ceil, BYTE_UNIT. case Z.eqb_spec; intros H0; [lia|].
  assert (Hd : len <= (len + 256 * 1024 - 1) / (256 * 1024) * (256 * 1024)) by div_lia.
  split; lia.
Qed.

Lemma take_spec p p' : take p = Some p' -> pool_ok p -> tokens p' = tokens p - 1 /\ pool_ok p'.
Proof. unfold take, pool_ok. case Z.ltb_spec; [|done]. intros ? [= <-]. simpl. lia. Qed.

Lemma release_spec p n : pool_ok p -> 0 <= n -> tokens (release p n) <= tokens p + n /\ pool_ok (release p n).
Proof. unfold pool_ok. simpl. lia. Qed.

Lemma held_nonneg total ts : 1 <= total -> Forall (task_ok total) ts ->
  0 <= sum_by (units_held total) ts /\ 0 <= sum_by ops_held ts.
Proof.
  intros Ht. induction 1 as [|t ts Hok _ IH]; simpl; [lia|].
  destruct t as [len|got len|len]; simpl in *; try lia. pose proof (units_for_bounds len total Hok Ht). lia.
Qed.

Lemma inv_swap total u o s ts1 t t' ts2 c' :
  inv total u o s -> tasks s = ts1 ++ t :: ts2 -> task_ok total t' -> byte_units c' = byte_units (credits s) ->
  pool_ok (bytes c') -> pool_ok (ops c') ->
  tokens (bytes c') + units_held total t' <= tokens (bytes (credits s)) + units_held total t ->
  tokens (ops c') + ops_held t' <= tokens (ops (credits s)) + ops_held t ->
  inv total u o (mkSystem c' (ts1 ++ t' :: ts2)).
Proof.
  intros [T F TS BS OS] E Ht' Hc Hb Ho H1 H2. rewrite E, sum_by_app in *. simpl in *.
  apply Forall_app in TS as [TS1 [_ TS2]%Forall_cons].
  split; simpl; rewrite ?sum_by_app; simpl; try lia; try done.
  apply Forall_app; by repeat constructor.
Qed.

Lemma inv_out total u o s ts1 t ts2 c' :
  inv total u o s -> tasks s = ts1 ++ t :: ts2 -> byte_units c' = byte_units (credits s) ->
  pool_ok (bytes c') -> pool_ok (ops c') ->
  tokens (bytes c') <= tokens (bytes (credits s)) + units_held total t ->
  tokens (ops c') <= tokens (ops (credits s)) + ops_held t ->
  inv total u o (mkSystem c' (ts1 ++ ts2)).
Proof.
  intros [T F TS BS OS] E Hc Hb Ho H1 H2. rewrite E, sum_by_app in *. simpl in *.
  apply Forall_app in TS as [TS1 [_ TS2]%Forall_cons].
  split; simpl; rewrite ?sum_by_app; simpl; try lia; try done.
  by apply Forall_app.
Qed.

Lemma step_inv total u o s s' : inv total u o s -> step s s' -> inv total u o s'.
Proof.
  intros Hi Hs. pose proof Hi as [[T T1] [FB FO] TS BS OS].
  destruct Hs as [s len Hlen|s ts1 len ts2 o' E Ht|s ts1 got len ts2 b E Hg Ht
    |s ts1 got len ts2 E Hg|s ts1 len ts2 E|s ts1 t ts2 E Hn].
  1: split; simpl; try done; by constructor.
  all: pose proof TS as Ht0; rewrite E in Ht0; apply Forall_app in Ht0 as [_ [Hok _]%Forall_cons];
    unfold units_of in *; try rewrite T in *; simpl in Hok.
  - apply take_spec in Ht as [Ht1 Ht2]; [|done]. eapply inv_swap; [done..| | | | | | ]; simpl; try done; try lia.
    pose proof (units_for_bounds len total Hok T1). lia.
  - apply take_spec in Ht as [Ht1 Ht2]; [|done]. eapply inv_swap; [done..| | | | | | ]; simpl; try done; lia.
  - eapply inv_swap; [done..| | | | | | ]; simpl; try done; lia.
  - pose proof (units_for_bounds len total Hok T1).
    destruct (release_spec _ (units_for len total) FB), (release_spec _ 1 FO); try lia.
    eapply inv_out; [done..| | | | |]; simpl in *; try done; lia.
  - eapply inv_out; [done..| | | | |]; try done; destruct t; simpl in *; try lia;
      pose proof (units_for_bounds len total Hok T1); lia.
Qed.

Lemma steps_inv total u o s s' : inv total u o s -> steps s s' -> inv total u o s'.
Proof. intros Hi. induction 1 as [|s s' s'' Hs _ IH]; [done|]. apply IH. by eapply step_inv. Qed.

Lemma init_inv max_bytes max_ops :
  let total := Z.max (max_bytes / BYTE_UNIT) 1 in
  inv total total (Z.max max_ops 1) (mkSystem (new max_bytes max_ops) []).
Proof. split; simpl; unfold pool_ok; simpl; try constructor; lia. Qed.

Lemma inflight_bounded total u o s : inv total u o s ->
  sum_by op_inflight (tasks s) <= o /\ sum_by (bytes_inflight (total * BYTE_UNIT)) (tasks s) <= u * BYTE_UNIT.
Proof.
  intros [[T T1] [FB FO] TS BS OS]. unfold pool_ok in *.
  assert (H1 : sum_by op_inflight (tasks s) <= sum_by ops_held (tasks s)).
  { apply sum_by_le. eapply Forall_impl; [exact TS|]. intros []; simpl; lia. }
  assert (H2 : sum_by (bytes_inflight (total * BYTE_UNIT)) (tasks s) <=
               sum_by (fun t => units_held total t * BYTE_UNIT) (tasks s)).
  { apply sum_by_le. eapply Forall_impl; [exact TS|]. intros [len|got len|len]; simpl; [unfold BYTE_UNIT; lia..|].
    intros Hl. by apply units_for_bounds. }
  assert (H3 : forall ts, sum_by (fun t => units_held total t * BYTE_UNIT) ts = sum_by (units_held total) ts * BYTE_UNIT).
  { induction ts as [|t ts IH]; simpl; [done|]. rewrite IH. lia. }
  rewrite H3 in H2. unfold BYTE_UNIT in *. lia.
Qed.
End Capacity.

(** ** Properties *)

Module CreditsSpec.
Import MemoryBudget.

(** However acquisitions and releases interleave, the memory in use is the
    total of the permits outstanding and never exceeds the limit; permits for
    gap-filling work that fit the unreserved area never spill into the
    reserve; so, as long as no frontier permit and no oversized one is out, a
    frontier request of at most the reserve is granted without waiting. *)
Theorem memory_budget_reserve limit0 reserve0 s :
  0 <= limit0 <= u64_max -> 0 <= reserve0 -> reachable limit0 reserve0 s ->
  let b := budget s in
  let usable := limit b - MemoryBudget.reserve b in
  used b = total_bytes (permits s) /\ used b <= limit b /\
  (Forall (fun p => p.2 = Speculative -> p.1 <= usable) (permits s) ->
     speculative_bytes (permits s) <= usable /\
     (Forall (fun p => p.2 = Speculative) (permits s) ->
      forall bytes, 0 <= bytes <= MemoryBudget.reserve b ->
        try_acquire b bytes Frontier = inr (Some (mk (limit b) (used b + bytes) (MemoryBudget.reserve b))))).
Proof.
  intros Hl Hr Hs. pose proof (budget_reachable_inv _ _ _ Hl Hr Hs) as [I1 I2 I3 I4 I5 I6].
  cbv zeta. split; [done|]. split; [lia|]. intros Hf.
  assert (Hsp : speculative_bytes (permits s) <= limit (budget s) - MemoryBudget.reserve (budget s))
    by (apply keeps_speculative; try done; lia).
  split; [done|]. intros Hall bytes Hb.
  assert (Hu : used (budget s) = speculative_bytes (permits s))
    by (unfold speculative_bytes; by rewrite filter_all).
  pose proof (total_bytes_nonneg _ I4). unfold try_acquire, effective_limit, u64_sat_sub. rewrite Z.gtb_ltb.
  case Z.ltb_spec; [lia|intros _]. case Z.leb_spec; [intros _|lia]. by rewrite u64_add_small by u64_lia.
Qed.

Lemma memory_budget_reserve_witness :
  let s := mkSystem (mk 100 70 30) [(70, Speculative)] in
  reachable 100 30 s /\ try_acquire (budget s) 1 Speculative = inr None /\
  try_acquire (budget s) 30 Frontier = inr (Some (mk 100 100 30)).
Proof.
  intros s. assert (Hr : reachable 100 30 s).
  { eapply reach_step; [apply reach_init|]. by apply (step_acquire (mkSystem (with_reserve 100 30) []) 70 Speculative (mk 100 70 30)). }
  split; [exact Hr|]. split; [reflexivity|].
  apply (memory_budget_reserve 100 30 s ltac:(vm_compute; split; discriminate) ltac:(lia) Hr);
    [repeat constructor; simpl; lia|repeat constructor|simpl; lia].
Defined.

Import Capacity.

(** C40. Whatever the lanes call, drop and cancel, the operations in flight on
    one destination never exceed its operation ceiling, nor their bytes its
    byte ceiling (rounded to whole units, an oversized operation counting for
    the ceiling itself). *)
Theorem capacity_ceilings_hold max_bytes max_ops s :
  steps (mkSystem (Capacity.new max_bytes max_ops) []) s ->
  let ceiling := Z.max (max_bytes / BYTE_UNIT) 1 * BYTE_UNIT in
  sum_by op_inflight (tasks s) <= Z.max max_ops 1 /\
  sum_by (bytes_inflight ceiling) (tasks s) <= ceiling.
Proof.
  intros Hs. pose proof (steps_inv _ _ _ _ _ (init_inv max_bytes max_ops) Hs) as Hi.
  by apply inflight_bounded in Hi.
Qed.

(** Runs a trace rule by rule. *)
Ltac run_to rule ts1 := eapply steps_cons; [eapply (rule _ ts1); [reflexivity|..]; try reflexivity; try done|].
Ltac run_call len := eapply steps_cons; [apply (step_call _ len); done|].

Lemma capacity_ceilings_hold_witness :
  let s := mkSystem (mkCredits 524288 2 (mkPermits 0 2) (mkPermits 6 8)) [Holds 262144; Holds 262144] in
  steps (mkSystem (Capacity.new 524288 8) []) s /\ sum_by (bytes_inflight 524288) (tasks s) <= 524288.
Proof.
  intros s. assert (Hs : steps (mkSystem (Capacity.new 524288 8) []) s).
  { run_call 262144. run_to step_op (@nil task). run_to step_unit (@nil task). run_to step_ready (@nil task).
    run_call 262144. run_to step_op (@nil task). run_to step_unit (@nil task). run_to step_ready (@nil task).
    apply steps_refl. }
  split; [exact Hs|]. apply (capacity_ceilings_hold 524288 8 s Hs).
Defined.

(** Cancelling a waiting acquisition leaks what it has already taken,
    though the comment at [Permits::acquire] says it leaks nothing: with a
    ceiling of two units and two operations, one operation of one unit runs,
    a second one that needs two units is cancelled while it waits, the first
    completes, nothing is outstanding, and yet no operation of more than one
    unit ever starts again. *)
Theorem cancelled_acquire_leaks :
  exists s, steps (mkSystem (Capacity.new (2 * BYTE_UNIT) 2) []) s /\ tasks s = [] /\
    forall s', steps s s' -> Forall (fun t => match t with Holds len => len <= BYTE_UNIT | _ => True end) (tasks s').
Proof.
  exists (mkSystem (mkCredits (2 * BYTE_UNIT) 2 (mkPermits 1 2) (mkPermits 1 2)) []). split; [|split; [done|]].
  - run_call BYTE_UNIT. run_to step_op (@nil task). run_to step_unit (@nil task). run_to step_ready (@nil task).
    run_call (2 * BYTE_UNIT). run_to step_op (@nil task). run_to step_unit (@nil task).
    run_to step_cancel (@nil task). run_to step_drop (@nil task). apply steps_refl.
  - intros s' Hs. assert (Hi : inv 2 1 1 s').
    { eapply steps_inv; [|exact Hs]. split; simpl; unfold pool_ok; simpl; try constructor; lia. }
    destruct Hi as [[T T1] [FB FO] TS BS OS]. unfold pool_ok in *.
    apply Forall_forall. intros [len|got len|len] Ht; [done..|].
    pose proof TS as TS'. apply list_elem_of_split in Ht as (l1&l2&E). rewrite E in *.
    apply Forall_app in TS as [TSa [Ho TSb]%Forall_cons]. rewrite sum_by_app in BS. simpl in BS, Ho.
    pose proof (held_nonneg 2 _ T1 TSa). pose proof (held_nonneg 2 _ T1 TSb).
    pose proof (units_for_bounds len 2 Ho T1). unfold BYTE_UNIT in *. lia.
Qed.

(** Acquisitions take their byte units one by one, so two of them can
    starve each other: with a ceiling of two units, two operations of two
    units can each end up holding one, and then nothing moves until one of
    them is cancelled. *)
Theorem waiting_acquires_deadlock :
  exists s, steps (mkSystem (Capacity.new (2 * BYTE_UNIT) 2) []) s /\
    length (tasks s) = 2%nat /\ Forall (waits s) (tasks s) /\
    forall s', step s s' -> (exists len, tasks s' = WantsOp len :: tasks s) \/ length (tasks s') = 1%nat.
Proof.
  set (w := WantsUnits 1 (2 * BYTE_UNIT)).
  exists (mkSystem (mkCredits (2 * BYTE_UNIT) 2 (mkPermits 0 2) (mkPermits 0 2)) [w; w]).
  split; [|split; [done|split; [by repeat constructor|]]].
  - run_call (2 * BYTE_UNIT). run_to step_op (@nil task). run_to step_unit (@nil task).
    run_call (2 * BYTE_UNIT). run_to step_op (@nil task). run_to step_unit (@nil task). apply steps_refl.
  - intros s' Hs. remember (mkSystem _ _) as s0 eqn:E0.
    destruct Hs as [s len Hlen|s ts1 len ts2 o' E Ht|s ts1 got len ts2 b E Hg Ht
      |s ts1 got len ts2 E Hg|s ts1 len ts2 E|s ts1 t ts2 E Hn]; subst s; simpl in *; try done.
    + left. by exists len.
    + destruct ts1 as [|? [|? [|? ?]]]; simplify_eq/=; done.
    + destruct ts1 as [|? [|? [|? ?]]]; simplify_eq/=; done.
    + right. apply (f_equal length) in E. rewrite length_app in *. simpl in *. lia.
Qed.
End CreditsSpec.
