(* ===== verification/Reorder.v ===== *)
(** * Transfer chunks and the reorder buffer ([storage/transfer.rs],
    [storage/reorder.rs]).

    [ReorderingDestination] puts an ordered sink behind a random-access
    interface: chunks arrive at any offset, those past the frontier wait in a
    bounded map, and whatever becomes contiguous is pushed downstream. *)

From S2P Require Import Prelude Errors.
Local Open Scope Z_scope.

(** A byte is its value. *)
Abbreviation byte := Z.

(** ** Chunks *)

(** A chunk's memory permit is accounted for in Credits; here it is its bytes
    and their offset. A length fits [isize]. *)
Record TransferChunk := mkChunk { offset : Z; payload : list byte }.

Definition len (c : TransferChunk) : Z := Z.of_nat (length (payload c)).

(** [None]: the slice panics. *)
Definition trim_prefix (c : TransferChunk) (n : Z) : option TransferChunk :=
  if n <=? len c then Some (mkChunk (offset c +% n) (drop (Z.to_nat n) (payload c))) else None.

Definition split_at (c : TransferChunk) (n : Z) : option (TransferChunk * TransferChunk) :=
  if n <=? len c then
    Some (mkChunk (offset c) (take (Z.to_nat n) (payload c)),
          mkChunk (offset c +% n) (drop (Z.to_nat n) (payload c)))
  else None.

(** ** The adapter *)

(** A [BTreeMap] is its entries in key order. *)
Abbreviation Pending := (list (Z * TransferChunk)).

Definition contains_key (p : Pending) (k : Z) : bool := existsb (fun e => e.1 =? k) p.

Fixpoint pending_insert (p : Pending) (k : Z) (c : TransferChunk) : Pending :=
  match p with
  | [] => [(k, c)]
  | (k', c') :: p' =>
      if k <? k' then (k, c) :: p
      else if k =? k' then (k, c) :: p'
      else (k', c') :: pending_insert p' k c
  end.

Section adapter.
(** The ordered sink: [SequentialDestination::push] of a user's type. *)
Context {D : Type} (push : D -> TransferChunk -> D * result unit).

Record SequentialAdapter := mkAdapter {
  inner : D; next_offset : Z; pending : Pending; buffered_bytes : Z; max_buffered : Z }.

Definition SequentialAdapter_new (d : D) (start_offset max : Z) : SequentialAdapter :=
  mkAdapter d start_offset [] 0 max.

Definition has_room (a : SequentialAdapter) (n : Z) : bool := buffered_bytes a +% n <=? max_buffered a.

Definition push_now (a : SequentialAdapter) (c : TransferChunk) : SequentialAdapter * result unit :=
  match push (inner a) c with
  | (d, inl e) => (mkAdapter d (next_offset a) (pending a) (buffered_bytes a) (max_buffered a), inl e)
  | (d, inr _) =>
      (mkAdapter d (next_offset a +% len c) (pending a) (buffered_bytes a) (max_buffered a), inr tt)
  end.

(** The [while let] loop: [p] is the map as it stands. *)
Fixpoint drain (p : Pending) (a : SequentialAdapter) : SequentialAdapter * result unit :=
  match p with
  | [] => (a, inr tt)
  | (off, c) :: rest =>
      if negb (off =? next_offset a) then (a, inr tt)
      else
        let a' := mkAdapter (inner a) (next_offset a) rest (buffered_bytes a -% len c) (max_buffered a) in
        match push_now a' c with
        | (a'', inl e) => (a'', inl e)
        | (a'', inr _) => drain rest a''
        end
  end.

Definition push_and_drain (a : SequentialAdapter) (c : TransferChunk) : SequentialAdapter * result unit :=
  match push_now a c with
  | (a', inl e) => (a', inl e)
  | (a', inr _) => drain (pending a') a'
  end.

Definition accept (a : SequentialAdapter) (c : TransferChunk) : option (SequentialAdapter * result unit) :=
  if offset c <? next_offset a then
    let skip := next_offset a -% offset c in
    if skip >=? len c then Some (a, inr tt)
    else match trim_prefix c skip with
         | None => None
         | Some c' => Some (push_and_drain a c')
         end
  else if offset c =? next_offset a then Some (push_and_drain a c)
  else if contains_key (pending a) (offset c) then Some (a, inl (destination "duplicate sequential chunk"))
  else
    let a' := mkAdapter (inner a) (next_offset a) (pending_insert (pending a) (offset c) c)
                (buffered_bytes a +% len c) (max_buffered a) in
    Some (drain (pending a') a').

(** [ReorderingDestination]: one turn of the loop of [write_chunk] under the
    lock; [Waits] is the turn that releases it and listens for room. *)
Definition ReorderingDestination_new (d : D) (max : Z) : SequentialAdapter :=
  SequentialAdapter_new d 0 (Z.max max 1).

Inductive attempt := Waits | Panics | Returned (a : SequentialAdapter) (r : result unit).

Definition write_chunk (a : SequentialAdapter) (c : TransferChunk) : attempt :=
  if (offset c <=? next_offset a) || has_room a (len c) then
    match accept a c with
    | None => Panics
    | Some (a', r) => Returned a' r
    end
  else Waits.

(** The writes that completed, in the order in which they did. *)
Fixpoint write_all (a : SequentialAdapter) (cs : list TransferChunk) : option SequentialAdapter :=
  match cs with
  | [] => Some a
  | c :: cs' =>
      match write_chunk a c with
      | Returned a' (inr _) => write_all a' cs'
      | _ => None
      end
  end.

(** ** The artifact's bytes *)

(** The [n] bytes of an artifact from offset [lo] on. *)
Definition segment (F : Z -> byte) (lo : Z) (n : nat) : list byte :=
  (fun i => F (lo + Z.of_nat i)) <$> seq 0 n.

Definition chunk_of (F : Z -> byte) (c : TransferChunk) : Prop :=
  payload c = segment F (offset c) (length (payload c)).

(** Where a chunk may lie, and the memory it may take. *)
Definition chunk_within (lo hi : Z) (c : TransferChunk) : Prop :=
  lo <= offset c /\ offset c + len c <= hi.

Definition pending_bytes (p : Pending) : Z := foldr (fun e acc => len e.2 + acc) 0 p.

Definition covered (P : list TransferChunk) (x : Z) : Prop :=
  Exists (fun d => offset d <= x < offset d + len d) P.

(** Waiting chunks that fill the offsets from [base] on. *)
Definition tiles (q : Pending) (base : Z) : Prop :=
  forall x, base <= x < base + pending_bytes q -> covered q.*2 x.

Lemma tiles_nil base : tiles [] base.
Proof. intros x Hx. simpl in Hx. lia. Qed.

Lemma tiles_cons k c q base : offset c = base -> tiles q (base + len c) -> tiles ((k, c) :: q) base.
Proof.
  intros Ho Ht x Hx. simpl in Hx. destruct (decide (x < base + len c)).
  - apply Exists_cons_hd. simpl. lia.
  - apply Exists_cons_tl, Ht. lia.
Qed.

Lemma len_nonneg c : 0 <= len c.
Proof. unfold len. lia. Qed.

Lemma segment_length F lo n : length (segment F lo n) = n.
Proof. unfold segment. by rewrite length_fmap, length_seq. Qed.

Lemma segment_app F lo n m : segment F lo (n + m) = segment F lo n ++ segment F (lo + Z.of_nat n) m.
Proof.
  unfold segment. rewrite seq_app, fmap_app. f_equal. rewrite Nat.add_0_l.
  apply list_eq. intros i. rewrite !list_lookup_fmap. destruct (decide (i < m)%nat).
  - rewrite !lookup_seq_lt by lia. simpl. do 2 f_equal. lia.
  - by rewrite !lookup_seq_ge by lia.
Qed.

Lemma segment_drop F lo n k : (k <= n)%nat ->
  drop k (segment F lo n) = segment F (lo + Z.of_nat k) (n - k).
Proof.
  intros Hk. replace n with (k + (n - k))%nat at 1 by lia. rewrite segment_app.
  rewrite drop_app_length'; [done|by rewrite segment_length].
Qed.

Lemma trim_prefix_of F c k c' : chunk_of F c -> 0 <= k <= len c -> in_u64 (offset c + k) ->
  trim_prefix c k = Some c' -> chunk_of F c' /\ offset c' = offset c + k /\ len c' = len c - k.
Proof.
  unfold trim_prefix, chunk_of, len. intros Hc Hk Hu. case Z.leb_spec; [|lia]. intros _ [= <-]. simpl.
  rewrite length_drop, u64_add_small by done. split_and!; [|done|lia].
  rewrite Hc at 1. rewrite segment_drop by lia. f_equal. lia.
Qed.

Lemma pending_bytes_app a b : pending_bytes (a ++ b) = pending_bytes a + pending_bytes b.
Proof. induction a as [|c a IH]; simpl; lia. Qed.

Lemma pending_bytes_perm a b : a ≡ₚ b -> pending_bytes a = pending_bytes b.
Proof. induction 1; simpl; lia. Qed.

Lemma pending_insert_perm p k c : contains_key p k = false -> pending_insert p k c ≡ₚ (k, c) :: p.
Proof.
  induction p as [|[k' c'] p IH]; simpl; [done|]. intros [Hk Hp]%orb_false_iff. apply Z.eqb_neq in Hk.
  case Z.ltb_spec; [done|]. intros _. case Z.eqb_spec; [lia|]. intros _. rewrite IH by done. apply Permutation_swap.
Qed.

Lemma pending_insert_sorted p k c : contains_key p k = false ->
  StronglySorted (fun x y => x.1 < y.1) p -> StronglySorted (fun x y => x.1 < y.1) (pending_insert p k c).
Proof.
  intros Hc Hs. induction Hs as [|[k' c'] p Hs IH Hall]; simpl in *; [by repeat constructor|].
  apply orb_false_iff in Hc as [Hk Hp]. apply Z.eqb_neq in Hk. case Z.ltb_spec; intros Hlt.
  - constructor; [by constructor|]. constructor; [done|]. eapply Forall_impl; [exact Hall|]. simpl. lia.
  - case Z.eqb_spec; [lia|]. intros _. constructor; [by apply IH|]. rewrite pending_insert_perm by done.
    constructor; [simpl; lia|done].
Qed.

(** ** The invariant *)

Context (content : D -> list byte).
Hypothesis push_appends : forall d c d', push d c = (d', inr tt) -> content d' = content d ++ payload c.

Section invariant.
Variables (F : Z -> byte) (d0 : D) (start finish : Z).

Definition entry_ok (e : Z * TransferChunk) : Prop :=
  e.1 = offset e.2 /\ chunk_of F e.2 /\ chunk_within start finish e.2.

Record inv (a : SequentialAdapter) : Prop := {
  inv_next : start <= next_offset a <= finish;
  inv_content : content (inner a) = content d0 ++ segment F start (Z.to_nat (next_offset a - start));
  inv_entries : Forall entry_ok (pending a);
  inv_sorted : StronglySorted (fun x y => x.1 < y.1) (pending a);
  inv_buffered : buffered_bytes a = pending_bytes (pending a) }.

Hypothesis range : 0 <= start <= finish /\ finish <= u64_max.

Lemma pending_bytes_nonneg p : 0 <= pending_bytes p.
Proof. induction p as [|[k c] p IH]; simpl; [lia|]. pose proof (len_nonneg c). lia. Qed.

Lemma push_now_inv a c a' : inv a -> chunk_of F c -> offset c = next_offset a -> chunk_within start finish c ->
  push_now a c = (a', inr tt) ->
  inv a' /\ next_offset a' = next_offset a + len c /\ pending a' = pending a /\ max_buffered a' = max_buffered a.
Proof.
  intros [I1 I2 I3 I4 I5] Hc Ho [_ Hw] Hp. unfold push_now in Hp. pose proof (len_nonneg c) as Hn.
  destruct (push (inner a) c) as [d [e|[]]] eqn:E; simplify_eq/=. apply push_appends in E.
  rewrite u64_add_small by u64_lia. split; [|done]. split; simpl; try done; [lia|].
  rewrite E, I2, Hc, <- app_assoc. f_equal. unfold len in *.
  replace (Z.to_nat (next_offset a + Z.of_nat (length (payload c)) - start))
    with (Z.to_nat (next_offset a - start) + length (payload c))%nat by lia.
  rewrite segment_app. do 2 f_equal. lia.
Qed.

(** Draining succeeds: the frontier only advances over whole entries, and the
    entry left in front is not at the frontier. *)
Lemma drain_inv p a a' : inv a -> pending a = p -> pending_bytes p <= u64_max ->
  drain p a = (a', inr tt) ->
  inv a' /\ max_buffered a' = max_buffered a /\ next_offset a <= next_offset a' /\
  (exists q, p = q ++ pending a' /\ next_offset a' = next_offset a + pending_bytes q /\
     tiles q (next_offset a)) /\
  match pending a' with e :: _ => e.1 ≠ next_offset a' | [] => True end.
Proof.
  revert a. induction p as [|[off c] rest IH]; simpl; intros a Hi Hp Hb Hd.
  { simplify_eq/=. rewrite Hp. split_and!; try done. exists []. simpl. split_and!; [done|lia|apply tiles_nil]. }
  case (Z.eqb_spec off (next_offset a)) in Hd; simpl in Hd.
  2:{ simplify_eq/=. rewrite Hp. split_and!; try done. exists []. simpl. split_and!; [done|lia|apply tiles_nil]. }
  pose proof Hi as [I1 I2 I3 I4 I5]. rewrite Hp in *. apply Forall_cons in I3 as [(E1&E2&E3) I3].
  apply StronglySorted_inv in I4 as [I4 _]. simpl in *. pose proof (pending_bytes_nonneg rest) as Hr.
  pose proof (len_nonneg c) as Hc.
  destruct (push_now _ c) as [a1 [?|[]]] eqn:E; simplify_eq/=.
  apply push_now_inv in E as (H1&H2&H3&H4); [|split; simpl; try done|done|simpl; congruence|done].
  2:{ rewrite I5. rewrite u64_sub_small by u64_lia. lia. }
  simpl in *. destruct (IH a1 H1 H3 ltac:(lia) Hd) as (J1&J2&J3&(q&J4&J5&Jt)&J6).
  split_and!; try done; [congruence|lia|]. exists ((next_offset a, c) :: q). simpl. split_and!; [congruence|lia|].
  apply tiles_cons; [done|]. by rewrite <- H2.
Qed.

Lemma inv_set_buffer a p b : inv a -> Forall entry_ok p -> StronglySorted (fun x y => x.1 < y.1) p ->
  b = pending_bytes p -> inv (mkAdapter (inner a) (next_offset a) p b (max_buffered a)).
Proof. intros [I1 I2 I3 I4 I5] Hp Hs Hb. by split. Qed.

(** What one accepted chunk does: nothing, when its bytes are all behind the
    frontier; otherwise the rest of it is pushed, or it is stored, and then the
    buffer is drained. *)
Lemma accept_cases a c : inv a -> chunk_of F c -> chunk_within start finish c ->
  pending_bytes (pending a) + len c <= u64_max ->
  match accept a c with
  | None => False
  | Some (a', r) => r = inr tt ->
      inv a' /\ max_buffered a' = max_buffered a /\
      (offset c < next_offset a /\ offset c + len c <= next_offset a /\ a' = a \/
       (next_offset a <= offset c \/ next_offset a < offset c + len c) /\
       (exists q, next_offset a <= next_offset a' /\
         (if offset c <=? next_offset a
          then pending a = q ++ pending a' /\ next_offset a' = offset c + len c + pending_bytes q /\
               tiles q (offset c + len c)
          else contains_key (pending a) (offset c) = false /\
               (offset c, c) :: pending a ≡ₚ q ++ pending a' /\
               next_offset a' = next_offset a + pending_bytes q /\ tiles q (next_offset a))) /\
       match pending a' with e :: _ => e.1 ≠ next_offset a' | [] => True end)
  end.
Proof.
  intros Hi Hc Hw Hb. pose proof (len_nonneg c) as Hn. pose proof (pending_bytes_nonneg (pending a)) as Hp.
  pose proof Hi as [I1 I2 I3 I4 I5]. destruct Hw as [W1 W2]. unfold accept.
  assert (Hpush : forall c', chunk_of F c' -> offset c' = next_offset a -> chunk_within start finish c' ->
    let '(a', r) := push_and_drain a c' in r = inr tt -> inv a' /\ max_buffered a' = max_buffered a /\
      exists q, next_offset a <= next_offset a' /\ pending a = q ++ pending a' /\
        next_offset a' = next_offset a + len c' + pending_bytes q /\ tiles q (next_offset a + len c') /\
        match pending a' with e :: _ => e.1 ≠ next_offset a' | [] => True end).
  { intros c' Hc' Ho' Hw'. unfold push_and_drain. destruct (push_now a c') as [a1 [e|[]]] eqn:E; [done|].
    apply push_now_inv in E as (H1&H2&H3&H4); [|done..].
    destruct (drain (pending a1) a1) as [a2 r] eqn:E2. intros ->.
    apply drain_inv in E2 as (J1&J2&J3&(q&J4&J5&Jt)&J6); [|done|done|rewrite H3; lia].
    pose proof (len_nonneg c'). split_and!; [done|congruence|]. exists q.
    split_and!; [lia|congruence|lia|by rewrite <- H2|done]. }
  case Z.ltb_spec; intros Hlt.
  - rewrite u64_sub_small by u64_lia. rewrite Z.geb_leb. case Z.leb_spec; intros Hskip.
    { intros _. split_and!; [done|done|]. left. split_and!; [lia..|done]. }
    destruct (trim_prefix c (next_offset a - offset c)) as [c'|] eqn:Et.
    2:{ unfold trim_prefix in Et. revert Et. case Z.leb_spec; [done|lia]. }
    apply (trim_prefix_of F) in Et as (T1&T2&T3); [|done|lia|u64_lia].
    specialize (Hpush c' T1 ltac:(lia) ltac:(split; lia)). destruct (push_and_drain a c') as [a' r].
    intros Hr. destruct (Hpush Hr) as (J1&J2&q&J3&J4&J5&Jt&J6). split_and!; [done..|]. right. split; [lia|].
    split; [|done]. exists q. split; [done|]. case Z.leb_spec; [|lia]. intros _.
    split_and!; [done|lia|]. by replace (offset c + len c) with (next_offset a + len c') by lia.
  - case Z.eqb_spec; intros Heq.
    + specialize (Hpush c Hc Heq ltac:(split; lia)). destruct (push_and_drain a c) as [a' r].
      intros Hr. destruct (Hpush Hr) as (J1&J2&q&J3&J4&J5&Jt&J6). split_and!; [done..|].
      right. split; [lia|]. split; [|done]. exists q. split; [done|]. case Z.leb_spec; [|lia].
      intros _. split_and!; [done|lia|]. by rewrite Heq.
    + destruct (contains_key (pending a) (offset c)) eqn:Ek; [done|].
      destruct (drain _ _) as [a' r] eqn:Ed. intros ->. simpl in Ed.
      pose proof (pending_insert_perm (pending a) (offset c) c Ek) as Hperm.
      pose proof (pending_bytes_perm _ _ Hperm) as Hsum. simpl in Hsum.
      apply drain_inv in Ed as (J1&J2&J3&(q&J4&J5&Jt)&J6); [| |done|lia].
      2:{ apply inv_set_buffer; [done| |by apply pending_insert_sorted|rewrite u64_add_small by u64_lia; lia].
          rewrite Hperm. by constructor. }
      simpl in *. split_and!; [done..|]. right. split; [lia|]. split; [|done]. exists q. split; [done|].
      case Z.leb_spec; [lia|]. intros _. split; [done|]. split; [by rewrite <- Hperm, J4|by split].
Qed.

(** Under the guard of [write_chunk] the buffer stays within its bound. *)
Lemma write_chunk_inv a c a' :
  inv a -> chunk_of F c -> chunk_within start finish c -> len c < 2 ^ 63 ->
  buffered_bytes a <= max_buffered a <= 2 ^ 63 -> write_chunk a c = Returned a' (inr tt) ->
  accept a c = Some (a', inr tt) /\ pending_bytes (pending a) + len c <= u64_max /\ inv a' /\
  max_buffered a' = max_buffered a /\ buffered_bytes a' <= max_buffered a'.
Proof.
  intros Hi Hc Hw Hl Hm Hwr. unfold write_chunk in Hwr. pose proof Hi as [I1 I2 I3 I4 I5].
  pose proof (len_nonneg c). pose proof (pending_bytes_nonneg (pending a)).
  pose proof (accept_cases a c Hi Hc Hw ltac:(u64_lia)) as Ha.
  destruct ((offset c <=? next_offset a) || has_room a (len c)) eqn:Eg; [|done].
  destruct (accept a c) as [[a1 r]|]; [|done]. simplify_eq. split; [done|]. split; [u64_lia|].
  destruct (Ha eq_refl) as (J1&J2&J). split_and!; [done..|]. rewrite J2, (inv_buffered _ J1).
  destruct J as [(_&_&->)|(_&(q&_&Hq)&_)]; [lia|]. pose proof (pending_bytes_nonneg q).
  destruct (offset c <=? next_offset a) eqn:El.
  - destruct Hq as [Hq _]. rewrite Hq, pending_bytes_app in I5. lia.
  - destruct Hq as (_&Hq&_&_). apply pending_bytes_perm in Hq. rewrite pending_bytes_app in Hq. simpl in *.
    unfold has_room in Eg. rewrite u64_add_small in Eg by u64_lia. apply Z.leb_le in Eg. lia.
Qed.

Definition chunk_ok (c : TransferChunk) : Prop :=
  chunk_of F c /\ chunk_within start finish c /\ len c < 2 ^ 63.

Lemma write_all_inv cs a a' : inv a -> Forall chunk_ok cs -> buffered_bytes a <= max_buffered a <= 2 ^ 63 ->
  write_all a cs = Some a' -> inv a' /\ max_buffered a' = max_buffered a /\ buffered_bytes a' <= max_buffered a'.
Proof.
  intros Hi Hcs. revert a Hi. induction Hcs as [|c cs (H1&H2&H3) _ IH]; simpl; intros a Hi Hm Hw.
  { simplify_eq. split_and!; [done..|lia]. }
  destruct (write_chunk a c) as [| |a1 [e|[]]] eqn:E; [done..|].
  apply write_chunk_inv in E as (_&_&J1&J2&J3); [|done..].
  destruct (IH a1 J1 ltac:(lia) Hw) as (K1&K2&K3). split_and!; [done|congruence|done].
Qed.

Lemma adapter_new_inv max : inv (SequentialAdapter_new d0 start max).
Proof.
  split; simpl; try constructor; try lia. by rewrite Z.sub_diag, app_nil_r.
Qed.

(** ** Disjoint chunks *)

Definition apart (x y : TransferChunk) : Prop :=
  offset x + len x <= offset y \/ offset y + len y <= offset x.

Definition total_len (cs : list TransferChunk) : Z := foldr (fun c acc => len c + acc) 0 cs.

(** The chunks accepted so far, [acc], are the pushed ones [P], which tile
    what lies before the frontier, and those still waiting. *)
Record ledger (acc : list TransferChunk) (a : SequentialAdapter) : Prop := {
  led_pushed : exists P, acc ≡ₚ P ++ (pending a).*2 /\ total_len P = next_offset a - start /\
                 (forall x, start <= x < next_offset a -> covered P x);
  led_head : match pending a with e :: _ => e.1 ≠ next_offset a | [] => True end }.

Lemma apart_sym x y : apart x y -> apart y x.
Proof. unfold apart. lia. Qed.

Lemma pairwise_perm (l k : list TransferChunk) : l ≡ₚ k -> StronglySorted apart l -> StronglySorted apart k.
Proof.
  induction 1 as [|x l k Hp IH|x y l|l k m _ IH1 _ IH2]; [done| |..]; [| |by auto].
  - intros [Hs Hx]%StronglySorted_inv. constructor; [by apply IH|]. by rewrite <- Hp.
  - intros [[Hs Hx]%StronglySorted_inv Hy]%StronglySorted_inv. apply Forall_cons in Hy as [Hyx Hy].
    constructor; [by constructor|]. constructor; [by apply apart_sym|done].
Qed.

Lemma total_len_app a b : total_len (a ++ b) = total_len a + total_len b.
Proof. induction a as [|c a IH]; simpl; lia. Qed.

Lemma total_len_perm a b : a ≡ₚ b -> total_len a = total_len b.
Proof. induction 1; simpl; lia. Qed.

Lemma total_len_pending p : total_len p.*2 = pending_bytes p.
Proof. induction p as [|[k c] p IH]; simpl; [done|]. by rewrite <- IH. Qed.

(** A nonempty chunk apart from all of [P] begins outside what [P] covers. *)
Lemma covered_apart P c : 0 < len c -> Forall (apart c) P -> ~ covered P (offset c).
Proof.
  intros Hl Hf [d [Hd1 Hd2]]%Exists_exists. eapply Forall_forall in Hf; [|exact Hd1]. unfold apart in Hf. lia.
Qed.

(** Entries in key order that are apart fit between the first key and the end. *)
Lemma pending_fits p lo : Forall entry_ok p -> StronglySorted (fun x y => x.1 < y.1) p ->
  StronglySorted apart p.*2 -> Forall (fun e => lo <= e.1 /\ 0 < len e.2) p -> lo <= finish ->
  pending_bytes p <= finish - lo.
Proof.
  intros He Hs. revert lo. induction Hs as [|[k c] p Hs IH Hall]; simpl; intros lo Ha Hlo Hfin; [lia|].
  apply Forall_cons in He as [(E1&_&E2&E3) He]. apply Forall_cons in Hlo as [[L1 L2] Hlo].
  apply StronglySorted_inv in Ha as [Ha Hx]. simpl in *. rewrite Forall_fmap in Hx.
  specialize (IH He (k + len c) Ha). rewrite E1 in *. enough (pending_bytes p <= finish - (offset c + len c)) by lia.
  apply IH; [|lia]. rewrite Forall_forall in *. intros e Hine. specialize (Hall e Hine). specialize (Hx e Hine).
  destruct (He e Hine) as (F1&_). specialize (Hlo e Hine). unfold apart in Hx. simpl in *. split; lia.
Qed.

Lemma covered_app P Q x : covered P x \/ covered Q x -> covered (P ++ Q) x.
Proof. apply Exists_app. Qed.

Lemma ledger_accept acc a c a' : inv a -> ledger acc a -> chunk_ok c -> 0 < len c ->
  StronglySorted apart (c :: acc) -> pending_bytes (pending a) + len c <= u64_max ->
  accept a c = Some (a', inr tt) -> ledger (c :: acc) a'.
Proof.
  intros Hi [(P&Hacc&Hsum&Hcov) Hh] (Hc&Hw&_) Hl [Hap Hc0]%StronglySorted_inv Hb Ha.
  pose proof (accept_cases a c Hi Hc Hw Hb) as Hcase. rewrite Ha in Hcase.
  destruct (Hcase eq_refl) as (J1&J2&J3). clear Hcase. pose proof Hi as [I1 I2 I3 I4 I5].
  assert (Hfront : next_offset a <= offset c).
  { destruct (decide (next_offset a <= offset c)) as [|Hlt]; [done|]. exfalso.
    eapply (covered_apart P c Hl); [|apply Hcov; destruct Hw; lia].
    rewrite Hacc in Hc0. by apply Forall_app in Hc0 as [? _]. }
  destruct J3 as [(?&_)|(_&(q&Hle&Hq)&Hhead)]; [lia|]. split; [|done].
  destruct (Z.leb_spec (offset c) (next_offset a)) as [Hoff|Hoff].
  - destruct Hq as (Hq&Hnext&Ht). exists (P ++ c :: q.*2). rewrite Hq, fmap_app in Hacc.
    split_and!.
    + rewrite Hacc, <- app_assoc. simpl. by rewrite Permutation_middle.
    + rewrite total_len_app. simpl. rewrite total_len_pending. lia.
    + intros x Hx. apply covered_app. destruct (decide (x < next_offset a)); [left; apply Hcov; lia|]. right.
      destruct (decide (x < offset c + len c)); [apply Exists_cons_hd; lia|].
      apply Exists_cons_tl, Ht. lia.
  - destruct Hq as (Hk&Hq&Hnext&Ht). exists (P ++ q.*2). split_and!.
    + apply (fmap_Permutation snd) in Hq. rewrite fmap_app in Hq. simpl in Hq.
      rewrite Hacc, <- app_assoc, <- Hq. by rewrite Permutation_middle.
    + rewrite total_len_app, total_len_pending. lia.
    + intros x Hx. apply covered_app. destruct (decide (x < next_offset a)); [left; apply Hcov; lia|]. right.
      apply Ht. lia.
Qed.

Lemma ledger_run cs acc a a' : inv a -> ledger acc a -> Forall chunk_ok cs -> Forall (fun c => 0 < len c) cs ->
  StronglySorted apart (reverse cs ++ acc) -> buffered_bytes a <= max_buffered a <= 2 ^ 63 ->
  write_all a cs = Some a' -> inv a' /\ ledger (reverse cs ++ acc) a'.
Proof.
  revert acc a. induction cs as [|c cs IH]; simpl; intros acc a Hi Hled Hok Hpos Hap Hm Hw.
  { by simplify_eq. }
  apply Forall_cons in Hok as [Hc Hok]. apply Forall_cons in Hpos as [Hp Hpos].
  rewrite reverse_cons, <- app_assoc in *. simpl in *.
  destruct (write_chunk a c) as [| |a1 [e|[]]] eqn:E; [done..|].
  pose proof Hc as (H1&H2&H3). apply write_chunk_inv in E as (Ea&Eb&J1&J2&J3); [|done..].
  apply (IH (c :: acc) a1); try done; [|lia].
  eapply (ledger_accept acc a c a1); try done.
  by eapply StronglySorted_app_1_r.
Qed.

(** When the accepted chunks add up to the artifact, nothing is left waiting. *)
Lemma ledger_complete acc a : inv a -> ledger acc a -> StronglySorted apart acc ->
  Forall (fun c => 0 < len c) acc -> total_len acc = finish - start ->
  pending a = [] /\ next_offset a = finish.
Proof.
  intros Hi [(P&Hacc&Hsum&Hcov) Hh] Hap Hpos Htot. pose proof Hi as [I1 I2 I3 I4 I5].
  pose proof (total_len_perm _ _ Hacc) as Ht. rewrite total_len_app, total_len_pending in Ht.
  destruct (pending a) as [|[k c] p] eqn:Ep; [split; [done|simpl in Ht; lia]|]. exfalso.
  rewrite Hacc in Hpos. apply Forall_app in Hpos as [_ Hpos]. eapply pairwise_perm in Hap; [|exact Hacc].
  assert (Hkc : k = offset c /\ chunk_within start finish c /\ 0 < len c).
  { apply Forall_cons in I3 as [(E1&_&E2) _]. apply Forall_cons in Hpos as [Hpos _]. done. }
  destruct Hkc as (->&[Hw1 Hw2]&Hl). simpl in Hh.
  assert (Hlt : next_offset a < offset c).
  { destruct (decide (offset c < next_offset a)) as [Hlt|]; [|lia]. exfalso.
    eapply (covered_apart P c Hl); [|apply Hcov; lia].
    eapply pairwise_perm in Hap; [|apply Permutation_app_comm]. simpl in Hap.
    apply StronglySorted_inv in Hap as [_ Hx]. by apply Forall_app in Hx as [_ ?]. }
  assert (Hfit : pending_bytes ((offset c, c) :: p) <= finish - offset c).
  { apply pending_fits; [done..| | |lia].
    - by eapply StronglySorted_app_1_r.
    - apply StronglySorted_inv in I4 as [_ Hs]. rewrite Forall_fmap in Hpos.
      apply Forall_forall. intros e He. rewrite Forall_forall in Hpos, Hs. specialize (Hpos e He). simpl in Hpos.
      split; [|done]. apply elem_of_cons in He as [->|He]; [done|]. specialize (Hs e He). simpl in Hs. lia. }
  lia.
Qed.

(** ** A sink that never fails *)

Definition infallible : Prop := forall d c, exists d', push d c = (d', inr tt).

Lemma push_now_ok a c : infallible -> exists a', push_now a c = (a', inr tt).
Proof. intros Hp. unfold push_now. destruct (Hp (inner a) c) as [d ->]. eauto. Qed.

Lemma drain_ok p a : infallible -> exists a', drain p a = (a', inr tt).
Proof.
  intros Hp. revert a. induction p as [|[off c] p IH]; simpl; intros a; [eauto|].
  destruct (negb _); [eauto|]. edestruct push_now_ok as [a1 ->]; [done|]. apply IH.
Qed.

Lemma push_and_drain_ok a c : infallible -> exists a', push_and_drain a c = (a', inr tt).
Proof. intros Hp. unfold push_and_drain. edestruct push_now_ok as [a1 ->]; [done|]. by apply drain_ok. Qed.

Lemma accept_ok a c : infallible -> inv a -> chunk_ok c -> pending_bytes (pending a) + len c <= u64_max ->
  contains_key (pending a) (offset c) = false -> exists a', accept a c = Some (a', inr tt).
Proof.
  intros Hp Hi (Hc&Hw&_) Hb Hk. pose proof (accept_cases a c Hi Hc Hw Hb) as Hcase. unfold accept in *.
  destruct (offset c <? next_offset a).
  - destruct (_ >=? _); [eauto|]. destruct (trim_prefix _ _) as [c'|]; [|done].
    destruct (push_and_drain_ok a c' Hp) as [a' ->]. eauto.
  - destruct (offset c =? next_offset a); [destruct (push_and_drain_ok a c Hp) as [a' ->]; eauto|].
    rewrite Hk. edestruct drain_ok as [a' ->]; [done|]. eauto.
Qed.

Lemma contains_key_in p k : contains_key p k = true -> exists c, (k, c) ∈ p.
Proof.
  intros [[k' c] [Hin Hk]]%existsb_exists. apply Z.eqb_eq in Hk. simpl in Hk. subst k'.
  exists c. by apply list_elem_of_In.
Qed.

Lemma ledger_no_duplicate acc a c : inv a -> ledger acc a -> 0 < len c ->
  StronglySorted apart (c :: acc) -> Forall (fun c => 0 < len c) acc -> contains_key (pending a) (offset c) = false.
Proof.
  intros Hi [(P&Hacc&_) _] Hl [_ Hx]%StronglySorted_inv Hpos.
  destruct (contains_key _ _) eqn:Ek; [|done]. exfalso. apply contains_key_in in Ek as [d Hd].
  rewrite Hacc in Hx, Hpos. apply Forall_app in Hx as [_ Hx]. apply Forall_app in Hpos as [_ Hpos].
  rewrite Forall_fmap in Hx, Hpos. rewrite Forall_forall in Hx, Hpos. specialize (Hx _ Hd). specialize (Hpos _ Hd).
  pose proof (inv_entries _ Hi) as He. rewrite Forall_forall in He. specialize (He _ Hd) as (He&_).
  unfold apart in Hx. simpl in *. lia.
Qed.

Lemma total_len_nonneg cs : 0 <= total_len cs.
Proof. induction cs as [|c cs IH]; simpl; [lia|]. pose proof (len_nonneg c). lia. Qed.

Lemma write_all_ok cs acc a : infallible -> inv a -> ledger acc a -> Forall chunk_ok cs ->
  Forall (fun c => 0 < len c) (cs ++ acc) -> StronglySorted apart (reverse cs ++ acc) ->
  total_len (cs ++ acc) <= max_buffered a -> buffered_bytes a <= max_buffered a <= 2 ^ 63 ->
  is_Some (write_all a cs).
Proof.
  intros Hp. revert acc a. induction cs as [|c cs IH]; simpl; intros acc a Hi Hled Hok Hpos Hap Htot Hm; [eauto|].
  apply Forall_cons in Hok as [Hc Hok]. apply Forall_cons in Hpos as [Hl Hpos].
  rewrite reverse_cons, <- app_assoc in *. simpl in *. pose proof Hc as (H1&H2&H3).
  assert (Hs : StronglySorted apart (c :: acc)) by (by eapply StronglySorted_app_1_r).
  pose proof Hled as [(P&Hacc&Hsum&_) _]. pose proof (inv_buffered _ Hi) as Hbuf.
  pose proof (total_len_perm _ _ Hacc) as Ht. rewrite total_len_app, total_len_pending in Ht.
  rewrite total_len_app in Htot. pose proof (total_len_nonneg cs). pose proof (total_len_nonneg P).
  assert (Hroom : has_room a (len c) = true).
  { unfold has_room. pose proof (pending_bytes_nonneg (pending a)). rewrite u64_add_small by u64_lia. lia. }
  assert (Hpacc : Forall (fun c => 0 < len c) acc) by (by apply Forall_app in Hpos as [_ ?]).
  destruct (accept_ok a c Hp Hi Hc ltac:(u64_lia) (ledger_no_duplicate acc a c Hi Hled Hl Hs Hpacc)) as [a' Ha].
  assert (Hw : write_chunk a c = Returned a' (inr tt)) by (unfold write_chunk; by rewrite Hroom, orb_true_r, Ha).
  rewrite Hw. apply write_chunk_inv in Hw as (_&Hb&J1&J2&J3); [|done..].
  apply (IH (c :: acc)); try done; [by apply (ledger_accept acc a c a')| | |lia].
  - apply Forall_app in Hpos as [? ?]. apply Forall_app. split; [done|by constructor].
  - rewrite total_len_app. simpl. lia.
Qed.
End invariant.
End adapter.

(** ** Entries behind the frontier *)

Section stale.
Context {D : Type} (push : D -> TransferChunk -> D * result unit).

Definition stale (a : SequentialAdapter (D:=D)) : Prop :=
  match pending a with (k, _) :: _ => k < next_offset a | [] => False end.

Lemma stale_drain a p : p = pending a -> stale a -> drain push p a = (a, inr tt).
Proof.
  unfold stale. intros ->. destruct (pending a) as [|[k c] p] eqn:E; [done|]. intros Hk. simpl.
  case Z.eqb_spec; [lia|done].
Qed.

Lemma stale_push a c a' r : stale a -> 0 <= next_offset a -> next_offset a + len c <= u64_max ->
  push_and_drain push a c = (a', r) -> stale a' /\ pending a' = pending a /\ next_offset a <= next_offset a' <= u64_max.
Proof.
  unfold push_and_drain, push_now. intros Hs H0 Hb. pose proof (len_nonneg c).
  destruct (push (inner a) c) as [d [e|[]]].
  - intros [= <- <-]. simpl. split_and!; [done..|lia|lia].
  - rewrite stale_drain; [|done|].
    + intros [= <- <-]. simpl. rewrite u64_add_small by u64_lia. split_and!; [|done|lia|lia].
      unfold stale in *. simpl. destruct (pending a) as [|[k c'] p]; [done|]. lia.
    + unfold stale in *. simpl. rewrite u64_add_small by u64_lia. destruct (pending a) as [|[k c'] p]; [done|]. lia.
Qed.

Lemma stale_accept a c a' r : stale a -> 0 <= next_offset a <= u64_max -> chunk_within 0 u64_max c ->
  accept push a c = Some (a', r) ->
  stale a' /\ 0 <= next_offset a' <= u64_max /\ forall e, e ∈ pending a -> e ∈ pending a'.
Proof.
  intros Hs Hn [W1 W2]. unfold accept. pose proof (len_nonneg c). case Z.ltb_spec; intros Hlt.
  - rewrite u64_sub_small by u64_lia. rewrite Z.geb_leb. case Z.leb_spec; intros Hsk.
    { intros [= <- <-]. done. }
    unfold trim_prefix. case Z.leb_spec; intros Hsk2; [|done].
    intros [= Hp]. apply stale_push in Hp as (J1&J2&J3); [|done|lia|].
    2:{ unfold len in *. simpl. rewrite length_drop. lia. }
    split_and!; [done|lia|lia|by rewrite J2].
  - case Z.eqb_spec; intros Heq.
    + intros [= Hp]. apply stale_push in Hp as (J1&J2&J3); [|done|lia|lia].
      split_and!; [done|lia|lia|by rewrite J2].
    + destruct (contains_key (pending a) (offset c)) eqn:Ek; [by intros [= <- <-]|].
      assert (Hs' : stale (mkAdapter (inner a) (next_offset a) (pending_insert (pending a) (offset c) c)
                             (buffered_bytes a +% len c) (max_buffered a))).
      { unfold stale in *. simpl. destruct (pending a) as [|[k c'] p]; [done|]. simpl in *.
        case Z.ltb_spec; [lia|]. case Z.eqb_spec; [lia|]. done. }
      rewrite stale_drain by done. intros [= <- <-]. simpl. split_and!; [done|lia|lia|].
      intros e He. rewrite pending_insert_perm by done. by right.
Qed.

Lemma stale_forever cs a a' : stale a -> 0 <= next_offset a <= u64_max -> Forall (chunk_within 0 u64_max) cs ->
  write_all push a cs = Some a' -> forall e, e ∈ pending a -> e ∈ pending a'.
Proof.
  intros Hs Hn Hf. revert a Hs Hn. induction Hf as [|c cs Hc _ IH]; simpl; intros a Hs Hn; [by intros [= <-]|].
  unfold write_chunk. destruct (_ || _); [|done]. destruct (accept push a c) as [[a1 r]|] eqn:E; [|done].
  destruct r as [e|[]]; [done|]. intros Hw e He. apply stale_accept in E as (J1&J2&J3); [|done..].
  eapply IH; try done. by apply J3.
Qed.
End stale.

(** ** Properties *)

Module ReorderSpec.

(** A sink in memory, and a small artifact, for concrete runs. *)
Definition log_push (d : list byte) (c : TransferChunk) : list byte * result unit := (d ++ payload c, inr tt).

Lemma log_push_appends d c d' : log_push d c = (d', inr tt) -> d' = d ++ payload c.
Proof. by intros [= <-]. Qed.

Definition artifact (x : Z) : byte := x mod 256.

Definition chunk_at (lo n : Z) : TransferChunk := mkChunk lo (segment artifact lo (Z.to_nat n)).

Lemma chunk_at_ok lo n start finish : 0 <= n < 2 ^ 63 -> start <= lo -> lo + n <= finish ->
  chunk_ok artifact start finish (chunk_at lo n).
Proof.
  intros Hn H1 H2. assert (Hl : len (chunk_at lo n) = n) by (unfold len, chunk_at; simpl; rewrite segment_length; lia).
  split_and!; [|split; rewrite ?Hl; done|lia]. unfold chunk_of. simpl. by rewrite segment_length.
Qed.

Ltac for_each tac := repeat first [apply Forall_nil; exact I | apply Forall_cons; split; [tac|]].
Ltac pairwise_apart :=
  first [apply SSorted_nil | apply SSorted_cons; [pairwise_apart|
    for_each ltac:(vm_compute; first [left; discriminate | right; discriminate])]].

(** C33. Whatever order, overlap and repetition the chunks of an artifact come
    in, after any writes that completed the ordered sink holds exactly the
    artifact's bytes up to the frontier, in order and each once, and the bytes
    waiting in memory are within the bound. *)
Theorem reorder_delivers_prefix {D} (push : D -> TransferChunk -> D * result unit) (content : D -> list byte)
  F d0 start finish max cs a :
  (forall d c d', push d c = (d', inr tt) -> content d' = content d ++ payload c) ->
  0 <= start <= finish /\ finish <= u64_max -> 0 <= max <= 2 ^ 63 ->
  Forall (chunk_ok F start finish) cs ->
  write_all push (SequentialAdapter_new d0 start max) cs = Some a ->
  start <= next_offset a <= finish /\
  content (inner a) = content d0 ++ segment F start (Z.to_nat (next_offset a - start)) /\
  pending_bytes (pending a) = buffered_bytes a /\ buffered_bytes a <= max.
Proof.
  intros Hlaw Hr Hm Hcs Hw. eapply (write_all_inv push content Hlaw) in Hw as (H1&H2&H3);
    [|done|by apply adapter_new_inv|done|simpl; lia].
  destruct H1 as [I1 I2 I3 I4 I5]. simpl in H2.
  split_and!; try done; lia.
Qed.

Lemma reorder_delivers_prefix_witness :
  let cs := [chunk_at 8 2; chunk_at 0 6; chunk_at 0 4; chunk_at 4 4] in
  match write_all log_push (SequentialAdapter_new [] 0 100) cs with
  | Some a => inner a = segment artifact 0 10 | None => False end.
Proof.
  intros cs. destruct (write_all log_push (SequentialAdapter_new [] 0 100) cs) as [a|] eqn:E.
  - assert (Hn : Some (next_offset a) = Some 10) by (change (option_map next_offset (Some a) = Some 10); rewrite <- E; reflexivity).
    injection Hn as Hn.
    pose proof (reorder_delivers_prefix log_push (fun d => d) artifact [] 0 10 100 cs a log_push_appends
      ltac:(vm_compute; split_and!; congruence) ltac:(lia)
      ltac:(for_each ltac:(apply chunk_at_ok; lia)) E) as (_&Hc&_).
    rewrite Hn in Hc. exact Hc.
  - vm_compute in E. discriminate E.
Defined.

(** Disjoint chunks that add up to the artifact, in any order: once all are
    written the sink has the whole artifact and nothing is left waiting; and
    when the buffer can hold what the artifact needs and the sink does not fail,
    every write completes at once. *)
Theorem reorder_completes {D} (push : D -> TransferChunk -> D * result unit) (content : D -> list byte)
  F d0 start finish max cs :
  (forall d c d', push d c = (d', inr tt) -> content d' = content d ++ payload c) ->
  0 <= start <= finish /\ finish <= u64_max -> 0 <= max <= 2 ^ 63 ->
  Forall (chunk_ok F start finish) cs -> Forall (fun c => 0 < len c) cs ->
  StronglySorted apart cs -> total_len cs = finish - start ->
  (forall a, write_all push (SequentialAdapter_new d0 start max) cs = Some a ->
     pending a = [] /\ buffered_bytes a = 0 /\ next_offset a = finish /\
     content (inner a) = content d0 ++ segment F start (Z.to_nat (finish - start))) /\
  (finish - start <= max -> infallible push -> is_Some (write_all push (SequentialAdapter_new d0 start max) cs)).
Proof.
  intros Hlaw Hr Hm Hcs Hpos Hap Htot.
  assert (Hperm : reverse cs ++ [] ≡ₚ cs) by (by rewrite app_nil_r, reverse_Permutation).
  assert (Hinit : ledger start [] (SequentialAdapter_new d0 start max)).
  { split; [|done]. exists []. simpl. split_and!; [done|lia|lia]. }
  assert (Hap' : StronglySorted apart (reverse cs ++ [])) by (eapply pairwise_perm; [symmetry; exact Hperm|done]).
  pose proof (adapter_new_inv content F d0 start finish Hr max) as Hnew. split.
  - intros a Hw. eapply (ledger_run push content Hlaw) in Hw as [Hi Hl]; try done; try (simpl; lia).
    assert (Hpos' : Forall (fun c => 0 < len c) (reverse cs ++ [])) by (by rewrite Hperm).
    destruct (ledger_complete content F d0 start finish _ a Hi Hl Hap' Hpos') as [J1 J2].
    { by rewrite (total_len_perm _ _ Hperm). }
    destruct Hi as [I1 I2 I3 I4 I5]. rewrite J1, J2 in *. done.
  - intros Hroom Hinf. eapply (write_all_ok push content Hlaw); try done; rewrite ?app_nil_r; try done; simpl; lia.
Qed.
Lemma reorder_completes_witness :
  let cs := [chunk_at 8 2; chunk_at 4 4; chunk_at 0 4] in
  match write_all log_push (SequentialAdapter_new [] 0 100) cs with
  | Some a => pending a = [] /\ inner a = segment artifact 0 10 | None => False end.
Proof.
  intros cs. destruct (write_all log_push (SequentialAdapter_new [] 0 100) cs) as [a|] eqn:E.
  - pose proof (reorder_completes log_push (fun d => d) artifact [] 0 10 100 cs log_push_appends
      ltac:(vm_compute; split_and!; congruence) ltac:(lia)
      ltac:(for_each ltac:(apply chunk_at_ok; lia))
      ltac:(for_each ltac:(reflexivity)) ltac:(pairwise_apart)
      eq_refl) as [Hc _].
    destruct (Hc a E) as (Hp&_&_&Hi). split; [exact Hp|exact Hi].
  - vm_compute in E. discriminate E.
Defined.

(** A chunk kept in memory whose offset falls behind the frontier is never
    drained, and blocks every chunk behind it: after [4,8) and [8,10) arrive
    early and the retry of the head of the artifact delivers [0,6), the engine
    has handed over all ten bytes, the sink has six, and whatever is written
    afterwards the two chunks stay in the buffer. *)
Theorem straddling_chunk_blocks_sink :
  exists a, write_all log_push (SequentialAdapter_new [] 0 100) [chunk_at 4 4; chunk_at 8 2; chunk_at 0 6] = Some a /\
    (forall x, 0 <= x < 10 -> covered [chunk_at 4 4; chunk_at 8 2; chunk_at 0 6] x) /\
    inner a = segment artifact 0 6 /\
    forall cs a', Forall (chunk_within 0 u64_max) cs -> write_all log_push a cs = Some a' ->
      (4, chunk_at 4 4) ∈ pending a' /\ (8, chunk_at 8 2) ∈ pending a'.
Proof.
  eexists. split; [reflexivity|]. split; [|split; [reflexivity|]].
  - intros x Hx. destruct (decide (x < 6)).
    + do 2 apply Exists_cons_tl. apply Exists_cons_hd. vm_compute len. simpl. lia.
    + destruct (decide (x < 8)); [apply Exists_cons_hd|apply Exists_cons_tl, Exists_cons_hd]; vm_compute len; simpl; lia.
  - intros cs a' Hcs Hw. split; (eapply stale_forever; [| |exact Hcs|exact Hw|]);
      try (vm_compute; split; discriminate); try (vm_compute; reflexivity); repeat constructor.
Qed.
End ReorderSpec.
