(* ===== verification/Payload.v ===== *)
(** * Payloads and the memory they hold ([storage/transfer.rs]).

    A payload is a slice of bytes with a share of the permit its memory was taken
    with; clones, slices and halves share that permit, and the last of them to go
    gives the memory back. [Reorder] has the arithmetic of chunks, [Credits] the
    budget; this is what ties the two. *)

From S2P Require Import Prelude Errors Reorder Credits.
Import MemoryBudget.
Local Open Scope Z_scope.

(** ** Payloads *)

Module BudgetedPayload.

(** [permit] names the shared permit. *)
Record t := mk { bytes : list byte; permit : nat }.

Definition len (p : t) : Z := Z.of_nat (length (bytes p)).
Definition is_empty (p : t) : bool := len p =? 0.

(** [None]: the slice panics. *)
Definition trimmed (p : t) (from to : Z) : option t :=
  if (from <=? to) && (to <=? len p) then Some (mk (drop (Z.to_nat from) (take (Z.to_nat to) (bytes p))) (permit p)) else None.
Definition trim_prefix (p : t) (n : Z) : option t := trimmed p n (len p).
Definition split_at (p : t) (n : Z) : option (t * t) :=
  if n <=? len p then
    Some (mk (take (Z.to_nat n) (bytes p)) (permit p), mk (drop (Z.to_nat n) (bytes p)) (permit p))
  else None.
End BudgetedPayload.
Import BudgetedPayload.

(** A chunk as [Reorder] has it. *)
Definition view (offset : Z) (p : BudgetedPayload.t) : TransferChunk := mkChunk offset (bytes p).

(** ** The memory of the engine *)

(** The permits by name, [None] once given back; the payloads there are. *)
Record Heap := mkHeap { budget : MemoryBudget.t; permits : list (option (Z * ProgressClass)); live : list BudgetedPayload.t }.

Definition empty_heap (limit0 reserve0 : Z) : Heap := mkHeap (with_reserve limit0 reserve0) [] [].

(** A payload goes: the last share of a permit releases it. *)
Definition drop_share (k : nat) (h : Heap) : Heap :=
  if existsb (fun p => Nat.eqb (permit p) k) (live h) then h
  else match permits h !! k with
       | Some (Some (n, _)) => mkHeap (release (budget h) n) (<[k := None]> (permits h)) (live h)
       | _ => h
       end.
Definition without (i : nat) (h : Heap) : Heap := mkHeap (budget h) (permits h) (delete i (live h)).

(** Each names the payload it is called on; one that panics drops it. *)
Inductive op := Bytes (payload : list byte) (class : ProgressClass) | Clone (i : nat) | Trim (i : nat) (n : Z) | Split (i : nat) (n : Z) | Drop (i : nat).

Definition run_op (h : Heap) (o : op) : Heap :=
  match o with
  | Bytes b class =>
      match try_acquire (budget h) (Z.of_nat (length b)) class with
      | inr (Some b') => mkHeap b' (permits h ++ [Some (Z.of_nat (length b), class)]) (live h ++ [BudgetedPayload.mk b (length (permits h))])
      | inr None | inl _ => h
      end
  | Clone i => match live h !! i with Some p => mkHeap (budget h) (permits h) (live h ++ [p]) | None => h end
  | Trim i n =>
      match live h !! i with
      | None => h
      | Some p => match trim_prefix p n with
                  | Some p' => mkHeap (budget h) (permits h) (<[i := p']> (live h))
                  | None => drop_share (permit p) (without i h)
                  end
      end
  | Split i n =>
      match live h !! i with
      | None => h
      | Some p => match split_at p n with
                  | Some (l, r) => mkHeap (budget h) (permits h) (<[i := l]> (live h) ++ [r])
                  | None => drop_share (permit p) (without i h)
                  end
      end
  | Drop i => match live h !! i with Some p => drop_share (permit p) (without i h) | None => h end
  end.

(** ** Properties *)

(** The chunk operations are those of [Reorder] on the bytes. *)
Lemma trim_prefix_view offset p n : 0 <= n ->
  Reorder.trim_prefix (view offset p) n = (fun q => view (offset +% n) q) <$> trim_prefix p n.
Proof.
  intros Hn. unfold Reorder.trim_prefix, trim_prefix, trimmed, view, Reorder.len, len. cbn. rewrite Z.leb_refl, andb_true_r.
  destruct (n <=? _); [|done]. cbn. f_equal. f_equal. by rewrite Nat2Z.id, firstn_all.
Qed.
Lemma split_at_view offset p n :
  Reorder.split_at (view offset p) n = (fun q => (view offset q.1, view (offset +% n) q.2)) <$> split_at p n.
Proof. unfold Reorder.split_at, split_at, view, Reorder.len, len. cbn. by destruct (n <=? _). Qed.

(** The permits not given back, newest first. *)
Definition held (h : Heap) : list (Z * ProgressClass) := reverse (omap id (permits h)).

(** A permit is out exactly as long as something has a share of it. *)
Record tied (h : Heap) : Prop := {
  tied_live p : p ∈ live h -> exists n c, permits h !! permit p = Some (Some (n, c)) /\ len p <= n;
  tied_held k n c : permits h !! k = Some (Some (n, c)) -> exists p, p ∈ live h /\ permit p = k }.

Definition refines (limit0 reserve0 : Z) (h : Heap) : Prop := tied h /\ reachable limit0 reserve0 (mkSystem (budget h) (held h)).

Lemma held_insert (ps : list (option (Z * ProgressClass))) k x : ps !! k = Some (Some x) -> exists a b,
  reverse (omap id ps) = a ++ x :: b /\ reverse (omap id (<[k := None]> ps)) = a ++ b.
Proof.
  intros Hk. exists (reverse (omap id (drop (S k) ps))), (reverse (omap id (take k ps))).
  rewrite <- (take_drop_middle _ _ _ Hk) at 1. rewrite insert_take_drop by by eapply lookup_lt_Some.
  rewrite !omap_app. cbn. rewrite !reverse_app, reverse_cons. by rewrite <- app_assoc.
Qed.

Lemma existsb_share k l : existsb (fun p => Nat.eqb (permit p) k) l = true <-> exists p, p ∈ l /\ permit p = k.
Proof.
  rewrite existsb_exists. split; intros (p&Hp&Hk); exists p; (split; [by apply list_elem_of_In|by apply Nat.eqb_eq]).
Qed.

Lemma drop_refines limit0 reserve0 h i p : live h !! i = Some p -> refines limit0 reserve0 h ->
  refines limit0 reserve0 (drop_share (permit p) (without i h)).
Proof.
  intros Hi [[T1 T2] Hr]. pose proof (delete_Permutation _ _ _ Hi) as Hperm.
  assert (Hin : forall q, q ∈ live h <-> q = p \/ q ∈ delete i (live h)).
  { intros q. rewrite (elem_of_Permutation_proper q _ _ Hperm), elem_of_cons. done. }
  unfold drop_share, without. cbn [live permits budget]. destruct (existsb _ _) eqn:Ee.
  - apply existsb_share in Ee as (q&Hq&Hk). split; [|exact Hr]. split; cbn [live permits].
    + intros q' Hq'. apply T1, Hin. by right.
    + intros k n c Hl. destruct (T2 _ _ _ Hl) as (q'&Hq'&<-). apply Hin in Hq' as [->|]; [by exists q|by exists q'].
  - assert (Hno : forall q, q ∈ delete i (live h) -> permit q <> permit p).
    { intros q Hq Hk. rewrite (proj2 (existsb_share _ _)) in Ee; [done|by exists q]. }
    destruct (T1 p) as (n&c&Hp&_); [apply Hin; by left|]. rewrite Hp. split.
    + split; cbn [live permits].
      * intros q Hq. rewrite list_lookup_insert_ne by (intros E; by eapply Hno). apply T1, Hin. by right.
      * intros k m d Hl. destruct (decide (k = permit p)) as [->|Hk].
        { rewrite list_lookup_insert_eq in Hl by by eapply lookup_lt_Some. done. }
        rewrite list_lookup_insert_ne in Hl by done. destruct (T2 _ _ _ Hl) as (q&Hq&Hqk). exists q. split; [|done].
        apply Hin in Hq as [->|]; [congruence|done].
    + destruct (held_insert _ _ _ Hp) as (a&b&Ea&Eb). unfold held. cbn [permits]. rewrite Eb. eapply reach_step; [exact Hr|].
      by apply (step_release (mkSystem (budget h) (held h)) a n c b).
Qed.

Lemma total_bytes_perm a b : a ≡ₚ b -> total_bytes a = total_bytes b.
Proof. unfold total_bytes. induction 1; cbn [foldr] in *; lia. Qed.

(** A payload that takes the place of another with the same permit, and no more
    bytes. *)
Lemma tied_insert h i p q l : tied h -> live h !! i = Some p -> permit q = permit p -> len q <= len p ->
  (forall r, r ∈ l -> permit r = permit p /\ len r <= len p) -> tied (mkHeap (budget h) (permits h) (<[i := q]> (live h) ++ l)).
Proof.
  intros [T1 T2] Hi Hq Hlen Hl. pose proof (lookup_lt_Some _ _ _ Hi) as Hlt.
  assert (Hp : p ∈ live h) by by eapply list_elem_of_lookup_2. destruct (T1 p Hp) as (n&c&Hn&Hle). split; cbn [live permits].
  - intros r [Hr|Hr]%elem_of_app.
    + apply list_elem_of_lookup in Hr as [j Hj]. apply list_lookup_insert_Some in Hj as [(->&<-&_)|[_ Hj]].
      * exists n, c. rewrite Hq. split; [done|lia].
      * apply T1. by eapply list_elem_of_lookup_2.
    + destruct (Hl _ Hr) as [Hr1 Hr2]. exists n, c. rewrite Hr1. split; [done|lia].
  - intros k m d Hk. destruct (T2 _ _ _ Hk) as (r&Hr&Hrk). apply list_elem_of_lookup in Hr as [j Hj]. destruct (decide (j = i)) as [->|Hji].
    + exists q. split; [|congruence]. apply elem_of_app. left. eapply list_elem_of_lookup_2, list_lookup_insert_eq, Hlt.
    + exists r. split; [|done]. apply elem_of_app. left. eapply list_elem_of_lookup_2. by rewrite list_lookup_insert_ne.
Qed.

Lemma run_op_refines limit0 reserve0 h o : refines limit0 reserve0 h -> refines limit0 reserve0 (run_op h o).
Proof.
  intros [T Hr]. destruct o as [b class|i|i n|i n|i]; cbn [run_op].
  - destruct (try_acquire _ _ _) as [?|[b'|]] eqn:E; try by split. split.
    + destruct T as [T1 T2]. split; cbn [live permits].
      * intros p [Hp|Hp]%elem_of_app.
        { destruct (T1 _ Hp) as (m&c&Hm&?). exists m, c. split; [by apply lookup_app_l_Some|done]. }
        apply list_elem_of_singleton in Hp as ->. exists (Z.of_nat (length b)), class. cbn. by rewrite lookup_app_r, Nat.sub_diag by lia.
      * intros k m c Hk. apply lookup_snoc_Some in Hk as [[_ Hk]|[-> _]].
        { destruct (T2 _ _ _ Hk) as (p&Hp&?). exists p. split; [apply elem_of_app; by left|done]. }
        eexists. split; [apply elem_of_app; right; by left|done].
    + unfold held. cbn [permits budget]. rewrite omap_app. cbn. rewrite reverse_app. cbn. eapply reach_step; [exact Hr|].
      by apply (step_acquire (mkSystem (budget h) (held h))); [lia|].
  - destruct (live h !! i) as [p|] eqn:Hi; [|by split]. split; [|exact Hr]. rewrite <- (list_insert_id _ _ _ Hi) at 1.
    apply (tied_insert h i p p [p]); try done. intros r ->%list_elem_of_singleton. done.
  - destruct (live h !! i) as [p|] eqn:Hi; [|by split]. destruct (trim_prefix p n) as [p'|] eqn:Et; [|apply (drop_refines _ _ _ _ _ Hi); by split].
    split; [|exact Hr]. rewrite <- (app_nil_r (<[i := p']> _)). unfold trim_prefix, trimmed in Et. destruct (_ && _); [|done]. injection Et as <-.
    apply (tied_insert h i p); try done; [|by intros ? ?%elem_of_nil]. unfold len. cbn. rewrite length_drop, length_take. lia.
  - destruct (live h !! i) as [p|] eqn:Hi; [|by split]. destruct (split_at p n) as [[l r]|] eqn:Es; [|apply (drop_refines _ _ _ _ _ Hi); by split].
    split; [|exact Hr]. unfold split_at in Es. destruct (_ <=? _); [|done]. injection Es as <- <-.
    apply (tied_insert h i p); try done; unfold len; cbn; [rewrite length_take; lia|].
    intros r ->%list_elem_of_singleton. cbn. split; [done|]. rewrite length_drop. lia.
  - destruct (live h !! i) as [p|] eqn:Hi; [|by split]. apply (drop_refines _ _ _ _ _ Hi). by split.
Qed.

(** C38. Memory is charged to the budget exactly as long as some payload cut from it is
    alive: whatever is read, cloned, trimmed, split and dropped in whatever order,
    and with slices that panic, the bytes in use are the total of the permits of
    which a share is left, never beyond the limit; and no payload is longer than
    what was charged for it. *)
Theorem memory_follows_payloads limit0 reserve0 os : 0 <= limit0 <= u64_max -> 0 <= reserve0 ->
  let h := foldl run_op (empty_heap limit0 reserve0) os in
  used (budget h) = total_bytes (omap id (permits h)) /\ used (budget h) <= Z.max limit0 1 /\
  (forall k, (exists n c, permits h !! k = Some (Some (n, c))) <-> exists p, p ∈ live h /\ permit p = k) /\
  (forall p, p ∈ live h -> exists n c, permits h !! permit p = Some (Some (n, c)) /\ len p <= n).
Proof.
  intros Hl Hr h. assert (Hh : refines limit0 reserve0 h).
  { unfold h. assert (H0 : refines limit0 reserve0 (empty_heap limit0 reserve0)).
    { split; [|apply reach_init]. split; cbn; [by intros ? ?%elem_of_nil|done]. }
    revert H0. generalize (empty_heap limit0 reserve0). induction os as [|o os IH]; intros h0 H0; [done|]. by apply IH, run_op_refines. }
  clearbody h. destruct Hh as [[T1 T2] Hreach]. apply budget_reachable_inv in Hreach as [I1 _ I3 _ I5 _]; [|done..]. cbn [MemoryBudget.budget MemoryBudget.permits] in I1, I3, I5.
  assert (Hrev : total_bytes (held h) = total_bytes (omap id (permits h))).
  { apply total_bytes_perm, reverse_Permutation. }
  split_and!; [lia|lia| |done]. intros k. split; [intros (n&c&Hk); by eapply T2|].
  intros (p&Hp&<-). destruct (T1 _ Hp) as (n&c&Hn&_). by exists n, c.
Qed.

(** One chunk read, cloned and cut; the memory goes with its last piece. *)
Definition pieces : list op := [Bytes [1; 2; 3; 4] Speculative; Split 0 3; Clone 1; Trim 0 2; Drop 0; Drop 0; Bytes [5] Frontier].

Lemma memory_follows_payloads_witness : used (budget (foldl run_op (empty_heap 8 2) pieces)) = 5 /\
  used (budget (foldl run_op (empty_heap 8 2) (pieces ++ [Drop 0]))) = 1 /\ used (budget (foldl run_op (empty_heap 8 2) pieces)) <= 8.
Proof.
  split; [vm_compute; reflexivity|]. split; [vm_compute; reflexivity|].
  apply (memory_follows_payloads 8 2 pieces); [unfold u64_max; lia|lia].
Defined.
