(* ===== verification/Journal.v ===== *)
(** * The resume journal ([storage/journal.rs]).

    The record of what a partial artifact holds, framed with a magic number, a
    version, a length and a checksum, and replaced on disk by write, sync and
    rename. [postcard] and [crc32c] are parameters; the serde form of the range
    sets is the source's own. *)

From S2P Require Import Prelude Ranges Errors Representation Disk.
Local Open Scope Z_scope.

(** ** Little-endian integers *)

Fixpoint to_le_bytes (n : nat) (x : Z) : list Z :=
  match n with O => [] | S n' => x mod 256 :: to_le_bytes n' (x / 256) end.

Fixpoint from_le_bytes (l : list Z) : Z :=
  match l with [] => 0 | b :: l' => b + 256 * from_le_bytes l' end.

Lemma to_le_bytes_length n x : length (to_le_bytes n x) = n.
Proof. revert x. induction n as [|n IH]; intros x; simpl; [done|]. by rewrite IH. Qed.

Lemma le_roundtrip n x : 0 <= x < 256 ^ Z.of_nat n -> from_le_bytes (to_le_bytes n x) = x.
Proof.
  revert x. induction n as [|n IH]; intros x Hx; [simpl in *; lia|].
  cbn [to_le_bytes from_le_bytes]. rewrite Nat2Z.inj_succ, Z.pow_succ_r in Hx by lia.
  rewrite IH by div_lia. pose proof (Z.div_mod x 256). lia.
Qed.

(** ** The record *)

Definition MAGIC : list Z := [120; 100; 101; 74; 82; 78; 76; 49].
Definition FORMAT_VERSION : Z := 2.

Record JournalPayload := mkPayload {
  format_version : Z; fingerprint : JournaledFingerprint.t; completed : RangeSet.t; durable : RangeSet.t;
  total : option Z; bytes_written : Z; created_unix : Z; updated_unix : Z; overlap_bytes : Z;
  source_urls : list string }.

Definition JournalPayload_new (now : Z) (fp : JournaledFingerprint.t) (total0 : option Z) (overlap : Z)
    : JournalPayload :=
  mkPayload FORMAT_VERSION fp RangeSet.empty RangeSet.empty total0 0 now now overlap [].

(** What serde hands to the format: the derived struct, with each set in the
    form its own [Serialize] gives. *)
Record Wire := mkWire {
  w_format_version : Z; w_fingerprint : JournaledFingerprint.t; w_completed : list (Z * Z);
  w_durable : list (Z * Z); w_total : option Z; w_bytes_written : Z; w_created_unix : Z;
  w_updated_unix : Z; w_overlap_bytes : Z; w_source_urls : list string }.

Definition to_wire (p : JournalPayload) : Wire :=
  mkWire (format_version p) (fingerprint p) (RangeSet.serialize (completed p)) (RangeSet.serialize (durable p))
    (total p) (bytes_written p) (created_unix p) (updated_unix p) (overlap_bytes p) (source_urls p).

Definition of_wire (w : Wire) : JournalPayload :=
  mkPayload (w_format_version w) (w_fingerprint w) (RangeSet.deserialize (w_completed w))
    (RangeSet.deserialize (w_durable w)) (w_total w) (w_bytes_written w) (w_created_unix w) (w_updated_unix w)
    (w_overlap_bytes w) (w_source_urls w).

Record Journal := mkJournal { path : string; payload : JournalPayload; dirty : bool }.

Definition path_for (part_path : string) : string := (part_path ++ ".state")%string.

Definition create (p : string) (pl : JournalPayload) : Journal := mkJournal p pl true.

(** ** Mutations *)

Definition with_ranges (p : JournalPayload) (c d : RangeSet.t) (written updated : Z) : JournalPayload :=
  mkPayload (format_version p) (fingerprint p) c d (total p) written (created_unix p) updated (overlap_bytes p)
    (source_urls p).

Definition mark_dirty (j : Journal) : Journal := mkJournal (path j) (payload j) true.

(** [now] is the clock. *)
Definition record_completed (now : Z) (j : Journal) (r : ByteRange.t) : Journal :=
  let p := payload j in
  let c := RangeSet.insert (completed p) r in
  mkJournal (path j) (with_ranges p c (durable p) (RangeSet.covered_len c) now) true.

Definition mark_completed_durable (j : Journal) : Journal :=
  let p := payload j in
  mkJournal (path j) (with_ranges p (completed p) (completed p) (bytes_written p) (updated_unix p)) true.

Definition invalidate (j : Journal) (r : ByteRange.t) : Journal :=
  let p := payload j in
  let c := RangeSet.remove (completed p) r in
  mkJournal (path j) (with_ranges p c (RangeSet.remove (durable p) r) (RangeSet.covered_len c) (updated_unix p)) true.

Definition clear_ranges (j : Journal) : Journal :=
  let p := payload j in
  mkJournal (path j) (with_ranges p RangeSet.empty RangeSet.empty 0 (updated_unix p)) true.

(** ** Framing *)

Section codec.
(** [postcard::to_allocvec], [postcard::from_bytes] and [crc32c::crc32c]. *)
Context (to_allocvec : Wire -> option (list Z)) (from_bytes : list Z -> option Wire) (crc32c : list Z -> Z).

(** The buffer [out] of [persist_blocking_inner]. *)
Definition frame (body : list Z) : list Z :=
  MAGIC ++ to_le_bytes 2 FORMAT_VERSION ++ to_le_bytes 4 (Z.of_nat (length body) mod 2 ^ 32) ++
  to_le_bytes 4 (crc32c body) ++ body.

Definition encode (p : JournalPayload) : result (list Z) :=
  match to_allocvec (to_wire p) with
  | None => inl (journal "postcard")
  | Some body => inr (frame body)
  end.

(** The part of [load_blocking] after the read. *)
Definition decode (raw : list Z) : result JournalPayload :=
  if (length raw <? 8 + 2 + 4 + 4)%nat then inl (journal "truncated header")
  else if negb (bool_decide (take 8 raw = MAGIC)) then inl (journal "bad magic")
  else if negb (from_le_bytes (take 2 (drop 8 raw)) =? FORMAT_VERSION) then inl (journal "unsupported version")
  else
    let len := from_le_bytes (take 4 (drop 10 raw)) in
    let crc := from_le_bytes (take 4 (drop 14 raw)) in
    if Z.of_nat (length raw) <? 18 + len then inl (journal "truncated body")
    else
      let body := take (Z.to_nat len) (drop 18 raw) in
      if negb (crc32c body =? crc) then inl (journal "crc mismatch: record torn")
      else match from_bytes body with
           | None => inl (journal "postcard")
           | Some w => inr (of_wire w)
           end.

(** [std::fs::read] gives the bytes or an error kind. *)
Definition load_blocking (p : string) (read : ErrorKind + list Z) : result (option Journal) :=
  match read with
  | inl NotFoundKind => inr None
  | inl k => inl (Persistence (PersistenceIo k))
  | inr raw =>
      match decode raw with
      | inl e => inl e
      | inr pl => inr (Some (mkJournal p pl false))
      end
  end.

(** ** Replacement on disk *)

Definition tmp_path (p : string) : string := (p ++ ".tmp")%string.

(** The calls of [persist_blocking_inner] after the record is built. *)
Definition persist_ops (p : string) (out : list Z) : list fs_op :=
  [Create (tmp_path p); WriteAll (tmp_path p) out; SyncAll (tmp_path p); Rename (tmp_path p) p; SyncParent].

Definition persistence_io (k : ErrorKind) : Error := Persistence (PersistenceIo k).

Definition persist_blocking (j : Journal) (fault : option (nat * ErrorKind)) (d : disk)
    : Journal * disk * result unit :=
  if negb (dirty j) then (j, d, inr tt)
  else
    match encode (payload j) with
    | inl e => (j, d, inl e)
    | inr out =>
        match exec persistence_io (persist_ops (path j) out) fault d with
        | (d', inl e) => (j, d', inl e)
        | (d', inr _) => (mkJournal (path j) (payload j) false, d', inr tt)
        end
    end.

Definition read_file (after : string -> option (list Z)) (p : string) : ErrorKind + list Z :=
  match after p with None => inl NotFoundKind | Some b => inr b end.

Lemma take_app_exact {A} (l k : list A) n : length l = n -> take n (l ++ k) = l.
Proof. intros <-. by rewrite take_app_length. Qed.

Lemma drop_app_exact {A} (l k : list A) n : length l = n -> drop n (l ++ k) = k.
Proof. intros <-. by rewrite drop_app_length. Qed.

(** The fields of a framed record, whatever the body. *)
Section frame.
Variables (ver len crc body : list Z).
Hypothesis sizes : length ver = 2%nat /\ length len = 4%nat /\ length crc = 4%nat.
Let raw := MAGIC ++ ver ++ len ++ crc ++ body.

Lemma frame_length : length raw = (18 + length body)%nat.
Proof. destruct sizes as (?&?&?). unfold raw. rewrite !length_app. simpl. lia. Qed.

Lemma frame_fields :
  take 8 raw = MAGIC /\ take 2 (drop 8 raw) = ver /\ take 4 (drop 10 raw) = len /\
  take 4 (drop 14 raw) = crc /\ drop 18 raw = body.
Proof.
  destruct sizes as (H1&H2&H3). unfold raw.
  assert (D8 : drop 8 raw = ver ++ len ++ crc ++ body) by (by apply drop_app_exact).
  assert (D10 : drop 10 raw = len ++ crc ++ body)
    by (change 10%nat with (8 + 2)%nat; rewrite <- drop_drop, D8; by apply drop_app_exact).
  assert (D14 : drop 14 raw = crc ++ body)
    by (change 14%nat with (10 + 4)%nat; rewrite <- drop_drop, D10; by apply drop_app_exact).
  assert (D18 : drop 18 raw = body)
    by (change 18%nat with (14 + 4)%nat; rewrite <- drop_drop, D14; by apply drop_app_exact).
  unfold raw in *. rewrite D8, D10, D14, D18. split_and!; try done; by apply take_app_exact.
Qed.
End frame.

Hypothesis crc_range : forall b, 0 <= crc32c b < 2 ^ 32.

Lemma decode_encoded body :
  Z.of_nat (length body) < 2 ^ 32 ->
  decode (frame body) =
  match from_bytes body with None => inl (journal "postcard") | Some w => inr (of_wire w) end.
Proof.
  intros Hb. unfold frame. rewrite Z.mod_small by lia.
  assert (Hs : length (to_le_bytes 2 FORMAT_VERSION) = 2%nat /\
    length (to_le_bytes 4 (Z.of_nat (length body))) = 4%nat /\ length (to_le_bytes 4 (crc32c body)) = 4%nat)
    by (by rewrite !to_le_bytes_length).
  pose proof (frame_length _ _ _ body Hs) as Hl. destruct (frame_fields _ _ _ body Hs) as (F1&F2&F3&F4&F5).
  unfold decode. rewrite Hl, F1, F2, F3, F4, F5.
  rewrite !le_roundtrip by (try apply crc_range; unfold FORMAT_VERSION; simpl; lia).
  case Nat.ltb_spec; [lia|intros _]. rewrite bool_decide_true by done. cbn [negb]. rewrite Z.eqb_refl. cbn [negb].
  case Z.ltb_spec; [lia|intros _]. rewrite Nat2Z.id, take_ge by lia. by rewrite Z.eqb_refl.
Qed.

(** A record cut short is refused at the header or at the body. *)
Lemma decode_prefix body n :
  Z.of_nat (length body) < 2 ^ 32 -> (n < 18 + length body)%nat ->
  decode (take n (frame body)) =
  inl (journal (if (n <? 18)%nat then "truncated header" else "truncated body")).
Proof.
  intros Hb Hn. unfold frame. rewrite Z.mod_small by lia. set (l4 := to_le_bytes 4 (Z.of_nat _)). set (c4 := to_le_bytes 4 _).
  set (v2 := to_le_bytes 2 _).
  assert (Hs : length v2 = 2%nat /\ length l4 = 4%nat /\ length c4 = 4%nat)
    by (unfold v2, l4, c4; by rewrite !to_le_bytes_length).
  pose proof (frame_length v2 l4 c4 body Hs) as Hl. unfold decode. rewrite length_take_le by lia.
  change (8 + 2 + 4 + 4)%nat with 18%nat. case Nat.ltb_spec; [done|intros Hn2].
  assert (Hcut : take n (MAGIC ++ v2 ++ l4 ++ c4 ++ body) = MAGIC ++ v2 ++ l4 ++ c4 ++ take (n - 18) body).
  { destruct Hs as (S1&S2&S3). rewrite !app_assoc. rewrite take_app_ge; rewrite !length_app, S1, S2, S3; simpl; [done|lia]. }
  rewrite Hcut. destruct (frame_fields v2 l4 c4 (take (n - 18) body) Hs) as (F1&F2&F3&F4&F5).
  rewrite F1, F2, F3, F4, F5. rewrite bool_decide_true by done. cbn [negb].
  unfold v2 at 1. rewrite le_roundtrip by (unfold FORMAT_VERSION; simpl; lia). rewrite Z.eqb_refl. cbn [negb].
  unfold l4. rewrite le_roundtrip by (simpl; lia). case Z.ltb_spec; [done|lia].
Qed.

Hypothesis postcard_roundtrip : forall w b, to_allocvec w = Some b -> from_bytes b = Some w.

Definition payload_wf (p : JournalPayload) : Prop := RangeSet.wf (completed p) /\ RangeSet.wf (durable p).

Lemma wire_roundtrip p : payload_wf p -> of_wire (to_wire p) = p.
Proof.
  intros [H1 H2]. unfold of_wire, to_wire. simpl. rewrite !deserialize_serialize by done. by destruct p.
Qed.

Lemma load_encoded p pl out body : payload_wf pl -> to_allocvec (to_wire pl) = Some body ->
  Z.of_nat (length body) < 2 ^ 32 -> encode pl = inr out ->
  load_blocking p (inr out) = inr (Some (mkJournal p pl false)).
Proof.
  intros Hw Hb Hl He. unfold encode in He. rewrite Hb in He. injection He as <-.
  unfold load_blocking. rewrite decode_encoded by done. by rewrite (postcard_roundtrip _ _ Hb), wire_roundtrip.
Qed.
End codec.

(** ** Power loss *)

Lemma tmp_path_ne p : tmp_path p ≠ p.
Proof.
  unfold tmp_path. intros H. apply (f_equal String.length) in H. revert H.
  induction p as [|a p IH]; simpl; [done|]. intros [= H]. by apply IH.
Qed.

(** Only the rename puts anything at the path, and then the file is synced:
    [n] calls done, and [d] is what they leave. *)
Definition phase (p : string) (old : option (list Z)) (out : list Z) (n : nat) (d : disk) : Prop :=
  safe_disk p old out d /\
  match n with
  | 0%nat => True
  | 1%nat => now_image d !! tmp_path p = Some (mkFile [] false)
  | 2%nat => now_image d !! tmp_path p = Some (mkFile out false)
  | 3%nat => now_image d !! tmp_path p = Some (mkFile out true)
  | 4%nat => now_image d !! p = Some (mkFile out true)
  | _ => now_image d !! p = Some (mkFile out true) /\ rollback d = []
  end.

Lemma phase_step p old out n o d : phase p old out n d -> persist_ops p out !! n = Some o ->
  phase p old out (S n) (apply_op o d).
Proof.
  pose proof (tmp_path_ne p) as Hne. intros [Hs Hn] Ho.
  destruct n as [|[|[|[|[|n]]]]]; simplify_eq/=.
  - split; [apply safe_touch; [done|]|]; simpl; by simplify_map_eq.
  - split; [apply safe_touch; [done|]|]; simpl; by simplify_map_eq.
  - split; [apply safe_touch; [done|]|]; simpl; by simplify_map_eq.
  - rewrite Hn. split; simpl; [|by simplify_map_eq]. constructor; [|done]. right. simpl. by simplify_map_eq.
  - split; simpl; [|done]. constructor; [|constructor]. by apply Forall_cons in Hs as [? _].
Qed.

Lemma during_safe p old out n d d' : phase p old out n d -> during d (drop n (persist_ops p out)) d' ->
  safe_disk p old out d'.
Proof.
  intros Hp Hd. remember (drop n (persist_ops p out)) as ops eqn:Eo. revert n Hp Eo.
  induction Hd as [d ops|d q b1 b2 ops|d q off b1 b2 ops|d o ops d' _ IH]; intros n Hp Eo.
  - apply Hp.
  - pose proof (tmp_path_ne p) as Hne. assert (Hq : q = tmp_path p).
    { destruct n as [|[|[|[|[|n]]]]]; simpl in Eo; rewrite ?drop_nil in Eo; by simplify_eq/=. }
    destruct Hp as [Hs _]. apply safe_touch; [done|]. simpl. subst q. by simplify_map_eq.
  - destruct n as [|[|[|[|[|n]]]]]; simpl in Eo; rewrite ?drop_nil in Eo; by simplify_eq/=.
  - assert (Ho : persist_ops p out !! n = Some o /\ ops = drop (S n) (persist_ops p out)).
    { destruct n as [|[|[|[|[|n]]]]]; simpl in Eo; rewrite ?drop_nil in Eo; by simplify_eq/=. }
    destruct Ho as [Ho ->]. eapply IH; [by eapply phase_step|done].
Qed.

Lemma run_phase p old out d : phase p old out 0 d ->
  exists d', exec persistence_io (persist_ops p out) None d = (d', inr tt) /\ phase p old out 5 d'.
Proof.
  intros H0. eexists. split; [reflexivity|]. do 5 (eapply phase_step; [|reflexivity]). done.
Qed.

(** ** Properties *)

Module JournalSpec.

Inductive op := Complete (now : Z) (r : ByteRange.t) | MarkDurable | Invalidate (r : ByteRange.t) | Clear.

Definition apply (j : Journal) (o : op) : Journal :=
  match o with
  | Complete now r => record_completed now j r
  | MarkDurable => mark_completed_durable j
  | Invalidate r => invalidate j r
  | Clear => clear_ranges j
  end.

Definition op_wf (o : op) : Prop :=
  match o with Complete _ r | Invalidate r => ByteRange.wf r | _ => True end.

Definition ok (j : Journal) : Prop :=
  payload_wf (payload j) /\ bytes_written (payload j) = RangeSet.covered_len (completed (payload j)) /\
  forall x, RangeSet.mem x (durable (payload j)) -> RangeSet.mem x (completed (payload j)).

Lemma apply_ok j o : ok j -> op_wf o -> ok (apply j o).
Proof.
  intros ((Hc&Hd)&Hb&Hs) Hw. unfold ok, payload_wf. destruct o as [now r| |r|]; simpl in *.
  - destruct (RangeSet.insert_wf_mem _ r Hc Hw) as [W M]. split_and!; try done.
    intros x Hx. apply M. left. by apply Hs.
  - done.
  - destruct (RangeSet.remove_wf_mem _ r Hc Hw) as [W M], (RangeSet.remove_wf_mem _ r Hd Hw) as [W' M'].
    split_and!; try done. intros x [Hx Hn]%M'. apply M. auto.
  - split_and!; try done; apply RangeSet.empty_wf.
Qed.

Lemma run_ok ops j : ok j -> Forall op_wf ops -> ok (foldl apply j ops).
Proof. intros Hj Hops. revert j Hj. induction Hops as [|o ops Ho _ IH]; simpl; intros j Hj; [done|]. by apply IH, apply_ok. Qed.

Lemma create_ok p now fp total overlap : ok (create p (JournalPayload_new now fp total overlap)).
Proof. unfold ok, payload_wf. split_and!; try done; apply RangeSet.empty_wf. Qed.

(** However ranges are completed, made durable, invalidated and cleared,
    what the journal calls durable is part of what it calls completed, the byte
    count is that of the completed set, and an invalidated range is in
    neither. *)
Theorem journal_ranges_invariant ops p now fp total overlap :
  Forall op_wf ops ->
  let pl := payload (foldl apply (create p (JournalPayload_new now fp total overlap)) ops) in
  bytes_written pl = RangeSet.covered_len (completed pl) /\
  (forall x, RangeSet.contains (durable pl) x = true -> RangeSet.contains (completed pl) x = true) /\
  (forall r x, ByteRange.wf r -> ByteRange.mem x r ->
     let pl' := payload (foldl apply (create p (JournalPayload_new now fp total overlap)) (ops ++ [Invalidate r])) in
     RangeSet.contains (completed pl') x = false /\ RangeSet.contains (durable pl') x = false).
Proof.
  intros Hops. pose proof (run_ok ops _ (create_ok p now fp total overlap) Hops) as ((Hc&Hd)&Hb&Hs).
  cbv zeta. set (j := foldl apply _ ops) in *. split_and!; [done| |].
  - intros x. rewrite !RangeSet.contains_mem by (apply Hc || apply Hd). apply Hs.
  - intros r x Hr Hx. rewrite foldl_app. fold j. simpl.
    destruct (RangeSet.remove_wf_mem _ r Hc Hr) as [W M], (RangeSet.remove_wf_mem _ r Hd Hr) as [W' M'].
    rewrite <- !not_true_iff_false, !RangeSet.contains_mem by (apply W || apply W'). rewrite M, M'. tauto.
Qed.

Section persistence.
Context (to_allocvec : Wire -> option (list Z)) (from_bytes : list Z -> option Wire) (crc32c : list Z -> Z).

(** What the code relies on: decoding undoes encoding, and the checksum is a [u32]. *)
Definition codec_laws : Prop :=
  (forall w b, to_allocvec w = Some b -> from_bytes b = Some w) /\ (forall b, 0 <= crc32c b < 2 ^ 32).

(** C35. A journal record of less than 4 GiB reads back as the payload it was
    written from, and a record cut short at any byte is refused, never
    misread. *)
Theorem journal_record_roundtrip p pl body out :
  codec_laws -> payload_wf pl -> to_allocvec (to_wire pl) = Some body -> Z.of_nat (length body) < 2 ^ 32 ->
  encode to_allocvec crc32c pl = inr out ->
  load_blocking from_bytes crc32c p (inr out) = inr (Some (mkJournal p pl false)) /\
  forall n, (n < length out)%nat ->
    exists msg, load_blocking from_bytes crc32c p (inr (take n out)) = inl (journal msg).
Proof.
  intros [Hpc Hcrc] Hw Hb Hl He. split; [by eapply load_encoded|]. intros n Hn.
  assert (Hout : out = frame crc32c body) by (unfold encode in He; rewrite Hb in He; congruence).
  subst out. unfold load_blocking. rewrite decode_prefix; [eauto|done..|].
  unfold frame in Hn. rewrite !length_app, !to_le_bytes_length in Hn. simpl in Hn. lia.
Qed.

(** C26. Replacing the record is atomic: with the previous record safely on disk,
    whether a call fails or the power is lost at any moment, in the middle of
    the write included, a later load finds the previous record or the new one;
    and once the call has returned, only the new one. *)
Theorem persist_is_crash_atomic j old body out fault d :
  codec_laws -> payload_wf (payload j) -> to_allocvec (to_wire (payload j)) = Some body ->
  Z.of_nat (length body) < 2 ^ 32 -> encode to_allocvec crc32c (payload j) = inr out ->
  dirty j = true -> now_image d !! path j = (fun b => mkFile b true) <$> old -> rollback d = [] ->
  let before := match old with None => inl NotFoundKind | Some b => inr b end in
  let loads after := load_blocking from_bytes crc32c (path j) (read_file after (path j)) in
  let new := inr (Some (mkJournal (path j) (payload j) false)) in
  (forall d' after, during d (persist_ops (path j) out) d' -> power_loss d' after ->
     loads after = load_blocking from_bytes crc32c (path j) before \/ loads after = new) /\
  match persist_blocking to_allocvec crc32c j fault d with
  | (j', d', inr _) => j' = mkJournal (path j) (payload j) false /\
      forall after, power_loss d' after -> loads after = new
  | (j', d', inl _) => j' = j /\
      forall after, power_loss d' after ->
        loads after = load_blocking from_bytes crc32c (path j) before \/ loads after = new
  end.
Proof.
  intros [Hpc Hcrc] Hw Hb Hl He Hd Hold Hr before loads new.
  assert (H0 : phase (path j) old out 0 d).
  { split; [|done]. constructor; [by left|]. rewrite Hr. constructor. }
  assert (Hnew : load_blocking from_bytes crc32c (path j) (inr out) = new) by (by eapply load_encoded).
  assert (Hsafe : forall d' after, during d (persist_ops (path j) out) d' -> power_loss d' after ->
    loads after = load_blocking from_bytes crc32c (path j) before \/ loads after = new).
  { intros d' after Hdu Hpl. apply (during_safe _ old out 0 _ _ H0) in Hdu.
    unfold loads, read_file. destruct (safe_power_loss _ _ _ _ _ Hdu Hpl) as [E|E]; rewrite E.
    - left. unfold before. by destruct old.
    - by right. }
  split; [done|]. unfold persist_blocking. rewrite Hd, He. cbn [negb].
  destruct (exec persistence_io (persist_ops (path j) out) fault d) as [d' [e|[]]] eqn:Ex.
  - split; [done|]. intros after. apply Hsafe. by eapply exec_during.
  - split; [done|]. assert (H5 : phase (path j) old out 5 d').
    { destruct (run_phase _ _ _ _ H0) as (d2&E2&P2).
      destruct fault as [[[|[|[|[|[|n]]]]] k]|]; simpl in Ex, E2; try done;
        by replace d' with d2 by congruence. }
    destruct H5 as [_ [Hp Hrb]]. intros after (i&Hi&Ha)%Exists_exists. rewrite Hrb in Hi.
    apply list_elem_of_singleton in Hi as ->. specialize (Ha (path j)). rewrite Hp in Ha.
    unfold loads, read_file. by rewrite (Ha eq_refl).
Qed.
End persistence.

(** A codec for concrete runs: it knows one payload. *)
#[local] Instance fingerprint_eq_dec : EqDecision JournaledFingerprint.t.
Proof. solve_decision. Defined.
#[local] Instance wire_eq_dec : EqDecision Wire.
Proof. solve_decision. Defined.

Definition sample_fingerprint : JournaledFingerprint.t :=
  JournaledFingerprint.mk (Some 8) None None "https://example.test/a" [] [] None.
Definition sample : Journal :=
  record_completed 7 (create "a.state" (JournalPayload_new 5 sample_fingerprint (Some 8) 0)) (ByteRange.new 0 4).
Definition one_to_allocvec (w : Wire) : option (list Z) :=
  if decide (w = to_wire (payload sample)) then Some [1; 2; 3] else None.
Definition one_from_bytes (b : list Z) : option Wire :=
  if decide (b = [1; 2; 3]) then Some (to_wire (payload sample)) else None.
Definition sum_crc (b : list Z) : Z := foldr Z.add 0 b mod 2 ^ 32.

Lemma one_codec_laws : codec_laws one_to_allocvec one_from_bytes sum_crc.
Proof.
  split; [|intros b; apply Z.mod_pos_bound; reflexivity]. intros w b. unfold one_to_allocvec, one_from_bytes.
  destruct (decide _) as [->|]; [|done]. intros [= <-]. reflexivity.
Qed.

Lemma sample_wf : payload_wf (payload sample).
Proof.
  apply (run_ok [Complete 7 (ByteRange.new 0 4)]); [apply create_ok|]. repeat constructor; simpl; u64_lia.
Qed.

Lemma journal_ranges_invariant_witness :
  let ops := [Complete 7 (ByteRange.new 0 8); MarkDurable; Invalidate (ByteRange.new 2 6)] in
  RangeSet.ranges (durable (payload (foldl apply sample ops))) = [ByteRange.new 0 2; ByteRange.new 6 8] /\
  bytes_written (payload (foldl apply (create "a.state" (JournalPayload_new 5 sample_fingerprint (Some 8) 0)) ops)) =
  RangeSet.covered_len (completed (payload (foldl apply (create "a.state" (JournalPayload_new 5 sample_fingerprint (Some 8) 0)) ops))).
Proof.
  intros ops. split; [reflexivity|]. apply (journal_ranges_invariant ops "a.state" 5 sample_fingerprint (Some 8) 0).
  repeat constructor; simpl; u64_lia.
Defined.

Definition sample_record : list Z := frame sum_crc [1; 2; 3].

Lemma journal_record_roundtrip_witness :
  length sample_record = 21%nat /\
  load_blocking one_from_bytes sum_crc "a.state" (inr sample_record) =
    inr (Some (mkJournal "a.state" (payload sample) false)).
Proof.
  split; [reflexivity|].
  apply (journal_record_roundtrip one_to_allocvec one_from_bytes sum_crc "a.state" (payload sample) [1; 2; 3]
    sample_record one_codec_laws sample_wf eq_refl ltac:(reflexivity) eq_refl).
Defined.

Lemma persist_is_crash_atomic_witness :
  let d := mkDisk ∅ [] in
  let d1 := (persist_blocking one_to_allocvec sum_crc sample (Some (2%nat, OtherKind)) d).1.2 in
  now_image d1 !! "a.state.tmp" = Some (mkFile sample_record false) /\
  forall after, power_loss d1 after ->
    load_blocking one_from_bytes sum_crc "a.state" (read_file after "a.state") = inr None \/
    load_blocking one_from_bytes sum_crc "a.state" (read_file after "a.state") =
      inr (Some (mkJournal "a.state" (payload sample) false)).
Proof.
  intros d d1. split; [reflexivity|].
  pose proof (persist_is_crash_atomic one_to_allocvec one_from_bytes sum_crc sample None [1; 2; 3] sample_record
    (Some (2%nat, OtherKind)) d one_codec_laws sample_wf eq_refl ltac:(reflexivity) eq_refl eq_refl eq_refl eq_refl)
    as [_ [_ H]]. exact H.
Defined.
End JournalSpec.
