(* ===== verification/Fetch.v ===== *)
(** * Range and full-body fetches ([http/mod.rs], [http/fetch.rs]).

    One request: its headers, the checks of the response head, and the loop that
    cuts the body into chunks at absolute offsets and hands them to a sink. The
    connection, the sink, the memory budget and the shared representation lock
    are an environment of operations; the clock is not modelled, so deadlines
    and cancellation appear as errors those operations may return. *)

From Stdlib Require Import Ascii String.
From S2P Require Import Prelude Ranges Errors Text HttpRange Representation Spec Reorder.
Local Open Scope Z_scope.

(** ** Header maps

    The [http] crate's [HeaderMap], with the operations the code uses and what
    its documentation says of them; names are lower case. *)

Class HeaderMapLib := {
  HeaderMap : Type;
  hm_empty : HeaderMap;
  hm_insert : HeaderMap -> string -> string -> HeaderMap;
  hm_append : HeaderMap -> string -> string -> HeaderMap;
  hm_iter : HeaderMap -> list (string * string);
  (** [HeaderValue::from_str] accepts it. *)
  value_ok : string -> bool;
  (** [HeaderValue::to_str]. *)
  to_str : string -> option string }.

Section header_views.
Context {H : HeaderMapLib}.
Definition hm_get_all (m : HeaderMap) (n : string) : list string := snd <$> filter (fun e => e.1 = n) (hm_iter m).
Definition hm_get (m : HeaderMap) (n : string) : option string := head (hm_get_all m n).
Definition hm_contains_key (m : HeaderMap) (n : string) : bool := bool_decide (hm_get_all m n ≠ []).

(** [get(name).and_then(|v| v.to_str().ok())]. *)
Definition header_str (m : HeaderMap) (n : string) : option string :=
  match hm_get m n with Some v => to_str v | None => None end.

Definition and_then {A B} (o : option A) (f : A -> option B) : option B :=
  match o with Some a => f a | None => None end.
End header_views.

Class HeaderMapLaws (H : HeaderMapLib) := {
  hm_all_empty n : hm_get_all hm_empty n = [];
  hm_all_insert m n v n' : hm_get_all (hm_insert m n v) n' = if decide (n' = n) then [v] else hm_get_all m n';
  hm_all_append m n v n' :
    hm_get_all (hm_append m n v) n' = hm_get_all m n' ++ (if decide (n' = n) then [v] else []) }.

Section fetch.
Context {H : HeaderMapLib}.

(** ** Request heads *)

Definition apply_request_defaults (user_agent : string) (h : HeaderMap) : HeaderMap :=
  let h1 := if hm_contains_key h "user-agent" then h else hm_insert h "user-agent" user_agent in
  if hm_contains_key h1 "accept" then h1 else hm_insert h1 "accept" "*/*".

Definition append_all (h extra : HeaderMap) : HeaderMap :=
  foldl (fun acc e => hm_append acc e.1 e.2) h (hm_iter extra).

Definition range_request_headers (user_agent : string) (range : ByteRange.t) (if_range : option string)
    (allow_compressed : bool) (extra : HeaderMap) : HeaderMap :=
  let h := hm_insert hm_empty "range" (ByteRange.to_http_range range) in
  let h := if negb allow_compressed then hm_insert h "accept-encoding" "identity" else h in
  let h := match if_range with
           | Some v => if value_ok v then hm_insert h "if-range" v else h
           | None => h
           end in
  apply_request_defaults user_agent (append_all h extra).

(** ** The environment of a fetch *)

Record Response := mkResponse { status : Z; headers : HeaderMap }.

Inductive WireProtocol := Http1 | Http2 | Http3.

(** [W] is everything outside the handler: the connection and what the server
    still sends, the sink and its dynamic end (which other threads lower between
    reads), the memory budget and the lock shared by a job's fetches. *)
Record Env (W : Type) := mkEnv {
  send_get : HeaderMap -> W -> W * result Response;
  next_data : W -> W * result (option (list byte));
  end_offset : W -> W * option Z;
  acquire_memory : Z -> W -> W * result unit;
  sink_accept : TransferChunk -> W -> W * result unit;
  sink_finish : W -> W * result unit;
  rep_lock : W -> RepresentationLock.t;
  set_rep_lock : RepresentationLock.t -> W -> W;
  protocol_of : W -> WireProtocol;
  sender_is_ready : W -> bool;
  sender_is_closed : W -> bool;
  memory_limit : Z;
  max_chunk_size : Z;
  user_agent : string;
  parse_http_date : string -> option Z;
  now : W -> Z }.

Arguments send_get {W} e. Arguments next_data {W} e. Arguments end_offset {W} e.
Arguments acquire_memory {W} e. Arguments sink_accept {W} e. Arguments sink_finish {W} e.
Arguments rep_lock {W} e. Arguments set_rep_lock {W} e. Arguments protocol_of {W} e.
Arguments sender_is_ready {W} e. Arguments sender_is_closed {W} e. Arguments memory_limit {W} e.
Arguments max_chunk_size {W} e. Arguments user_agent {W} e. Arguments parse_http_date {W} e.
Arguments now {W} e.

(** A step on the environment that may fail. *)
Definition M (W A : Type) : Type := W -> W * result A.
Definition ret {W A} (a : A) : M W A := fun w => (w, inr a).
Definition fail {W A} (e : Error) : M W A := fun w => (w, inl e).
Definition bind {W A B} (m : M W A) (k : A -> M W B) : M W B :=
  fun w => match m w with (w', inl e) => (w', inl e) | (w', inr a) => k a w' end.
Definition lift {W A} (r : result A) : M W A := fun w => (w, r).
Definition get {W A} (f : W -> A) : M W A := fun w => (w, inr (f w)).
Definition reads {W A} (f : W -> W * A) : M W A := fun w => let '(w', a) := f w in (w', inr a).

Notation "'let!' x := m 'in' k" := (bind m (fun x => k)) (at level 10, x binder, m at level 100, k at level 200).

Section handler.
Context {W : Type} (env : Env W).

Record SourceContext := mkSource {
  host : option string; if_range : option string; allow_compressed : bool; extra_headers : HeaderMap }.

Record RangeFetch := mkFetch { source : SourceContext; range : ByteRange.t; overlap : Z; is_resume : bool }.

(** The variables the delivery loop updates through [&mut]. *)
Record locals := mkLocals {
  offset : Z; received : Z; useful_received : Z; truncated : bool; dest_accepts : Z }.

Definition observe_identity (hdrs : HeaderMap) (total : option Z) : M W unit := fun w =>
  let etag := header_str hdrs "etag" in
  let last_modified := and_then (header_str hdrs "last-modified") (parse_http_date env) in
  let '(l, r) := RepresentationLock.validate (rep_lock env w) etag last_modified total in
  (set_rep_lock env l w, r).

(** [deliver_range_bytes]; [data] is what the [while] loop has not consumed yet,
    [None] means the fuel ran out. *)
Fixpoint deliver_range_bytes (fuel : nat) (data : list byte) (own wire : ByteRange.t) (l : locals)
    : M W (option locals) :=
  match fuel with
  | O => ret None
  | S fuel' =>
      match data with
      | [] => ret (Some l)
      | _ :: _ =>
          let len := Z.of_nat (length data) in
          let! e := reads (end_offset env) in
          let dynamic_end := Z.min (default (ByteRange.end_ wire) e) (ByteRange.end_ wire) in
          if offset l >=? dynamic_end then
            ret (Some (mkLocals (offset l) (received l) (useful_received l) (dynamic_end <? ByteRange.end_ wire)
                         (dest_accepts l)))
          else
            let remaining_wire := ByteRange.end_ wire -% offset l in
            let! oversized := (if len >? remaining_wire
                               then let! e2 := reads (end_offset env) in ret (bool_decide (e2 = None))
                               else ret false) in
            if (oversized : bool) then
              fail (Http (OversizedBody (received l +% len) (ByteRange.len wire)))
            else
              let amount := Z.min (Z.min (Z.min len (dynamic_end -% offset l)) (memory_limit env))
                              (max_chunk_size env) in
              let! _ := acquire_memory env amount in
              let! _ := sink_accept env (mkChunk (offset l) (take (Z.to_nat amount) data)) in
              let offset' := offset l +% amount in
              let owned_start := Z.max (offset' -% amount) (ByteRange.start own) in
              let owned_end := Z.min offset' (ByteRange.end_ own) in
              deliver_range_bytes fuel' (drop (Z.to_nat amount) data) own wire
                (mkLocals offset' (received l +% amount)
                   (u64_sat_add (useful_received l) (u64_sat_sub owned_end owned_start))
                   (truncated l) (dest_accepts l +% 1))
      end
  end.

(** The receive loop: [None] for fuel, one unit per frame. *)
Fixpoint receive_range (fuel : nat) (own wire : ByteRange.t) (l : locals) : M W (option locals) :=
  match fuel with
  | O => ret None
  | S fuel' =>
      let! data := next_data env in
      match data with
      | None => ret (Some l)
      | Some data =>
          let! r := deliver_range_bytes (S (length data)) data own wire l in
          match r with
          | None => ret None
          | Some l' => if truncated l' then ret (Some l') else receive_range fuel' own wire l'
          end
      end
  end.

(** ** Whole fetches *)

Inductive RangeFetchCompletion := FullyConsumed | IntentionallyTruncated.

(** Of the sample, the byte and chunk counts; its times are the clock's. *)
Record RangeFetchOutcome := mkOutcome {
  sample_bytes : Z; sample_dest_accepts : Z; completion : RangeFetchCompletion; was_truncated : bool;
  connection_reusable : bool }.

(** [close] among the comma-separated tokens; on a header value [trim_ascii] and
    [trim] agree, since it holds no vertical tab. *)
Definition lists_close (v : string) : bool :=
  existsb (fun token => eq_ignore_ascii_case (trim token) "close") (split "," v).

Definition has_connection_close (h : HeaderMap) : bool :=
  existsb lists_close (hm_get_all h "connection" ++ hm_get_all h "proxy-connection").

Definition is_compressed_payload (src : SourceContext) (h : HeaderMap) : bool :=
  negb (allow_compressed src) &&
  match hm_get h "content-encoding" with Some v => negb (String.eqb v "identity") | None => false end.

Definition with_host (src : SourceContext) (h : HeaderMap) : HeaderMap :=
  match host src with Some v => if value_ok v then hm_insert h "host" v else h | None => h end.

Definition wire_range_of (f : RangeFetch) : ByteRange.t :=
  ByteRange.new (u64_sat_sub (ByteRange.start (range f)) (overlap f)) (ByteRange.end_ (range f)).

(** The checks between the response head and the body: what they return is the
    complete length the response announces. *)
Definition check_range_head (f : RangeFetch) (resp : Response) : M W (option Z) :=
  let wire := wire_range_of f in
  let! t := get (now env) in
  let retry_after := and_then (header_str (headers resp) "retry-after") (parse_retry_after (parse_http_date env) t) in
  match classify_status (status resp) (Some wire) retry_after (is_resume f) with
  | Accept =>
      let! total := (if status resp =? 206 then
                       match header_str (headers resp) "content-range" with
                       | None => fail (protocol "206 without Content-Range")
                       | Some value =>
                           let! cr := lift (ContentRange.parse_content_range value) in
                           let! _ := lift (ContentRange.validate_against cr wire) in
                           ret (ContentRange.complete_length cr)
                       end
                     else fail (Http RangeCapabilityLost)) in
      if is_compressed_payload (source f) (headers resp) then fail (Http CompressedPayload)
      else
        let! _ := observe_identity (headers resp) total in
        ret total
  | d => fail (Http (Dispositioned d (status resp)))
  end.

Definition session_reusable (h1 : bool) (w : W) : bool :=
  match protocol_of env w with
  | Http1 => h1
  | Http2 => sender_is_ready env w && negb (sender_is_closed env w)
  | Http3 => true
  end.

Definition finish_range (connection_close : bool) (l : locals) : M W (option RangeFetchOutcome) :=
  let c := if truncated l then IntentionallyTruncated else FullyConsumed in
  let! reusable := get (session_reusable (match c with FullyConsumed => true | _ => false end)) in
  ret (Some (mkOutcome (useful_received l) (dest_accepts l) c (truncated l) (negb connection_close && reusable))).

(** [None]: out of fuel, one unit per body frame. *)
Definition fetch_range (fuel : nat) (f : RangeFetch) : M W (option RangeFetchOutcome) :=
  let wire := wire_range_of f in
  let head := with_host (source f)
                (range_request_headers (user_agent env) wire (if_range (source f)) (allow_compressed (source f))
                   (extra_headers (source f))) in
  let! resp := send_get env head in
  let! total := check_range_head f resp in
  let expected := if status resp =? 206 then Some (ByteRange.len wire) else total in
  let! r := receive_range fuel (range f) wire (mkLocals (ByteRange.start wire) 0 0 false 0) in
  match r with
  | None => ret None
  | Some l =>
      let! _ := sink_finish env in
      match (if truncated l then None else expected) with
      | Some e =>
          if negb (received l =? e) then
            if received l >? e then fail (Http (OversizedBody (received l) e))
            else fail (Http (PrematureEof (received l) e))
          else finish_range (has_connection_close (headers resp)) l
      | None => finish_range (has_connection_close (headers resp)) l
      end
  end.

(** ** The full-body fetch *)

Record full_locals := mkFull { f_offset : Z; f_dest_accepts : Z }.

(** The inner [while] loop of [fetch_full_body]. *)
Fixpoint deliver_full (fuel : nat) (data : list byte) (l : full_locals) : M W (option full_locals) :=
  match fuel with
  | O => ret None
  | S fuel' =>
      match data with
      | [] => ret (Some l)
      | _ :: _ =>
          let amount := Z.min (Z.min (Z.of_nat (length data)) (memory_limit env)) (max_chunk_size env) in
          let! _ := acquire_memory env amount in
          let! _ := sink_accept env (mkChunk (f_offset l) (take (Z.to_nat amount) data)) in
          deliver_full fuel' (drop (Z.to_nat amount) data)
            (mkFull (f_offset l +% amount) (f_dest_accepts l +% 1))
      end
  end.

Fixpoint receive_full (fuel : nat) (l : full_locals) : M W (option full_locals) :=
  match fuel with
  | O => ret None
  | S fuel' =>
      let! data := next_data env in
      match data with
      | None => ret (Some l)
      | Some data =>
          let! r := deliver_full (S (length data)) data l in
          match r with None => ret None | Some l' => receive_full fuel' l' end
      end
  end.

Definition check_full_head (src : SourceContext) (resp : Response) : M W (option Z) :=
  if status resp =? 206 then fail (Http UnexpectedPartialContent)
  else
    let! t := get (now env) in
    let retry_after := and_then (header_str (headers resp) "retry-after") (parse_retry_after (parse_http_date env) t) in
    match classify_status (status resp) None retry_after false with
    | Accept =>
        if is_compressed_payload src (headers resp) then fail (Http CompressedPayload)
        else
          let expected := and_then (header_str (headers resp) "content-length") parse_u64 in
          let! _ := observe_identity (headers resp) expected in
          ret expected
    | d => fail (Http (Dispositioned d (status resp)))
    end.

Record FullBodyOutcome := mkFullOutcome { full_bytes : Z; full_dest_accepts : Z; full_reusable : bool }.

Definition finish_full (connection_close : bool) (l : full_locals) : M W (option FullBodyOutcome) :=
  let! reusable := get (session_reusable true) in
  ret (Some (mkFullOutcome (f_offset l) (f_dest_accepts l) (negb connection_close && reusable))).

Definition fetch_full_body (fuel : nat) (src : SourceContext) : M W (option FullBodyOutcome) :=
  let h := apply_request_defaults (user_agent env) (extra_headers src) in
  let h := if negb (allow_compressed src) then hm_insert h "accept-encoding" "identity" else h in
  let! resp := send_get env (with_host src h) in
  let! expected := check_full_head src resp in
  let! r := receive_full fuel (mkFull 0 0) in
  match r with
  | None => ret None
  | Some l =>
      let! _ := sink_finish env in
      match expected with
      | Some e =>
          if negb (f_offset l =? e) then
            if f_offset l >? e then fail (Http (OversizedBody (f_offset l) e))
            else fail (Http (PrematureEof (f_offset l) e))
          else finish_full (has_connection_close (headers resp)) l
      | None => finish_full (has_connection_close (headers resp)) l
      end
  end.

(** ** What the environment's operations do

    [log] is every chunk the sink accepted so far, [stream] every body byte the
    connection has yielded. *)
Class EnvLaws (log : W -> list TransferChunk) (stream : W -> list byte) := {
  law_send h w w' r : send_get env h w = (w', r) -> log w' = log w /\ (forall resp, r = inr resp -> stream w' = []);
  law_data w w' r : next_data env w = (w', r) ->
    log w' = log w /\ stream w' = stream w ++ (match r with inr (Some d) => d | _ => [] end);
  law_end w w' e : end_offset env w = (w', e) -> log w' = log w /\ stream w' = stream w;
  law_acquire n w w' r : acquire_memory env n w = (w', r) -> log w' = log w /\ stream w' = stream w;
  law_accept c w w' r : sink_accept env c w = (w', r) ->
    log w' = log w ++ (match r with inr _ => [c] | inl _ => [] end) /\ stream w' = stream w;
  law_finish w w' r : sink_finish env w = (w', r) -> log w' = log w /\ stream w' = stream w;
  law_lock l w : log (set_rep_lock env l w) = log w /\ stream (set_rep_lock env l w) = stream w;
  law_limits : 1 <= memory_limit env /\ 1 <= max_chunk_size env }.

(** Chunks one after the other from [base] on. *)
Fixpoint contiguous (base : Z) (cs : list TransferChunk) : Prop :=
  match cs with
  | [] => True
  | c :: cs' => Reorder.offset c = base /\ 0 < Reorder.len c /\ contiguous (base + Reorder.len c) cs'
  end.

Definition bytes_of (cs : list TransferChunk) : list byte := cs ≫= payload.

Lemma contiguous_app base cs ds :
  contiguous base (cs ++ ds) <-> contiguous base cs /\ contiguous (base + Z.of_nat (length (bytes_of cs))) ds.
Proof.
  revert base. induction cs as [|c cs IH]; intros base; simpl; [rewrite Z.add_0_r; tauto|].
  rewrite IH. unfold bytes_of. simpl. rewrite length_app. unfold Reorder.len.
  replace (base + Z.of_nat (length (payload c)) + Z.of_nat (length (cs ≫= payload)))
    with (base + Z.of_nat (length (payload c) + length (cs ≫= payload))) by lia. tauto.
Qed.

Lemma bytes_of_cons c cs : bytes_of (c :: cs) = payload c ++ bytes_of cs.
Proof. done. Qed.

Lemma bytes_of_app cs ds : bytes_of (cs ++ ds) = bytes_of cs ++ bytes_of ds.
Proof. apply bind_app. Qed.

Lemma bind_ok {A B} (m : M W A) (k : A -> M W B) w w' b :
  bind m k w = (w', inr b) -> exists w1 a, m w = (w1, inr a) /\ k a w1 = (w', inr b).
Proof. unfold bind. destruct (m w) as [w1 [e|a]]; [done|]. eauto. Qed.

Lemma bind_get {A B} (f : W -> A) (k : A -> M W B) w : bind (get f) k w = k (f w) w.
Proof. done. Qed.

Lemma ret_ok {A} (a b : A) (w w' : W) : ret a w = (w', inr b) -> w' = w /\ b = a.
Proof. by intros [= -> ->]. Qed.

Lemma reads_ok {A} (f : W -> W * A) w w' a : reads f w = (w', inr a) -> f w = (w', a).
Proof. unfold reads. destruct (f w) as [w1 a1]. by intros [= -> ->]. Qed.

(** How many offsets of [a, b) belong to the range the assignment owns. *)
Definition owned (own : ByteRange.t) (a b : Z) : Z :=
  Z.max 0 (Z.min b (ByteRange.end_ own) - Z.max a (ByteRange.start own)).

Section delivery.
Context (log : W -> list TransferChunk) (stream : W -> list byte) `{!EnvLaws log stream}.
Variables (own wire : ByteRange.t).
Hypothesis ranges_ok :
  0 <= ByteRange.start wire <= ByteRange.end_ wire /\ ByteRange.end_ wire <= u64_max /\
  0 <= ByteRange.start own <= ByteRange.end_ own /\ ByteRange.end_ own <= u64_max.

Record locals_ok (l : locals) : Prop := {
  lo_offset : ByteRange.start wire <= offset l <= ByteRange.end_ wire;
  lo_received : received l = offset l - ByteRange.start wire;
  lo_useful : useful_received l = owned own (ByteRange.start wire) (offset l) }.

Lemma amount_bounds len o dyn : 0 <= o < dyn -> dyn <= u64_max -> 0 < len ->
  let n := Z.min (Z.min (Z.min len (dyn -% o)) (memory_limit env)) (max_chunk_size env) in
  0 < n <= len /\ o + n <= dyn.
Proof.
  intros Ho Hd Hl. destruct (law_limits (log := log) (stream := stream)) as [L1 L2].
  rewrite u64_sub_small by u64_lia. simpl. lia.
Qed.

Lemma locals_step l n k : locals_ok l -> 0 < n -> offset l + n <= ByteRange.end_ wire ->
  locals_ok (mkLocals (offset l +% n) (received l +% n)
    (u64_sat_add (useful_received l)
       (u64_sat_sub (Z.min (offset l +% n) (ByteRange.end_ own))
          (Z.max ((offset l +% n) -% n) (ByteRange.start own)))) (truncated l) k) /\
  (offset l +% n) = offset l + n.
Proof.
  intros [H1 H2 H3] Hn Hb. rewrite (u64_add_small (offset l)) by u64_lia.
  rewrite u64_sub_small by u64_lia. split; [|done].
  split; simpl; [lia|rewrite u64_add_small by u64_lia; lia|].
  rewrite H3. unfold owned, u64_sat_add, u64_sat_sub. u64_lia.
Qed.

Lemma read_end w w' e : reads (end_offset env) w = (w', inr e) -> log w' = log w /\ stream w' = stream w.
Proof. intros Hr. apply reads_ok in Hr. by eapply law_end. Qed.

(** The second look at the sink's end, taken only when the frame overflows. *)
Lemma read_oversized len rem w w' (b : bool) :
  (if len >? rem then let! e2 := reads (end_offset env) in ret (bool_decide (e2 = None)) else ret false) w
    = (w', inr b) -> log w' = log w /\ stream w' = stream w.
Proof.
  destruct (len >? rem); [|by intros [-> _]%ret_ok].
  intros (w1&e2&Hr&[-> _]%ret_ok)%bind_ok. by eapply read_end.
Qed.

Lemma deliver_spec fuel data l w w' l' : locals_ok l ->
  deliver_range_bytes fuel data own wire l w = (w', inr (Some l')) ->
  exists cs rest, data = bytes_of cs ++ rest /\ log w' = log w ++ cs /\ stream w' = stream w /\
    contiguous (offset l) cs /\ locals_ok l' /\ offset l' = offset l + Z.of_nat (length (bytes_of cs)) /\
    (rest = [] /\ truncated l' = truncated l \/
     rest ≠ [] /\ (truncated l' = false -> offset l' = ByteRange.end_ wire)).
Proof.
  revert data l w. induction fuel as [|fuel IH]; intros data l w Hl Hd; [done|].
  destruct data as [|x data]; [apply ret_ok in Hd as [-> [= ->]]; exists [], []; simpl;
    rewrite app_nil_r; split_and!; try done; [lia|by left]|].
  cbn [deliver_range_bytes] in Hd. apply bind_ok in Hd as (w1&e&E1&Hd). apply read_end in E1 as [L1 S1].
  set (dyn := Z.min _ _) in Hd. assert (Hdyn : dyn <= ByteRange.end_ wire) by (unfold dyn; lia).
  pose proof Hl as [H1 H2 H3]. rewrite Z.geb_leb in Hd. destruct (Z.leb_spec dyn (offset l)) as [Hge|Hlt].
  { apply ret_ok in Hd as [-> [= ->]]. exists [], (x :: data). simpl. rewrite app_nil_r. split_and!; try done; [lia|].
    right. split; [done|]. case Z.ltb_spec; [done|lia]. }
  apply bind_ok in Hd as (w2&b&E2&Hd). apply read_oversized in E2 as [L2 S2]. destruct b; [done|].
  destruct (amount_bounds (Z.of_nat (length (x :: data))) (offset l) dyn) as [A1 A2]; [lia|lia|simpl; lia|].
  set (n := Z.min _ _) in Hd, A1, A2.
  apply bind_ok in Hd as (w3&[]&E3&Hd). apply law_acquire in E3 as [L3 S3].
  apply bind_ok in Hd as (w4&[]&E4&Hd). apply law_accept in E4 as [L4 S4].
  destruct (locals_step l n (dest_accepts l +% 1) Hl) as [Hl' Ho]; [lia|lia|].
  apply IH in Hd as (cs&rest&I1&I2&I3&I4&I5&I6&I7); [|exact Hl']. simpl in I4, I6, I7. rewrite Ho in I4, I6.
  set (c := mkChunk (offset l) (take (Z.to_nat n) (x :: data))) in *.
  assert (Hc : Reorder.len c = n) by (unfold Reorder.len, c; simpl payload; rewrite length_take; lia).
  exists (c :: cs), rest. split_and!; try done.
  - rewrite bytes_of_cons, <- app_assoc, <- I1. unfold c. simpl payload. by rewrite take_drop.
  - rewrite I2, L4, L3, L2, L1, <- app_assoc. done.
  - by rewrite I3, S4, S3, S2, S1.
  - simpl. split_and!; [done|lia|by rewrite Hc].
  - rewrite bytes_of_cons, length_app, I6. unfold Reorder.len in Hc. lia.
Qed.

Lemma receive_spec fuel l w w' l' : locals_ok l -> truncated l = false ->
  receive_range fuel own wire l w = (w', inr (Some l')) ->
  exists cs bs, log w' = log w ++ cs /\ stream w' = stream w ++ bs /\ contiguous (offset l) cs /\
    bytes_of cs `prefix_of` bs /\ locals_ok l' /\ offset l' = offset l + Z.of_nat (length (bytes_of cs)) /\
    (truncated l' = false -> bytes_of cs = bs \/ offset l' = ByteRange.end_ wire).
Proof.
  revert l w. induction fuel as [|fuel IH]; intros l w Hl Ht Hr; [done|]. cbn [receive_range] in Hr.
  apply bind_ok in Hr as (w1&[data|]&E1&Hr); apply law_data in E1 as [L1 S1].
  2:{ apply ret_ok in Hr as [-> [= ->]]. exists [], []. rewrite app_nil_r in S1. simpl.
      rewrite !app_nil_r. split_and!; try done; try lia. by left. }
  apply bind_ok in Hr as (w2&[l1|]&E2&Hr); [|done].
  apply deliver_spec in E2 as (cs1&rest&D1&D2&D3&D4&D5&D6&D7); [|done].
  assert (Hstop : forall cs2 bs2, rest ≠ [] -> bytes_of cs2 = [] -> bytes_of (cs1 ++ cs2) `prefix_of` (data ++ bs2)).
  { intros cs2 bs2 _ Hc. rewrite bytes_of_app, Hc, app_nil_r, D1. exists (rest ++ bs2). by rewrite app_assoc. }
  destruct (truncated l1) eqn:E3.
  - apply ret_ok in Hr as [-> [= ->]]. exists cs1, data. rewrite D2, L1, D3, S1, D1.
    split_and!; try done; [by exists rest|congruence].
  - apply IH in Hr as (cs2&bs2&I1&I2&I3&I4&I5&I6&I7); [|done..].
    exists (cs1 ++ cs2), (data ++ bs2). rewrite I1, D2, L1, I2, D3, S1, <- !app_assoc.
    split_and!; try done.
    + apply contiguous_app. by rewrite <- D6.
    + destruct D7 as [[-> _]|[Hne Hend]].
      * rewrite app_nil_r in D1. rewrite bytes_of_app, D1. by apply prefix_app.
      * apply Hstop; [done|]. specialize (Hend eq_refl). destruct I5 as [[_ Hub] _ _].
        destruct (bytes_of cs2); [done|simpl in *; lia].
    + rewrite bytes_of_app, length_app. lia.
    + intros Ht'. destruct D7 as [[-> _]|[Hne Hend]].
      * rewrite app_nil_r in D1. destruct (I7 Ht') as [Hb|Hb]; [left|by right]. by rewrite bytes_of_app, D1, Hb.
      * right. specialize (Hend eq_refl). destruct I5 as [[_ Hub] _ _]. lia.
Qed.

(** Neither loop runs out: each turn of the inner one takes a byte at least. *)
Lemma deliver_total fuel data l w w' : locals_ok l -> (length data < fuel)%nat ->
  deliver_range_bytes fuel data own wire l w ≠ (w', inr None).
Proof.
  revert data l w. induction fuel as [|fuel IH]; intros data l w Hl Hf; [lia|].
  destruct data as [|x data]; [done|]. cbn [deliver_range_bytes]. intros Hd.
  apply bind_ok in Hd as (w1&e&E1&Hd). set (dyn := Z.min _ _) in Hd.
  assert (Hdyn : dyn <= ByteRange.end_ wire) by (unfold dyn; lia).
  pose proof Hl as [H1 H2 H3]. rewrite Z.geb_leb in Hd. destruct (Z.leb_spec dyn (offset l)) as [Hge|Hlt]; [done|].
  apply bind_ok in Hd as (w2&b&E2&Hd). destruct b; [done|].
  destruct (amount_bounds (Z.of_nat (length (x :: data))) (offset l) dyn) as [A1 A2]; [lia|lia|simpl; lia|].
  set (n := Z.min _ _) in Hd, A1, A2.
  apply bind_ok in Hd as (w3&[]&E3&Hd). apply bind_ok in Hd as (w4&[]&E4&Hd).
  destruct (locals_step l n (dest_accepts l +% 1) Hl) as [Hl' Ho]; [lia|lia|].
  eapply IH; [exact Hl'| |exact Hd]. rewrite length_drop. simpl length in *. lia.
Qed.
End delivery.

(** ** The head checks *)

Lemma observe_ok hdrs total w w' : observe_identity hdrs total w = (w', inr tt) ->
  exists l', w' = set_rep_lock env l' w /\
    RepresentationLock.validate (rep_lock env w) (header_str hdrs "etag")
      (and_then (header_str hdrs "last-modified") (parse_http_date env)) total = (l', inr tt).
Proof.
  unfold observe_identity. destruct (RepresentationLock.validate _ _ _ _) as [l' [e|[]]]; [done|]. intros [= <-]. eauto.
Qed.

(** What a response head has shown once the body is read. *)
Definition head_ok (f : RangeFetch) (resp : Response) (total : option Z) (w w' : W) : Prop :=
  status resp = 206 /\ is_compressed_payload (source f) (headers resp) = false /\
  (exists v cr, header_str (headers resp) "content-range" = Some v /\
     ContentRange.parse_content_range v = inr cr /\ ContentRange.validate_against cr (wire_range_of f) = inr tt /\
     ContentRange.complete_length cr = total) /\
  exists l', w' = set_rep_lock env l' w /\
    RepresentationLock.validate (rep_lock env w) (header_str (headers resp) "etag")
      (and_then (header_str (headers resp) "last-modified") (parse_http_date env)) total = (l', inr tt).

Lemma check_range_head_ok f resp w w' total :
  check_range_head f resp w = (w', inr total) -> head_ok f resp total w w'.
Proof.
  unfold check_range_head. rewrite bind_get. destruct (classify_status _ _ _ _); try done. intros Hc.
  apply bind_ok in Hc as (w1&t&E1&Hc). case (Z.eqb_spec (status resp) 206) in E1; [|done].
  destruct (header_str (headers resp) "content-range") as [v|] eqn:Ev; [|done].
  apply bind_ok in E1 as (w2&cr&[= <- Ecr]&E1). apply bind_ok in E1 as (w3&[]&[= <- Eva]&E1).
  apply ret_ok in E1 as [-> ->]. destruct (is_compressed_payload _ _) eqn:Ecp; [done|].
  apply bind_ok in Hc as (w4&[]&Eo&Hc). apply ret_ok in Hc as [-> ->].
  split; [done|]. split; [done|]. split; [by exists v, cr|]. by apply observe_ok.
Qed.

(** ** The full body *)

Section full_delivery.
Context (log : W -> list TransferChunk) (stream : W -> list byte) `{!EnvLaws log stream}.

Lemma deliver_full_spec fuel data l w w' l' :
  0 <= f_offset l -> f_offset l + Z.of_nat (length data) <= u64_max ->
  deliver_full fuel data l w = (w', inr (Some l')) ->
  exists cs, data = bytes_of cs /\ log w' = log w ++ cs /\ stream w' = stream w /\
    contiguous (f_offset l) cs /\ f_offset l' = f_offset l + Z.of_nat (length data).
Proof.
  revert data l w. induction fuel as [|fuel IH]; intros data l w H0 Hb Hd; [done|].
  destruct data as [|x data].
  { apply ret_ok in Hd as [-> [= ->]]. exists []. simpl. rewrite app_nil_r. split_and!; try done. lia. }
  cbn [deliver_full] in Hd. destruct (law_limits (log := log) (stream := stream)) as [M1 M2].
  set (n := Z.min _ _) in Hd.
  assert (Hn : 0 < n <= Z.of_nat (length (x :: data))) by (unfold n; simpl length; lia).
  apply bind_ok in Hd as (w3&[]&E3&Hd). apply law_acquire in E3 as [L3 S3].
  apply bind_ok in Hd as (w4&[]&E4&Hd). apply law_accept in E4 as [L4 S4].
  assert (Hl : Z.of_nat (length (drop (Z.to_nat n) (x :: data))) = Z.of_nat (length (x :: data)) - n)
    by (rewrite length_drop; lia).
  rewrite (u64_add_small (f_offset l)) in Hd by u64_lia.
  apply IH in Hd as (cs&I1&I2&I3&I4&I5); simpl f_offset in *; [|lia|lia].
  set (c := mkChunk (f_offset l) (take (Z.to_nat n) (x :: data))) in *.
  assert (Hc : Reorder.len c = n) by (unfold Reorder.len, c; simpl payload; rewrite length_take; lia).
  exists (c :: cs). split_and!.
  - rewrite bytes_of_cons, <- I1. unfold c. simpl payload. by rewrite take_drop.
  - by rewrite I2, L4, L3, <- app_assoc.
  - by rewrite I3, S4, S3.
  - simpl contiguous. split_and!; [done|lia|by rewrite Hc].
  - lia.
Qed.

Lemma deliver_full_stream fuel data l w w' l' :
  deliver_full fuel data l w = (w', inr (Some l')) -> stream w' = stream w.
Proof.
  revert data l w. induction fuel as [|fuel IH]; intros data l w Hd; [done|].
  destruct data as [|x data]; [by apply ret_ok in Hd as [-> _]|]. cbn [deliver_full] in Hd.
  apply bind_ok in Hd as (w3&[]&E3&Hd). apply law_acquire in E3 as [_ S3].
  apply bind_ok in Hd as (w4&[]&E4&Hd). apply law_accept in E4 as [_ S4]. apply IH in Hd. congruence.
Qed.

Lemma receive_full_grows fuel l w w' l' :
  receive_full fuel l w = (w', inr (Some l')) -> (length (stream w) <= length (stream w'))%nat.
Proof.
  revert l w. induction fuel as [|fuel IH]; intros l w Hr; [done|]. cbn [receive_full] in Hr.
  apply bind_ok in Hr as (w1&[d|]&E1&Hr); apply law_data in E1 as [_ S1].
  - apply bind_ok in Hr as (w2&[l2|]&E2&Hr); [|done]. apply deliver_full_stream in E2. apply IH in Hr.
    rewrite E2, S1, length_app in Hr. lia.
  - apply ret_ok in Hr as [-> _]. rewrite S1, length_app. lia.
Qed.

Lemma receive_full_spec fuel l w w' l' :
  f_offset l = Z.of_nat (length (stream w)) -> receive_full fuel l w = (w', inr (Some l')) ->
  Z.of_nat (length (stream w')) <= u64_max ->
  exists cs, log w' = log w ++ cs /\ stream w' = stream w ++ bytes_of cs /\ contiguous (f_offset l) cs /\
    f_offset l' = Z.of_nat (length (stream w')).
Proof.
  revert l w. induction fuel as [|fuel IH]; intros l w H0 Hr Hb; [done|]. cbn [receive_full] in Hr.
  apply bind_ok in Hr as (w1&[d|]&E1&Hr); apply law_data in E1 as [L1 S1].
  2:{ apply ret_ok in Hr as [-> [= ->]]. exists []. rewrite app_nil_r in S1. rewrite S1. simpl. by rewrite !app_nil_r. }
  apply bind_ok in Hr as (w2&[l1|]&E2&Hr); [|done]. pose proof (receive_full_grows _ _ _ _ _ Hr) as Hg.
  pose proof (deliver_full_stream _ _ _ _ _ _ E2) as S2. rewrite S2, S1, length_app in Hg.
  apply deliver_full_spec in E2 as (cs1&D1&D2&D3&D4&D5); [|lia|lia].
  apply IH in Hr as (cs2&I1&I2&I3&I4); [|rewrite S2, S1, length_app; lia|done].
  exists (cs1 ++ cs2). rewrite I1, D2, L1, I2, S2, S1, bytes_of_app, <- D1, <- !app_assoc.
  split_and!; try done; [|by rewrite I4, I2, S2, S1, <- app_assoc]. apply contiguous_app. split; [done|].
  by rewrite <- D1, <- D5.
Qed.
End full_delivery.
End handler.
End fetch.

Arguments send_get {H W} e. Arguments next_data {H W} e. Arguments end_offset {H W} e.
Arguments acquire_memory {H W} e. Arguments sink_accept {H W} e. Arguments sink_finish {H W} e.
Arguments rep_lock {H W} e. Arguments set_rep_lock {H W} e. Arguments protocol_of {H W} e.
Arguments sender_is_ready {H W} e. Arguments sender_is_closed {H W} e. Arguments memory_limit {H W} e.
Arguments max_chunk_size {H W} e. Arguments user_agent {H W} e. Arguments parse_http_date {H W} e.
Arguments now {H W} e.

(** ** Properties *)

Module FetchSpec.
Section spec.
Context {H : HeaderMapLib} {W : Type} (env : Env W).
Context (log : W -> list TransferChunk) (stream : W -> list byte) `{!EnvLaws env log stream}.

(** The request is for a range of the artifact. *)
Definition fetch_wf (f : RangeFetch) : Prop :=
  0 <= ByteRange.start (range f) <= ByteRange.end_ (range f) /\ ByteRange.end_ (range f) <= u64_max /\ 0 <= overlap f.

Lemma wire_ok f : fetch_wf f ->
  0 <= ByteRange.start (wire_range_of f) <= ByteRange.end_ (wire_range_of f) /\
  ByteRange.end_ (wire_range_of f) <= u64_max /\
  0 <= ByteRange.start (range f) <= ByteRange.end_ (range f) /\ ByteRange.end_ (range f) <= u64_max.
Proof. intros (?&?&?). unfold wire_range_of, u64_sat_sub. simpl. lia. Qed.

Lemma init_locals_ok f : fetch_wf f ->
  locals_ok (range f) (wire_range_of f) (mkLocals (ByteRange.start (wire_range_of f)) 0 0 false 0).
Proof.
  intros Hw. pose proof (wire_ok f Hw). split; simpl in *; [lia|lia|].
  unfold owned, wire_range_of, u64_sat_sub. simpl. lia.
Qed.

Lemma observe_log hdrs total w : log (observe_identity env hdrs total w).1 = log w /\
  stream (observe_identity env hdrs total w).1 = stream w.
Proof. unfold observe_identity. destruct (RepresentationLock.validate _ _ _ _) as [l r]. simpl. exact (law_lock env l w). Qed.

Lemma bind_cases {A B} (P : W -> Prop) (m : M W A) (k : A -> M W B) w :
  P (m w).1 -> (forall w1 a, m w = (w1, inr a) -> P (k a w1).1) -> P (bind m k w).1.
Proof. unfold bind. destruct (m w) as [w1 [e|a]]; simpl; [done|]. intros _ Hk. by apply Hk. Qed.

Lemma check_range_head_log f resp w :
  log (check_range_head env f resp w).1 = log w /\ stream (check_range_head env f resp w).1 = stream w.
Proof.
  unfold check_range_head. set (P := fun w' => log w' = log w /\ stream w' = stream w).
  change (P (check_range_head env f resp w).1). unfold check_range_head. rewrite bind_get.
  destruct (classify_status _ _ _ _); try by split.
  apply bind_cases.
  - destruct (status resp =? 206); [|by split]. destruct (header_str _ _); [|by split].
    apply bind_cases; [by split|]. intros w1 cr [= <- _].
    apply bind_cases; [by split|]. intros w2 [] [= <- _]. by split.
  - intros w1 total E1. assert (w1 = w) as ->.
    { destruct (status resp =? 206); [|done]. destruct (header_str _ _); [|done].
      apply bind_ok in E1 as (w2&cr&[= <- _]&E1). apply bind_ok in E1 as (w3&[]&[= <- _]&E1).
      by apply ret_ok in E1 as [-> _]. }
    destruct (is_compressed_payload _ _); [by split|].
    apply bind_cases; [apply observe_log|]. intros w2 [] E2. simpl.
    pose proof (observe_log (headers resp) total w) as Ho. by rewrite E2 in Ho.
Qed.

Definition range_request (f : RangeFetch) : HeaderMap :=
  with_host (source f) (range_request_headers (user_agent env) (wire_range_of f) (if_range (source f))
    (allow_compressed (source f)) (extra_headers (source f))).

(** C24. A range fetch that succeeds has handed the sink chunks laid end to end
    from the first requested byte, which spell the beginning of the body the
    server sent and never reach past the requested end; the reported byte count
    is what of it lies in the assignment's own range; and unless the scheduler
    shortened the assignment, it is all of the range, to the byte. *)
Theorem range_fetch_delivers fuel f w w' o :
  fetch_wf f -> fetch_range env fuel f w = (w', inr (Some o)) ->
  let wire := wire_range_of f in
  exists cs, let n := Z.of_nat (length (bytes_of cs)) in
    log w' = log w ++ cs /\ contiguous (ByteRange.start wire) cs /\ bytes_of cs `prefix_of` stream w' /\
    ByteRange.start wire + n <= ByteRange.end_ wire /\
    sample_bytes o = owned (range f) (ByteRange.start wire) (ByteRange.start wire + n) /\
    (completion o = FullyConsumed ->
       n = ByteRange.end_ wire - ByteRange.start wire /\
       sample_bytes o = ByteRange.end_ (range f) - ByteRange.start (range f)).
Proof.
  intros Hwf Hf wire. pose proof (wire_ok f Hwf) as Hr. unfold fetch_range in Hf.
  apply bind_ok in Hf as (w1&resp&E1&Hf). apply (law_send env (log := log) (stream := stream)) in E1 as [L1 S1]. specialize (S1 resp eq_refl).
  apply bind_ok in Hf as (w2&total&E2&Hf). pose proof (check_range_head_log f resp w1) as [L2 S2].
  pose proof (check_range_head_ok _ _ _ _ _ _ E2) as (Hst&_). rewrite E2 in L2, S2. simpl in L2, S2.
  rewrite Hst in Hf. simpl (206 =? 206) in Hf. cbv iota in Hf.
  apply bind_ok in Hf as (w3&[l|]&E3&Hf); [|done].
  apply (receive_spec env log stream _ _ Hr) in E3 as (cs&bs&R1&R2&R3&R4&R5&R6&R7);
    [|by apply init_locals_ok|done].
  apply bind_ok in Hf as (w4&[]&E4&Hf). apply (law_finish env (log := log) (stream := stream)) in E4 as [L4 S4].
  assert (Hfin : finish_range env (has_connection_close (headers resp)) l w4 = (w', inr (Some o)) /\
    (truncated l = false -> received l = ByteRange.len wire)).
  { destruct (truncated l); [by split|]. destruct (Z.eqb_spec (received l) (ByteRange.len (wire_range_of f))); simpl in Hf.
    - by split.
    - by destruct (received l >? _). }
  destruct Hfin as [Hfin Hlen]. unfold finish_range in Hfin.
  apply bind_ok in Hfin as (w5&b&[= <- _]&Hfin). apply ret_ok in Hfin as [-> [= ->]].
  cbn [sample_bytes completion]. destruct R5 as [O1 O2 O3]. cbn [offset] in R6. exists cs.
  assert (Hn : Z.of_nat (length (bytes_of cs)) = offset l - ByteRange.start (wire_range_of f)) by lia.
  cbv zeta. subst wire. rewrite Hn. split_and!.
  - by rewrite L4, R1, L2, L1.
  - exact R3.
  - rewrite S4, R2, S2, S1. exact R4.
  - lia.
  - rewrite O3. f_equal. lia.
  - intros Hc. destruct (truncated l); [done|]. specialize (Hlen eq_refl).
    rewrite ByteRange.len_wf in Hlen by (unfold ByteRange.wf; lia).
    split; [lia|]. rewrite O3. unfold owned.
    assert (Hws : ByteRange.start (wire_range_of f) <= ByteRange.start (range f)).
    { destruct Hwf as (?&?&?). unfold wire_range_of, u64_sat_sub. simpl. lia. }
    assert (Hwe : ByteRange.end_ (wire_range_of f) = ByteRange.end_ (range f)) by done. lia.
Qed.

(** C34. Nothing reaches the sink, whether the fetch then succeeds or fails,
    unless the server answered 206 with a Content-Range that begins at the
    first requested byte and does not pass the last, without a content coding
    the source does not allow, and with validators and a total length that
    agree with every other response of the job. *)
Theorem range_fetch_guarded fuel f w w' r :
  fetch_range env fuel f w = (w', r) ->
  log w' = log w \/
  exists w1 resp cr v l,
    send_get env (range_request f) w = (w1, inr resp) /\ status resp = 206 /\
    is_compressed_payload (source f) (headers resp) = false /\
    header_str (headers resp) "content-range" = Some v /\ ContentRange.parse_content_range v = inr cr /\
    ContentRange.first cr = ByteRange.start (wire_range_of f) /\
    ContentRange.last cr < ByteRange.end_ (wire_range_of f) /\
    RepresentationLock.validate (rep_lock env w1) (header_str (headers resp) "etag")
      (and_then (header_str (headers resp) "last-modified") (parse_http_date env))
      (ContentRange.complete_length cr) = (l, inr tt).
Proof.
  unfold fetch_range. fold (range_request f). intros Hf.
  destruct (send_get env (range_request f) w) as [w1 [e|resp]] eqn:E1; unfold bind at 1 in Hf; rewrite E1 in Hf.
  { injection Hf as <- <-. left. by apply (law_send env (log := log) (stream := stream)) in E1 as [? _]. }
  pose proof (check_range_head_log f resp w1) as [L2 S2].
  destruct (check_range_head env f resp w1) as [w2 [e|total]] eqn:E2; unfold bind at 1 in Hf; rewrite E2 in Hf.
  { injection Hf as <- <-. left. apply (law_send env (log := log) (stream := stream)) in E1 as [L1 _]. simpl in L2. congruence. }
  right. apply check_range_head_ok in E2 as (H1&H2&(v&cr&H3&H4&H5&H6)&(l&_&H7)).
  exists w1, resp, cr, v, l. subst total. unfold ContentRange.validate_against in H5.
  destruct (Z.eqb_spec (ContentRange.first cr) (ByteRange.start (wire_range_of f))); [|done]. cbn [negb] in H5.
  unfold ContentRange.checked_add in H5. destruct (ContentRange.last cr + 1 >? u64_max); [done|].
  destruct (Z.gtb_spec (ContentRange.last cr + 1) (ByteRange.end_ (wire_range_of f))); [done|].
  split_and!; try done. lia.
Qed.

(** A body of finitely many frames: [frames w] bounds those still to come. *)
Record finite_body (frames : W -> nat) : Prop := {
  fb_data w w' d : next_data env w = (w', inr (Some d)) -> (frames w' < frames w)%nat;
  fb_end w w' e : end_offset env w = (w', e) -> (frames w' <= frames w)%nat;
  fb_acquire n w w' : acquire_memory env n w = (w', inr tt) -> (frames w' <= frames w)%nat;
  fb_accept c w w' : sink_accept env c w = (w', inr tt) -> (frames w' <= frames w)%nat;
  fb_lock l w : (frames (set_rep_lock env l w) <= frames w)%nat }.

Section finite.
Context (frames : W -> nat) (Hfin : finite_body frames).

Lemma deliver_frames fuel data own wire l w w' r :
  deliver_range_bytes env fuel data own wire l w = (w', inr r) -> (frames w' <= frames w)%nat.
Proof.
  revert data l w. induction fuel as [|fuel IH]; intros data l w Hd; [by apply ret_ok in Hd as [-> _]|].
  destruct data as [|x data]; [by apply ret_ok in Hd as [-> _]|]. cbn [deliver_range_bytes] in Hd.
  apply bind_ok in Hd as (w1&e&E1%reads_ok%(fb_end _ Hfin)&Hd).
  destruct (offset l >=? _); [apply ret_ok in Hd as [-> _]; done|].
  apply bind_ok in Hd as (w2&b&E2&Hd).
  assert (H2 : (frames w2 <= frames w1)%nat).
  { destruct (_ >? _) in E2; [|by apply ret_ok in E2 as [-> _]].
    apply bind_ok in E2 as (w3&e2&E3%reads_ok%(fb_end _ Hfin)&E2). by apply ret_ok in E2 as [-> _]. }
  destruct b; [done|]. apply bind_ok in Hd as (w3&[]&E3%(fb_acquire _ Hfin)&Hd).
  apply bind_ok in Hd as (w4&[]&E4%(fb_accept _ Hfin)&Hd). apply IH in Hd. lia.
Qed.

Lemma receive_total fuel f l w w' : fetch_wf f -> locals_ok (range f) (wire_range_of f) l -> (frames w < fuel)%nat ->
  receive_range env fuel (range f) (wire_range_of f) l w ≠ (w', inr None).
Proof.
  intros Hwf. pose proof (wire_ok f Hwf) as Hr. revert l w.
  induction fuel as [|fuel IH]; intros l w Hl Hf Hd; [lia|]. cbn [receive_range] in Hd.
  apply bind_ok in Hd as (w1&[d|]&E1&Hd); [|done]. apply (fb_data _ Hfin) in E1.
  apply bind_ok in Hd as (w2&[l1|]&E2&Hd).
  - pose proof (deliver_frames _ _ _ _ _ _ _ _ E2). destruct (truncated l1); [done|].
    apply (deliver_spec env log stream _ _ Hr) in E2 as (cs&rest&_&_&_&_&Hl1&_); [|done].
    eapply IH; [exact Hl1| |exact Hd]. lia.
  - eapply (deliver_total env log stream); [exact Hr|exact Hl| |exact E2]. lia.
Qed.

Lemma deliver_full_total fuel data l w w' : (length data < fuel)%nat ->
  deliver_full env fuel data l w ≠ (w', inr None).
Proof.
  revert data l w. induction fuel as [|fuel IH]; intros data l w Hf Hd; [lia|].
  destruct data as [|x data]; [done|]. cbn [deliver_full] in Hd.
  destruct (law_limits env (log := log) (stream := stream)) as [M1 M2].
  apply bind_ok in Hd as (w3&[]&_&Hd). apply bind_ok in Hd as (w4&[]&_&Hd).
  eapply IH; [|exact Hd]. rewrite length_drop. simpl length in *. lia.
Qed.

Lemma deliver_full_frames fuel data l w w' r :
  deliver_full env fuel data l w = (w', inr r) -> (frames w' <= frames w)%nat.
Proof.
  revert data l w. induction fuel as [|fuel IH]; intros data l w Hd; [by apply ret_ok in Hd as [-> _]|].
  destruct data as [|x data]; [by apply ret_ok in Hd as [-> _]|]. cbn [deliver_full] in Hd.
  apply bind_ok in Hd as (w3&[]&E3%(fb_acquire _ Hfin)&Hd).
  apply bind_ok in Hd as (w4&[]&E4%(fb_accept _ Hfin)&Hd). apply IH in Hd. lia.
Qed.

Lemma receive_full_total fuel l w w' : (frames w < fuel)%nat -> receive_full env fuel l w ≠ (w', inr None).
Proof.
  revert l w. induction fuel as [|fuel IH]; intros l w Hf Hd; [lia|]. cbn [receive_full] in Hd.
  apply bind_ok in Hd as (w1&[d|]&E1&Hd); [|done]. apply (fb_data _ Hfin) in E1.
  apply bind_ok in Hd as (w2&[l1|]&E2&Hd).
  - pose proof (deliver_full_frames _ _ _ _ _ _ E2). eapply IH; [|exact Hd]. lia.
  - eapply deliver_full_total; [|exact E2]. lia.
Qed.
End finite.

(** Both fetches terminate: on a body of finitely many frames the receive
    loops and the chunking loops inside them never run out of turns. *)
Theorem fetches_terminate frames fuel f src w :
  finite_body frames -> fetch_wf f ->
  (forall h w1 resp, send_get env h w = (w1, inr resp) -> (frames w1 < fuel)%nat) ->
  (forall w', fetch_range env fuel f w ≠ (w', inr None)) /\
  (forall w', fetch_full_body env fuel src w ≠ (w', inr None)).
Proof.
  intros Hfin Hwf Hsend. split; intros w' Hf.
  - unfold fetch_range in Hf. apply bind_ok in Hf as (w1&resp&E1%Hsend&Hf).
    apply bind_ok in Hf as (w2&total&E2&Hf).
    apply check_range_head_ok in E2 as (_&_&_&(l&->&_)).
    apply bind_ok in Hf as (w3&[l3|]&E3&Hf).
    + apply bind_ok in Hf as (w4&[]&_&Hf). destruct (if truncated l3 then None else _) as [e|]; [|done].
      destruct (negb _); [by destruct (_ >? _)|done].
    + eapply receive_total; [exact Hfin|exact Hwf|by apply init_locals_ok| |exact E3].
      pose proof (fb_lock _ Hfin l w1). lia.
  - unfold fetch_full_body in Hf. apply bind_ok in Hf as (w1&resp&E1%Hsend&Hf).
    apply bind_ok in Hf as (w2&total&E2&Hf).
    assert (Hw2 : (frames w2 <= frames w1)%nat).
    { unfold check_full_head in E2. destruct (status resp =? 206); [done|]. rewrite bind_get in E2.
      destruct (classify_status _ _ _ _); try done. destruct (is_compressed_payload _ _); [done|].
      apply bind_ok in E2 as (w5&[]&E5&E2). apply ret_ok in E2 as [-> _].
      apply observe_ok in E5 as (l&->&_). apply (fb_lock _ Hfin). }
    apply bind_ok in Hf as (w3&[l3|]&E3&Hf).
    + apply bind_ok in Hf as (w4&[]&_&Hf). destruct total as [e|]; [|done].
      destruct (negb _); [by destruct (_ >? _)|done].
    + eapply receive_full_total; [exact Hfin| |exact E3]. lia.
Qed.

(** A full-body fetch that succeeds has handed the sink every byte the
    server sent, from offset zero on and end to end; if the response announced
    a length, that many; and the reported count is theirs. *)
Theorem full_body_delivers fuel src w w' o :
  fetch_full_body env fuel src w = (w', inr (Some o)) -> Z.of_nat (length (stream w')) <= u64_max ->
  exists cs w1 resp h, send_get env h w = (w1, inr resp) /\
    log w' = log w ++ cs /\ contiguous 0 cs /\ bytes_of cs = stream w' /\
    full_bytes o = Z.of_nat (length (stream w')) /\
    (forall v n, header_str (headers resp) "content-length" = Some v -> parse_u64 v = Some n ->
       full_bytes o = n).
Proof.
  intros Hf Hb. unfold fetch_full_body in Hf. apply bind_ok in Hf as (w1&resp&E1&Hf).
  pose proof E1 as E1'. apply (law_send env (log := log) (stream := stream)) in E1' as [L1 S1].
  specialize (S1 resp eq_refl). apply bind_ok in Hf as (w2&total&E2&Hf).
  assert (H2 : log w2 = log w1 /\ stream w2 = stream w1 /\
    total = and_then (header_str (headers resp) "content-length") parse_u64).
  { unfold check_full_head in E2. destruct (status resp =? 206); [done|]. rewrite bind_get in E2.
    destruct (classify_status _ _ _ _); try done. destruct (is_compressed_payload _ _); [done|].
    apply bind_ok in E2 as (w5&[]&E5&E2). apply ret_ok in E2 as [-> ->].
    pose proof (observe_log (headers resp) (and_then (header_str (headers resp) "content-length") parse_u64) w1) as Ho.
    rewrite E5 in Ho. simpl in Ho. by destruct Ho. }
  destruct H2 as (L2&S2&->). apply bind_ok in Hf as (w3&[l|]&E3&Hf); [|done].
  apply bind_ok in Hf as (w4&[]&E4&Hf). apply (law_finish env (log := log) (stream := stream)) in E4 as [L4 S4].
  assert (Hfin : finish_full env (has_connection_close (headers resp)) l w4 = (w', inr (Some o)) /\
    (forall n, and_then (header_str (headers resp) "content-length") parse_u64 = Some n -> f_offset l = n)).
  { destruct (and_then _ parse_u64) as [e|]; [|by split].
    destruct (Z.eqb_spec (f_offset l) e) as [->|]; cbn [negb] in Hf; [|by destruct (_ >? _)].
    split; [done|]. intros n [= <-]. done. }
  destruct Hfin as [Hfin Hlen]. unfold finish_full in Hfin.
  apply bind_ok in Hfin as (w5&b&[= <- _]&Hfin). apply ret_ok in Hfin as [-> [= ->]]. cbn [full_bytes].
  apply (receive_full_spec env log stream) in E3 as (cs&R1&R2&R3&R4);
    [|by rewrite S2, S1|by rewrite <- S4].
  exists cs, w1, resp. eexists. split; [exact E1|]. split_and!; [by rewrite L4, R1, L2, L1|exact R3| | |].
  - rewrite S4, R2, S2, S1. done.
  - by rewrite S4, R4.
  - intros v n Hv Hn. apply Hlen. by rewrite Hv.
Qed.
End spec.

Section request.
Context {H : HeaderMapLib} {HL : HeaderMapLaws H}.

Lemma append_all_get h extra n : (forall e, e ∈ hm_iter extra -> e.1 ≠ n) ->
  hm_get_all (append_all h extra) n = hm_get_all h n.
Proof.
  unfold append_all. generalize (hm_iter extra) as l. intros l. revert h.
  induction l as [|e l IH]; intros h Hl; [done|]. simpl. rewrite IH by (intros x Hx; apply Hl; by right).
  rewrite hm_all_append, decide_False, app_nil_r; [done|]. intros ->. by apply (Hl e); [left|].
Qed.

Lemma defaults_get ua h n : n ≠ "user-agent" -> n ≠ "accept" ->
  hm_get_all (apply_request_defaults ua h) n = hm_get_all h n.
Proof.
  intros Hn1 Hn2. unfold apply_request_defaults.
  repeat (case_match; rewrite ?hm_all_insert, ?decide_False by done); done.
Qed.

(** Whatever headers an application adds (its own interface refuses the
    managed ones), a range request carries exactly one Range, the one asked
    for, the validator if there is one, and asks for identity coding unless
    the source allows another. *)
Theorem range_request_exact ua range if_range allow extra :
  (forall e, e ∈ hm_iter extra -> e.1 ∉ managed_headers) ->
  let h := range_request_headers ua range if_range allow extra in
  hm_get_all h "range" = [ByteRange.to_http_range range] /\
  hm_get_all h "accept-encoding" = (if allow then [] else ["identity"]) /\
  hm_get_all h "if-range" =
    (match if_range with Some v => if value_ok v then [v] else [] | None => [] end).
Proof.
  intros Hm h. unfold h, range_request_headers.
  assert (Hget : forall n g, n ∈ managed_headers -> n ≠ "user-agent" -> n ≠ "accept" ->
    hm_get_all (apply_request_defaults ua (append_all g extra)) n = hm_get_all g n).
  { intros n g Hn H1 H2. rewrite defaults_get, append_all_get; try done. intros e He Hx. apply (Hm e He). by rewrite Hx. }
  unfold managed_headers in Hget.
  rewrite !Hget by (done || (repeat (first [by left | right]))).
  destruct allow; simpl negb; cbv iota; (destruct if_range as [v|]; [destruct (value_ok v)|]);
    rewrite ?hm_all_insert, ?hm_all_empty; repeat (case_decide; try done).
Qed.
End request.

(** ** Concrete runs *)

#[local] Instance list_headers : HeaderMapLib := {|
  HeaderMap := list (string * string); hm_empty := [];
  hm_insert m n v := filter (fun e => e.1 ≠ n) m ++ [(n, v)];
  hm_append m n v := m ++ [(n, v)]; hm_iter m := m; value_ok _ := true; to_str v := Some v |}.

#[local] Instance list_headers_laws : HeaderMapLaws list_headers.
Proof.
  split; [done| |]; intros m n v n'; unfold hm_get_all; simpl; rewrite filter_app, fmap_app, filter_cons; simpl.
  - rewrite list_filter_filter. destruct (decide (n' = n)) as [->|Hne].
    + rewrite decide_True by done. rewrite filter_none; [done|]. apply Forall_forall. naive_solver.
    + rewrite decide_False by done. simpl. rewrite app_nil_r. f_equal. apply list_filter_iff. naive_solver.
  - destruct (decide (n' = n)) as [->|]; [by rewrite decide_True|by rewrite decide_False].
Qed.

(** A connection that answers with one head and some frames, and a sink that
    keeps what it gets; [ends] are what the next looks at the dynamic end see. *)
Record net := mkNet {
  n_log : list TransferChunk; n_stream : list byte; n_frames : list (list byte); n_ends : list (option Z);
  n_lock : RepresentationLock.t }.

Definition sample_env (resp : Response) : Env net := {|
  send_get _ w := (mkNet (n_log w) [] (n_frames w) (n_ends w) (n_lock w), inr resp);
  next_data w := match n_frames w with
                 | [] => (w, inr None)
                 | d :: fs => (mkNet (n_log w) (n_stream w ++ d) fs (n_ends w) (n_lock w), inr (Some d))
                 end;
  end_offset w := match n_ends w with
                  | [] => (w, None)
                  | e :: es => (mkNet (n_log w) (n_stream w) (n_frames w) es (n_lock w), e)
                  end;
  acquire_memory _ w := (w, inr tt);
  sink_accept c w := (mkNet (n_log w ++ [c]) (n_stream w) (n_frames w) (n_ends w) (n_lock w), inr tt);
  sink_finish w := (w, inr tt);
  rep_lock := n_lock;
  set_rep_lock l w := mkNet (n_log w) (n_stream w) (n_frames w) (n_ends w) l;
  protocol_of _ := Http1; sender_is_ready _ := true; sender_is_closed _ := false;
  memory_limit := 4; max_chunk_size := 1000; user_agent := "xde";
  parse_http_date _ := None; now _ := 0 |}.

#[local] Instance sample_laws resp : EnvLaws (sample_env resp) n_log n_stream.
Proof.
  split; simpl.
  - intros h w w' r [= <- <-]. by split.
  - intros w w' r. destruct (n_frames w); intros [= <- <-]; simpl; [by rewrite app_nil_r|done].
  - intros w w' e. destruct (n_ends w); by intros [= <- <-].
  - by intros n w w' r [= <- <-].
  - by intros c w w' r [= <- <-].
  - by intros w w' r [= <- <-].
  - done.
  - done.
Qed.

Lemma sample_finite resp : finite_body (sample_env resp) (fun w => length (n_frames w)).
Proof.
  split; simpl.
  - intros w w' d. destruct (n_frames w) eqn:E; [done|]. intros [= <- <-]. simpl. lia.
  - intros w w' e. destruct (n_ends w); by intros [= <- _].
  - by intros n w w' [= <-].
  - by intros c w w' [= <-].
  - done.
Qed.

Definition sample_source : SourceContext := mkSource (Some "example.test") None false [].
Definition sample_fetch : RangeFetch := mkFetch sample_source (ByteRange.new 10 16) 2 false.
Definition sample_head : Response :=
  mkResponse 206 [("content-range", "bytes 8-15/100"); ("etag", "v1")].
Definition sample_net (frames : list (list byte)) (ends : list (option Z)) : net :=
  mkNet [] [] frames ends RepresentationLock.default.

Lemma sample_fetch_wf : fetch_wf sample_fetch.
Proof. unfold fetch_wf. simpl. u64_lia. Qed.

(** A body longer than the range is not noticed: the length check of
    [deliver_range_bytes] asks the sink for its dynamic end first, which the
    engine's sinks always have, and a frame that begins at the end is dropped
    without a check; the test [received > expected] after the loop is never
    true. Here ten bytes answer a request for eight and the fetch succeeds. *)
Theorem oversized_body_unnoticed :
  let frames := [segment ReorderSpec.artifact 8 8; segment ReorderSpec.artifact 16 2] in
  let w := sample_net frames [] in
  match fetch_range (sample_env sample_head) 5 sample_fetch w with
  | (w', inr (Some o)) => length (n_stream w') = 10%nat /\ completion o = FullyConsumed /\
      connection_reusable o = true /\ sample_bytes o = 6
  | _ => False
  end.
Proof. vm_compute. split_and!; reflexivity. Qed.

(** Eight bytes in two frames, the memory limit cutting the second; and the
    same with the assignment shortened to offset 13 while it runs. *)
Definition sample_run (ends : list (option Z)) : net * result (option RangeFetchOutcome) :=
  fetch_range (sample_env sample_head) 5 sample_fetch
    (sample_net [segment ReorderSpec.artifact 8 3; segment ReorderSpec.artifact 11 5] ends).

Lemma range_fetch_delivers_witness :
  snd (sample_run []) = inr (Some (mkOutcome 6 3 FullyConsumed false true)) /\
  exists cs, n_log (fst (sample_run [])) = cs /\ contiguous 8 cs /\ length (bytes_of cs) = 8%nat.
Proof.
  split; [reflexivity|].
  destruct (range_fetch_delivers (sample_env sample_head) n_log n_stream 5 sample_fetch
    (sample_net [segment ReorderSpec.artifact 8 3; segment ReorderSpec.artifact 11 5] []) (fst (sample_run []))
    (mkOutcome 6 3 FullyConsumed false true) sample_fetch_wf eq_refl) as (cs&H1&H2&_&_&_&H6).
  exists cs. split; [exact H1|]. split; [exact H2|]. destruct (H6 eq_refl) as [H7 _].
  change (Z.of_nat (length (bytes_of cs)) = 8) in H7. lia.
Defined.

Lemma range_fetch_guarded_witness :
  (let wrong := mkResponse 206 [("content-range", "bytes 9-15/100")] in
   let w := sample_net [segment ReorderSpec.artifact 9 7] [] in
   n_log (fst (fetch_range (sample_env wrong) 5 sample_fetch w)) = []) /\
  exists resp, headers resp = headers sample_head /\ status resp = 206.
Proof.
  split; [reflexivity|].
  destruct (range_fetch_guarded (sample_env sample_head) n_log n_stream 5 sample_fetch
    (sample_net [segment ReorderSpec.artifact 8 3; segment ReorderSpec.artifact 11 5] []) (fst (sample_run []))
    (snd (sample_run [])) eq_refl) as [Hl|(w1&resp&cr&v&l&H1&H2&_)].
  - vm_compute in Hl. discriminate Hl.
  - exists resp. split; [|exact H2]. injection H1 as _ H1. by rewrite <- H1.
Defined.

Lemma fetches_terminate_witness :
  let w := sample_net [segment ReorderSpec.artifact 8 3; segment ReorderSpec.artifact 11 5] [Some 16; Some 13; Some 13] in
  snd (fetch_range (sample_env sample_head) 5 sample_fetch w) =
    inr (Some (mkOutcome 3 2 IntentionallyTruncated true false)) /\
  forall w', fetch_range (sample_env sample_head) 5 sample_fetch w ≠ (w', inr None).
Proof.
  intros w. split; [reflexivity|].
  apply (fetches_terminate (sample_env sample_head) n_log n_stream (fun w => length (n_frames w)) 5 sample_fetch
    sample_source w (sample_finite _) sample_fetch_wf).
  intros h w1 resp [= <- _]. simpl. lia.
Defined.

Lemma full_body_delivers_witness :
  let resp := mkResponse 200 [("content-length", "8")] in
  let w := sample_net [segment ReorderSpec.artifact 0 3; segment ReorderSpec.artifact 3 5] [] in
  let run := fetch_full_body (sample_env resp) 5 sample_source w in
  snd run = inr (Some (mkFullOutcome 8 3 true)) /\
  exists cs, n_log (fst run) = cs /\ contiguous 0 cs /\ bytes_of cs = n_stream (fst run).
Proof.
  intros resp w run. split; [reflexivity|].
  destruct (full_body_delivers (sample_env resp) n_log n_stream 5 sample_source w (fst run)
    (mkFullOutcome 8 3 true) eq_refl ltac:(vm_compute; discriminate)) as (cs&w1&r&h&_&H1&H2&H3&_).
  exists cs. split; [exact H1|]. split; [exact H2|exact H3].
Defined.

Lemma range_request_exact_witness :
  hm_get_all (range_request_headers (H := list_headers) "xde" (ByteRange.new 8 16) (Some "v1") false
    [("x-token", "t")]) "range" =
    ["bytes=8-15"].
Proof.
  apply (range_request_exact (H := list_headers) "xde" (ByteRange.new 8 16) (Some "v1") false [("x-token", "t")]).
  intros e He. apply list_elem_of_singleton in He as ->. vm_compute. intros Hin.
  repeat (apply elem_of_cons in Hin as [Hin|Hin]; [discriminate Hin|]). by apply not_elem_of_nil in Hin.
Defined.
End FetchSpec.
