(* ===== verification/Probe.v ===== *)
(** * Probing a source ([http/probe.rs]).

    A GET for the first byte: the request head, what the answer proves, and the
    deadline that covers it. The connection and the clock are an environment of
    operations as in [Fetch], which also models the header map. *)

From Stdlib Require Import Ascii String.
From S2P Require Import Prelude Ranges Errors Text HttpRange Representation Spec Reorder Fetch.
Local Open Scope Z_scope.

Section probe.
Context {H : HeaderMapLib} {Url : Type}.

(** ** The environment

    [race n] waits for an operation at most [n]: the world when it is over, and
    whether the timer was first. *)
Record ProbeEnv (W : Type) := mkProbeEnv {
  p_send_get : HeaderMap -> W -> W * result Response;
  p_discard : W -> W;
  p_now : W -> Z;
  p_race : Z -> W -> W * bool;
  p_user_agent : string;
  p_parse_http_date : string -> option Z;
  p_join : Url -> string -> option Url;
  p_host : Url -> option string }.

Arguments p_send_get {W}. Arguments p_discard {W}. Arguments p_now {W}. Arguments p_race {W}.
Arguments p_user_agent {W}. Arguments p_parse_http_date {W}. Arguments p_join {W}. Arguments p_host {W}.

Notation "'let!' x := m 'in' k" := (bind m (fun x => k)) (at level 10, x binder, m at level 100, k at level 200).

Record ProbeResult := mkProbeResult {
  fingerprint : RemoteFingerprint.t Url; supports_ranges : bool; total_length : option Z; pr_status : Z; ttfb : Z;
  pr_reusable : bool; compressed : bool; alt_svc_h3_port : option Z }.

Inductive ProbeOutcome :=
| Ready (p : ProbeResult)
| Redirect (status : Z) (location : Url) (connection_close : bool).

(** ** Text *)

Definition quote : ascii := ascii_of_nat 34.

(** [trim_matches]: from the front, then from the back. *)
Fixpoint trim_quotes_start (s : string) : string :=
  match s with String c s' => if Ascii.eqb c quote then trim_quotes_start s' else s | EmptyString => s end.
Fixpoint trim_quotes_end (s : string) : string :=
  match s with
  | EmptyString => EmptyString
  | String c s' => match trim_quotes_end s' with
                   | EmptyString => if Ascii.eqb c quote then EmptyString else String c EmptyString
                   | t => String c t
                   end
  end.
Definition trim_quotes (s : string) : string := trim_quotes_end (trim_quotes_start s).

(** [str::parse::<u16>]. *)
Definition parse_u16 (s : string) : option Z :=
  match parse_u64 s with Some n => if n <=? 65535 then Some n else None | None => None end.

(** One entry of the list. *)
Definition alt_svc_entry (entry : string) : option Z :=
  match split_once "="%char (trim entry) with
  | None => None
  | Some (proto, authority) =>
      if eq_ignore_ascii_case (trim proto) "h3" then
        match strip_prefix ":" (trim_quotes (trim authority)) with
        | Some port_str => parse_u16 (trim port_str)
        | None => None
        end
      else None
  end.

Fixpoint first_some {A B} (f : A -> option B) (l : list A) : option B :=
  match l with [] => None | a :: l' => match f a with Some b => Some b | None => first_some f l' end end.

Definition parse_alt_svc_h3 (headers : HeaderMap) : option Z :=
  match header_str headers "alt-svc" with
  | Some raw => first_some alt_svc_entry (split ","%char raw)
  | None => None
  end.

Section handler.
Context {W : Type} (env : ProbeEnv W).

(** ** Deadlines *)

Definition before_deadline {A} (deadline : option Z) (m : M W A) : M W A :=
  match deadline with
  | None => m
  | Some d =>
      let! t := get (p_now env) in
      let remaining := Z.max 0 (d - t) in
      if remaining =? 0 then fail DeadlineExceeded
      else fun w => let '(w1, timer_first) := p_race env remaining w in
                    if timer_first then (w1, inl DeadlineExceeded) else m w1
  end.

(** ** The request *)

Definition probe_range : ByteRange.t := ByteRange.new 0 1.

Definition host_header (url : Url) : result string :=
  match p_host env url with Some h => inr h | None => inl (protocol "request URL has no host") end.

(** The ASCII text of a range is always a header value. *)
Definition probe_headers (url : Url) (extra_headers : HeaderMap) (allow_compressed : bool) : result HeaderMap :=
  match host_header url with
  | inl e => inl e
  | inr host =>
      if negb (value_ok host) then inl (protocol "failed to parse header value")
      else
        let h := hm_insert extra_headers "host" host in
        let h := hm_insert h "range" (ByteRange.to_http_range probe_range) in
        let h := if negb allow_compressed then hm_insert h "accept-encoding" "identity" else h in
        inr (apply_request_defaults (p_user_agent env) h)
  end.

(** ** The answer *)

Definition is_redirection (s : Z) : bool := (300 <=? s) && (s <? 400).
Definition is_success (s : Z) : bool := (200 <=? s) && (s <? 300).

Definition discard_body (deadline : option Z) : M W unit :=
  before_deadline deadline (fun w => (p_discard env w, inr tt)).

Definition on_redirect (url : Url) (deadline : option Z) (resp : Response) (connection_close : bool) : M W ProbeOutcome :=
  match header_str (headers resp) "location" with
  | None => fail (protocol "redirect response had no valid Location")
  | Some v =>
      match p_join env url v with
      | None => fail (protocol "invalid redirect Location")
      | Some location =>
          let! _ := discard_body deadline in
          ret (Redirect (status resp) location connection_close)
      end
  end.

(** [rsplit('/').next()]. *)
Definition after_slash (v : string) : string := List.last (split "/"%char v) EmptyString.

(** Whether ranges work, and the complete length. *)
Definition range_support (resp : Response) (content_length : option Z) : M W (bool * option Z) :=
  let s := status resp in
  if s =? 206 then
    match header_str (headers resp) "content-range" with
    | None => fail (protocol "206 without Content-Range")
    | Some v =>
        let! cr := lift (ContentRange.parse_content_range v) in
        let! _ := lift (ContentRange.validate_against cr probe_range) in
        ret (true, ContentRange.complete_length cr)
    end
  else if s =? 200 then ret (false, content_length)
  else if s =? 416 then
    ret (true, and_then (header_str (headers resp) "content-range") (fun v => parse_u64 (trim (after_slash v))))
  else if is_success s then ret (false, content_length)
  else
    let! t := get (p_now env) in
    let retry_after := and_then (header_str (headers resp) "retry-after") (parse_retry_after (p_parse_http_date env) t) in
    match classify_status s (Some probe_range) retry_after false with
    | Accept => fail (Http (RangeUnsupported s))
    | d => fail (Http (Dispositioned d s))
    end.

Definition with_length (fp : RemoteFingerprint.t Url) (n : option Z) : RemoteFingerprint.t Url :=
  RemoteFingerprint.mk n (RemoteFingerprint.etag fp) (RemoteFingerprint.last_modified fp) (RemoteFingerprint.final_url fp)
    (RemoteFingerprint.redirect_chain fp) (RemoteFingerprint.content_coding fp) (RemoteFingerprint.accept_ranges_hint fp).

Definition probe_source (url : Url) (extra_headers : HeaderMap) (allow_compressed : bool) (deadline : option Z) : M W ProbeOutcome :=
  let! started := get (p_now env) in
  let! request := lift (probe_headers url extra_headers allow_compressed) in
  let! resp := before_deadline deadline (p_send_get env request) in
  let! answered := get (p_now env) in
  let s := status resp in
  let connection_close := has_connection_close (headers resp) in
  if is_redirection s then on_redirect url deadline resp connection_close
  else
    let! _ := (if negb (s =? 200) then discard_body deadline else ret tt) in
    let fp := RemoteFingerprint.from_headers (p_parse_http_date env) url (header_str (headers resp)) in
    let! support := range_support resp (RemoteFingerprint.content_length fp) in
    let fp' := if fst support || bool_decide (RemoteFingerprint.content_length fp = None) then with_length fp (snd support) else fp in
    ret (Ready (mkProbeResult fp' (fst support) (snd support) s (answered - started) (negb (s =? 200) && negb connection_close)
      (RemoteFingerprint.is_compressed fp') (parse_alt_svc_h3 (headers resp)))).
End handler.
End probe.
