(* ===== verification/ProbeSpec.v ===== *)
(** * What a probe proves.

    The request asks for exactly one byte; what a source is said to support is
    what its answer shows; errors reach the shared table of dispositions. *)

From Stdlib Require Import Ascii String.
From S2P Require Import Prelude Ranges Errors Text HttpRange Representation Spec Reorder Fetch Probe.
Local Open Scope Z_scope.

Section probe.
Context {H : HeaderMapLib} {Url W : Type} (env : ProbeEnv (Url := Url) W).

Lemma race_ok {A} deadline (m : M W A) w w' a : before_deadline env deadline m w = (w', inr a) -> exists w0, m w0 = (w', inr a).
Proof.
  unfold before_deadline. destruct deadline as [d|]; [|by exists w]. unfold bind, get. destruct (_ =? 0); [done|].
  destruct (p_race _ _ _ _) as [w1 [|]]; [done|]. by exists w1.
Qed.

(** The only answers of [range_support]. *)
Lemma support_ok resp n w w' b total : range_support env resp n w = (w', inr (b, total)) ->
  w' = w /\
  ((status resp = 206 /\ b = true /\ exists v cr, header_str (headers resp) "content-range" = Some v /\
      ContentRange.parse_content_range v = inr cr /\ ContentRange.validate_against cr probe_range = inr tt /\
      total = ContentRange.complete_length cr) \/
   (status resp = 416 /\ b = true) \/
   (200 <= status resp < 300 /\ status resp <> 206 /\ b = false /\ total = n)).
Proof.
  unfold range_support. case Z.eqb_spec; intros E1.
  - destruct (header_str _ _) as [v|]; [|done]. unfold bind, lift. destruct (ContentRange.parse_content_range v) as [e|cr] eqn:E2; [done|].
    destruct (ContentRange.validate_against cr probe_range) as [e|[]] eqn:E3; [done|]. intros [= <- <- <-]. split; [done|]. left. eauto 10.
  - case Z.eqb_spec; intros E2; [intros [= <- <- <-]; split; [done|]; right; right; split_and!; (done || lia)|]. case Z.eqb_spec; intros E3; [intros [= <- <- <-]; auto|].
    destruct (is_success (status resp)) eqn:E4.
    + intros [= <- <- <-]. apply andb_true_iff in E4 as [H1%Z.leb_le H2%Z.ltb_lt]. split; [done|]. right. right. split_and!; (done || lia).
    + unfold bind, get. by destruct (classify_status _ _ _ _).
Qed.

(** C31. What a probe says of a source is what the source has shown: range support is
    claimed only on a 206 whose Content-Range is well formed and names exactly
    the one byte asked for, whose complete length is then the length, or on a
    416; any other success claims none and gives the announced length; the
    recorded length is the one reported, and the connection is reusable exactly
    when nothing is left unread and no side closes. *)
Theorem probe_claims_what_it_saw url extra allow deadline w w' p :
  probe_source env url extra allow deadline w = (w', inr (Ready p)) ->
  exists request resp w0 w1, probe_headers env url extra allow = inr request /\ p_send_get _ env request w0 = (w1, inr resp) /\
    pr_status p = status resp /\
    ((status resp = 206 /\ supports_ranges p = true /\ exists v cr, header_str (headers resp) "content-range" = Some v /\
        ContentRange.parse_content_range v = inr cr /\ ContentRange.first cr = 0 /\ ContentRange.last cr = 0 /\
        total_length p = ContentRange.complete_length cr) \/
     (status resp = 416 /\ supports_ranges p = true) \/
     (200 <= status resp < 300 /\ status resp <> 206 /\ supports_ranges p = false /\
        total_length p = and_then (header_str (headers resp) "content-length") parse_u64)) /\
    RemoteFingerprint.content_length (fingerprint p) = total_length p /\
    RemoteFingerprint.final_url (fingerprint p) = url /\
    (pr_reusable p = true <-> status resp <> 200 /\ has_connection_close (headers resp) = false).
Proof.
  intros Hp. unfold probe_source in Hp. apply bind_ok in Hp as (w1&started&[= <- <-]&Hp).
  apply bind_ok in Hp as (w2&request&Hr&Hp). injection Hr as <- Hr.
  apply bind_ok in Hp as (w3&resp&Hs&Hp). apply race_ok in Hs as (w0&Hs).
  apply bind_ok in Hp as (w4&answered&[= <- <-]&Hp). destruct (is_redirection (status resp)).
  { unfold on_redirect in Hp. destruct (header_str _ _) as [v|]; [|done]. destruct (p_join _ _ _ _); [|done].
    by apply bind_ok in Hp as (?&?&_&[= _ ?]). }
  apply bind_ok in Hp as (w5&u&_&Hp). apply bind_ok in Hp as (w6&[b total]&Hsup&Hp). apply ret_ok in Hp as [-> [= ->]].
  apply support_ok in Hsup as [-> Hsup]. exists request, resp, w0, w3. cbn [pr_status supports_ranges total_length fingerprint pr_reusable fst snd].
  set (fp := RemoteFingerprint.from_headers _ _ _) in *.
  assert (Hn : RemoteFingerprint.content_length fp = and_then (header_str (headers resp) "content-length") parse_u64) by done.
  split_and!; [done|exact Hs|done| | | |].
  - destruct Hsup as [(E1&->&v&cr&E2&E3&E4&->)|[(E1&->)|(E1&E2&->&->)]].
    + left. split_and!; [done..|]. pose proof (ContentRange.parse_ok v cr E3) as Hwf.
      assert (Hf : 0 <= ContentRange.first cr) by (destruct Hwf; lia).
      apply ContentRange.validate_ok in E4 as (F1&F2&F3&_); [|done]. cbn in F1, F3. exists v, cr. split_and!; [done..|lia|done].
    + right. by left.
    + right. right. by rewrite <- Hn.
  - destruct Hsup as [(_&->&_)|[(_&->)|(_&_&->&->)]]; [done..|]. cbn [orb]. by case_bool_decide.
  - by destruct (b || _).
  - rewrite andb_true_iff, !negb_true_iff, Z.eqb_neq. done.
Qed.

(** A status that is no success reaches the table of dispositions as an error. *)
Lemma probe_error_is_classified url extra allow w request w1 resp :
  probe_headers env url extra allow = inr request -> p_send_get _ env request w = (w1, inr resp) ->
  is_redirection (status resp) = false -> is_success (status resp) = false -> status resp <> 416 ->
  exists retry_after, probe_source env url extra allow None w =
    (p_discard _ env w1, inl (Http (Dispositioned (classify_status (status resp) (Some probe_range) retry_after false) (status resp)))).
Proof.
  intros H1 H2 H3 H4 H5. eexists. unfold probe_source. unfold bind at 1, get at 1. unfold bind at 1, lift at 1. rewrite H1.
  unfold bind at 1. cbn [before_deadline]. rewrite H2. unfold bind at 1, get at 1. rewrite H3.
  assert (Hs : status resp <> 200 /\ status resp <> 206 /\ status resp <> 204).
  { unfold is_success in H4. apply andb_false_iff in H4 as [?%Z.leb_gt|?%Z.ltb_ge]; lia. }
  destruct Hs as (S1&S2&S3). rewrite (proj2 (Z.eqb_neq _ 200)) by done. unfold bind at 1. cbn [negb discard_body before_deadline].
  unfold bind at 1, range_support. rewrite (proj2 (Z.eqb_neq _ 206)), (proj2 (Z.eqb_neq _ 200)), (proj2 (Z.eqb_neq _ 416)), H4 by done.
  unfold bind at 1, get at 1. cbn [discard_body before_deadline].
  match goal with |- context [classify_status ?a ?b ?c ?d] => assert (Hd : classify_status a b c d <> Accept) end.
  { unfold classify_status. rewrite (proj2 (Z.eqb_neq _ 200)), (proj2 (Z.eqb_neq _ 206)), (proj2 (Z.eqb_neq _ 204)) by done. cbn [andb orb].
    repeat (case_match; try done). }
  destruct (classify_status _ _ _ _) eqn:Ec in |- * at 1; try (rewrite Ec in Hd; done); by rewrite <- Ec.
Qed.

(** Past its deadline a probe sends nothing. *)
Lemma late_probe_sends_nothing url extra allow d w : d <= p_now _ env w -> exists e, probe_source env url extra allow (Some d) w = (w, inl e).
Proof.
  intros Hd. unfold probe_source, bind, get, lift. destruct (probe_headers env url extra allow) as [e|request]; [by exists e|].
  cbn [before_deadline]. unfold before_deadline, bind, get. rewrite Z.max_l by lia. cbn. by eexists.
Qed.
End probe.

(** ** The request *)

Section request.
Context {H : HeaderMapLib} {HL : HeaderMapLaws H} {Url W : Type} (env : ProbeEnv (Url := Url) W).

(** Whatever headers a source adds, the probe asks for the first byte and nothing
    else, with the host of the URL and, unless the source allows a coding, for
    the identity; the other headers of the source are sent as they are. *)
Theorem probe_asks_one_byte url extra allow request : probe_headers env url extra allow = inr request ->
  hm_get_all request "range" = ["bytes=0-0"] /\
  (exists host, p_host _ env url = Some host /\ hm_get_all request "host" = [host]) /\
  hm_get_all request "accept-encoding" = (if allow then hm_get_all extra "accept-encoding" else ["identity"]) /\
  (forall n, n ∉ ["range"; "host"; "accept-encoding"; "user-agent"; "accept"] -> hm_get_all request n = hm_get_all extra n).
Proof.
  unfold probe_headers, host_header. destruct (p_host _ env url) as [host|]; [|done]. destruct (value_ok host); [|done]. intros [= <-].
  split_and!; [| |..].
  - rewrite FetchSpec.defaults_get by done. destruct allow; cbn [negb]; rewrite ?hm_all_insert, ?decide_False by done; by rewrite ?hm_all_insert, decide_True by done.
  - exists host. split; [done|]. rewrite FetchSpec.defaults_get by done.
    destruct allow; cbn [negb]; rewrite ?hm_all_insert; repeat (rewrite decide_False by done); by rewrite ?hm_all_insert, decide_True by done.
  - rewrite FetchSpec.defaults_get by done. destruct allow; cbn [negb]; rewrite !hm_all_insert; repeat (case_decide; try done).
  - intros n Hn. rewrite !not_elem_of_cons in Hn. destruct Hn as (N1&N2&N3&N4&N5&_). rewrite FetchSpec.defaults_get by done.
    destruct allow; cbn [negb]; rewrite !hm_all_insert; repeat (rewrite decide_False by done); done.
Qed.
End request.

(** A quoted authority is read, one that parameters follow is not: the quote in
    the middle stays. *)
Definition quoted (v : string) : string := String quote (v +:+ String quote EmptyString).

Lemma alt_svc_parameters_hide_the_port :
  alt_svc_entry ("h3=" +:+ quoted ":443") = Some 443 /\ alt_svc_entry ("h3=" +:+ quoted ":443" +:+ "; ma=86400") = None.
Proof. split; reflexivity. Qed.

(** ** Concrete runs *)

Module Site.
#[local] Existing Instance FetchSpec.list_headers.
#[local] Existing Instance FetchSpec.list_headers_laws.

(** A site whose URLs are host names; the world is the time. *)
Definition site (resp : Response) : ProbeEnv (Url := string) Z := {|
  p_send_get _ t := (t + 5, inr resp); p_discard t := t + 1; p_now t := t; p_race _ t := (t, false); p_user_agent := "xde";
  p_parse_http_date _ := None; p_join _ v := Some v; p_host u := Some u |}.

Definition partial : Response :=
  mkResponse 206 [("content-range", "bytes 0-0/1000"); ("etag", "tag"); ("alt-svc", "h2=a, h3=:443; ma=1, h3=:8443")].

Lemma probe_asks_one_byte_witness : hm_get_all (H := FetchSpec.list_headers) [("range", "bytes=5-")] "range" = ["bytes=5-"] /\
  exists request, probe_headers (site partial) "host" [("range", "bytes=5-")] false = inr request /\ hm_get_all request "range" = ["bytes=0-0"].
Proof.
  split; [reflexivity|]. eexists. split; [reflexivity|].
  apply (probe_asks_one_byte (site partial) "host" [("range", "bytes=5-")] false). reflexivity.
Defined.

Lemma probe_claims_what_it_saw_witness : exists p, (probe_source (site partial) "host" [] false (Some 100) 0).2 = inr (Ready p) /\
  supports_ranges p = true /\ RemoteFingerprint.content_length (fingerprint p) = Some 1000 /\ alt_svc_h3_port p = Some 8443 /\ ttfb p = 5.
Proof.
  destruct (probe_source (site partial) "host" [] false (Some 100) 0) as [w' r] eqn:E. assert (E' := E). vm_compute in E'.
  injection E' as <- <-. eexists. split; [reflexivity|]. split; [reflexivity|]. split; [|split; reflexivity].
  destruct (probe_claims_what_it_saw (site partial) "host" [] false (Some 100) 0 _ _ E) as (request&resp&w0&w1&_&_&_&_&Hn&_).
  rewrite Hn. reflexivity.
Defined.
End Site.
