(* ===== verification/Digests.v ===== *)
(** * Hashing in pieces ([integrity/hash.rs], [storage/lane.rs]).

    The hash crates are an interface: a state, an update, and a result that is the
    hash of everything fed. The hashers of the engine and the read-back of the
    finished file are written against it; [Artifact] publishes a file with what
    the read-back says. *)

From Stdlib Require Import Ascii String.
From S2P Require Import Prelude Errors Spec Reorder.
Local Open Scope Z_scope.

Class HasherLib := {
  h_state : Type;
  h_new : HashKind -> h_state;
  h_update : h_state -> list byte -> h_state;
  h_finalize : h_state -> list byte }.

(** How the bytes are cut does not matter, as both crates document. *)
Class HasherLaws (H : HasherLib) (hash : HashKind -> list byte -> list byte) :=
  h_incremental k chunks : h_finalize (foldl h_update (h_new k) chunks) = hash k (concat chunks).

Section hashing.
Context {H : HasherLib}.

(** ** Hashers *)


Record Hasher := mkHasher { hasher_kind : HashKind; hasher_state : h_state }.
Definition Hasher_new (k : HashKind) : Hasher := mkHasher k (h_new k).
Definition Hasher_update (data : list byte) (h : Hasher) : Hasher := mkHasher (hasher_kind h) (h_update (hasher_state h) data).
(** [update_rayon]: the same, on more threads. *)
Definition Hasher_update_rayon : list byte -> Hasher -> Hasher := Hasher_update.
Definition Hasher_finalize (h : Hasher) : list byte := h_finalize (hasher_state h).

Record StreamingDigest := mkStreaming { hasher : Hasher; consumed : Z }.
Definition StreamingDigest_new (k : HashKind) : StreamingDigest := mkStreaming (Hasher_new k) 0.
Definition feed (data : list byte) (d : StreamingDigest) : StreamingDigest :=
  mkStreaming (Hasher_update data (hasher d)) (consumed d +% Z.of_nat (length data)).
Definition finish (d : StreamingDigest) : list byte := Hasher_finalize (hasher d).

(** [hex]: a digit for each half of a byte. *)
Definition from_digit (d : Z) : ascii := hex_char d.
Fixpoint hex_bytes (b : list byte) : string :=
  match b with
  | [] => EmptyString
  | x :: b' => String (from_digit (Z.shiftr x 4)) (String (from_digit (Z.land x 15)) (hex_bytes b'))
  end.

Definition verify_digest (expected : ExpectedDigest) (d : StreamingDigest) : result (list byte) :=
  let got := finish d in
  if bool_decide (got = bytes expected) then inr got
  else inl (Integrity ("digest mismatch: expected " +:+ hex_bytes (bytes expected) +:+ ", got " +:+ hex_bytes got)).

(** ** The read-back *)

Definition buffer_size : Z := 1024 * 1024.

(** What a read of the file says: why it failed, or at most how much it brings. *)
Definition read_answer := (ErrorKind + Z)%type.

Definition destination_io (k : ErrorKind) : Error := Destination (DestinationIo k).

(** [std::io::copy], which feeds the Blake3 hasher, goes on after an interrupted
    read; the loop that feeds the other one gives up. *)
Definition retried (k : HashKind) (e : ErrorKind) : bool :=
  match k, e with Blake3, Interrupted => true | _, _ => false end.

(** The loop over a file of which [left] is still to be read; every read but the last
    brings a byte, is interrupted, or fails. *)
Fixpoint hash_loop (fuel : nat) (k : HashKind) (left : list byte) (reads : list read_answer) (h : h_state) : result h_state :=
  match fuel, left with
  | O, _ | _, [] => inr h
  | Datatypes.S fuel', _ :: _ =>
      match reads with
      | inl e :: reads' => if retried k e then hash_loop fuel' k left reads' h else inl (destination_io e)
      | _ =>
          let asked := match reads with inr n :: _ => n | _ => buffer_size end in
          let n := Z.to_nat (Z.max 1 (Z.min asked buffer_size)) in
          hash_loop fuel' k (drop n left) (tail reads) (h_update h (take n left))
      end
  end.

(** [setup] is what cloning the handle and seeking say. *)
Definition hash_read_back (b : list byte) (len : Z) (k : HashKind) (setup : ErrorKind + unit) (reads : list read_answer) : result Digest :=
  match setup with
  | inl e => inl (destination_io e)
  | inr _ =>
      let left := take (Z.to_nat len) b in
      match hash_loop (length left + length reads) k left reads (h_new k) with
      | inl e => inl e
      | inr h => inr (mkDigest k (h_finalize h))
      end
  end.

(** ** Properties *)

Lemma shift_div x : Z.shiftr x 4 = x / 16.
Proof. by rewrite Z.shiftr_div_pow2. Qed.
Lemma land_mod x : Z.land x 15 = x mod 16.
Proof. change 15 with (Z.ones 4). by rewrite Z.land_ones. Qed.

(** The two routines that print a digest agree. *)
Lemma hex_agrees b : hex_bytes b = hex b.
Proof. induction b as [|x b IH]; [done|]. cbn [hex_bytes hex]. unfold from_digit. by rewrite IH, shift_div, land_mod. Qed.

Context (hash : HashKind -> list byte -> list byte) `{!HasherLaws H hash}.

(** The digest of the first [len] bytes. *)
Definition digest_of (b : list byte) (len : Z) (k : HashKind) : Digest := mkDigest k (hash k (take (Z.to_nat len) b)).

Lemma hash_loop_cuts fuel k left reads h : (length left + length reads <= fuel)%nat -> match hash_loop fuel k left reads h with
  | inr h' => exists chunks, h' = foldl h_update h chunks /\ concat chunks = left
  | inl e => exists why, e = destination_io why /\ inl why ∈ reads /\ retried k why = false
  end.
Proof.
  revert left reads h. induction fuel as [|fuel IH]; intros left reads h Hf.
  { destruct left; [|cbn in Hf; lia]. cbn. by exists []. }
  destruct left as [|x left]; [cbn; by exists []|]. cbn [hash_loop].
  assert (Hgo : forall n rs, (1 <= n)%nat -> rs = tail reads -> match hash_loop fuel k (drop n (x :: left)) rs (h_update h (take n (x :: left))) with
    | inr h' => exists chunks, h' = foldl h_update h chunks /\ concat chunks = x :: left
    | inl e => exists why, e = destination_io why /\ inl why ∈ reads /\ retried k why = false end).
  { intros n rs Hn ->. specialize (IH (drop n (x :: left)) (tail reads) (h_update h (take n (x :: left)))).
    destruct (hash_loop _ _ _ _ _) as [e|h'].
    - destruct IH as (w&->&Hk&Hr); [rewrite length_drop; destruct reads; cbn [length tail] in *; lia|]. exists w. split_and!; [done| |done].
      destruct reads; [done|by right].
    - destruct IH as (cs&->&Hcs); [rewrite length_drop; destruct reads; cbn [length tail] in *; lia|].
      exists (take n (x :: left) :: cs). split; [done|]. cbn [concat]. by rewrite Hcs, take_drop. }
  destruct reads as [|[e|n] reads]; [by apply Hgo; [lia|]| |by apply Hgo; [lia|]].
  destruct (retried k e) eqn:Er; [|exists e; by split_and!; [|left|]].
  specialize (IH (x :: left) reads h). destruct (hash_loop _ _ _ _ _) as [e'|h'].
  - destruct IH as (w&->&Hk&Hr); [cbn [length] in *; lia|]. exists w. split_and!; [done|by right|done].
  - apply IH. cbn [length] in *. lia.
Qed.

Lemma read_back_spec b len k setup reads : match hash_read_back b len k setup reads with
  | inr d => d = digest_of b len k
  | inl e => exists why, e = destination_io why /\ (setup = inl why \/ inl why ∈ reads /\ retried k why = false)
  end.
Proof.
  unfold hash_read_back. destruct setup as [e|]; [exists e; split; [done|by left]|].
  pose proof (hash_loop_cuts _ k (take (Z.to_nat len) b) reads (h_new k) (Nat.le_refl _)) as Hl. destruct (hash_loop _ _ _ _ _) as [e|h].
  - destruct Hl as (w&->&Hw). exists w. split; [done|by right].
  - destruct Hl as (cs&->&Hcs). by rewrite h_incremental, Hcs.
Qed.

(** C39. However the reads of the finished file are cut, the digest it is published with
    is the hash of its first bytes, as many as it was announced to have; without a
    digest a call or a read has failed, and says why: an interrupted read only where
    it is not tried again. *)
Theorem read_back_hashes_the_file b len k setup reads : match hash_read_back b len k setup reads with
  | inr d => d = digest_of b len k
  | inl e => exists why, e = destination_io why /\ (setup = inl why \/ inl why ∈ reads /\ retried k why = false)
  end.
Proof. apply read_back_spec. Qed.

(** A digest fed in pieces verifies exactly the bytes with the expected hash. *)
Lemma streaming_verifies k chunks expected : let d := foldl (fun d c => feed c d) (StreamingDigest_new k) chunks in
  finish d = hash k (concat chunks) /\
  (forall v, verify_digest expected d = inr v <-> v = bytes expected /\ hash k (concat chunks) = bytes expected).
Proof.
  cbn zeta. assert (Hs : forall d, hasher_state (hasher (foldl (fun d c => feed c d) d chunks)) = foldl h_update (hasher_state (hasher d)) chunks).
  { induction chunks as [|c cs IH]; intros d; [done|]. cbn [foldl]. by rewrite IH. }
  assert (Hf : finish (foldl (fun d c => feed c d) (StreamingDigest_new k) chunks) = hash k (concat chunks)).
  { unfold finish, Hasher_finalize. rewrite Hs. apply h_incremental. }
  split; [done|]. intros v. unfold verify_digest. rewrite Hf. case_bool_decide as Hd; split.
  - intros [= <-]. by split.
  - intros [-> _]. by rewrite Hd.
  - done.
  - by intros [_ ?].
Qed.
End hashing.

(** *** A hash that adds up *)

Definition sum_hasher : HasherLib := {|
  h_state := Z; h_new _ := 0; h_update s b := s + foldr Z.add 0 b; h_finalize s := [s] |}.
Definition sum_hash (_ : HashKind) (b : list byte) : list byte := [foldr Z.add 0 b].
Lemma sum_hasher_laws : HasherLaws sum_hasher sum_hash.
Proof.
  intros k chunks. cbn. unfold sum_hash. f_equal. assert (Hg : forall s, foldl (fun s b => s + foldr Z.add 0 b) s chunks = s + foldr Z.add 0 (concat chunks)).
  { induction chunks as [|c cs IH]; intros s; cbn; [lia|]. rewrite IH, foldr_app.
    assert (Ha : forall a l, foldr Z.add a l = foldr Z.add 0 l + a) by (intros a l; induction l; cbn; lia). rewrite (Ha (foldr Z.add 0 (concat cs))). lia. }
  apply (Hg 0).
Qed.

Lemma read_back_hashes_the_file_witness :
  hash_read_back (H := sum_hasher) [1; 2; 3; 4; 5] 4 Blake3 (inr tt) [inr 3; inl Interrupted; inr 0] =
    inr (digest_of sum_hash [1; 2; 3; 4; 5] 4 Blake3) /\
  hash_read_back (H := sum_hasher) [1; 2; 3] 3 Sha256 (inr tt) [inr 1; inl Interrupted] = inl (destination_io Interrupted).
Proof.
  split; [|reflexivity].
  pose proof (read_back_hashes_the_file (H := sum_hasher) sum_hash (HasherLaws0 := sum_hasher_laws) [1; 2; 3; 4; 5] 4 Blake3 (inr tt)
    [inr 3; inl Interrupted; inr 0]) as Hw.
  destruct (hash_read_back _ _ _ _ _) as [e|d] eqn:E; [discriminate E|]. by rewrite Hw.
Defined.
