(* ===== verification/Artifact.v ===== *)
(** * The artifact on disk ([storage/lane.rs], the sinks of [shard.rs],
    [core/context.rs]).

    Lanes write chunks at their offsets into one shared partial file; the sinks
    ([Sinks]) compare what a chunk brings with what another source wrote first;
    the coordinator checks the finished file and publishes it. *)

From S2P Require Import Prelude Ranges Errors Disk Provenance Spec Reorder Digests.
Local Open Scope Z_scope.

(** ** Lanes *)

Module FileLane.

(** The content of the [.part] file. [write_all_at] past the end leaves a hole
    of zeroes, [read_exact_at] past the end is [UnexpectedEof]; that a call of
    the system fails is added where the lane is used, in [Sinks]. *)
Definition write_all_at (f : list byte) (bs : list byte) (off : Z) : list byte := overwrite f bs off.

Definition write_chunk (f : list byte) (c : TransferChunk) : list byte :=
  if len c =? 0 then f else write_all_at f (payload c) (offset c).

Definition read_back (f : list byte) (off n : Z) : result (list byte) :=
  if n =? 0 then inr []
  else if off + n <=? Z.of_nat (length f) then inr (take (Z.to_nat n) (drop (Z.to_nat off) f))
  else inl (Destination (DestinationIo UnexpectedEof)).

(** The byte at an offset. *)
Definition at_ (f : list byte) (x : Z) : option byte := f !! Z.to_nat x.

Lemma write_length f bs off : length (write_all_at f bs off) = Nat.max (length f) (Z.to_nat off + length bs).
Proof.
  unfold write_all_at, overwrite. rewrite !length_app, length_replicate, length_drop, length_take. lia.
Qed.

Lemma write_at f bs off x : 0 <= off -> 0 <= x ->
  at_ (write_all_at f bs off) x =
  if decide (off <= x < off + Z.of_nat (length bs)) then bs !! Z.to_nat (x - off)
  else if decide (Z.of_nat (length f) <= x < off) then Some 0
  else at_ f x.
Proof.
  intros Ho Hx. unfold at_, write_all_at, overwrite. set (n := Z.to_nat off). set (i := Z.to_nat x).
  destruct (decide (off <= x < off + Z.of_nat (length bs))) as [Hin|Hout].
  - rewrite lookup_app_r by (rewrite length_take; lia). rewrite lookup_app_r by (rewrite length_take, length_replicate; lia).
    rewrite lookup_app_l by (rewrite length_take, length_replicate; lia).
    f_equal. rewrite length_take, length_replicate. lia.
  - destruct (decide (i < n)%nat) as [Hlt|Hge].
    + destruct (decide (i < length f)%nat).
      * rewrite lookup_app_l by (rewrite length_take; lia). rewrite lookup_take_lt by done.
        rewrite decide_False by lia. done.
      * rewrite lookup_app_r by (rewrite length_take; lia).
        rewrite lookup_app_l by (rewrite length_replicate, length_take; lia).
        rewrite decide_True by lia. apply lookup_replicate_2. rewrite length_take. lia.
    + rewrite lookup_app_r by (rewrite length_take; lia). rewrite lookup_app_r by (rewrite length_take, length_replicate; lia).
      rewrite lookup_app_r by (rewrite length_take, length_replicate; lia).
      rewrite decide_False by lia. rewrite lookup_drop. f_equal. rewrite length_take, length_replicate. lia.
Qed.

Lemma write_chunk_at f c x : 0 <= offset c -> 0 <= x ->
  at_ (write_chunk f c) x =
  if decide (offset c <= x < offset c + len c) then payload c !! Z.to_nat (x - offset c)
  else if decide (Z.of_nat (length f) <= x < offset c /\ 0 < len c) then Some 0
  else at_ f x.
Proof.
  intros Ho Hx. unfold write_chunk. pose proof (len_nonneg c). case Z.eqb_spec; intros H0.
  - rewrite !decide_False by lia. done.
  - rewrite write_at by done. unfold len in *. repeat case_decide; done || lia.
Qed.

Lemma write_chunk_length f c : 0 <= offset c ->
  Z.of_nat (length (write_chunk f c)) =
  if len c =? 0 then Z.of_nat (length f) else Z.max (Z.of_nat (length f)) (offset c + len c).
Proof.
  intros Ho. unfold write_chunk. case Z.eqb_spec; [done|]. intros _. rewrite write_length. unfold len. lia.
Qed.

Lemma read_back_ok f off n bs : 0 <= off -> 0 <= n -> read_back f off n = inr bs ->
  length bs = Z.to_nat n /\ forall i, (i < Z.to_nat n)%nat -> bs !! i = at_ f (off + Z.of_nat i).
Proof.
  intros Ho Hn. unfold read_back, at_. case Z.eqb_spec; intros H0.
  - intros [= <-]. simpl. split; [lia|]. intros. lia.
  - case Z.leb_spec; [|done]. intros Hl [= <-]. rewrite length_take, length_drop. split; [lia|].
    intros i Hi. rewrite lookup_take_lt by done. rewrite lookup_drop. f_equal. lia.
Qed.
End FileLane.

(** ** What the sinks of a range fetch use of a chunk *)

Module LaneSink.
Import FileLane ArtifactProvenance.

Section sink.
Context {SourceId : Type} `{!EqDecision SourceId}.

(** [None]: a slice out of bounds panics. *)
Definition slice (bs : list byte) (from n : Z) : option (list byte) :=
  if (0 <=? from) && (from + n <=? Z.of_nat (length bs)) then Some (take (Z.to_nat n) (drop (Z.to_nat from) bs))
  else None.

Definition chunk_range (c : TransferChunk) : ByteRange.t := ByteRange.new (offset c) (offset c +% len c).

Definition chunk_wf (c : TransferChunk) : Prop := 0 <= offset c /\ offset c + len c <= u64_max.

Lemma chunk_range_wf c : chunk_wf c -> ByteRange.start (chunk_range c) = offset c /\
  ByteRange.end_ (chunk_range c) = offset c + len c.
Proof. intros [H1 H2]. pose proof (len_nonneg c). unfold chunk_range. simpl. rewrite u64_add_small by u64_lia. done. Qed.

Lemma owns_offset (p : ArtifactProvenance.t SourceId) x o : snorm 0 (spans p) -> owner p x = Some o <-> owns (spans p) x o.
Proof. intros HN. unfold owner. by apply (owner_in_owns 0). Qed.

Lemma foreign_inside (l : list (ByteRange.t * SourceId)) range source :
  Forall (fun k => ByteRange.start range <= ByteRange.start k < ByteRange.end_ k /\
                   ByteRange.end_ k <= ByteRange.end_ range) (foreign_spans_loop l range source).
Proof.
  induction l as [|[r o] l IH]; simpl; [constructor|]. case_decide; [done|].
  assert (Hi : Forall (fun k => ByteRange.start range <= ByteRange.start k < ByteRange.end_ k /\
      ByteRange.end_ k <= ByteRange.end_ range)
      (match ByteRange.intersection r range with Some inter => [inter] | None => [] end)).
  { destruct (ByteRange.intersection r range) as [i|] eqn:E; [|constructor].
    apply ByteRange.intersection_Some in E. constructor; [lia|constructor]. }
  destruct (_ >=? _); [done|]. by apply Forall_app.
Qed.

(** The byte a chunk brings for an offset it covers. *)
Definition brings (c : TransferChunk) (x : Z) : option byte := payload c !! Z.to_nat (x - offset c).

Lemma lists_differ (l k : list byte) : length l = length k -> l ≠ k ->
  exists i, (i < length l)%nat /\ l !! i ≠ k !! i.
Proof.
  intros Hl Hne. destruct (decide (Forall (fun i => l !! i = k !! i) (seq 0 (length l)))) as [Hf|Hn].
  - exfalso. apply Hne, list_eq. intros i. destruct (decide (i < length l)%nat) as [Hi|Hi].
    + rewrite Forall_forall in Hf. apply Hf. apply elem_of_seq. lia.
    + by rewrite !lookup_ge_None_2 by lia.
  - apply not_Forall_Exists in Hn; [|apply _]. apply Exists_exists in Hn as (i&Hi&Hd).
    apply elem_of_seq in Hi. exists i. split; [lia|exact Hd].
Qed.

End sink.
End LaneSink.

(** ** Publication *)

Module Coordinator.

Section finalize.
(** The two hash crates. *)
Context {H : HasherLib}.

(** What the system says to the calls of [finalize]: [prepares] and [publishes]
    name the call that fails before and after the integrity pass, [clones_and_seeks]
    and [reads] are the answers to the calls of that pass. *)
Record Answers := mkAnswers {
  opens : option ErrorKind;
  prepares : option (nat * ErrorKind);
  clones_and_seeks : ErrorKind + unit;
  reads : list read_answer;
  publishes : option (nat * ErrorKind) }.

(** The integrity pass. *)
Definition verify (b : list byte) (n : Z) (check : option DigestCheck) (setup : ErrorKind + unit) (rs : list read_answer)
    : result (option Digest) :=
  match check with
  | None => inr None
  | Some ck =>
      match hash_read_back b n (dc_kind ck) setup rs with
      | inl e => inl e
      | inr computed =>
          match dc_expected ck with
          | Some expected =>
              if negb (bool_decide (expected = dg_value computed)) then inl (Integrity "digest mismatch")
              else inr (Some computed)
          | None => inr (Some computed)
          end
      end
  end.

Definition prepare_ops (part : string) (final_length : Z) (crash_safe : bool) : list fs_op :=
  SetLen part final_length :: (if crash_safe then [SyncAll part] else []).

Definition publish_ops (part final : string) (crash_safe : bool) : list fs_op :=
  Rename part final :: (if crash_safe then [SyncParent] else []).

(** [finalize] after the lock handle is dropped, on a Unix system. The lock
    file's removal is best effort and is the last thing done. *)
Definition finalize (part final lock : string) (final_length : Z) (check : option DigestCheck) (crash_safe : bool)
    (a : Answers) (d : disk) : disk * result (option Digest) :=
  match opens a, now_image d !! part with
  | Some k, _ => (d, inl (destination_io k))
  | None, None => (d, inl (destination_io NotFoundKind))
  | None, Some _ =>
      match exec destination_io (prepare_ops part final_length crash_safe) (prepares a) d with
      | (d1, inl e) => (d1, inl e)
      | (d1, inr _) =>
          match now_image d1 !! part with
          | None => (d1, inl (destination_io NotFoundKind))
          | Some f =>
              match verify (data f) final_length check (clones_and_seeks a) (reads a) with
              | inl e => (d1, inl e)
              | inr digest =>
                  match exec destination_io (publish_ops part final crash_safe) (publishes a) d1 with
                  | (d2, inl e) => (d2, inl e)
                  | (d2, inr _) => (apply_op (RemoveFile lock) d2, inr digest)
                  end
              end
          end
      end
  end.

(** [discard]. *)
Definition discard (part lock : string) (d : disk) : disk :=
  apply_op (RemoveFile lock) (apply_op (RemoveFile part) d).

Lemma resize_length b n : 0 <= n -> Z.of_nat (length (resize b n)) = n.
Proof. intros Hn. unfold resize. rewrite length_take, length_app, length_replicate. lia. Qed.

Lemma prepare_now part final n cs fault d d1 r f :
  part ≠ final -> now_image d !! part = Some f -> exec destination_io (prepare_ops part n cs) fault d = (d1, r) ->
  now_image d1 !! final = now_image d !! final /\ rollback d1 = rollback d /\
  (r = inr tt -> now_image d1 !! part = Some (mkFile (resize (data f) n) cs)).
Proof.
  intros Hne Hf. unfold prepare_ops. destruct cs; simpl;
    (destruct fault as [[[|[|k]] e]|]; intros [= <- <-]; simpl; simplify_map_eq; split_and!; done).
Qed.

Lemma publish_now part final cs fault d d2 r f :
  now_image d !! part = Some f -> exec destination_io (publish_ops part final cs) fault d = (d2, r) ->
  (now_image d2 = now_image d /\ rollback d2 = rollback d /\ r ≠ inr tt) \/
  (now_image d2 = <[final := f]> (delete part (now_image d)) /\
   rollback d2 = (match r with inr _ => if cs then [] else now_image d :: rollback d | inl _ => now_image d :: rollback d end)).
Proof.
  intros Hf. unfold publish_ops. destruct cs; simpl; rewrite Hf;
    (destruct fault as [[[|[|k]] e]|]; intros [= <- <-]; simpl; (by left) || (right; by split)).
Qed.
End finalize.
End Coordinator.

(** ** Properties *)

Module ArtifactSpec.

Section publication.
Import Coordinator.
Context {H : HasherLib} (hash : HashKind -> list byte -> list Z) `{!HasherLaws H hash}.

(** The integrity pass gives the hash of the whole file, compared with the one
    that was expected, or fails. *)
Lemma verify_spec b n check setup rs : take (Z.to_nat n) b = b -> match verify b n check setup rs with
  | inl (Integrity _) => exists ck e, check = Some ck /\ dc_expected ck = Some e /\ e ≠ hash (dc_kind ck) b
  | inl e => exists ck why, check = Some ck /\ e = destination_io why /\ (setup = inl why \/ inl why ∈ rs)
  | inr digest => digest = (fun ck => mkDigest (dc_kind ck) (hash (dc_kind ck) b)) <$> check /\
      (forall ck e, check = Some ck -> dc_expected ck = Some e -> e = hash (dc_kind ck) b)
  end.
Proof.
  intros Ht. unfold verify. destruct check as [ck|]; [|by split]. pose proof (read_back_spec hash b n (dc_kind ck) setup rs) as Hs.
  destruct (hash_read_back _ _ _ _ _) as [e|dg].
  - destruct Hs as (why&->&Hw). exists ck, why. split_and!; [done|done|tauto].
  - unfold digest_of in Hs. rewrite Ht in Hs. subst dg. destruct (dc_expected ck) as [e|] eqn:Ee; [case_bool_decide as Hd; cbn [negb]|].
    + split; [done|]. intros ck' e' [= <-] He. cbn in *. congruence.
    + exists ck, e. by split_and!.
    + split; [done|]. intros ck' e' [= <-] He. congruence.
Qed.

(** C27. Whatever system call fails, the final path either keeps what it had or
    gets the partial file cut to its final length, and then only if its hash is
    the expected one: opening it, setting its length, syncing it, cloning and
    rewinding the handle, any read of the integrity pass, the rename, syncing
    the directory. If the digest does not match, or the pass does not get to
    its end, nothing is published; and success reports the hash of the
    published bytes. *)
Theorem finalize_publishes_verified part final lock n check cs a d d' r f :
  part ≠ final -> lock ≠ final -> now_image d !! part = Some f -> 0 <= n ->
  finalize part final lock n check cs a d = (d', r) ->
  let published := now_image d' !! final = Some (mkFile (resize (data f) n) cs) /\
    (forall ck e, check = Some ck -> dc_expected ck = Some e -> e = hash (dc_kind ck) (resize (data f) n)) in
  match r with
  | inr digest => published /\
      digest = (fun ck => mkDigest (dc_kind ck) (hash (dc_kind ck) (resize (data f) n))) <$> check
  | inl (Integrity _) => now_image d' !! final = now_image d !! final
  | inl e => now_image d' !! final = now_image d !! final \/
      published /\ exists i k dg, publishes a = Some (i, k) /\ e = destination_io k /\
        verify (resize (data f) n) n check (clones_and_seeks a) (reads a) = inr dg
  end.
Proof.
  intros Hpf Hlf Hf Hn Hfin published. unfold finalize in Hfin. rewrite Hf in Hfin.
  destruct (opens a) as [k|]; [simplify_eq; by left|].
  destruct (exec destination_io (prepare_ops part n cs) (prepares a) d) as [d1 r1] eqn:E1.
  destruct (prepare_now _ _ _ _ _ _ _ _ _ Hpf Hf E1) as (P1&P2&P3).
  destruct r1 as [e|[]].
  { destruct (exec_error _ _ _ _ _ _ E1) as [k ->]. simplify_eq. by left. }
  specialize (P3 eq_refl). rewrite P3 in Hfin.
  assert (Htake : take (Z.to_nat n) (resize (data f) n) = resize (data f) n).
  { rewrite take_ge; [done|]. pose proof (resize_length (data f) n Hn). lia. }
  pose proof (verify_spec (resize (data f) n) n check (clones_and_seeks a) (reads a) Htake) as Hv.
  cbn [data] in Hfin. destruct (verify _ _ _ _ _) as [e|digest] eqn:Ev.
  { simplify_eq. destruct e; (exact P1 || by left). }
  destruct Hv as [Hv1 Hv2].
  destruct (exec destination_io (publish_ops part final cs) (publishes a) d1) as [d2 r2] eqn:E2.
  destruct (publish_now _ _ _ _ _ _ _ _ P3 E2) as [(Q1&Q2&Q3)|[Q1 Q2]].
  - destruct r2 as [e|[]]; [|done]. destruct (exec_error _ _ _ _ _ _ E2) as [k ->]. simplify_eq. left. by rewrite Q1.
  - assert (Hpub : now_image d2 !! final = Some (mkFile (resize (data f) n) cs)) by (rewrite Q1; by simplify_map_eq).
    destruct r2 as [e|[]].
    + destruct (exec_fault _ _ _ _ _ _ E2) as (i&k&Hk&_&->). simplify_eq. right. split; [done|]. by eexists i, k, _.
    + simplify_eq. split; [|done]. split; [|done]. simpl. by rewrite lookup_delete_ne.
Qed.

(** With crash-safe durability, publication is atomic: with the old artifact
    safely on disk, a power loss at any moment leaves at the final path the old
    one or the whole new one, and after success only the new one. *)
Theorem publish_is_crash_atomic part final lock n check d f old :
  part ≠ final -> lock ≠ final -> now_image d !! part = Some f ->
  now_image d !! final = (fun b => mkFile b true) <$> old -> rollback d = [] ->
  let new := resize (data f) n in
  (forall d' after, during d (prepare_ops part n true ++ publish_ops part final true) d' -> power_loss d' after ->
     after final = old \/ after final = Some new) /\
  (forall rs digest d' after, finalize part final lock n check true (mkAnswers None None (inr tt) rs None) d = (d', inr digest) ->
     power_loss d' after -> after final = Some new).
Proof.
  intros Hpf Hlf Hf Hold Hrb new.
  set (d1 := apply_op (SetLen part n) d). set (d2 := apply_op (SyncAll part) d1).
  set (d3 := apply_op (Rename part final) d2). set (d4 := apply_op SyncParent d3).
  assert (H2 : now_image d2 !! part = Some (mkFile new true)).
  { unfold d2, d1. simpl. by simplify_map_eq. }
  assert (E3 : d3 = mkDisk (<[final := mkFile new true]> (delete part (now_image d2))) (now_image d2 :: rollback d2)).
  { unfold d3. cbn [apply_op]. by rewrite H2. }
  assert (S0 : safe_disk final old new d) by (constructor; [by left|rewrite Hrb; constructor]).
  assert (S1 : safe_disk final old new d1) by (apply safe_touch; [done|by simplify_map_eq]).
  assert (S2 : safe_disk final old new d2) by (apply safe_touch; [done|by simplify_map_eq]).
  assert (S3 : safe_disk final old new d3).
  { rewrite E3. constructor; [right; simpl; by simplify_map_eq|done]. }
  assert (H4 : now_image d4 !! final = Some (mkFile new true) /\ rollback d4 = []).
  { unfold d4. rewrite E3. simpl. by simplify_map_eq. }
  split.
  - intros d' after Hd Hpl. apply (safe_power_loss _ _ _ d'); [|done].
    apply during_cons in Hd as [->|Hd]; [done| |done..]. apply during_cons in Hd as [->|Hd]; [done| |done..].
    apply during_cons in Hd as [->|Hd]; [done| |done..]. apply during_cons in Hd as [->|Hd]; [done| |done..].
    apply during_nil in Hd as ->. destruct H4 as [H4 R4]. fold d1 d2 d3 d4. constructor; [by right|rewrite R4; constructor].
  - intros rs digest d' after Hfin (i&Hi&Ha)%Exists_exists. unfold finalize in Hfin. rewrite Hf in Hfin.
    cbn [opens prepares clones_and_seeks reads publishes] in Hfin.
    change (exec destination_io (prepare_ops part n true) None d) with (d2, inr tt : result unit) in Hfin.
    cbv beta iota in Hfin. rewrite H2 in Hfin. destruct (verify _ _ _ _ _) as [e|dg]; [done|].
    change (exec destination_io (publish_ops part final true) None d2) with (d4, inr tt : result unit) in Hfin.
    cbv beta iota in Hfin. destruct H4 as [H4 R4].
    assert (Hd' : d' = apply_op (RemoveFile lock) d4) by congruence. clear Hfin. subst d'. clearbody d4.
    cbn [apply_op rollback] in Hi. rewrite R4 in Hi.
    apply list_elem_of_singleton in Hi as ->. specialize (Ha final).
    cbn [apply_op now_image] in Ha.
    rewrite lookup_delete_ne, H4 in Ha by done. by apply Ha.
Qed.
End publication.

(** A disk with a partial file of six bytes, unsynced, and an old artifact. *)
Definition sample_disk : disk :=
  mkDisk (<["a.part" := mkFile [1; 2; 3; 4; 0; 0] false]> (<["a" := mkFile [9] true]> ∅)) [].

(** A digest that matches, one that does not, and a read that fails half way. *)
Lemma finalize_publishes_verified_witness :
  let run expected rs := Coordinator.finalize (H := sum_hasher) "a.part" "a" "a.lock" 4
    (Some (mkDigestCheck Sha256 (Some expected))) true (Coordinator.mkAnswers None None (inr tt) rs None) sample_disk in
  (exists d, run [10] [] = (d, inr (Some (mkDigest Sha256 [10]))) /\
     now_image d !! "a" = Some (mkFile [1; 2; 3; 4] true)) /\
  now_image (run [11] []).1 !! "a" = Some (mkFile [9] true) /\
  (run [3] [inr 2; inl OtherKind]).2 = inl (destination_io OtherKind) /\
  now_image (run [3] [inr 2; inl OtherKind]).1 !! "a" = Some (mkFile [9] true).
Proof.
  intros run. split; [eexists; split; [reflexivity|reflexivity]|]. split; [|split; reflexivity].
  destruct (run [11] []) as [d' r] eqn:E.
  pose proof (finalize_publishes_verified (H := sum_hasher) sum_hash (HasherLaws0 := sum_hasher_laws) "a.part" "a" "a.lock" 4
    (Some (mkDigestCheck Sha256 (Some [11]))) true (Coordinator.mkAnswers None None (inr tt) [] None) sample_disk d' r
    (mkFile [1; 2; 3; 4; 0; 0] false) ltac:(discriminate) ltac:(discriminate) eq_refl ltac:(lia) E) as H.
  assert (Hr : r = inl (Integrity "digest mismatch")).
  { change r with (snd (d', r)). rewrite <- E. reflexivity. }
  rewrite Hr in H. exact H.
Defined.

Lemma publish_is_crash_atomic_witness :
  let d3 := foldl (fun d o => apply_op o d) sample_disk
    (Coordinator.prepare_ops "a.part" 4 true ++ [Rename "a.part" "a"]) in
  length (rollback d3) = 1%nat /\
  forall after, power_loss d3 after -> after "a" = Some [9] \/ after "a" = Some [1; 2; 3; 4].
Proof.
  intros d3. split; [reflexivity|]. intros after Hpl.
  destruct (publish_is_crash_atomic (H := sum_hasher) "a.part" "a" "a.lock" 4 None sample_disk
    (mkFile [1; 2; 3; 4; 0; 0] false) (Some [9]) ltac:(discriminate) ltac:(discriminate) eq_refl eq_refl eq_refl)
    as [H _].
  apply (H d3 after); [|exact Hpl]. do 3 apply during_next. apply during_here.
Defined.
End ArtifactSpec.
