(* ===== verification/World.v ===== *)
(** * The world model ([core/world.rs]).

    Every job, source, origin, endpoint, connection, path and destination of an
    engine, with the operations the controller and the control loop change them
    by. The tables are slot maps; the two indices are hash maps. A [Clock] is
    one reading of the two system clocks: an operation of the source that reads
    a clock takes the reading as an argument. *)

From Stdlib Require Import String.
From S2P Require Import Prelude Ranges Float Rates Errors Text Representation Policy Spec SlotMap Segment.
Local Open Scope Z_scope.

Record Clock := mkClock { instant : Z; unix_secs : Z }.

(** ** Vocabulary *)

Inductive AddressFamily := FamilyV4 | FamilyV6.
Inductive IpAddr := IpV4 (bits : Z) | IpV6 (bits : Z).
Inductive SocketAddr :=
| SocketV4 (ip : Z) (port : Z)
| SocketV6 (ip : Z) (port flowinfo scope_id : Z).

Definition sa_port (a : SocketAddr) : Z := match a with SocketV4 _ p => p | SocketV6 _ p _ _ => p end.

(** [url::Url], [blake3] and the [Debug] formatting of strings and addresses,
    all outside the repository. *)
Class WebLib := {
  Url : Type;
  url_scheme : Url -> string;
  url_host_str : Url -> option string;
  url_port_or_known_default : Url -> option Z;
  url_as_str : Url -> string;
  url_parse : string -> option Url;
  url_invalid : Url;
  blake3 : string -> list Z;
  debug_string : string -> string;
  debug_ip : IpAddr -> string }.

Inductive Protocol := Http1_1 | Http2 | Http3.

Definition protocol_as_str (p : Protocol) : string :=
  match p with Http1_1 => "http/1.1" | Http2 => "h2" | Http3 => "h3" end.

#[export] Instance AddressFamily_eq_dec : EqDecision AddressFamily.
Proof. solve_decision. Defined.
#[export] Instance IpAddr_eq_dec : EqDecision IpAddr.
Proof. solve_decision. Defined.
#[export] Instance SocketAddr_eq_dec : EqDecision SocketAddr.
Proof. solve_decision. Defined.
#[export] Instance Protocol_eq_dec : EqDecision Protocol.
Proof. solve_decision. Defined.
#[export] Instance TransportOriginKey_eq_dec : EqDecision TransportOriginKey.
Proof. solve_decision. Defined.

(** The key of the origin index, as the countable type a [gmap] wants. *)
Definition origin_key_parts (k : TransportOriginKey) : string * string * Z := (ok_scheme k, ok_host k, ok_port k).
#[export] Instance TransportOriginKey_countable : Countable TransportOriginKey.
Proof.
  apply (inj_countable' origin_key_parts (fun p => mkOriginKey p.1.1 p.1.2 p.2)). by intros [].
Defined.

Record NetworkContextKey := mkNetworkContextKey {
  iface_index : option Z;
  iface_name : option string;
  family : option AddressFamily;
  gateway : option IpAddr;
  mtu : option Z }.

#[export] Instance NetworkContextKey_eq_dec : EqDecision NetworkContextKey.
Proof. solve_decision. Defined.

(** [{:?}] of an option. *)
Definition debug_option {A} (f : A -> string) (o : option A) : string :=
  match o with Some a => "Some(" +:+ f a +:+ ")" | None => "None" end.

Definition debug_family (f : AddressFamily) : string := match f with FamilyV4 => "V4" | FamilyV6 => "V6" end.

(** The string learned evidence is filed under; the interface index is not
    part of it. *)
Definition context_signature {W : WebLib} (k : NetworkContextKey) : string :=
  "iface=" +:+ debug_option debug_string (iface_name k) +:+ " family=" +:+ debug_option debug_family (family k) +:+
  " gw=" +:+ debug_option debug_ip (gateway k) +:+ " mtu=" +:+ debug_option show_u64 (mtu k).

(** *** Destinations ([core/sink.rs]) *)

Module DestinationCaps.
Definition RANDOM_ACCESS : Z := 1.
Definition PARALLEL_WRITES : Z := 2.
Definition OUT_OF_ORDER : Z := 4.
Definition IDEMPOTENT_REWRITE : Z := 8.
Definition SPARSE : Z := 16.
Definition DURABLE_COMMIT : Z := 32.
Definition READ_BACK : Z := 64.
Definition PREALLOCATE : Z := 128.
Definition CONTIGUOUS_SUBMISSION : Z := 256.
Definition contains (caps c : Z) : bool := Z.land caps c =? c.
End DestinationCaps.

Definition supports_segmentation (caps : Z) : bool :=
  DestinationCaps.contains caps DestinationCaps.RANDOM_ACCESS &&
  DestinationCaps.contains caps DestinationCaps.OUT_OF_ORDER.

Definition file_sink_caps : Z :=
  foldr Z.lor 0 [DestinationCaps.RANDOM_ACCESS; DestinationCaps.PARALLEL_WRITES; DestinationCaps.OUT_OF_ORDER;
    DestinationCaps.IDEMPOTENT_REWRITE; DestinationCaps.SPARSE; DestinationCaps.DURABLE_COMMIT;
    DestinationCaps.READ_BACK; DestinationCaps.PREALLOCATE].

Record DestinationHints := mkDestinationHints {
  h_alignment : Z; h_max_operation_bytes : Z; h_max_inflight_bytes : Z; h_max_parallel_writes : Z }.

Definition DestinationHints_default : DestinationHints :=
  mkDestinationHints 4096 (256 * 1024 * 1024) (256 * 1024 * 1024) 8.

(** *** Phases *)

Inductive JobPhase :=
| Created | Probing | Transferring | Committing | Completed | Cancelling | Failing | Failed.

#[export] Instance JobPhase_eq_dec : EqDecision JobPhase.
Proof. solve_decision. Defined.

Definition phase_is (a b : JobPhase) : bool := bool_decide (a = b).
Definition is_terminal (p : JobPhase) : bool := match p with Completed | Failed => true | _ => false end.
Definition is_draining (p : JobPhase) : bool := match p with Cancelling | Failing => true | _ => false end.

Inductive ConnectionStatus := Connecting | Ready | Poisoned | Retired.

#[export] Instance ConnectionStatus_eq_dec : EqDecision ConnectionStatus.
Proof. solve_decision. Defined.

Definition status_is (a b : ConnectionStatus) : bool := bool_decide (a = b).

Inductive TopologyVariable := VarConnection | VarStreams.

Definition next_after (last : option TopologyVariable) : TopologyVariable :=
  match last with
  | Some VarConnection => VarStreams
  | Some VarStreams => VarConnection
  | None => VarConnection
  end.

Inductive DestinationLeaseError := Busy (key : string) | NoSource.

(** *** Learned profiles ([core/profile.rs]) *)

Definition PROFILE_FORMAT_VERSION : Z := 1.

Record PersistedEndpointSample := mkPersistedSample {
  ps_addr : SocketAddr; ps_protocol : string; ps_rate_bps : f64; ps_recorded_at_unix : Z }.

Record PersistedOrigin := mkPersistedOrigin {
  po_scheme : string; po_host : string; po_port : Z;
  po_context_signature : string;
  po_supports_ranges : option bool;
  po_h3_alt_port : option Z;
  po_samples : list PersistedEndpointSample }.

Record PersistedProfile := mkPersistedProfile { format_version : Z; pp_origins : list PersistedOrigin }.

(** ** The entities *)

Section entities.
Context {L : SlotMapLib} {S : SecMapLib L}.

Inductive ConnectionIntent :=
| IntentProbe (job source : key)
| IntentPool (origin : key)
| IntentMirror (job source : key).

(** [controller::ResumeEvidence]: local progress of an earlier run. *)
Record ResumeEvidence := mkResumeEvidence {
  re_durable : RangeSet.t;
  re_total : option Z;
  re_etag : option string;
  re_last_modified : option Z;
  re_urls : list string }.

(** What a finished job reports: an error text, or a length and a digest. *)
Definition Outcome : Type := string + (Z * option Digest).
End entities.

Module JobNode.
Section node.
Context {L : SlotMapLib}.

(** [rep_lock] is the lock shared with the fetches of the job; the model keeps
    its value. *)
Record t := mk {
  id : key;
  artifact : key;
  sources : list key;
  active_sources : list key;
  origin : key;
  destination : key;
  phase : JobPhase;
  priority : Priority;
  urgency : Urgency;
  deadline : option Z;
  durability : Durability;
  integrity : IntegritySpec;
  policy : TransferPolicy;
  fingerprint_etag : option string;
  fingerprint_last_modified : option Z;
  supports_ranges : bool;
  total_length : option Z;
  rep_lock : RepresentationLock.t;
  plan : option SegmentPlan.t;
  resolve_attempts : Z;
  redirect_chain : list string;
  resume : option ResumeEvidence;
  resumed_bytes : Z;
  refresh_attempts : Z;
  failed_sources : list key;
  probing_sources : list key;
  sampling_sources : list key;
  sink_caps : Z;
  sink_hints : DestinationHints;
  pending_terminal : option Outcome;
  virt_service : f64 }.

#[global] Instance t_rebuild : Rebuild t := fun j =>
  mk (id j) (artifact j) (sources j) (active_sources j) (origin j) (destination j) (phase j)
     (priority j) (urgency j) (deadline j) (durability j) (integrity j) (policy j)
     (fingerprint_etag j) (fingerprint_last_modified j) (supports_ranges j) (total_length j)
     (rep_lock j) (plan j) (resolve_attempts j) (redirect_chain j) (resume j) (resumed_bytes j)
     (refresh_attempts j) (failed_sources j) (probing_sources j) (sampling_sources j)
     (sink_caps j) (sink_hints j) (pending_terminal j) (virt_service j).

(** [self.sources[0]]: [None] is its panic. *)
Definition primary_source (j : t) : option key := head (sources j).
Definition active_source (j : t) : option key := head (active_sources j).
Definition strong_equivalence (j : t) : bool := bool_decide (is_Some (expected (integrity j))).

Definition bytes_remaining_estimate (j : t) : Z :=
  match plan j with
  | Some p => default u64_max (SegmentPlan.bytes_remaining p)
  | None => u64_max
  end.

Definition unused_sources (j : t) : list key :=
  retain (fun s => negb (bool_decide (s ∈ active_sources j)) && negb (bool_decide (s ∈ probing_sources j)) &&
                   negb (bool_decide (s ∈ failed_sources j))) (sources j).
End node.
End JobNode.

Module ConnectionNode.
Section node.
Context {L : SlotMapLib}.

Record t := mk {
  id : key;
  origin : key;
  endpoint : key;
  shard : Z;
  protocol : Protocol;
  status : ConnectionStatus;
  opened_at : Z;
  network_context : option key;
  path : option key;
  prefer_h3 : bool;
  serving_source : option key;
  intent : ConnectionIntent }.

#[global] Instance t_rebuild : Rebuild t := fun c =>
  mk (id c) (origin c) (endpoint c) (shard c) (protocol c) (status c) (opened_at c)
     (network_context c) (path c) (prefer_h3 c) (serving_source c) (intent c).
End node.
End ConnectionNode.

Module PathNode.
Section node.
Context {L : SlotMapLib}.
Record t := mk {
  id : key; connection : key; endpoint : key; network_context : option key; established_at : Z }.
End node.
End PathNode.

Module TopologyExperiment.
Section node.
Context {L : SlotMapLib}.

Record t := mk {
  variable : TopologyVariable;
  conn : option key;
  baseline_rate_bps : f64;
  opened_at : Z;
  measure_start_at : option Z;
  measure_start_bytes : Z;
  measured_rate_bps : option f64 }.

#[global] Instance t_rebuild : Rebuild t := fun e =>
  mk (variable e) (conn e) (baseline_rate_bps e) (opened_at e) (measure_start_at e)
     (measure_start_bytes e) (measured_rate_bps e).
End node.
End TopologyExperiment.

Module OriginNode.
Section node.
Context {L : SlotMapLib} {S : SecMapLib L}.

Record t := mk {
  okey : TransportOriginKey;
  endpoints : list key;
  connections : list key;
  cooldown_until : option Z;
  supports_ranges : option bool;
  endpoint_failures : secmap Z;
  advertises_h3 : bool;
  adaptive_target_conns : Z;
  adaptive_target_streams : Z;
  last_window_bytes : Z;
  last_window_at : Z;
  window_rates : list f64;
  adaptive_active : bool;
  topology_experiment : option TopologyExperiment.t;
  last_experiment_variable : option TopologyVariable;
  experiment_cooldown_until : option Z;
  h3_failures : Z;
  h3_retry_after : option Z;
  h3_alt_port : option Z }.

#[global] Instance t_rebuild : Rebuild t := fun o =>
  mk (okey o) (endpoints o) (connections o) (cooldown_until o) (supports_ranges o)
     (endpoint_failures o) (advertises_h3 o) (adaptive_target_conns o) (adaptive_target_streams o)
     (last_window_bytes o) (last_window_at o) (window_rates o) (adaptive_active o)
     (topology_experiment o) (last_experiment_variable o) (experiment_cooldown_until o)
     (h3_failures o) (h3_retry_after o) (h3_alt_port o).

(** A fresh origin, as [get_or_create_origin] inserts it. *)
Definition new (k : TransportOriginKey) (now : Z) : t :=
  mk k [] [] None None sec_new false 1 1 0 now [] false None None None 0 None None.

Definition is_cooled_down (o : t) (now : Z) : bool :=
  match cooldown_until o with Some u => u >? now | None => false end.
End node.
End OriginNode.

Section nodes.
Context {L : SlotMapLib}.

(** One verified transfer observation of an endpoint. *)
Record ContextualSample := mkSample {
  s_context : option key; s_protocol : Protocol; s_rate_bps : f64; s_recorded_at : Z }.

Record EvidenceSummary := mkEvidence {
  median_bps : f64; dispersion_bps : f64; ev_samples : Z; last_seen : Z }.

Record EndpointNode := mkEndpoint {
  address : SocketAddr; handshake_ewma : option Z; samples : list ContextualSample }.

#[global] Instance EndpointNode_rebuild : Rebuild EndpointNode := fun e =>
  mkEndpoint (address e) (handshake_ewma e) (samples e).

Record ArtifactNode := mkArtifact { expected_length : option Z }.

Record SourceNode := mkSource {
  src_artifact : key; src_url : string; src_headers : list (string * HeaderValue);
  src_header_identity : list Z; src_origin : key }.

#[global] Instance SourceNode_rebuild : Rebuild SourceNode := fun s =>
  mkSource (src_artifact s) (src_url s) (src_headers s) (src_header_identity s) (src_origin s).

Record DestinationNode := mkDestination { d_key : string; leased_by : option key }.

#[global] Instance DestinationNode_rebuild : Rebuild DestinationNode := fun d =>
  mkDestination (d_key d) (leased_by d).
End nodes.

Definition MAX_SAMPLES_PER_ENDPOINT : Z := 8.
Definition SAMPLE_TTL : Z := from_secs 600.

(** ** The model and its operations *)

Module WorldModel.
Section world.
Context {L : SlotMapLib} {S : SecMapLib L} {W : WebLib}.

Record t := mk {
  jobs : slotmap JobNode.t;
  artifacts : slotmap ArtifactNode;
  sources : slotmap SourceNode;
  origins : slotmap OriginNode.t;
  endpoints : slotmap EndpointNode;
  connections : slotmap ConnectionNode.t;
  paths : slotmap PathNode.t;
  network_contexts : slotmap NetworkContextKey;
  current_context : option key;
  destinations : slotmap DestinationNode;
  destination_index : gmap string key;
  origin_index : gmap TransportOriginKey key;
  pending_learning : option PersistedProfile }.

#[global] Instance t_rebuild : Rebuild t := fun w =>
  mk (jobs w) (artifacts w) (sources w) (origins w) (endpoints w) (connections w) (paths w)
     (network_contexts w) (current_context w) (destinations w) (destination_index w)
     (origin_index w) (pending_learning w).

Definition new : t :=
  mk sm_new sm_new sm_new sm_new sm_new sm_new sm_new sm_new None sm_new ∅ ∅ None.

Definition modify_job (k : key) (f : JobNode.t -> JobNode.t) (w : t) : t := w <| jobs ::= fun m => sm_modify m k f |>.
Definition modify_origin (k : key) (f : OriginNode.t -> OriginNode.t) (w : t) : t :=
  w <| origins ::= fun m => sm_modify m k f |>.
Definition modify_connection (k : key) (f : ConnectionNode.t -> ConnectionNode.t) (w : t) : t :=
  w <| connections ::= fun m => sm_modify m k f |>.
Definition modify_endpoint (k : key) (f : EndpointNode -> EndpointNode) (w : t) : t :=
  w <| endpoints ::= fun m => sm_modify m k f |>.
Definition modify_source (k : key) (f : SourceNode -> SourceNode) (w : t) : t :=
  w <| sources ::= fun m => sm_modify m k f |>.

Definition get_job (w : t) (k : key) : option JobNode.t := sm_get (jobs w) k.
Definition get_origin (w : t) (k : key) : option OriginNode.t := sm_get (origins w) k.
Definition get_connection (w : t) (k : key) : option ConnectionNode.t := sm_get (connections w) k.

(** The signature of the current context, empty without one. *)
Definition current_signature (w : t) : string :=
  match current_context w with
  | Some c => match sm_get (network_contexts w) c with Some k => context_signature k | None => "" end
  | None => ""
  end.

(** *** Persistent learning *)

Definition sample_protocol (s : string) : option Protocol :=
  if String.eqb s "h1" || String.eqb s "http/1.1" then Some Http1_1
  else if String.eqb s "h2" then Some Http2
  else if String.eqb s "h3" then Some Http3
  else None.

(** The endpoint of an origin with an address. *)
Definition endpoint_with_address (w : t) (eps : list key) (a : SocketAddr) : option key :=
  find (fun e => match sm_get (endpoints w) e with Some n => bool_decide (address n = a) | None => false end) eps.

(** One turn of the loop over the samples of a persisted origin. *)
Definition apply_sample (clk : Clock) (origin_id : key) (w : t) (ps : PersistedEndpointSample) : t :=
  match endpoint_with_address w (match get_origin w origin_id with Some o => OriginNode.endpoints o | None => [] end)
          (ps_addr ps) with
  | None => w
  | Some ep =>
      match sample_protocol (ps_protocol ps) with
      | None => w
      | Some protocol =>
          let age_secs := u64_sat_sub (unix_secs clk) (ps_recorded_at_unix ps) in
          let age := from_secs (Z.min age_secs 86400) in
          let recorded_at := if age <=? instant clk then instant clk - age else instant clk in
          match sm_get (endpoints w) ep with
          | None => w
          | Some node =>
              let already := existsb (fun s => bool_decide (s_protocol s = protocol) &&
                f64_ltb (f64_abs (f64_sub (s_rate_bps s) (ps_rate_bps ps))) f64_one) (samples node) in
              if already then w
              else modify_endpoint ep (fun n => n <| samples ::= fun l =>
                     l ++ [mkSample (current_context w) protocol (ps_rate_bps ps) recorded_at] |>) w
          end
      end
  end.

Definition option_or {A} (a b : option A) : option A := match a with Some _ => a | None => b end.

(** One turn of the loop over the origins of the profile. *)
Definition apply_persisted (clk : Clock) (origin_id : key) (okey : TransportOriginKey) (signature : string)
    (w : t) (po : PersistedOrigin) : t :=
  if negb (String.eqb (po_context_signature po) signature) then w
  else if negb (String.eqb (po_scheme po) (ok_scheme okey) && String.eqb (po_host po) (ok_host okey) &&
                (po_port po =? ok_port okey)) then w
  else
    modify_origin origin_id (fun o =>
      (o <| OriginNode.supports_ranges ::= fun s => option_or s (po_supports_ranges po) |>
         <| OriginNode.h3_alt_port ::= fun p => option_or p (po_h3_alt_port po) |>
         <| OriginNode.advertises_h3 ::= fun b => bool_decide (is_Some (po_h3_alt_port po)) || b |>))
      (foldl (apply_sample clk origin_id) w (po_samples po)).

Definition apply_pending_learning (clk : Clock) (origin_id : key) (w : t) : t :=
  match pending_learning w with
  | None => w
  | Some profile =>
      match get_origin w origin_id with
      | None => w
      | Some o => foldl (apply_persisted clk origin_id (OriginNode.okey o) (current_signature w)) w (pp_origins profile)
      end
  end.

Definition import_profiles (clk : Clock) (profile : PersistedProfile) (w : t) : t :=
  if negb (format_version profile =? PROFILE_FORMAT_VERSION) then w
  else
    let w1 := w <| pending_learning := Some profile |> in
    foldl (fun acc id => apply_pending_learning clk id acc) w1 (sm_keys (origins w1)).

Definition export_sample (clk : Clock) (node : EndpointNode) (s : ContextualSample) : PersistedEndpointSample :=
  mkPersistedSample (address node) (protocol_as_str (s_protocol s)) (s_rate_bps s)
    (u64_sat_sub (unix_secs clk) (saturating_duration_since (instant clk) (s_recorded_at s) / nanos_per_sec)).

Definition export_origin (clk : Clock) (w : t) (o : OriginNode.t) : option PersistedOrigin :=
  let sampled := OriginNode.endpoints o ≫= fun ep =>
    match sm_get (endpoints w) ep with
    | None => []
    | Some node => export_sample clk node <$> samples node
    end in
  if bool_decide (sampled = []) && bool_decide (OriginNode.supports_ranges o = None) &&
     bool_decide (OriginNode.h3_alt_port o = None) then None
  else
    let k := OriginNode.okey o in
    Some (mkPersistedOrigin (ok_scheme k) (ok_host k) (ok_port k) (current_signature w)
            (OriginNode.supports_ranges o) (OriginNode.h3_alt_port o) sampled).

Definition export_profiles (clk : Clock) (w : t) : PersistedProfile :=
  mkPersistedProfile PROFILE_FORMAT_VERSION (omap (export_origin clk w) (sm_values (origins w))).

(** *** Admission *)

Definition get_or_create_origin (clk : Clock) (k : TransportOriginKey) (w : t) : key * t :=
  match origin_index w !! k with
  | Some id => (id, w)
  | None =>
      let '(id, m) := sm_insert (OriginNode.new k (instant clk)) (origins w) in
      (id, apply_pending_learning clk id (w <| origins := m |> <| origin_index ::= <[k := id]> |>))
  end.

(** The lookup or insertion of the destination; [None] is the panic of an
    index that points nowhere. *)
Definition lease_target (key0 : string) (w : t) : option (t * (DestinationLeaseError + key)) :=
  match destination_index w !! key0 with
  | Some id =>
      match sm_get (destinations w) id with
      | None => None
      | Some node =>
          match leased_by node with
          | Some _ => Some (w, inl (Busy key0))
          | None => Some (w, inr id)
          end
      end
  | None =>
      let '(id, m) := sm_insert (mkDestination key0 None) (destinations w) in
      Some (w <| destinations := m |> <| destination_index ::= <[key0 := id]> |>, inr id)
  end.

(** One turn of the loop over the declared sources. *)
Definition add_source (clk : Clock) (artifact : key) (acc : t * list (key * key)) (src : SourceRequest (Url := Url))
    : t * list (key * key) :=
  let '(w, ids) := acc in
  let okey := origin_key url_scheme url_host_str url_port_or_known_default src in
  let '(origin_id, w1) := get_or_create_origin clk okey w in
  let '(sid, m) := sm_insert (mkSource artifact (url_as_str (url src)) (headers src)
                                (representation_fingerprint url_as_str blake3 src) origin_id) (sources w1) in
  (w1 <| sources := m |>, ids ++ [(sid, origin_id)]).

Definition new_job (spec : JobSpec (Url := Url)) (artifact dest origin first_source : key) (source_ids : list key)
    (first_url : string) (id : key) : JobNode.t :=
  JobNode.mk id artifact source_ids [first_source] origin dest Created (js_priority spec) (js_urgency spec)
    (js_deadline spec) (js_persistence spec) (js_integrity spec) (js_policy spec) None None false None
    RepresentationLock.default None 0 [first_url] None 0 0 [] [] [] file_sink_caps DestinationHints_default None f64_zero.

(** [insert_with_key]: the node is built from the key it is given. *)
Definition insert_job (mkj : key -> JobNode.t) (w : t) : key * t :=
  let '(id, m) := sm_insert (mkj key_null) (jobs w) in
  (id, w <| jobs := sm_set m id (mkj id) |>).

Definition admit_job (clk : Clock) (spec : JobSpec (Url := Url)) (destination_key : string) (w : t)
    : option (t * (DestinationLeaseError + key * key)) :=
  match lease_target destination_key w with
  | None => None
  | Some (w1, inl e) => Some (w1, inl e)
  | Some (w1, inr dest_id) =>
      match js_sources spec with
      | [] => Some (w1, inl NoSource)
      | first :: _ =>
          let '(artifact, am) := sm_insert (mkArtifact None) (artifacts w1) in
          let '(w2, ids) := foldl (add_source clk artifact) (w1 <| artifacts := am |>, []) (js_sources spec) in
          match ids with
          | [] => None
          | (sid0, origin0) :: _ =>
              let '(job, w3) := insert_job (new_job spec artifact dest_id origin0 sid0 ids.*1 (url_as_str (url first))) w2 in
              Some (w3 <| destinations ::= fun m => sm_modify m dest_id (fun d => d <| leased_by := Some job |>) |>,
                    inr (job, artifact))
          end
      end
  end.

(** [if let Some(d) = destinations.get_mut(dest) && d.leased_by == Some(job)]. *)
Definition release_lease (dest job : key) (w : t) : t :=
  w <| destinations ::= fun m => sm_modify m dest (fun d =>
         if bool_decide (leased_by d = Some job) then d <| leased_by := None |> else d) |>.

Definition release_destination (job : key) (w : t) : t :=
  match get_job w job with Some j => release_lease (JobNode.destination j) job w | None => w end.

Definition set_destination_part_path (job : key) (w : t) : Error + unit :=
  match get_job w job with Some _ => inr tt | None => inl (Config "job vanished during admission") end.

Definition set_sink_properties (job : key) (caps : Z) (hints : DestinationHints) (w : t) : t * (Error + unit) :=
  match get_job w job with
  | None => (w, inl (Config "job vanished during admission"))
  | Some _ => (modify_job job (fun j => j <| JobNode.sink_caps := caps |> <| JobNode.sink_hints := hints |>) w, inr tt)
  end.

(** *** Endpoints *)

(** One turn of the loop of [note_endpoints]: the model, the origin's list as it
    grows, and the new endpoints. *)
Definition note_address (acc : t * list key * list key) (addr : SocketAddr) : t * list key * list key :=
  let '(w, eps, fresh) := acc in
  match endpoint_with_address w eps addr with
  | Some _ => acc
  | None =>
      let '(e, m) := sm_insert (mkEndpoint addr None []) (endpoints w) in
      (w <| endpoints := m |>, eps ++ [e], fresh ++ [e])
  end.

(** [None] is the panic of [expect("origin exists")]. *)
Definition note_endpoints (clk : Clock) (origin : key) (addrs : list SocketAddr) (w : t) : option (t * list key) :=
  match get_origin w origin with
  | None => None
  | Some o =>
      let '(w1, eps, fresh) := foldl note_address (w, OriginNode.endpoints o, []) addrs in
      let w2 := modify_origin origin (fun o => o <| OriginNode.endpoints := eps |>) w1 in
      Some (if bool_decide (fresh = []) then w2 else apply_pending_learning clk origin w2, fresh)
  end.

(** [now.checked_sub(SAMPLE_TTL)]: instants start at zero. *)
Definition sample_cutoff (now : Z) : option Z := if SAMPLE_TTL <=? now then Some (now - SAMPLE_TTL) else None.
Definition fresh_enough (now : Z) (s : ContextualSample) : bool :=
  match sample_cutoff now with Some c => c <=? s_recorded_at s | None => true end.

(** Drops from the front what exceeds the cap. *)
Definition cap_samples (l : list ContextualSample) : list ContextualSample :=
  drop (length l - Z.to_nat MAX_SAMPLES_PER_ENDPOINT) l.

Definition note_endpoint_sample (connection : key) (sample : TransferSample.t) (now : Z) (w : t) : t :=
  if (TransferSample.bytes sample =? 0) || f64_leb f64_half (TransferSample.stall_fraction sample) then w
  else
    match get_connection w connection with
    | None => w
    | Some c =>
        modify_endpoint (ConnectionNode.endpoint c) (fun e => e <| samples ::= fun l =>
          cap_samples (retain (fresh_enough now)
            (l ++ [mkSample (ConnectionNode.network_context c) (ConnectionNode.protocol c)
                     (TransferSample.receive_rate sample) now])) |>) w
    end.

Definition matches_evidence (context : option key) (protocol : option Protocol) (now : Z) (s : ContextualSample) : bool :=
  bool_decide (s_context s = context) &&
  (match protocol with Some p => bool_decide (s_protocol s = p) | None => true end) && fresh_enough now s.

(** The middle of a list of rates sorted by [partial_cmp]. *)
Definition median (d : f64) (l : list f64) : f64 := nth (length l / 2) (sort_by f64_ltb l) d.

Definition summarize (l : list ContextualSample) : option EvidenceSummary :=
  match l with
  | [] => None
  | s0 :: _ =>
      let rates := s_rate_bps <$> l in
      let m := median f64_zero rates in
      let devs := (fun r => f64_abs (f64_sub r m)) <$> rates in
      Some (mkEvidence m (median f64_zero devs) (Z.of_nat (length l)) (foldl Z.max (s_recorded_at s0) (s_recorded_at <$> l)))
  end.

Definition endpoint_evidence (w : t) (ep : key) (context : option key) (protocol : option Protocol) (now : Z)
    : option EvidenceSummary :=
  match sm_get (endpoints w) ep with
  | None => None
  | Some node => summarize (retain (matches_evidence context protocol now) (samples node))
  end.

(** The sort key of an endpoint: failures, median rate (descending), handshake
    latency, port. *)
Definition endpoint_rank (w : t) (o : OriginNode.t) (protocol : option Protocol) (now : Z) (e : key) : Z * Z * Z * Z :=
  let failures := default 0 (sec_get (OriginNode.endpoint_failures o) e) in
  let median := match endpoint_evidence w e (current_context w) protocol now with
                | Some s => median_bps s | None => f64_zero end in
  let node := sm_get (endpoints w) e in
  let hs := match node with Some n => default 0 (handshake_ewma n) | None => 0 end in
  let port := match node with Some n => sa_port (address n) | None => 0 end in
  (failures, - f64_to_bits median, hs, port).

(** Lexicographic order of the keys. *)
Definition rank_ltb (a b : Z * Z * Z * Z) : bool :=
  let '(a1, a2, a3, a4) := a in
  let '(b1, b2, b3, b4) := b in
  (a1 <? b1) || ((a1 =? b1) && ((a2 <? b2) || ((a2 =? b2) && ((a3 <? b3) || ((a3 =? b3) && (a4 <? b4)))))).

Definition ranked_before (w : t) (o : OriginNode.t) (protocol : option Protocol) (now : Z) (x y : key) : bool :=
  rank_ltb (endpoint_rank w o protocol now x) (endpoint_rank w o protocol now y).

Definition select_endpoint (w : t) (origin : key) (protocol : option Protocol) (now : Z) (exclude : key -> bool)
    : option key :=
  match get_origin w origin with
  | None => None
  | Some o => min_by (ranked_before w o protocol now) (retain (fun e => negb (exclude e)) (OriginNode.endpoints o))
  end.

Definition ranked_endpoints (w : t) (origin : key) (now : Z) (protocol : option Protocol) : list key :=
  match get_origin w origin with
  | None => []
  | Some o => sort_by (ranked_before w o protocol now) (OriginNode.endpoints o)
  end.

Definition clear_endpoint_failures (id : key) (w : t) : t :=
  match get_connection w id with
  | None => w
  | Some c =>
      modify_origin (ConnectionNode.origin c) (fun o => o <| OriginNode.endpoint_failures ::= fun m =>
        match sec_get m (ConnectionNode.endpoint c) with
        | Some f => if f >? 0 then sec_remove m (ConnectionNode.endpoint c) else m
        | None => m
        end |>) w
  end.

Definition note_endpoint_failure (id : key) (w : t) : t :=
  match get_connection w id with
  | None => w
  | Some c =>
      modify_origin (ConnectionNode.origin c) (fun o => o <| OriginNode.endpoint_failures ::= fun m =>
        sec_insert m (ConnectionNode.endpoint c)
          (u32_add (default 0 (sec_get m (ConnectionNode.endpoint c))) 1) |>) w
  end.

(** *** Connections *)

Definition allocate_connection (clk : Clock) (origin endpoint : key) (shard : Z) (w : t) : key * t :=
  let node id path := ConnectionNode.mk id origin endpoint shard Http1_1 Connecting (instant clk)
                        (current_context w) path false None (IntentPool origin) in
  let '(id, cm) := sm_insert (node key_null None) (connections w) in
  let w1 := w <| connections := sm_set cm id (node id None) |> in
  let w2 := modify_origin origin (fun o => o <| OriginNode.connections ::= fun l => l ++ [id] |>) w1 in
  let pnode pid := PathNode.mk pid id endpoint (current_context w) (instant clk) in
  let '(pid, pm) := sm_insert (pnode key_null) (paths w2) in
  (id, modify_connection id (fun c => c <| ConnectionNode.path := Some pid |>) (w2 <| paths := sm_set pm pid (pnode pid) |>)).

Definition conn_iter (w : t) : list (key * ConnectionNode.t) := sm_iter (connections w).
Definition job_iter (w : t) : list (key * JobNode.t) := sm_iter (jobs w).

Definition has_ready_connection (w : t) (origin : key) : bool :=
  existsb (fun kc => bool_decide (ConnectionNode.origin kc.2 = origin) && status_is (ConnectionNode.status kc.2) Ready) (conn_iter w).

Definition is_multiplexed (p : Protocol) : bool := match p with Http1_1 => false | Http2 | Http3 => true end.

Definition has_multiplexed_ready_connection (w : t) (origin : key) : bool :=
  existsb (fun kc => bool_decide (ConnectionNode.origin kc.2 = origin) && status_is (ConnectionNode.status kc.2) Ready &&
                     is_multiplexed (ConnectionNode.protocol kc.2)) (conn_iter w).

Definition live_connections_for_origin (w : t) (origin : key) : Z :=
  Z.of_nat (length (retain (fun kc => bool_decide (ConnectionNode.origin kc.2 = origin) &&
                                      negb (status_is (ConnectionNode.status kc.2) Retired)) (conn_iter w))).

Definition forget_in_origin (id : key) (o : OriginNode.t) : OriginNode.t :=
  o <| OriginNode.connections ::= retain (fun x => negb (bool_decide (x = id))) |>.

Definition retire_connection (id : key) (w : t) : t :=
  match get_connection w id with
  | None => w
  | Some c =>
      modify_origin (ConnectionNode.origin c) (forget_in_origin id)
        (modify_connection id (fun c => c <| ConnectionNode.status := Retired |>) w)
  end.

Definition remove_connection (id : key) (w : t) : t :=
  match get_connection w id with
  | None => w <| connections ::= fun m => snd (sm_remove m id) |>
  | Some c =>
      let w1 := match ConnectionNode.path c with
                | Some pid => w <| paths ::= fun m => snd (sm_remove m pid) |>
                | None => w
                end in
      modify_origin (ConnectionNode.origin c) (forget_in_origin id)
        (w1 <| connections ::= fun m => snd (sm_remove m id) |>)
  end.

(** *** Network contexts *)

Definition set_network_context (k : NetworkContextKey) (w : t) : key * t :=
  match match current_context w with
        | Some c => if bool_decide (sm_get (network_contexts w) c = Some k) then Some c else None
        | None => None
        end with
  | Some c => (c, w)
  | None =>
      match find (fun ik => bool_decide (ik.2 = k)) (sm_iter (network_contexts w)) with
      | Some ik => (ik.1, w <| current_context := Some ik.1 |>)
      | None =>
          let '(id, m) := sm_insert k (network_contexts w) in
          (id, w <| network_contexts := m |> <| current_context := Some id |>)
      end
  end.

(** *** The debug-build checks *)

Definition has_key {V} (m : slotmap V) (k : key) : bool := bool_decide (is_Some (sm_get m k)).

Definition job_linked (w : t) (j : JobNode.t) : bool :=
  has_key (destinations w) (JobNode.destination j) && has_key (artifacts w) (JobNode.artifact j) &&
  forallb (has_key (sources w)) (JobNode.sources j) &&
  match JobNode.plan j with
  | Some p => match SegmentPlan.total p with
              | Some n => RangeSet.covered_len (SegmentPlan.completed p) <=? n
              | None => true
              end
  | None => true
  end.

Definition holders (w : t) (dest : key) : list key :=
  (retain (fun kj => bool_decide (JobNode.destination kj.2 = dest)) (job_iter w)).*1.

Definition lease_single (w : t) (kd : key * DestinationNode) : bool :=
  if bool_decide (is_Some (leased_by kd.2)) || negb (bool_decide (holders w kd.1 = []))
  then (length (holders w kd.1) <=? 1)%nat else true.

Definition connection_listed (w : t) (c : ConnectionNode.t) : bool :=
  match get_origin w (ConnectionNode.origin c) with
  | Some o => bool_decide (ConnectionNode.id c ∈ OriginNode.connections o)
  | None => true
  end.

(** [assert_invariants]: [false] is a failed [debug_assert]. *)
Definition assert_invariants (w : t) : bool :=
  forallb (fun kj => job_linked w kj.2) (job_iter w) &&
  forallb (lease_single w) (sm_iter (destinations w)) &&
  forallb (fun kc => connection_listed w kc.2) (conn_iter w).
End world.
End WorldModel.
