(* ===== verification/Destination.v ===== *)
(** * Destinations ([storage/destination.rs], [core/sink.rs], [storage/file.rs])
    and the jobs that write to one of the application ([shard.rs]).

    [Destination] is the trait family, [DestinationLaws] what the engine relies
    on; the sinks (in [Sinks]) and the commit of a shared destination are written
    against them, and the file destination of the library implements them. *)

From S2P Require Import Prelude Ranges Errors Disk Provenance Spec Reorder Artifact World.
Local Open Scope Z_scope.

(** ** Vocabulary *)

Inductive FlushLevel := FlushBuffered | FlushData | FlushFull.
Inductive ArtifactMode := ModeFresh | ModeResume.
Record BeginArtifact := mkBegin { begin_mode : ArtifactMode; begin_length : option Z }.
Inductive CommitOutcome := CommitSuccess (final_length : Z) | CommitSuspend | CommitDiscard.

(** One call after the other, until one fails. *)
Definition and_then {D A B} (x : D * result A) (f : D -> A -> D * result B) : D * result B :=
  match x with (d, inl e) => (d, inl e) | (d, inr a) => f d a end.
Notation "'try' ( d , a ) ':=' x 'in' k" := (and_then x (fun d a => k)) (at level 10, d name, a name, x at level 200, k at level 200).

Lemma and_then_ok {D A B} (x : D * result A) (f : D -> A -> D * result B) d r : and_then x f = (d, r) ->
  (exists e, x = (d, inl e) /\ r = inl e) \/ (exists d1 a, x = (d1, inr a) /\ f d1 a = (d, r)).
Proof. destruct x as [d1 [e|a]]; cbn; [intros [= -> <-]; left; by exists e|intros H; right; by exists d1, a]. Qed.

(** ** The trait *)

(** [write_chunk] answers with the range of the completion. *)
Class Destination (D : Type) := {
  dest_caps : D -> Z;
  dest_hints : D -> DestinationHints;
  dest_begin : BeginArtifact -> D -> D * result unit;
  dest_write_chunk : TransferChunk -> D -> D * result ByteRange.t;
  dest_preallocate : Z -> D -> D * result unit;
  dest_flush : FlushLevel -> D -> D * result unit;
  dest_commit : CommitOutcome -> D -> D * result unit;
  dest_read_back : Z -> Z -> D -> D * result (list byte) }.

(** The methods the trait itself provides. *)
Definition default_begin {D} (preallocate : Z -> D -> D * result unit) (spec : BeginArtifact) (d : D) : D * result unit :=
  match begin_length spec with Some size => preallocate size d | None => (d, inr tt) end.
Definition default_read_back {D} (off n : Z) (d : D) : D * result (list byte) :=
  (d, inl (destination "destination does not support read-back")).

Definition covers (c : TransferChunk) (x : Z) : Prop := offset c <= x < offset c + len c.

(** What is relied on of a destination with random access and read-back: a chunk
    that is accepted is held at its offsets, one that fails may be held in part,
    nothing else is touched, and what is held is read back. *)
Class DestinationLaws (D : Type) `{Destination D} := {
  holds : D -> Z -> option byte;
  ready : D -> Prop;
  write_law c d d' r : ready d -> LaneSink.chunk_wf c -> dest_write_chunk c d = (d', r) ->
    ready d' /\
    (forall x, 0 <= x -> ~ covers c x -> is_Some (holds d x) -> holds d' x = holds d x) /\
    match r with
    | inr range => range = LaneSink.chunk_range c /\ forall x, covers c x -> holds d' x = LaneSink.brings c x
    | inl e => is_destination_error e = true /\
               forall x, covers c x -> is_Some (holds d x) -> holds d' x = holds d x \/ holds d' x = LaneSink.brings c x
    end;
  read_law off n d d' r : ready d -> 0 <= off -> 0 <= n -> dest_read_back off n d = (d', r) ->
    ready d' /\ (forall x, holds d' x = holds d x) /\
    match r with
    | inr bs => length bs = Z.to_nat n /\
                forall i b, (i < Z.to_nat n)%nat -> holds d (off + Z.of_nat i) = Some b -> bs !! i = Some b
    | inl e => is_destination_error e = true
    end;
  flush_law level d d' r : ready d -> dest_flush level d = (d', r) -> ready d' /\ (forall x, holds d' x = holds d x) /\
    match r with inr _ => True | inl e => is_destination_error e = true end }.

(** ** A shared destination ([shard.rs]) *)

Module SharedSink.

Section sink.
Context {D : Type} `{Destination D}.

(** [commit_shared]: the digest is checked before the destination commits. *)
Definition verify_shared (hash : HashKind -> list byte -> list Z) (final_length : Z) (integrity : option DigestCheck) (d : D) :
    D * result (option Digest) :=
  match integrity with
  | None => (d, inr None)
  | Some check =>
      try (d1, bytes) := dest_read_back 0 final_length d in
      let value := hash (dc_kind check) bytes in
      let digest := mkDigest (dc_kind check) value in
      match dc_expected check with
      | Some expected => if negb (bool_decide (value = expected)) then (d1, inl (Integrity "digest mismatch on shared destination")) else (d1, inr (Some digest))
      | None => (d1, inr (Some digest))
      end
  end.

Definition commit_shared (hash : HashKind -> list byte -> list Z) (final_length : Z) (integrity : option DigestCheck) (d : D) :
    D * result (option Digest) :=
  try (d1, u) := dest_flush FlushData d in
  try (d2, digest) := verify_shared hash final_length integrity d1 in
  try (d3, v) := dest_commit (CommitSuccess final_length) d2 in
  (d3, inr digest).
End sink.
End SharedSink.

(** ** The file destination ([storage/file.rs]) *)

Definition part_path_for (final_path : string) : string := final_path +:+ ".part".
Definition journal_path_for (final_path : string) : string := part_path_for final_path +:+ ".state".

Module FileDestination.

Record FileDestinationOptions := mkOptions {
  opt_final_path : string; opt_preallocate : bool; opt_advise_sequential : bool; opt_max_parallel_writes : Z; opt_max_inflight_bytes : Z }.

Definition options_new (final_path : string) : FileDestinationOptions := mkOptions final_path true false 16 (256 * 1024 * 1024).

(** What a system call answers that fails: why, and how many bytes a write had
    written. *)
Record fault := mkFault { why : ErrorKind; written : nat }.

(** The file is open until the commit, so it is named by its path; [answers] are
    those of the system calls to come, success when the list is over. *)
Record t := mk { opts : FileDestinationOptions; high_water : Z; preallocated : bool; fs : disk; answers : list (option fault) }.
#[export] Instance rebuild : Rebuild t := fun s => mk (opts s) (high_water s) (preallocated s) (fs s) (answers s).

Definition final (s : t) : string := opt_final_path (opts s).
Definition part (s : t) : string := part_path_for (final s).
Definition content (s : t) : list byte := match now_image (fs s) !! part s with Some f => data f | None => [] end.

Definition io_error (k : ErrorKind) : Error := Errors.Destination (DestinationIo k).

(** A call whose effect is [f]; [torn n] is what a failed one leaves. *)
Definition sys (f : disk -> disk) (torn : nat -> disk -> disk) (s : t) : t * result unit :=
  match answers s with
  | Some e :: l => (s <| fs ::= torn (written e) |> <| answers := l |>, inl (io_error (why e)))
  | None :: l => (s <| fs ::= f |> <| answers := l |>, inr tt)
  | [] => (s <| fs ::= f |>, inr tt)
  end.
Definition call (f : disk -> disk) : t -> t * result unit := sys f (fun _ d => d).
Definition on_file (o : string -> fs_op) (s : t) : t * result unit := call (apply_op (o (part s))) s.

(** [write_all_at] may stop in the middle. *)
Definition write_all (bytes : list byte) (off : Z) (s : t) : t * result unit :=
  sys (apply_op (WriteAt (part s) off bytes))
    (fun n d => match take n bytes with [] => d | b => apply_op (WriteAt (part s) off b) d end) s.

(** [open], the directories being there: the partial file is kept. *)
Definition open (o : FileDestinationOptions) (d : disk) (io : list (option fault)) : result t :=
  let s := mk o 0 false d io in
  match try (s1, u) := call id s in
        try (s2, v) := on_file OpenFile s1 in
        try (s3, w) := call id s2 in (s3, inr tt) with
  | (s', inr _) => inr (s' <| high_water := Z.of_nat (length (content s')) |>)
  | (_, inl e) => inl e
  end.

Definition existing_len (s : t) : t * result Z := try (s1, u) := call id s in (s1, inr (Z.of_nat (length (content s1)))).

Definition caps (s : t) : Z := file_sink_caps.
Definition hints (s : t) : DestinationHints :=
  mkDestinationHints 1 (opt_max_inflight_bytes (opts s)) (opt_max_inflight_bytes (opts s)) (opt_max_parallel_writes (opts s)).

Definition write_chunk (c : TransferChunk) (s : t) : t * result ByteRange.t :=
  if len c =? 0 then (s, inr (ByteRange.new (offset c) (offset c)))
  else
    try (s1, u) := write_all (payload c) (offset c) s in
    let end_ := offset c +% len c in
    (s1 <| high_water ::= Z.max end_ |>, inr (ByteRange.new (offset c) end_)).

(** [fallocate] never cuts a file and refuses a length of zero. *)
Definition fallocate (size : Z) (s : t) : t * result bool :=
  if size =? 0 then (s, inl (io_error InvalidInput))
  else match on_file (fun p => SetLen p (Z.max size (Z.of_nat (length (content s))))) s with
       | (s', inr _) => (s', inr true)
       | (s', inl (Errors.Destination (DestinationIo Unsupported))) => (s', inr false)
       | (s', inl e) => (s', inl e)
       end.

Definition set_len (size : Z) : t -> t * result unit := on_file (fun p => SetLen p size).
Definition fdatasync : t -> t * result unit := on_file SyncAll.
Definition full_sync : t -> t * result unit := on_file SyncAll.

Definition preallocate (size : Z) (s : t) : t * result unit :=
  if negb (opt_preallocate (opts s)) || preallocated s then (s, inr tt)
  else
    try (s1, done) := fallocate size s in
    try (s2, u) := (if done then (s1, inr tt) else set_len size s1) in
    (s2 <| preallocated := true |>, inr tt).

Definition begin (spec : BeginArtifact) (s : t) : t * result unit :=
  try (s1, u) := match begin_mode spec with
                 | ModeFresh =>
                     try (s0, v) := set_len 0 s in (s0 <| high_water := 0 |> <| preallocated := false |>, inr tt)
                 | ModeResume => (s, inr tt)
                 end in
  match begin_length spec with Some size => preallocate size s1 | None => (s1, inr tt) end.

Definition flush (level : FlushLevel) (s : t) : t * result unit :=
  match level with FlushBuffered => (s, inr tt) | FlushData => fdatasync s | FlushFull => full_sync s end.

Definition rename (s : t) : t * result unit :=
  match now_image (fs s) !! part s with
  | None => (s, inl (io_error NotFoundKind))
  | Some _ => call (apply_op (Rename (part s) (final s))) s
  end.

Definition finalize (expected_len : option Z) (s : t) : t * result unit :=
  try (s1, u) := set_len (match expected_len with Some n => n | None => high_water s end) s in
  try (s2, v) := full_sync s1 in
  try (s3, w) := rename s2 in
  call (apply_op SyncParent) s3.

Definition discard (s : t) : t * result unit :=
  match on_file RemoveFile s with
  | (s', inl (Errors.Destination (DestinationIo NotFoundKind))) => (s', inr tt)
  | r => r
  end.

Definition commit (outcome : CommitOutcome) (s : t) : t * result unit :=
  match outcome with
  | CommitSuccess n => finalize (Some n) s
  | CommitSuspend => fdatasync s
  | CommitDiscard => discard s
  end.

Definition read_back (off n : Z) (s : t) : t * result (list byte) :=
  if n =? 0 then (s, inr [])
  else try (s1, u) := call id s in (s1, FileLane.read_back (content s1) off n).
End FileDestination.

#[export] Instance file_destination : Destination FileDestination.t := {
  dest_caps := FileDestination.caps;
  dest_hints := FileDestination.hints;
  dest_begin := FileDestination.begin;
  dest_write_chunk := FileDestination.write_chunk;
  dest_preallocate := FileDestination.preallocate;
  dest_flush := FileDestination.flush;
  dest_commit := FileDestination.commit;
  dest_read_back := FileDestination.read_back }.
