(* ===== verification/DestinationSpec.v ===== *)
(** * What destinations promise.

    The file destination keeps the laws of [Destination], and a shared commit
    over it publishes what it verified. What the sinks of a destination protect
    is in [Sinks]. *)

From Stdlib Require Import String.
From S2P Require Import Prelude Ranges Errors Disk Provenance Spec Reorder Artifact World Destination.
Local Open Scope Z_scope.

(** ** The file destination *)

Section file.
Import FileDestination.

(** The partial file is there. *)
Definition file_ready (s : t) : Prop := exists f, now_image (fs s) !! part s = Some f.
Definition file_holds (s : t) (x : Z) : option byte := if x <? 0 then None else FileLane.at_ (content s) x.

Lemma sys_cases f torn s s' r : sys f torn s = (s', r) ->
  opts s' = opts s /\ high_water s' = high_water s /\ preallocated s' = preallocated s /\
  ((r = inr tt /\ fs s' = f (fs s)) \/ (exists n k, r = inl (io_error k) /\ fs s' = torn n (fs s))).
Proof.
  unfold sys. destruct (answers s) as [|[e|] l]; intros [= <- <-]; cbn; split_and!; try done; [by left| |by left].
  right. by exists (written e), (why e).
Qed.

(** The effect on the partial file. *)
Lemma set_content s s' g o : (forall f, now_image (fs s) !! part s = Some f ->
    now_image (apply_op o (fs s)) !! part s = Some (mkFile (g (data f)) (match o with SyncAll _ => true | _ => false end))) ->
  opts s' = opts s -> fs s' = apply_op o (fs s) -> file_ready s -> file_ready s' /\ content s' = g (content s).
Proof.
  intros Ho E1 E2 [f Hf]. assert (Hp : part s' = part s) by (unfold part, final; by rewrite E1). specialize (Ho f Hf).
  unfold file_ready, content. rewrite Hp, E2, Ho, Hf. by eauto.
Qed.

Lemma same_content s s' : opts s' = opts s -> fs s' = fs s -> file_ready s -> file_ready s' /\ content s' = content s.
Proof. intros E1 E2. unfold file_ready, content, part, final. by rewrite E1, E2. Qed.

(** The bytes that a full or torn write leaves. *)
Lemma overwrite_holds f bs off x : 0 <= off -> 0 <= x ->
  FileLane.at_ (overwrite f bs off) x =
  if decide (off <= x < off + Z.of_nat (length bs)) then bs !! Z.to_nat (x - off)
  else if decide (Z.of_nat (length f) <= x < off) then Some 0 else FileLane.at_ f x.
Proof. exact (FileLane.write_at f bs off x). Qed.

Lemma at_held (f : list byte) x : 0 <= x -> is_Some (FileLane.at_ f x) -> x < Z.of_nat (length f).
Proof. intros Hx [b Hb%lookup_lt_Some]. lia. Qed.

Lemma holds_content s x : 0 <= x -> file_holds s x = FileLane.at_ (content s) x.
Proof. intros Hx. unfold file_holds. case Z.ltb_spec; [lia|done]. Qed.

Lemma write_at_part s bytes off : forall f, now_image (fs s) !! part s = Some f ->
  now_image (apply_op (WriteAt (part s) off bytes) (fs s)) !! part s = Some (mkFile (overwrite (data f) bytes off) false).
Proof. intros f Hf. cbn. by simplify_map_eq. Qed.

(** Whatever part of a chunk is written. *)
Lemma write_part_law s s' c k : file_ready s -> 0 <= offset c -> opts s' = opts s ->
  fs s' = match take k (payload c) with [] => fs s | b => apply_op (WriteAt (part s) (offset c) b) (fs s) end ->
  file_ready s' /\
  (forall x, 0 <= x -> ~ covers c x -> is_Some (file_holds s x) -> file_holds s' x = file_holds s x) /\
  (forall x, covers c x -> is_Some (file_holds s x) -> file_holds s' x = file_holds s x \/ file_holds s' x = LaneSink.brings c x) /\
  ((length (payload c) <= k)%nat -> forall x, covers c x -> file_holds s' x = LaneSink.brings c x).
Proof.
  intros Hr Hoff E1 E2. set (bs := take k (payload c)) in *.
  assert (Hb : bs = take k (payload c)) by done. assert (Hlen : (length bs <= length (payload c))%nat) by (rewrite Hb, length_take; lia).
  assert (Hs : file_ready s' /\ content s' = match bs with [] => content s | _ => overwrite (content s) bs (offset c) end).
  { destruct bs as [|b bs']; [by apply same_content|].
    apply (set_content s s' (fun g => overwrite g (b :: bs') (offset c)) (WriteAt (part s) (offset c) (b :: bs'))); [|done..]. by apply write_at_part. }
  destruct Hs as [Hr' Hc]. split; [done|].
  assert (Hat : forall x, 0 <= x -> is_Some (file_holds s x) \/ offset c <= x -> file_holds s' x =
    if decide (offset c <= x < offset c + Z.of_nat (length bs)) then bs !! Z.to_nat (x - offset c) else file_holds s x).
  { intros x Hx Hh. rewrite !holds_content in * by done. rewrite Hc. destruct bs as [|b bs'].
    - rewrite decide_False by (cbn; lia). done.
    - rewrite overwrite_holds by done. case_decide; [done|]. rewrite decide_False; [done|].
      intros Hy. destruct Hh as [Hh|?]; [|lia]. apply at_held in Hh; [lia|done]. }
  unfold covers, LaneSink.brings, len in *. split_and!.
  - intros x Hx Hn Hh. rewrite Hat by auto. rewrite decide_False by lia. done.
  - intros x Hx Hh. rewrite Hat by (lia || auto). case_decide; [|by left]. right. rewrite Hb. apply lookup_take_lt. rewrite Hb in *. rewrite length_take in *. lia.
  - intros Hk x Hx. rewrite Hb in *. rewrite take_ge in * by done. rewrite Hat by lia. by rewrite decide_True.
Qed.

Lemma file_write_law c s s' r : file_ready s -> LaneSink.chunk_wf c -> write_chunk c s = (s', r) ->
  file_ready s' /\
  (forall x, 0 <= x -> ~ covers c x -> is_Some (file_holds s x) -> file_holds s' x = file_holds s x) /\
  match r with
  | inr range => range = LaneSink.chunk_range c /\ forall x, covers c x -> file_holds s' x = LaneSink.brings c x
  | inl e => is_destination_error e = true /\
             forall x, covers c x -> is_Some (file_holds s x) -> file_holds s' x = file_holds s x \/ file_holds s' x = LaneSink.brings c x
  end.
Proof.
  intros Hr [Ho He] Hw. unfold write_chunk in Hw. pose proof (len_nonneg c) as Hn. revert Hw. case Z.eqb_spec; intros H0 Hw.
  - injection Hw as <- <-. split_and!; [done..| |].
    + unfold LaneSink.chunk_range. rewrite H0, u64_add_small by u64_lia. by rewrite Z.add_0_r.
    + unfold covers. intros x Hx. lia.
  - apply and_then_ok in Hw as [(e&Hw&->)|(s1&[]&Hw&[= <- <-])]; apply sys_cases in Hw as (E1&_&_&Hc).
    + destruct Hc as [[? _]|(n&k&[= ->]&E2)]; [done|]. destruct (write_part_law s s' c n Hr Ho E1 E2) as (P1&P2&P3&_). by split_and!.
    + destruct Hc as [[_ E2]|(?&?&?&_)]; [|done].
      assert (E3 : fs s1 = match take (length (payload c)) (payload c) with [] => fs s | b => apply_op (WriteAt (part s) (offset c) b) (fs s) end).
      { rewrite take_ge by done. unfold len in H0. destruct (payload c); [cbn in H0; lia|done]. }
      destruct (write_part_law s s1 c (length (payload c)) Hr Ho E1 E3) as (P1&P2&P3&P4).
      split_and!; [done|exact P2|done|]. by apply P4.
Qed.

Lemma file_read_law off n s s' r : file_ready s -> 0 <= off -> 0 <= n -> read_back off n s = (s', r) ->
  file_ready s' /\ (forall x, file_holds s' x = file_holds s x) /\
  match r with
  | inr bs => length bs = Z.to_nat n /\
              forall i b, (i < Z.to_nat n)%nat -> file_holds s (off + Z.of_nat i) = Some b -> bs !! i = Some b
  | inl e => is_destination_error e = true
  end.
Proof.
  intros Hr Hoff Hn Hb. unfold read_back in Hb. revert Hb. case Z.eqb_spec; intros H0 Hb.
  - injection Hb as <- <-. subst n. split_and!; [done..|]. intros i b Hi. cbn in Hi. lia.
  - apply and_then_ok in Hb as [(e&Hb&->)|(s1&[]&Hb&[= <- Hx])]; apply sys_cases in Hb as (E1&_&_&Hc).
    + destruct Hc as [[? _]|(k&kd&[= ->]&E2)]; [done|]. destruct (same_content s s' E1 E2 Hr) as [P1 P2].
      split_and!; [done| |done]. intros x. unfold file_holds. by rewrite P2.
    + destruct Hc as [[_ E2]|(?&?&?&_)]; [|done]. destruct (same_content s s1 E1 E2 Hr) as [P1 P2].
      split_and!; [done| |].
      * intros x. unfold file_holds. by rewrite P2.
      * rewrite P2 in Hx. destruct r as [e|bs].
        { unfold FileLane.read_back in Hx. revert Hx. case Z.eqb_spec; [done|]. intros _. case Z.leb_spec; [done|]. by intros _ [= <-]. }
        apply FileLane.read_back_ok in Hx as [L1 L2]; [|done..]. split; [done|]. intros i b Hi Hh.
        rewrite holds_content in Hh by lia. by rewrite L2.
Qed.

Lemma file_sync_law s s' r : file_ready s -> on_file SyncAll s = (s', r) ->
  file_ready s' /\ content s' = content s /\ match r with inr _ => True | inl e => is_destination_error e = true end.
Proof.
  intros Hr Hs. apply sys_cases in Hs as (E1&_&_&[[-> E2]|(n&k&->&E2)]).
  - destruct (set_content s s' id (SyncAll (part s))) as [P1 P2]; [|done..|by split_and!]. intros f Hf. cbn. by simplify_map_eq.
  - destruct (same_content s s' E1 E2 Hr). by split_and!.
Qed.

Lemma file_flush_law level s s' r : file_ready s -> flush level s = (s', r) -> file_ready s' /\ (forall x, file_holds s' x = file_holds s x) /\
  match r with inr _ => True | inl e => is_destination_error e = true end.
Proof.
  intros Hr. assert (H : on_file SyncAll s = (s', r) -> file_ready s' /\ (forall x, file_holds s' x = file_holds s x) /\
    match r with inr _ => True | inl e => is_destination_error e = true end).
  { intros Hs. destruct (file_sync_law s s' r Hr Hs) as (P1&P2&P3). split_and!; [done| |done]. intros x. unfold file_holds. by rewrite P2. }
  destruct level; [|exact H..]. intros [= <- <-]. by split_and!.
Qed.
End file.

#[export] Instance file_laws : DestinationLaws FileDestination.t := {
  holds := file_holds;
  ready := file_ready;
  write_law := file_write_law;
  read_law := file_read_law;
  flush_law := file_flush_law }.

(** ** The commit of a shared file destination *)

Section commit.
Import FileDestination.

Lemma part_path_ne p : part_path_for p <> p.
Proof.
  unfold part_path_for. intros H. apply (f_equal String.length) in H. revert H.
  induction p as [|a p IH]; cbn; [done|]. intros [= H]. by apply IH.
Qed.

Lemma part_ne_final s : part s <> final s.
Proof. apply part_path_ne. Qed.

Lemma same_paths s s' : opts s' = opts s -> part s' = part s /\ final s' = final s.
Proof. unfold part, final. by intros ->. Qed.

(** A call on the partial file leaves the final path and the past alone. *)
Lemma on_part_elsewhere s s' r o : (forall d, now_image (apply_op (o (part s)) d) !! final s = now_image d !! final s) ->
  (forall d, rollback (apply_op (o (part s)) d) = rollback d) -> on_file o s = (s', r) ->
  opts s' = opts s /\ now_image (fs s') !! final s = now_image (fs s) !! final s /\ rollback (fs s') = rollback (fs s) /\
  match r with inr _ => fs s' = apply_op (o (part s)) (fs s) | inl e => fs s' = fs s /\ exists k, e = io_error k end.
Proof.
  intros H1 H2 Hs. apply sys_cases in Hs as (E1&_&_&[[-> E2]|(n&k&->&E2)]); rewrite E2; split_and!; try done. by exists k.
Qed.

Lemma sync_step s s' r : on_file SyncAll s = (s', r) -> opts s' = opts s /\ now_image (fs s') !! final s = now_image (fs s) !! final s /\
  rollback (fs s') = rollback (fs s) /\ match r with inr _ => fs s' = apply_op (SyncAll (part s)) (fs s) | inl e => fs s' = fs s /\ exists k, e = io_error k end.
Proof. apply on_part_elsewhere; [|done]. intros d. cbn. rewrite lookup_alter_ne; [done|apply part_ne_final]. Qed.

Lemma set_len_step n s s' r : set_len n s = (s', r) -> opts s' = opts s /\ now_image (fs s') !! final s = now_image (fs s) !! final s /\
  rollback (fs s') = rollback (fs s) /\ match r with inr _ => fs s' = apply_op (SetLen (part s) n) (fs s) | inl e => fs s' = fs s /\ exists k, e = io_error k end.
Proof. apply on_part_elsewhere; [|done]. intros d. cbn. rewrite lookup_alter_ne; [done|apply part_ne_final]. Qed.

(** [finalize] replaces the final path by the whole synced file, or keeps it. *)
Lemma finalize_file n s s' r : file_ready s -> finalize (Some n) s = (s', r) ->
  let new := mkFile (resize (content s) n) true in
  match r with
  | inr _ => now_image (fs s') !! final s = Some new /\ rollback (fs s') = []
  | inl e => (now_image (fs s') !! final s = now_image (fs s) !! final s \/ now_image (fs s') !! final s = Some new) /\ exists k, e = io_error k
  end.
Proof.
  intros [f Hf] H new. unfold finalize in H. apply and_then_ok in H as [(e&H&->)|(s1&[]&H1&H)].
  { apply set_len_step in H as (_&F1&_&_&Hk). split; [by left|done]. }
  apply set_len_step in H1 as (O1&F1&_&E1). destruct (same_paths _ _ O1) as [P1 Q1].
  apply and_then_ok in H as [(e&H&->)|(s2&[]&H2&H)].
  { apply sync_step in H as (_&F2&_&_&Hk). rewrite Q1 in F2. split; [left; congruence|done]. }
  apply sync_step in H2 as (O2&F2&_&E2). destruct (same_paths _ _ O2) as [P2 Q2]. rewrite P1, Q1 in *.
  assert (Hnew : now_image (fs s2) !! part s = Some new).
  { rewrite E2, E1. cbn. rewrite !lookup_alter_eq, Hf. cbn. unfold new, content. by rewrite Hf. }
  apply and_then_ok in H as [(e&H&->)|(s3&[]&H3&H)]; unfold rename in *; rewrite P2, Q2, Hnew in *.
  { apply sys_cases in H as (_&_&_&[[? _]|(m&k&[= ->]&E3)]); [done|]. rewrite E3. split; [left; congruence|by exists k]. }
  apply sys_cases in H3 as (_&_&_&[[_ E3]|(?&?&?&_)]); [|done]. cbn [apply_op] in E3. rewrite Hnew in E3.
  apply sys_cases in H as (_&_&_&[[-> E4]|(m&k&->&E4)]); rewrite E4, E3; cbn; rewrite lookup_insert_eq; [by split|split; [by right|by exists k]].
Qed.

Section hash.
Context (hash : HashKind -> list byte -> list Z).

Lemma verify_file n check s s' r : file_ready s -> 0 <= n -> SharedSink.verify_shared hash n check s = (s', r) ->
  opts s' = opts s /\ fs s' = fs s /\
  match r with
  | inr digest => forall ck, check = Some ck ->
      n <= Z.of_nat (length (content s)) /\ digest = Some (mkDigest (dc_kind ck) (hash (dc_kind ck) (take (Z.to_nat n) (content s)))) /\
      (forall e, dc_expected ck = Some e -> e = hash (dc_kind ck) (take (Z.to_nat n) (content s)))
  | inl e => (exists k, e = io_error k) \/ e = Integrity "digest mismatch on shared destination"
  end /\ (check = None -> r = inr None).
Proof.
  intros Hr Hn. unfold SharedSink.verify_shared. destruct check as [ck|]; [|by intros [= <- <-]].
  intros [(e&H&->)|(s1&bs&H&Hd)]%and_then_ok; change (read_back 0 n s = (s', inl e)) in H || change (read_back 0 n s = (s1, inr bs)) in H;
    unfold read_back in H; revert H; case Z.eqb_spec; intros H0 H; try done.
  - apply and_then_ok in H as [(e'&H&[= <-])|(s2&[]&H&[= -> Hx])]; apply sys_cases in H as (E1&_&_&Hc).
    + destruct Hc as [[? _]|(k&kd&[= ->]&E2)]; [done|]. split_and!; [done..|by left; exists kd|done].
    + destruct Hc as [[_ E2]|(?&?&?&_)]; [|done]. split_and!; [done..| |done]. left. revert Hx. unfold FileLane.read_back.
      case Z.eqb_spec; [done|]. intros _. case Z.leb_spec; [done|]. intros _ [= <-]. by exists UnexpectedEof.
  - injection H as <- <-. subst n. rewrite take_0.
    destruct (dc_expected ck) as [e|] eqn:Ee; [case_bool_decide as Hv; cbn [negb] in Hd|]; injection Hd as <- <-; split_and!; try done;
      try (by right); intros ck' [= <-]; (split; [lia|]); (split; [done|]); intros e'; congruence.
  - apply and_then_ok in H as [(e'&_&?)|(s2&[]&H&[= -> Hx])]; [done|]. apply sys_cases in H as (E1&_&_&[[_ E2]|(?&?&?&_)]); [|done].
    destruct (same_content s s1 E1 E2 Hr) as [_ Hc]. rewrite Hc in Hx. unfold FileLane.read_back in Hx. revert Hx.
    case Z.eqb_spec; [done|]. intros _. case Z.leb_spec; [|done]. intros Hle [= <-]. rewrite drop_0 in Hd.
    destruct (dc_expected ck) as [e|] eqn:Ee; [case_bool_decide as Hv; cbn [negb] in Hd|]; injection Hd as <- <-; split_and!; try done;
      try (by right); intros ck' [= <-]; (split; [lia|]); (split; [done|]); intros e'; congruence.
Qed.

(** Committing a shared file destination is all or nothing: on success the final
    path holds exactly the announced number of bytes, durably, and if a digest
    was asked for it is that of the published bytes, and the expected one; a
    mismatch publishes nothing; whatever system call fails, the final path keeps
    what it had or holds the whole new artifact. *)
Theorem shared_commit_publishes n check s s' r : file_ready s -> 0 <= n -> SharedSink.commit_shared hash n check s = (s', r) ->
  let new := resize (content s) n in
  match r with
  | inr digest => now_image (fs s') !! final s = Some (mkFile new true) /\ rollback (fs s') = [] /\ Z.of_nat (length new) = n /\
      digest = (fun ck => mkDigest (dc_kind ck) (hash (dc_kind ck) new)) <$> check /\
      (forall ck e, check = Some ck -> dc_expected ck = Some e -> e = hash (dc_kind ck) new)
  | inl (Integrity _) => now_image (fs s') !! final s = now_image (fs s) !! final s
  | inl _ => now_image (fs s') !! final s = now_image (fs s) !! final s \/ now_image (fs s') !! final s = Some (mkFile new true)
  end.
Proof.
  intros Hr Hn H new. unfold SharedSink.commit_shared in H. apply and_then_ok in H as [(e&H&->)|(s1&[]&H1&H)].
  { apply sync_step in H as (_&F1&_&_&k&->). by left. }
  destruct (file_sync_law _ _ _ Hr H1) as (R1&C1&_). apply sync_step in H1 as (O1&F1&_&_). destruct (same_paths _ _ O1) as [_ Q1].
  apply and_then_ok in H as [(e&H&->)|(s2&digest&H2&H)].
  { apply verify_file in H as (_&E2&Hv&_); [|done..]. rewrite E2, F1. destruct Hv as [[k ->]| ->]; [by left|done]. }
  apply verify_file in H2 as (O2&E2&Hv&Hnone); [|done..]. destruct (same_paths _ _ O2) as [_ Q2].
  destruct (same_content s1 s2 O2 E2 R1) as [R2 C2]. rewrite C1 in *. unfold new.
  apply and_then_ok in H as [(e&H&->)|(s3&[]&H3&[= <- <-])].
  - change (finalize (Some n) s2 = (s', inl e)) in H. apply finalize_file in H as [H [k ->]]; [|done]. rewrite Q2, Q1, C2, E2 in H. cbn. by rewrite F1 in H.
  - change (finalize (Some n) s2 = (s3, inr tt)) in H3. apply finalize_file in H3 as [H3 H4]; [|done]. rewrite Q2, Q1, C2 in H3.
    split_and!; [done|done|by apply Coordinator.resize_length| |].
    + destruct check as [ck|]; [|by injection (Hnone eq_refl) as ->]. destruct (Hv ck eq_refl) as (Hle&->&_). cbn.
      unfold resize. by rewrite take_app_le by lia.
    + intros ck e -> He. destruct (Hv ck eq_refl) as (Hle&_&Hx). unfold resize. rewrite take_app_le by lia. by apply Hx.
Qed.
End hash.
End commit.

(** ** Preparing the file *)

Section prepare.
Import FileDestination.

(** Resuming keeps what was downloaded, up to the announced length. *)
Lemma begin_resume_keeps size s s' : file_ready s -> 0 <= size -> begin (mkBegin ModeResume (Some size)) s = (s', inr tt) ->
  forall x, 0 <= x < size -> is_Some (file_holds s x) -> file_holds s' x = file_holds s x.
Proof.
  intros Hr Hs H x Hx Hh. cbn in H. unfold preallocate in H. destruct (negb _ || _); [by injection H as <-|].
  assert (Hcut : forall m s1, size <= m -> opts s1 = opts s -> fs s1 = apply_op (SetLen (part s) m) (fs s) -> file_holds s1 x = file_holds s x).
  { intros m s1 Hm E1 E2. destruct (set_content s s1 (fun b => resize b m) (SetLen (part s) m)) as [_ Hc]; [|done..|].
    { intros f Hf. cbn. by simplify_map_eq. }
    rewrite !holds_content in * by lia. apply at_held in Hh; [|lia]. rewrite Hc. unfold FileLane.at_, resize.
    rewrite lookup_take_lt by lia. apply lookup_app_l. lia. }
  apply and_then_ok in H as [(e&_&?)|(s1&done1&H1&H)]; [done|]. unfold fallocate in H1.
  destruct (size =? 0); [done|]. destruct (on_file _ s) as [s0 r0] eqn:E0. pose proof E0 as E3. apply sys_cases in E0 as (O0&_&_&Hc).
  apply and_then_ok in H as [(e&_&?)|(s2&[]&H2&[= <-])]; [done|]. destruct r0 as [e|[]].
  - destruct Hc as [[? _]|(n&k&[= ->]&F0)]; [done|]. unfold io_error in H1. destruct k; try done. injection H1 as <- <-.
    apply sys_cases in H2 as (O2&_&_&[[_ F2]|(?&?&?&_)]); [|done]. destruct (same_paths _ _ O0) as [P0 _]. rewrite P0, F0 in F2.
    apply (Hcut size s2); [lia|congruence|exact F2].
  - destruct Hc as [[_ F0]|(?&?&?&_)]; [|done]. injection H1 as <- <-. injection H2 as <-. by eapply Hcut; [|exact O0|exact F0]; lia.
Qed.

(** An artifact of no bytes cannot be begun: [fallocate] refuses a length of zero. *)
Lemma begin_empty_fails s : opt_preallocate (opts s) = true -> preallocated s = false ->
  (begin (mkBegin ModeResume (Some 0)) s).2 = inl (io_error InvalidInput).
Proof. intros H1 H2. cbn. unfold preallocate. by rewrite H1, H2. Qed.
End prepare.

(** ** Witnesses *)

Module Samples.
Import ArtifactProvenance SharedSink FileDestination.

Definition partial : t :=
  mk (options_new "a") 6 false (mkDisk (<["a.part" := mkFile [1; 2; 3; 4; 0; 0] false]> (<["a" := mkFile [9] true]> ∅)) []) [].
Definition sum_hash (k : HashKind) (b : list byte) : list Z := [foldr Z.add 0 b].

Lemma shared_commit_publishes_witness :
  (exists s', SharedSink.commit_shared sum_hash 4 (Some (mkDigestCheck Sha256 (Some [10]))) partial = (s', inr (Some (mkDigest Sha256 [10]))) /\
     now_image (fs s') !! "a" = Some (mkFile [1; 2; 3; 4] true)) /\
  now_image (fs (SharedSink.commit_shared sum_hash 4 (Some (mkDigestCheck Sha256 (Some [11]))) partial).1) !! "a" = Some (mkFile [9] true).
Proof.
  split; [eexists; split; reflexivity|].
  destruct (SharedSink.commit_shared sum_hash 4 (Some (mkDigestCheck Sha256 (Some [11]))) partial) as [s' r] eqn:E.
  pose proof (shared_commit_publishes sum_hash 4 (Some (mkDigestCheck Sha256 (Some [11]))) partial s' r
    ltac:(exists (mkFile [1; 2; 3; 4; 0; 0] false); reflexivity) ltac:(lia) E) as H.
  assert (Hr : r = inl (Integrity "digest mismatch on shared destination")).
  { change r with (snd (s', r)). rewrite <- E. reflexivity. }
  rewrite Hr in H. exact H.
Defined.
End Samples.
