(* ===== verification/Sinks.v ===== *)
(** * The sinks that write to a partial file ([shard.rs]).

    Every assignment of a job writes through a sink of its own: [LaneSink] for
    the partial file of the engine, [SharedSink] for a destination of the
    application. All sinks of an artifact share the store and the map of who
    wrote what first. [accept] gives way to other sinks wherever it awaits: the
    read-back of each conflict, the wait for capacity, the write. So it is
    modelled as the steps between two awaits, which the steps of the other sinks
    may come between in any order; what the store answers is the store's. *)

From Stdlib Require Import String.
From S2P Require Import Prelude Ranges Errors Disk Provenance Spec Reorder Artifact World Destination DestinationSpec.
Local Open Scope Z_scope.

(** ** Stores *)

(** What a sink uses of where it writes. *)
Class Store (D : Type) := {
  store_read : Z -> Z -> D -> D * result (list byte);
  store_write : TransferChunk -> D -> D * result ByteRange.t }.

(** A chunk that is accepted is held at its offsets, one that fails may be held
    in part, nothing else is touched, and what is held is read back. *)
Class StoreLaws (D : Type) `{Store D} := {
  stored : D -> Z -> option byte;
  usable : D -> Prop;
  store_write_law c d d' r : usable d -> LaneSink.chunk_wf c -> store_write c d = (d', r) ->
    usable d' /\
    (forall x, 0 <= x -> ~ covers c x -> is_Some (stored d x) -> stored d' x = stored d x) /\
    match r with
    | inr range => range = LaneSink.chunk_range c /\ forall x, covers c x -> stored d' x = LaneSink.brings c x
    | inl e => is_destination_error e = true /\
               forall x, covers c x -> is_Some (stored d x) -> stored d' x = stored d x \/ stored d' x = LaneSink.brings c x
    end;
  store_read_law off n d d' r : usable d -> 0 <= off -> 0 <= n -> store_read off n d = (d', r) ->
    usable d' /\ (forall x, stored d' x = stored d x) /\
    match r with
    | inr bs => length bs = Z.to_nat n /\
                forall i b, (i < Z.to_nat n)%nat -> stored d (off + Z.of_nat i) = Some b -> bs !! i = Some b
    | inl e => is_destination_error e = true
    end }.

(** A destination of the application. *)
#[export] Instance destination_store {D} `{Destination D} : Store D := {
  store_read := dest_read_back;
  store_write := dest_write_chunk }.
#[export] Instance destination_store_laws {D} `{DestinationLaws D} : StoreLaws D := {
  stored := holds; usable := ready; store_write_law := write_law; store_read_law := read_law }.

(** The partial file through the lane of a shard ([storage/lane.rs]). [io] are
    the answers of the calls to come: why one fails and how much of a write was
    written by then; success when the list is over. *)
Module LaneStore.
Import FileDestination.

Record t := mk { file : list byte; io : list (option fault) }.

Definition write_chunk (c : TransferChunk) (s : t) : t * result ByteRange.t :=
  if len c =? 0 then (s, inr (LaneSink.chunk_range c))
  else
    match io s with
    | Some e :: l =>
        (mk (match take (written e) (payload c) with [] => file s | b => FileLane.write_all_at (file s) b (offset c) end) l,
         inl (io_error (why e)))
    | _ => (mk (FileLane.write_chunk (file s) c) (tail (io s)), inr (LaneSink.chunk_range c))
    end.

Definition read_back (off n : Z) (s : t) : t * result (list byte) :=
  if n =? 0 then (s, inr [])
  else
    match io s with
    | Some e :: l => (mk (file s) l, inl (io_error (why e)))
    | _ => (mk (file s) (tail (io s)), FileLane.read_back (file s) off n)
    end.
End LaneStore.

#[export] Instance lane_store : Store LaneStore.t := {
  store_read := LaneStore.read_back;
  store_write := LaneStore.write_chunk }.

(** ** Sinks *)

Module Sink.
Import ArtifactProvenance LaneSink.

Section sink.
Context {D : Type} `{Store D} {SourceId : Type} `{!EqDecision SourceId}.

(** Where an [accept] is: it knows that several sources wrote, and will ask what
    they wrote; it has conflicts left to compare; it may write; it has written
    and has not recorded it. *)
Inductive stage := Looked | Comparing (ks : list ByteRange.t) | Cleared | Written (range : ByteRange.t).

(** An [accept] in progress; [need_cross]: several sources had written when it
    began. *)
Record sink := mkSink { chunk : TransferChunk; source_id : SourceId; need_cross : bool; at_stage : stage }.

Record state := mkState { dest : D; prov : ArtifactProvenance.t SourceId; sinks : gmap nat sink }.

Definition conflicts (p : ArtifactProvenance.t SourceId) (c : TransferChunk) (source : SourceId) : list ByteRange.t :=
  foreign_spans p (chunk_range c) source.

(** How an [accept] begins: [LaneSink] asks whether several sources wrote and
    takes the lock a second time for the conflicts, [SharedSink] takes the
    conflicts at once. *)
Definition lane_begin (p : ArtifactProvenance.t SourceId) (c : TransferChunk) (source : SourceId) : sink :=
  let several := has_multiple_writers p in
  mkSink c source several (if several then Looked else Cleared).
Definition shared_begin (p : ArtifactProvenance.t SourceId) (c : TransferChunk) (source : SourceId) : sink :=
  mkSink c source (has_multiple_writers p) (Comparing (conflicts p c source)).

(** The next step of an [accept]: it goes on, or is done. [None]: a slice out of
    bounds panics. *)
Definition advance (u : sink) (d : D) (p : ArtifactProvenance.t SourceId)
    : option (D * ArtifactProvenance.t SourceId * (stage + result unit)) :=
  let c := chunk u in
  match at_stage u with
  | Looked => Some (d, p, inl (Comparing (conflicts p c (source_id u))))
  | Comparing [] => Some (d, p, inl Cleared)
  | Comparing (k :: ks) =>
      match store_read (ByteRange.start k) (ByteRange.len k) d with
      | (d', inl e) => Some (d', p, inr (inl e))
      | (d', inr existing) =>
          match slice (payload c) (ByteRange.start k -% offset c) (ByteRange.len k) with
          | None => None
          | Some mine =>
              if negb (bool_decide (existing = mine)) then Some (d', p, inr (inl (OverlapMismatch (ByteRange.start k))))
              else Some (d', p, inl (Comparing ks))
          end
      end
  | Cleared =>
      match store_write c d with
      | (d', inl e) => Some (d', p, inr (inl e))
      | (d', inr range) => Some (d', p, inl (Written range))
      end
  | Written range => Some (d, record p range (source_id u), inr (inr tt))
  end.

(** [SampleSink::accept]: compares, never writes. *)
Definition sample_accept (c : TransferChunk) (d : D) : D * result unit :=
  match store_read (offset c) (len c) d with
  | (d', inl e) => (d', inl e)
  | (d', inr existing) => (d', if negb (bool_decide (existing = payload c)) then inl (OverlapMismatch (offset c)) else inr tt)
  end.

(** *** Many sinks *)

(** A sink gets a chunk, takes its next step, or is dropped at an await. One
    that is dropped while its write is queued is gone only when the write is: it
    stays until the lane has answered, and drops then. *)
Inductive event := Begins (i : nat) (c : TransferChunk) (source : SourceId) | Runs (i : nat) | Drops (i : nat).

Context (begin : ArtifactProvenance.t SourceId -> TransferChunk -> SourceId -> sink).

Definition step (e : event) (s : state) : option (state * option (result unit)) :=
  match e with
  | Begins i c source => Some (mkState (dest s) (prov s) (<[i := begin (prov s) c source]> (sinks s)), None)
  | Runs i =>
      match sinks s !! i with
      | None => Some (s, None)
      | Some u =>
          match advance u (dest s) (prov s) with
          | None => None
          | Some (d, p, inl st) => Some (mkState d p (<[i := mkSink (chunk u) (source_id u) (need_cross u) st]> (sinks s)), None)
          | Some (d, p, inr r) => Some (mkState d p (delete i (sinks s)), Some r)
          end
      end
  | Drops i => Some (mkState (dest s) (prov s) (delete i (sinks s)), None)
  end.

Fixpoint run (es : list event) (s : state) : option state :=
  match es with
  | [] => Some s
  | e :: es' => match step e s with Some (s', _) => run es' s' | None => None end
  end.

(** Chunks that are under way at the same time do not overlap. *)
Definition apart (e : event) (s : state) : Prop :=
  match e with
  | Begins i c _ => sinks s !! i = None /\ chunk_wf c /\
      forall j v x, sinks s !! j = Some v -> covers (chunk v) x -> ~ covers c x
  | _ => True
  end.

Inductive reached (d : D) : state -> Prop :=
| reached_start : reached d (mkState d empty ∅)
| reached_step s e s' out : reached d s -> apart e s -> step e s = Some (s', out) -> reached d s'.
End sink.
Arguments state D SourceId : clear implicits.
Arguments sink SourceId : clear implicits.
Arguments event SourceId : clear implicits.
End Sink.

(** ** The lane keeps the laws of a store *)

Section lane.
Import FileDestination LaneStore.

Definition lane_holds (s : LaneStore.t) (x : Z) : option byte := if x <? 0 then None else FileLane.at_ (LaneStore.file s) x.

Lemma lane_holds_at s x : 0 <= x -> lane_holds s x = FileLane.at_ (LaneStore.file s) x.
Proof. intros Hx. unfold lane_holds. case Z.ltb_spec; [lia|done]. Qed.

(** The bytes that a full or torn write leaves. *)
Lemma lane_part_written f f' c k : 0 <= offset c ->
  f' = match take k (payload c) with [] => f | b => FileLane.write_all_at f b (offset c) end ->
  forall x, 0 <= x -> x < Z.of_nat (length f) \/ offset c <= x ->
  FileLane.at_ f' x = if decide (offset c <= x < offset c + Z.of_nat (length (take k (payload c)))) then LaneSink.brings c x else FileLane.at_ f x.
Proof.
  intros Ho -> x Hx Hin. destruct (take k (payload c)) as [|b bs] eqn:Eb; [rewrite decide_False by (cbn; lia); done|].
  rewrite FileLane.write_at by done. case_decide as Hc; [|rewrite decide_False by lia; done]. unfold LaneSink.brings.
  rewrite <- Eb in *. rewrite length_take in Hc. apply lookup_take_lt. lia.
Qed.

Lemma lane_held s x : 0 <= x -> is_Some (lane_holds s x) -> x < Z.of_nat (length (LaneStore.file s)).
Proof. intros Hx. rewrite lane_holds_at by done. by apply at_held. Qed.

Lemma lane_write_law c s s' r : True -> LaneSink.chunk_wf c -> write_chunk c s = (s', r) ->
  True /\
  (forall x, 0 <= x -> ~ covers c x -> is_Some (lane_holds s x) -> lane_holds s' x = lane_holds s x) /\
  match r with
  | inr range => range = LaneSink.chunk_range c /\ forall x, covers c x -> lane_holds s' x = LaneSink.brings c x
  | inl e => is_destination_error e = true /\
             forall x, covers c x -> is_Some (lane_holds s x) -> lane_holds s' x = lane_holds s x \/ lane_holds s' x = LaneSink.brings c x
  end.
Proof.
  intros _ [Ho _]. unfold write_chunk. case Z.eqb_spec; intros H0.
  { intros [= <- <-]. split_and!; [done..|]. unfold covers. intros x Hx. lia. }
  assert (Hfull : forall l, (mk (FileLane.write_chunk (LaneStore.file s) c) l, inr (LaneSink.chunk_range c)) = (s', r) -> True /\
    (forall x, 0 <= x -> ~ covers c x -> is_Some (lane_holds s x) -> lane_holds s' x = lane_holds s x) /\
    match r with inr range => range = LaneSink.chunk_range c /\ forall x, covers c x -> lane_holds s' x = LaneSink.brings c x | inl _ => False end).
  { intros l [= <- <-]. unfold covers. split; [done|]. split; [|split; [done|]]; intros x.
    - intros Hx Hn Hh. apply lane_held in Hh; [|done]. rewrite !lane_holds_at by done. cbn [LaneStore.file]. rewrite FileLane.write_chunk_at by done.
      rewrite !decide_False by lia. done.
    - intros Hx. rewrite lane_holds_at by lia. cbn [LaneStore.file]. rewrite FileLane.write_chunk_at by lia. by rewrite decide_True. }
  destruct (io s) as [|[e|] l]; [intros H; destruct (Hfull _ H) as (_&?&?); by destruct r| |intros H; destruct (Hfull _ H) as (_&?&?); by destruct r].
  intros [= <- <-]. unfold covers. split; [done|].
  assert (Hat : forall x, 0 <= x -> is_Some (lane_holds s x) -> lane_holds (mk match take (written e) (payload c) with [] => LaneStore.file s
      | b => FileLane.write_all_at (LaneStore.file s) b (offset c) end l) x =
    if decide (offset c <= x < offset c + Z.of_nat (length (take (written e) (payload c)))) then LaneSink.brings c x else lane_holds s x).
  { intros x Hx Hh. apply lane_held in Hh; [|done]. rewrite !lane_holds_at by done. cbn [LaneStore.file].
    apply (lane_part_written _ _ _ _ Ho eq_refl); [done|by left]. }
  split; [|split; [done|]].
  - intros x Hx Hn Hh. rewrite Hat by done. rewrite decide_False; [done|]. unfold len in Hn. rewrite length_take. lia.
  - intros x Hx Hh. rewrite Hat by (done || lia). case_decide; [by right|by left].
Qed.

Lemma lane_read_law off n s s' r : True -> 0 <= off -> 0 <= n -> read_back off n s = (s', r) ->
  True /\ (forall x, lane_holds s' x = lane_holds s x) /\
  match r with
  | inr bs => length bs = Z.to_nat n /\
              forall i b, (i < Z.to_nat n)%nat -> lane_holds s (off + Z.of_nat i) = Some b -> bs !! i = Some b
  | inl e => is_destination_error e = true
  end.
Proof.
  intros _ Hoff Hn. unfold read_back. case Z.eqb_spec; intros H0.
  { intros [= <- <-]. subst n. split_and!; [done..|]. intros i b Hi. cbn in Hi. lia. }
  assert (Hfull : forall l, (mk (LaneStore.file s) l, FileLane.read_back (LaneStore.file s) off n) = (s', r) -> True /\ (forall x, lane_holds s' x = lane_holds s x) /\
    match r with
    | inr bs => length bs = Z.to_nat n /\
                forall i b, (i < Z.to_nat n)%nat -> lane_holds s (off + Z.of_nat i) = Some b -> bs !! i = Some b
    | inl e => is_destination_error e = true
    end).
  { intros l [= <- <-]. split_and!; [done..|]. destruct (FileLane.read_back (LaneStore.file s) off n) as [e|bs] eqn:E.
    - unfold FileLane.read_back in E. revert E. case Z.eqb_spec; [done|]. intros _. case Z.leb_spec; [done|]. by intros _ [= <-].
    - apply FileLane.read_back_ok in E as [L1 L2]; [|done..]. split; [done|]. intros i b Hi. rewrite lane_holds_at by lia. by rewrite L2. }
  destruct (io s) as [|[e|] l]; [apply Hfull| |apply Hfull]. by intros [= <- <-].
Qed.
End lane.

#[export] Instance lane_store_laws : StoreLaws LaneStore.t := {
  stored := lane_holds; usable := fun _ => True;
  store_write_law := lane_write_law; store_read_law := lane_read_law }.

(** ** What the sinks protect *)

Section protection.
Import ArtifactProvenance LaneSink Sink.
Context {D : Type} `{StoreLaws D} {SourceId : Type} `{!EqDecision SourceId}.
Implicit Types (p : ArtifactProvenance.t SourceId) (u : sink SourceId) (s : state D SourceId) (d : D).

Definition foreign p (source : SourceId) (x : Z) : Prop := exists o, o ≠ source /\ owner p x = Some o.

(** Every owned offset is held. *)
Record shared_ok d p : Prop := {
  so_usable : usable d;
  so_spans : snorm 0 (spans p);
  so_held : forall x o, owner p x = Some o -> 0 <= x /\ is_Some (stored d x) }.

(** How far the comparison has come. *)
Definition stage_ok d p u : Prop :=
  let c := chunk u in
  match at_stage u with
  | Looked => need_cross u = true /\ has_multiple_writers p = true
  | Comparing ks =>
      Forall (fun k => offset c <= ByteRange.start k < ByteRange.end_ k /\ ByteRange.end_ k <= offset c + len c) ks /\
      (forall x, RangeSet.in_list x ks -> covers c x /\ foreign p (source_id u) x) /\
      (need_cross u = true -> forall x, covers c x -> foreign p (source_id u) x -> RangeSet.in_list x ks \/ stored d x = brings c x)
  | Cleared => need_cross u = true -> forall x, covers c x -> foreign p (source_id u) x -> stored d x = brings c x
  | Written range => range = chunk_range c /\ forall x, covers c x -> stored d x = brings c x
  end.

Record sinks_ok s : Prop := {
  sk_shared : shared_ok (dest s) (prov s);
  sk_sinks : forall i u, sinks s !! i = Some u -> chunk_wf (chunk u) /\ stage_ok (dest s) (prov s) u;
  sk_apart : forall i j u v x, sinks s !! i = Some u -> sinks s !! j = Some v -> covers (chunk u) x -> covers (chunk v) x -> i = j }.

Lemma brings_held c x : covers c x -> is_Some (brings c x).
Proof. unfold covers, brings, len. intros Hx. apply lookup_lt_is_Some. lia. Qed.

Lemma conflicts_spec d p c source : shared_ok d p -> chunk_wf c ->
  Forall (fun k => offset c <= ByteRange.start k < ByteRange.end_ k /\ ByteRange.end_ k <= offset c + len c) (conflicts p c source) /\
  forall x, RangeSet.in_list x (conflicts p c source) <-> has_multiple_writers p = true /\ covers c x /\ foreign p source x.
Proof.
  intros Hi Hw. destruct (chunk_range_wf c Hw) as [R1 R2]. unfold conflicts, foreign_spans, has_multiple_writers.
  destruct (multi_writer p); cbn [negb]; [|split; [constructor|]; intros x; rewrite RangeSet.in_list_nil; naive_solver].
  split; [pose proof (foreign_inside (spans p) (chunk_range c) source) as Hf; by rewrite R1, R2 in Hf|].
  intros x. rewrite (foreign_loop_spec 0) by apply Hi. unfold ByteRange.mem, covers, foreign. rewrite R1, R2.
  setoid_rewrite (owns_offset p); [|apply Hi]. tauto.
Qed.

(** One conflict: the read is in bounds, the slice is too, and they differ
    exactly when some offset does. *)
Lemma one_conflict d k c : usable d -> chunk_wf c ->
  offset c <= ByteRange.start k < ByteRange.end_ k /\ ByteRange.end_ k <= offset c + len c ->
  (forall x, ByteRange.mem x k -> is_Some (stored d x)) ->
  match store_read (ByteRange.start k) (ByteRange.len k) d with
  | (d', r) => usable d' /\ (forall x, stored d' x = stored d x) /\
      match r with
      | inl e => is_destination_error e = true
      | inr existing => exists mine, slice (payload c) (ByteRange.start k -% offset c) (ByteRange.len k) = Some mine /\
          (existing = mine -> forall x, ByteRange.mem x k -> stored d x = brings c x) /\
          (existing ≠ mine -> exists x, ByteRange.mem x k /\ stored d x ≠ brings c x)
      end
  end.
Proof.
  intros Hu Hw [Hk1 Hk2] Hh. destruct (store_read _ _ d) as [d1 r1] eqn:Er. pose proof Hw as [W1 W2].
  assert (Hkw : ByteRange.wf k) by (unfold ByteRange.wf; lia). rewrite ByteRange.len_wf in * by done.
  destruct (store_read_law (ByteRange.start k) (ByteRange.end_ k - ByteRange.start k) d d1 r1 Hu ltac:(lia) ltac:(lia) Er) as (R1&R2&R3).
  split_and!; [done..|]. destruct r1 as [e|existing]; [done|]. destruct R3 as [L1 L2].
  rewrite u64_sub_small by u64_lia. unfold slice. rewrite (proj2 (andb_true_iff _ _)) by (unfold len in *; lia). eexists. split; [done|].
  set (mine := take _ _). assert (L3 : length mine = length existing) by (unfold mine, len in *; rewrite length_take, length_drop; lia).
  assert (Hx : forall i, (i < length existing)%nat -> existing !! i = stored d (ByteRange.start k + Z.of_nat i) /\
    mine !! i = brings c (ByteRange.start k + Z.of_nat i)).
  { intros i Hi. assert (Hm : ByteRange.mem (ByteRange.start k + Z.of_nat i) k) by (unfold ByteRange.mem; lia).
    destruct (Hh _ Hm) as [b Hb]. split; [rewrite Hb; apply L2; [lia|done]|].
    unfold mine, brings. rewrite lookup_take_lt, lookup_drop by lia. f_equal. lia. }
  split.
  - intros Heq x Hm. destruct (Hx (Z.to_nat (x - ByteRange.start k))) as [X1 X2]; [unfold ByteRange.mem in Hm; lia|].
    replace (ByteRange.start k + Z.of_nat (Z.to_nat (x - ByteRange.start k))) with x in * by (unfold ByteRange.mem in Hm; lia). congruence.
  - intros Hne. destruct (lists_differ existing mine (eq_sym L3) Hne) as (i&Hlt&Hd). destruct (Hx i Hlt) as [X1 X2].
    exists (ByteRange.start k + Z.of_nat i). split; [unfold ByteRange.mem; lia|congruence].
Qed.

(** What one step of a sink does to the store and to the map. *)
Record moves u d p d' p' : Prop := {
  mv_shared : shared_ok d' p';
  mv_stored : forall x, 0 <= x -> ~ covers (chunk u) x -> is_Some (stored d x) -> stored d' x = stored d x;
  mv_owner : forall x, ~ covers (chunk u) x -> owner p' x = owner p x;
  mv_first : forall x o, owner p x = Some o -> owner p' x = Some o;
  mv_several : has_multiple_writers p = true -> has_multiple_writers p' = true;
  mv_foreign : need_cross u = true -> forall x, foreign p (source_id u) x -> stored d' x = stored d x }.

Lemma moves_read u d p d' : shared_ok d p -> usable d' -> (forall x, stored d' x = stored d x) -> moves u d p d' p.
Proof.
  intros [S1 S2 S3] Hu Hs. split; try done; [|by intros; apply Hs..]. split; [done..|]. intros x o Ho. rewrite Hs. by eapply S3.
Qed.

Lemma advance_ok u d p : shared_ok d p -> chunk_wf (chunk u) -> stage_ok d p u ->
  match advance u d p with
  | None => False
  | Some (d', p', o) => moves u d p d' p' /\
      match o with
      | inl st => stage_ok d' p' (mkSink (chunk u) (source_id u) (need_cross u) st)
      | inr (inr _) => forall x, covers (chunk u) x -> stored d' x = brings (chunk u) x /\ is_Some (owner p' x)
      | inr (inl e) => p' = p /\ (is_destination_error e = true \/
          exists o x, e = OverlapMismatch o /\ covers (chunk u) x /\ foreign p (source_id u) x /\ stored d x ≠ brings (chunk u) x)
      end
  end.
Proof.
  intros Hi Hw Hst. pose proof Hi as [S1 S2 S3]. destruct u as [c source need st]. unfold advance, stage_ok in *. cbn [chunk source_id need_cross at_stage] in *.
  assert (Hsame : moves (mkSink c source need st) d p d p) by (by apply moves_read).
  destruct st as [|[|k ks]| |range].
  - split; [exact Hsame|]. destruct (conflicts_spec d p c source Hi Hw) as [C1 C2]. destruct Hst as [_ Hm].
    split_and!; [done|intros x Hx; by apply C2|]. intros _ x Hc Hf. left. by apply C2.
  - split; [exact Hsame|]. intros Hn x Hc Hf. destruct Hst as (_&_&Hl). destruct (Hl Hn x Hc Hf) as [Hin|]; [by apply RangeSet.in_list_nil in Hin|done].
  - destruct Hst as (Hin&Hfor&Hl). apply Forall_cons in Hin as [Hk Hks].
    assert (Hh : forall x, ByteRange.mem x k -> covers c x /\ foreign p source x) by (intros x Hx; apply Hfor, RangeSet.in_list_cons; by left).
    pose proof (one_conflict d k c S1 Hw Hk) as Ho.
    destruct (store_read _ _ d) as [d1 r1]. destruct Ho as (U1&U2&U3); [intros x Hx; destruct (Hh x Hx) as (_&o&_&Hxo); by eapply S3|].
    assert (Hmv : moves (mkSink c source need (Comparing (k :: ks))) d p d1 p) by (by apply moves_read).
    destruct r1 as [e|existing]; [split; [exact Hmv|split; [done|by left]]|]. destruct U3 as (mine&->&Heq&Hne).
    case_bool_decide as Hb; cbn [negb]; (split; [exact Hmv|]).
    + split_and!; [done|intros x Hx; apply Hfor, RangeSet.in_list_cons; by right|]. intros Hn x Hc Hf. rewrite U2.
      destruct (Hl Hn x Hc Hf) as [[Hx|Hx]%RangeSet.in_list_cons|Hx]; [right; by apply Heq|by left|by right].
    + split; [done|right]. destruct (Hne Hb) as (x&Hx&Hd). destruct (Hh x Hx). by exists (ByteRange.start k), x.
  - destruct (store_write c d) as [d1 r1] eqn:Ew. destruct (store_write_law _ _ _ _ S1 Hw Ew) as (W1&W2&W3). pose proof Hw as [V1 V2].
    assert (Hcov : forall x, covers c x -> is_Some (stored d x) -> stored d1 x = stored d x \/ stored d1 x = brings c x)
      by (intros x Hx Hs; destruct r1; [by apply W3|right; by apply W3]).
    assert (Hkeep : forall x, 0 <= x -> is_Some (stored d x) -> is_Some (stored d1 x)).
    { intros x Hx Hs. destruct (decide (offset c <= x < offset c + len c)) as [Hc|Hc]; [|by rewrite W2].
      destruct (Hcov x Hc Hs) as [->| ->]; [done|by apply brings_held]. }
    assert (Hmv : moves (mkSink c source need Cleared) d p d1 p).
    { split; try done.
      - split; [done..|]. intros x o Ho. destruct (S3 x o Ho). split; [done|by apply Hkeep].
      - intros Hn x Hf. pose proof Hf as (o&_&Ho). destruct (S3 x o Ho) as [Hx Hs]. cbn in Hn.
        destruct (decide (offset c <= x < offset c + len c)) as [Hc|Hc]; [|by apply W2].
        destruct (Hcov x Hc Hs) as [E|E]; [done|]. rewrite E. symmetry. by apply Hst. }
    destruct r1 as [e|range]; (split; [exact Hmv|]); [split; [done|left; by apply W3]|by apply W3].
  - destruct Hst as [-> Hb]. destruct (chunk_range_wf c Hw) as [R1 R2]. pose proof Hw as [V1 V2].
    destruct (record_owner p (chunk_range c) source S2) as [HN Ho]; [lia|].
    assert (Hin : forall x, ByteRange.contains (chunk_range c) x = true <-> covers c x)
      by (intros x; rewrite ByteRange.contains_spec; unfold ByteRange.mem, covers; by rewrite R1, R2).
    split.
    + split; try done.
      * split; [done..|]. intros x o. rewrite Ho. destruct (owner p x) as [o'|] eqn:Ex; [intros _; by eapply S3|].
        destruct (ByteRange.contains _ x) eqn:Ec; [|done]. intros _. apply Hin in Ec. split; [unfold covers in Ec; lia|].
        rewrite Hb by done. by apply brings_held.
      * intros x Hn. rewrite Ho. destruct (owner p x); [done|]. destruct (ByteRange.contains _ x) eqn:Ec; [by apply Hin in Ec|done].
      * intros x o Hx. by rewrite Ho, Hx.
      * unfold has_multiple_writers, record, note_writer. intros Hm. destruct (ByteRange.is_empty _); [done|].
        destruct (first_writer p); [destruct (decide _)|]; done.
    + intros x Hc. split; [by apply Hb|]. rewrite Ho. destruct (owner p x); [done|]. by rewrite (proj2 (Hin x) Hc).
Qed.

(** The steps of one sink leave the stage of another, on other offsets, as it is. *)
Lemma stage_kept u v d p d' p' : moves u d p d' p' -> shared_ok d p -> chunk_wf (chunk v) ->
  (forall x, covers (chunk u) x -> ~ covers (chunk v) x) -> stage_ok d p v -> stage_ok d' p' v.
Proof.
  intros [M1 M2 M3 M4 M5 _] [S1 S2 S3] [W _] Hap. unfold stage_ok.
  assert (Hf : forall x, covers (chunk v) x -> foreign p' (source_id v) x <-> foreign p (source_id v) x).
  { intros x Hx. unfold foreign. rewrite M3; [done|]. intros Hu. by apply (Hap x). }
  assert (Hs : forall x, covers (chunk v) x -> is_Some (stored d x) -> stored d' x = stored d x).
  { intros x Hx. apply M2; [unfold covers in Hx; lia|]. intros Hu. by apply (Hap x). }
  assert (Hfs : forall x, covers (chunk v) x -> foreign p (source_id v) x -> stored d' x = stored d x).
  { intros x Hx (o&_&Ho). apply Hs; [done|]. by eapply S3. }
  destruct (at_stage v) as [|ks| |range].
  - intros [? ?]. auto.
  - intros (A&B&C). split_and!; [done| |].
    + intros x Hx. destruct (B x Hx). split; [done|]. by apply Hf.
    + intros Hn x Hx Hfx. apply Hf in Hfx; [|done]. rewrite Hfs by done. by apply C.
  - intros A Hn x Hx Hfx. apply Hf in Hfx; [|done]. rewrite Hfs by done. by apply A.
  - intros [-> A]. split; [done|]. intros x Hx. rewrite Hs; [by apply A|done|]. rewrite A by done. by apply brings_held.
Qed.
End protection.

(** *** Runs of many sinks *)

Section runs.
Import ArtifactProvenance LaneSink Sink.
Context {D : Type} `{StoreLaws D} {SourceId : Type} `{!EqDecision SourceId}.
Context (begin : ArtifactProvenance.t SourceId -> TransferChunk -> SourceId -> sink SourceId).

(** What a beginning is relied on to do. *)
Definition begins_well : Prop := forall (d : D) p c source, shared_ok d p -> chunk_wf c ->
  chunk (begin p c source) = c /\ source_id (begin p c source) = source /\
  need_cross (begin p c source) = has_multiple_writers p /\ stage_ok d p (begin p c source).

Hypothesis begin_well : begins_well.
Implicit Types (s : state D SourceId).

Lemma step_ok e s : sinks_ok s -> apart e s -> exists s' out, step begin e s = Some (s', out) /\ sinks_ok s' /\
  forall i u, e = Runs i -> sinks s !! i = Some u ->
    moves u (dest s) (prov s) (dest s') (prov s') /\
    match out with
    | None => True
    | Some (inr _) => forall x, covers (chunk u) x -> stored (dest s') x = brings (chunk u) x /\ is_Some (owner (prov s') x)
    | Some (inl e) => prov s' = prov s /\ (is_destination_error e = true \/
        exists o x, e = OverlapMismatch o /\ covers (chunk u) x /\ foreign (prov s) (source_id u) x /\ stored (dest s) x ≠ brings (chunk u) x)
    end.
Proof.
  intros [Hsh Hsk Hap] Ha. destruct e as [i c source|i|i]; cbn [step].
  - destruct Ha as (Hi&Hw&Hd). eexists _, _. split; [done|]. split; [|done].
    destruct (begin_well (dest s) (prov s) c source Hsh Hw) as (B1&B2&B3&B4). split; cbn [dest prov sinks]; [done| |].
    + intros j v [[-> <-]|[Hj Hv]]%lookup_insert_Some; [by rewrite B1|by eapply Hsk].
    + intros j k v w x [[<- <-]|[Hj Hv]]%lookup_insert_Some [[<- <-]|[Hk Hw']]%lookup_insert_Some; rewrite ?B1; [done| | |by eapply Hap].
      * intros Hc Hc'. by destruct (Hd k w x Hw' Hc').
      * intros Hc Hc'. by destruct (Hd j v x Hv Hc).
  - destruct (sinks s !! i) as [u|] eqn:Ei; [|eexists _, _; split; [done|]; split; [done|]; intros j v [= <-]; congruence].
    destruct (Hsk _ _ Ei) as [Hw Hst]. pose proof (advance_ok u (dest s) (prov s) Hsh Hw Hst) as Hadv.
    destruct (advance u (dest s) (prov s)) as [[[d' p'] o]|]; [|done]. destruct Hadv as [Hmv Ho].
    assert (Hothers : forall j v, j ≠ i -> sinks s !! j = Some v -> chunk_wf (chunk v) /\ stage_ok d' p' v).
    { intros j v Hj Hv. destruct (Hsk _ _ Hv) as [Hvw Hvs]. split; [done|]. eapply stage_kept; [exact Hmv|done|done| |done].
      intros x Hx Hx'. apply Hj. by eapply Hap. }
    destruct o as [st|r]; (eexists _, _; split; [done|]; split; [|intros j v [= <-] Hv; rewrite Ei in Hv; injection Hv as <-; split; [exact Hmv|by try destruct r]]).
    + split; cbn [dest prov sinks]; [apply Hmv| |].
      * intros j v [[-> <-]|[Hj Hv]]%lookup_insert_Some; [done|]. by apply (Hothers j).
      * intros j k v w x Hv Hk. apply lookup_insert_Some in Hv, Hk. destruct Hv as [[<- <-]|[Hj Hv]], Hk as [[<- <-]|[Hk Hk']]; cbn [chunk]; [done|by eapply Hap..].
    + split; cbn [dest prov sinks]; [apply Hmv| |].
      * intros j v [Hj Hv]%lookup_delete_Some. by apply (Hothers j).
      * intros j k v w x [_ Hv]%lookup_delete_Some [_ Hk]%lookup_delete_Some. by eapply Hap.
  - eexists _, _. split; [done|]. split; [|done]. split; cbn [dest prov sinks]; [done| |].
    + intros j v [_ Hv]%lookup_delete_Some. by eapply Hsk.
    + intros j k v w x [_ Hv]%lookup_delete_Some [_ Hk]%lookup_delete_Some. by eapply Hap.
Qed.

Lemma reached_ok d s : usable d -> reached begin d s -> sinks_ok s.
Proof.
  intros Hu. induction 1 as [|s e s' out _ IH Ha Hs].
  - split; [split; [done|done|by intros]|by intros i u|by intros i j u].
  - destruct (step_ok e s IH Ha) as (s2&out2&E&Hok&_). congruence.
Qed.

(** The step of a sink, in whatever order the others ran before. *)
Lemma sink_step d s i u : usable d -> reached begin d s -> sinks s !! i = Some u ->
  exists s' out, step begin (Runs i) s = Some (s', out) /\
    (need_cross u = true -> forall x, foreign (prov s) (source_id u) x ->
       stored (dest s') x = stored (dest s) x /\ owner (prov s') x = owner (prov s) x) /\
    match out with
    | None => True
    | Some (inr _) => forall x, covers (chunk u) x -> stored (dest s') x = brings (chunk u) x /\ is_Some (owner (prov s') x)
    | Some (inl e) => prov s' = prov s /\ (is_destination_error e = true \/
        exists o x, e = OverlapMismatch o /\ covers (chunk u) x /\ foreign (prov s) (source_id u) x /\ stored (dest s) x ≠ brings (chunk u) x)
    end.
Proof.
  intros Hu Hr Hi. destruct (step_ok (Runs i) s (reached_ok d s Hu Hr) I) as (s'&out&E&_&Hstep).
  destruct (Hstep i u eq_refl Hi) as [Hmv Ho]. exists s', out. split_and!; [done| |done].
  intros Hn x Hf. split; [by apply (mv_foreign _ _ _ _ _ Hmv)|]. pose proof Hf as (o&_&Hx). rewrite Hx. by apply (mv_first _ _ _ _ _ Hmv).
Qed.
End runs.

Section claims.
Import ArtifactProvenance LaneSink Sink.
Context {SourceId : Type} `{!EqDecision SourceId}.

Lemma lane_begins_well : begins_well (D := LaneStore.t) (SourceId := SourceId) lane_begin.
Proof.
  intros d p c source _ Hw. unfold lane_begin. split_and!; try done. unfold stage_ok. cbn.
  destruct (has_multiple_writers p) eqn:E; [done|]. discriminate.
Qed.

Lemma shared_begins_well {D} `{StoreLaws D} : begins_well (D := D) (SourceId := SourceId) shared_begin.
Proof.
  intros d p c source Hi Hw. unfold shared_begin. split_and!; try done. unfold stage_ok. cbn.
  destruct (conflicts_spec d p c source Hi Hw) as [C1 C2]. split_and!; [done|intros x Hx; by apply C2|].
  intros Hn x Hc Hf. left. by apply C2.
Qed.

(** C28. The sinks of the lanes of all shards take their steps in any order, and
    reads and writes may fail, a write in the middle; chunks that are under way
    at the same time do not overlap. Then the steps of a chunk that was begun
    once two sources had written never change a byte that another source wrote
    first, nor its attribution. A chunk is refused only when it disagrees with
    such a byte or the file failed, and when it is accepted all of it is in the
    file and attributed. The comparison never reads out of bounds. *)
Theorem cross_source_bytes_protected (d : LaneStore.t) (s : state LaneStore.t SourceId) i u :
  reached lane_begin d s -> sinks s !! i = Some u ->
  exists s' out, step lane_begin (Runs i) s = Some (s', out) /\
    (need_cross u = true -> forall x, foreign (prov s) (source_id u) x ->
       stored (dest s') x = stored (dest s) x /\ owner (prov s') x = owner (prov s) x) /\
    match out with
    | None => True
    | Some (inr _) => forall x, covers (chunk u) x -> stored (dest s') x = brings (chunk u) x /\ is_Some (owner (prov s') x)
    | Some (inl e) => prov s' = prov s /\ (is_destination_error e = true \/
        exists o x, e = OverlapMismatch o /\ covers (chunk u) x /\ foreign (prov s) (source_id u) x /\ stored (dest s) x ≠ brings (chunk u) x)
    end.
Proof. by apply (sink_step lane_begin lane_begins_well). Qed.

(** C29. The same of the sinks that write to a destination of the application
    that keeps the laws of a destination, whatever its calls answer: with
    chunks under way at the same time that do not overlap, a chunk that was
    begun once two sources had written never changes a byte that another source
    wrote first, nor its attribution, not even when the write fails in the
    middle; it is refused only when it disagrees with such a byte or the
    destination failed, and once accepted all of it is held and attributed; the
    comparison never reads out of bounds. *)
Theorem shared_bytes_protected {D} `{DestinationLaws D} (d : D) (s : state D SourceId) i u :
  ready d -> reached shared_begin d s -> sinks s !! i = Some u ->
  exists s' out, step shared_begin (Runs i) s = Some (s', out) /\
    (need_cross u = true -> forall x, foreign (prov s) (source_id u) x ->
       holds (dest s') x = holds (dest s) x /\ owner (prov s') x = owner (prov s) x) /\
    match out with
    | None => True
    | Some (inr _) => forall x, covers (chunk u) x -> holds (dest s') x = brings (chunk u) x /\ is_Some (owner (prov s') x)
    | Some (inl e) => prov s' = prov s /\ (is_destination_error e = true \/
        exists o x, e = OverlapMismatch o /\ covers (chunk u) x /\ foreign (prov s) (source_id u) x /\ holds (dest s) x ≠ brings (chunk u) x)
    end.
Proof. intros Hd Hr Hi. exact (sink_step shared_begin shared_begins_well d s i u Hd Hr Hi). Qed.
End claims.

(** ** Witnesses *)

Module SinkRuns.
Import ArtifactProvenance LaneSink Sink.

(** Runs whose chunks do not overlap, by computation. *)
Section checked.
Context {D : Type} `{Store D} (begin : ArtifactProvenance.t positive -> TransferChunk -> positive -> sink positive).

Definition apartb (e : event positive) (s : state D positive) : bool :=
  match e with
  | Begins i c _ =>
      match sinks s !! i with None => true | Some _ => false end && (0 <=? offset c) && (offset c + len c <=? u64_max) &&
      forallb (fun jv => let v := chunk jv.2 in (offset v + len v <=? offset c) || (offset c + len c <=? offset v)) (map_to_list (sinks s))
  | _ => true
  end.

Lemma apartb_apart e s : apartb e s = true -> apart e s.
Proof.
  destruct e as [i c source|i|i]; [|done..]. cbn. rewrite !andb_true_iff, !Z.leb_le, forallb_forall. intros (((Hi&Ho)&He)&Hf).
  split; [by destruct (sinks s !! i)|]. split; [by split|]. intros j v x Hv. specialize (Hf (j, v)). cbn in Hf.
  rewrite orb_true_iff, !Z.leb_le in Hf. unfold covers. assert (Hin : List.In (j, v) (map_to_list (sinks s))) by (by apply list_elem_of_In, elem_of_map_to_list).
  specialize (Hf Hin). lia.
Qed.

Fixpoint careful (es : list (event positive)) (s : state D positive) : option (state D positive) :=
  match es with
  | [] => Some s
  | e :: es' => if apartb e s then match step begin e s with Some (s', _) => careful es' s' | None => None end else None
  end.

Lemma careful_reached d es s s' : reached begin d s -> careful es s = Some s' -> reached begin d s'.
Proof.
  revert s. induction es as [|e es IH]; intros s Hr; cbn; [by intros [= <-]|]. destruct (apartb e s) eqn:Ha; [|done].
  destruct (step begin e s) as [[s1 out]|] eqn:Es; [|done]. apply IH. eapply reached_step; [done|by apply apartb_apart|done].
Qed.
End checked.

Definition one : positive := 1.
Definition two : positive := 2.

(** Two sources write next to each other, their steps interleaved; then the
    second one begins a chunk that disagrees at offset 3, and takes the lock for
    the conflicts. *)
Definition both : list (event positive) :=
  [Begins 0 (mkChunk 0 [1; 1; 1; 1]) one; Begins 1 (mkChunk 4 [2; 2]) two; Runs 1; Runs 0; Runs 1; Runs 0].
Definition lane0 : LaneStore.t := LaneStore.mk [] [].
Definition lane_start : state LaneStore.t positive := mkState lane0 empty ∅.
Definition disagreeing : list (event positive) := both ++ [Begins 2 (mkChunk 2 [1; 9; 2; 3]) two; Runs 2].
Definition lane_at : state LaneStore.t positive := default lane_start (careful lane_begin disagreeing lane_start).

Lemma lane_at_reached : reached lane_begin lane0 lane_at.
Proof. apply (careful_reached lane_begin lane0 disagreeing lane_start); [constructor|vm_compute; reflexivity]. Qed.

Lemma cross_source_bytes_protected_witness : exists u s',
  sinks lane_at !! 2%nat = Some u /\ need_cross u = true /\
  step lane_begin (Runs 2) lane_at = Some (s', Some (inl (OverlapMismatch 2))) /\
  stored (dest s') 3 = Some 1 /\ owner (prov s') 3 = Some one.
Proof.
  assert (Hu : exists u, sinks lane_at !! 2%nat = Some u /\ need_cross u = true /\ source_id u = two) by (vm_compute; eauto).
  destruct Hu as (u&Hu&Hn&Hs). destruct (cross_source_bytes_protected lane0 lane_at 2 u lane_at_reached Hu) as (s'&out&E&Hp&_).
  exists u, s'. split; [exact Hu|]. split; [exact Hn|].
  destruct (Hp Hn 3) as [H1 H2]; [exists one; rewrite Hs; split; [discriminate|vm_compute; reflexivity]|].
  assert (Ho : match step lane_begin (Runs 2) lane_at with Some (_, Some (inl (OverlapMismatch o))) => o =? 2 | _ => false end = true)
    by (vm_compute; reflexivity).
  rewrite E in Ho |- *. destruct out as [[e|]|]; try discriminate Ho. destruct e; try discriminate Ho. apply Z.eqb_eq in Ho as ->.
  split; [reflexivity|]. rewrite H1, H2. split; vm_compute; reflexivity.
Defined.

(** The same on a file destination, where the write of the last chunk fails
    after three of its four bytes. *)
Definition failing : FileDestination.t :=
  FileDestination.mk (FileDestination.options_new "a") 0 false (mkDisk (<["a.part" := mkFile [] false]> ∅) [])
    [None; None; None; Some (FileDestination.mkFault OtherKind 3)].
Definition shared_start : state FileDestination.t positive := mkState failing empty ∅.
Definition agreeing : list (event positive) :=
  [Begins 0 (mkChunk 0 [1; 1; 1; 1]) one; Begins 1 (mkChunk 4 [2; 2]) two; Runs 1; Runs 0; Runs 1; Runs 0; Runs 1; Runs 0;
   Begins 2 (mkChunk 2 [1; 1; 5; 5]) two; Runs 2; Runs 2].
Definition shared_at : state FileDestination.t positive := default shared_start (careful shared_begin agreeing shared_start).

Lemma failing_ready : ready failing.
Proof. exists (mkFile [] false). reflexivity. Qed.

Lemma shared_at_reached : reached shared_begin failing shared_at.
Proof. apply (careful_reached shared_begin failing agreeing shared_start); [constructor|vm_compute; reflexivity]. Qed.

Lemma shared_bytes_protected_witness : exists u s' e,
  sinks shared_at !! 2%nat = Some u /\ need_cross u = true /\
  step shared_begin (Runs 2) shared_at = Some (s', Some (inl e)) /\ is_destination_error e = true /\
  holds (dest s') 3 = Some 1 /\ FileDestination.content (dest s') = [1; 1; 1; 1; 5; 2].
Proof.
  assert (Hu : exists u, sinks shared_at !! 2%nat = Some u /\ need_cross u = true /\ source_id u = two) by (vm_compute; eauto).
  destruct Hu as (u&Hu&Hn&Hs). destruct (shared_bytes_protected failing shared_at 2 u failing_ready shared_at_reached Hu) as (s'&out&E&Hp&_).
  destruct (Hp Hn 3) as [H1 H2]; [exists one; rewrite Hs; split; [discriminate|vm_compute; reflexivity]|].
  assert (Ho : match step shared_begin (Runs 2) shared_at with
               | Some (s1, Some (inl e)) => is_destination_error e && bool_decide (FileDestination.content (dest s1) = [1; 1; 1; 1; 5; 2])
               | _ => false end = true) by (vm_compute; reflexivity).
  rewrite E in Ho. destruct out as [[e|]|]; try discriminate Ho. apply andb_true_iff in Ho as [Ho Hc]. apply bool_decide_eq_true in Hc.
  exists u, s', e. split; [exact Hu|]. split; [exact Hn|]. split; [exact E|]. split; [exact Ho|]. split; [|exact Hc].
  rewrite H1. vm_compute. reflexivity.
Defined.

(** ** Where the protection ends *)

(** Chunks of two sources that overlap and are under way at the same time both
    pass: neither finds the other in the map. The second one overwrites what
    the first wrote and recorded, although several sources had written when it
    was begun; the map keeps the first as the writer. *)
Definition racing : list (event positive) := both ++
  [Begins 2 (mkChunk 6 [5; 5]) one; Begins 3 (mkChunk 6 [7; 7]) two; Runs 2; Runs 2; Runs 3; Runs 3; Runs 2; Runs 2].

Theorem overlapping_chunks_race : exists s s' u,
  run lane_begin racing lane_start = Some s /\ sinks s !! 3%nat = Some u /\ need_cross u = true /\
  step lane_begin (Runs 3) s = Some (s', None) /\
  owner (prov s) 6 = Some one /\ stored (dest s) 6 = Some 5 /\ owner (prov s') 6 = Some one /\ stored (dest s') 6 = Some 7.
Proof. eexists _, _, _. split; [vm_compute; reflexivity|]. split; [vm_compute; reflexivity|]. split; [reflexivity|]. split; [vm_compute; reflexivity|]. by vm_compute. Qed.

(** The first chunk of a second source is not compared with anything: the
    comparison is made only once two sources have written, and they have only
    after that chunk. Source 2 overwrites what source 1 wrote with other bytes,
    the chunk is accepted, and the map still says they are source 1's. *)
Theorem first_foreign_chunk_unchecked : exists s,
  careful lane_begin [Begins 0 (mkChunk 0 [1; 1; 1; 1]) one; Runs 0; Runs 0; Begins 1 (mkChunk 0 [2; 2; 2; 2]) two; Runs 1; Runs 1] lane_start = Some s /\
  LaneStore.file (dest s) = [2; 2; 2; 2] /\ owner (prov s) 0 = Some one.
Proof. eexists. split; [vm_compute; reflexivity|]. by vm_compute. Qed.
End SinkRuns.
