(* ===== verification/Lane.v ===== *)
(** * What lanes share ([storage/lane.rs], [storage/capacity.rs]).

    The calls of the coordinator and of a lane on the partial file that [Artifact]
    does not need, on the same disk, and the registry through which all lanes of
    a destination get the same pool of capacity. *)

From Stdlib Require Import String.
From S2P Require Import Prelude Errors Disk Credits Digests Artifact World Destination.
Local Open Scope Z_scope.

(** ** The partial file *)

Module LaneFile.

(** One system call; [None] is success. *)
Definition call (f : disk -> disk) (fault : option ErrorKind) (d : disk) : disk * result unit :=
  match fault with Some k => (d, inl (destination_io k)) | None => (f d, inr tt) end.

Definition content (part : string) (d : disk) : list Z := match now_image d !! part with Some f => data f | None => [] end.

(** Opened for writing, not created. *)
Definition open_existing (part : string) (fault : option ErrorKind) (d : disk) : disk * result unit :=
  match now_image d !! part with
  | None => (d, inl (destination_io NotFoundKind))
  | Some _ => call id fault d
  end.

(** [FileDestinationCoordinator::preallocate] on a Unix system. What the fallback
    answers is passed over. *)
Definition preallocate (enabled : bool) (part : string) (size : Z) (opening allocating fallback_open fallback_len : option ErrorKind) (d : disk) :
    disk * result unit :=
  if negb enabled then (d, inr tt)
  else
    try (d1, u) := open_existing part opening d in
    match (if size =? 0 then Some InvalidInput else allocating) with
    | None => (apply_op (SetLen part (Z.max size (Z.of_nat (length (content part d1))))) d1, inr tt)
    | Some Unsupported =>
        match call (apply_op (OpenFile part)) fallback_open d1 with
        | (d2, inl _) => (d2, inr tt)
        | (d2, inr _) => ((call (apply_op (SetLen part size)) fallback_len d2).1, inr tt)
        end
    | Some k => (d1, inl (destination_io k))
    end.

Definition truncate_part (part : string) (opening cutting : option ErrorKind) (d : disk) : disk * result unit :=
  try (d1, u) := call (apply_op (Create part)) opening d in call (apply_op (SetLen part 0)) cutting d1.

(** [FileLane::open], [flush], [caps], [hints]. *)
Definition open (part : string) (fault : option ErrorKind) (d : disk) : disk * result unit := call (apply_op (OpenFile part)) fault d.
Definition flush (part : string) (level : FlushLevel) (fault : option ErrorKind) (d : disk) : disk * result unit :=
  match level with FlushBuffered => (d, inr tt) | FlushData | FlushFull => call (apply_op (SyncAll part)) fault d end.
Definition caps : Z := file_sink_caps.
Definition hints : DestinationHints := mkDestinationHints 1 (256 * 1024 * 1024) (256 * 1024 * 1024) 8.

(** [sync_parent_dir]. *)
Definition sync_parent_dir (opening syncing : option ErrorKind) (d : disk) : disk * result unit :=
  try (d1, u) := call id opening d in call (apply_op SyncParent) syncing d1.

(** Opening a lane and growing the file never lose a byte that is there. *)
Lemma open_keeps part fault d : content part (open part fault d).1 = content part d.
Proof.
  unfold open, call, content. destruct fault; [done|]. cbn. destruct (now_image d !! part) eqn:E; [by rewrite E|]. cbn. by rewrite lookup_insert_eq.
Qed.

Lemma resize_keeps b n : Z.of_nat (length b) <= n -> take (length b) (resize b n) = b.
Proof. intros Hn. unfold resize. rewrite take_take, Nat.min_l by lia. by rewrite take_app_length. Qed.

Lemma preallocate_keeps enabled part size a b c e d d' r : preallocate enabled part size a b c e d = (d', r) ->
  b <> Some Unsupported -> take (length (content part d)) (content part d') = content part d.
Proof.
  intros E Hb. unfold preallocate in E. destruct (negb enabled); [injection E as <- <-; by rewrite firstn_all|].
  unfold open_existing in E. destruct (now_image d !! part) as [f|] eqn:Ef; [|injection E as <- <-; by rewrite firstn_all].
  unfold call in E. destruct a; cbn [and_then] in E; [injection E as <- <-; by rewrite firstn_all|]. cbn [id] in E.
  assert (Hfail : forall k, (d, @inl _ unit (destination_io k)) = (d', r) -> take (length (content part d)) (content part d') = content part d).
  { intros k [= <- _]. by rewrite firstn_all. }
  destruct (size =? 0); [exact (Hfail _ E)|]. destruct b as [k|].
  - destruct k; (exact (Hfail _ E) || done).
  - injection E as <- <-. unfold content at 2. cbn. rewrite lookup_alter_eq, Ef. unfold content. rewrite Ef. cbn. apply resize_keeps. lia.
Qed.

(** Where the file system cannot preallocate, the length is set instead, and a longer
    file is cut. *)
Lemma fallback_cuts part f d : now_image d !! part = Some f -> forall size, 0 < size ->
  content part (preallocate true part size None (Some Unsupported) None None d).1 = resize (data f) size.
Proof.
  intros Hf size Hs. unfold preallocate, open_existing, call. rewrite Hf. cbn. case Z.eqb_spec; [lia|]. intros _. cbn. rewrite Hf. cbn.
  unfold content. cbn. by rewrite lookup_alter_eq, Hf.
Qed.
End LaneFile.

(** ** The registry of capacities *)

Module Registry.

(** The pools by the name their holders share; [defaults] are the ceilings of each. *)
Record t := mk { entries : gmap string nat; pools : list Capacity.Credits; defaults : Z * Z }.
Definition new (max_inflight_bytes max_inflight_ops : Z) : t := mk ∅ [] (max_inflight_bytes, max_inflight_ops).

Definition entry (path : string) (r : t) : t * nat :=
  match entries r !! path with
  | Some i => (r, i)
  | None =>
      let i := length (pools r) in
      (mk (<[path := i]> (entries r)) (pools r ++ [Capacity.new (Z.max (defaults r).1 1) (defaults r).2]) (defaults r), i)
  end.

Fixpoint entries_of (paths : list string) (r : t) : t * list nat :=
  match paths with
  | [] => (r, [])
  | p :: ps => let '(r1, i) := entry p r in let '(r2, ids) := entries_of ps r1 in (r2, i :: ids)
  end.

Record ok (r : t) : Prop := {
  ok_pool p i : entries r !! p = Some i -> (i < length (pools r))%nat;
  ok_inj p q i : entries r !! p = Some i -> entries r !! q = Some i -> p = q }.

Lemma entry_ok p r r' i : ok r -> entry p r = (r', i) -> ok r' /\ entries r' !! p = Some i /\ (forall q j, entries r !! q = Some j -> entries r' !! q = Some j).
Proof.
  intros [O1 O2]. unfold entry. destruct (entries r !! p) as [j|] eqn:E; intros [= <- <-]; [by split_and!|]. split_and!; cbn.
  - split; cbn.
    + intros q j [[_ <-]|[_ Hj]]%lookup_insert_Some; rewrite length_app; cbn; [lia|]. apply O1 in Hj. lia.
    + intros q q' j [[<- <-]|[Hq Hj]]%lookup_insert_Some [[<- Hj']|[Hq' Hj']]%lookup_insert_Some; try done.
      * apply O1 in Hj'. lia.
      * subst j. apply O1 in Hj. lia.
      * by eapply O2.
  - by rewrite lookup_insert_eq.
  - intros q j Hq. destruct (decide (q = p)) as [->|]; [congruence|]. by rewrite lookup_insert_ne.
Qed.

Lemma empty_ok bytes ops : ok (new bytes ops).
Proof. split; cbn; intros *; rewrite lookup_empty; discriminate. Qed.

(** Lanes on whatever shards get the same pool exactly when they write to the same
    path. *)
Lemma same_path_same_pool paths bytes ops r ids : entries_of paths (new bytes ops) = (r, ids) ->
  length ids = length paths /\
  forall a b p q i j, paths !! a = Some p -> paths !! b = Some q -> ids !! a = Some i -> ids !! b = Some j -> (i = j <-> p = q).
Proof.
  intros E. assert (Hall : forall r0, ok r0 -> entries_of paths r0 = (r, ids) ->
    ok r /\ Forall2 (fun p i => entries r !! p = Some i) paths ids /\ (forall q j, entries r0 !! q = Some j -> entries r !! q = Some j)).
  { clear E. revert ids. induction paths as [|p ps IH]; intros ids r0 H0 E; cbn in E; [injection E as <- <-; by split_and!; [|constructor|]|].
    destruct (entry p r0) as [r1 i] eqn:E1. destruct (entries_of ps r1) as [r2 ids2] eqn:E2. injection E as -> <-.
    destruct (entry_ok _ _ _ _ H0 E1) as (H1&Hp&Hk). destruct (IH _ _ H1 E2) as (H2&Hf&Hk2). split_and!; [done|constructor; auto|auto]. }
  destruct (Hall _ (empty_ok bytes ops) E) as ([_ O2]&Hf&_). split; [symmetry; by eapply Forall2_length|].
  intros a b p q i j Hp Hq Hi Hj. pose proof (Forall2_lookup_lr _ _ _ _ _ _ Hf Hp Hi) as H1. pose proof (Forall2_lookup_lr _ _ _ _ _ _ Hf Hq Hj) as H2.
  cbn in H1, H2. split; [intros ->; by eapply O2|intros ->; congruence].
Qed.
End Registry.
