(* ===== verification/Lock.v ===== *)
(** * The lock file of a destination ([storage/lane.rs]).

    A coordinator keeps other processes from a destination by an exclusive lock
    on a file next to it. Opening that file and locking it are two steps, so are
    giving the lock up and removing the file, and processes interleave between
    them; a lock belongs to the file that was opened, not to its name. *)

From S2P Require Import Prelude Errors.
Local Open Scope nat_scope.

Definition lock_path_for (final_path : string) : string := final_path +:+ ".part.lock".

(** ** State

    [file] is what the name stands for now, [files] how many there ever were. *)

Inductive Process :=
| Outside
| Opened (file : nat)            (* [open_blocking], before [try_lock] *)
| Holds (file : nat)             (* the coordinator *)
| Publishes                      (* [finalize], the lock file dropped *)
| Fails (e : Error).

Record Locks := mkLocks { file : option nat; files : nat; processes : list Process }.

Definition nobody (n : nat) : Locks := mkLocks None 0 (replicate n Outside).

Definition holds_file (i : nat) (p : Process) : bool := match p with Holds j => (i =? j) | _ => false end.

Definition set_process (p : nat) (x : Process) (s : Locks) : Locks := mkLocks (file s) (files s) (<[p := x]> (processes s)).

(** ** Steps *)

(** [OpenOptions] with [create] and without [truncate]. *)
Definition open_lock (p : nat) (s : Locks) : Locks :=
  match file s with
  | Some i => set_process p (Opened i) s
  | None => set_process p (Opened (files s)) (mkLocks (Some (files s)) (S (files s)) (processes s))
  end.

(** [file_try_lock]; a refused file is closed. *)
Definition file_try_lock (p i : nat) (s : Locks) : Locks :=
  if existsb (holds_file i) (processes s)
  then set_process p (Fails (Destination (LeaseConflict "destination is locked by another process"))) s
  else set_process p (Holds i) s.

(** The coordinator is dropped, or [finalize] drops its lock file, and, the
    artifact renamed, removes it by name. *)
Definition drop_coordinator (p : nat) (s : Locks) : Locks := set_process p Outside s.
Definition finalize_begin (p : nat) (s : Locks) : Locks := set_process p Publishes s.
Definition finalize_end (p : nat) (s : Locks) : Locks := set_process p Outside (mkLocks None (files s) (processes s)).

(** [discard] removes the name while it holds the file. *)
Definition discard (p : nat) (s : Locks) : Locks := set_process p Outside (mkLocks None (files s) (processes s)).

Inductive action := OpensLock | TriesLock | DropsLock | StartsPublishing | EndsPublishing | Discards | GivesUp.

Definition step (s : Locks) (e : nat * action) : option Locks :=
  let '(p, a) := e in
  match processes s !! p, a with
  | Some Outside, OpensLock => Some (open_lock p s)
  | Some (Opened i), TriesLock => Some (file_try_lock p i s)
  | Some (Holds _), DropsLock => Some (drop_coordinator p s)
  | Some (Holds _), StartsPublishing => Some (finalize_begin p s)
  | Some Publishes, EndsPublishing => Some (finalize_end p s)
  | Some (Holds _), Discards => Some (discard p s)
  | Some Publishes, GivesUp | Some (Fails _), GivesUp => Some (set_process p Outside s)
  | _, _ => None
  end.

Fixpoint run (es : list (nat * action)) (s : Locks) : option Locks :=
  match es with
  | [] => Some s
  | e :: es' => match step s e with Some s' => run es' s' | None => None end
  end.

(** ** Exclusion *)

Module LockSpec.

(** Nothing removes the name. *)
Definition keeps_name (e : nat * action) : bool := match e.2 with EndsPublishing | Discards => false | _ => true end.

Definition uses (x : Process) : option nat := match x with Opened i | Holds i => Some i | _ => None end.

(** One holder per file; with [kept], every process that has the file open has
    the one of the name. *)
Record ok (kept : bool) (s : Locks) : Prop := {
  ok_one : forall p q i, processes s !! p = Some (Holds i) -> processes s !! q = Some (Holds i) -> p = q;
  ok_name : kept = true -> forall p x i, processes s !! p = Some x -> uses x = Some i -> file s = Some i }.

Lemma ok_set kept s s' p x : ok kept s -> processes s' = <[p := x]> (processes s) -> file s' = file s \/ kept = false \/ (file s = None /\ uses x = file s') ->
  (forall i, x = Holds i -> forall q, processes s !! q <> Some (Holds i)) ->
  (kept = true -> forall i, uses x = Some i -> file s' = Some i) -> ok kept s'.
Proof.
  intros [H1 H2] E Hf Hx Hu. split; rewrite E.
  - intros q r i [(->&->&_)|[Hq Q]]%list_lookup_insert_Some [(Er&Ey&_)|[Hr R]]%list_lookup_insert_Some; try done.
    + by destruct (Hx i eq_refl r).
    + subst x. by destruct (Hx i eq_refl q).
    + by eapply H1.
  - intros Hk q y i [(->&->&_)|[Hq Q]]%list_lookup_insert_Some Hi; [by apply Hu|].
    specialize (H2 Hk _ _ _ Q Hi). destruct Hf as [->|[?|[? _]]]; congruence.
Qed.

Lemma nobody_holds i s : existsb (holds_file i) (processes s) = false -> forall q, processes s !! q <> Some (Holds i).
Proof.
  intros H q Hq. assert (existsb (holds_file i) (processes s) = true); [|congruence].
  apply existsb_exists. exists (Holds i). split; [apply list_elem_of_In; by eapply list_elem_of_lookup_2|]. apply Nat.eqb_refl.
Qed.

Lemma ok_step kept s e s' : step s e = Some s' -> (kept = true -> keeps_name e = true) -> ok kept s -> ok kept s'.
Proof.
  destruct e as [p a]. unfold step. intros Hs Hk Hok. pose proof Hok as [H1 H2].
  destruct (processes s !! p) as [[|i|i| |e]|] eqn:Ep; destruct a; try done; injection Hs as <-.
  - unfold open_lock. destruct (file s) as [j|] eqn:Ef.
    + eapply ok_set; [exact Hok|done|by left|done|]. intros _ i [= <-]. exact Ef.
    + eapply ok_set; [exact Hok|done|by right; right|done|]. by intros _ i [= <-].
  - unfold file_try_lock. destruct (existsb _ _) eqn:Ex.
    + eapply ok_set; [exact Hok|done|by left|done|done].
    + eapply ok_set; [exact Hok|done|by left| |].
      * intros j [= <-]. by apply nobody_holds.
      * intros Hx j [= <-]. by eapply H2.
  - eapply ok_set; [exact Hok|done|by left|done|done].
  - eapply ok_set; [exact Hok|done|by left|done|done].
  - eapply ok_set; [exact Hok|done| |done|done]. right. left. by destruct kept; [specialize (Hk eq_refl)|].
  - eapply ok_set; [exact Hok|done| |done|done]. right. left. by destruct kept; [specialize (Hk eq_refl)|].
  - eapply ok_set; [exact Hok|done|by left|done|done].
  - eapply ok_set; [exact Hok|done|by left|done|done].
Qed.

Lemma ok_run kept es s s' : run es s = Some s' -> (kept = true -> forallb keeps_name es = true) -> ok kept s -> ok kept s'.
Proof.
  revert s. induction es as [|e es IH]; cbn; intros s H Hk Hok; [by injection H as <-|].
  destruct (step s e) as [s1|] eqn:E; [|done]. eapply IH; [exact H| |].
  - by intros [_ ?]%Hk%andb_true_iff.
  - eapply ok_step; [exact E| |exact Hok]. by intros [? _]%Hk%andb_true_iff.
Qed.

Lemma ok_nobody kept n : ok kept (nobody n).
Proof. split; cbn; intros; by repeat match goal with H : replicate _ _ !! _ = Some _ |- _ => apply lookup_replicate_1 in H as [? _]; subst end. Qed.

(** C30. However processes interleave their opening, locking and giving up, at most one
    of them has a coordinator for the destination, as long as none removes the
    lock file; and whatever they remove, no lock file is held twice. *)
Theorem one_coordinator n es s p q i j : run es (nobody n) = Some s ->
  processes s !! p = Some (Holds i) -> processes s !! q = Some (Holds j) ->
  i = j \/ forallb keeps_name es = true -> p = q.
Proof.
  intros Hr Hp Hq Hor. assert (i = j) as <-.
  { destruct Hor as [|Hk]; [done|]. destruct (ok_run true es _ _ Hr (fun _ => Hk) (ok_nobody true n)) as [_ H2].
    pose proof (H2 eq_refl _ _ i Hp eq_refl). pose proof (H2 eq_refl _ _ j Hq eq_refl). congruence. }
  destruct (ok_run false es _ _ Hr ltac:(done) (ok_nobody false n)) as [H1 _]. by eapply H1.
Qed.

Lemma one_coordinator_witness :
  let es := [(0, OpensLock); (1, OpensLock); (0, TriesLock); (1, TriesLock)] in
  match run es (nobody 2) with
  | Some s => processes s !! 0 = Some (Holds 0) /\ forall q j, processes s !! q = Some (Holds j) -> 0 = q
  | None => False
  end.
Proof.
  intros es. destruct (run es (nobody 2)) as [s|] eqn:E; [|vm_compute in E; discriminate E].
  assert (H0 : processes s !! 0 = Some (Holds 0)) by (vm_compute in E; injection E as <-; reflexivity).
  split; [exact H0|]. intros q j Hq. apply (one_coordinator 2 es s 0 q 0 j E H0 Hq). right. reflexivity.
Defined.

(** Publishing lets a second process in before the rename, and a third one beside
    it once the name is removed. *)
Lemma publishing_lets_two_in :
  match run [(0, OpensLock); (0, TriesLock); (0, StartsPublishing); (1, OpensLock); (1, TriesLock);
             (0, EndsPublishing); (2, OpensLock); (2, TriesLock)] (nobody 3) with
  | Some s => processes s = [Outside; Holds 0; Holds 1]
  | None => False
  end.
Proof. reflexivity. Qed.
End LockSpec.
