(* ===== verification/Profile.v ===== *)
(** * Learned profiles on disk ([core/profile.rs], [control.rs]).

    What an engine learned is written when it ends and read when the next one
    starts. The JSON text is the serializer's, a pair of functions of which only
    the round trip is relied on. *)

From Stdlib Require Import Ascii String.
From S2P Require Import Prelude Errors Disk.
Local Open Scope Z_scope.

(** ** Evidence counters *)

Module Confidence.
Record t := mk { yes : Z; no : Z }.
Definition UNKNOWN : t := mk 0 0.

Definition div_ceil2 (n : Z) : Z := (n + 1) / 2.
Definition u32_sat_succ (n : Z) : Z := Z.min (n + 1) 4294967295.

Definition observe (ok : bool) (c : t) : t :=
  let c := if ok then mk (u32_sat_succ (yes c)) (no c) else mk (yes c) (u32_sat_succ (no c)) in
  if yes c + no c >? 64 then mk (div_ceil2 (yes c)) (div_ceil2 (no c)) else c.

Definition samples (c : t) : Z := yes c + no c.

(** The evidence stays bounded, so that nothing saturates and what is new counts. *)
Lemma samples_bounded obs : let c := foldl (fun c ok => observe ok c) UNKNOWN obs in
  0 <= yes c /\ 0 <= no c /\ samples c <= 64.
Proof.
  cbn zeta. assert (H : forall c, 0 <= yes c /\ 0 <= no c /\ samples c <= 64 ->
    0 <= yes (foldl (fun c ok => observe ok c) c obs) /\ 0 <= no (foldl (fun c ok => observe ok c) c obs) /\
    samples (foldl (fun c ok => observe ok c) c obs) <= 64); [|by apply H].
  induction obs as [|ok obs IH]; intros c Hc; [done|]. cbn [foldl]. apply IH. clear IH obs. destruct Hc as (H1&H2&H3).
  unfold observe, samples, u32_sat_succ in *. destruct ok; cbn; rewrite Z.gtb_ltb; case Z.ltb_spec; cbn; intros Hs; try lia;
    unfold div_ceil2; split_and!; try (apply Z.div_pos; lia).
  all: assert (Hd : forall n, 2 * ((n + 1) / 2) <= n + 1) by (intros n; apply Z.mul_div_le; lia).
  - pose proof (Hd (Z.min (yes c + 1) 4294967295)). pose proof (Hd (no c)). lia.
  - pose proof (Hd (yes c)). pose proof (Hd (Z.min (no c + 1) 4294967295)). lia.
Qed.
End Confidence.

(** ** The file *)

(** At the last occurrence of a character. *)
Fixpoint split_last (c : ascii) (s : string) : option (string * string) :=
  match s with
  | EmptyString => None
  | String x s' =>
      match split_last c s' with
      | Some (a, b) => Some (String x a, b)
      | None => if Ascii.eqb x c then Some (EmptyString, s') else None
      end
  end.

(** [Path::with_extension] on a path that ends in a file name: a dot in front does
    not begin an extension. *)
Definition stem (name : string) : string :=
  match split_last "."%char name with Some (EmptyString, _) | None => name | Some (a, _) => a end.
Definition with_extension (path ext : string) : string :=
  match split_last "/"%char path with
  | Some (dir, name) => dir +:+ "/" +:+ stem name +:+ "." +:+ ext
  | None => stem path +:+ "." +:+ ext
  end.

Definition temporary (path : string) : string := with_extension path "json.tmp".

Section file.
Context {P : Type} (encode : P -> list Z) (decode : list Z -> option P).

Definition load_profile (path : option string) (d : disk) : option P :=
  match path with
  | None => None
  | Some p => match now_image d !! p with Some f => decode (data f) | None => None end
  end.

(** Every failure is passed over; the first one ends the sequence. *)
Definition save_ops (path : string) (profile : P) : list fs_op :=
  [Create (temporary path); WriteAll (temporary path) (encode profile); Rename (temporary path) path].

Definition save_profile (path : option string) (profile : P) (fault : option (nat * ErrorKind)) (d : disk) : disk :=
  match path with
  | None => d
  | Some p => (exec (fun k => Persistence (PersistenceIo k)) (save_ops p profile) fault d).1
  end.
End file.

Lemma split_last_spec c s a b : split_last c s = Some (a, b) -> s = (a +:+ String c b) /\ split_last c b = None.
Proof.
  revert a b. induction s as [|x s IH]; cbn; intros a b; [done|]. destruct (split_last c s) as [[a' b']|] eqn:E.
  - intros [= <- <-]. destruct (IH _ _ eq_refl) as [-> ?]. by split.
  - destruct (Ascii.eqb_spec x c) as [->|]; [|done]. intros [= <- <-]. by split.
Qed.

Lemma string_length_append a b : String.length (a +:+ b) = (String.length a + String.length b)%nat.
Proof. induction a as [|x a IH]; [done|]. simpl. by rewrite IH. Qed.

Lemma stem_ne name : (stem name +:+ "." +:+ "json.tmp" <> name)%string.
Proof.
  unfold stem. destruct (split_last _ name) as [[[|x a] b]|] eqn:E.
  - intros H%(f_equal String.length). rewrite string_length_append in H. simpl in H. lia.
  - destruct (split_last_spec _ _ _ _ E) as [-> Hb]. intros H%append_cancel. simpl in H. injection H as <-. done.
  - intros H%(f_equal String.length). rewrite string_length_append in H. simpl in H. lia.
Qed.

Lemma temporary_ne path : temporary path <> path.
Proof.
  unfold temporary, with_extension. destruct (split_last "/" path) as [[dir name]|] eqn:E; [|apply stem_ne].
  destruct (split_last_spec _ _ _ _ E) as [-> _]. intros H%append_cancel. cbn in H. injection H as H. by apply (stem_ne name).
Qed.

Section laws.
Context {P : Type} (encode : P -> list Z) (decode : list Z -> option P).
Hypothesis reads_back : forall p, decode (encode p) = Some p.

(** A process that stops anywhere in the middle of a save, or a call that fails,
    leaves the profile that was there or the whole new one; a save that succeeds
    is what the next engine loads. *)
Lemma profile_survives_a_stop path profile d d' : during d (save_ops encode path profile) d' ->
  load_profile decode (Some path) d' = load_profile decode (Some path) d \/ load_profile decode (Some path) d' = Some profile.
Proof.
  pose proof (temporary_ne path) as Hne. set (t := temporary path) in *.
  assert (Hsame : forall e, now_image e !! path = now_image d !! path -> load_profile decode (Some path) e = load_profile decode (Some path) d).
  { intros e He. cbn. by rewrite He. }
  unfold save_ops. fold t. intros Hd. apply during_cons in Hd as [->|Hd]; [by left| |done..].
  inversion Hd as [|? ? b1 b2 ? E|?|? ? ? ? Hd2]; subst; [left; apply Hsame; cbn; by simplify_map_eq|left; apply Hsame; cbn; by simplify_map_eq|].
  apply during_cons in Hd2 as [->|Hd2]; [left; apply Hsame; cbn; by simplify_map_eq| |done..].
  apply during_nil in Hd2 as ->. right. cbn. simplify_map_eq. cbn. by simplify_map_eq.
Qed.

Lemma saved_profile_is_loaded path profile fault d :
  let d' := save_profile encode (Some path) profile fault d in
  load_profile decode (Some path) d' = load_profile decode (Some path) d \/ load_profile decode (Some path) d' = Some profile.
Proof.
  cbn zeta. unfold save_profile. destruct (exec _ _ fault d) as [d' r] eqn:E. by eapply profile_survives_a_stop, exec_during.
Qed.

Lemma save_then_load path profile d : load_profile decode (Some path) (save_profile encode (Some path) profile None d) = Some profile.
Proof. pose proof (temporary_ne path) as Hne. cbn. simplify_map_eq. cbn. by simplify_map_eq. Qed.

(** Nothing is synced: after a power loss the renamed file may hold anything. *)
Lemma power_loss_tears_the_profile path profile d anything : exists after,
  power_loss (save_profile encode (Some path) profile None d) after /\ after path = Some anything.
Proof.
  set (d' := save_profile encode (Some path) profile None d). pose proof (temporary_ne path) as Hne.
  assert (Hf : now_image d' !! path = Some (mkFile (encode profile) false)).
  { unfold d'. cbn. simplify_map_eq. cbn. by simplify_map_eq. }
  exists (fun q => if decide (q = path) then Some anything else data <$> now_image d' !! q). split; [|by rewrite decide_True].
  apply Exists_cons. left. intros q. destruct (decide (q = path)) as [->|Hq]; [by rewrite Hf|]. destruct (now_image d' !! q); by cbn.
Qed.
End laws.

Lemma save_then_load_witness : load_profile (P := list Z) Some (Some "p.json"%string) (save_profile id (Some "p.json"%string) [1; 2] None (mkDisk ∅ [])) = Some [1; 2].
Proof. apply (save_then_load id Some). reflexivity. Defined.
