(* ===== verification/Controller.v ===== *)
(** * The controller: state, connections, scheduling ([core/controller.rs]).

    The deterministic core of the engine: observations go in, actions come out,
    and every decision is a function of the world model, of the time given with
    the observation and of one reading of the clocks. Here are the state, the
    monad its handlers run in, the management of connections and probes, and the
    weighted-fair claiming of work. [Lifecycle], [Adaptive] and [Handle] hold
    the rest. *)

From Stdlib Require Import String.
From S2P Require Import Prelude Ranges Float Rates Errors Representation Policy Spec SlotMap Timers Segment World.
Local Open Scope Z_scope.

Declare Scope ctl_scope.
Delimit Scope ctl_scope with ctl.
Open Scope ctl_scope.

(** ** Observations and actions *)

Record HttpsRecordInfo := mkHttpsRecordInfo {
  hr_priority : Z; hr_target : string; hr_alpn : list string; hr_port : option Z;
  hr_ipv4_hint : list IpAddr; hr_ipv6_hint : list IpAddr; hr_ech : bool; hr_ttl : Z }.

Inductive DispatchOperation :=
| OpResolve | OpOpenConnection | OpProbe | OpStartAssignment | OpStartFullBody | OpSampleMirror
| OpTruncateAssignment | OpCloseConnection | OpAttachDestination | OpCloseLane | OpCommitDestination.

Inductive ConnectionState := StatePoisoned | StateReusable | StateGone.
Inductive StreamHealth := StreamCompleted | StreamTruncated | StreamFailed.

Section vocabulary.
Context {L : SlotMapLib} {W : WebLib}.

Inductive Observation :=
| JobAdmitted (job : key) (spec : JobSpec (Url := Url)) (resume : option ResumeEvidence)
| JobCancelled (job : key)
| Resolved (origin : key) (endpoints : list SocketAddr) (failed : bool) (https_records : list HttpsRecordInfo)
    (from_cache : bool)
| ConnectionReady (connection : key) (handshake : Z) (protocol : Protocol)
| ConnectionFailed (connection : key) (kind : ConnectFailure)
| ConnectionGone (connection : key)
| DispatchFailed (operation : DispatchOperation) (job : option key) (assignment : option AssignmentRef)
    (connection origin : option key)
| Probed (job connection source : key) (supports_ranges : bool) (total_length : option Z) (etag : option string)
    (last_modified : option Z) (reusable : bool) (alt_svc_h3 : option Z)
| ProbeRedirected (job connection : key) (status : Z) (location : string)
| MirrorSampled (job source connection : key) (matches reusable : bool)
| ProbeFailed (job connection source : key) (failure : ProbeFailure) (connection_state : ConnectionState)
| AssignmentVerified (job : key) (assignment : AssignmentRef) (range : ByteRange.t) (sample : TransferSample.t)
    (connection : key) (connection_reusable : bool)
| AssignmentFailed (job : key) (assignment : AssignmentRef) (attempt : Z) (disposition : Disposition)
    (connection : option key) (connection_state : ConnectionState) (stream_health : StreamHealth)
| DestinationCommitted (job : key) (final_length : Z) (digest : option Digest)
| DestinationFailed (job : key) (failure : DestinationFailureKind)
| OriginRateLimited (origin : key) (retry_after : option Z)
| TimerExpired (event : TimerEvent)
| SourceRefreshed (job : key) (new_url : option string) (new_headers : option (list (string * HeaderValue)))
| CredentialRefreshFailed (job : key) (status : Z).

Inductive Action :=
| Resolve (origin : key) (host : string) (port : Z)
| OpenConnection (connection origin endpoint : key) (shard : Z) (prefer_h3 : bool) (alt_port : option Z)
| CloseConnection (connection : key)
| Probe (job connection : key) (source : option key)
| StartAssignment (job : key) (assignment : AssignmentRef) (connection : key) (range : ByteRange.t) (overlap : Z)
    (frontier : bool)
| StartFullBody (job : key) (assignment : AssignmentRef) (connection : key) (frontier : bool)
| SampleMirror (job source connection : key) (range : ByteRange.t)
| ResetResumeData (job : key)
| ReportSourceQuarantined (job : key) (sources : list key) (reason : string)
| TruncateAssignment (job : key) (assignment : AssignmentRef) (connection : key) (new_end : Z)
| RequestCredentialRefresh (job : key) (url0 : string) (status attempt : Z)
| CommitDestination (job : key) (final_length : Z) (integrity : option DigestCheck)
| DiscardDestination (job : key)
| FailJob (job : key) (error : string)
| CompleteJob (job : key) (total_bytes : Z) (digest : option Digest) (resumed_bytes : Z)
| ScheduleTimer (at0 : Z) (event : TimerEvent).
End vocabulary.

Definition RESUME_ESTIMATE : Rate.t := Rate.COLD_START.
Definition CONNECT_STAGGER : Z := from_millis 250.
Definition CANCELLED_SENTINEL : string := "cancelled".
Definition DEADLINE_SENTINEL : string := "deadline exceeded".

Definition ADAPTIVE_NOISE_FLOOR : f64 := f64_lit 5 2.
Definition ADAPTIVE_MIN_REMAINING : Z := 256 * 1024.
Definition ADAPTIVE_WINDOW : Z := from_millis 1500.
Definition ADAPTIVE_RAMP : Z := from_millis 800.
Definition ADAPTIVE_COOLDOWN : Z := from_secs 3.
Definition ADAPTIVE_MAX_CONNS : Z := 8.
Definition STALL_EXPERIMENT_GUARD : f64 := f64_half.
Definition DRAIN_POLL : Z := from_millis 500.
Definition REBALANCE_INTERVAL : Z := from_millis 1000.
Definition SAMPLE_LEN : Z := 128 * 1024.

(** ** State *)

Record ConnectionRuntimeState := mkRuntime { in_flight : Z; ewma : option EwmaWithVariance.t }.
#[export] Instance Runtime_rebuild : Rebuild ConnectionRuntimeState := fun s => mkRuntime (in_flight s) (ewma s).
Definition Runtime_default : ConnectionRuntimeState := mkRuntime 0 None.

Module Ctl.
Section ctl.
Context {L : SlotMapLib} {S : SecMapLib L}.

Record t := mk {
  world : WorldModel.t;
  retry : RetryPolicy;
  epoch : Z;
  engine_max_active_assignments : Z;
  engine_max_connections : Z;
  engine_max_jobs : Z;
  active_assignment_count : Z;
  shard_load : list Z;
  origin_live_conns : secmap Z;
  origin_verified : secmap Z;
  origin_avg_handshake : secmap Z;
  origin_generation : secmap Z;
  origin_last_invalidation : secmap Z;
  connection_state : secmap ConnectionRuntimeState;
  origin_state : secmap (Z * Z);
  origin_admission : secmap Z }.

#[global] Instance t_rebuild : Rebuild t := fun c =>
  mk (world c) (retry c) (epoch c) (engine_max_active_assignments c) (engine_max_connections c)
     (engine_max_jobs c) (active_assignment_count c) (shard_load c) (origin_live_conns c)
     (origin_verified c) (origin_avg_handshake c) (origin_generation c)
     (origin_last_invalidation c) (connection_state c) (origin_state c) (origin_admission c).

Definition with_shards (shards now : Z) : t :=
  let n := Z.max shards 1 in
  mk WorldModel.new RetryPolicy_default now
    (EngineLimits.max_active_assignments EngineLimits.default)
    (EngineLimits.max_physical_connections EngineLimits.default)
    (EngineLimits.max_jobs EngineLimits.default)
    0 (replicate (Z.to_nat n) 0) sec_new sec_new sec_new sec_new sec_new sec_new sec_new sec_new.

Definition set_engine_limits (l : EngineLimits.t) (c : t) : t :=
  c <| engine_max_active_assignments := Z.max (EngineLimits.max_active_assignments l) 1 |>
    <| engine_max_connections := Z.max (EngineLimits.max_physical_connections l) 1 |>
    <| engine_max_jobs := Z.max (EngineLimits.max_jobs l) 1 |>.

(** The least loaded shard, the first of equals. *)
Definition place_shard (c : t) : Z :=
  match min_by (fun a b => a.2 <? b.2) (imap (fun i n => (Z.of_nat i, n)) (shard_load c)) with
  | Some (i, _) => i
  | None => 0
  end.

Definition change_load (f : Z -> Z) (shard : Z) (c : t) : t :=
  c <| shard_load ::= alter f (Z.to_nat shard) |>.

Definition inc_shard_load (shard : Z) (c : t) : t :=
  if shard <? Z.of_nat (length (shard_load c)) then change_load (fun n => n +% 1) shard c else c.
Definition dec_shard_load (shard : Z) (c : t) : t :=
  if shard <? Z.of_nat (length (shard_load c)) then change_load (fun n => u64_sat_sub n 1) shard c else c.

Definition jobs (c : t) : list (key * JobNode.t) := WorldModel.job_iter (world c).
Definition conns (c : t) : list (key * ConnectionNode.t) := WorldModel.conn_iter (world c).
Definition job (c : t) (k : key) : option JobNode.t := WorldModel.get_job (world c) k.
Definition conn (c : t) (k : key) : option ConnectionNode.t := WorldModel.get_connection (world c) k.
Definition org (c : t) (k : key) : option OriginNode.t := WorldModel.get_origin (world c) k.

Definition in_flight_on (c : t) (k : key) : Z :=
  match sec_get (connection_state c) k with Some s => in_flight s | None => 0 end.

Definition bump_generation (origin : key) (now : Z) (c : t) : t :=
  let g := default 0 (sec_get (origin_generation c) origin) in
  c <| origin_generation ::= fun m => sec_insert m origin (g +% 1) |>
    <| origin_last_invalidation ::= fun m => sec_insert m origin now |>.

(** [retired_and_drained]. *)
Definition retired_and_drained (c : t) (k : key) : bool :=
  match conn c k with
  | Some n => status_is (ConnectionNode.status n) Retired && (in_flight_on c k =? 0)
  | None => false
  end.

(** The single removal path: node, counters, evidence, and the assignments that
    rode on the connection. *)
Definition unlink_connection (k : key) (p : SegmentPlan.t) : SegmentPlan.t :=
  SegmentPlan.with_assignments p (sm_update_all (fun _ a =>
    if bool_decide (Assignment.connection a = Some k) then Assignment.with_connection a None else a)
    (SegmentPlan.assignments p)).

Definition drop_connection (k : key) (c : t) : t :=
  let node := conn c k in
  let c1 := c <| world ::= WorldModel.remove_connection k |> <| connection_state ::= fun m => sec_remove m k |> in
  let c2 := match node with
            | Some n => (dec_shard_load (ConnectionNode.shard n) c1)
                          <| origin_live_conns ::= fun m =>
                               sec_modify m (ConnectionNode.origin n) (fun x => u64_sat_sub x 1) |>
            | None => c1
            end in
  c2 <| world ::= fun w => w <| WorldModel.jobs ::= sm_update_all (fun _ j =>
          j <| JobNode.plan ::= option_map (unlink_connection k) |>) |> |>.

Definition prefer_h3_for (c : t) (origin : key) (now : Z) : bool :=
  let http1_only := existsb (fun kj => bool_decide (JobNode.origin kj.2 = origin) &&
    match http_version (JobNode.policy kj.2) with Http1Only => true | _ => false end) (jobs c) in
  if http1_only then false
  else match org c origin with
       | Some o => OriginNode.advertises_h3 o &&
                   match OriginNode.h3_retry_after o with Some u => now >=? u | None => true end &&
                   (OriginNode.h3_failures o <? 5)
       | None => false
       end.

Definition probes_job (k : key) (n : ConnectionNode.t) : bool :=
  match ConnectionNode.intent n with
  | IntentProbe j _ => bool_decide (j = k)
  | _ => false
  end && (status_is (ConnectionNode.status n) Connecting || status_is (ConnectionNode.status n) Ready).

Definition job_has_inflight_probe (c : t) (k : key) : bool := existsb (fun kc => probes_job k kc.2) (conns c).

Definition awaits_probe (c : t) (origin : key) (p : JobPhase) (kj : key * JobNode.t) : bool :=
  bool_decide (JobNode.origin kj.2 = origin) && phase_is (JobNode.phase kj.2) p &&
  negb (job_has_inflight_probe c kj.1).

Definition waiting_probe_job (c : t) (origin : key) : option key :=
  match find (awaits_probe c origin Created) (jobs c) with
  | Some kj => Some kj.1
  | None => option_map fst (find (awaits_probe c origin Probing) (jobs c))
  end.

(** Why a connection is dialed: for a mirror, for a job that waits to be
    probed, or for the pool. *)
Definition intent_for (c : t) (origin : key) (serving : option key) : ConnectionIntent :=
  match serving with
  | Some source =>
      match find (fun kj => bool_decide (source ∈ JobNode.probing_sources kj.2) ||
                            bool_decide (source ∈ JobNode.sampling_sources kj.2)) (jobs c) with
      | Some kj => IntentMirror kj.1 source
      | None => IntentPool origin
      end
  | None =>
      match waiting_probe_job c origin with
      | Some k =>
          match job c k with
          | Some j => match WorldModel.option_or (JobNode.active_source j) (head (JobNode.sources j)) with
                      | Some source => IntentProbe k source
                      | None => IntentPool origin
                      end
          | None => IntentPool origin
          end
      | None => IntentPool origin
      end
  end.

Definition dial_connection (clk : Clock) (origin endpoint : key) (shard : Z) (allow_h3 : bool) (serving : option key)
    (now : Z) (c : t) : key * t * Action :=
  let h3 := allow_h3 && prefer_h3_for c origin now in
  let alt_port := if h3 then match org c origin with Some o => OriginNode.h3_alt_port o | None => None end else None in
  let '(k, w) := WorldModel.allocate_connection clk origin endpoint shard (world c) in
  let c1 := (inc_shard_load shard (c <| world := w |>))
              <| origin_live_conns ::= fun m => sec_insert m origin (default 0 (sec_get m origin) +% 1) |> in
  let intent := intent_for c1 origin serving in
  let c2 := c1 <| world ::= WorldModel.modify_connection k (fun n =>
              (n <| ConnectionNode.prefer_h3 := h3 |> <| ConnectionNode.serving_source := serving |>
                 <| ConnectionNode.intent := intent |>)) |> in
  (k, c2, OpenConnection k origin endpoint shard h3 alt_port).

(** [select_endpoint(origin, None, now, |_| false)]. *)
Definition best_endpoint (c : t) (origin : key) (now : Z) : option key :=
  WorldModel.select_endpoint (world c) origin None now (fun _ => false).

Definition cooled_down (c : t) (origin : key) (now : Z) : bool :=
  match org c origin with Some o => OriginNode.is_cooled_down o now | None => false end.

(** ** Work *)

(** Reads of [Instant::now()] by [admits_worker] are the clock reading. *)
Definition is_runnable (clk : Clock) (c : t) (k origin : key) : bool :=
  match job c k with
  | None => false
  | Some j =>
      if negb (phase_is (JobNode.phase j) Transferring) || is_draining (JobNode.phase j) then false
      else if negb (bool_decide (JobNode.origin j = origin)) &&
              negb (existsb (fun sid => match sm_get (WorldModel.sources (world c)) sid with
                                        | Some s => bool_decide (src_origin s = origin) | None => false end)
                      (JobNode.active_sources j)) then false
      else match JobNode.plan j with
           | None => false
           | Some p =>
               if negb (SegmentPlan.admits_worker p (instant clk)) then false
               else
                 let ceiling := Z.min (max_active_assignments (transport (JobNode.policy j)))
                                  (Z.max (h_max_parallel_writes (JobNode.sink_hints j)) 1) in
                 negb (SegmentPlan.in_flight p >=? ceiling)
           end
  end.

(** One turn of the loop of [pick_wfq_job]. *)
Definition wfq_step (clk : Clock) (c : t) (origin : key) (best : option (key * f64)) (kj : key * JobNode.t)
    : option (key * f64) :=
  if negb (is_runnable clk c kj.1 origin) then best
  else
    let score := JobNode.virt_service kj.2 in
    match best with
    | None => Some (kj.1, score)
    | Some (b, s) =>
        if f64_ltb score s || (f64_leb score s && f64_leb s score && key_ltb kj.1 b) then Some (kj.1, score) else best
    end.

Definition pick_wfq_job (clk : Clock) (c : t) (origin : key) : option key :=
  if active_assignment_count c >=? engine_max_active_assignments c then None
  else option_map fst (foldl (wfq_step clk c origin) None (jobs c)).

Definition connection_rate_estimate (c : t) (k : key) : Rate.t :=
  let fallback :=
    match conn c k with
    | Some n =>
        match org c (ConnectionNode.origin n) with
        | Some o => match OriginNode.window_rates o with
                    | [] => RESUME_ESTIMATE
                    | l => Rate.from_bps (WorldModel.median f64_zero l)
                    end
        | None => RESUME_ESTIMATE
        end
    | None => RESUME_ESTIMATE
    end in
  match sec_get (connection_state c) k with
  | Some s => match ewma s with
              | Some e => if EwmaWithVariance.is_warm e then Rate.from_bps (EwmaWithVariance.mean e) else fallback
              | None => fallback
              end
  | None => fallback
  end.

Definition stream_capacity (c : t) (k : key) : Z :=
  match conn c k with
  | None => 0
  | Some n =>
      if negb (status_is (ConnectionNode.status n) Ready) then 0
      else if WorldModel.is_multiplexed (ConnectionNode.protocol n)
      then match org c (ConnectionNode.origin n) with
           | Some o => Z.max (OriginNode.adaptive_target_streams o) 1
           | None => 1
           end
      else 1
  end.

Definition release_assignment_slot (k : option key) (c : t) : t :=
  let c1 := c <| active_assignment_count ::= fun n => u64_sat_sub n 1 |> in
  match k with
  | Some k => c1 <| connection_state ::= fun m =>
                sec_modify m k (fun s => s <| in_flight ::= fun n => u64_sat_sub n 1 |>) |>
  | None => c1
  end.
End ctl.
End Ctl.

(** ** The monad of the handlers

    A handler reads and changes the controller, appends actions, and can panic;
    a loop that the source leaves unbounded can also run out of fuel. *)

Inductive outcome (A : Type) :=
| Done (a : A)
| Panicked
| OutOfFuel.
Arguments Done {A} a.
Arguments Panicked {A}.
Arguments OutOfFuel {A}.

Section monad.
Context {L : SlotMapLib} {S : SecMapLib L} {W : WebLib}.

Record machine := mkMachine { ctl : Ctl.t; acts : list Action }.

Definition M (A : Type) : Type := machine -> outcome (A * machine).

Definition ret {A} (a : A) : M A := fun s => Done (a, s).
Definition bind {A B} (m : M A) (f : A -> M B) : M B := fun s =>
  match m s with
  | Done (a, s') => f a s'
  | Panicked => Panicked
  | OutOfFuel => OutOfFuel
  end.
Definition panic {A} : M A := fun _ => Panicked.
Definition out_of_fuel {A} : M A := fun _ => OutOfFuel.

(** Queries, updates and the actions of a step. *)
Definition ask {A} (f : Ctl.t -> A) : M A := fun s => Done (f (ctl s), s).
Definition upd (f : Ctl.t -> Ctl.t) : M unit := fun s => Done (tt, mkMachine (f (ctl s)) (acts s)).
Definition emit (a : Action) : M unit := fun s => Done (tt, mkMachine (ctl s) (acts s ++ [a])).

(** [expect] and [unwrap]. *)
Definition expect {A} (o : option A) : M A := match o with Some a => ret a | None => panic end.

Definition when (b : bool) (m : M unit) : M unit := if b then m else ret tt.

Fixpoint for_each {A} (l : list A) (f : A -> M unit) : M unit :=
  match l with
  | [] => ret tt
  | x :: l' => bind (f x) (fun _ => for_each l' f)
  end.
End monad.

Notation "'let!' x := m 'in' k" := (bind m (fun x => k))
  (at level 10, x binder, m at level 100, k at level 200) : ctl_scope.
Notation "m ;; k" := (bind m (fun _ => k)) (at level 100, right associativity) : ctl_scope.

(** ** Dialing, probing, claiming *)

Section scheduling.
Context {L : SlotMapLib} {S : SecMapLib L} {W : WebLib}.
(** The clock reading of the step. *)
Context (clk : Clock).

Definition modify_job (k : key) (f : JobNode.t -> JobNode.t) : M unit :=
  upd (fun c => c <| Ctl.world ::= WorldModel.modify_job k f |>).
Definition modify_origin (k : key) (f : OriginNode.t -> OriginNode.t) : M unit :=
  upd (fun c => c <| Ctl.world ::= WorldModel.modify_origin k f |>).
Definition modify_connection (k : key) (f : ConnectionNode.t -> ConnectionNode.t) : M unit :=
  upd (fun c => c <| Ctl.world ::= WorldModel.modify_connection k f |>).

Definition drop_connection (k : key) : M unit := upd (Ctl.drop_connection k).
Definition bump_generation (origin : key) (now : Z) : M unit := upd (Ctl.bump_generation origin now).

Definition dial_connection (origin endpoint : key) (shard : Z) (allow_h3 : bool) (serving : option key) (now : Z)
    : M key := fun s =>
  let '(k, c, a) := Ctl.dial_connection clk origin endpoint shard allow_h3 serving now (ctl s) in
  Done (k, mkMachine c (acts s ++ [a])).

(** Dials the best endpoint on the least loaded shard. *)
Definition dial_best (origin endpoint : key) (allow_h3 : bool) (serving : option key) (now : Z) : M key :=
  let! shard := ask Ctl.place_shard in
  dial_connection origin endpoint shard allow_h3 serving now.

Definition open_one_connection (origin : key) (now : Z) (allow_h3 : bool) : M unit :=
  let! cool := ask (fun c => Ctl.cooled_down c origin now) in
  if cool then ret tt
  else
    let! ep := ask (fun c => Ctl.best_endpoint c origin now) in
    match ep with
    | Some e => dial_best origin e allow_h3 None now ;; ret tt
    | None => ret tt
    end.

(** A ready connection of the origin that no assignment uses. *)
Definition idle_connection (c : Ctl.t) (origin : key) : option key :=
  option_map fst (find (fun kc =>
    bool_decide (ConnectionNode.origin kc.2 = origin) && status_is (ConnectionNode.status kc.2) Ready &&
    bool_decide (ConnectionNode.serving_source kc.2 = None) && (Ctl.in_flight_on c kc.1 =? 0)) (Ctl.conns c)).

(** The loop of [ensure_probes], which the source leaves unbounded. *)
Fixpoint probe_loop (fuel : nat) (origin : key) (now : Z) : M unit :=
  match fuel with
  | O => out_of_fuel
  | Datatypes.S fuel' =>
      let! waiting := ask (fun c => Ctl.waiting_probe_job c origin) in
      match waiting with
      | None => ret tt
      | Some job =>
          let! idle := ask (fun c => idle_connection c origin) in
          match idle with
          | Some connection =>
              modify_job job (fun j => j <| JobNode.phase := Probing |>) ;;
              let! node := ask (fun c => Ctl.job c job) in
              match match node with
                    | Some j => WorldModel.option_or (JobNode.active_source j) (head (JobNode.sources j))
                    | None => None
                    end with
              | Some source =>
                  modify_connection connection (fun n => n <| ConnectionNode.intent := IntentProbe job source |>)
              | None => ret tt
              end ;;
              emit (Probe job connection None) ;;
              probe_loop fuel' origin now
          | None =>
              let! ep := ask (fun c => Ctl.best_endpoint c origin now) in
              match ep with
              | None => ret tt
              | Some e =>
                  dial_best origin e true None now ;;
                  modify_job job (fun j => j <| JobNode.phase := Probing |>) ;;
                  let! covered := ask (fun c => Ctl.job_has_inflight_probe c job) in
                  if negb covered then ret tt else probe_loop fuel' origin now
              end
          end
      end
  end.

Definition ensure_probes (fuel : nat) (origin : key) (now : Z) : M unit :=
  let! closed := ask (fun c => match Ctl.org c origin with
                               | Some o => OriginNode.is_cooled_down o now || bool_decide (OriginNode.endpoints o = [])
                               | None => false
                               end) in
  if closed then ret tt else probe_loop fuel origin now.

(** *** Claims *)

Record TailCut := mkTailCut { tc_job : key; victim : key; tc_connection : key; tc_new_end : Z }.
Record ClaimedPiece := mkPiece {
  cp_assign : key; cp_range : ByteRange.t; cp_overlap : Z; cp_frontier : bool; cp_tail_cut : option TailCut }.

(** Ties a claimed assignment to the connection. *)
Definition attach (id connection : key) (p : SegmentPlan.t) : SegmentPlan.t :=
  SegmentPlan.with_assignments p (sm_modify (SegmentPlan.assignments p) id
    (fun a => Assignment.with_connection a (Some connection))).

(** [claim_on_plan] on the plan of a job: [None] is a panic. *)
Definition claim_piece (job connection : key) (est : Rate.t) (now : Z) (solo : bool) (slots : Z) (p : SegmentPlan.t)
    : option (option ClaimedPiece * SegmentPlan.t) :=
  let prefix_before := RangeSet.contiguous_prefix (SegmentPlan.completed p) in
  match SegmentPlan.claim_with p est now solo slots with
  | None => None
  | Some (Fresh assign, p') =>
      match sm_get (SegmentPlan.assignments p') assign with
      | None => None
      | Some a =>
          let range := Assignment.wire_range a in
          Some (Some (mkPiece assign range (Assignment.overlap a) (ByteRange.start range <=? prefix_before) None),
                attach assign connection p')
      end
  | Some (Stolen new from, p') =>
      match sm_get (SegmentPlan.assignments p') new with
      | None => None
      | Some a =>
          let p'' := attach new connection p' in
          let victim_conn := match sm_get (SegmentPlan.assignments p'') from with
                             | Some v => Assignment.connection v | None => None end in
          Some (Some (mkPiece new (Assignment.wire_range a) (Assignment.overlap a) false
                        (option_map (fun vc => mkTailCut job from vc (ByteRange.start (Assignment.range a))) victim_conn)),
                p'')
      end
  | Some (Saturated, p') | Some (Complete, p') => Some (None, p')
  end.

Definition claim_on_plan (job connection : key) (now : Z) : M (option ClaimedPiece) :=
  let! est := ask (fun c => Ctl.connection_rate_estimate c connection) in
  let! max_conns := ask (fun c => match Ctl.job c job with
                                  | Some j => max_physical_connections (transport (JobNode.policy j)) | None => 1 end) in
  let! capacity := ask (fun c => Ctl.stream_capacity c connection) in
  let solo := (max_conns <=? 1) && (capacity <=? 1) in
  let! plan := ask (fun c => match Ctl.job c job with Some j => JobNode.plan j | None => None end) in
  match plan with
  | None => ret None
  | Some p =>
      let! r := expect (claim_piece job connection est now solo (Z.max max_conns 1) p) in
      modify_job job (fun j => j <| JobNode.plan := Some r.2 |>) ;;
      ret r.1
  end.

(** One more assignment in flight on a connection. *)
Definition count_in_flight (connection : key) (c : Ctl.t) : Ctl.t :=
  match sec_get (Ctl.connection_state c) connection with
  | Some s => c <| Ctl.connection_state ::= fun m =>
                sec_set m connection (s <| in_flight ::= fun x => x +% 1 |>) |>
  | None => c <| Ctl.connection_state ::= fun m =>
                sec_insert m connection (Runtime_default <| in_flight := 1 |>) |>
  end.

(** The victim of a stolen tail is told to stop; the piece is started. *)
Definition cut_order (piece : ClaimedPiece) : list Action :=
  match cp_tail_cut piece with
  | Some cut => [TruncateAssignment (tc_job cut) (mkAssignmentRef (tc_job cut) (victim cut)) (tc_connection cut) (tc_new_end cut)]
  | None => []
  end.

Definition start_order (job connection : key) (supports_ranges : bool) (piece : ClaimedPiece) : Action :=
  if negb supports_ranges
  then StartFullBody job (mkAssignmentRef job (cp_assign piece)) connection (cp_frontier piece)
  else StartAssignment job (mkAssignmentRef job (cp_assign piece)) connection (cp_range piece)
         (cp_overlap piece) (cp_frontier piece).

Definition claim_one (connection : key) (now : Z) : M bool :=
  let! node := ask (fun c => Ctl.conn c connection) in
  match node with
  | None => ret false
  | Some n =>
      if negb (status_is (ConnectionNode.status n) Ready) then ret false
      else
        let! picked := ask (fun c => Ctl.pick_wfq_job clk c (ConnectionNode.origin n)) in
        match picked with
        | None => ret false
        | Some job =>
            let! supports_ranges := ask (fun c => match Ctl.job c job with
                                                  | Some j => JobNode.supports_ranges j | None => false end) in
            let! claim := claim_on_plan job connection now in
            match claim with
            | None => ret false
            | Some piece =>
                upd (count_in_flight connection) ;;
                for_each (cut_order piece) emit ;;
                upd (fun c => c <| Ctl.active_assignment_count ::= fun x => x +% 1 |>) ;;
                emit (start_order job connection supports_ranges piece) ;;
                ret true
            end
        end
  end.

(** The connection of a list with spare capacity and the fewest assignments. *)
Definition next_connection (c : Ctl.t) (l : list key) : option key :=
  min_by (fun a b => Ctl.in_flight_on c a <? Ctl.in_flight_on c b)
    (retain (fun k => match Ctl.conn c k with
                      | Some n => status_is (ConnectionNode.status n) Ready
                      | None => false
                      end && (Ctl.in_flight_on c k <? Ctl.stream_capacity c k)) l).

(** The loop of [pump]. Every turn but the last dispatches an assignment, and
    the engine-wide ceiling bounds those. *)
Fixpoint pump_loop (fuel : nat) (l : list key) (now : Z) : M unit :=
  match fuel with
  | O => out_of_fuel
  | Datatypes.S fuel' =>
      let! full := ask (fun c => Ctl.active_assignment_count c >=? Ctl.engine_max_active_assignments c) in
      if full then ret tt
      else
        let! best := ask (fun c => next_connection c l) in
        match best with
        | None => ret tt
        | Some k =>
            let! claimed := claim_one k now in
            if negb claimed then ret tt else pump_loop fuel' l now
        end
  end.

Definition pump (origin : key) (now : Z) : M unit :=
  let! l := ask (fun c => match Ctl.org c origin with Some o => OriginNode.connections o | None => [] end) in
  let! budget := ask (fun c => Ctl.engine_max_active_assignments c - Ctl.active_assignment_count c) in
  pump_loop (Datatypes.S (Z.to_nat budget)) l now.

(** *** The initial ramp *)

(** The fold over the jobs: the largest wish and the largest ceiling. *)
Definition connection_targets (c : Ctl.t) (origin : key) : option (Z * Z) :=
  foldl (fun acc kj =>
    let p := JobNode.policy kj.2 in
    let want := initial_physical_connections p in
    let cap := max_physical_connections (transport p) in
    Some match acc with Some (t, m) => (Z.max t want, Z.max m cap) | None => (want, cap) end) None
    (filter (fun kj => bool_decide (JobNode.origin kj.2 = origin) &&
               (phase_is (JobNode.phase kj.2) Created || phase_is (JobNode.phase kj.2) Probing ||
                phase_is (JobNode.phase kj.2) Transferring) = true) (Ctl.jobs c)).

(** The [while] loop: every turn adds a live connection. *)
Fixpoint scale_loop (fuel : nat) (origin : key) (target now : Z) : M unit :=
  let! live := ask (fun c => WorldModel.live_connections_for_origin (Ctl.world c) origin) in
  if live >=? target then ret tt
  else match fuel with
       | O => out_of_fuel
       | Datatypes.S fuel' =>
           let! ep := ask (fun c => Ctl.best_endpoint c origin now) in
           match ep with
           | None => ret tt
           | Some e => dial_best origin e true None now ;; scale_loop fuel' origin target now
           end
       end.

Definition scale_connections (origin : option key) (now : Z) : M unit :=
  match origin with
  | None => ret tt
  | Some origin =>
      let! cool := ask (fun c => Ctl.cooled_down c origin now) in
      if cool then ret tt
      else
        let! targets := ask (fun c => connection_targets c origin) in
        match targets with
        | None => ret tt
        | Some (t, m) =>
            let target := Z.max (Z.min t m) 1 in
            let! adaptive := ask (fun c => match Ctl.org c origin with
                                           | Some o => OriginNode.adaptive_target_conns o | None => u64_max end) in
            let effective := Z.min target (Z.max adaptive 1) in
            scale_loop (Z.to_nat effective) origin effective now
        end
  end.
End scheduling.
