(* ===== verification/Resolver.v ===== *)
(** * The resolver service ([resolve.rs]).

    A thread of its own takes lookups from a bounded queue, runs them side by side
    and answers each as an observation. What DNS says is an argument of the step
    that ends a lookup. *)

From Stdlib Require Import String.
From S2P Require Import Prelude SlotMap World Controller.
Local Open Scope Z_scope.

(** ** Records *)

(** A parameter of a service binding whose key and value agree. *)
Inductive SvcParam := Alpn (l : list string) | Port (p : Z) | Ipv4Hint (l : list Z) | Ipv6Hint (l : list Z) | EchConfigList | OtherParam.

Inductive RData := HTTPS (priority : Z) (target_name : string) (svc_params : list SvcParam) | OtherData.
Record DnsRecord := mkRecord { ttl : Z; data : RData }.

Definition note_param (r : HttpsRecordInfo) (p : SvcParam) : HttpsRecordInfo :=
  let '(mkHttpsRecordInfo prio target alpn port v4 v6 ech t) := r in
  match p with
  | Alpn l => mkHttpsRecordInfo prio target (alpn ++ l) port v4 v6 ech t
  | Port q => mkHttpsRecordInfo prio target alpn (Some q) v4 v6 ech t
  | Ipv4Hint l => mkHttpsRecordInfo prio target alpn port (v4 ++ (IpV4 <$> l)) v6 ech t
  | Ipv6Hint l => mkHttpsRecordInfo prio target alpn port v4 (v6 ++ (IpV6 <$> l)) ech t
  | EchConfigList => mkHttpsRecordInfo prio target alpn port v4 v6 true t
  | OtherParam => r
  end.

(** The loop over the answers, with the records found so far. *)
Fixpoint parse_records (t : Z) (answers : list DnsRecord) (out : list HttpsRecordInfo) : list HttpsRecordInfo :=
  match answers with
  | [] => out
  | a :: answers' =>
      match data a with
      | OtherData => parse_records t answers' out
      | HTTPS prio target params =>
          let out' := out ++ [foldl note_param (mkHttpsRecordInfo prio target [] None [] [] false t) params] in
          if (8 <=? length out')%nat then out' else parse_records t answers' out'
      end
  end.

(** In nanoseconds, as everywhere. *)
Definition parse_https_records (answers : list DnsRecord) : list HttpsRecordInfo :=
  let secs := match answers with a :: _ => ttl a | [] => 60 end in parse_records (secs * 1000000000) answers [].

Definition SocketAddr_new (ip : IpAddr) (port : Z) : SocketAddr :=
  match ip with IpV4 b => SocketV4 b port | IpV6 b => SocketV6 b port 0 0 end.

(** What DNS answers to the two lookups of a host; [None] is an error. *)
Record Dns := mkDns { lookup_ip : option (list IpAddr); lookup_https : option (list DnsRecord) }.

Record Answer := mkAnswer { addrs : list SocketAddr; https_records : list HttpsRecordInfo }.

Section resolver.
Context {L : SlotMapLib} {W : WebLib} (parse_ip : string -> option IpAddr).

(** ** Lookups *)

Definition resolve_host (dns : Dns) (host : string) (port : Z) : Answer :=
  match parse_ip host with
  | Some ip => mkAnswer [SocketAddr_new ip port] []
  | None =>
      match lookup_ip dns with
      | None | Some [] => mkAnswer [] []
      | Some ips =>
          mkAnswer ((fun ip => SocketAddr_new ip port) <$> ips)
            (match lookup_https dns with Some l => parse_https_records l | None => [] end)
      end
  end.

Record Request := mkRequest { origin : key; host : string; port : Z }.

Definition send_resolved (r : Request) (a : Answer) : Observation :=
  Resolved (origin r) (addrs a) (bool_decide (addrs a = [])) (https_records a) false.

(** ** The service

    [up]: its thread runs; it ends at once when it cannot build its runtime. *)
Record Resolver := mkResolver { up : bool; queue : list Request; running : list Request; replies : list (Request * Observation) }.
#[export] Instance Resolver_rebuild : Rebuild Resolver := fun s => mkResolver (up s) (queue s) (running s) (replies s).

Definition capacity : nat := 256.
Definition spawn (started : bool) : Resolver := mkResolver started [] [] [].

(** [ResolverHandle::resolve], and whether the queue took it, which nothing reads. *)
Definition resolve (r : Request) (s : Resolver) : Resolver * bool :=
  if up s && (length (queue s) <? capacity)%nat then (s <| queue ::= fun l => l ++ [r] |>, true) else (s, false).

(** One turn of [run]: a request becomes a task. *)
Definition take (s : Resolver) : Resolver :=
  match queue s with [] => s | r :: q => s <| queue := q |> <| running ::= fun l => l ++ [r] |> end.

(** The end of a task, at the place it has. *)
Definition finish (i : nat) (dns : Dns) (s : Resolver) : Resolver :=
  match running s !! i with
  | None => s
  | Some r => s <| running ::= delete i |> <| replies ::= fun l => l ++ [(r, send_resolved r (resolve_host dns (host r) (port r)))] |>
  end.

Inductive op := Resolve (r : Request) | Take | Finish (i : nat) (dns : Dns).

(** [accepted]: what the queue took. *)
Definition step (c : Resolver * list Request) (o : op) : Resolver * list Request :=
  let '(s, accepted) := c in
  match o with
  | Resolve r => let '(s', ok) := resolve r s in (s', if ok then accepted ++ [r] else accepted)
  | Take => (take s, accepted)
  | Finish i dns => (finish i dns s, accepted)
  end.

(** ** Properties *)

Lemma parse_records_bound t answers out : (length out < 8)%nat -> (length (parse_records t answers out) <= 8)%nat.
Proof.
  revert out. induction answers as [|a answers IH]; intros out Ho; cbn [parse_records]; [lia|].
  destruct (data a) as [prio target params|]; [|by apply IH].
  case Nat.leb_spec; rewrite length_app; cbn [length]; intros Hl; [lia|]. apply IH. rewrite length_app. cbn. lia.
Qed.

Lemma SocketAddr_new_port ip p : sa_port (SocketAddr_new ip p) = p.
Proof. by destruct ip. Qed.

Lemma resolve_host_spec dns h p : let a := resolve_host dns h p in
  Forall (fun x => sa_port x = p) (addrs a) /\ (length (https_records a) <= 8)%nat /\
  (forall ip, parse_ip h = Some ip -> addrs a = [SocketAddr_new ip p]) /\
  (parse_ip h = None -> addrs a = (fun ip => SocketAddr_new ip p) <$> default [] (lookup_ip dns)).
Proof.
  cbn zeta. unfold resolve_host. destruct (parse_ip h) as [ip|].
  - split_and!; [constructor; [apply SocketAddr_new_port|done]|cbn; lia|by intros ? [= ->]|done].
  - destruct (lookup_ip dns) as [[|ip ips]|]; (split_and!; [|cbn [https_records]|done|done]); try done; try (cbn; lia).
    + apply Forall_fmap, Forall_forall. intros x _. apply SocketAddr_new_port.
    + destruct (lookup_https dns) as [l|]; [|cbn; lia]. apply parse_records_bound. cbn. lia.
Qed.

(** What a reply says of its request. *)
Definition answers (c : Request * Observation) : Prop :=
  exists eps records, c.2 = Resolved (origin c.1) eps (bool_decide (eps = [])) records false /\
    Forall (fun x => sa_port x = port c.1) eps /\ (length records <= 8)%nat /\
    (forall ip, parse_ip (host c.1) = Some ip -> eps = [SocketAddr_new ip (port c.1)]).

(** Whatever is asked, and in whatever order the lookups end, every request the
    queue took is in the queue, being looked up, or answered, exactly once each
    time it was asked; an answer is for the origin that asked, says that it failed
    exactly when it has no address, carries only addresses with the port asked
    for and at most eight records, and an IP literal is its own answer. *)
Theorem every_lookup_is_answered_once started os :
  let '(s, accepted) := foldl step (spawn started, []) os in
  accepted ≡ₚ queue s ++ running s ++ (fst <$> replies s) /\ Forall answers (replies s) /\ (length (queue s) <= capacity)%nat.
Proof.
  set (inv := fun c : Resolver * list Request =>
    c.2 ≡ₚ queue c.1 ++ running c.1 ++ (fst <$> replies c.1) /\ Forall answers (replies c.1) /\ (length (queue c.1) <= capacity)%nat).
  assert (Hall : forall c, inv c -> inv (foldl step c os)).
  { induction os as [|o os IH]; intros c Hc; [done|]. cbn [foldl]. apply IH. clear IH os. destruct c as [s acc], Hc as (Hp&Ha&Hl). cbn in Hp, Ha, Hl.
    destruct o as [r| |i dns]; cbn [step].
    - unfold resolve. destruct (up s); cbn [andb]; [|done]. case Nat.ltb_spec; [|done]. intros Hq. split_and!; cbn; [|done|rewrite length_app; cbn; lia].
      rewrite Hp. solve_Permutation.
    - unfold take. destruct (queue s) as [|r q] eqn:Eq; [by split_and!; cbn; rewrite ?Eq|]. cbn in Hl. split_and!; cbn; [|done|lia].
      rewrite Hp. solve_Permutation.
    - unfold finish. destruct (running s !! i) as [r|] eqn:Er; [|done]. split_and!; cbn; [|apply Forall_app; split; [done|]|done].
      + rewrite Hp, fmap_app. cbn. rewrite (delete_Permutation _ _ _ Er) at 1. solve_Permutation.
      + constructor; [|done]. destruct (resolve_host_spec dns (host r) (port r)) as (H1&H2&H3&_). eexists _, _. by split_and!. }
  assert (H0 : inv (spawn started, [])) by (split_and!; cbn; [done|constructor|unfold capacity; lia]).
  apply Hall in H0. by destruct (foldl step _ os).
Qed.

(** A request that finds the queue full, or the thread gone, is dropped, and nothing
    says so: no observation will come for it. *)
Lemma full_queue_loses_lookup r s : length (queue s) = capacity \/ up s = false -> resolve r s = (s, false).
Proof. unfold resolve. intros [->| ->]; [|done]. by rewrite Nat.ltb_irrefl, andb_false_r. Qed.
End resolver.
