(* ===== verification/Runtime.v ===== *)
(** * The runtime and the network context ([runtime/handle.rs], [netctx.rs]).

    A thread per shard, each with a bounded mailbox of commands. Starting a thread
    and its reactor may fail; what comes of it is an argument. *)

From Stdlib Require Import String.
From S2P Require Import Prelude Errors SlotMap World.
Local Open Scope Z_scope.

(** ** A shard thread *)

Section shard_main.
Context {Task Fut : Type}.

Inductive Command := Run (task : Task) | Drive (make : Fut) | Shutdown.

(** What the thread did, latest last. A future that is replaced or still there at
    the end is dropped where it stands. *)
Inductive did := Ran (task : Task) | Polled (fut : Fut) | Dropped (fut : Fut).

Definition drops (o : option Fut) : list did := match o with Some f => [Dropped f] | None => [] end.

(** One turn: the poll that found a command, and whether the future was then ready.
    [None] is a mailbox whose senders are gone. The future as it is left by its
    poll is [f'] of the turn. *)
Record turn := mkTurn { left_of : Fut -> option Fut; command : option Command }.

Fixpoint shard_loop (drive : option Fut) (ts : list turn) (log : list did) : list did * bool :=
  match ts with
  | [] => (log, false)
  | t :: ts' =>
      let '(drive, log) := match drive with Some f => (left_of t f, log ++ [Polled f]) | None => (None, log) end in
      match command t with
      | Some (Run task) => shard_loop drive ts' (log ++ [Ran task])
      | Some (Drive f) => shard_loop (Some f) ts' (log ++ drops drive)
      | Some Shutdown | None => (log ++ drops drive, true)
      end
  end.

(** The tasks a loop is given before it is told to end. *)
Fixpoint tasks_of (ts : list turn) : list Task :=
  match ts with
  | [] => []
  | t :: ts' =>
      match command t with
      | Some (Run task) => task :: tasks_of ts'
      | Some (Drive _) => tasks_of ts'
      | Some Shutdown | None => []
      end
  end.
Definition ran (log : list did) : list Task := log ≫= fun d => match d with Ran t => [t] | Polled _ | Dropped _ => [] end.

Lemma ran_app l l' : ran (l ++ l') = ran l ++ ran l'.
Proof. apply bind_app. Qed.
Lemma ran_drops o : ran (drops o) = [].
Proof. by destruct o. Qed.

(** A shard runs what it is sent in order, all of it up to the command that ends it,
    and nothing after. *)
Lemma shard_runs_in_order drive ts log : ran (shard_loop drive ts log).1 = ran log ++ tasks_of ts.
Proof.
  revert drive log. induction ts as [|t ts IH]; intros drive log; [by rewrite app_nil_r|]. cbn [shard_loop tasks_of].
  destruct drive as [f|]; destruct (command t) as [[task|f'|]|]; rewrite ?IH; cbn [fst]; rewrite ?ran_app, ?ran_drops; cbn; by rewrite ?app_nil_r, <- ?app_assoc.
Qed.

(** A resident future is polled at every turn, with the waker of the mailbox, until
    it is done, replaced, or the shard ends. *)
Lemma resident_is_polled f ts log : Forall (fun t => exists task, command t = Some (Run task)) ts -> (forall t, t ∈ ts -> left_of t f = Some f) ->
  (shard_loop (Some f) ts log).1 = log ++ (ts ≫= fun t => Polled f :: match command t with Some (Run task) => [Ran task] | _ => [] end).
Proof.
  revert log. induction ts as [|t ts IH]; intros log Hr Hl; [by rewrite app_nil_r|]. apply Forall_cons in Hr as [[task Ht] Hr].
  cbn [shard_loop]. rewrite Ht, (Hl t) by by left. rewrite IH; [|done|intros u Hu; apply Hl; by right]. rewrite bind_cons, Ht. cbn. by rewrite <- !app_assoc.
Qed.
End shard_main.

(** ** Starting and stopping *)

Record RuntimeBuilder := mkRuntimeBuilder { shards : Z; thread_name : string }.
Definition RuntimeBuilder_default (cores : Z) : RuntimeBuilder := mkRuntimeBuilder cores "xde-io".
Definition with_shards (n : Z) (b : RuntimeBuilder) : RuntimeBuilder := mkRuntimeBuilder (Z.max n 1) (thread_name b).

(** What a thread reports of its start; [Died] is a thread that ended without a word. *)
Inductive startup := Started | Failed (e : ErrorKind) | Died.

(** A thread is told to end by a command, or by its mailbox when all senders are gone. *)
Inductive thread := Up | Told | Abandoned.
Definition ends (t : thread) (s : startup) : bool := match t, s with Up, Started => false | _, _ => true end.

(** [shard % self.shards.len()]. *)
Definition shard_index (shard count : Z) : Z := shard mod count.

(** The threads of [0..count], each spawned or not. *)
Fixpoint spawn_all (count : nat) (spawned : list (ErrorKind + unit)) : list thread * option ErrorKind :=
  match count, spawned with
  | O, _ | _, [] => ([], None)
  | S _, inl e :: _ => ([], Some e)
  | S n, inr _ :: rest => let '(ts, e) := spawn_all n rest in (Up :: ts, e)
  end.

(** The handshake: the first report that is not a success decides. *)
Fixpoint first_failure (reports : list startup) : option Error :=
  match reports with
  | [] => None
  | Started :: rest => first_failure rest
  | Failed e :: _ => Some (Transport (TransportIo e))
  | Died :: _ => Some (Config "shard failed to start")
  end.

(** [build]: the outcome, and what is left of the threads. *)
Definition build (b : RuntimeBuilder) (spawned : list (ErrorKind + unit)) (reports : list startup) : result unit * list thread :=
  let '(ts, e) := spawn_all (Z.to_nat (shards b)) spawned in
  match e with
  | Some e => (inl (Transport (TransportIo e)), (fun _ => Abandoned) <$> ts)
  | None =>
      match first_failure (take (length ts) reports) with
      | Some e => (inl e, (fun _ => Told) <$> ts)
      | None => (inr tt, ts)
      end
  end.

(** [Drop]: every shard is told, then every thread is joined. *)
Definition drop_runtime (ts : list thread) : list thread := (fun _ => Told) <$> ts.

Lemma spawn_all_up n spawned : Forall (eq Up) (spawn_all n spawned).1 /\ (length (spawn_all n spawned).1 <= n)%nat.
Proof.
  revert spawned. induction n as [|n IH]; intros spawned; [by destruct spawned|]. destruct spawned as [|[e|[]] rest]; cbn; [by split; [|lia]..|].
  specialize (IH rest). destruct (spawn_all n rest) as [ts e]. cbn in *. destruct IH. split; [by constructor|lia].
Qed.

Lemma first_failure_none reports : first_failure reports = None <-> Forall (eq Started) reports.
Proof.
  induction reports as [|[|e|] reports IH]; cbn; [done| |split; [done|inversion 1; congruence]..].
  rewrite IH. split; [by constructor|by inversion 1].
Qed.

(** A runtime is built with all its shards up, or not at all: then every thread that
    was started is told to end. *)
Lemma build_all_or_nothing b spawned reports : (Z.to_nat (shards b) <= length spawned)%nat -> (length spawned <= length reports)%nat ->
  match build b spawned reports with
  | (inr _, ts) => length ts = Z.to_nat (shards b) /\ Forall (eq Up) ts /\ Forall (eq Started) (take (length ts) reports)
  | (inl _, ts) => Forall (fun t => forall s, ends t s = true) ts
  end.
Proof.
  intros Hn Hr. unfold build. pose proof (spawn_all_up (Z.to_nat (shards b)) spawned) as [Hu Hl].
  assert (Hlen : (spawn_all (Z.to_nat (shards b)) spawned).2 = None -> length (spawn_all (Z.to_nat (shards b)) spawned).1 = Z.to_nat (shards b)).
  { clear Hr Hu Hl. revert spawned Hn. induction (Z.to_nat (shards b)) as [|n IH]; intros spawned Hn; [by destruct spawned|].
    destruct spawned as [|[e|[]] rest]; cbn in *; [lia|done|]. specialize (IH rest ltac:(lia)). destruct (spawn_all n rest). cbn in *. intros H. by rewrite IH. }
  destruct (spawn_all _ spawned) as [ts [e|]]; cbn in *.
  - by apply Forall_fmap, Forall_forall.
  - destruct (first_failure _) as [e|] eqn:E; [by apply Forall_fmap, Forall_forall|]. apply first_failure_none in E. auto.
Qed.

(** ** Network context *)

(** What the interfaces answer; [None] is an error. *)
Record Interface := mkInterface { if_index : Z; if_name : option string }.
Record Interfaces := mkInterfaces {
  local_ipv4_addrs : option (list Interface); local_ipv6_addrs : option (list Interface); interfaces : option (list (Z * Z));
  gateway_ipv4_addrs : option (list Z); gateway_ipv6_addrs : option (list Z) }.

Definition first {A} (o : option (list A)) : option A := match o with Some (x :: _) => Some x | _ => None end.

Definition detect (q : Interfaces) : NetworkContextKey :=
  let gw := match first (gateway_ipv4_addrs q) with
            | Some g => Some (IpV4 g)
            | None => option_map IpV6 (first (gateway_ipv6_addrs q))
            end in
  match first (local_ipv4_addrs q) with
  | Some i =>
      let mtu := match interfaces q with
                 | Some l => option_map snd (find (fun e => e.1 =? if_index i) l)
                 | None => None
                 end in
      mkNetworkContextKey (Some (if_index i)) (if_name i) (Some FamilyV4) gw mtu
  | None =>
      match first (local_ipv6_addrs q) with
      | Some i => mkNetworkContextKey (Some (if_index i)) None (Some FamilyV6) gw None
      | None => mkNetworkContextKey None None None gw None
      end
  end.

(** Over IPv6 alone every network without an IPv4 gateway and with the same one over
    IPv6 has the same context: neither name nor MTU is asked for, and the index is
    not part of the signature. *)
Lemma ipv6_contexts_coincide {W : WebLib} q q' i i' : first (local_ipv4_addrs q) = None -> first (local_ipv4_addrs q') = None ->
  first (local_ipv6_addrs q) = Some i -> first (local_ipv6_addrs q') = Some i' ->
  gateway (detect q) = gateway (detect q') -> context_signature (detect q) = context_signature (detect q').
Proof. intros H1 H2 H3 H4. unfold detect. rewrite H1, H2, H3, H4. cbn. intros Hg. unfold context_signature. cbn. by rewrite Hg. Qed.
