(* ===== verification/Lifecycle.v ===== *)
(** * The life of a job ([core/controller.rs]).

    How a job ends, drains, fails over, retries and follows redirects: the part
    of the controller that decides what becomes of a job when something happens
    to one of its requests. *)

From Stdlib Require Import String.
From S2P Require Import Prelude Ranges Float Rates Errors Text Representation Policy Spec SlotMap Timers Segment World Controller.
Local Open Scope Z_scope.

(** ** Weights and jitter *)

Definition NOMINAL_STREAM_RATE : f64 := f64_mul (f64_mul (f64_of_Z 10) (f64_of_Z 1024)) (f64_of_Z 1024).

Definition deadline_pressure (deadline : option Z) (remaining_bytes now : Z) : f64 :=
  match deadline with
  | None => f64_one
  | Some dl =>
      if remaining_bytes =? 0 then f64_one
      else
        let left := saturating_duration_since dl now in
        if left =? 0 then f64_of_Z 8
        else
          let required := f64_div (f64_of_Z remaining_bytes) (as_secs_f64 left) in
          f64_clamp (f64_div required NOMINAL_STREAM_RATE) f64_one (f64_of_Z 8)
  end.

Definition eff_weight {L : SlotMapLib} (j : JobNode.t) (now : Z) : f64 :=
  let remaining := match JobNode.plan j with
                   | Some p => default 0 (SegmentPlan.bytes_remaining p) | None => 0 end in
  f64_mul (f64_mul (weight (JobNode.priority j)) (allocator_bias (JobNode.urgency j)))
          (deadline_pressure (JobNode.deadline j) remaining now).

Definition jitter_for (now epoch : Z) : f64 :=
  let nanos := saturating_duration_since now epoch mod nanos_per_sec in
  f64_div (f64_add (f64_of_Z (nanos mod 997)) f64_one) (f64_of_Z 998).

(** The proof a commit owes: the expected digest, or a computed one. *)
Definition digest_check (i : IntegritySpec) : option DigestCheck :=
  match expected i, compute i with
  | Some e, _ => Some (mkDigestCheck (kind e) (Some (bytes e)))
  | None, Some k => Some (mkDigestCheck k None)
  | None, None => None
  end.

Section lifecycle.
Context {L : SlotMapLib} {S : SecMapLib L} {W : WebLib}.
(** The fuel is the bound put on [ensure_probes]. *)
Context (clk : Clock) (fuel : nat).

(** ** Ends *)

(** [finish_job]: the node goes, the lease is released, the waiter is told. *)
Definition finish_job (k : key) (outcome0 : Outcome) : M unit :=
  let! removed := ask (fun c => Ctl.job c k) in
  match removed with
  | None => ret tt
  | Some j =>
      upd (fun c => c <| Ctl.world ::= fun w =>
             WorldModel.release_lease (JobNode.destination j) k (w <| WorldModel.jobs ::= fun m => snd (sm_remove m k) |>) |>) ;;
      emit match outcome0 with
           | inr (n, digest) => CompleteJob k n digest (JobNode.resumed_bytes j)
           | inl e => FailJob k e
           end ;;
      ensure_probes clk fuel (JobNode.origin j) (instant clk)
  end.

Definition plan_in_flight (j : JobNode.t) : Z :=
  match JobNode.plan j with Some p => SegmentPlan.in_flight p | None => 0 end.

Definition try_complete_drain (k : key) : M unit :=
  let! node := ask (fun c => Ctl.job c k) in
  match node with
  | None => ret tt
  | Some j =>
      if negb (is_draining (JobNode.phase j)) then ret tt
      else if plan_in_flight j >? 0 then ret tt
      else finish_job k (default (inl "drained"%string) (JobNode.pending_terminal j))
  end.

Definition begin_fail (k : key) (error : string) : M unit :=
  let! node := ask (fun c => Ctl.job c k) in
  match node with
  | None => ret tt
  | Some j =>
      if is_terminal (JobNode.phase j) || is_draining (JobNode.phase j) then ret tt
      else
        modify_job k (fun j => (j <| JobNode.phase := Failing |> <| JobNode.pending_terminal := Some (inl error) |>)) ;;
        try_complete_drain k
  end.

(** ** Other sources, other attempts *)

(** [Action::Resolve] for an origin in the model. *)
Definition resolve_of (k : key) (o : OriginNode.t) : Action :=
  Resolve k (ok_host (OriginNode.okey o)) (ok_port (OriginNode.okey o)).

Definition next_source (c : Ctl.t) (k : key) : option (key * key * OriginNode.t) :=
  match Ctl.job c k with
  | None => None
  | Some j =>
      match head (JobNode.unused_sources j) with
      | None => None
      | Some sid =>
          match sm_get (WorldModel.sources (Ctl.world c)) sid with
          | None => None
          | Some s => option_map (fun o => (sid, src_origin s, o)) (Ctl.org c (src_origin s))
          end
      end
  end.

Definition activate_next_source (k : key) : M bool :=
  let! next := ask (fun c => next_source c k) in
  match next with
  | None => ret false
  | Some (sid, origin, o) =>
      modify_job k (fun j => (j <| JobNode.active_sources := [sid] |> <| JobNode.origin := origin |>
                                <| JobNode.phase := Created |> <| JobNode.resolve_attempts := 0 |>)) ;;
      emit (resolve_of origin o) ;;
      ret true
  end.

Definition retry_resolve (k : key) (now : Z) : M unit :=
  let! node := ask (fun c => Ctl.job c k) in
  match node with
  | None => finish_job k (inl "resolution failed"%string)
  | Some j =>
      let attempts := JobNode.resolve_attempts j in
      if attempts >=? Z.max (max_attempts_per_range (Policy.retry (JobNode.policy j))) 3
      then finish_job k (inl "resolution failed"%string)
      else
        let! o := ask (fun c => Ctl.org c (JobNode.origin j)) in
        let! o := expect o in
        modify_job k (fun j => j <| JobNode.resolve_attempts ::= fun n => u32_add n 1 |>) ;;
        let! delay := ask (fun c => backoff (Ctl.retry c) attempts (jitter_for now (Ctl.epoch c))) in
        let! delay := expect delay in
        emit (ScheduleTimer (now + delay)
                (ResolveRetry (JobNode.origin j) (ok_host (OriginNode.okey o)) (ok_port (OriginNode.okey o))))
  end.

Definition on_intent_connect_failed (k : key) (source : option key) (kind0 : ConnectFailure)
    (origin_of_failed : option key) (now : Z) : M unit :=
  if negb (retryable kind0) then begin_fail k "connection failed: tls"
  else
    let! has_mirror := ask (fun c =>
      match Ctl.job c k with
      | None => false
      | Some j =>
          match source with
          | Some sid => match sm_get (WorldModel.sources (Ctl.world c)) sid with
                        | Some s => bool_decide (Some (src_origin s) = origin_of_failed) | None => false end
          | None => false
          end && negb (bool_decide (JobNode.unused_sources j = []))
      end) in
    let! moved := (if has_mirror : bool then activate_next_source k else ret false) in
    if moved : bool then ret tt else retry_resolve k now.

(** A mirror candidate that failed. *)
Definition reject_mirror (source : key) (j : JobNode.t) : JobNode.t :=
  j <| JobNode.probing_sources ::= retain (fun s => negb (bool_decide (s = source))) |>
    <| JobNode.failed_sources ::= fun l => l ++ [source] |>.

(** No new connections or requests to an origin for [delay]. *)
Definition cool_origin (origin : key) (now delay : Z) : M unit :=
  modify_origin origin (fun o => o <| OriginNode.cooldown_until := Some (now + delay) |>) ;;
  emit (ScheduleTimer (now + delay) (OriginCooldownExpired origin)).

Definition job_origin (c : Ctl.t) (k : key) : option key := option_map JobNode.origin (Ctl.job c k).

(** [if let Some(origin) = self.world.jobs.get(job).map(|j| j.origin)]. *)
Definition with_job_origin (k : key) (f : key -> M unit) : M unit :=
  let! o := ask (fun c => job_origin c k) in
  match o with Some o => f o | None => ret tt end.

(** ** What a failed request does to its job *)

(** The delay and the number of the next attempt, for a retry. *)
Definition retry_plan (d : Disposition) (attempt now : Z) : M (option (Z * Z)) :=
  match d with
  | RetrySameRange after _ =>
      let next := u32_sat_add attempt 1 in
      match after with
      | Some delay => ret (Some (delay, next))
      | None =>
          let! delay := ask (fun c => backoff (Ctl.retry c) next (jitter_for now (Ctl.epoch c))) in
          let! delay := expect delay in
          ret (Some (delay, next))
      end
  | _ => ret None
  end.

(** The plan gives the range up, or puts it off. *)
Definition give_up_range (assign : key) (plan0 : option (Z * Z)) (max_attempts now : Z) (p : SegmentPlan.t) : SegmentPlan.t :=
  let '(abandoned, p') := SegmentPlan.abandon p assign in
  match plan0, abandoned with
  | Some (delay, next), Some a =>
      if next <=? max_attempts then SegmentPlan.defer p' (Assignment.range a) (now + delay) next else p'
  | _, _ => p'
  end.

Definition on_retry (k : key) (assignment : option key) (range : ByteRange.t) (plan0 : option (Z * Z)) (max_attempts now : Z)
    : M unit :=
  match plan0 with
  | None => ret tt
  | Some (delay, next) =>
      match assignment with
      | Some assign =>
          if next >? max_attempts then begin_fail k "range retry budget exhausted"
          else emit (ScheduleTimer (now + delay) (RetryReady (mkAssignmentRef k assign) range next))
      | None => with_job_origin k (fun o => cool_origin o now delay)
      end
  end.

Definition on_back_off (k : key) (after : option Z) (attempt now : Z) : M unit :=
  let! delay := match after with
                | Some d => ret d
                | None =>
                    let! d := ask (fun c => backoff (Ctl.retry c) (u32_add attempt 3) (jitter_for now (Ctl.epoch c))) in
                    expect d
                end in
  with_job_origin k (fun o => cool_origin o now delay).

Definition on_refresh_credentials (k : key) (status : Z) : M unit :=
  let! attempts := ask (fun c => match Ctl.job c k with Some j => JobNode.refresh_attempts j | None => 0 end) in
  if attempts >=? 3
  then finish_job k (inl ("credentials rejected (" +:+ show_u64 status +:+ "); refresh budget exhausted")%string)
  else
    let! url0 := ask (fun c =>
      let sid := default key_null (match Ctl.job c k with Some j => JobNode.active_source j | None => None end) in
      match sm_get (WorldModel.sources (Ctl.world c)) sid with Some s => src_url s | None => ""%string end) in
    emit (RequestCredentialRefresh k url0 status attempts).

(** The plan that replaces one whose server ignores ranges. *)
Definition full_body_plan (j : JobNode.t) : SegmentPlan.t :=
  let done := match JobNode.plan j with Some p => SegmentPlan.completed p | None => RangeSet.empty end in
  SegmentPlan.set_single_stream
    (SegmentPlan.new (JobNode.total_length j) done (segmentation (JobNode.policy j))
       (piece_duration_target (JobNode.urgency j)) 0) true.

Definition on_full_body (k : key) (now : Z) : M unit :=
  modify_job k (fun j => (j <| JobNode.supports_ranges := false |> <| JobNode.plan := Some (full_body_plan j) |>)) ;;
  let! o := ask (fun c => default key_null (job_origin c k)) in
  open_one_connection clk o now true.

Definition on_recheck_length (k : key) (now : Z) : M unit :=
  with_job_origin k (fun o =>
    modify_job k (fun j => j <| JobNode.phase := Probing |>) ;;
    open_one_connection clk o now true).

(** The active sources of a job on an origin. *)
Definition sources_on (c : Ctl.t) (j : JobNode.t) (origin : key) : list key :=
  retain (fun sid => match sm_get (WorldModel.sources (Ctl.world c)) sid with
                     | Some s => bool_decide (src_origin s = origin) | None => false end) (JobNode.active_sources j).

Definition quarantine_source (sid : key) (j : JobNode.t) : JobNode.t :=
  let j1 := j <| JobNode.active_sources ::= retain (fun s => negb (bool_decide (s = sid))) |> in
  if bool_decide (sid ∈ JobNode.failed_sources j1) then j1 else j1 <| JobNode.failed_sources ::= fun l => l ++ [sid] |>.

(** Every assignment that rides on a connection. *)
Definition riders (c : Ctl.t) (connection : key) : list (key * key) :=
  Ctl.jobs c ≫= fun kj =>
    match JobNode.plan kj.2 with
    | Some p => (fun ka => (kj.1, ka.1)) <$>
                  retain (fun ka => bool_decide (Assignment.connection ka.2 = Some connection))
                    (sm_iter (SegmentPlan.assignments p))
    | None => []
    end.

(** One turn of the loop over the victims of a quarantine. *)
Definition evict (k connection : key) (now : Z) (v : key * key) : M unit :=
  let '(v_job, v_assign) := v in
  let! plan := ask (fun c => match Ctl.job c v_job with Some j => JobNode.plan j | None => None end) in
  match plan with
  | Some p =>
      let '(abandoned, p') := SegmentPlan.abandon p v_assign in
      modify_job v_job (fun j => j <| JobNode.plan := Some p' |>) ;;
      match abandoned with
      | Some a => emit (TruncateAssignment v_job (mkAssignmentRef v_job v_assign) connection (Assignment.cursor a))
      | None => ret tt
      end
  | None => ret tt
  end ;;
  upd (fun c => c <| Ctl.connection_state ::= fun m =>
         sec_modify m connection (fun s => s <| in_flight ::= fun n => u64_sat_sub n 1 |>) |>) ;;
  with_job_origin k (fun o => bump_generation o now).

Definition on_quarantine (k : key) (connection : option key) (reason : string) (now : Z) : M unit :=
  let! quarantined := ask (fun c =>
    match Ctl.job c k, match connection with Some x => Ctl.conn c x | None => None end with
    | Some j, Some n => sources_on c j (ConnectionNode.origin n)
    | _, _ => []
    end) in
  if bool_decide (quarantined = [])
  then finish_job k (inl ("artifact inconsistent across sources: " +:+ reason)%string)
  else
    for_each quarantined (fun sid => modify_job k (quarantine_source sid)) ;;
    emit (ReportSourceQuarantined k quarantined reason) ;;
    match connection with
    | Some conn =>
        let! victims := ask (fun c => riders c conn) in
        for_each victims (evict k conn now)
    | None => ret tt
    end ;;
    let! has_active := ask (fun c => match Ctl.job c k with
                                     | Some j => negb (bool_decide (JobNode.active_sources j = [])) | None => false end) in
    if has_active : bool then ret tt
    else
      let! moved := activate_next_source k in
      if moved : bool then ret tt
      else finish_job k (inl ("all sources failed or were quarantined: " +:+ reason)%string).

Definition on_fatal (k : key) (assignment : option key) (status : Z) (reason : string) : M unit :=
  let! moved := (if bool_decide (assignment = None) then activate_next_source k else ret false) in
  if moved : bool then ret tt
  else finish_job k (inl ("fatal (" +:+ show_u64 status +:+ "): " +:+ reason)%string).

Definition dispose (k : key) (assignment : option key) (range : ByteRange.t) (d : Disposition) (plan0 : option (Z * Z))
    (max_attempts attempt : Z) (connection : option key) (now : Z) : M unit :=
  match d with
  | Accept => ret tt
  | RetrySameRange _ _ => on_retry k assignment range plan0 max_attempts now
  | BackOffOrigin after _ => on_back_off k after attempt now
  | RefreshCredentials status => on_refresh_credentials k status
  | InvalidateArtifact reason =>
      emit (DiscardDestination k) ;;
      finish_job k (inl ("artifact invalidated: " +:+ reason)%string)
  | FullBodyForRangeRequest => on_full_body k now
  | RecheckLength => on_recheck_length k now
  | RangeCapabilityLostD => modify_job k (fun j => j <| JobNode.supports_ranges := false |>)
  | QuarantineSource reason => on_quarantine k connection reason now
  | Fatal status reason => on_fatal k assignment status reason
  end.

Definition drain_if_needed (k : key) : M unit :=
  let! draining := ask (fun c => match Ctl.job c k with Some j => is_draining (JobNode.phase j) | None => false end) in
  when draining (try_complete_drain k).

Definition handle_assignment_disposition (k : key) (assignment : option key) (range : ByteRange.t) (d : Disposition)
    (attempt : Z) (connection : option key) (now : Z) : M unit :=
  let! max_attempts := ask (fun c => match Ctl.job c k with
    | Some j => max_attempts_per_range (Policy.retry (JobNode.policy j)) | None => 6 end) in
  let! plan0 := retry_plan d attempt now in
  match assignment with
  | Some assign => modify_job k (fun j => j <| JobNode.plan ::= option_map (give_up_range assign plan0 max_attempts now) |>)
  | None => ret tt
  end ;;
  drain_if_needed k ;;
  dispose k assignment range d plan0 max_attempts attempt connection now.

(** ** Redirects *)

(** [HeaderMap::drain] through the filter: the first value of each name, unless
    it is marked sensitive. *)
Fixpoint drain_insensitive (seen : list string) (h : list (string * HeaderValue)) : list (string * HeaderValue) :=
  match h with
  | [] => []
  | (name, v) :: h' =>
      if bool_decide (name ∈ seen) then drain_insensitive seen h'
      else if is_sensitive v then drain_insensitive (name :: seen) h'
      else (name, v) :: drain_insensitive (name :: seen) h'
  end.

(** The headers that survive a hop to another origin. *)
Definition strip_credentials (h : list (string * HeaderValue)) : list (string * HeaderValue) :=
  drain_insensitive [] (retain (fun e => negb (is_credential e.1)) h).

Definition fail_with (k : key) (e : string) : M unit := finish_job k (inl e).

(** The hop itself, once it is allowed. *)
Definition follow_same_origin (k connection source_id : key) (u : Url) : M unit :=
  upd (fun c => c <| Ctl.world ::= WorldModel.modify_source source_id (fun s => s <| src_url := url_as_str u |>) |>) ;;
  modify_job k (fun j => j <| JobNode.redirect_chain ::= fun l => l ++ [url_as_str u] |>) ;;
  emit (Probe k connection None).

Definition follow_cross_origin (k connection source_id : key) (u : Url) (new_key : TransportOriginKey)
    (forward_credentials : bool) : M unit :=
  when (negb forward_credentials)
    (upd (fun c => c <| Ctl.world ::= WorldModel.modify_source source_id (fun s =>
       let h := strip_credentials (src_headers s) in
       (s <| src_headers := h |>
          <| src_header_identity := fingerprint_of url_as_str blake3 u (plain h) |>)) |>)) ;;
  let! created := ask (fun c => WorldModel.get_or_create_origin clk new_key (Ctl.world c)) in
  let '(new_origin, w) := created in
  upd (fun c => c <| Ctl.world := w |>) ;;
  modify_job k (fun j =>
    (j <| JobNode.origin := new_origin |> <| JobNode.rep_lock := RepresentationLock.default |>
       <| JobNode.phase := Created |> <| JobNode.resolve_attempts := 0 |>
       <| JobNode.redirect_chain ::= fun l => l ++ [url_as_str u] |>)) ;;
  upd (fun c => c <| Ctl.world ::= WorldModel.modify_source source_id (fun s =>
    (s <| src_url := url_as_str u |> <| src_origin := new_origin |>)) |>) ;;
  emit (CloseConnection connection) ;;
  drop_connection connection ;;
  emit (Resolve new_origin (ok_host new_key) (ok_port new_key)).

Definition handle_probe_redirect (k connection : key) (status : Z) (location : string) (now : Z) : M unit :=
  let! node := ask (fun c => Ctl.job c k) in
  match node with
  | None => ret tt
  | Some j =>
      let rp := redirects (JobNode.policy j) in
      if Z.of_nat (length (JobNode.redirect_chain j)) >=? Z.max (max_redirects (JobNode.policy j)) 1
      then fail_with k ("redirect limit exceeded at RedirectTarget { url: " +:+ debug_string location +:+ " }")
      else match url_parse location with
      | None => fail_with k "redirect Location was not a valid URL"
      | Some u =>
      match from_url url_scheme url_host_str url_port_or_known_default u with
      | None => fail_with k ("redirect to unsupported scheme '" +:+ url_scheme u +:+ "'")
      | Some new_key =>
          if negb (bool_decide (NoDup (JobNode.redirect_chain j ++ [url_as_str u])))
          then fail_with k "redirect loop detected"
          else match JobNode.active_source j with
          | None => ret tt
          | Some source_id =>
              let! old := ask (fun c => option_map OriginNode.okey (Ctl.org c (JobNode.origin j))) in
              let downgrade := match old with
                               | Some ok => String.eqb (ok_scheme ok) "https" && String.eqb (ok_scheme new_key) "http" &&
                                            negb (allow_https_to_http rp)
                               | None => false
                               end in
              if downgrade then fail_with k "insecure redirect downgrade from https to http rejected"
              else match old with
                   | Some ok =>
                       if bool_decide (ok = new_key) then follow_same_origin k connection source_id u
                       else follow_cross_origin k connection source_id u new_key (forward_credentials_cross_origin rp)
                   | None => follow_cross_origin k connection source_id u new_key (forward_credentials_cross_origin rp)
                   end
          end
      end
      end
  end.
End lifecycle.
