(* ===== verification/Adaptive.v ===== *)
(** * Adaptive topology and rebalancing ([core/controller.rs]).

    The slow and the medium control loops of an origin: topology experiments
    (one more connection, one more stream) that are kept or reverted on measured
    evidence, and the tick that shrinks stragglers and mixes mirrors in. *)

From Stdlib Require Import String.
From S2P Require Import Prelude Ranges Float Rates Errors Representation Policy Spec SlotMap Timers Segment World Controller.
Local Open Scope Z_scope.

Section adaptive.
Context {L : SlotMapLib} {S : SecMapLib L} {W : WebLib}.
Context (clk : Clock).

(** What one tick measured. *)
Record DecisionInputs := mkInputs {
  d_rate : f64;
  d_stall_fraction : f64;
  d_experiment : option TopologyExperiment.t;
  d_remaining : option Z;
  d_has_work : bool;
  d_ceiling : Z;
  d_live : Z;
  d_multiplexed : bool;
  d_handshake : Z;
  d_stream_ceiling : Z;
  d_max_streams : Z }.

Definition transfers_on (origin : key) (kj : key * JobNode.t) : bool :=
  bool_decide (JobNode.origin kj.2 = origin) && phase_is (JobNode.phase kj.2) Transferring.

Definition wants_connections (origin : key) (kj : key * JobNode.t) : bool :=
  bool_decide (JobNode.origin kj.2 = origin) &&
  (phase_is (JobNode.phase kj.2) Probing || phase_is (JobNode.phase kj.2) Transferring).

Definition origin_verified_bytes (c : Ctl.t) (origin : key) : Z := default 0 (sec_get (Ctl.origin_verified c) origin).

Definition bump_verified (origin : key) (n : Z) (c : Ctl.t) : Ctl.t :=
  c <| Ctl.origin_verified ::= fun m => sec_insert m origin (u64_sat_add (origin_verified_bytes c origin) n) |>.

(** The largest of a list of naturals, [d] for an empty one. *)
Definition max_or (d : Z) (l : list Z) : Z := match l with [] => d | x :: l' => foldl Z.max x l' end.

Definition adaptive_ceiling (c : Ctl.t) (origin : key) : Z :=
  max_or 1 ((fun kj => max_physical_connections (transport (JobNode.policy kj.2))) <$>
              retain (wants_connections origin) (Ctl.jobs c)).

(** [Iterator::sum] of [u64]s wraps in the release profile. *)
Definition remaining_estimate (c : Ctl.t) (origin : key) : Z :=
  foldl u64_add 0 ((fun kj => JobNode.bytes_remaining_estimate kj.2) <$> retain (transfers_on origin) (Ctl.jobs c)).

Definition noise_floor_bps (c : Ctl.t) (origin : key) (baseline : f64) : f64 :=
  let floor := f64_mul (f64_max baseline f64_one) ADAPTIVE_NOISE_FLOOR in
  match Ctl.org c origin with
  | None => floor
  | Some o =>
      let l := OriginNode.window_rates o in
      if (length l <? 4)%nat then floor
      else
        let m := WorldModel.median f64_zero l in
        f64_max (WorldModel.median f64_zero ((fun r => f64_abs (f64_sub r m)) <$> l)) floor
  end.

Definition window_stall_fraction (c : Ctl.t) (origin : key) : f64 :=
  match sec_get (Ctl.origin_state c) origin with
  | None => f64_zero
  | Some (blocked, wall) =>
      if wall =? 0 then f64_zero
      else f64_clamp (f64_div (as_secs_f64 blocked) (as_secs_f64 wall)) f64_zero f64_one
  end.

Definition new_experiment (v : TopologyVariable) (conn : option key) (baseline : f64) (now : Z) : TopologyExperiment.t :=
  TopologyExperiment.mk v conn baseline now None 0 None.

(** ** Scaling before the first window *)

(** An origin that is cooling down, or already under experiment. *)
Definition busy_origin (c : Ctl.t) (origin : key) (now : Z) : bool :=
  match Ctl.org c origin with
  | Some o => OriginNode.is_cooled_down o now || bool_decide (is_Some (OriginNode.topology_experiment o))
  | None => false
  end.

Definition open_parallel_connection (origin : key) (now : Z) (baseline : f64) : M unit :=
  let! busy := ask (fun c => busy_origin c origin now) in
  if busy then ret tt
  else
    let! remaining := ask (fun c => remaining_estimate c origin) in
    if remaining <=? ADAPTIVE_MIN_REMAINING then ret tt
    else
      let! live := ask (fun c => WorldModel.live_connections_for_origin (Ctl.world c) origin) in
      let! ceiling := ask (fun c => adaptive_ceiling c origin) in
      if (live <? 1) || (live >=? ceiling) || (live >=? ADAPTIVE_MAX_CONNS) then ret tt
      else
        let! full := ask (fun c => sm_len (WorldModel.connections (Ctl.world c)) >=? Ctl.engine_max_connections c) in
        if full then ret tt
        else
          let! ep := ask (fun c => Ctl.best_endpoint c origin now) in
          match ep with
          | None => ret tt
          | Some e =>
              let! conn := dial_best clk origin e true None now in
              modify_origin origin (fun o =>
                (o <| OriginNode.topology_experiment := Some (new_experiment VarConnection (Some conn) baseline now) |>
                   <| OriginNode.adaptive_target_conns ::= fun n => Z.max n (live +% 1) |>)) ;;
              pump clk origin now
          end.

Definition consider_early_connection_scale (origin : key) (now : Z) (sample : TransferSample.t) : M unit :=
  if (TransferSample.bytes sample =? 0) || (TransferSample.response_wall sample =? 0) then ret tt
  else
    let stall := f64_div (as_secs_f64 (TransferSample.memory_blocked sample + TransferSample.destination_blocked sample))
                   (f64_max (as_secs_f64 (TransferSample.response_wall sample)) (f64_lit 1 9)) in
    if f64_ltb STALL_EXPERIMENT_GUARD stall then ret tt
    else
      let! busy := ask (fun c => busy_origin c origin now) in
      if busy then ret tt
      else
        let! remaining := ask (fun c => remaining_estimate c origin) in
        if remaining <=? ADAPTIVE_MIN_REMAINING then ret tt
        else
          let rate := TransferSample.receive_rate sample in
          if negb (f64_is_finite rate) || f64_leb rate f64_zero then ret tt
          else if f64_ltb (f64_div (f64_of_Z remaining) rate) (f64_lit 4 1) then ret tt
          else open_parallel_connection origin now rate.

(** ** Experiments *)

(** [revert]: the connection under test retires and closes once it is empty. *)
Definition revert (variable : TopologyVariable) (exp_conn : option key) (origin : key) (now : Z) : M unit :=
  match variable with
  | VarConnection =>
      match exp_conn with
      | Some conn =>
          let! drained := ask (fun c => Ctl.retired_and_drained c conn) in
          if drained : bool then
            emit (CloseConnection conn) ;;
            drop_connection conn ;;
            upd (fun c => c <| Ctl.connection_state ::= fun m => sec_remove m conn |>)
          else
            modify_connection conn (fun n => n <| ConnectionNode.status := Retired |>) ;;
            emit (ScheduleTimer (now + DRAIN_POLL) (DrainConnection conn))
      | None => ret tt
      end ;;
      modify_origin origin (fun o => o <| OriginNode.adaptive_target_conns ::= fun n => Z.max (u64_sat_sub n 1) 1 |>)
  | VarStreams =>
      modify_origin origin (fun o => o <| OriginNode.adaptive_target_streams ::= fun n => Z.max (u64_sat_sub n 1) 1 |>)
  end ;;
  modify_origin origin (fun o =>
    (o <| OriginNode.topology_experiment := None |> <| OriginNode.last_experiment_variable := Some variable |>
       <| OriginNode.experiment_cooldown_until := Some (now + ADAPTIVE_COOLDOWN) |>)).

(** The verdict over a finished measurement: the gain beats the noise and pays
    for the setup of the connection over what is left to transfer. *)
Definition keep_experiment (variable : TopologyVariable) (measured baseline noise : f64) (remaining handshake : Z) : bool :=
  let gain := f64_sub measured baseline in
  let setup_cost := match variable with
                    | VarStreams => f64_zero
                    | VarConnection => f64_mul (as_secs_f64 handshake) (f64_max measured f64_one)
                    end in
  let projected_secs := f64_div (f64_of_Z remaining) (f64_max measured (f64_of_Z 1024)) in
  let worth_the_cost := f64_ltb (f64_mul (f64_of_Z 2) setup_cost) (f64_mul gain projected_secs) in
  let clearly_worse := f64_ltb gain (f64_opp noise) in
  f64_ltb noise gain && worth_the_cost && negb clearly_worse.

Definition judge_experiment (d : DecisionInputs) (e : TopologyExperiment.t) (origin : key) (now : Z) : M unit :=
  if saturating_duration_since now (TopologyExperiment.opened_at e) <? ADAPTIVE_RAMP then ret tt
  else if negb (bool_decide (is_Some (TopologyExperiment.measured_rate_bps e))) then
    let! cursor := ask (fun c => origin_verified_bytes c origin) in
    modify_origin origin (fun o => o <| OriginNode.topology_experiment ::= option_map (fun e =>
      (e <| TopologyExperiment.measure_start_at := Some now |> <| TopologyExperiment.measure_start_bytes := cursor |>
         <| TopologyExperiment.measured_rate_bps := Some f64_zero |>)) |>)
  else
    let! verified := ask (fun c => origin_verified_bytes c origin) in
    let measured_bytes := u64_sat_sub verified (TopologyExperiment.measure_start_bytes e) in
    let elapsed := f64_max (as_secs_f64 match TopologyExperiment.measure_start_at e with
                                        | Some at0 => saturating_duration_since now at0 | None => ADAPTIVE_WINDOW end)
                     (f64_lit 1 9) in
    let measured := f64_div (f64_of_Z measured_bytes) elapsed in
    let baseline := TopologyExperiment.baseline_rate_bps e in
    let! noise := ask (fun c => noise_floor_bps c origin baseline) in
    let! handshake := ask (fun c => default (d_handshake d) (sec_get (Ctl.origin_avg_handshake c) origin)) in
    let variable := TopologyExperiment.variable e in
    if keep_experiment variable measured baseline noise (default 0 (d_remaining d)) handshake
    then modify_origin origin (fun o =>
           (o <| OriginNode.topology_experiment := None |> <| OriginNode.last_experiment_variable := Some variable |>))
    else revert variable (TopologyExperiment.conn e) origin now.

(** A candidate of the idle branch: whether it was started. *)
Definition try_candidate (d : DecisionInputs) (origin : key) (now : Z) (v : TopologyVariable) : M bool :=
  match v with
  | VarConnection =>
      if (d_live d >=? d_ceiling d) || (d_live d >=? ADAPTIVE_MAX_CONNS) || (d_live d <? 1) then ret false
      else
        let! full := ask (fun c => sm_len (WorldModel.connections (Ctl.world c)) >=? Ctl.engine_max_connections c) in
        if full then ret false
        else
          let! ep := ask (fun c => Ctl.best_endpoint c origin now) in
          match ep with
          | None => ret false
          | Some e =>
              let! conn := dial_best clk origin e true None now in
              modify_origin origin (fun o =>
                (o <| OriginNode.topology_experiment := Some (new_experiment VarConnection (Some conn) (d_rate d) now) |>
                   <| OriginNode.adaptive_target_conns ::= fun n => n +% 1 |>)) ;;
              ret true
          end
  | VarStreams =>
      let! live := ask (fun c => WorldModel.live_connections_for_origin (Ctl.world c) origin) in
      let! slots := ask (fun c => Ctl.engine_max_active_assignments c / (Z.max live 1)) in
      if negb (d_multiplexed d) || (d_stream_ceiling d >=? d_max_streams d) || (d_stream_ceiling d >=? Z.max slots 1)
      then ret false
      else
        modify_origin origin (fun o =>
          (o <| OriginNode.topology_experiment := Some (new_experiment VarStreams None (d_rate d) now) |>
             <| OriginNode.adaptive_target_streams ::= fun n => u32_add n 1 |>)) ;;
        pump clk origin now ;;
        ret true
  end.

Definition other_variable (v : TopologyVariable) : TopologyVariable :=
  match v with VarConnection => VarStreams | VarStreams => VarConnection end.

Definition evaluate_experiment (d : DecisionInputs) (origin : key) (now : Z) : M unit :=
  let! invalidated := ask (fun c => match sec_get (Ctl.origin_last_invalidation c) origin with
                                    | Some t => saturating_duration_since now t <? ADAPTIVE_WINDOW * 2
                                    | None => false end) in
  if invalidated then ret tt
  else if f64_ltb STALL_EXPERIMENT_GUARD (d_stall_fraction d) && bool_decide (is_Some (d_experiment d)) then ret tt
  else match d_experiment d with
       | Some e => judge_experiment d e origin now
       | None =>
           if negb (d_has_work d) then ret tt
           else if f64_ltb STALL_EXPERIMENT_GUARD (d_stall_fraction d) then ret tt
           else
             let! cool := ask (fun c => Ctl.cooled_down c origin now) in
             if cool then ret tt
             else
               let! first := ask (fun c => next_after (match Ctl.org c origin with
                 | Some o => OriginNode.last_experiment_variable o | None => None end)) in
               let! started := try_candidate d origin now first in
               if started : bool then ret tt
               else try_candidate d origin now (other_variable first) ;; ret tt
       end.

(** ** The adaptive tick *)

(** Retired connections that have drained are closed, the others polled. *)
Definition sweep_retired (now : Z) : M unit :=
  let! drained := ask (fun c => retain (Ctl.retired_and_drained c)
    ((retain (fun kc => status_is (ConnectionNode.status kc.2) Retired) (Ctl.conns c)).*1)) in
  for_each drained (fun conn =>
    emit (CloseConnection conn) ;;
    drop_connection conn ;;
    upd (fun c => c <| Ctl.connection_state ::= fun m => sec_remove m conn |>)) ;;
  let! pending := ask (fun c => (retain (fun kc => status_is (ConnectionNode.status kc.2) Retired) (Ctl.conns c)).*1) in
  for_each pending (fun conn => emit (ScheduleTimer (now + DRAIN_POLL) (DrainConnection conn))).

Definition push_window (rate : f64) (l : list f64) : list f64 :=
  let l' := l ++ [rate] in if (8 <? length l')%nat then tail l' else l'.

(** Opens the next measurement window and says what the last one measured;
    [None] when it is too young. *)
Definition measure_window (origin : key) (now total_verified : Z) (stall : f64) (ceiling : Z) (multiplexed : bool)
    (handshake max_streams live : Z) (o : OriginNode.t) (remaining : option Z) (has_work : bool)
    : option (DecisionInputs * (OriginNode.t -> OriginNode.t)) :=
  let elapsed := saturating_duration_since now (OriginNode.last_window_at o) in
  if elapsed <? ADAPTIVE_WINDOW then None
  else
    let delta := u64_sat_sub total_verified (OriginNode.last_window_bytes o) in
    let rate := f64_div (f64_of_Z delta) (f64_max (as_secs_f64 elapsed) (f64_lit 1 9)) in
    Some (mkInputs rate stall (OriginNode.topology_experiment o) remaining has_work ceiling live multiplexed handshake
            (OriginNode.adaptive_target_streams o) max_streams,
          fun o => o <| OriginNode.window_rates ::= push_window rate |>
                     <| OriginNode.last_window_bytes := total_verified |> <| OriginNode.last_window_at := now |>).

Definition plans_on (c : Ctl.t) (origin : key) : list SegmentPlan.t :=
  omap (fun kj => JobNode.plan kj.2) (retain (transfers_on origin) (Ctl.jobs c)).

Definition remaining_known (c : Ctl.t) (origin : key) : option Z :=
  let sum := foldl u64_sat_add 0 (omap SegmentPlan.bytes_remaining (plans_on c origin)) in
  if sum =? 0 then None else Some sum.

Definition has_work_on (c : Ctl.t) (origin : key) : bool :=
  existsb (fun p => SegmentPlan.admits_worker p (instant clk) &&
    match SegmentPlan.bytes_remaining p with Some r => r >? ADAPTIVE_MIN_REMAINING | None => true end) (plans_on c origin).

Definition ready_on (c : Ctl.t) (origin : key) : list (key * ConnectionNode.t) :=
  retain (fun kc => bool_decide (ConnectionNode.origin kc.2 = origin) && status_is (ConnectionNode.status kc.2) Ready)
    (Ctl.conns c).

Definition handshake_sum (c : Ctl.t) (l : list (key * ConnectionNode.t)) : Z :=
  foldr Z.add 0 (omap (fun kc =>
    match sm_get (WorldModel.endpoints (Ctl.world c)) (ConnectionNode.endpoint kc.2) with
    | Some e => handshake_ewma e | None => None end) l).

Definition max_streams_on (c : Ctl.t) (origin : key) : Z :=
  max_or 1 ((fun kj => max_streams_per_connection (transport (JobNode.policy kj.2))) <$>
              retain (fun kj => bool_decide (JobNode.origin kj.2 = origin)) (Ctl.jobs c)).

Definition run_window (origin : key) (now : Z) : M unit :=
  sweep_retired now ;;
  let! live := ask (fun c => ready_on c origin) in
  let! stall := ask (fun c => window_stall_fraction c origin) in
  upd (fun c => c <| Ctl.origin_state ::= fun m => sec_remove m origin |>) ;;
  let! measured := ask (fun c =>
    match Ctl.org c origin with
    | None => None
    | Some o => measure_window origin now (origin_verified_bytes c origin) stall (adaptive_ceiling c origin)
                  (WorldModel.has_multiplexed_ready_connection (Ctl.world c) origin) (handshake_sum c live)
                  (max_streams_on c origin) (Z.of_nat (length live)) o (remaining_known c origin) (has_work_on c origin)
    end) in
  match measured with
  | None => ret tt
  | Some (d, update) =>
      modify_origin origin update ;;
      emit (ScheduleTimer (now + ADAPTIVE_WINDOW) (AdaptiveTick origin)) ;;
      evaluate_experiment d origin now
  end.

Definition adaptive_tick (origin : key) (now : Z) : M unit :=
  let! node := ask (fun c => Ctl.org c origin) in
  match node with
  | None => ret tt
  | Some o =>
      if negb (OriginNode.adaptive_active o) || OriginNode.is_cooled_down o now then ret tt
      else
        let! active := ask (fun c => existsb (wants_connections origin) (Ctl.jobs c)) in
        if negb active then
          modify_origin origin (fun o =>
            (o <| OriginNode.adaptive_active := false |> <| OriginNode.topology_experiment := None |>)) ;;
          upd (fun c => c <| Ctl.origin_state ::= fun m => sec_remove m origin |>)
        else
          match OriginNode.experiment_cooldown_until o with
          | Some until =>
              if now <? until then emit (ScheduleTimer until (AdaptiveTick origin))
              else
                modify_origin origin (fun o => o <| OriginNode.experiment_cooldown_until := None |>) ;;
                run_window origin now
          | None => run_window origin now
          end
  end.

Definition start_adaptive (origin : key) (now : Z) : M unit :=
  let! node := ask (fun c => Ctl.org c origin) in
  match node with
  | None => ret tt
  | Some o =>
      when (negb (OriginNode.adaptive_active o))
        (modify_origin origin (fun o => (o <| OriginNode.adaptive_active := true |> <| OriginNode.last_window_at := now |>))) ;;
      upd (fun c => c <| Ctl.origin_last_invalidation ::= fun m => sec_remove m origin |>) ;;
      emit (ScheduleTimer (now + (ADAPTIVE_WINDOW + ADAPTIVE_RAMP)) (AdaptiveTick origin)) ;;
      emit (ScheduleTimer (now + REBALANCE_INTERVAL) (RebalanceTick origin))
  end.

(** ** The rebalance tick *)

(** The straggler cuts of one job, and the orders that carry them out. *)
Definition rebalance_job (now : Z) (k : key) : M unit :=
  let! plan := ask (fun c => match Ctl.job c k with Some j => JobNode.plan j | None => None end) in
  match plan with
  | None => ret tt
  | Some p =>
      let '(p', cuts) := SegmentPlan.rebalance_stragglers p now in
      modify_job k (fun j => j <| JobNode.plan := Some p' |>) ;;
      for_each cuts (fun cut =>
        match sm_get (SegmentPlan.assignments p') cut.1 with
        | Some a => match Assignment.connection a with
                    | Some conn => emit (TruncateAssignment k (mkAssignmentRef k cut.1) conn cut.2)
                    | None => ret tt
                    end
        | None => ret tt
        end)
  end.

(** One turn of the loop of [retry_pending_mirror_sample]. *)
Definition sample_mirror (k : key) (prefix : Z) (sampling : list key) (sid : key) : M unit :=
  if bool_decide (sid ∈ sampling) then ret tt
  else
    let! conn := ask (fun c => option_map fst (find (fun kc =>
      status_is (ConnectionNode.status kc.2) Ready && bool_decide (ConnectionNode.serving_source kc.2 = Some sid)) (Ctl.conns c))) in
    match conn with
    | None => ret tt
    | Some connection =>
        modify_job k (fun j => j <| JobNode.sampling_sources ::= fun l => l ++ [sid] |>) ;;
        emit (SampleMirror k sid connection (ByteRange.new (prefix -% SAMPLE_LEN) prefix))
    end.

Definition retry_pending_mirror_sample (k : key) : M unit :=
  let! node := ask (fun c => Ctl.job c k) in
  match node with
  | None => ret tt
  | Some j =>
      match JobNode.plan j with
      | None => ret tt
      | Some p =>
          let prefix := RangeSet.contiguous_prefix (SegmentPlan.completed p) in
          if prefix <? SAMPLE_LEN then ret tt
          else for_each (JobNode.probing_sources j) (sample_mirror k prefix (JobNode.sampling_sources j))
      end
  end.

(** One candidate job of the mirror mixing. *)
Definition mix_mirror (now : Z) (k : key) : M unit :=
  retry_pending_mirror_sample k ;;
  let! node := ask (fun c => Ctl.job c k) in
  match node with
  | None => ret tt
  | Some j =>
      match head (JobNode.unused_sources j) with
      | None => ret tt
      | Some sid =>
          if JobNode.bytes_remaining_estimate j <=? u64_sat_mul ADAPTIVE_MIN_REMAINING 4 then ret tt
          else
            let! src := ask (fun c => sm_get (WorldModel.sources (Ctl.world c)) sid) in
            match src with
            | None => ret tt
            | Some s =>
                let origin := src_origin s in
                let! cool := ask (fun c => Ctl.cooled_down c origin now) in
                if cool then ret tt
                else
                  modify_job k (fun j => j <| JobNode.probing_sources ::= fun l => l ++ [sid] |>) ;;
                  let! o := ask (fun c => Ctl.org c origin) in
                  match o with
                  | None => ret tt
                  | Some o =>
                      if bool_decide (OriginNode.endpoints o = [])
                      then emit (Resolve origin (ok_host (OriginNode.okey o)) (ok_port (OriginNode.okey o)))
                      else
                        let! ep := ask (fun c => Ctl.best_endpoint c origin now) in
                        match ep with
                        | None => ret tt
                        | Some e => dial_best clk origin e true (Some sid) now ;; ret tt
                        end
                  end
            end
      end
  end.

Definition mixable (kj : key * JobNode.t) : bool :=
  phase_is (JobNode.phase kj.2) Transferring && JobNode.strong_equivalence kj.2 &&
  (negb (bool_decide (JobNode.unused_sources kj.2 = [])) || negb (bool_decide (JobNode.probing_sources kj.2 = []))).

Definition rebalance_tick (origin : key) (now : Z) : M unit :=
  let! active := ask (fun c => existsb (transfers_on origin) (Ctl.jobs c)) in
  when active (emit (ScheduleTimer (now + REBALANCE_INTERVAL) (RebalanceTick origin))) ;;
  let! ids := ask (fun c => (retain (transfers_on origin) (Ctl.jobs c)).*1) in
  for_each ids (rebalance_job now) ;;
  let! headroom := ask (fun c => sm_len (WorldModel.connections (Ctl.world c)) <? Ctl.engine_max_connections c) in
  when headroom (let! candidates := ask (fun c => (retain mixable (Ctl.jobs c)).*1) in
                 for_each candidates (mix_mirror now)) ;;
  let! still := ask (fun c => existsb (transfers_on origin) (Ctl.jobs c)) in
  when still (pump clk origin now).
End adaptive.
