(* ===== verification/Handle.v ===== *)
(** * The observation handlers ([Controller::handle]).

    One definition per observation, composed by [handle]; a run is a sequence of
    admissions and observations. *)

From Stdlib Require Import String.
From S2P Require Import Prelude Ranges Float Rates Errors Text Representation Policy Spec SlotMap Timers Segment World Controller Lifecycle Adaptive.
Local Open Scope Z_scope.

Section handlers.
Context {L : SlotMapLib} {S : SecMapLib L} {W : WebLib}.
Context (exp : f64 -> f64).
Context (clk : Clock) (fuel : nat).

Abbreviation finish_job := (finish_job clk fuel).
Abbreviation begin_fail := (begin_fail clk fuel).
Abbreviation retry_resolve := (retry_resolve clk fuel).
Abbreviation ensure_probes := (ensure_probes clk fuel).
Abbreviation open_one_connection := (open_one_connection clk).
Abbreviation pump := (pump clk).
Abbreviation dispose_assignment := (handle_assignment_disposition clk fuel).

(** ** Admission and cancellation *)

(** The least virtual service among the transferring peers of an origin. *)
Definition min_peer_service (c : Ctl.t) (k origin : key) : f64 :=
  foldl f64_min f64_infinity ((fun kj => JobNode.virt_service kj.2) <$>
    retain (fun kj => negb (bool_decide (kj.1 = k)) && transfers_on origin kj) (Ctl.jobs c)).

Definition on_job_admitted (k : key) (spec : JobSpec (Url := Url)) (resume0 : option ResumeEvidence) (now : Z) : M unit :=
  let! origin0 := ask (fun c => default key_null (job_origin c k)) in
  let! peer := ask (fun c => min_peer_service c k origin0) in
  modify_job k (fun j =>
    let j1 := (j <| JobNode.integrity := js_integrity spec |> <| JobNode.resume := resume0 |>) in
    if f64_is_finite peer then j1 <| JobNode.virt_service := peer |> else j1) ;;
  bump_generation origin0 now ;;
  with_job_origin k (fun origin =>
    let! o := ask (fun c => Ctl.org c origin) in
    match o with
    | None => ret tt
    | Some o => if bool_decide (OriginNode.endpoints o = []) then emit (resolve_of origin o)
                else ensure_probes origin now
    end).

Definition on_job_cancelled (k : key) (now : Z) : M unit :=
  let! node := ask (fun c => Ctl.job c k) in
  match node with
  | None => ret tt
  | Some j =>
      if is_terminal (JobNode.phase j) then ret tt
      else
        modify_job k (fun j => (j <| JobNode.phase := Cancelling |>
                                  <| JobNode.pending_terminal := Some (inl CANCELLED_SENTINEL) |>)) ;;
        bump_generation (JobNode.origin j) now ;;
        try_complete_drain clk fuel k
  end.

(** ** Resolution *)

(** Mirror probes of an origin that were blocked on its resolution. *)
Definition pending_mirrors (c : Ctl.t) (origin : key) : list (key * key) :=
  retain (fun kj => phase_is (JobNode.phase kj.2) Transferring) (Ctl.jobs c) ≫= fun kj =>
    (fun sid => (kj.1, sid)) <$>
      retain (fun sid => match sm_get (WorldModel.sources (Ctl.world c)) sid with
                         | Some s => bool_decide (src_origin s = origin) | None => false end)
        (JobNode.probing_sources kj.2).

Definition dial_mirror (origin : key) (unreachable : bool) (now : Z) (m : key * key) : M unit :=
  if unreachable then modify_job m.1 (reject_mirror m.2)
  else
    let! ep := ask (fun c => Ctl.best_endpoint c origin now) in
    match ep with
    | None => ret tt
    | Some e => dial_best clk origin e true (Some m.2) now ;; ret tt
    end.

Definition on_resolved (origin : key) (addrs : list SocketAddr) (failed : bool) (records : list HttpsRecordInfo) (now : Z)
    : M unit :=
  let advertises := existsb (fun r => existsb (String.eqb "h3") (hr_alpn r)) records in
  modify_origin origin (fun o => o <| OriginNode.advertises_h3 ::= fun b => advertises || b |>) ;;
  let! noted := ask (fun c => WorldModel.note_endpoints clk origin addrs (Ctl.world c)) in
  let! noted := expect noted in
  upd (fun c => c <| Ctl.world := noted.1 |>) ;;
  let unreachable := failed || bool_decide (addrs = []) in
  let! waiting := ask (fun c => Ctl.waiting_probe_job c origin) in
  match waiting with
  | None =>
      let! pending := ask (fun c => pending_mirrors c origin) in
      for_each pending (dial_mirror origin unreachable now)
  | Some k =>
      if unreachable then retry_resolve k now
      else
        let! ep := ask (fun c => Ctl.best_endpoint c origin now) in
        match ep with
        | None => retry_resolve k now
        | Some e =>
            dial_best clk origin e true None now ;;
            emit (ScheduleTimer (now + CONNECT_STAGGER) (EndpointStagger origin 1)) ;;
            modify_job k (fun j => (j <| JobNode.phase := Probing |> <| JobNode.resolve_attempts := 0 |>)) ;;
            ensure_probes origin now
        end
  end.

(** ** Connections *)

(** [avg.mul_f32(0.7) + handshake.mul_f32(0.3)]: [None] is a panic. *)
Definition blend (avg handshake : Z) : option Z :=
  match mul_f32 avg (f32_lit 7 1), mul_f32 handshake (f32_lit 3 1) with
  | Some a, Some b => Some (a + b)
  | _, _ => None
  end.

Definition note_handshake (origin : key) (handshake : Z) : M unit :=
  let! avg := ask (fun c => default handshake (sec_get (Ctl.origin_avg_handshake c) origin)) in
  let! blended := expect (if avg =? 0 then Some handshake else blend avg handshake) in
  upd (fun c => c <| Ctl.origin_avg_handshake ::= fun m => sec_insert m origin blended |>).

Definition intent_job (i : ConnectionIntent) : option key :=
  match i with IntentProbe k _ | IntentMirror k _ => Some k | IntentPool _ => None end.

(** A dial that lost the race against [winner]: not one of another job. *)
Definition lost_race (winner_job : option key) (i : ConnectionIntent) : bool :=
  match winner_job, intent_job i with
  | Some w, Some k => bool_decide (k = w)
  | _, _ => true
  end.

Definition race_losers (c : Ctl.t) (connection : key) (n : ConnectionNode.t) : list key :=
  let had_ready := existsb (fun kc => bool_decide (ConnectionNode.origin kc.2 = ConnectionNode.origin n) &&
    status_is (ConnectionNode.status kc.2) Ready && negb (bool_decide (kc.1 = connection))) (Ctl.conns c) in
  if had_ready then []
  else (retain (fun kc => bool_decide (ConnectionNode.origin kc.2 = ConnectionNode.origin n) &&
          status_is (ConnectionNode.status kc.2) Connecting && negb (bool_decide (kc.1 = connection)) &&
          lost_race (intent_job (ConnectionNode.intent n)) (ConnectionNode.intent kc.2)) (Ctl.conns c)).*1.

Definition close_connection (k : key) : M unit := emit (CloseConnection k) ;; drop_connection k.

(** Sends the first probe of a job over a connection. *)
Definition probe_over (job connection : key) : M unit :=
  modify_job job (fun j => j <| JobNode.phase := Probing |>) ;;
  emit (Probe job connection None).

(** What a connection that is ready is used for. *)
Definition put_to_use (connection : key) (n : ConnectionNode.t) (now : Z) : M unit :=
  let origin := ConnectionNode.origin n in
  match ConnectionNode.serving_source n with
  | Some sid =>
      let! owner := ask (fun c => option_map fst (find (fun kj =>
        phase_is (JobNode.phase kj.2) Transferring && bool_decide (sid ∈ JobNode.sources kj.2)) (Ctl.jobs c))) in
      match owner with
      | Some job => emit (Probe job connection (Some sid))
      | None => close_connection connection
      end
  | None =>
      let! intended := ask (fun c =>
        match ConnectionNode.intent n with
        | IntentProbe k _ =>
            match Ctl.job c k with
            | Some j => if bool_decide (JobNode.origin j = origin) &&
                           (phase_is (JobNode.phase j) Created || phase_is (JobNode.phase j) Probing) then Some k else None
            | None => None
            end
        | _ => None
        end) in
      match intended with
      | Some job => probe_over job connection
      | None =>
          let! waiting := ask (fun c => Ctl.waiting_probe_job c origin) in
          match waiting with
          | Some job => probe_over job connection
          | None => ensure_probes origin now ;; pump origin now
          end
      end
  end.

Definition on_connection_ready (connection : key) (handshake : Z) (protocol : Protocol) (now : Z) : M unit :=
  modify_connection connection (fun n => (n <| ConnectionNode.status := Ready |> <| ConnectionNode.protocol := protocol |>)) ;;
  let! node := ask (fun c => Ctl.conn c connection) in
  match node with
  | None => ret tt
  | Some n =>
      note_handshake (ConnectionNode.origin n) handshake ;;
      upd (fun c => c <| Ctl.world ::= WorldModel.clear_endpoint_failures connection |>) ;;
      when (bool_decide (protocol = Http3))
        (modify_origin (ConnectionNode.origin n) (fun o =>
           (o <| OriginNode.h3_failures := 0 |> <| OriginNode.h3_retry_after := None |>))) ;;
      let! losers := ask (fun c => race_losers c connection n) in
      for_each losers close_connection ;;
      let! prev := ask (fun c => sm_get (WorldModel.endpoints (Ctl.world c)) (ConnectionNode.endpoint n)) in
      match prev with
      | Some e =>
          let! next := expect (match handshake_ewma e with Some p => blend p handshake | None => Some handshake end) in
          upd (fun c => c <| Ctl.world ::= WorldModel.modify_endpoint (ConnectionNode.endpoint n)
                 (fun e => e <| handshake_ewma := Some next |>) |>)
      | None => ret tt
      end ;;
      put_to_use connection n now
  end.

(** A failed HTTP/3 dial backs the origin off: 30 s doubled per failure. *)
Definition note_h3_failure (now : Z) (o : OriginNode.t) : OriginNode.t :=
  let n := u32_add (OriginNode.h3_failures o) 1 in
  (o <| OriginNode.h3_failures := n |>
     <| OriginNode.h3_retry_after := Some (now + from_secs (u64_sat_mul 30 (Z.shiftl 1 (Z.min n 5)))) |>).

Definition probing_on (c : Ctl.t) (origin : key) : list key :=
  (retain (fun kj => bool_decide (JobNode.origin kj.2 = origin) && phase_is (JobNode.phase kj.2) Probing) (Ctl.jobs c)).*1.

Definition on_connection_failed (connection : key) (kind0 : ConnectFailure) (now : Z) : M unit :=
  let! node := ask (fun c => Ctl.conn c connection) in
  let was_h3 := match node with Some n => ConnectionNode.prefer_h3 n | None => false end in
  match node with
  | Some n => when was_h3 (modify_origin (ConnectionNode.origin n) (note_h3_failure now))
  | None => ret tt
  end ;;
  upd (fun c => c <| Ctl.world ::= WorldModel.note_endpoint_failure connection |>) ;;
  match node with Some n => bump_generation (ConnectionNode.origin n) now | None => ret tt end ;;
  drop_connection connection ;;
  match node with
  | None => ret tt
  | Some n =>
      let origin := ConnectionNode.origin n in
      let! ready := ask (fun c => WorldModel.has_ready_connection (Ctl.world c) origin) in
      let fallback := was_h3 && negb ready in
      when fallback (open_one_connection origin now false) ;;
      match ConnectionNode.intent n with
      | IntentProbe job source =>
          if fallback then ret tt
          else on_intent_connect_failed clk fuel job (Some source) kind0 (Some origin) now
      | IntentMirror job source => modify_job job (reject_mirror source)
      | IntentPool pool =>
          if negb (retryable kind0) then
            let! jobs := ask (fun c => probing_on c pool) in
            for_each jobs (fun k => begin_fail k "connection failed: tls")
          else open_one_connection pool now true
      end
  end.

(** ** Commands that never reached their shard *)

Definition for_jobs_on (origin : key) (f : key * JobNode.t -> bool) (g : key -> M unit) : M unit :=
  let! ids := ask (fun c => (retain (fun kj => bool_decide (JobNode.origin kj.2 = origin) && f kj) (Ctl.jobs c)).*1) in
  for_each ids g.

Definition roll_back (operation : DispatchOperation) (k : option key) (assignment : option AssignmentRef)
    (connection origin : option key) (now : Z) : M unit :=
  match operation with
  | OpStartAssignment | OpStartFullBody =>
      match assignment with
      | Some a =>
          upd (Ctl.release_assignment_slot connection) ;;
          dispose_assignment (ar_job a) (Some (ar_assignment a)) (ByteRange.new 0 0)
            (RetrySameRange (Some 0) "assignment dispatch failed") 0 connection now
      | None => ret tt
      end
  | OpTruncateAssignment =>
      match k with
      | Some k => begin_fail k "failed to stop an assignment during range rebalancing"
      | None => ret tt
      end
  | OpProbe | OpOpenConnection =>
      match connection, k, origin with
      | Some conn, _, _ =>
          let! node := ask (fun c => Ctl.conn c conn) in
          drop_connection conn ;;
          match option_map ConnectionNode.intent node with
          | Some (IntentProbe job _) => retry_resolve job now
          | Some (IntentMirror job source) => modify_job job (reject_mirror source)
          | _ => ret tt
          end
      | None, Some k, _ => retry_resolve k now
      | None, None, Some o => for_jobs_on o (fun kj => phase_is (JobNode.phase kj.2) Probing) (fun k => retry_resolve k now)
      | None, None, None => ret tt
      end
  | OpResolve =>
      match origin with
      | Some o => for_jobs_on o (fun kj => negb (is_terminal (JobNode.phase kj.2))) (fun k => retry_resolve k now)
      | None => ret tt
      end
  | OpSampleMirror => ret tt
  | OpCloseConnection | OpAttachDestination | OpCloseLane | OpCommitDestination =>
      match k with Some k => begin_fail k "state-changing command dispatch failed" | None => ret tt end
  end.

Definition on_dispatch_failed (operation : DispatchOperation) (k : option key) (assignment : option AssignmentRef)
    (connection origin : option key) (now : Z) : M unit :=
  roll_back operation k assignment connection origin now ;;
  match WorldModel.option_or k (option_map ar_job assignment) with
  | Some k => with_job_origin k (fun o => pump o now)
  | None => ret tt
  end.

(** ** Probes *)

Definition agree {A} `{EqDecision A} (a b : option A) : bool :=
  match a, b with
  | Some x, Some y => bool_decide (x = y)
  | None, None => true
  | _, _ => false
  end.

(** A mirror verification probe: length and range support must agree before the
    mirror is asked to reproduce verified bytes. *)
Definition on_mirror_probed (k connection source : key) (j : JobNode.t) (ranges : bool) (total : option Z) (reusable : bool)
    : M unit :=
  let agrees := match total, JobNode.total_length j with Some a, Some b => a =? b | _, _ => false end in
  modify_job k (fun j => j <| JobNode.probing_sources ::= retain (fun s => negb (bool_decide (s = source))) |>) ;;
  if negb agrees || negb ranges then
    modify_job k (fun j => j <| JobNode.failed_sources ::= fun l => l ++ [source] |>) ;;
    emit (ReportSourceQuarantined k [source]
            (if ranges then "length mismatch across mirrors" else "mirror lacks range support")) ;;
    when (negb reusable) (close_connection connection)
  else
    let prefix := match JobNode.plan j with
                  | Some p => RangeSet.contiguous_prefix (SegmentPlan.completed p) | None => 0 end in
    modify_job k (fun j => j <| JobNode.probing_sources ::= fun l => l ++ [source] |>) ;;
    when (negb (prefix =? 0))
      (emit (SampleMirror k source connection (ByteRange.new (u64_sat_sub prefix SAMPLE_LEN) prefix))).

(** The evidence of an earlier run against what the server says now. *)
Record ResumeVerdict := mkVerdict { rv_url_ok : bool; rv_length_agrees : bool; rv_validators_ok : bool; rv_strong : bool }.

Definition strong_etag (etag : option string) : bool :=
  match etag with
  | Some e => starts_with (String (Ascii.ascii_of_nat 34) EmptyString) e && negb (starts_with "W/" e)
  | None => false
  end.

Definition judge_resume (r : ResumeEvidence) (chain : list string) (total : option Z) (etag : option string)
    (last_modified : option Z) : ResumeVerdict :=
  let url_ok := match last (re_urls r) with
                | Some u => bool_decide (last chain = Some u) | None => false end in
  let length_agrees := match re_total r, total with
                       | Some a, Some b => a =? b
                       | None, _ => true
                       | _, _ => false
                       end in
  let strong := strong_etag etag in
  let etag_agrees := agree (re_etag r) etag in
  let validators_ok := if strong then etag_agrees else etag_agrees && agree (re_last_modified r) last_modified in
  mkVerdict url_ok length_agrees validators_ok strong.

Definition trusts_journal (v : ResumeVerdict) (i : IntegritySpec) : bool :=
  rv_url_ok v && rv_length_agrees v && rv_validators_ok v && (rv_strong v || negb (verify_on_resume i)).

(** Weak evidence whose bytes stay on disk, to be confirmed by overlap. *)
Definition keeps_bytes (v : ResumeVerdict) (i : IntegritySpec) : bool :=
  rv_url_ok v && rv_length_agrees v && rv_validators_ok v && verify_on_resume i.

(** The loop over the durable ranges. *)
Definition seed_step (total : option Z) (acc : RangeSet.t * Z) (r : ByteRange.t) : RangeSet.t * Z :=
  if match total with Some t => ByteRange.end_ r <=? t | None => true end
  then (RangeSet.insert acc.1 r, acc.2 +% ByteRange.len r) else acc.

(** What of an earlier run is kept: the seed, its size, and whether the journal
    is wiped. *)
Definition seed_from (resume0 : option ResumeEvidence) (chain : list string) (i : IntegritySpec) (total : option Z)
    (etag : option string) (last_modified : option Z) : RangeSet.t * Z * bool :=
  match resume0 with
  | None => (RangeSet.empty, 0, false)
  | Some r =>
      let v := judge_resume r chain total etag last_modified in
      if trusts_journal v i then (foldl (seed_step total) (RangeSet.empty, 0) (RangeSet.iter (re_durable r)), false)
      else (RangeSet.empty, 0, negb (keeps_bytes v i))
  end.

Definition plan_from_probe (j : JobNode.t) (seeded : RangeSet.t) (ranges : bool) : SegmentPlan.t :=
  let p0 := SegmentPlan.new (JobNode.total_length j) seeded (segmentation (JobNode.policy j))
              (piece_duration_target (JobNode.urgency j)) (overlap_bytes (JobNode.integrity j)) in
  let p1 := if negb ranges || negb (supports_segmentation (JobNode.sink_caps j))
            then SegmentPlan.set_single_stream p0 true else p0 in
  SegmentPlan.clamp_max_piece p1 (h_max_operation_bytes (JobNode.sink_hints j)).

(** The job after the answer to its own probe. *)
Definition probed_job (j : JobNode.t) (ranges : bool) (total : option Z) (etag : option string) (last_modified : option Z)
    : JobNode.t * bool :=
  let j1 := (j <| JobNode.supports_ranges := ranges |>
               <| JobNode.total_length ::= fun old => WorldModel.option_or total old |>
               <| JobNode.fingerprint_etag := etag |>
               <| JobNode.fingerprint_last_modified := last_modified |>
               <| JobNode.rep_lock ::= fun l => (RepresentationLock.validate l etag None total).1 |>) in
  let '(seeded, resumed, wipe) := seed_from (JobNode.resume j) (JobNode.redirect_chain j) (JobNode.integrity j)
                                    total etag last_modified in
  let j2 := (j1 <| JobNode.resume := None |> <| JobNode.resumed_bytes := resumed |>) in
  ((j2 <| JobNode.plan := Some (plan_from_probe j2 seeded ranges) |> <| JobNode.phase := Transferring |>), wipe).

(** A job whose plan is complete goes on to its commit. *)
Definition commit_job (k : key) (len : Z) (j : JobNode.t) : M unit :=
  modify_job k (fun j => j <| JobNode.phase := Committing |>) ;;
  emit (CommitDestination k len (digest_check (JobNode.integrity j))).

Definition discover_h3 (origin : key) (now : Z) : M unit :=
  let! has_h3 := ask (fun c => existsb (fun kc => bool_decide (ConnectionNode.origin kc.2 = origin) &&
    (ConnectionNode.prefer_h3 kc.2 || bool_decide (ConnectionNode.protocol kc.2 = Http3))) (Ctl.conns c)) in
  if has_h3 then ret tt
  else
    let! ep := ask (fun c => Ctl.best_endpoint c origin now) in
    match ep with
    | None => ret tt
    | Some e => dial_best clk origin e true None now ;; ret tt
    end.

(** What follows once the job has its plan: the origin is scaled to the job's
    policy, and work is claimed, or committed when nothing is left of it. *)
Definition open_for_transfer (k connection : key) (j j' : JobNode.t) (reusable : bool) (alt_svc_h3 : option Z) (now : Z)
    : M unit :=
  let origin := JobNode.origin j in
  let policy := JobNode.policy j in
  let init_conns := Z.max (initial_physical_connections policy) 1 in
  let init_streams := Z.min (Z.max (initial_streams_per_connection policy) 1) (max_streams_per_connection (transport policy)) in
  upd (fun c => c <| Ctl.origin_admission ::= fun m => sec_insert m origin now |>) ;;
  modify_origin origin (fun o => (o <| OriginNode.adaptive_target_conns ::= fun n => Z.max n init_conns |>
                                    <| OriginNode.adaptive_target_streams ::= fun n => Z.max n init_streams |>)) ;;
  when (negb reusable) (close_connection connection) ;;
  when (bool_decide (is_Some alt_svc_h3)) (discover_h3 origin now) ;;
  scale_connections clk (Some origin) now ;;
  ensure_probes origin now ;;
  start_adaptive origin now ;;
  if match JobNode.plan j' with Some p => SegmentPlan.is_complete p | None => false end then
    let! node := ask (fun c => Ctl.job c k) in
    match node with
    | Some j'' =>
        let len := default 0 (WorldModel.option_or
          (match JobNode.plan j'' with Some p => SegmentPlan.total p | None => None end) (JobNode.total_length j'')) in
        commit_job k len j''
    | None => ret tt
    end
  else pump origin now.

Definition on_job_probed (k connection : key) (j : JobNode.t) (ranges : bool) (total : option Z) (etag : option string)
    (last_modified : option Z) (reusable : bool) (alt_svc_h3 : option Z) (now : Z) : M unit :=
  let origin := JobNode.origin j in
  match alt_svc_h3 with
  | Some port => modify_origin origin (fun o => (o <| OriginNode.advertises_h3 := true |>
                                                   <| OriginNode.h3_alt_port := Some port |>))
  | None => ret tt
  end ;;
  let '(j', wipe) := probed_job j ranges total etag last_modified in
  when wipe (emit (ResetResumeData k)) ;;
  modify_job k (fun _ => j') ;;
  open_for_transfer k connection j j' reusable alt_svc_h3 now.

Definition on_probed (k connection source : key) (ranges : bool) (total : option Z) (etag : option string)
    (last_modified : option Z) (reusable : bool) (alt_svc_h3 : option Z) (now : Z) : M unit :=
  let! node := ask (fun c => Ctl.job c k) in
  match node with
  | None => ret tt
  | Some j =>
      if bool_decide (source ∈ JobNode.probing_sources j)
      then on_mirror_probed k connection source j ranges total reusable
      else on_job_probed k connection j ranges total etag last_modified reusable alt_svc_h3 now
  end.

Definition probe_disposition (f : ProbeFailure) : Disposition :=
  match pf_kind f with
  | PfCredentials => RefreshCredentials (pf_status f)
  | PfRateLimited after => BackOffOrigin after "probe rate limited"
  | PfTransport => RetrySameRange None "probe failed"
  end.

Definition on_probe_failed (k connection source : key) (failure : ProbeFailure) (state0 : ConnectionState) (now : Z) : M unit :=
  let! mirror := ask (fun c => match Ctl.job c k with
                               | Some j => bool_decide (source ∈ JobNode.probing_sources j) | None => false end) in
  if mirror then modify_job k (reject_mirror source)
  else
    match state0 with
    | StatePoisoned | StateGone => close_connection connection
    | StateReusable => ret tt
    end ;;
    dispose_assignment k None (ByteRange.new 0 0) (probe_disposition failure) 0 (Some connection) now.

Definition on_mirror_sampled (k source connection : key) (matches reusable : bool) (now : Z) : M unit :=
  let! node := ask (fun c => Ctl.job c k) in
  match node with
  | None => ret tt
  | Some j =>
      modify_job k (fun j =>
        (j <| JobNode.probing_sources ::= retain (fun s => negb (bool_decide (s = source))) |>
           <| JobNode.sampling_sources ::= retain (fun s => negb (bool_decide (s = source))) |>)) ;;
      if negb matches then
        modify_job k (fun j => j <| JobNode.failed_sources ::= fun l => l ++ [source] |>) ;;
        emit (ReportSourceQuarantined k [source] "mirror bytes disagreed with verified artifact window") ;;
        when (negb reusable) (close_connection connection)
      else
        modify_job k (fun j => j <| JobNode.active_sources ::= fun l =>
          if bool_decide (source ∈ l) then l else l ++ [source] |>) ;;
        let! node := ask (fun c => Ctl.conn c connection) in
        match node with Some n => pump (ConnectionNode.origin n) now | None => ret tt end
  end.

(** ** Assignments *)

Definition account_service (k : key) (sample : TransferSample.t) (now : Z) : M unit :=
  modify_job k (fun j => j <| JobNode.virt_service ::= fun v =>
    f64_add v (f64_div (f64_of_Z (TransferSample.bytes sample)) (f64_max (eff_weight j now) (f64_lit 1 9))) |>).

(** Stall evidence and the live receive rate of the connection. *)
Definition note_stall (origin : key) (sample : TransferSample.t) (c : Ctl.t) : Ctl.t :=
  let blocked := TransferSample.memory_blocked sample + TransferSample.destination_blocked sample in
  let wall := TransferSample.response_wall sample in
  match sec_get (Ctl.origin_state c) origin with
  | Some (b, w) => c <| Ctl.origin_state ::= fun m => sec_set m origin (b + blocked, w + wall) |>
  | None => c <| Ctl.origin_state ::= fun m => sec_insert m origin (blocked, wall) |>
  end.

(** [connection_state.insert(..); connection_state.get_mut(..).unwrap()]. *)
Definition note_rate (connection : key) (sample : TransferSample.t) : M unit :=
  if f64_ltb (TransferSample.stall_fraction sample) f64_half then
    upd (fun c => match sec_get (Ctl.connection_state c) connection with
                  | Some _ => c
                  | None => c <| Ctl.connection_state ::= fun m => sec_insert m connection Runtime_default |>
                  end) ;;
    let! entry := ask (fun c => sec_get (Ctl.connection_state c) connection) in
    let! entry := expect entry in
    let e := default (EwmaWithVariance.new (from_secs 4)) (ewma entry) in
    let e' := EwmaWithVariance.observe exp e (TransferSample.receive_rate sample) (TransferSample.response_wall sample) in
    upd (fun c => c <| Ctl.connection_state ::= fun m => sec_set m connection (entry <| ewma := Some e' |>) |>)
  else ret tt.

Definition finish_assignment (assign : key) (range : ByteRange.t) (p : SegmentPlan.t) : SegmentPlan.t :=
  snd (SegmentPlan.finish_verified (SegmentPlan.on_response_verified p assign range) assign).

Definition verify_assignment (k assign : key) (range : ByteRange.t) : M unit :=
  let! node := ask (fun c => Ctl.job c k) in
  match node with
  | None => ret tt
  | Some j =>
      match JobNode.plan j with
      | None => ret tt
      | Some p =>
          let p' := finish_assignment assign range p in
          modify_job k (fun j => j <| JobNode.plan := Some p' |>) ;;
          if SegmentPlan.is_complete p'
          then commit_job k (default (SegmentPlan.bytes_done p') (SegmentPlan.total p')) j
          else ret tt
      end
  end.

Definition close_if_spent (connection : key) (reusable : bool) : M unit :=
  let! spent := ask (fun c =>
    match Ctl.conn c connection with
    | Some n => bool_decide (ConnectionNode.protocol n = Http1_1) && negb reusable
    | None => false
    end || Ctl.retired_and_drained c connection) in
  when spent (close_connection connection ;;
              upd (fun c => c <| Ctl.connection_state ::= fun m => sec_remove m connection |>)).

Definition on_assignment_verified (k : key) (assignment : AssignmentRef) (range : ByteRange.t) (sample : TransferSample.t)
    (connection : key) (reusable : bool) (now : Z) : M unit :=
  upd (Ctl.release_assignment_slot (Some connection)) ;;
  let! node := ask (fun c => Ctl.conn c connection) in
  match node with
  | Some n =>
      upd (bump_verified (ConnectionNode.origin n) (TransferSample.bytes sample)) ;;
      account_service k sample now ;;
      upd (note_stall (ConnectionNode.origin n) sample)
  | None => ret tt
  end ;;
  note_rate connection sample ;;
  upd (fun c => c <| Ctl.world ::= WorldModel.note_endpoint_sample connection sample now |>) ;;
  close_if_spent connection reusable ;;
  verify_assignment k (ar_assignment assignment) range ;;
  let! node := ask (fun c => Ctl.job c k) in
  match node with
  | None => ret tt
  | Some j =>
      if is_draining (JobNode.phase j) then try_complete_drain clk fuel k
      else
        consider_early_connection_scale clk (JobNode.origin j) now sample ;;
        when (match JobNode.plan j with Some p => SegmentPlan.admits_worker p (instant clk) | None => false end)
          (scale_connections clk (Some (JobNode.origin j)) now ;; pump (JobNode.origin j) now)
  end.

Definition on_assignment_failed (k : key) (assignment : AssignmentRef) (attempt : Z) (d : Disposition)
    (connection : option key) (state0 : ConnectionState) (now : Z) : M unit :=
  upd (Ctl.release_assignment_slot connection) ;;
  match state0, connection with
  | StatePoisoned, Some conn | StateGone, Some conn => close_connection conn
  | _, _ => ret tt
  end ;;
  dispose_assignment k (Some (ar_assignment assignment)) (ByteRange.new 0 0) d attempt connection now ;;
  let! origins := ask (fun c => match Ctl.job c k with
    | Some j => omap (fun sid => option_map src_origin (sm_get (WorldModel.sources (Ctl.world c)) sid)) (JobNode.active_sources j)
    | None => [] end) in
  for_each origins (fun o => scale_connections clk (Some o) now ;; pump o now).

(** ** Destinations, limits, credentials *)

Definition destination_message (f : DestinationFailureKind) : string :=
  match f with
  | DfDigestMismatch => "integrity verification failed; artifact not published"
  | DfNoSpace => "destination has no space left"
  | DfDestinationError => "destination failed during commit"
  end.

Definition on_rate_limited (origin : key) (retry_after : option Z) (now : Z) : M unit :=
  let delay := default (from_secs 5) retry_after in
  modify_origin origin (fun o => o <| OriginNode.cooldown_until := Some (now + delay) |>) ;;
  bump_generation origin now ;;
  emit (ScheduleTimer (now + delay) (OriginCooldownExpired origin)).

Definition refresh_source (new_url : option string) (new_headers : option (list (string * HeaderValue))) (s : SourceNode)
    : SourceNode :=
  let u := default (src_url s) new_url in
  let h := default (src_headers s) new_headers in
  (s <| src_url := u |> <| src_headers := h |>
     <| src_header_identity := fingerprint_of url_as_str blake3 (default url_invalid (url_parse u)) (plain h) |>).

Definition on_source_refreshed (k : key) (new_url : option string) (new_headers : option (list (string * HeaderValue)))
    (now : Z) : M unit :=
  modify_job k (fun j => j <| JobNode.refresh_attempts ::= fun n => u32_add n 1 |>) ;;
  let! node := ask (fun c => Ctl.job c k) in
  match node with
  | None => ret tt
  | Some j =>
      match JobNode.active_source j with
      | None => ret tt
      | Some sid =>
          upd (fun c => c <| Ctl.world ::= WorldModel.modify_source sid (refresh_source new_url new_headers) |>) ;;
          modify_job k (fun j => j <| JobNode.phase := Probing |>) ;;
          bump_generation (JobNode.origin j) now ;;
          open_one_connection (JobNode.origin j) now true
      end
  end.

(** ** Timers *)

Definition on_retry_ready (k : key) (now : Z) : M unit :=
  modify_job k (fun j => j <| JobNode.plan ::= option_map (fun p => snd (SegmentPlan.release_due p now)) |>) ;;
  with_job_origin k (fun o =>
    let! dark := ask (fun c => negb (Ctl.cooled_down c o now) && negb (WorldModel.has_ready_connection (Ctl.world c) o)) in
    when dark (open_one_connection o now true) ;;
    pump o now).

Definition on_cooldown_expired (origin : key) (now : Z) : M unit :=
  modify_origin origin (fun o => o <| OriginNode.cooldown_until := None |>) ;;
  bump_generation origin now ;;
  ensure_probes origin now ;;
  let! dark := ask (fun c => bool_decide (is_Some (Ctl.waiting_probe_job c origin)) &&
                             negb (WorldModel.has_ready_connection (Ctl.world c) origin)) in
  when dark (open_one_connection origin now true) ;;
  pump origin now.

Definition on_drain_connection (connection : key) (now : Z) : M unit :=
  let! drained := ask (fun c => Ctl.retired_and_drained c connection) in
  if drained : bool then
    close_connection connection ;;
    upd (fun c => c <| Ctl.connection_state ::= fun m => sec_remove m connection |>)
  else
    let! retired := ask (fun c => match Ctl.conn c connection with
                                  | Some n => status_is (ConnectionNode.status n) Retired | None => false end) in
    when retired (emit (ScheduleTimer (now + DRAIN_POLL) (DrainConnection connection))).

Definition on_endpoint_stagger (origin : key) (rank now : Z) : M unit :=
  let! stop := ask (fun c => WorldModel.has_ready_connection (Ctl.world c) origin || Ctl.cooled_down c origin now) in
  if stop then ret tt
  else
    let! ranked := ask (fun c => WorldModel.ranked_endpoints (Ctl.world c) origin now None) in
    match ranked !! Z.to_nat rank with
    | None => ret tt
    | Some e =>
        dial_best clk origin e false None now ;;
        when (rank + 1 <? Z.of_nat (length ranked))
          (emit (ScheduleTimer (now + CONNECT_STAGGER) (EndpointStagger origin (rank + 1))))
    end.

Definition on_timer (e : TimerEvent) (now : Z) : M unit :=
  match e with
  | JobDeadline k => finish_job k (inl DEADLINE_SENTINEL)
  | RetryReady a _ _ => on_retry_ready (ar_job a) now
  | ResolveRetry origin host port => emit (Resolve origin host port)
  | OriginCooldownExpired origin => on_cooldown_expired origin now
  | CheckpointDue _ => ret tt
  | AdaptiveTick origin => adaptive_tick clk origin now
  | RebalanceTick origin => rebalance_tick clk origin now
  | DrainConnection connection => on_drain_connection connection now
  | EndpointStagger origin rank => on_endpoint_stagger origin rank now
  end.

(** ** The dispatcher *)

Definition handle_m (obs : Observation) (now : Z) : M unit :=
  match obs with
  | JobAdmitted k spec resume0 => on_job_admitted k spec resume0 now
  | JobCancelled k => on_job_cancelled k now
  | Resolved origin addrs failed records _ => on_resolved origin addrs failed records now
  | ConnectionReady connection handshake protocol => on_connection_ready connection handshake protocol now
  | ConnectionFailed connection kind0 => on_connection_failed connection kind0 now
  | ConnectionGone connection => drop_connection connection
  | DispatchFailed operation k assignment connection origin => on_dispatch_failed operation k assignment connection origin now
  | Probed k connection source ranges total etag last_modified reusable alt =>
      on_probed k connection source ranges total etag last_modified reusable alt now
  | ProbeRedirected k connection status location =>
      handle_probe_redirect clk fuel k connection status location now
  | MirrorSampled k source connection matches reusable => on_mirror_sampled k source connection matches reusable now
  | ProbeFailed k connection source failure state0 => on_probe_failed k connection source failure state0 now
  | AssignmentVerified k assignment range sample connection reusable =>
      on_assignment_verified k assignment range sample connection reusable now
  | AssignmentFailed k assignment attempt d connection state0 _ =>
      on_assignment_failed k assignment attempt d connection state0 now
  | DestinationCommitted k len digest => finish_job k (inr (len, digest))
  | DestinationFailed k failure => finish_job k (inl (destination_message failure))
  | OriginRateLimited origin retry_after => on_rate_limited origin retry_after now
  | TimerExpired event => on_timer event now
  | SourceRefreshed k new_url new_headers => on_source_refreshed k new_url new_headers now
  | CredentialRefreshFailed k status =>
      finish_job k (inl ("credentials rejected (" +:+ show_u64 status +:+ ") and refresh failed")%string)
  end.

(** The new state and the actions, in the order they were pushed. *)
Definition handle (obs : Observation) (now : Z) (c : Ctl.t) : outcome (Ctl.t * list Action) :=
  match handle_m obs now (mkMachine c []) with
  | Done (_, s) => Done (ctl s, acts s)
  | Panicked => Panicked
  | OutOfFuel => OutOfFuel
  end.
End handlers.
