(* ===== verification/Protocol.v ===== *)
(** * The protocol of the controller.

    What a controller promises, independent of how an observation is handled:
    the invariant [ok] of its tables, jobs and counters, and the elementary
    steps [micro] that may change them, each with the orders it gives. [Refine]
    proves that every handler is a sequence of such steps. *)

From Stdlib Require Import String.
From S2P Require Import Prelude Ranges Float Rates Errors Representation Policy Spec SlotMap Timers Segment PlanFrame World Controller Lifecycle Handle.
Local Open Scope Z_scope.

Section protocol.
Context {L : SlotMapLib} {HL : SlotMapLaws L} {S : SecMapLib L} {W : WebLib}.
Import WorldModel.

(** ** The invariant *)

(** *** Tables *)

(** One node per key, in both indices. *)
Definition destinations_indexed (w : t) : Prop := forall s i,
  destination_index w !! s = Some i <-> exists d, sm_get (destinations w) i = Some d /\ d_key d = s.
Definition origins_indexed (w : t) : Prop := forall s i,
  origin_index w !! s = Some i <-> exists o, sm_get (origins w) i = Some o /\ OriginNode.okey o = s.

(** A job has a node under its own key, its destination leased to it, its
    artifact and its sources; a lease belongs to a job of that destination. *)
Record jobs_linked (w : t) : Prop := {
  jl_job : forall k j, sm_get (jobs w) k = Some j ->
    JobNode.id j = k /\
    (exists d, sm_get (destinations w) (JobNode.destination j) = Some d /\ leased_by d = Some k) /\
    is_Some (sm_get (artifacts w) (JobNode.artifact j)) /\
    Forall (fun s => is_Some (sm_get (sources w) s)) (JobNode.sources j);
  jl_lease : forall i d k, sm_get (destinations w) i = Some d -> leased_by d = Some k ->
    exists j, sm_get (jobs w) k = Some j /\ JobNode.destination j = i;
  jl_dests : destinations_indexed w }.

(** The connections of an origin are those its list holds, once each. *)
Record conns_linked (w : t) : Prop := {
  cl_conn : forall k n, sm_get (connections w) k = Some n ->
    ConnectionNode.id n = k /\
    exists o, sm_get (origins w) (ConnectionNode.origin n) = Some o /\ k ∈ OriginNode.connections o;
  cl_list : forall i o, sm_get (origins w) i = Some o ->
    NoDup (OriginNode.connections o) /\
    forall k, k ∈ OriginNode.connections o -> exists n, sm_get (connections w) k = Some n /\ ConnectionNode.origin n = i }.

Record tables_ok (w : t) : Prop := {
  to_jobs : jobs_linked w;
  to_conns : conns_linked w;
  to_origins : origins_indexed w }.

(** *** Jobs *)

Record job_ok (j : JobNode.t) : Prop := {
  jk_phase : is_terminal (JobNode.phase j) = false;
  jk_total : in_u64 (default u64_max (JobNode.total_length j));
  jk_plan : forall p, JobNode.plan j = Some p -> fits p /\ SegmentPlan.total p = JobNode.total_length j;
  jk_commit : JobNode.phase j = Committing ->
    exists p, JobNode.plan j = Some p /\ SegmentPlan.is_complete p = true;
  jk_resume : forall r, JobNode.resume j = Some r -> RangeSet.wf (re_durable r) /\ JobNode.total_length j = None }.

(** *** Counters *)

Record counts_ok (c : Ctl.t) : Prop := {
  ct_max : in_u64 (Ctl.engine_max_active_assignments c);
  ct_active : 0 <= Ctl.active_assignment_count c <= Ctl.engine_max_active_assignments c;
  ct_jobs : sm_len (jobs (Ctl.world c)) <= Ctl.engine_max_jobs c }.

Record ok (c : Ctl.t) : Prop := {
  ok_tables : tables_ok (Ctl.world c);
  ok_jobs : forall k j, Ctl.job c k = Some j -> job_ok j;
  ok_counts : counts_ok c }.

(** ** Orders *)

Definition live (c : Ctl.t) (k : key) : Prop := is_Some (Ctl.job c k).

(** The job that an action ends, and the job that it orders work for. *)
Definition ends (a : Action) : option key :=
  match a with FailJob k _ | CompleteJob k _ _ _ => Some k | _ => None end.

Definition orders (a : Action) : option key :=
  match a with
  | Probe k _ _ | SampleMirror k _ _ _ | ResetResumeData k | ReportSourceQuarantined k _ _ | TruncateAssignment k _ _ _
  | StartAssignment k _ _ _ _ _ | StartFullBody k _ _ _ | CommitDestination k _ _ => Some k
  | _ => None
  end.

(** The job that an action names, and the actions that may name a job that has
    ended: how a failed assignment is disposed of is decided before the drain
    of its job is completed, and carried out after it. *)
Definition names (a : Action) : option key :=
  match a with
  | RequestCredentialRefresh k _ _ _ | DiscardDestination k => Some k
  | ScheduleTimer _ (RetryReady r _ _) => Some (ar_job r)
  | ScheduleTimer _ (JobDeadline k) | ScheduleTimer _ (CheckpointDue k) => Some k
  | FailJob k _ | CompleteJob k _ _ _ => Some k
  | _ => orders a
  end.

Definition leftover (a : Action) : bool :=
  match a with
  | RequestCredentialRefresh _ _ _ _ | DiscardDestination _ | ScheduleTimer _ (RetryReady _ _ _) => true
  | _ => false
  end.

Definition accounted (a : Action) : Prop := leftover a = false -> names a = match ends a with Some k => Some k | None => orders a end.

Definition starts (a : Action) : bool :=
  match a with StartAssignment _ _ _ _ _ _ | StartFullBody _ _ _ _ => true | _ => false end.
Definition commits (a : Action) : bool := match a with CommitDestination _ _ _ => true | _ => false end.
Definition opens (a : Action) : bool := match a with OpenConnection _ _ _ _ _ _ => true | _ => false end.

(** An action that no rule of the protocol guards, except that it is not given
    for a job that does not exist. *)
Definition quiet (c : Ctl.t) (a : Action) : Prop :=
  ends a = None /\ starts a = false /\ commits a = false /\ opens a = false /\
  accounted a /\ forall k, orders a = Some k -> live c k.

(** ** Steps of a job *)

Record job_frame (j j' : JobNode.t) : Prop := {
  jf_id : JobNode.id j' = JobNode.id j;
  jf_artifact : JobNode.artifact j' = JobNode.artifact j;
  jf_destination : JobNode.destination j' = JobNode.destination j;
  jf_sources : JobNode.sources j' = JobNode.sources j }.

(** Verified bytes are not given back. *)
Definition bytes_kept (j j' : JobNode.t) : Prop := forall p, JobNode.plan j = Some p ->
  exists p', JobNode.plan j' = Some p' /\
    forall x, RangeSet.mem x (SegmentPlan.completed p) -> RangeSet.mem x (SegmentPlan.completed p').

Record job_step (j j' : JobNode.t) : Prop := {
  js_frame : job_frame j j';
  js_ok : job_ok j -> job_ok j';
  js_kept : job_ok j -> bytes_kept j j' }.

(** ** Steps of the world that concern no job, connection or lease *)

Definition same_links (o o' : OriginNode.t) : Prop :=
  OriginNode.okey o' = OriginNode.okey o /\ OriginNode.connections o' = OriginNode.connections o.

Record world_frame (w w' : t) : Prop := {
  wf_jobs : jobs w' = jobs w;
  wf_artifacts : artifacts w' = artifacts w;
  wf_connections : connections w' = connections w;
  wf_destinations : destinations w' = destinations w;
  wf_dindex : destination_index w' = destination_index w;
  wf_sources : forall k, is_Some (sm_get (sources w) k) -> is_Some (sm_get (sources w') k);
  wf_kept : forall k o, sm_get (origins w) k = Some o -> exists o', sm_get (origins w') k = Some o' /\ same_links o o';
  wf_new : forall k o', sm_get (origins w') k = Some o' ->
    (exists o, sm_get (origins w) k = Some o /\ same_links o o') \/ OriginNode.connections o' = [];
  wf_oindex : origins_indexed w -> origins_indexed w' }.

#[export] Instance world_frame_preorder : PreOrder world_frame.
Proof.
  split.
  - intros w. split; try done; intros k o Ho; [|left]; by exists o.
  - intros u v w [A1 A2 A3 A4 A5 A6 A7 A8 A9] [B1 B2 B3 B4 B5 B6 B7 B8 B9].
    split; [congruence..|auto| | |auto].
    + intros k o Ho. destruct (A7 _ _ Ho) as (o1&H1&E1&F1), (B7 _ _ H1) as (o2&H2&E2&F2).
      exists o2. split; [done|]. split; congruence.
    + intros k o2 H2. destruct (B8 _ _ H2) as [(o1&H1&E2&F2)|?]; [|by right].
      destruct (A8 _ _ H1) as [(o&H&E1&F1)|?]; [left; exists o; split; [done|split; congruence]|right; congruence].
Qed.

(** ** The elementary steps *)

Definition with_world (c : Ctl.t) (w : t) : Ctl.t := c <| Ctl.world := w |>.

(** Bookkeeping beside the model. *)
Record books (c c' : Ctl.t) : Prop := {
  bk_world : Ctl.world c' = Ctl.world c;
  bk_max : Ctl.engine_max_active_assignments c' = Ctl.engine_max_active_assignments c;
  bk_jobs : Ctl.engine_max_jobs c' = Ctl.engine_max_jobs c;
  bk_active : counts_ok c -> 0 <= Ctl.active_assignment_count c' <= Ctl.active_assignment_count c }.

(** [finish_job] up to its last call. *)
Definition close_job (k : key) (j : JobNode.t) (c : Ctl.t) : Ctl.t :=
  c <| Ctl.world ::= fun w => release_lease (JobNode.destination j) k (w <| jobs ::= fun m => snd (sm_remove m k) |>) |>.

Definition verdict (k : key) (j : JobNode.t) (o : Outcome) : Action :=
  match o with
  | inr (n, digest) => CompleteJob k n digest (JobNode.resumed_bytes j)
  | inl e => FailJob k e
  end.

(** What [claim_one] does to the state once it has a piece. *)
Definition start_piece (job connection : key) (p' : SegmentPlan.t) (c : Ctl.t) : Ctl.t :=
  count_in_flight connection (c <| Ctl.world ::= modify_job job (fun j => j <| JobNode.plan := Some p' |>) |>)
    <| Ctl.active_assignment_count ::= fun x => x +% 1 |>.

Section steps.
(** The job whose probe is being answered: its plan may be made anew. *)
Context (probed : option key).

Inductive micro : Ctl.t -> list Action -> Ctl.t -> Prop :=
| mi_quiet c a : quiet c a -> micro c [a] c
| mi_books c c' : books c c' -> micro c [] c'
| mi_world c w' : world_frame (Ctl.world c) w' -> micro c [] (with_world c w')
| mi_job c k f : (forall j, Ctl.job c k = Some j -> job_step j (f j)) ->
    micro c [] (c <| Ctl.world ::= modify_job k f |>)
| mi_probed c k f : probed = Some k ->
    (forall j, Ctl.job c k = Some j -> job_frame j (f j) /\ (job_ok j -> job_ok (f j))) ->
    micro c [] (c <| Ctl.world ::= modify_job k f |>)
| mi_conn c k f :
    (forall n, Ctl.conn c k = Some n ->
       ConnectionNode.id (f n) = ConnectionNode.id n /\ ConnectionNode.origin (f n) = ConnectionNode.origin n) ->
    micro c [] (c <| Ctl.world ::= modify_connection k f |>)
| mi_dial c clk origin endpoint shard allow serving now o :
    Ctl.org c origin = Some o -> endpoint ∈ OriginNode.endpoints o ->
    micro c [(Ctl.dial_connection clk origin endpoint shard allow serving now c).2]
            (Ctl.dial_connection clk origin endpoint shard allow serving now c).1.2
| mi_drop c k : micro c [] (Ctl.drop_connection k c)
| mi_finish c k j o : Ctl.job c k = Some j -> micro c [verdict k j o] (close_job k j c)
| mi_commit c k j p len :
    Ctl.job c k = Some j -> JobNode.plan j = Some p ->
    SegmentPlan.is_complete p = true -> SegmentPlan.total p = Some len ->
    micro c [CommitDestination k len (digest_check (JobNode.integrity j))]
            (c <| Ctl.world ::= modify_job k (fun j => j <| JobNode.phase := Committing |>) |>)
| mi_claim c clk now connection n k j p piece p' :
    Ctl.conn c connection = Some n -> ConnectionNode.status n = Ready ->
    Ctl.in_flight_on c connection < Ctl.stream_capacity c connection ->
    Ctl.pick_wfq_job clk c (ConnectionNode.origin n) = Some k ->
    Ctl.job c k = Some j -> JobNode.plan j = Some p ->
    claim_piece k connection (Ctl.connection_rate_estimate c connection) now
      ((max_physical_connections (transport (JobNode.policy j)) <=? 1) && (Ctl.stream_capacity c connection <=? 1))
      (Z.max (max_physical_connections (transport (JobNode.policy j))) 1) p = Some (Some piece, p') ->
    micro c (cut_order piece ++ [start_order k connection (JobNode.supports_ranges j) piece])
            (start_piece k connection p' c).

(** Sequences of steps, with the orders of all. *)
Inductive steps : Ctl.t -> list Action -> Ctl.t -> Prop :=
| steps_nil c : steps c [] c
| steps_cons c a c1 b c2 : micro c a c1 -> steps c1 b c2 -> steps c (a ++ b) c2.

Lemma steps_one c a c' : micro c a c' -> steps c a c'.
Proof. intros H. rewrite <- (app_nil_r a). eapply steps_cons; [exact H|constructor]. Qed.

Lemma steps_app c a c1 b c2 : steps c a c1 -> steps c1 b c2 -> steps c (a ++ b) c2.
Proof.
  induction 1 as [|c a c' b' c1 Hm Hs IH]; [done|]. intros H. rewrite <- app_assoc. eapply steps_cons; [exact Hm|by apply IH].
Qed.
End steps.

(** ** Lookups after a step *)

Lemma job_modify c k f i :
  Ctl.job (c <| Ctl.world ::= modify_job k f |>) i = if decide (i = k) then f <$> Ctl.job c k else Ctl.job c i.
Proof. apply get_modify. Qed.

Lemma job_close c k j i : Ctl.job (close_job k j c) i = if decide (i = k) then None else Ctl.job c i.
Proof. apply get_remove. Qed.

(** What a dropped connection leaves of a job. *)
Definition detach (k : key) (j : JobNode.t) : JobNode.t := j <| JobNode.plan ::= option_map (Ctl.unlink_connection k) |>.

Lemma job_drop c k i : Ctl.job (Ctl.drop_connection k c) i = detach k <$> Ctl.job c i.
Proof.
  unfold Ctl.drop_connection.
  assert (H : forall c2 : Ctl.t, Ctl.job (c2 <| Ctl.world ::= fun w => w <| jobs ::= sm_update_all (fun _ j =>
    j <| JobNode.plan ::= option_map (Ctl.unlink_connection k) |>) |> |>) i = detach k <$> Ctl.job c2 i)
    by (intros c2; exact (get_update_all (fun _ => detach k) _ i)).
  rewrite H. f_equal. unfold Ctl.job, get_job. f_equal.
  destruct (Ctl.conn c k) as [n|]; unfold Ctl.dec_shard_load, remove_connection; repeat (case_match || cbn); done.
Qed.

Lemma unlink_evolves k p : evolves p (Ctl.unlink_connection k p).
Proof.
  unfold Ctl.unlink_connection. apply alter_evolves. intros i a'. rewrite sm_update_all_view.
  destruct (sm_view (SegmentPlan.assignments p) !! i) as [a|]; [|done]. intros [= <-]. exists a. split; [done|].
  intros _ H. by destruct (bool_decide _).
Qed.

Lemma drop_tables k c :
  connections (Ctl.world (Ctl.drop_connection k c)) = (sm_remove (connections (Ctl.world c)) k).2 /\
  origins (Ctl.world (Ctl.drop_connection k c)) =
    match Ctl.conn c k with
    | Some n => sm_modify (origins (Ctl.world c)) (ConnectionNode.origin n) (forget_in_origin k)
    | None => origins (Ctl.world c)
    end /\
  destinations (Ctl.world (Ctl.drop_connection k c)) = destinations (Ctl.world c) /\
  artifacts (Ctl.world (Ctl.drop_connection k c)) = artifacts (Ctl.world c) /\
  sources (Ctl.world (Ctl.drop_connection k c)) = sources (Ctl.world c) /\
  destination_index (Ctl.world (Ctl.drop_connection k c)) = destination_index (Ctl.world c) /\
  origin_index (Ctl.world (Ctl.drop_connection k c)) = origin_index (Ctl.world c) /\
  Ctl.engine_max_active_assignments (Ctl.drop_connection k c) = Ctl.engine_max_active_assignments c /\
  Ctl.engine_max_jobs (Ctl.drop_connection k c) = Ctl.engine_max_jobs c /\
  Ctl.active_assignment_count (Ctl.drop_connection k c) = Ctl.active_assignment_count c.
Proof.
  unfold Ctl.drop_connection, remove_connection, Ctl.conn, get_connection, Ctl.dec_shard_load. cbn.
  destruct (sm_get (connections (Ctl.world c)) k) as [n|] eqn:E; cbn; [|by split_and!].
  destruct (_ <? _); destruct (ConnectionNode.path n); cbn; by split_and!.
Qed.

Lemma allocate_tables clk origin endpoint shard w :
  let a := allocate_connection clk origin endpoint shard w in
  let k := a.1 in let w' := a.2 in
  sm_get (connections w) k = None /\
  (exists n, (forall i, sm_get (connections w') i = if decide (i = k) then Some n else sm_get (connections w) i) /\
     ConnectionNode.id n = k /\ ConnectionNode.origin n = origin /\ ConnectionNode.status n = Connecting) /\
  jobs w' = jobs w /\
  origins w' = sm_modify (origins w) origin (fun o => o <| OriginNode.connections ::= fun l => l ++ [k] |>) /\
  destinations w' = destinations w /\ artifacts w' = artifacts w /\ sources w' = sources w /\
  destination_index w' = destination_index w /\ origin_index w' = origin_index w.
Proof.
  unfold allocate_connection. cbv zeta. destruct (sm_insert _ (connections w)) as [k cm] eqn:Ek.
  match type of Ek with sm_insert ?v _ = _ =>
    pose proof (get_insert v (connections w)) as Hi; pose proof (get_insert_fresh v (connections w)) as Hf end.
  rewrite Ek in Hi, Hf. clear Ek. cbn [fst snd] in Hi, Hf.
  destruct (sm_insert _ _) as [pid pm]. cbn. split_and!; try done.
  assert (Hk : is_Some (sm_get cm k)) by (rewrite Hi, decide_True by done; eauto).
  eexists. split.
  { intros i. rewrite get_modify, !get_set by done. rewrite !Hi.
    destruct (decide (i = k)) as [->|]; [|done]. rewrite decide_True by done. reflexivity. }
  done.
Qed.

Lemma dial_tables clk origin endpoint shard allow serving now c :
  let d := Ctl.dial_connection clk origin endpoint shard allow serving now c in
  let k := d.1.1 in let c' := d.1.2 in
  jobs (Ctl.world c') = jobs (Ctl.world c) /\ Ctl.conn c k = None /\
  (exists n, (forall i, Ctl.conn c' i = if decide (i = k) then Some n else Ctl.conn c i) /\
     ConnectionNode.id n = k /\ ConnectionNode.origin n = origin /\ ConnectionNode.status n = Connecting) /\
  origins (Ctl.world c') = sm_modify (origins (Ctl.world c)) origin
    (fun o => o <| OriginNode.connections ::= fun l => l ++ [k] |>) /\
  destinations (Ctl.world c') = destinations (Ctl.world c) /\
  artifacts (Ctl.world c') = artifacts (Ctl.world c) /\
  sources (Ctl.world c') = sources (Ctl.world c) /\
  destination_index (Ctl.world c') = destination_index (Ctl.world c) /\
  origin_index (Ctl.world c') = origin_index (Ctl.world c) /\
  Ctl.engine_max_active_assignments c' = Ctl.engine_max_active_assignments c /\
  Ctl.engine_max_jobs c' = Ctl.engine_max_jobs c /\
  Ctl.active_assignment_count c' = Ctl.active_assignment_count c.
Proof.
  unfold Ctl.dial_connection. set (h3 := allow && _). clearbody h3. set (alt := if h3 then _ else _). clearbody alt.
  pose proof (allocate_tables clk origin endpoint shard (Ctl.world c)) as H. cbn in H.
  destruct (allocate_connection _ _ _ _ _) as [k w]. cbn in H. destruct H as (Hf&(n&Hn&Hid&Ho&Hs)&Hj&Hor&Hd&Ha&Hsr&Hdi&Hoi).
  set (c1 := Ctl.inc_shard_load _ _).
  assert (Hw : Ctl.world c1 = w /\ Ctl.engine_max_active_assignments c1 = Ctl.engine_max_active_assignments c /\
    Ctl.engine_max_jobs c1 = Ctl.engine_max_jobs c /\ Ctl.active_assignment_count c1 = Ctl.active_assignment_count c)
    by (unfold c1, Ctl.inc_shard_load; by destruct (_ <? _)).
  clearbody c1. destruct Hw as (Hw&?&?&?). cbn. rewrite Hw. split_and!; try done.
  eexists. split.
  { intros i. unfold Ctl.conn, get_connection. cbn. rewrite ?Hw, get_modify, !Hn.
    destruct (decide (i = k)) as [->|]; [|done]. rewrite decide_True by done. reflexivity. }
  by split_and!.
Qed.

(** *** A plan that evolves *)

Lemma job_step_plan j j' : job_frame j j' -> (job_ok j -> is_terminal (JobNode.phase j') = false) ->
  JobNode.total_length j' = JobNode.total_length j -> JobNode.resume j' = JobNode.resume j ->
  (JobNode.phase j' = Committing -> JobNode.phase j = Committing) ->
  (forall p, job_ok j -> JobNode.plan j = Some p -> exists p', JobNode.plan j' = Some p' /\ evolves p p') ->
  (job_ok j -> JobNode.plan j = None -> forall p', JobNode.plan j' = Some p' ->
     fits p' /\ SegmentPlan.total p' = JobNode.total_length j) ->
  job_step j j'.
Proof.
  intros Hf Ht Hl Hr Hc He Hn. split; [done|..].
  - intros Hj. pose proof Hj as [J1 J2 J3 J4 J5]. split; rewrite ?Hl, ?Hr; [by apply Ht|done| | |done].
    + intros p' Hp'. destruct (JobNode.plan j) as [p|] eqn:E; [|by apply Hn].
      destruct (He p Hj eq_refl) as (q&Hq&Hev), (J3 _ eq_refl) as [Hfit Htot]. simplify_eq.
      split; [by apply (ev_fits _ _ Hev)|]. by rewrite (ev_total _ _ Hev).
    + intros Hph. destruct (J4 (Hc Hph)) as (p&Hp&Hcomp). destruct (He p Hj Hp) as (p'&Hp'&Hev).
      exists p'. split; [done|]. eapply evolves_complete; [by apply J3|done|done].
  - intros Hj p Hp. destruct (He p Hj Hp) as (p'&Hp'&Hev). exists p'. split; [done|].
    apply (ev_mono _ _ Hev). by apply (jk_plan _ Hj).
Qed.

Lemma job_step_same j j' : job_frame j j' -> JobNode.plan j' = JobNode.plan j ->
  (job_ok j -> is_terminal (JobNode.phase j') = false) -> JobNode.total_length j' = JobNode.total_length j ->
  JobNode.resume j' = JobNode.resume j -> (JobNode.phase j' = Committing -> JobNode.phase j = Committing) -> job_step j j'.
Proof.
  intros Hf Hp Ht Hl Hr Hc. apply job_step_plan; try done; rewrite Hp.
  - intros p _ Hj. exists p. split; [done|reflexivity].
  - congruence.
Qed.

(** ** The steps keep the invariant *)

Lemma jobs_linked_frame w w' :
  (forall k, option_Forall2 job_frame (sm_get (jobs w) k) (sm_get (jobs w') k)) ->
  destinations w' = destinations w -> destination_index w' = destination_index w -> artifacts w' = artifacts w ->
  (forall k, is_Some (sm_get (sources w) k) -> is_Some (sm_get (sources w') k)) ->
  jobs_linked w -> jobs_linked w'.
Proof.
  intros Hj Hd Hdi Ha Hs [H1 H2 H3]. split.
  - intros k j' Hk. specialize (Hj k). rewrite Hk in Hj. inversion Hj as [j ? [F1 F2 F3 F4] E1|]; subst.
    destruct (H1 k j (eq_sym E1)) as (Hid&(d&Hdd&Hl)&Hart&Hsrc). rewrite F1, F2, F3, F4, Hd, Ha.
    split_and!; eauto. eapply Forall_impl; [exact Hsrc|]. auto.
  - rewrite Hd. intros i d k Hi Hl. destruct (H2 _ _ _ Hi Hl) as (j&Hk&Hdest).
    specialize (Hj k). rewrite Hk in Hj. inversion Hj as [? j' [F1 F2 F3 F4]|]; subst. exists j'. by split.
  - unfold destinations_indexed in *. by rewrite Hd, Hdi.
Qed.

Lemma option_frame_refl (o : option JobNode.t) : option_Forall2 job_frame o o.
Proof. destruct o; by constructor. Qed.

Lemma option_same_refl (o : option ConnectionNode.t) :
  option_Forall2 (fun n n' => ConnectionNode.id n' = ConnectionNode.id n /\
     ConnectionNode.origin n' = ConnectionNode.origin n) o o.
Proof. destruct o; by constructor. Qed.

Lemma conns_linked_frame w w' :
  (forall k, option_Forall2 (fun n n' => ConnectionNode.id n' = ConnectionNode.id n /\
     ConnectionNode.origin n' = ConnectionNode.origin n) (sm_get (connections w) k) (sm_get (connections w') k)) ->
  (forall k o, sm_get (origins w) k = Some o -> exists o', sm_get (origins w') k = Some o' /\ same_links o o') ->
  (forall k o', sm_get (origins w') k = Some o' ->
    (exists o, sm_get (origins w) k = Some o /\ same_links o o') \/ OriginNode.connections o' = []) ->
  conns_linked w -> conns_linked w'.
Proof.
  intros Hc Hk Hn [H1 H2]. split.
  - intros k n' Hk'. specialize (Hc k). rewrite Hk' in Hc. inversion Hc as [n ? [E1 E2] En|]; subst.
    destruct (H1 k n (eq_sym En)) as (Hid&o&Ho&Hin). split; [congruence|].
    destruct (Hk _ _ Ho) as (o'&Ho'&_&Hl). exists o'. rewrite E2, Hl. done.
  - intros i o' Ho'. destruct (Hn _ _ Ho') as [(o&Ho&_&->) | -> ]; [|split; [constructor|by intros k ?%not_elem_of_nil]].
    destruct (H2 _ _ Ho) as [Hnd Hl]. split; [done|]. intros k Hin. destruct (Hl _ Hin) as (n&Hn'&Hor).
    specialize (Hc k). rewrite Hn' in Hc. inversion Hc as [? n' [E1 E2]|]; subst. exists n'. done.
Qed.

Lemma same_links_refl o : same_links o o.
Proof. done. Qed.

Lemma conns_linked_same w w' : connections w' = connections w -> origins w' = origins w -> conns_linked w -> conns_linked w'.
Proof. intros Hc Ho [H1 H2]. split; rewrite ?Hc, ?Ho; done. Qed.

Lemma jobs_linked_same w w' : jobs w' = jobs w -> destinations w' = destinations w ->
  destination_index w' = destination_index w -> artifacts w' = artifacts w -> sources w' = sources w ->
  jobs_linked w -> jobs_linked w'.
Proof.
  intros Hj ??? Hs. eapply jobs_linked_frame; [|done..|by rewrite Hs]. rewrite Hj. intros k. apply option_frame_refl.
Qed.

Lemma world_frame_tables w w' : world_frame w w' -> tables_ok w -> tables_ok w'.
Proof.
  intros [E1 E2 E3 E4 E5 E6 E7 E8 E9] [T1 T2 T3]. split; [| |auto].
  - apply (jobs_linked_frame w); [|done..]. rewrite E1. intros k. apply option_frame_refl.
  - apply (conns_linked_frame w); [|done..]. rewrite E3. intros k. apply option_same_refl.
Qed.

(** Rewriting one job, or one connection. *)
Lemma modify_job_tables k f w : (forall j, sm_get (jobs w) k = Some j -> job_frame j (f j)) ->
  tables_ok w -> tables_ok (modify_job k f w).
Proof.
  intros Hf [T1 T2 T3]. split; [|refine (conns_linked_same w _ _ _ T2); reflexivity|exact T3]. apply (jobs_linked_frame w); [|done..]. intros i. cbn.
  rewrite get_modify. destruct (decide (i = k)) as [->|]; [|apply option_frame_refl].
  destruct (sm_get (jobs w) k) eqn:E; cbn; constructor. by apply Hf.
Qed.

Lemma modify_conn_tables k f w :
  (forall n, sm_get (connections w) k = Some n ->
     ConnectionNode.id (f n) = ConnectionNode.id n /\ ConnectionNode.origin (f n) = ConnectionNode.origin n) ->
  tables_ok w -> tables_ok (modify_connection k f w).
Proof.
  intros Hf [T1 T2 T3]. split; [refine (jobs_linked_same w _ _ _ _ _ _ T1); reflexivity| |exact T3]. apply (conns_linked_frame w); [|eauto using same_links_refl..|done].
  - intros i. cbn. rewrite get_modify. destruct (decide (i = k)) as [->|]; [|apply option_same_refl].
    destruct (sm_get (connections w) k) eqn:E; cbn; constructor. by apply Hf.
Qed.

Lemma close_job_tables k j c : Ctl.job c k = Some j -> tables_ok (Ctl.world c) -> tables_ok (Ctl.world (close_job k j c)).
Proof.
  intros Hj [[J1 J2 J3] T2 T3]. split; [|refine (conns_linked_same (Ctl.world c) _ _ _ T2); reflexivity|exact T3]. destruct (J1 _ _ Hj) as (_&(d&Hd&Hl)&_&_).
  set (unlease := fun d => if bool_decide (leased_by d = Some k) then d <| leased_by := None |> else d).
  assert (Hds : forall i, sm_get (destinations (Ctl.world (close_job k j c))) i =
    if decide (i = JobNode.destination j) then unlease <$> sm_get (destinations (Ctl.world c)) (JobNode.destination j)
    else sm_get (destinations (Ctl.world c)) i) by (intros i; apply get_modify).
  assert (Hjs : forall i, sm_get (jobs (Ctl.world (close_job k j c))) i =
    if decide (i = k) then None else sm_get (jobs (Ctl.world c)) i) by (intros i; apply get_remove).
  assert (Hk : forall d', leased_by d' ≠ Some k -> unlease d' = d') by (intros d' ?; unfold unlease; by rewrite bool_decide_eq_false_2).
  assert (Hu : unlease d = d <| leased_by := None |>) by (unfold unlease; by rewrite bool_decide_eq_true_2).
  split.
  - intros i j' Hi. rewrite Hjs in Hi. case_decide; [done|]. destruct (J1 _ _ Hi) as (?&(d'&Hd'&Hl')&?&?).
    split_and!; try done. rewrite Hds. case_decide as E; [|eauto]. exists d'. rewrite <- E, Hd'. cbn. rewrite Hk by congruence. done.
  - intros i d' k' Hi Hl'. rewrite Hds in Hi. case_decide as E.
    + subst i. rewrite Hd in Hi. cbn in Hi. rewrite Hu in Hi. by simplify_eq/=.
    + destruct (J2 _ _ _ Hi Hl') as (j'&Hj'&Hdest). exists j'. rewrite Hjs. case_decide; [|done]. subst k'.
      unfold Ctl.job, get_job in Hj. congruence.
  - intros s i. cbn -[sm_modify]. rewrite (J3 s i). rewrite Hds. case_decide as E; [|done]. subst i. rewrite Hd. cbn. rewrite Hu.
    split; intros (d'&[= <-]&?); eauto.
Qed.

Lemma drop_frame j k : job_frame j (detach k j).
Proof. by split. Qed.

Lemma drop_tables_ok k c : tables_ok (Ctl.world c) -> tables_ok (Ctl.world (Ctl.drop_connection k c)).
Proof.
  intros [T1 [C1 C2] T3]. destruct (drop_tables k c) as (Hc&Ho&Hd&Ha&Hs&Hdi&Hoi&_).
  assert (Hcs : forall i, sm_get (connections (Ctl.world (Ctl.drop_connection k c))) i =
    if decide (i = k) then None else sm_get (connections (Ctl.world c)) i) by (intros i; rewrite Hc; apply get_remove).
  assert (Hos : forall i, sm_get (origins (Ctl.world (Ctl.drop_connection k c))) i =
    (fun o => if decide (option_map ConnectionNode.origin (Ctl.conn c k) = Some i) then forget_in_origin k o else o) <$>
    sm_get (origins (Ctl.world c)) i).
  { intros i. rewrite Ho. destruct (Ctl.conn c k) as [n|]; cbn; [rewrite get_modify|].
    - destruct (decide (i = ConnectionNode.origin n)) as [->|]; destruct (sm_get _ _); cbn; try done;
        [by rewrite decide_True|by rewrite decide_False by congruence].
    - by destruct (sm_get _ i). }
  split.
  - apply (jobs_linked_frame (Ctl.world c)); [|done|done|done|by rewrite Hs|done]. intros i.
    pose proof (job_drop c k i) as H. unfold Ctl.job, get_job in H. rewrite H.
    destruct (sm_get (jobs (Ctl.world c)) i); constructor. apply drop_frame.
  - split.
    + intros i n Hi. rewrite Hcs in Hi. case_decide; [done|]. destruct (C1 _ _ Hi) as (Hid&o&Ho'&Hin). split; [done|].
      rewrite Hos, Ho'. cbn. eexists. split; [reflexivity|]. case_decide; [|done]. cbn.
      apply retain_elem. split; [|done]. by rewrite negb_true_iff, bool_decide_eq_false.
    + intros i o Hi. rewrite Hos in Hi. destruct (sm_get (origins (Ctl.world c)) i) as [o0|] eqn:Ei; [|done]. cbn in Hi. injection Hi as <-.
      destruct (C2 _ _ Ei) as [Hnd Hl]. case_decide as E.
      * cbn. split; [by apply NoDup_filter|]. intros k' [Hk Hin]%retain_elem. rewrite Hcs.
        rewrite negb_true_iff, bool_decide_eq_false in Hk. rewrite decide_False by done. by apply Hl.
      * split; [done|]. intros k' Hin. rewrite Hcs. destruct (Hl _ Hin) as (n&Hn&Hon). case_decide; [subst k'|eauto].
        exfalso. apply E. unfold Ctl.conn, get_connection. rewrite Hn. cbn. by rewrite Hon.
  - intros s i. rewrite Hoi, (T3 s i), Hos. destruct (sm_get (origins (Ctl.world c)) i) as [o|]; cbn; [|done].
    split; intros (o'&[= <-]&<-); eexists; (split; [reflexivity|]); by case_decide.
Qed.

Lemma dial_tables_ok clk origin endpoint shard allow serving now c o : Ctl.org c origin = Some o ->
  tables_ok (Ctl.world c) ->
  tables_ok (Ctl.world (Ctl.dial_connection clk origin endpoint shard allow serving now c).1.2).
Proof.
  intros Ho [T1 [C1 C2] T3].
  pose proof (dial_tables clk origin endpoint shard allow serving now c) as H. cbn zeta in H.
  destruct (Ctl.dial_connection _ _ _ _ _ _ _ _) as [[k c'] a]. cbn in *.
  destruct H as (Hj&Hf&(n&Hcs&Hid&Hon&_)&Hos&Hd&Ha&Hs&Hdi&Hoi&_).
  unfold Ctl.conn, get_connection in Hcs, Hf. unfold Ctl.org, get_origin in Ho.
  split.
  - by apply (jobs_linked_same (Ctl.world c)).
  - split.
    + intros i m Hi. rewrite Hcs in Hi. rewrite Hos. setoid_rewrite get_modify. case_decide as Ei.
      * injection Hi as <-. subst. split; [done|]. rewrite decide_True by done. rewrite Ho. eexists. split; [reflexivity|].
        cbn. apply elem_of_app. right. by left.
      * destruct (C1 _ _ Hi) as (?&o'&Ho'&Hin). split; [done|]. case_decide as E; [|eauto].
        rewrite E in Ho'. rewrite Ho'. eexists. split; [reflexivity|]. cbn. apply elem_of_app. by left.
    + intros i o' Hi. rewrite Hos, get_modify in Hi.
      assert (Hnew : forall x, x ∈ OriginNode.connections o -> x ≠ k).
      { intros x Hx ->. destruct (proj2 (C2 _ _ Ho) _ Hx) as (?&?&_). congruence. }
      setoid_rewrite Hcs. case_decide as E.
      * subst i. rewrite Ho in Hi. cbn in Hi. injection Hi as <-. cbn. destruct (C2 _ _ Ho) as [Hnd Hl]. split.
        -- apply NoDup_app. split_and!; [done| |by apply NoDup_singleton].
           intros x Hx ->%list_elem_of_singleton. by apply (Hnew k).
        -- intros x [Hx| ->%list_elem_of_singleton]%elem_of_app; [|rewrite decide_True by done; eauto].
           rewrite decide_False by auto. by apply Hl.
      * destruct (C2 _ _ Hi) as [Hnd Hl]. split; [done|]. intros x Hx. case_decide; [|by apply Hl]. subst x.
        destruct (Hl _ Hx) as (?&?&_). congruence.
  - intros s i. rewrite Hoi, (T3 s i), Hos, get_modify. case_decide as E; [|done]. subst i. rewrite Ho. cbn.
    split; intros (o'&[= <-]&<-); eauto.
Qed.

(** *** Claims *)

Lemma attach_evolves id connection p : evolves p (attach id connection p).
Proof. unfold attach. apply modify_evolves. by intros. Qed.

Lemma claim_piece_evolves k connection est now solo slots p r p' :
  claim_piece k connection est now solo slots p = Some (r, p') -> evolves p p'.
Proof.
  unfold claim_piece. destruct (SegmentPlan.claim_with _ _ _ _ _) as [[cl q]|] eqn:E; [|done].
  apply claim_with_evolves in E. destruct cl as [id|new from| |].
  - destruct (sm_get _ id); [|done]. intros [= _ <-]. etrans; [exact E|apply attach_evolves].
  - destruct (sm_get _ new); [|done]. intros [= _ <-]. etrans; [exact E|apply attach_evolves].
  - by intros [= _ <-].
  - by intros [= _ <-].
Qed.

Lemma count_in_flight_books k c : books c (count_in_flight k c).
Proof. unfold count_in_flight. destruct (sec_get _ k); split; try done; intros [_ ? _]; cbn; lia. Qed.

Lemma start_piece_books k connection p' c :
  Ctl.world (start_piece k connection p' c) = modify_job k (fun j => j <| JobNode.plan := Some p' |>) (Ctl.world c) /\
  Ctl.engine_max_active_assignments (start_piece k connection p' c) = Ctl.engine_max_active_assignments c /\
  Ctl.engine_max_jobs (start_piece k connection p' c) = Ctl.engine_max_jobs c /\
  Ctl.active_assignment_count (start_piece k connection p' c) = (Ctl.active_assignment_count c +% 1).
Proof. unfold start_piece, count_in_flight. cbn. by destruct (sec_get _ connection). Qed.

Lemma pick_has_room clk c o k : Ctl.pick_wfq_job clk c o = Some k ->
  Ctl.active_assignment_count c < Ctl.engine_max_active_assignments c.
Proof. unfold Ctl.pick_wfq_job. rewrite Z.geb_leb. case Z.leb_spec; [done|lia]. Qed.

Lemma plan_step_evolves j p p' : JobNode.plan j = Some p -> evolves p p' -> job_step j (j <| JobNode.plan := Some p' |>).
Proof.
  intros Hp He. apply job_step_plan; try done.
  - exact (jk_phase j).
  - intros q _ Hq. simplify_eq. eauto.
  - congruence.
Qed.

(** *** Every step keeps [ok] *)

Lemma ok_jobs_modify c k f : (forall j, Ctl.job c k = Some j -> job_ok j -> job_ok (f j)) ->
  (forall i j, Ctl.job c i = Some j -> job_ok j) ->
  forall i j, Ctl.job (c <| Ctl.world ::= modify_job k f |>) i = Some j -> job_ok j.
Proof.
  intros Hf H i j. rewrite job_modify. case_decide; [|apply H].
  destruct (Ctl.job c k) as [j0|] eqn:E; [|done]. intros [= <-]. apply Hf; eauto.
Qed.

Lemma modify_job_ok c k f :
  (forall j, Ctl.job c k = Some j -> job_frame j (f j) /\ (job_ok j -> job_ok (f j))) ->
  ok c -> ok (c <| Ctl.world ::= modify_job k f |>).
Proof.
  intros Hf [T J [C1 C2 C3]]. split.
  - apply modify_job_tables; [|done]. intros j Hj. by apply Hf.
  - apply ok_jobs_modify; [|done]. intros j Hj. by apply Hf.
  - split; [done..|]. change (sm_len (sm_modify (jobs (Ctl.world c)) k f) <= Ctl.engine_max_jobs c). by rewrite len_modify.
Qed.

Lemma ok_same_jobs c c' : tables_ok (Ctl.world c') -> jobs (Ctl.world c') = jobs (Ctl.world c) ->
  Ctl.engine_max_active_assignments c' = Ctl.engine_max_active_assignments c ->
  Ctl.engine_max_jobs c' = Ctl.engine_max_jobs c ->
  (counts_ok c -> 0 <= Ctl.active_assignment_count c' <= Ctl.active_assignment_count c) -> ok c -> ok c'.
Proof.
  intros T Hj Hm Hn Ha [_ J C]. specialize (Ha C). split; [done| |].
  - unfold Ctl.job, get_job in *. by rewrite Hj.
  - destruct C. split; rewrite ?Hm, ?Hn, ?Hj; [done|lia|done].
Qed.

Lemma detach_step k j : job_step j (detach k j).
Proof.
  apply job_step_plan; try done.
  - exact (jk_phase j).
  - intros p _ Hp. cbn. rewrite Hp. eexists. split; [reflexivity|]. apply unlink_evolves.
  - intros _ Hp p'. cbn. by rewrite Hp.
Qed.

Lemma micro_ok probed c a c' : micro probed c a c' -> ok c -> ok c'.
Proof.
  intros Hm Hok. pose proof Hok as [T J C]. destruct Hm as [c a Hq|c c' Hb|c w' Hw|c k f Hf|c k f Hp Hf|c k f Hf|
    c clk origin e shard allow serving now o Ho He|c k|c k j o Hj|c k j p len Hj Hp Hc Ht|
    c clk now conn n k j p piece p' Hn Hr Hfl Hpk Hj Hp Hcl].
  - done.
  - destruct Hb as [B1 B2 B3 B4]. apply (ok_same_jobs c); rewrite ?B1; done.
  - apply (ok_same_jobs c); try done; [by eapply world_frame_tables|apply Hw|]. intros [_ ? _]. cbn. lia.
  - apply modify_job_ok; [|done]. intros j Hj. destruct (Hf _ Hj). auto.
  - by apply modify_job_ok.
  - apply (ok_same_jobs c); try done; [by apply modify_conn_tables|]. intros [_ ? _]. cbn. lia.
  - pose proof (dial_tables clk origin e shard allow serving now c) as H. cbn zeta in H.
    apply (ok_same_jobs c); [by eapply dial_tables_ok|apply H..| |done].
    intros [_ ? _]. destruct H as (_&_&_&_&_&_&_&_&_&_&_&->). lia.
  - destruct (drop_tables k c) as (_&_&_&_&_&_&_&Hm&Hn&Ha). split; [by apply drop_tables_ok|..].
    + intros i j. rewrite job_drop. destruct (Ctl.job c i) as [j0|] eqn:E; [|done]. intros [= <-]. apply detach_step. eauto.
    + destruct C as [C1 C2 C3]. split; rewrite ?Hm, ?Hn, ?Ha; [done..|].
      rewrite (len_same (jobs (Ctl.world c))); [done|]. intros i. pose proof (job_drop c k i) as H.
      unfold Ctl.job, get_job in H. rewrite H. apply fmap_is_Some.
  - split; [by apply close_job_tables|..].
    + intros i j'. rewrite job_close. case_decide; [done|]. apply J.
    + destruct C as [C1 C2 C3]. split; [done..|]. etrans; [apply (len_remove_le (jobs (Ctl.world c)) k)|done].
  - apply modify_job_ok; [|done]. intros j' Hj'. simplify_eq. split; [by split|]. intros [K1 K2 K3 K4 K5].
    split; try done. intros _. exists p. by split.
  - destruct (start_piece_books k conn p' c) as (Bw&Bm&Bn&Ba).
    pose proof (pick_has_room _ _ _ _ Hpk) as Hroom. destruct C as [C1 C2 C3].
    assert (Hs : forall j', Ctl.job c k = Some j' -> job_step j' (j' <| JobNode.plan := Some p' |>)).
    { intros j' Hj'. simplify_eq. eapply plan_step_evolves; [done|]. by eapply claim_piece_evolves. }
    split.
    + rewrite Bw. apply modify_job_tables; [|done]. intros j' Hj'. by apply Hs.
    + intros i j' Hi. unfold Ctl.job in Hi. rewrite Bw in Hi.
      refine (ok_jobs_modify c k _ _ J i j' Hi). intros. by apply Hs.
    + split; rewrite ?Bm, ?Bn, ?Ba, ?Bw; [done| |].
      * unfold in_u64 in C1. rewrite u64_add_small by u64_lia. lia.
      * cbn. by rewrite len_modify.
Qed.

Lemma steps_ok probed c a c' : steps probed c a c' -> ok c -> ok c'.
Proof. induction 1 as [|c a c1 b c2 Hm Hs IH]; [done|]. intros H. apply IH. by eapply micro_ok. Qed.

(** ** The life of a job *)

(** What a run of steps does to one job: it lives on, it was dead and stays
    dead, or it ends once, after which nothing is ordered for it. *)
Definition spared (k : key) (a : Action) : Prop := ends a ≠ Some k.
Definition ignored (k : key) (a : Action) : Prop := ends a ≠ Some k /\ orders a ≠ Some k.

Inductive fate (k : key) (c : Ctl.t) (acts : list Action) (c' : Ctl.t) : Prop :=
| fate_lives : live c k -> live c' k -> Forall (spared k) acts -> fate k c acts c'
| fate_dead : ~ live c k -> ~ live c' k -> Forall (ignored k) acts -> fate k c acts c'
| fate_ends a1 e a2 : live c k -> ~ live c' k -> acts = a1 ++ e :: a2 -> ends e = Some k ->
    Forall (spared k) a1 -> Forall (ignored k) a2 -> fate k c acts c'.

Lemma ignored_leftover k a : ignored k a -> accounted a -> orders a ≠ Some k /\ (names a = Some k -> leftover a = true).
Proof.
  intros [He Ho] Ha. split; [done|]. intros Hn. destruct (leftover a) eqn:E; [done|]. rewrite (Ha E) in Hn. by destruct (ends a).
Qed.

#[export] Instance live_dec c k : Decision (live c k).
Proof. unfold live. apply _. Defined.

Lemma ignored_spared k acts : Forall (ignored k) acts -> Forall (spared k) acts.
Proof. intros H. eapply Forall_impl; [exact H|]. by intros a []. Qed.

(** Steps that end no job. *)
Lemma fate_same k c acts c' : (live c' k <-> live c k) -> Forall (fun a => ends a = None) acts ->
  Forall (fun a => forall i, orders a = Some i -> live c i) acts -> fate k c acts c'.
Proof.
  intros Hl He Ho. destruct (decide (live c k)) as [Hk|Hk].
  - apply fate_lives; [done|by apply Hl|]. eapply Forall_impl; [exact He|]. intros a Ha. unfold spared. by rewrite Ha.
  - apply fate_dead; [done|by rewrite Hl|]. rewrite Forall_forall in He, Ho |- *. intros a Ha.
    split; [by rewrite (He _ Ha)|]. intros H. by apply Hk, (Ho _ Ha).
Qed.

Lemma fate_app k c a c1 b c2 : fate k c a c1 -> fate k c1 b c2 -> fate k c (a ++ b) c2.
Proof.
  intros [H1 H2 H3|H1 H2 H3|a1 e a2 H1 H2 -> He H3 H4] [G1 G2 G3|G1 G2 G3|b1 e' b2 G1 G2 -> Ge G3 G4]; try done.
  - apply fate_lives; [done..|]. by apply Forall_app.
  - eapply (fate_ends _ _ _ _ (a ++ b1) e' b2); [done..| |done|by apply Forall_app|done]. by rewrite <- app_assoc.
  - apply fate_dead; [done..|]. by apply Forall_app.
  - eapply (fate_ends _ _ _ _ a1 e (a2 ++ b)); [done..| |done|done|by apply Forall_app]. by rewrite <- app_assoc.
Qed.

Lemma live_modify c k f i : live (c <| Ctl.world ::= modify_job k f |>) i <-> live c i.
Proof. unfold live. rewrite job_modify. case_decide; [subst; apply fmap_is_Some|done]. Qed.

Lemma live_world c c' i : jobs (Ctl.world c') = jobs (Ctl.world c) -> live c' i <-> live c i.
Proof. intros H. unfold live, Ctl.job, get_job. by rewrite H. Qed.

Lemma claim_piece_cut k connection est now solo slots p piece p' cut :
  claim_piece k connection est now solo slots p = Some (Some piece, p') -> cp_tail_cut piece = Some cut -> tc_job cut = k.
Proof.
  unfold claim_piece. destruct (SegmentPlan.claim_with _ _ _ _ _) as [[cl q]|]; [|done]. destruct cl as [id|new from| |].
  - destruct (sm_get _ id); [|done]. by intros [= <- _].
  - destruct (sm_get _ new) as [a|]; [|done]. intros [= <- _]. cbn. unfold option_map. case_match; [|done].
    by intros [= <-].
  - done.
  - done.
Qed.

Lemma claim_orders k connection ranges piece a :
  (forall cut, cp_tail_cut piece = Some cut -> tc_job cut = k) ->
  a ∈ cut_order piece ++ [start_order k connection ranges piece] -> ends a = None /\ orders a = Some k.
Proof.
  intros Hc. unfold cut_order, start_order. rewrite elem_of_app, list_elem_of_singleton. intros [Ha| ->].
  - destruct (cp_tail_cut piece) as [cut|]; [|by apply not_elem_of_nil in Ha].
    apply list_elem_of_singleton in Ha as ->. cbn. by rewrite Hc.
  - by destruct ranges.
Qed.

Lemma micro_fate probed k c a c' : micro probed c a c' -> fate k c a c'.
Proof.
  intros Hm. destruct Hm as [c a Hq|c c' Hb|c w' Hw|c k' f Hf|c k' f Hp Hf|c k' f Hf|
    c clk origin e shard allow serving now o Ho He|c k'|c k' j o Hj|c k' j p len Hj Hp Hc Ht|
    c clk now conn n k' j p piece p' Hn Hr Hfl Hpk Hj Hp Hcl];
    try (apply fate_same; [|by constructor..]).
  - destruct Hq as (He&_&_&_&_&Ho). apply fate_same; [done|by repeat constructor|]. constructor; [done|constructor].
  - apply live_world. by rewrite (bk_world _ _ Hb).
  - by apply live_world, wf_jobs.
  - apply live_modify.
  - apply live_modify.
  - by apply live_world.
  - pose proof (dial_tables clk origin e shard allow serving now c) as H. cbn zeta in H. destruct H as (H&_).
    unfold Ctl.dial_connection in *. destruct (allocate_connection _ _ _ _ _) as [kc w].
    apply fate_same; [by apply live_world|by repeat constructor|by repeat constructor].
  - unfold live. rewrite job_drop. apply fmap_is_Some.
  - destruct (decide (k = k')) as [->|Hk].
    + apply (fate_ends _ _ _ _ [] (verdict k' j o) []); try done; [by unfold live; rewrite Hj| |by destruct o as [|[]]].
      unfold live. rewrite job_close, decide_True by done. by intros [].
    + assert (Hl : live (close_job k' j c) k <-> live c k) by (unfold live; by rewrite job_close, decide_False by done).
      assert (He : ends (verdict k' j o) = Some k' /\ orders (verdict k' j o) = None) by (by destruct o as [|[]]).
      destruct He as [He Ho]. destruct (decide (live c k)) as [Hlk|Hlk].
      * apply fate_lives; [done|by apply Hl|]. constructor; [|done]. unfold spared. rewrite He. congruence.
      * apply fate_dead; [done|by rewrite Hl|]. constructor; [|done]. unfold ignored. rewrite He, Ho. split; congruence.
  - apply fate_same; [apply live_modify|by repeat constructor|]. constructor; [|done]. intros i [= <-]. unfold live. by rewrite Hj.
  - apply fate_same.
    + unfold live, Ctl.job. destruct (start_piece_books k' conn p' c) as (->&_). apply live_modify.
    + apply Forall_forall. intros a Ha. eapply claim_orders; [|done]. intros cut. by eapply claim_piece_cut.
    + apply Forall_forall. intros a Ha i Hi. apply claim_orders in Ha; [|intros cut; by eapply claim_piece_cut].
      destruct Ha as [_ Ha]. simplify_eq. unfold live. by rewrite Hj.
Qed.

Lemma steps_fate probed k c a c' : steps probed c a c' -> fate k c a c'.
Proof.
  induction 1 as [c|c a c1 b c2 Hm Hs IH]; [by apply fate_same|]. eapply fate_app; [by eapply micro_fate|done].
Qed.

(** Whatever names a job, its end apart, is an order for it or one of the
    leftovers. *)
Lemma micro_accounted probed c a c' : micro probed c a c' -> Forall accounted a.
Proof.
  intros Hm. destruct Hm as [c a Hq|c c' Hb|c w' Hw|c k' f Hf|c k' f Hp Hf|c k' f Hf|
    c clk origin e shard allow serving now o Ho He|c k'|c k' j o Hj|c k' j p len Hj Hp Hc Ht|
    c clk now conn n k' j p piece p' Hn Hr Hfl Hpk Hj Hp Hcl]; try (by repeat constructor).
  - destruct Hq as (_&_&_&_&Ha&_). by constructor.
  - unfold Ctl.dial_connection. destruct (allocate_connection _ _ _ _ _). by repeat constructor.
  - constructor; [by destruct o as [|[]]|constructor].
  - apply Forall_app. split.
    + unfold cut_order. destruct (cp_tail_cut piece); by repeat constructor.
    + unfold start_order. destruct (JobNode.supports_ranges j); by repeat constructor.
Qed.

Lemma steps_accounted probed c a c' : steps probed c a c' -> Forall accounted a.
Proof. induction 1; [constructor|]. apply Forall_app. split; [by eapply micro_accounted|done]. Qed.

(** ** The moment of an order *)

Lemma steps_in probed c acts c' x : steps probed c acts c' -> x ∈ acts ->
  exists a1 c1 b c2 a2, acts = a1 ++ b ++ a2 /\ steps probed c a1 c1 /\ micro probed c1 b c2 /\
    steps probed c2 a2 c' /\ x ∈ b.
Proof.
  induction 1 as [c|c a c1 b c2 Hm Hs IH]; [by intros ?%not_elem_of_nil|].
  intros [Hx|Hx]%elem_of_app.
  - exists [], c, a, c1, b. split_and!; try done. constructor.
  - destruct (IH Hx) as (a1&d1&e&d2&a2&->&H1&H2&H3&H4). exists (a ++ a1), d1, e, d2, a2. rewrite app_assoc.
    split_and!; try done. by eapply steps_cons.
Qed.

(** The state in which an assignment may be started: who asks, for whom, and
    that there is room. *)
Definition may_start (c : Ctl.t) (a : Action) : Prop := exists clk now connection n k j p piece p',
  Ctl.conn c connection = Some n /\ ConnectionNode.status n = Ready /\
  Ctl.in_flight_on c connection < Ctl.stream_capacity c connection /\
  Ctl.active_assignment_count c < Ctl.engine_max_active_assignments c /\
  Ctl.pick_wfq_job clk c (ConnectionNode.origin n) = Some k /\
  Ctl.job c k = Some j /\ JobNode.phase j = Transferring /\ JobNode.plan j = Some p /\
  claim_piece k connection (Ctl.connection_rate_estimate c connection) now
    ((max_physical_connections (transport (JobNode.policy j)) <=? 1) && (Ctl.stream_capacity c connection <=? 1))
    (Z.max (max_physical_connections (transport (JobNode.policy j))) 1) p = Some (Some piece, p') /\
  a = start_order k connection (JobNode.supports_ranges j) piece.

(** The state in which a commit may be ordered. *)
Definition may_commit (c : Ctl.t) (a : Action) : Prop := exists k j p len,
  Ctl.job c k = Some j /\ JobNode.plan j = Some p /\ SegmentPlan.total p = Some len /\
  (forall x, 0 <= x < len -> RangeSet.mem x (SegmentPlan.completed p)) /\
  a = CommitDestination k len (digest_check (JobNode.integrity j)).

Lemma wfq_fold_runnable clk c o best l k s : foldl (Ctl.wfq_step clk c o) best l = Some (k, s) ->
  best = Some (k, s) \/ Ctl.is_runnable clk c k o = true.
Proof.
  revert best. induction l as [|kj l IH]; intros best; [by left|]. cbn [foldl]. intros H. destruct (IH _ H) as [E|E]; [|by right].
  unfold Ctl.wfq_step in E. destruct (Ctl.is_runnable clk c kj.1 o) eqn:Er; [|by left]. cbn in E.
  destruct best as [[b sb]|]; [|injection E as <- <-; by right].
  destruct (_ || _); [injection E as <- <-; by right|by left].
Qed.

Lemma pick_runnable clk c o k : Ctl.pick_wfq_job clk c o = Some k -> Ctl.is_runnable clk c k o = true.
Proof.
  unfold Ctl.pick_wfq_job. destruct (_ >=? _); [done|]. destruct (foldl _ _ _) as [[k' s]|] eqn:E; [|done].
  intros [= <-]. by destruct (wfq_fold_runnable _ _ _ _ _ _ _ E).
Qed.

Lemma runnable_transferring clk c k o j : Ctl.is_runnable clk c k o = true -> Ctl.job c k = Some j ->
  JobNode.phase j = Transferring.
Proof.
  unfold Ctl.is_runnable. intros H Hj. rewrite Hj in H.
  destruct (phase_is (JobNode.phase j) Transferring) eqn:E; [|done]. by apply bool_decide_eq_true in E.
Qed.

Lemma cut_order_quiet piece a : a ∈ cut_order piece -> starts a = false /\ commits a = false.
Proof.
  unfold cut_order. destruct (cp_tail_cut piece); [|by intros ?%not_elem_of_nil]. by intros ->%list_elem_of_singleton.
Qed.

Lemma micro_starts probed c b c' a : micro probed c b c' -> a ∈ b -> starts a = true -> may_start c a.
Proof.
  intros Hm. destruct Hm as [c x Hq|c c' Hb|c w' Hw|c k' f Hf|c k' f Hp Hf|c k' f Hf|
    c clk origin e shard allow serving now o Ho He|c k'|c k' j o Hj|c k' j p len Hj Hp Hc Ht|
    c clk now conn n k' j p piece p' Hn Hr Hfl Hpk Hj Hp Hcl]; try (by intros ?%not_elem_of_nil).
  - intros ->%list_elem_of_singleton. destruct Hq as (_&Hs&_). by rewrite Hs.
  - unfold Ctl.dial_connection. destruct (allocate_connection _ _ _ _ _). by intros ->%list_elem_of_singleton.
  - intros ->%list_elem_of_singleton. by destruct o as [|[]].
  - by intros ->%list_elem_of_singleton.
  - intros [Ha| ->%list_elem_of_singleton]%elem_of_app Hs.
    + apply cut_order_quiet in Ha as [? _]. congruence.
    + exists clk, now, conn, n, k', j, p, piece, p'. split_and!; try done; [by eapply pick_has_room|].
      eapply runnable_transferring; [by eapply pick_runnable|done].
Qed.

Lemma micro_commits probed c b c' a : ok c -> micro probed c b c' -> a ∈ b -> commits a = true -> may_commit c a.
Proof.
  intros Hok Hm. destruct Hm as [c x Hq|c c' Hb|c w' Hw|c k' f Hf|c k' f Hp Hf|c k' f Hf|
    c clk origin e shard allow serving now o Ho He|c k'|c k' j o Hj|c k' j p len Hj Hp Hc Ht|
    c clk now conn n k' j p piece p' Hn Hr Hfl Hpk Hj Hp Hcl]; try (by intros ?%not_elem_of_nil).
  - intros ->%list_elem_of_singleton. destruct Hq as (_&_&Hs&_). by rewrite Hs.
  - unfold Ctl.dial_connection. destruct (allocate_connection _ _ _ _ _). by intros ->%list_elem_of_singleton.
  - intros ->%list_elem_of_singleton. by destruct o as [|[]].
  - intros ->%list_elem_of_singleton _. exists k', j, p, len. split_and!; try done.
    destruct (ok_jobs _ Hok _ _ Hj) as [_ _ Hpl _ _]. destruct (Hpl _ Hp) as [[F1 F2 F3 _] _].
    unfold SegmentPlan.is_complete in Hc. rewrite Ht in Hc. unfold extent, in_u64 in F1, F3. rewrite Ht in F1, F3.
    cbn in F1, F3. rewrite RangeSet.is_complete_spec in Hc by (done || lia). done.
  - intros [Ha| ->%list_elem_of_singleton]%elem_of_app Hs.
    + apply cut_order_quiet in Ha as [_ ?]. congruence.
    + unfold start_order in Hs. by destruct (negb _).
Qed.

(** ** The bytes of a job *)

Definition keeps (k : key) (c c' : Ctl.t) : Prop := forall j, Ctl.job c k = Some j ->
  match Ctl.job c' k with Some j' => job_frame j j' /\ bytes_kept j j' | None => True end.

Lemma bytes_kept_refl j : bytes_kept j j.
Proof. intros p Hp. eauto. Qed.

Lemma keeps_same k c c' : Ctl.job c' k = Ctl.job c k -> keeps k c c'.
Proof. intros H j Hj. rewrite H, Hj. split; [done|apply bytes_kept_refl]. Qed.

Lemma keeps_modify k c i f : ok c -> (forall j, Ctl.job c i = Some j -> job_step j (f j)) ->
  keeps k c (c <| Ctl.world ::= modify_job i f |>).
Proof.
  intros Hok Hf j Hj. rewrite job_modify. case_decide; [subst|rewrite Hj; split; [done|apply bytes_kept_refl]].
  rewrite Hj. destruct (Hf _ Hj) as [H1 _ H3]. split; [done|]. apply H3. by eapply ok_jobs.
Qed.

Lemma micro_keeps probed k c a c' : ok c -> micro probed c a c' -> probed ≠ Some k -> keeps k c c'.
Proof.
  intros Hok Hm Hk. destruct Hm as [c a Hq|c c' Hb|c w' Hw|c k' f Hf|c k' f Hp Hf|c k' f Hf|
    c clk origin e shard allow serving now o Ho He|c k'|c k' j o Hj|c k' j p len Hj Hp Hc Ht|
    c clk now conn n k' j p piece p' Hn Hr Hfl Hpk Hj Hp Hcl].
  - by apply keeps_same.
  - apply keeps_same. unfold Ctl.job. by rewrite (bk_world _ _ Hb).
  - apply keeps_same. unfold Ctl.job, get_job. cbn. by rewrite (wf_jobs _ _ Hw).
  - by apply keeps_modify.
  - intros j Hj. rewrite job_modify. case_decide; [congruence|]. rewrite Hj. split; [done|apply bytes_kept_refl].
  - by apply keeps_same.
  - apply keeps_same. pose proof (dial_tables clk origin e shard allow serving now c) as H. cbn zeta in H.
    unfold Ctl.job, get_job. by destruct H as (->&_).
  - intros j Hj. rewrite job_drop, Hj. cbn. split; [apply drop_frame|]. apply detach_step. by eapply ok_jobs.
  - intros j' Hj'. rewrite job_close. case_decide; [done|]. rewrite Hj'. split; [done|apply bytes_kept_refl].
  - intros j' Hj'. rewrite job_modify. case_decide; [subst|]; rewrite Hj'; (split; [by split|exact (bytes_kept_refl j')]).
  - destruct (start_piece_books k' conn p' c) as (Bw&_). unfold keeps, Ctl.job. rewrite Bw.
    refine (keeps_modify k c k' _ Hok _). intros j' Hj'. simplify_eq. eapply plan_step_evolves; [done|].
    by eapply claim_piece_evolves.
Qed.

Lemma keeps_trans k c1 c2 c3 : (live c3 k -> live c2 k) -> keeps k c1 c2 -> keeps k c2 c3 -> keeps k c1 c3.
Proof.
  intros Hl H1 H2 j Hj. specialize (H1 _ Hj). destruct (Ctl.job c3 k) as [j3|] eqn:E3; [|done].
  destruct Hl as [j2 E2]; [by eexists|]. rewrite E2 in H1. specialize (H2 _ E2). rewrite E3 in H2.
  destruct H1 as [[A1 A2 A3 A4] B1], H2 as [[C1 C2 C3 C4] B2]. split; [split; congruence|].
  intros p Hp. destruct (B1 _ Hp) as (p2&Hp2&M1). destruct (B2 _ Hp2) as (p3&Hp3&M2). exists p3. split; [done|]. auto.
Qed.

Lemma steps_keeps probed k c a c' : ok c -> steps probed c a c' -> probed ≠ Some k -> keeps k c c'.
Proof.
  intros Hok Hs Hk. induction Hs as [c|c a c1 b c2 Hm Hs IH]; [by apply keeps_same|].
  eapply keeps_trans; [|by eapply micro_keeps|apply IH; by eapply micro_ok].
  intros Hl. destruct (steps_fate _ k _ _ _ Hs) as [|? Hd|]; [done|by destruct (Hd Hl)|done].
Qed.
End protocol.
