(* ===== verification/Frames.v ===== *)
(** * Frames.

    What each operation of the world model leaves alone, and which steps of a
    job the updates of the handlers are. *)

From Stdlib Require Import String.
From S2P Require Import Prelude Ranges Float Rates Errors Representation Policy Spec SlotMap Timers Segment PlanFrame World Controller Lifecycle Handle Protocol.
Local Open Scope Z_scope.

Section frames.
Context {L : SlotMapLib} {HL : SlotMapLaws L} {S : SecMapLib L} {W : WebLib}.
Import WorldModel.

(** ** The world model *)

(** Tables that no link points into. *)
Lemma frame_aside w w' : jobs w' = jobs w -> artifacts w' = artifacts w -> connections w' = connections w ->
  destinations w' = destinations w -> destination_index w' = destination_index w -> sources w' = sources w ->
  origins w' = origins w -> origin_index w' = origin_index w -> world_frame w w'.
Proof.
  intros E1 E2 E3 E4 E5 E6 E7 E8. split; try done; rewrite ?E6, ?E7.
  - done.
  - intros k o Ho. by exists o.
  - intros k o Ho. left. by exists o.
  - unfold origins_indexed. by rewrite E7, E8.
Qed.

Lemma frame_modify_endpoint k f w : world_frame w (modify_endpoint k f w).
Proof. by apply frame_aside. Qed.

Lemma frame_modify_origin k f w : (forall o, same_links o (f o)) -> world_frame w (modify_origin k f w).
Proof.
  intros Hf.
  assert (Hg : forall i, sm_get (origins (modify_origin k f w)) i =
    if decide (i = k) then f <$> sm_get (origins w) k else sm_get (origins w) i) by (intros i; apply get_modify).
  split; try done.
  - intros i o Ho. rewrite Hg. case_decide as E; [|by exists o]. subst. rewrite Ho. by exists (f o).
  - intros i o'. rewrite Hg. case_decide as E; [|left; by exists o']. subst.
    destruct (sm_get (origins w) k) as [o|]; [|done]. intros [= <-]. left. by exists o.
  - intros H s i. rewrite Hg. rewrite (H s i : origin_index (modify_origin k f w) !! s = Some i <-> _).
    case_decide as E; [|done]. subst. destruct (sm_get (origins w) k) as [o|]; [|done]. cbn.
    destruct (Hf o) as [Hk _]. split; intros (o'&[= <-]&<-); eauto.
Qed.

Lemma frame_modify_source k f w : world_frame w (modify_source k f w).
Proof.
  split; try done.
  - intros i Hi. unfold modify_source. cbn. rewrite get_modify. case_decide; [subst; by apply fmap_is_Some|done].
  - intros i o Ho. by exists o.
  - intros i o Ho. left. by exists o.
Qed.

Lemma frame_foldl {A} (f : t -> A -> t) l w : (forall w x, world_frame w (f w x)) -> world_frame w (foldl f w l).
Proof. intros Hf. revert w. induction l as [|x l IH]; intros w; [reflexivity|]. cbn. etrans; [apply Hf|apply IH]. Qed.

Lemma frame_apply_sample clk o w ps : world_frame w (apply_sample clk o w ps).
Proof.
  unfold apply_sample. repeat case_match; try reflexivity; apply frame_modify_endpoint.
Qed.

Lemma frame_apply_persisted clk o okey sig w po : world_frame w (apply_persisted clk o okey sig w po).
Proof.
  unfold apply_persisted. repeat case_match; try reflexivity. etrans; [|by apply frame_modify_origin].
  apply frame_foldl. intros. apply frame_apply_sample.
Qed.

Lemma frame_apply_pending_learning clk o w : world_frame w (apply_pending_learning clk o w).
Proof.
  unfold apply_pending_learning. repeat case_match; try reflexivity. apply frame_foldl. intros. apply frame_apply_persisted.
Qed.

(** A new origin under a key that is not indexed. *)
Lemma frame_new_origin k o w : origin_index w !! k = None -> OriginNode.okey o = k -> OriginNode.connections o = [] ->
  let '(id, m) := sm_insert o (origins w) in
  world_frame w (w <| origins := m |> <| origin_index ::= <[k := id]> |>).
Proof.
  intros Hn Hk Hc. pose proof (get_insert o (origins w)) as Hg. pose proof (get_insert_fresh o (origins w)) as Hf.
  destruct (sm_insert o (origins w)) as [id m]. cbn [fst snd] in Hg, Hf. split; try done; cbn.
  - intros i o' Ho. exists o'. rewrite Hg. case_decide; [congruence|done].
  - intros i o'. rewrite Hg. case_decide; [intros [= <-]; by right|]. intros Ho. left. by exists o'.
  - intros H s i. cbn. rewrite Hg. destruct (decide (s = k)) as [->|Hs].
    + rewrite lookup_insert_eq. case_decide as E; [subst i; split; [eauto|done]|].
      split; [congruence|]. intros Ho. apply H in Ho. congruence.
    + rewrite lookup_insert_ne by done. rewrite (H s i). case_decide as E; [|done]. subst i. rewrite Hf.
      split; [by intros (?&?&?)|]. intros (o'&[= <-]&?). congruence.
Qed.

Lemma frame_get_or_create_origin clk k w : world_frame w (get_or_create_origin clk k w).2.
Proof.
  unfold get_or_create_origin. destruct (origin_index w !! k) as [id|] eqn:E; [reflexivity|].
  pose proof (frame_new_origin k (OriginNode.new k (instant clk)) w E eq_refl eq_refl) as H.
  destruct (sm_insert _ _) as [id m]. etrans; [exact H|]. apply frame_apply_pending_learning.
Qed.

Lemma frame_created clk k w id w' : get_or_create_origin clk k w = (id, w') -> world_frame w w'.
Proof. intros H. pose proof (frame_get_or_create_origin clk k w) as Hf. by rewrite H in Hf. Qed.

Lemma frame_note_address acc a : world_frame acc.1.1 (note_address acc a).1.1.
Proof.
  unfold note_address. destruct acc as [[w eps] fresh]. destruct (endpoint_with_address _ _ _); [reflexivity|].
  destruct (sm_insert _ _). cbn. by apply frame_aside.
Qed.

Lemma frame_note_endpoints clk o l w w' f : note_endpoints clk o l w = Some (w', f) -> world_frame w w'.
Proof.
  unfold note_endpoints. destruct (get_origin w o) as [on|]; [|done].
  assert (H : forall acc, world_frame acc.1.1 (foldl note_address acc l).1.1).
  { induction l as [|a l IH]; intros acc; [reflexivity|]. cbn. etrans; [apply frame_note_address|apply IH]. }
  specialize (H (w, OriginNode.endpoints on, [])). destruct (foldl _ _ _) as [[w1 eps] fresh]. cbn in H. intros [= <- _].
  etrans; [exact H|]. destruct (bool_decide _); [by apply frame_modify_origin|].
  etrans; [|apply frame_apply_pending_learning]. by apply frame_modify_origin.
Qed.

Lemma frame_noted clk o l w r : note_endpoints clk o l w = Some r -> world_frame w r.1.
Proof. destruct r. apply frame_note_endpoints. Qed.

Lemma frame_note_endpoint_sample k s now w : world_frame w (note_endpoint_sample k s now w).
Proof. unfold note_endpoint_sample. repeat case_match; try reflexivity. apply frame_modify_endpoint. Qed.

Lemma frame_clear_endpoint_failures k w : world_frame w (clear_endpoint_failures k w).
Proof. unfold clear_endpoint_failures. case_match; [|reflexivity]. by apply frame_modify_origin. Qed.

Lemma frame_note_endpoint_failure k w : world_frame w (note_endpoint_failure k w).
Proof. unfold note_endpoint_failure. case_match; [|reflexivity]. by apply frame_modify_origin. Qed.
End frames.

Create HintDb frames.
#[export] Hint Resolve frame_modify_endpoint frame_modify_source frame_get_or_create_origin frame_note_endpoint_sample
  frame_clear_endpoint_failures frame_note_endpoint_failure frame_noted frame_created : frames.
#[export] Hint Extern 1 (world_frame _ (WorldModel.modify_origin _ _ _)) => (by apply frame_modify_origin) : frames.
