(* ===== verification/Refine.v ===== *)
(** * The handlers follow the protocol.

    [wp T m c Q]: from a state [c] that satisfies [ok], the handler [m] panics,
    runs out of fuel, or makes steps of the protocol to a state related to [c]
    by [T] where [Q] holds, its orders being those of the steps. The rules of
    [wp] follow the monad; each handler is then walked through once. *)

From Stdlib Require Import String.
From S2P Require Import Prelude Ranges Float Rates Errors Representation Policy Spec SlotMap Timers Segment PlanFrame World Controller Lifecycle Adaptive Handle Protocol Frames.
Local Open Scope Z_scope.

(** What a step may do to the jobs besides following the protocol: anything,
    or nothing to their plans that loses a byte. *)
Class Calm {L : SlotMapLib} {S : SecMapLib L} (T : Ctl.t -> Ctl.t -> Prop) := {
  calm_preorder :: PreOrder T;
  calm_intro c c' :
    (forall k, option_Forall2 (fun j j' => option_Forall2 evolves (JobNode.plan j) (JobNode.plan j')) (Ctl.job c k) (Ctl.job c' k)) ->
    T c c' }.

Section wp.
Context {L : SlotMapLib} {HL : SlotMapLaws L} {S : SecMapLib L} {W : WebLib}.
Context (probed : option key).

Definition wp {A} (T : Ctl.t -> Ctl.t -> Prop) (m : M A) (c : Ctl.t) (Q : A -> Ctl.t -> Prop) : Prop :=
  ok c -> forall l, match m (mkMachine c l) with
                    | Done (a, s) => exists b, acts s = l ++ b /\ steps probed c b (ctl s) /\ T c (ctl s) /\ Q a (ctl s)
                    | Panicked | OutOfFuel => True
                    end.

Definition any (c c' : Ctl.t) : Prop := True.
#[export] Instance any_calm : Calm any.
Proof. by repeat split. Qed.

Definition plans_evolve (c c' : Ctl.t) : Prop := forall k,
  option_Forall2 (fun j j' => option_Forall2 evolves (JobNode.plan j) (JobNode.plan j')) (Ctl.job c k) (Ctl.job c' k).

#[export] Instance plans_evolve_calm : Calm plans_evolve.
Proof.
  split; [|done]. split.
  - intros c k. destruct (Ctl.job c k) as [j|]; constructor. destruct (JobNode.plan j); by constructor.
  - intros c1 c2 c3 H1 H2 k. specialize (H1 k). specialize (H2 k). destruct H1 as [j1 j2 H1|].
    + inversion H2 as [? j3 H3|]; subst. constructor. destruct H1 as [p1 p2 H1|]; inversion H3; subst; constructor. by etrans.
    + inversion H2; subst. constructor.
Qed.

(** ** Rules *)

Section rules.
Context (T : Ctl.t -> Ctl.t -> Prop) {HT : Calm T}.

Lemma wp_ret {A} (a : A) c (Q : A -> Ctl.t -> Prop) : Q a c -> wp T (ret a) c Q.
Proof. intros HQ Hok l. exists []. rewrite app_nil_r. split_and!; [done|constructor|reflexivity|done]. Qed.

Lemma wp_bind {A B} (m : M A) (f : A -> M B) c Q :
  wp T m c (fun a c' => wp T (f a) c' Q) -> wp T (bind m f) c Q.
Proof.
  intros H Hok l. specialize (H Hok l). unfold bind. destruct (m _) as [[a s]| |]; [|done..].
  destruct H as (b&Hb&Hs&Ht&H). pose proof (steps_ok _ _ _ _ Hs Hok) as Hok'. specialize (H Hok' (acts s)).
  replace (mkMachine (ctl s) (acts s)) with s in H by (by destruct s). destruct (f a s) as [[a' s']| |]; [|done..].
  destruct H as (b'&Hb'&Hs'&Ht'&HQ). exists (b ++ b'). rewrite Hb', Hb, app_assoc.
  split_and!; [done|by eapply steps_app|by etrans|done].
Qed.

Lemma wp_conseq {A} (m : M A) c (Q Q' : A -> Ctl.t -> Prop) :
  wp T m c Q -> (forall a c', ok c' -> T c c' -> Q a c' -> Q' a c') -> wp T m c Q'.
Proof.
  intros H HQ Hok l. specialize (H Hok l). destruct (m _) as [[a s]| |]; [|done..].
  destruct H as (b&?&Hs&?&?). exists b. split_and!; try done. apply HQ; try done. by eapply steps_ok.
Qed.

(** A piece of code that is one step of the protocol. *)
Lemma wp_exec {A} (m : M A) c a b c' (Q : A -> Ctl.t -> Prop) :
  (forall l, m (mkMachine c l) = Done (a, mkMachine c' (l ++ b))) -> micro probed c b c' -> T c c' -> Q a c' -> wp T m c Q.
Proof. intros Hm Hc Ht HQ _ l. rewrite Hm. exists b. split_and!; [done|by apply steps_one|done|done]. Qed.

Lemma wp_with_ok {A} (m : M A) c Q : (ok c -> wp T m c Q) -> wp T m c Q.
Proof. intros H Hok. by apply H. Qed.

Lemma wp_ask {A} (f : Ctl.t -> A) c (Q : A -> Ctl.t -> Prop) : Q (f c) c -> wp T (ask f) c Q.
Proof. apply wp_ret. Qed.

Lemma wp_upd f c (Q : unit -> Ctl.t -> Prop) : micro probed c [] (f c) -> T c (f c) -> Q tt (f c) -> wp T (upd f) c Q.
Proof. intros Hm Ht HQ Hok l. exists []. rewrite app_nil_r. split_and!; [done|by apply steps_one|done|done]. Qed.

Lemma wp_emit a c (Q : unit -> Ctl.t -> Prop) : quiet c a -> Q tt c -> wp T (emit a) c Q.
Proof.
  intros Ha HQ Hok l. exists [a]. split_and!; [done|by apply steps_one, mi_quiet|reflexivity|done].
Qed.

Lemma wp_expect {A} (o : option A) c (Q : A -> Ctl.t -> Prop) : (forall a, o = Some a -> Q a c) -> wp T (expect o) c Q.
Proof. intros H. destruct o; [by apply wp_ret, H|done]. Qed.

Lemma wp_out_of_fuel {A} c (Q : A -> Ctl.t -> Prop) : wp T out_of_fuel c Q.
Proof. intros Hok l. exact I. Qed.

Lemma wp_when b (m : M unit) c Q : (b = true -> wp T m c Q) -> (b = false -> Q tt c) -> wp T (when b m) c Q.
Proof. destruct b; [auto|]. intros _ HQ. by apply wp_ret, HQ. Qed.

Lemma wp_for_each {A} (I : Ctl.t -> Prop) (l : list A) (f : A -> M unit) c (Q : unit -> Ctl.t -> Prop) :
  I c -> (forall x c, x ∈ l -> I c -> wp T (f x) c (fun _ c' => I c')) -> (forall c', I c' -> Q tt c') -> wp T (for_each l f) c Q.
Proof.
  revert c. induction l as [|x l IH]; intros c HI Hf HQ; [by apply wp_ret, HQ|]. cbn [for_each]. apply wp_bind.
  eapply wp_conseq; [apply Hf; [by left|done]|]. intros [] c' ? ? HI'. apply IH; [done| |done]. intros y c1 Hy. apply Hf. by right.
Qed.

(** ** The named updates *)

Lemma calm_same c c' : WorldModel.jobs (Ctl.world c') = WorldModel.jobs (Ctl.world c) -> T c c'.
Proof.
  intros H. apply calm_intro. intros k. unfold Ctl.job, WorldModel.get_job. rewrite H.
  destruct (sm_get _ k) as [j|]; constructor. destruct (JobNode.plan j); by constructor.
Qed.

Lemma wp_books f c Q : books c (f c) -> Q tt (f c) -> wp T (upd f) c Q.
Proof. intros Hb. apply wp_upd; [by apply mi_books|]. apply calm_same. by rewrite (bk_world _ _ Hb). Qed.

Lemma wp_world f c Q : world_frame (Ctl.world c) (f (Ctl.world c)) ->
  Q tt (c <| Ctl.world ::= f |>) -> wp T (upd (fun c => c <| Ctl.world ::= f |>)) c Q.
Proof. intros Hf. apply wp_upd; [by apply (mi_world _ c (f (Ctl.world c)))|]. by apply calm_same, wf_jobs. Qed.

Lemma wp_set_world w c Q : world_frame (Ctl.world c) w ->
  Q tt (c <| Ctl.world := w |>) -> wp T (upd (fun c => c <| Ctl.world := w |>)) c Q.
Proof. intros Hf. apply wp_upd; [by apply (mi_world _ c w)|]. by apply calm_same, wf_jobs. Qed.

Lemma wp_modify_origin k f c Q : (forall o, same_links o (f o)) ->
  Q tt (c <| Ctl.world ::= WorldModel.modify_origin k f |>) -> wp T (modify_origin k f) c Q.
Proof. intros Hf. apply wp_world. by apply frame_modify_origin. Qed.

Lemma wp_modify_connection k f c Q :
  (forall n, ConnectionNode.id (f n) = ConnectionNode.id n /\ ConnectionNode.origin (f n) = ConnectionNode.origin n) ->
  Q tt (c <| Ctl.world ::= WorldModel.modify_connection k f |>) -> wp T (modify_connection k f) c Q.
Proof. intros Hf. apply wp_upd; [by apply mi_conn|]. by apply calm_same. Qed.

(** A job whose plan is not touched. *)
Lemma wp_modify_job_calm k f c Q :
  (forall j, Ctl.job c k = Some j -> job_step j (f j) /\ JobNode.plan (f j) = JobNode.plan j) ->
  Q tt (c <| Ctl.world ::= WorldModel.modify_job k f |>) -> wp T (modify_job k f) c Q.
Proof.
  intros Hf. apply wp_upd; [apply mi_job; intros; by apply Hf|]. apply calm_intro. intros i. rewrite job_modify.
  case_decide; [subst|].
  - destruct (Ctl.job c k) as [j|] eqn:E; constructor. destruct (Hf _ eq_refl) as [_ ->]. destruct (JobNode.plan j); by constructor.
  - destruct (Ctl.job c i) as [j|]; constructor. destruct (JobNode.plan j); by constructor.
Qed.

Lemma wp_drop k c Q : Q tt (Ctl.drop_connection k c) -> wp T (drop_connection k) c Q.
Proof.
  apply wp_upd; [apply mi_drop|]. apply calm_intro. intros i. rewrite job_drop.
  destruct (Ctl.job c i) as [j|]; constructor. cbn. destruct (JobNode.plan j); constructor. apply unlink_evolves.
Qed.

Lemma wp_bump o now c Q : Q tt (Ctl.bump_generation o now c) -> wp T (bump_generation o now) c Q.
Proof. apply wp_books. split; try done. intros [_ ? _]. cbn. lia. Qed.

Lemma wp_dial_best clk o e allow serving now c on (Q : key -> Ctl.t -> Prop) :
  Ctl.org c o = Some on -> e ∈ OriginNode.endpoints on -> (forall k c', Q k c') ->
  wp T (dial_best clk o e allow serving now) c Q.
Proof.
  intros Ho He HQ. apply wp_bind, wp_ask. intros Hok l. unfold dial_connection.
  set (sh := Ctl.place_shard c). pose proof (mi_dial probed c clk o e sh allow serving now on Ho He) as Hm.
  pose proof (dial_tables clk o e sh allow serving now c) as Ht. cbn [ctl acts].
  destruct (Ctl.dial_connection _ _ _ _ _ _ _ _) as [[k c'] a]. cbn in *. destruct Ht as (Hj&_).
  exists [a]. split_and!; [done|by apply steps_one|by apply calm_same|apply HQ].
Qed.

(** A procedure none of whose callers cares where it leads. *)
Definition sim (m : M unit) : Prop := forall c, wp T m c (fun _ _ => True).

Lemma wp_sim m c (Q : unit -> Ctl.t -> Prop) : sim m -> (forall c', Q tt c') -> wp T m c Q.
Proof. intros Hm HQ. eapply wp_conseq; [apply Hm|]. intros [] c' _ _ _. apply HQ. Qed.
End rules.

(** ** Actions *)

Lemma quiet_plain c a : ends a = None -> starts a = false -> commits a = false -> opens a = false -> accounted a -> orders a = None -> quiet c a.
Proof. intros ? ? ? ? ? Ho. split_and!; try done. by rewrite Ho. Qed.

Lemma quiet_live c a k : ends a = None -> starts a = false -> commits a = false -> opens a = false ->
  accounted a -> orders a = Some k -> live c k -> quiet c a.
Proof. intros ? ? ? ? ? Ho ?. split_and!; try done. rewrite Ho. by intros i [= <-]. Qed.

Lemma live_job c k j : Ctl.job c k = Some j -> live c k.
Proof. intros H. by exists j. Qed.

Lemma live_upd c k f : (forall w, WorldModel.jobs (f w) = WorldModel.jobs w) -> live c k -> live (c <| Ctl.world ::= f |>) k.
Proof. intros Hf. unfold live, Ctl.job, WorldModel.get_job. cbn. by rewrite Hf. Qed.
End wp.

(** *** Automation *)

Create HintDb live.
#[export] Hint Resolve live_job : live.
#[export] Hint Extern 1 (live (_ <| Ctl.world ::= WorldModel.modify_job _ _ |>) _) => apply live_modify : live.
#[export] Hint Extern 2 (live (_ <| Ctl.world ::= _ |>) _) => (apply live_upd; [reflexivity|]) : live.

Ltac quiet_tac :=
  first [ apply quiet_plain; solve [reflexivity | done]
        | eapply quiet_live; [solve [reflexivity | done]..|try solve [eauto 8 with live]] ].

(** A step of a job that leaves its plan, its length and its evidence alone. *)
Ltac same_step :=
  first [apply job_step_same | split; [apply job_step_same|]];
    [ by split | reflexivity
    | first [exact (jk_phase _) | by intros]
    | reflexivity | reflexivity
    | first [done | exact (fun H => H)]
    | reflexivity .. ].
Ltac same_job := intros ? _; same_step.

Ltac wp_step :=
  cbv beta;
  lazymatch goal with
  | |- wp ?p ?T (bind _ _) _ _ => apply (wp_bind p T)
  | |- wp ?p ?T (ret _) _ _ => apply (wp_ret p T)
  | |- wp ?p ?T (ask _) _ _ => apply (wp_ask p T)
  | |- wp ?p ?T (emit _) _ _ => apply (wp_emit p T); [quiet_tac|]
  | |- wp ?p ?T out_of_fuel _ _ => apply (wp_out_of_fuel p T)
  | |- wp ?p ?T (expect _) _ _ => apply (wp_expect p T); intros ? ?
  | |- wp ?p ?T (when _ _) _ _ => apply (wp_when p T); intros ?
  | |- wp ?p ?T (modify_origin _ _) _ _ => apply (wp_modify_origin p T); [done|]
  | |- wp ?p ?T (modify_connection _ _) _ _ => apply (wp_modify_connection p T); [done|]
  | |- wp ?p ?T (drop_connection _) _ _ => apply (wp_drop p T)
  | |- wp ?p ?T (bump_generation _ _) _ _ => apply (wp_bump p T)
  | |- wp _ _ (match ?x with _ => _ end) _ _ => destruct x eqn:?
  | |- True => exact I
  end.

(** Procedures that are already known, by name in the database [sims]. *)
Create HintDb sims.
Ltac wp_known :=
  lazymatch goal with
  | |- wp ?p ?T _ _ _ => apply (wp_sim p T); [solve [eauto 3 with sims]|intros ?]
  end.

Ltac wp_go := repeat first [wp_known | wp_step].

(** Counters and evidence tables that the protocol does not mention. *)
Ltac books_tac := split; [reflexivity..|let H := fresh in intros [_ H _]; split; [apply H|reflexivity]].

Section calm.
Context {L : SlotMapLib} {HL : SlotMapLaws L} {S : SecMapLib L} {W : WebLib}.
Context (probed : option key) (clk : Clock).
Context (T : Ctl.t -> Ctl.t -> Prop) {HT : Calm T}.

Abbreviation sim := (sim probed T).

(** ** Dialing and probing *)

Lemma best_endpoint_in c o now e : Ctl.best_endpoint c o now = Some e ->
  exists on, Ctl.org c o = Some on /\ e ∈ OriginNode.endpoints on.
Proof.
  unfold Ctl.best_endpoint, WorldModel.select_endpoint, Ctl.org. destruct (WorldModel.get_origin _ o) as [on|]; [|done].
  intros [_ H]%min_by_elem%retain_elem. eauto.
Qed.

Lemma sim_dial_best o e allow serving now c (Q : key -> Ctl.t -> Prop) : Ctl.best_endpoint c o now = Some e ->
  (forall k c', Q k c') -> wp probed T (dial_best clk o e allow serving now) c Q.
Proof. intros (on&Ho&He)%best_endpoint_in HQ. by apply (wp_dial_best probed T _ _ _ _ _ _ _ on). Qed.

Lemma sim_open_one_connection o now h3 : sim (open_one_connection clk o now h3).
Proof.
  intros c. unfold open_one_connection. wp_go. apply (sim_dial_best o); [done|]. intros. wp_go.
Qed.
#[local] Hint Resolve sim_open_one_connection : sims.

Lemma jobs_live c k j : (k, j) ∈ Ctl.jobs c -> live c k.
Proof. intros H. apply sm_iter_Some in H. by exists j. Qed.

Lemma find_live c p k : option_map fst (find p (Ctl.jobs c)) = Some k -> live c k.
Proof.
  destruct (find p (Ctl.jobs c)) as [[k' j]|] eqn:E; intros [= <-]. apply find_Some in E as [E _]. by apply jobs_live in E.
Qed.

Lemma waiting_probe_job_live c o k : Ctl.waiting_probe_job c o = Some k -> live c k.
Proof.
  unfold Ctl.waiting_probe_job. pose proof (find_live c (Ctl.awaits_probe c o Created) k) as H.
  destruct (find (Ctl.awaits_probe c o Created) _) as [[k1 j1]|]; [exact H|]. apply find_live.
Qed.
#[local] Hint Resolve waiting_probe_job_live find_live : live.

Lemma sim_probe_loop fuel o now : sim (probe_loop clk fuel o now).
Proof.
  induction fuel as [|fuel IH]; intros c; cbn [probe_loop]; [by wp_step|]. wp_step. wp_step. wp_step; [|by wp_go].
  wp_step. wp_step. wp_step.
  - wp_step. apply (wp_modify_job_calm probed T); [same_job|]. wp_go; apply IH.
  - wp_step. wp_step. wp_step; [|by wp_go]. wp_step. apply (sim_dial_best o); [done|]. intros. wp_step.
    apply (wp_modify_job_calm probed T); [same_job|]. wp_go; apply IH.
Qed.

Lemma sim_ensure_probes fuel o now : sim (ensure_probes clk fuel o now).
Proof. intros c. unfold ensure_probes. wp_go. apply sim_probe_loop. Qed.

(** ** Scaling *)

Lemma sim_scale_loop fuel o target now : sim (scale_loop clk fuel o target now).
Proof.
  induction fuel as [|fuel IH]; intros c; cbn [scale_loop]; [by wp_go|]. wp_go.
  apply (sim_dial_best o); [done|]. intros. apply IH.
Qed.

Lemma sim_scale_connections o now : sim (scale_connections clk o now).
Proof. intros c. unfold scale_connections. wp_go; apply sim_scale_loop. Qed.

Lemma sim_close_connection k : sim (close_connection k).
Proof. intros c. unfold close_connection. wp_go. Qed.

Lemma sim_discover_h3 o now : sim (discover_h3 clk o now).
Proof. intros c. unfold discover_h3. wp_go. apply (sim_dial_best o); [done|]. intros. wp_go. Qed.

Lemma sim_start_adaptive o now : sim (start_adaptive o now).
Proof.
  intros c. unfold start_adaptive. wp_go.
  - apply (wp_books probed T); [books_tac|]. wp_go.
  - apply (wp_books probed T); [books_tac|]. wp_go.
Qed.
End calm.

(** ** Every handler

    From here on only the protocol matters, not what becomes of the plans. *)

Section full.
Context {L : SlotMapLib} {HL : SlotMapLaws L} {S : SecMapLib L} {W : WebLib}.
Context (probed : option key).

Lemma wp_modify_job k f c (Q : unit -> Ctl.t -> Prop) : (forall j, Ctl.job c k = Some j -> job_step j (f j)) ->
  Q tt (c <| Ctl.world ::= WorldModel.modify_job k f |>) -> wp probed any (modify_job k f) c Q.
Proof. intros Hf. by apply (wp_upd probed any); [apply mi_job|]. Qed.

(** An order that is one step with the change before it. *)
Lemma wp_order {A} f a (m : M A) c Q : micro probed c [a] (f c) -> wp probed any m (f c) Q ->
  wp probed any (upd f ;; emit a ;; m) c Q.
Proof.
  intros Hm H Hok l. specialize (H (micro_ok _ _ _ _ Hm Hok) (l ++ [a])). unfold bind, upd, emit. cbn [ctl acts].
  destruct (m _) as [[x s]| |]; [|done..]. destruct H as (b&Hb&Hs&_&HQ). exists ([a] ++ b).
  rewrite Hb, <- app_assoc. split_and!; [done| |done|done]. by eapply steps_cons.
Qed.

(** Calm code in the middle of a handler. *)
Lemma wp_calm m c (Q : unit -> Ctl.t -> Prop) : sim probed plans_evolve m ->
  (forall c', ok c' -> plans_evolve c c' -> Q tt c') -> wp probed any m c Q.
Proof.
  intros Hm HQ Hok l. specialize (Hm c Hok l). destruct (m _) as [[[] s]| |]; [|done..].
  destruct Hm as (b&?&Hs&?&_). exists b. split_and!; try done. apply HQ; [by eapply steps_ok|done].
Qed.

(** The plan of a job, as the handlers look it up. *)
Definition plan_of (c : Ctl.t) (k : key) : option SegmentPlan.t :=
  match Ctl.job c k with Some j => JobNode.plan j | None => None end.

Lemma plan_of_live c k p : plan_of c k = Some p -> live c k.
Proof. unfold plan_of. destruct (Ctl.job c k) as [j|] eqn:E; [|done]. intros _. by exists j. Qed.

Lemma wp_set_plan k p p' c (Q : unit -> Ctl.t -> Prop) : plan_of c k = Some p -> evolves p p' ->
  Q tt (c <| Ctl.world ::= WorldModel.modify_job k (fun j => j <| JobNode.plan := Some p' |>) |>) ->
  wp probed any (modify_job k (fun j => j <| JobNode.plan := Some p' |>)) c Q.
Proof.
  unfold plan_of. intros Hp He. apply wp_modify_job. intros j Hj. rewrite Hj in Hp. by eapply plan_step_evolves.
Qed.

Lemma release_books k c : books c (Ctl.release_assignment_slot k c).
Proof.
  destruct k as [k|]; split; try done; intros [_ H _]; cbn; unfold u64_sat_sub; lia.
Qed.

Lemma job_step_map_plan f j : (forall p, evolves p (f p)) -> job_step j (j <| JobNode.plan ::= option_map f |>).
Proof.
  intros Hf. apply job_step_plan; try done.
  - exact (jk_phase j).
  - intros p _ Hp. cbn. rewrite Hp. eexists. split; [reflexivity|apply Hf].
  - intros _ Hp p'. cbn. by rewrite Hp.
Qed.
End full.

Ltac wp_any_step :=
  cbv beta;
  lazymatch goal with
  | |- wp ?p any (modify_job _ _) _ _ => apply (wp_modify_job p); [solve [same_job]|]
  | |- wp ?p ?T (for_each _ _) _ _ => apply (wp_for_each p T (fun _ => True)); [exact I|intros ? ? ? _|intros ? _]
  | |- wp ?p ?T (dial_best ?clk _ _ _ _ _) _ _ => eapply (sim_dial_best p clk T); [eassumption|intros ? ?]
  | |- wp _ _ (with_job_origin _ _) _ _ => unfold with_job_origin
  | |- wp _ _ (for_jobs_on _ _ _) _ _ => unfold for_jobs_on
  | |- wp ?p ?T (upd (Ctl.release_assignment_slot _)) _ _ => apply (wp_books p T); [apply release_books|]
  | |- wp ?p ?T (upd (Ctl.drop_connection _)) _ _ => apply (wp_drop p T)
  | |- wp ?p ?T (upd (fun c => c <| Ctl.world ::= _ |>)) _ _ => apply (wp_world p T); [solve [eauto 2 with frames]|]
  | |- wp ?p ?T (upd (fun c => c <| Ctl.world := _ |>)) _ _ => apply (wp_set_world p T); [solve [eauto 2 with frames]|]
  | |- wp ?p ?T (upd _) _ _ => apply (wp_books p T); [solve [books_tac]|]
  | _ => wp_step
  end.

Ltac wp_run := repeat first [wp_known | wp_any_step].

Section handlers.
Context {L : SlotMapLib} {HL : SlotMapLaws L} {S : SecMapLib L} {W : WebLib}.
Context (probed : option key) (clk : Clock) (fuel : nat).

Abbreviation sim := (sim probed any).
#[local] Hint Extern 1 (Calm _) => apply _ : sims.
#[local] Hint Resolve sim_open_one_connection sim_ensure_probes sim_scale_connections sim_close_connection
  sim_discover_h3 sim_start_adaptive : sims.
#[local] Hint Resolve waiting_probe_job_live find_live : live.

(** *** Claims *)

Lemma runnable_live c k o : Ctl.is_runnable clk c k o = true -> live c k.
Proof. unfold Ctl.is_runnable. destruct (Ctl.job c k) eqn:E; [|done]. by eexists. Qed.

Lemma wp_claim_one k now c (Q : bool -> Ctl.t -> Prop) : Ctl.in_flight_on c k < Ctl.stream_capacity c k ->
  (forall b c', Q b c') -> wp probed any (claim_one clk k now) c Q.
Proof.
  intros Hcap HQ. unfold claim_one, claim_on_plan, bind, ask, modify_job, upd, emit. intros Hok l. cbn [ctl acts].
  destruct (Ctl.conn c k) as [n|] eqn:En; [|exact (wp_ret probed any false c Q (HQ _ _) Hok l)].
  destruct (negb _) eqn:Er; [by apply (wp_ret probed any false c Q (HQ _ _))|].
  destruct (Ctl.pick_wfq_job _ _ _) as [j|] eqn:Ep; cbn [ctl]; [|exact (wp_ret probed any false c Q (HQ _ _) Hok l)].
  assert (Hj : live c j) by (by eapply runnable_live, pick_runnable). destruct Hj as [jn Ej]. rewrite !Ej.
  destruct (JobNode.plan jn) as [p|] eqn:Epl; [|exact (wp_ret probed any false c Q (HQ _ _) Hok l)].
  destruct (claim_piece _ _ _ _ _ _ _) as [[[piece|] p']|] eqn:Ecl; cbn; [| |done].
  - assert (Hr : ConnectionNode.status n = Ready) by (unfold status_is in Er; by apply negb_false_iff, bool_decide_eq_true in Er).
    pose proof (mi_claim probed c clk now k n j jn p piece p' En Hr Hcap Ep Ej Epl Ecl) as H. unfold cut_order in *.
    unfold start_piece, count_in_flight in *. cbn in H. cbn.
    destruct (cp_tail_cut piece) as [cut|]; cbn; cbn in H; destruct (sec_get _ k); cbn; cbn in H;
      (eexists; split_and!; [|apply steps_one; exact H|done|apply HQ]); by rewrite <- ?app_assoc.
  - assert (H := wp_set_plan probed j p p' c (fun _ c' => Q false c')). unfold plan_of in H. rewrite Ej in H.
    apply (H Epl (claim_piece_evolves _ _ _ _ _ _ _ _ _ Ecl) (HQ _ _) Hok l).
Qed.

Lemma next_connection_room c l k : next_connection c l = Some k -> Ctl.in_flight_on c k < Ctl.stream_capacity c k.
Proof. unfold next_connection. intros [[_ H]%andb_true_iff _]%min_by_elem%retain_elem. by apply Z.ltb_lt. Qed.

Lemma sim_pump_loop n l now : sim (pump_loop clk n l now).
Proof.
  induction n as [|n IH]; intros c; cbn [pump_loop]; [by wp_step|]. wp_run. apply wp_claim_one; [by eapply next_connection_room|].
  intros. wp_run.
Qed.

Lemma sim_pump o now : sim (pump clk o now).
Proof. intros c. unfold pump. wp_run. apply sim_pump_loop. Qed.
#[local] Hint Resolve sim_pump : sims.

(** *** The end of a job *)

Lemma sim_finish_job k o : sim (finish_job clk fuel k o).
Proof.
  intros c. unfold finish_job. wp_step. wp_step. wp_step; [|by wp_run]. apply wp_order; [by apply mi_finish|]. wp_run.
Qed.
#[local] Hint Resolve sim_finish_job : sims.

Lemma sim_try_complete_drain k : sim (try_complete_drain clk fuel k).
Proof. intros c. unfold try_complete_drain. wp_run. Qed.
#[local] Hint Resolve sim_try_complete_drain : sims.

Lemma sim_begin_fail k e : sim (begin_fail clk fuel k e).
Proof. intros c. unfold begin_fail. wp_run. Qed.
#[local] Hint Resolve sim_begin_fail : sims.

(** *** Other sources, other attempts *)

Lemma wp_activate_next_source k c (Q : bool -> Ctl.t -> Prop) : (forall b c', Q b c') ->
  wp probed any (activate_next_source k) c Q.
Proof. intros HQ. unfold activate_next_source. wp_run; apply HQ. Qed.

Lemma sim_retry_resolve k now : sim (retry_resolve clk fuel k now).
Proof. intros c. unfold retry_resolve. wp_run. Qed.
#[local] Hint Resolve sim_retry_resolve : sims.

(** Code that may have moved on to another source, and if not goes on. *)
Lemma wp_unless_moved (b : bool) k m c : sim m ->
  wp probed any (let! moved := (if b then activate_next_source k else ret false) in if moved : bool then ret tt else m) c
    (fun _ _ => True).
Proof.
  intros Hm. wp_step. destruct b.
  - apply wp_activate_next_source. intros moved c'. wp_run.
  - wp_run.
Qed.

Lemma sim_on_intent_connect_failed k s e o now : sim (on_intent_connect_failed clk fuel k s e o now).
Proof. intros c. unfold on_intent_connect_failed. wp_step; [wp_run|]. wp_step. wp_step. apply wp_unless_moved. auto with sims. Qed.
#[local] Hint Resolve sim_on_intent_connect_failed : sims.

Lemma sim_cool_origin o now d : sim (cool_origin o now d).
Proof. intros c. unfold cool_origin. wp_run. Qed.
#[local] Hint Resolve sim_cool_origin : sims.

(** *** What a failed request does to its job *)

Lemma wp_retry_plan d attempt now c (Q : option (Z * Z) -> Ctl.t -> Prop) : (forall r, Q r c) ->
  wp probed any (retry_plan d attempt now) c Q.
Proof. intros HQ. unfold retry_plan. wp_run; apply HQ. Qed.

Lemma give_up_evolves a r n now p : evolves p (give_up_range a r n now p).
Proof.
  unfold give_up_range. pose proof (abandon_evolves p a) as H. destruct (SegmentPlan.abandon p a) as [x q].
  destruct r as [[delay next]|], x as [x|]; try exact H. destruct (_ <=? _); [|exact H]. etrans; [exact H|apply defer_evolves].
Qed.

Lemma sim_on_retry k a r pl n now : sim (on_retry clk fuel k a r pl n now).
Proof. intros c. unfold on_retry. wp_run. Qed.
Lemma sim_on_back_off k after n now : sim (on_back_off k after n now).
Proof. intros c. unfold on_back_off. wp_run. Qed.
Lemma sim_on_refresh_credentials k st : sim (on_refresh_credentials clk fuel k st).
Proof. intros c. unfold on_refresh_credentials. wp_run. Qed.
#[local] Hint Resolve sim_on_retry sim_on_back_off sim_on_refresh_credentials : sims.

Lemma single_stream_fits b p : fits p -> fits (SegmentPlan.set_single_stream p b).
Proof. by apply fits_same. Qed.

Lemma full_body_step j : job_step j (j <| JobNode.supports_ranges := false |> <| JobNode.plan := Some (full_body_plan j) |>).
Proof.
  apply job_step_plan; try done.
  - exact (jk_phase j).
  - intros p Hok Hp. eexists. split; [reflexivity|]. destruct (jk_plan _ Hok _ Hp) as [_ Ht].
    unfold full_body_plan. rewrite Hp. split; [done| |done].
    intros [F1 F2 F3 _]. unfold extent in *. rewrite Ht in *. by apply single_stream_fits, new_fits.
  - intros Hok Hp p' [= <-]. unfold full_body_plan. rewrite Hp. split; [|done].
    apply single_stream_fits, new_fits; [apply Hok|apply RangeSet.empty_wf|]. by intros x ?%RangeSet.mem_empty.
Qed.

Lemma sim_on_full_body k now : sim (on_full_body clk k now).
Proof. intros c. unfold on_full_body. wp_step. apply wp_modify_job; [intros; apply full_body_step|]. wp_run. Qed.
Lemma sim_on_recheck_length k now : sim (on_recheck_length clk k now).
Proof. intros c. unfold on_recheck_length. wp_run. Qed.
#[local] Hint Resolve sim_on_full_body sim_on_recheck_length : sims.

Lemma sim_evict k x now v : sim (evict k x now v).
Proof.
  intros c. unfold evict. destruct v as [vj va]. wp_step. wp_step. wp_step; wp_step; [|wp_run].
  pose proof (abandon_evolves t va) as He. destruct (SegmentPlan.abandon t va) as [a p']. wp_step.
  apply (wp_set_plan _ _ t); [done|exact He|]. apply plan_of_live in Heqo. wp_run.
Qed.
#[local] Hint Resolve sim_evict : sims.

Lemma quarantine_step sid j : job_step j (quarantine_source sid j).
Proof. unfold quarantine_source. cbv zeta. destruct (bool_decide _); same_step. Qed.

Lemma sim_on_quarantine k x r now : sim (on_quarantine clk fuel k x r now).
Proof.
  intros c. unfold on_quarantine. wp_step. wp_step. wp_step; [wp_run|]. wp_step.
  apply (wp_for_each probed any (fun c => live c k)); [destruct (Ctl.job c k) eqn:?; [by eapply live_job|done]| |intros c1 ?].
  { intros sid c1 _ ?. apply wp_modify_job; [intros; apply quarantine_step|]. auto with live. }
  wp_step. wp_step. wp_step.
  all: assert (Hend : forall c, wp probed any (let! has_active := ask (fun c => match Ctl.job c k with
         | Some j => negb (bool_decide (JobNode.active_sources j = [])) | None => false end) in
         if has_active : bool then ret tt
         else let! moved := activate_next_source k in
              if moved : bool then ret tt
              else finish_job clk fuel k (inl ("all sources failed or were quarantined: " +:+ r)%string)) c (fun _ _ => True))
    by (intros c2; wp_step; wp_step; wp_step; [wp_run|]; wp_step; apply wp_activate_next_source; intros; wp_run).
  all: wp_run.
Qed.

Lemma sim_on_fatal k a st r : sim (on_fatal clk fuel k a st r).
Proof. intros c. unfold on_fatal. apply wp_unless_moved. auto with sims. Qed.
#[local] Hint Resolve sim_on_quarantine sim_on_fatal : sims.

Lemma sim_dispose k a r d pl n att x now : sim (dispose clk fuel k a r d pl n att x now).
Proof. intros c. unfold dispose. wp_run. Qed.
#[local] Hint Resolve sim_dispose : sims.

Lemma sim_drain_if_needed k : sim (drain_if_needed clk fuel k).
Proof. intros c. unfold drain_if_needed. wp_run. Qed.
#[local] Hint Resolve sim_drain_if_needed : sims.

Lemma sim_handle_assignment_disposition k a r d att x now : sim (handle_assignment_disposition clk fuel k a r d att x now).
Proof.
  intros c. unfold handle_assignment_disposition. wp_step. wp_step. wp_step. apply wp_retry_plan. intros pl. wp_step. wp_step.
  - apply wp_modify_job; [intros; apply job_step_map_plan; intros; apply give_up_evolves|]. wp_run.
  - wp_run.
Qed.
#[local] Hint Resolve sim_handle_assignment_disposition : sims.

(** *** Redirects *)

Lemma sim_fail_with k e : sim (fail_with clk fuel k e).
Proof. apply sim_finish_job. Qed.
#[local] Hint Resolve sim_fail_with : sims.

Lemma wp_follow_same_origin k x sid u c : live c k -> wp probed any (follow_same_origin k x sid u) c (fun _ _ => True).
Proof. intros Hk. unfold follow_same_origin. wp_run. Qed.

Lemma sim_follow_cross_origin k x sid u nk b : sim (follow_cross_origin clk k x sid u nk b).
Proof. intros c. unfold follow_cross_origin. wp_run. Qed.
#[local] Hint Resolve sim_follow_cross_origin : sims.

Lemma sim_handle_probe_redirect k x st loc now : sim (handle_probe_redirect clk fuel k x st loc now).
Proof. intros c. unfold handle_probe_redirect. wp_run. apply wp_follow_same_origin. eauto with live. Qed.
#[local] Hint Resolve sim_handle_probe_redirect : sims.

(** *** Adaptive topology *)

Lemma sim_open_parallel_connection o now b : sim (open_parallel_connection clk o now b).
Proof. intros c. unfold open_parallel_connection. wp_run. Qed.
#[local] Hint Resolve sim_open_parallel_connection : sims.

Lemma sim_consider_early_connection_scale o now s : sim (consider_early_connection_scale clk o now s).
Proof. intros c. unfold consider_early_connection_scale. wp_run. Qed.

Lemma sim_revert v x o now : sim (revert v x o now).
Proof. intros c. unfold revert. wp_run. Qed.
#[local] Hint Resolve sim_revert : sims.

Lemma sim_judge_experiment d e o now : sim (judge_experiment d e o now).
Proof. intros c. unfold judge_experiment. wp_run. Qed.
#[local] Hint Resolve sim_judge_experiment : sims.

Lemma wp_try_candidate d o now v c (Q : bool -> Ctl.t -> Prop) : (forall b c', Q b c') ->
  wp probed any (try_candidate clk d o now v) c Q.
Proof. intros HQ. unfold try_candidate. destruct v; wp_run; apply HQ. Qed.

Lemma sim_evaluate_experiment d o now : sim (evaluate_experiment clk d o now).
Proof. intros c. unfold evaluate_experiment. wp_run; apply wp_try_candidate; intros; wp_run. apply wp_try_candidate. intros. wp_run. Qed.
#[local] Hint Resolve sim_evaluate_experiment : sims.

Lemma sim_sweep_retired now : sim (sweep_retired now).
Proof. intros c. unfold sweep_retired. wp_run. Qed.
#[local] Hint Resolve sim_sweep_retired : sims.

Lemma measure_window_links o now a st ce mu ha ms li on re wo d f :
  measure_window o now a st ce mu ha ms li on re wo = Some (d, f) -> forall o', same_links o' (f o').
Proof. unfold measure_window. cbv zeta. case_match; [done|]. by intros [= _ <-] o'. Qed.

Lemma sim_run_window o now : sim (run_window clk o now).
Proof.
  intros c. unfold run_window. wp_run. apply wp_modify_origin; [apply _| |wp_run]. subst p.
  match goal with H : match ?x with _ => _ end = Some _ |- _ => destruct x; [|done] end. by eapply measure_window_links.
Qed.
#[local] Hint Resolve sim_run_window : sims.

Lemma sim_adaptive_tick o now : sim (adaptive_tick clk o now).
Proof. intros c. unfold adaptive_tick. wp_run. Qed.

(** *** Rebalancing *)

Lemma sim_rebalance_job now k : sim (rebalance_job now k).
Proof.
  intros c. unfold rebalance_job. wp_step. wp_step. wp_step; [|wp_run]. pose proof (rebalance_evolves t now) as He.
  destruct (SegmentPlan.rebalance_stragglers t now) as [p' cuts]. wp_step. apply (wp_set_plan _ _ t); [done|exact He|].
  apply plan_of_live in Heqo. apply (wp_for_each probed any (fun c => live c k)); [eauto with live| |done].
  intros x c' _ Hk. wp_run; exact Hk.
Qed.
#[local] Hint Resolve sim_rebalance_job : sims.

Lemma sim_retry_pending_mirror_sample k : sim (retry_pending_mirror_sample k).
Proof.
  intros c. unfold retry_pending_mirror_sample. wp_step. wp_step. wp_step; [|wp_run]. wp_step; [|wp_run]. cbv zeta. wp_step; [wp_run|].
  apply (wp_for_each probed any (fun c => live c k)); [eauto with live| |done].
  intros x c' _ Hk. unfold sample_mirror. wp_run; eauto with live.
Qed.
#[local] Hint Resolve sim_retry_pending_mirror_sample : sims.

Lemma sim_mix_mirror now k : sim (mix_mirror clk now k).
Proof. intros c. unfold mix_mirror. wp_run. Qed.
#[local] Hint Resolve sim_mix_mirror : sims.

Lemma sim_rebalance_tick o now : sim (rebalance_tick clk o now).
Proof. intros c. unfold rebalance_tick. wp_run. Qed.
#[local] Hint Resolve sim_consider_early_connection_scale sim_adaptive_tick sim_rebalance_tick : sims.

(** *** Admission, cancellation, resolution *)

(** What the controller may take for granted about an observation: its numbers
    are those of the machine, and evidence to resume from comes with a job that
    has not been probed. *)
Definition obs_ok (c : Ctl.t) (obs : Observation) : Prop :=
  match obs with
  | JobAdmitted k _ resume0 => forall j r, Ctl.job c k = Some j -> resume0 = Some r ->
      RangeSet.wf (re_durable r) /\ JobNode.total_length j = None
  | Probed _ _ _ _ total _ _ _ _ => in_u64 (default u64_max total)
  | AssignmentVerified _ _ range _ _ _ => ByteRange.wf range
  | _ => True
  end.

Lemma admitted_step c k spec resume0 v j : obs_ok c (JobAdmitted k spec resume0) -> Ctl.job c k = Some j ->
  job_step j (j <| JobNode.integrity := js_integrity spec |> <| JobNode.resume := resume0 |> <| JobNode.virt_service := v |>).
Proof.
  intros Ho Hj. split; [by split| |intros _; exact (bytes_kept_refl j)].
  intros [J1 J2 J3 J4 J5]. split; try done. cbn. intros r Hr. by eapply Ho.
Qed.

Lemma wp_on_job_admitted k spec resume0 now c : obs_ok c (JobAdmitted k spec resume0) ->
  wp probed any (on_job_admitted clk fuel k spec resume0 now) c (fun _ _ => True).
Proof.
  intros Ho. unfold on_job_admitted. wp_step. wp_step. wp_step. wp_step. wp_step. apply wp_modify_job.
  - intros j Hj. cbv zeta. destruct (f64_is_finite _); [by eapply admitted_step|].
    exact (admitted_step c k spec resume0 (JobNode.virt_service j) j Ho Hj).
  - wp_run.
Qed.

Lemma sim_on_job_cancelled k now : sim (on_job_cancelled clk fuel k now).
Proof. intros c. unfold on_job_cancelled. wp_run. Qed.

Lemma sim_dial_mirror o b now m : sim (dial_mirror clk o b now m).
Proof. intros c. unfold dial_mirror. wp_run. Qed.
#[local] Hint Resolve sim_dial_mirror : sims.

Lemma sim_on_resolved o l f r now : sim (on_resolved clk fuel o l f r now).
Proof. intros c. unfold on_resolved. wp_run. Qed.

(** *** Connections *)

Lemma sim_note_handshake o h : sim (note_handshake o h).
Proof. intros c. unfold note_handshake. wp_run. Qed.
#[local] Hint Resolve sim_note_handshake : sims.

Lemma sim_probe_over k x c : live c k -> wp probed any (probe_over k x) c (fun _ _ => True).
Proof. intros Hk. unfold probe_over. wp_run. Qed.

Lemma sim_put_to_use x n now : sim (put_to_use clk fuel x n now).
Proof.
  intros c. unfold put_to_use. wp_run; apply sim_probe_over; [|eauto with live].
  match goal with H : match _ with _ => _ end = Some _ |- _ => revert H end.
  destruct (ConnectionNode.intent n) as [i| |]; [|done..]. destruct (Ctl.job c i) eqn:E; [|done].
  destruct (_ && _); [|done]. intros [= <-]. eauto with live.
Qed.
#[local] Hint Resolve sim_put_to_use : sims.

Lemma sim_on_connection_ready x h p now : sim (on_connection_ready clk fuel x h p now).
Proof. intros c. unfold on_connection_ready. wp_run. Qed.

Lemma sim_on_connection_failed x f now : sim (on_connection_failed clk fuel x f now).
Proof. intros c. unfold on_connection_failed. wp_run. Qed.

(** *** Commands that never reached their shard *)

Lemma sim_roll_back op k a x o now : sim (roll_back clk fuel op k a x o now).
Proof. intros c. unfold roll_back. wp_run. Qed.
#[local] Hint Resolve sim_roll_back : sims.

Lemma sim_on_dispatch_failed op k a x o now : sim (on_dispatch_failed clk fuel op k a x o now).
Proof. intros c. unfold on_dispatch_failed. wp_run. Qed.
#[local] Hint Resolve sim_on_job_cancelled sim_on_resolved sim_on_connection_ready sim_on_connection_failed
  sim_on_dispatch_failed : sims.

(** *** Probes *)

Lemma wp_on_mirror_probed k x s j r t u c : live c k -> wp probed any (on_mirror_probed k x s j r t u) c (fun _ _ => True).
Proof. intros Hk. unfold on_mirror_probed. wp_run. Qed.

Lemma seed_step_bounds total acc r : ByteRange.wf r -> RangeSet.wf acc.1 ->
  (forall x, RangeSet.mem x acc.1 -> 0 <= x < default u64_max total) ->
  RangeSet.wf (seed_step total acc r).1 /\ (forall x, RangeSet.mem x (seed_step total acc r).1 -> 0 <= x < default u64_max total).
Proof.
  intros Hr Hw Hb. unfold seed_step. destruct (match total with Some t => _ | None => _ end) eqn:E; [|done]. cbn.
  destruct (RangeSet.insert_wf_mem acc.1 r Hw Hr) as [Hi Hm]. split; [done|]. intros x [Hx|Hx]%Hm; [auto|].
  unfold ByteRange.mem, ByteRange.wf in *. destruct total as [t|]; cbn; [apply Z.leb_le in E|]; u64_lia.
Qed.

Lemma seed_from_bounds resume0 chain i total etag lm : (forall r, resume0 = Some r -> RangeSet.wf (re_durable r)) ->
  RangeSet.wf (seed_from resume0 chain i total etag lm).1.1 /\
  (forall x, RangeSet.mem x (seed_from resume0 chain i total etag lm).1.1 -> 0 <= x < default u64_max total).
Proof.
  assert (H0 : RangeSet.wf RangeSet.empty /\ forall x, RangeSet.mem x RangeSet.empty -> 0 <= x < default u64_max total)
    by (split; [apply RangeSet.empty_wf|by intros x ?%RangeSet.mem_empty]).
  intros Hr. unfold seed_from. destruct resume0 as [r|]; [|exact H0]. destruct (trusts_journal _ _); [|exact H0].
  cbn. specialize (Hr r eq_refl). assert (Hl := RangeSet.wf_ranges _ Hr : Forall ByteRange.wf (RangeSet.iter (re_durable r))). revert Hl.
  assert (H : forall l acc, Forall ByteRange.wf l -> RangeSet.wf acc.1 ->
    (forall x, RangeSet.mem x acc.1 -> 0 <= x < default u64_max total) ->
    RangeSet.wf (foldl (seed_step total) acc l).1 /\
    (forall x, RangeSet.mem x (foldl (seed_step total) acc l).1 -> 0 <= x < default u64_max total)).
  { induction l as [|y l IH]; intros acc Hl Hw Hb; [done|]. inversion Hl as [|? ? Hy Hl']; subst. cbn [foldl].
    destruct (seed_step_bounds total acc y Hy Hw Hb). by apply IH. }
  intros Hl. by apply H; [|apply H0..].
Qed.

Lemma plan_from_probe_fits j s r : in_u64 (default u64_max (JobNode.total_length j)) -> RangeSet.wf s ->
  (forall x, RangeSet.mem x s -> 0 <= x < default u64_max (JobNode.total_length j)) ->
  fits (plan_from_probe j s r) /\ SegmentPlan.total (plan_from_probe j s r) = JobNode.total_length j.
Proof.
  intros Ht Hw Hb. unfold plan_from_probe. cbv zeta.
  assert (Hc : forall p m, fits p /\ SegmentPlan.total p = JobNode.total_length j ->
    fits (SegmentPlan.clamp_max_piece p m) /\ SegmentPlan.total (SegmentPlan.clamp_max_piece p m) = JobNode.total_length j).
  { intros p m [Hf Hp]. unfold SegmentPlan.clamp_max_piece. destruct (m >? 0); [|done]. split; [|done]. by apply (fits_same p). }
  apply Hc. pose proof (new_fits (JobNode.total_length j) s (segmentation (JobNode.policy j))
    (piece_duration_target (JobNode.urgency j)) (overlap_bytes (JobNode.integrity j)) Ht Hw Hb) as Hf.
  destruct (_ || _); [|done]. split; [by apply single_stream_fits|done].
Qed.

(** The job after its probe: well formed, with a plan made from what was seeded. *)
Lemma probed_job_ok j r total etag lm : job_ok j -> in_u64 (default u64_max total) ->
  job_frame j (probed_job j r total etag lm).1 /\ job_ok (probed_job j r total etag lm).1 /\
  exists p, JobNode.plan (probed_job j r total etag lm).1 = Some p.
Proof.
  intros [J1 J2 J3 J4 J5] Ht. unfold probed_job.
  pose proof (seed_from_bounds (JobNode.resume j) (JobNode.redirect_chain j) (JobNode.integrity j) total etag lm
    (fun r Hr => proj1 (J5 r Hr))) as [Hw Hb].
  assert (Hnone : JobNode.resume j = None -> (seed_from (JobNode.resume j) (JobNode.redirect_chain j) (JobNode.integrity j)
    total etag lm).1.1 = RangeSet.empty) by (by intros ->).
  destruct (seed_from _ _ _ _ _ _) as [[seeded resumed] wipe]. cbn in Hw, Hb, Hnone. cbn [fst].
  assert (Hl : in_u64 (default u64_max (WorldModel.option_or total (JobNode.total_length j)))) by (by destruct total).
  match goal with |- context [plan_from_probe ?j' _ _] => destruct (plan_from_probe_fits j' seeded r Hl Hw) as [Hf Hp] end.
  - intros x Hx. cbn. destruct total as [t|]; [by apply Hb|]. cbn in *. destruct (JobNode.resume j) as [e|] eqn:E.
    + destruct (J5 _ eq_refl) as [_ ->]. by apply Hb.
    + rewrite Hnone in Hx by done. by apply RangeSet.mem_empty in Hx.
  - match type of Hf with fits ?p => set (p0 := p) in * end. clearbody p0.
    split; [by split|]. split; [|eexists; reflexivity]. split; cbn.
    + reflexivity.
    + exact Hl.
    + intros p [= <-]. split; [exact Hf|exact Hp].
    + discriminate.
    + discriminate.
Qed.

Lemma is_complete_total p : SegmentPlan.is_complete p = true -> exists n, SegmentPlan.total p = Some n.
Proof. unfold SegmentPlan.is_complete. destruct (SegmentPlan.total p); eauto. done. Qed.

Lemma wp_commit_job k len j0 j p c : Ctl.job c k = Some j -> JobNode.plan j = Some p -> SegmentPlan.is_complete p = true ->
  SegmentPlan.total p = Some len -> JobNode.integrity j0 = JobNode.integrity j ->
  wp probed any (commit_job k len j0) c (fun _ _ => True).
Proof.
  intros Hj Hp Hc Ht Hi.
  apply (wp_exec probed any _ c tt [CommitDestination k len (digest_check (JobNode.integrity j))]
    (c <| Ctl.world ::= WorldModel.modify_job k (fun j => j <| JobNode.phase := Committing |>) |>)); [|by eapply mi_commit|done|done].
  intros l. rewrite <- Hi. reflexivity.
Qed.

(** Calm code that is followed by more, measured from an earlier state. *)
Lemma wp_calm_then {A} (m : M unit) (rest : M A) c0 c Q : (forall c, wp probed plans_evolve m c (fun _ _ => True)) -> plans_evolve c0 c ->
  (forall c', ok c' -> plans_evolve c0 c' -> wp probed any rest c' Q) -> wp probed any (m ;; rest) c Q.
Proof.
  intros Hm Hc HQ. wp_step. apply wp_calm; [exact Hm|]. intros c' Hok' He. apply HQ; [done|]. by etrans.
Qed.

#[local] Hint Extern 1 (forall _, wp _ plans_evolve _ _ _) => (intros ?; wp_run) : sims.
Ltac wp_calmly := eapply wp_calm_then; [intros ?; unfold discover_h3; wp_run|eassumption|intros ? ? ?].

Lemma plans_evolve_job c c' k j p : plans_evolve c c' -> Ctl.job c k = Some j -> JobNode.plan j = Some p ->
  exists j' p', Ctl.job c' k = Some j' /\ JobNode.plan j' = Some p' /\ evolves p p'.
Proof.
  intros H Hj Hp. specialize (H k). rewrite Hj in H. inversion H as [? j' Ho|]; subst. rewrite Hp in Ho. inversion Ho; subst. eauto.
Qed.

Lemma wp_open_for_transfer k x j j' p u alt now c : Ctl.job c k = Some j' -> job_ok j' -> JobNode.plan j' = Some p ->
  wp probed any (open_for_transfer clk fuel k x j j' u alt now) c (fun _ _ => True).
Proof.
  intros Hj Hok Hp. unfold open_for_transfer. cbv zeta. assert (He : plans_evolve c c) by reflexivity.
  do 7 wp_calmly. rewrite Hp. wp_step; [|wp_run]. wp_step. wp_step.
  match goal with H : plans_evolve c ?c' |- _ => destruct (plans_evolve_job c c' k j' p H Hj Hp) as (j2&p2&Hj2&Hp2&He2) end.
  rewrite Hj2, Hp2. destruct (jk_plan _ Hok _ Hp) as [Hfit _]. apply (evolves_complete p p2) in Heqb; [|done..].
  destruct (is_complete_total _ Heqb) as [n Hn]. rewrite Hn. by eapply wp_commit_job.
Qed.

Lemma wp_on_job_probed k x j r total etag lm u alt now c : probed = Some k -> Ctl.job c k = Some j ->
  in_u64 (default u64_max total) -> wp probed any (on_job_probed clk fuel k x j r total etag lm u alt now) c (fun _ _ => True).
Proof.
  intros Hpr Hj Ht. apply (wp_with_ok probed any). intros Hok. pose proof (ok_jobs _ Hok _ _ Hj) as Hjok.
  destruct (probed_job_ok j r total etag lm Hjok Ht) as (Hf&Hjok'&p&Hp). unfold on_job_probed. cbv zeta.
  destruct (probed_job j r total etag lm) as [j' wipe]. cbn [fst] in *.
  assert (Hset : forall c1, Ctl.job c1 k = Some j -> wp probed any
    (modify_job k (fun _ => j');; open_for_transfer clk fuel k x j j' u alt now) c1 (fun _ _ => True)).
  { intros c1 Hc1. wp_step. apply (wp_upd probed any); [|done|].
    - apply mi_probed; [done|]. intros j0 Hj0. by simplify_eq.
    - apply (wp_open_for_transfer _ _ _ _ p); [|done..]. rewrite job_modify, decide_True by done. by rewrite Hc1. }
  repeat first [by apply Hset|wp_any_step].
Qed.

Lemma wp_on_probed k x src r total etag lm u alt now c : probed = Some k -> in_u64 (default u64_max total) ->
  wp probed any (on_probed clk fuel k x src r total etag lm u alt now) c (fun _ _ => True).
Proof.
  intros Hpr Ht. unfold on_probed. wp_step. wp_step. wp_step; [|wp_run].
  wp_step; [apply wp_on_mirror_probed; by eapply live_job|by apply wp_on_job_probed].
Qed.

Lemma sim_on_probe_failed k x src f st now : sim (on_probe_failed clk fuel k x src f st now).
Proof. intros c. unfold on_probe_failed. wp_run. Qed.

Lemma sim_on_mirror_sampled k src x m u now : sim (on_mirror_sampled clk k src x m u now).
Proof. intros c. unfold on_mirror_sampled. wp_run. Qed.

(** *** Assignments *)

Lemma sim_account_service k s now : sim (account_service k s now).
Proof. intros c. unfold account_service. wp_run. Qed.

Lemma sim_note_rate exp x s : sim (note_rate exp x s).
Proof.
  intros c. unfold note_rate. wp_step; [|wp_run]. wp_step. apply (wp_books probed any).
  - destruct (sec_get _ x); books_tac.
  - wp_run.
Qed.

Lemma note_stall_books o s c : books c (note_stall o s c).
Proof. unfold note_stall. destruct (sec_get _ o) as [[b w]|]; books_tac. Qed.

Lemma wp_verify_assignment k a r c : ByteRange.wf r -> wp probed any (verify_assignment k a r) c (fun _ _ => True).
Proof.
  intros Hr. unfold verify_assignment. wp_step. wp_step. wp_step; [|wp_run]. wp_step; [|wp_run]. cbv zeta. wp_step.
  assert (He : evolves t0 (finish_assignment a r t0)) by (etrans; [by apply verified_evolves|apply finish_evolves]).
  apply (wp_set_plan _ _ t0); [unfold plan_of; by rewrite Heqo|exact He|]. wp_step; [|wp_run].
  destruct (is_complete_total _ Heqb) as [n Hn]. rewrite Hn.
  apply (wp_commit_job _ _ _ (t <| JobNode.plan := Some (finish_assignment a r t0) |>) (finish_assignment a r t0)); [|done..].
  rewrite job_modify, decide_True by done. by rewrite Heqo.
Qed.

Lemma sim_close_if_spent x u : sim (close_if_spent x u).
Proof. intros c. unfold close_if_spent. wp_run. Qed.
#[local] Hint Resolve sim_account_service sim_note_rate sim_close_if_spent : sims.

Lemma wp_on_assignment_verified exp k a r s x u now c : ByteRange.wf r ->
  wp probed any (on_assignment_verified exp clk fuel k a r s x u now) c (fun _ _ => True).
Proof.
  intros Hr. unfold on_assignment_verified. repeat first
    [ wp_known | apply (wp_books probed any); [apply note_stall_books|]
    | lazymatch goal with |- wp _ _ (verify_assignment _ _ _) _ _ => eapply wp_conseq; [by apply wp_verify_assignment|intros ? ? _ _ _] end
    | wp_any_step ].
Qed.

Lemma sim_on_assignment_failed k a att d x st now : sim (on_assignment_failed clk fuel k a att d x st now).
Proof. intros c. unfold on_assignment_failed. wp_run. Qed.

(** *** Limits, credentials, timers *)

Lemma sim_on_rate_limited o after now : sim (on_rate_limited o after now).
Proof. intros c. unfold on_rate_limited. wp_run. Qed.

Lemma sim_on_source_refreshed k nu nh now : sim (on_source_refreshed clk k nu nh now).
Proof. intros c. unfold on_source_refreshed. wp_run. Qed.

Lemma sim_on_retry_ready k now : sim (on_retry_ready clk k now).
Proof.
  intros c. unfold on_retry_ready. wp_step.
  apply wp_modify_job; [intros; apply job_step_map_plan; intros; apply release_due_evolves|]. wp_run.
Qed.

Lemma sim_on_cooldown_expired o now : sim (on_cooldown_expired clk fuel o now).
Proof. intros c. unfold on_cooldown_expired. wp_run. Qed.

Lemma sim_on_drain_connection x now : sim (on_drain_connection x now).
Proof. intros c. unfold on_drain_connection. wp_run. Qed.

Lemma ranked_endpoint_in c o now i e : WorldModel.ranked_endpoints (Ctl.world c) o now None !! i = Some e ->
  exists on, Ctl.org c o = Some on /\ e ∈ OriginNode.endpoints on.
Proof.
  unfold WorldModel.ranked_endpoints, Ctl.org. destruct (WorldModel.get_origin _ o) as [on|]; [|done].
  intros H%list_elem_of_lookup_2. exists on. split; [done|]. by rewrite sort_by_perm in H.
Qed.

Lemma sim_on_endpoint_stagger o r now : sim (on_endpoint_stagger clk o r now).
Proof.
  intros c. unfold on_endpoint_stagger. wp_step. wp_step. wp_step; [wp_run|]. wp_step. wp_step. wp_step; [|wp_run]. wp_step.
  apply ranked_endpoint_in in Heqo0 as (on&Ho&He). apply (wp_dial_best probed any _ _ _ _ _ _ _ on); [done..|]. intros k' c'. wp_run.
Qed.
#[local] Hint Resolve sim_on_retry_ready sim_on_cooldown_expired sim_on_drain_connection sim_on_endpoint_stagger : sims.

Lemma sim_on_timer e now : sim (on_timer clk fuel e now).
Proof. intros c. unfold on_timer. wp_run. Qed.
#[local] Hint Resolve sim_on_probe_failed sim_on_mirror_sampled sim_on_assignment_failed sim_on_rate_limited
  sim_on_source_refreshed sim_on_timer : sims.

(** *** The dispatcher *)

(** The job whose own probe an observation answers. *)
Definition probed_by (obs : Observation) : option key :=
  match obs with Probed k _ _ _ _ _ _ _ _ => Some k | _ => None end.

Lemma wp_handle exp obs now c : probed = probed_by obs -> obs_ok c obs ->
  wp probed any (handle_m exp clk fuel obs now) c (fun _ _ => True).
Proof.
  intros Hp Ho. destruct obs; cbn [handle_m probed_by obs_ok] in *.
  all: try (by apply wp_on_job_admitted).
  all: try (by apply wp_on_probed).
  all: try (by apply wp_on_assignment_verified).
  all: wp_run.
Qed.
End handlers.

(** A handled observation is a run of the protocol. *)
Lemma handle_steps {L : SlotMapLib} {HL : SlotMapLaws L} {S : SecMapLib L} {W : WebLib} exp clk fuel obs now c c' acts :
  ok c -> obs_ok c obs -> handle exp clk fuel obs now c = Done (c', acts) -> steps (probed_by obs) c acts c'.
Proof.
  intros Hok Ho. pose proof (wp_handle (probed_by obs) clk fuel exp obs now c eq_refl Ho Hok []) as H. unfold handle.
  destruct (handle_m _ _ _ _ _ _) as [[u s]| |]; [|done..]. destruct H as (b&Hb&Hs&_&_). intros [= <- <-]. by rewrite Hb.
Qed.
