(* ===== verification/Admission.v ===== *)
(** * Admission ([admit_command] of [control.rs]).

    How a submitted job enters the controller: the engine's job limit, the
    lease on the destination, the sink's properties, and the first observation
    of the job. Files are opened and journals are read outside the controller;
    what they yield are arguments here. *)

From Stdlib Require Import String.
From S2P Require Import Prelude Ranges Float Rates Errors Text Representation Policy Spec SlotMap Timers Segment PlanFrame World Controller Lifecycle Adaptive Handle Protocol Frames Refine.
Local Open Scope Z_scope.

Section admission.
Context {L : SlotMapLib} {S : SecMapLib L} {W : WebLib}.
Context (exp : f64 -> f64) (clk : Clock) (fuel : nat).

Definition lease_message (e : DestinationLeaseError) : string :=
  match e with
  | Busy k => ("destination '" +:+ k +:+ "' is in use by another active job")%string
  | NoSource => "job has no source"
  end.

Definition set_sink (job : key) (sink : option (Z * DestinationHints)) : M (result unit) :=
  match sink with
  | None => ret (inr tt)
  | Some (caps, hints) =>
      let! r := ask (fun c => WorldModel.set_sink_properties job caps hints (Ctl.world c)) in
      upd (fun c => c <| Ctl.world := r.1 |>) ;;
      ret r.2
  end.

(** Up to the sink: the job limit, the node, the part path. *)
Definition enter (spec : JobSpec (Url := Url)) (destination_key : string) : M (result key) :=
  let! full := ask (fun c => sm_len (WorldModel.jobs (Ctl.world c)) >=? Ctl.engine_max_jobs c) in
  if full then ret (inl (destination "engine job limit reached"))
  else
    let! admitted := ask (fun c => WorldModel.admit_job clk spec destination_key (Ctl.world c)) in
    let! admitted := expect admitted in
    upd (fun c => c <| Ctl.world := admitted.1 |>) ;;
    match admitted.2 with
    | inl e => ret (inl (destination (lease_message e)))
    | inr (job, _) =>
        let! part := ask (fun c => WorldModel.set_destination_part_path job (Ctl.world c)) in
        match part with
        | inl e => ret (inl e)
        | inr _ => ret (inr job)
        end
    end.

(** The reply to the submitter. *)
Definition admit_command (spec : JobSpec (Url := Url)) (destination_key : string) (sink : option (Z * DestinationHints))
    (resume0 : option ResumeEvidence) (now : Z) : M (result key) :=
  let! entered := enter spec destination_key in
  match entered with
  | inl e => ret (inl e)
  | inr job =>
      let! sunk := set_sink job sink in
      match sunk with
      | inl e => ret (inl e)
      | inr _ => handle_m exp clk fuel (JobAdmitted job spec resume0) now ;; ret (inr job)
      end
  end.
End admission.

Section admitted.
Context {L : SlotMapLib} {HL : SlotMapLaws L} {S : SecMapLib L} {W : WebLib}.
Context (clk : Clock).
Import WorldModel.

(** ** The tables after an admission *)

Lemma lease_target_ok key0 w w' r : tables_ok w -> lease_target key0 w = Some (w', r) ->
  tables_ok w' /\ jobs w' = jobs w /\
  match r with
  | inl e => w' = w /\ e = Busy key0 /\ exists i d k, destination_index w !! key0 = Some i /\
      sm_get (destinations w) i = Some d /\ leased_by d = Some k
  | inr d => exists node, sm_get (destinations w') d = Some node /\ leased_by node = None /\ d_key node = key0
  end.
Proof.
  intros Hok. pose proof Hok as [[J1 J2 J3] T2 T3]. unfold lease_target. destruct (destination_index w !! key0) as [i|] eqn:Ei.
  - apply J3 in Ei as Hd. destruct Hd as (d&Hd&Hk). rewrite Hd. destruct (leased_by d) as [k|] eqn:El; intros [= <- <-].
    + split_and!; try done. by exists i, d, k.
    + split_and!; try done. by exists d.
  - set (d0 := mkDestination key0 None). pose proof (get_insert d0 (destinations w)) as Hg.
    pose proof (get_insert_fresh d0 (destinations w)) as Hf. destruct (sm_insert d0 (destinations w)) as [id m]. cbn [fst snd] in *.
    intros [= <- <-]. split_and!; [|done|exists d0; cbn; rewrite Hg, decide_True by done; done].
    split; [|refine (conns_linked_same w _ _ _ T2); reflexivity|exact T3]. split; cbn.
    + intros k j Hj. destruct (J1 k j Hj) as (?&(d&Hd&?)&?&?). split_and!; try done. exists d. rewrite Hg.
      rewrite decide_False by congruence. done.
    + intros i d k. rewrite Hg. case_decide; [intros [= <-]; done|]. apply J2.
    + intros s i. cbn. rewrite Hg. destruct (decide (s = key0)) as [->|Hs].
      * rewrite lookup_insert_eq. case_decide as E; [subst i; split; [by exists d0|done]|]. split; [congruence|].
        intros Hd. apply J3 in Hd. congruence.
      * rewrite lookup_insert_ne by done. rewrite (J3 s i). case_decide as E; [|done]. subst i. rewrite Hf.
        split; [by intros (?&?&?)|]. intros (?&[= <-]&?). by destruct Hs.
Qed.

Lemma add_source_frame artifact w ids src : let '(w', ids') := add_source clk artifact (w, ids) src in
  world_frame w w' /\ exists sid origin, ids' = ids ++ [(sid, origin)] /\ is_Some (sm_get (sources w') sid).
Proof.
  unfold add_source. pose proof (frame_get_or_create_origin clk
    (origin_key url_scheme url_host_str url_port_or_known_default src) w) as Hf.
  destruct (get_or_create_origin _ _ w) as [o w1]. cbn [snd] in Hf.
  match goal with |- context [sm_insert ?s _] => pose proof (get_insert s (sources w1)) as Hg end.
  destruct (sm_insert _ _) as [sid m]. cbn [fst snd] in Hg. split.
  - etrans; [exact Hf|]. split; try done; cbn.
    + intros k Hk. rewrite Hg. case_decide; [by eexists|done].
    + intros k on Ho. by exists on.
    + intros k on Ho. left. by exists on.
  - exists sid, o. split; [done|]. cbn. rewrite Hg, decide_True by done. by eexists.
Qed.

Lemma add_sources_frame artifact l w ids : let '(w', ids') := foldl (add_source clk artifact) (w, ids) l in
  world_frame w w' /\ (Forall (fun p => is_Some (sm_get (sources w) p.1)) ids -> Forall (fun p => is_Some (sm_get (sources w') p.1)) ids').
Proof.
  revert w ids. induction l as [|src l IH]; intros w ids; cbn [foldl]; [done|].
  pose proof (add_source_frame artifact w ids src) as H. destruct (add_source _ _ _ _) as [w1 ids1].
  destruct H as (Hf&sid&o&->&Hs). specialize (IH w1 (ids ++ [(sid, o)])). destruct (foldl _ _ _) as [w2 ids2].
  destruct IH as [Hf2 H2]. split; [by etrans|]. intros Hids. apply H2, Forall_app. split.
  - eapply Forall_impl; [exact Hids|]. intros p. apply (wf_sources _ _ Hf).
  - by constructor.
Qed.

(** The node of a new job, its lease and the rest of the tables. *)
Lemma insert_job_tables mkj dest node w : let '(k, w1) := insert_job mkj w in
  let w' := w1 <| destinations ::= fun m => sm_modify m dest (fun d => d <| leased_by := Some k |>) |> in
  tables_ok w -> sm_get (destinations w) dest = Some node -> leased_by node = None ->
  (forall i, JobNode.id (mkj i) = i /\ JobNode.destination (mkj i) = dest /\ is_Some (sm_get (artifacts w) (JobNode.artifact (mkj i))) /\
     Forall (fun s => is_Some (sm_get (sources w) s)) (JobNode.sources (mkj i))) ->
  tables_ok w' /\ sm_get (jobs w) k = None /\ (forall i, sm_get (jobs w') i = if decide (i = k) then Some (mkj k) else sm_get (jobs w) i) /\
  sm_len (jobs w') = sm_len (jobs w) + 1 /\ sm_get (destinations w') dest = Some (node <| leased_by := Some k |>).
Proof.
  unfold insert_job. pose proof (get_insert (mkj key_null) (jobs w)) as Hg. pose proof (get_insert_fresh (mkj key_null) (jobs w)) as Hf.
  pose proof (len_insert (mkj key_null) (jobs w)) as Hl. destruct (sm_insert _ _) as [k m]. cbn [fst snd] in *.
  intros [[J1 J2 J3] T2 T3] Hd Hn Hm.
  assert (Hk : is_Some (sm_get m k)) by (rewrite Hg, decide_True by done; by eexists).
  assert (Hj : forall i, sm_get (sm_set m k (mkj k)) i = if decide (i = k) then Some (mkj k) else sm_get (jobs w) i).
  { intros i. rewrite get_set by done. case_decide; [done|]. by rewrite Hg, decide_False. }
  assert (Hds : forall i, sm_get (sm_modify (destinations w) dest (fun d => d <| leased_by := Some k |>)) i =
    if decide (i = dest) then Some (node <| leased_by := Some k |>) else sm_get (destinations w) i).
  { intros i. rewrite get_modify. case_decide; [subst; by rewrite Hd|done]. }
  split_and!; [|done|exact Hj| |].
  - split; [|refine (conns_linked_same w _ _ _ T2); reflexivity|exact T3].
    split; cbn -[sm_modify].
    + intros i j. rewrite Hj. destruct (decide (i = k)) as [->|Hi].
      * intros [= <-]. destruct (Hm k) as (?&->&?&?). split_and!; try done. eexists. rewrite Hds, decide_True by done. done.
      * intros Hij. destruct (J1 _ _ Hij) as (?&(d&Hdd&Hld)&?&?). split_and!; try done. exists d. rewrite Hds.
        rewrite decide_False; [done|]. intros E. rewrite E in Hdd. congruence.
    + intros i d k'. rewrite Hds. case_decide as E.
      * intros [= <-]. cbn. intros [= <-]. exists (mkj k). rewrite Hj, decide_True by done. split; [done|]. rewrite E. apply Hm.
      * intros Hi Hl'. destruct (J2 _ _ _ Hi Hl') as (j&Hjk&?). exists j. rewrite Hj. case_decide; [congruence|done].
    + intros s i. cbn -[sm_modify]. rewrite (J3 s i), Hds. case_decide as E; [subst i; rewrite Hd|done].
      split; intros (?&[= <-]&?); eexists; (split; [reflexivity|done]).
  - cbn. rewrite <- Hl. apply len_same. intros i. rewrite Hj, Hg. by case_decide.
  - cbn -[sm_modify]. by rewrite Hds, decide_True.
Qed.

(** *** The outcome of an admission *)

Lemma artifacts_grow w m : (forall k, is_Some (sm_get (artifacts w) k) -> is_Some (sm_get m k)) -> tables_ok w ->
  tables_ok (w <| artifacts := m |>).
Proof.
  intros Hm [[J1 J2 J3] T2 T3]. split; [|refine (conns_linked_same w _ _ _ T2); reflexivity|exact T3].
  split; [|exact J2|exact J3]. intros k j Hj. destruct (J1 k j Hj) as (?&?&?&?). split_and!; try done. by apply Hm.
Qed.

(** The job a specification is admitted as. *)
Definition admitted_as (spec : JobSpec (Url := Url)) (j : JobNode.t) : Prop :=
  JobNode.phase j = Created /\ JobNode.plan j = None /\ JobNode.total_length j = None /\ JobNode.resume j = None /\
  JobNode.policy j = js_policy spec.

Lemma admit_job_tables spec key0 w w' r : tables_ok w -> admit_job clk spec key0 w = Some (w', r) ->
  tables_ok w' /\
  match r with
  | inl NoSource => js_sources spec = [] /\ jobs w' = jobs w
  | inl (Busy s) => w' = w /\ s = key0 /\ exists i d k, destination_index w !! key0 = Some i /\
      sm_get (destinations w) i = Some d /\ leased_by d = Some k
  | inr (k, _) => sm_get (jobs w) k = None /\ sm_len (jobs w') = sm_len (jobs w) + 1 /\ exists j, admitted_as spec j /\
      (exists d, sm_get (destinations w') (JobNode.destination j) = Some d /\ d_key d = key0 /\ leased_by d = Some k) /\
      forall i, sm_get (jobs w') i = if decide (i = k) then Some j else sm_get (jobs w) i
  end.
Proof.
  intros Hok. unfold admit_job. destruct (lease_target key0 w) as [[w1 [e|dest]]|] eqn:El; [| |done];
    pose proof (lease_target_ok _ _ _ _ Hok El) as (Hok1&Hj1&Hr).
  - destruct Hr as (->&->&Hr). intros [= <- <-]. by split.
  - destruct Hr as (node&Hd&Hn&Hk). destruct (js_sources spec) as [|first rest]; [by intros [= <- <-]|].
    pose proof (get_insert (mkArtifact None) (artifacts w1)) as Hga. destruct (sm_insert (mkArtifact None) _) as [art am]. cbn [fst snd] in Hga.
    pose proof (add_sources_frame art (first :: rest) (w1 <| artifacts := am |>) []) as Hs.
    destruct (foldl _ _ _) as [w2 ids]. destruct Hs as [Hf Hids]. specialize (Hids ltac:(constructor)).
    assert (Hok2 : tables_ok w2).
    { eapply world_frame_tables; [exact Hf|]. apply artifacts_grow; [|done]. intros k Hki. rewrite Hga. case_decide; [by eexists|done]. }
    destruct ids as [|[sid0 o0] ids]; [done|].
    match goal with |- context [insert_job ?mk w2] => pose proof (insert_job_tables mk dest node w2) as H end.
    destruct (insert_job _ w2) as [k w3]. intros [= <- <-].
    assert (Hd2 : sm_get (destinations w2) dest = Some node) by (by rewrite (wf_destinations _ _ Hf)).
    assert (Hj2 : jobs w2 = jobs w) by (by rewrite (wf_jobs _ _ Hf)).
    destruct H as (Hok3&Hfr&Hjs&Hl&Hdd); [done..| |].
    + intros i. split_and!; [done|done| |].
      * rewrite (wf_artifacts _ _ Hf). cbn. rewrite Hga, decide_True by done. by eexists.
      * cbn [JobNode.sources new_job]. apply Forall_fmap. exact Hids.
    + rewrite Hj2 in *. split_and!; [exact Hok3|exact Hfr|exact Hl|]. eexists. (split; [|split; [|exact Hjs]]); [by split_and!|].
      exists (node <| leased_by := Some k |>). by split_and!.
Qed.

(** An admission never panics: the indices point where they should. *)
Lemma lease_target_total key0 w : tables_ok w -> is_Some (lease_target key0 w).
Proof.
  intros [[_ _ J3] _ _]. unfold lease_target. destruct (destination_index w !! key0) as [i|] eqn:E.
  - apply J3 in E as (d&->&_). destruct (leased_by d); by eexists.
  - destruct (sm_insert _ _). by eexists.
Qed.

Lemma add_sources_ids artifact l w ids : (foldl (add_source clk artifact) (w, ids) l).2 = [] -> ids = [] /\ l = [].
Proof.
  revert w ids. induction l as [|src l IH]; intros w ids; cbn [foldl]; [done|].
  pose proof (add_source_frame artifact w ids src) as H. destruct (add_source _ _ _ _) as [w1 ids1]. destruct H as (_&sid&o&->&_).
  intros H. apply IH in H as [H _]. by destruct ids.
Qed.

Lemma admit_job_total spec key0 w : tables_ok w -> is_Some (admit_job clk spec key0 w).
Proof.
  intros Hok. unfold admit_job. destruct (lease_target_total key0 w Hok) as [[w1 [e|d]] ->]; [by eexists|].
  destruct (js_sources spec) as [|first rest]; [by eexists|]. destruct (sm_insert _ _) as [art am].
  pose proof (add_sources_ids art (first :: rest) (w1 <| artifacts := am |>) []) as H. destruct (foldl _ _ _) as [w2 ids].
  destruct ids as [|[sid o] ids]; [by destruct (H eq_refl)|]. destruct (insert_job _ _). by eexists.
Qed.

Lemma admit_job_busy spec key0 w i d k : destination_index w !! key0 = Some i -> sm_get (destinations w) i = Some d ->
  leased_by d = Some k -> admit_job clk spec key0 w = Some (w, inl (Busy key0)).
Proof. intros Hi Hd Hl. unfold admit_job, lease_target. by rewrite Hi, Hd, Hl. Qed.
End admitted.
