(* ===== verification/Runs.v ===== *)
(** * Runs of the controller.

    The states a controller can be in, with the jobs it has admitted and the
    actions it has ordered so far, and what holds in all of them: the invariant
    [ok], the checks of [WorldModel::assert_invariants], and the story of every
    job. *)

From Stdlib Require Import String.
From S2P Require Import Prelude Ranges Float Rates Errors Representation Policy Spec SlotMap Timers Segment PlanFrame World Controller Lifecycle Adaptive Handle Protocol Frames Refine Admission.
Local Open Scope Z_scope.

Section runs.
Context {L : SlotMapLib} {HL : SlotMapLaws L} {S : SecMapLib L} {W : WebLib}.
Context (exp : f64 -> f64) (fuel : nat).

(** Evidence read from a journal is a set of ranges. *)
Definition resume_ok (r : option ResumeEvidence) : Prop := forall e, r = Some e -> RangeSet.wf (re_durable e).

Definition is_admission (obs : Observation) : bool := match obs with JobAdmitted _ _ _ => true | _ => false end.

(** [run_loop] before its loop. *)
Definition start (shards now : Z) (l : EngineLimits.t) (context : option NetworkContextKey)
    (profile : option PersistedProfile) (clk : Clock) : Ctl.t :=
  let c := Ctl.set_engine_limits l (Ctl.with_shards shards now) in
  let c1 := match context with
            | Some k => c <| Ctl.world := (WorldModel.set_network_context k (Ctl.world c)).2 |>
            | None => c
            end in
  match profile with
  | Some p => c1 <| Ctl.world ::= WorldModel.import_profiles clk p |>
  | None => c1
  end.

(** The state, the jobs ever admitted, the actions ordered. A job's key is not
    used again: the arena counts the generations of its slots. *)
Inductive reach : Ctl.t -> list key -> list Action -> Prop :=
| reach_start shards now l context profile clk : in_u64 (EngineLimits.max_active_assignments l) ->
    reach (start shards now l context profile clk) [] []
| reach_submit c seen acts0 clk spec key0 sink resume0 now r s : reach c seen acts0 -> resume_ok resume0 ->
    admit_command exp clk fuel spec key0 sink resume0 now (mkMachine c []) = Done (r, s) ->
    (forall k, r = inr k -> k ∉ seen) ->
    reach (ctl s) (match r with inr k => k :: seen | inl _ => seen end) (acts0 ++ acts s)
| reach_observe c seen acts0 clk obs now c' a : reach c seen acts0 -> is_admission obs = false -> obs_ok c obs ->
    handle exp clk fuel obs now c = Done (c', a) -> reach c' seen (acts0 ++ a).

(** ** The start *)

Lemma import_frame clk p w : world_frame w (WorldModel.import_profiles clk p w).
Proof.
  unfold WorldModel.import_profiles. destruct (negb _); [reflexivity|]. cbv zeta.
  transitivity (w <| WorldModel.pending_learning := Some p |>); [by apply frame_aside|].
  apply frame_foldl. intros. apply frame_apply_pending_learning.
Qed.

Lemma context_frame k w : world_frame w (WorldModel.set_network_context k w).2.
Proof.
  unfold WorldModel.set_network_context.
  destruct (match WorldModel.current_context w with Some _ => _ | None => _ end); [reflexivity|].
  destruct (find _ _) as [[i x]|]; [by apply frame_aside|]. destruct (sm_insert _ _). by apply frame_aside.
Qed.

Lemma new_tables : tables_ok WorldModel.new.
Proof.
  split.
  - split; cbn.
    + intros k j. by rewrite get_new.
    + intros i d k. by rewrite get_new.
    + intros s i. cbn. rewrite lookup_empty, get_new. split; [done|by intros (?&?&?)].
  - split; cbn; intros k n; by rewrite get_new.
  - intros s i. cbn. rewrite lookup_empty, get_new. split; [done|by intros (?&?&?)].
Qed.

Lemma start_ok shards now l context profile clk : in_u64 (EngineLimits.max_active_assignments l) ->
  ok (start shards now l context profile clk) /\ forall k, ~ live (start shards now l context profile clk) k.
Proof.
  intros Hl. set (c := Ctl.set_engine_limits l (Ctl.with_shards shards now)).
  assert (Hc : ok c /\ forall k, ~ live c k).
  { split; [|intros k; unfold live, Ctl.job, WorldModel.get_job; cbn; rewrite get_new; by intros []].
    split; [apply new_tables|intros k j; unfold Ctl.job, WorldModel.get_job; cbn; by rewrite get_new|]. split; cbn.
    - u64_lia.
    - lia.
    - unfold sm_len. rewrite sm_iter_new. cbn. lia. }
  assert (Hw : forall c w, ok c /\ (forall k, ~ live c k) -> world_frame (Ctl.world c) w ->
    ok (c <| Ctl.world := w |>) /\ forall k, ~ live (c <| Ctl.world := w |>) k).
  { intros d w [Hd Hn] Hf. split.
    - by apply (micro_ok None d [] (with_world d w)); [constructor|].
    - intros k. rewrite (live_world d) by (by apply wf_jobs). apply Hn. }
  unfold start. fold c. cbv zeta. destruct context as [x|], profile as [p|]; repeat (apply Hw); auto using import_frame, context_frame.
  all: try apply import_frame; apply context_frame.
Qed.

(** ** Admissions *)

(** What a submission does: it is refused, or it inserts a fresh job and goes
    on by steps of the protocol. *)
Inductive submitted (key0 : string) (c : Ctl.t) : result key -> list Action -> Ctl.t -> Prop :=
| sub_refused e c' : ok c' -> (forall k, Ctl.job c' k = Ctl.job c k) -> submitted key0 c (inl e) [] c'
| sub_admitted k c1 acts0 c' : ~ live c k -> ok c1 -> (forall i, i ≠ k -> Ctl.job c1 i = Ctl.job c i) -> live c1 k ->
    steps None c1 acts0 c' -> submitted key0 c (inr k) acts0 c'.

Lemma ok_with_world c w : tables_ok w -> (forall k j, sm_get (WorldModel.jobs w) k = Some j -> job_ok j) ->
  sm_len (WorldModel.jobs w) <= Ctl.engine_max_jobs c -> ok c -> ok (with_world c w).
Proof. intros Ht Hj Hl [_ _ [C1 C2 _]]. by split. Qed.

Lemma new_job_ok spec j : admitted_as spec j -> job_ok j.
Proof.
  intros (Hp&Hpl&Ht&Hr&_). split; rewrite ?Hp, ?Hpl, ?Ht, ?Hr; try done.
Qed.

(** The sink's properties leave the job what it is otherwise. *)
Lemma set_sink_spec k sink c1 : ok c1 -> live c1 k -> exists f,
  set_sink k sink (mkMachine c1 []) = Done (inr tt, mkMachine (c1 <| Ctl.world ::= f |>) []) /\ ok (c1 <| Ctl.world ::= f |>) /\
  (forall i, i ≠ k -> Ctl.job (c1 <| Ctl.world ::= f |>) i = Ctl.job c1 i) /\ live (c1 <| Ctl.world ::= f |>) k /\
  forall j', Ctl.job (c1 <| Ctl.world ::= f |>) k = Some j' -> exists j, Ctl.job c1 k = Some j /\ JobNode.total_length j' = JobNode.total_length j.
Proof.
  intros Hok [j Hj]. destruct sink as [[caps hints]|].
  - unfold set_sink, bind, ask, upd, ret, WorldModel.set_sink_properties. cbn [ctl acts]. unfold Ctl.job in Hj. rewrite Hj. cbn [fst snd].
    set (g := fun j => j <| JobNode.sink_caps := caps |> <| JobNode.sink_hints := hints |>).
    exists (WorldModel.modify_job k g). split_and!.
    + reflexivity.
    + eapply (micro_ok None c1 []); [|exact Hok]. apply mi_job. intros j0 _. unfold g. same_step.
    + intros i Hi. by rewrite job_modify, decide_False.
    + apply live_modify. by exists j.
    + intros j'. rewrite job_modify, decide_True by done. unfold Ctl.job. rewrite Hj. intros [= <-]. by exists j.
  - exists (fun w => w). assert (E : c1 <| Ctl.world ::= fun w => w |> = c1) by (by destruct c1). rewrite E.
    split_and!; [done|done|done|by exists j|]. intros j' Hj'. by exists j'.
Qed.

Lemma admit_command_spec clk spec key0 sink resume0 now c r s : ok c -> resume_ok resume0 ->
  admit_command exp clk fuel spec key0 sink resume0 now (mkMachine c []) = Done (r, s) -> submitted key0 c r (acts s) (ctl s).
Proof.
  intros Hok Hres. unfold admit_command, enter, bind, ask, upd. cbn [ctl acts].
  destruct (_ >=? _) eqn:Efull; [by intros [= <- <-]; constructor|]. rewrite Z.geb_leb, Z.leb_gt in Efull.
  cbn [ctl]. destruct (WorldModel.admit_job clk spec key0 (Ctl.world c)) as [[w [e|[k art]]]|] eqn:Ea; cbn [expect panic ret fst snd ctl acts]; [| |done];
    destruct (admit_job_tables _ _ _ _ _ _ (ok_tables _ Hok) Ea) as [Ht Hr].
  - assert (Hjw : WorldModel.jobs w = WorldModel.jobs (Ctl.world c)) by (destruct e; [by destruct Hr as (->&_)|by destruct Hr as (_&->)]).
    intros [= <- <-]. cbn. constructor; [apply ok_with_world; try done; rewrite Hjw; apply Hok|].
    intros k. unfold Ctl.job, WorldModel.get_job. cbn. by rewrite Hjw.
  - destruct Hr as (Hf&Hlen&j&Hj&_&Hjs). set (c1 := with_world c w).
    assert (Hk1 : Ctl.job c1 k = Some j) by (unfold Ctl.job, WorldModel.get_job; cbn; by rewrite Hjs, decide_True).
    assert (Hok1 : ok c1).
    { apply ok_with_world; [done| |lia|done]. intros i j'. rewrite Hjs. case_decide; [intros [= <-]; by eapply new_job_ok|].
      intros Hi. by apply (ok_jobs _ Hok i). }
    unfold WorldModel.set_destination_part_path. unfold Ctl.job in Hk1. change (c <| Ctl.world := w |>) with c1. rewrite Hk1. cbn [ret fst snd ctl acts].
    destruct (set_sink_spec k sink c1 Hok1) as (f&->&Hok2&Hoth&Hlive&Htot); [by exists j|].
    set (c2 := c1 <| Ctl.world ::= f |>) in *.
    assert (Hobs : obs_ok c2 (JobAdmitted k spec resume0)).
    { intros j2 e Hj2 He. destruct (Htot _ Hj2) as (j1&Hj1&->). unfold Ctl.job in Hj1. simplify_eq. split; [by apply Hres|]. by destruct Hj as (_&_&?&_). }
    pose proof (wp_on_job_admitted None clk fuel k spec resume0 now c2 Hobs Hok2 []) as H. cbn [handle_m].
    destruct (on_job_admitted _ _ _ _ _ _ _) as [[u s']| |]; [|done..]. destruct H as (b&Hb&Hs&_&_). intros [= <- <-].
    rewrite Hb. apply (sub_admitted _ _ _ c2); try done.
    + unfold live, Ctl.job, WorldModel.get_job. rewrite Hf. by intros [].
    + intros i Hi. rewrite Hoth by done. unfold Ctl.job, WorldModel.get_job. cbn. by rewrite Hjs, decide_False.
Qed.

(** ** Every reachable state is well formed *)

Lemma reach_ok c seen acts0 : reach c seen acts0 -> ok c.
Proof.
  induction 1 as [shards now l context profile clk Hl|c seen acts0 clk spec key0 sink resume0 now r s Hr IH Hres Ha Hk|
    c seen acts0 clk obs now c' a Hr IH Hadm Ho Hh].
  - by apply start_ok.
  - by destruct (admit_command_spec _ _ _ _ _ _ _ _ _ IH Hres Ha); [|eapply steps_ok].
  - eapply steps_ok; [|exact IH]. by eapply handle_steps.
Qed.

(** *** The story of a job *)

(** A job that was never admitted is not spoken of; one that lives has not been
    ended; one that is gone was ended once, and nothing was ordered for it
    afterwards. *)
Inductive story (k : key) (c : Ctl.t) (seen : list key) (acts0 : list Action) : Prop :=
| story_unknown : ~ live c k -> k ∉ seen -> Forall (ignored k) acts0 -> story k c seen acts0
| story_alive : live c k -> k ∈ seen -> Forall (spared k) acts0 -> story k c seen acts0
| story_over a1 e a2 : ~ live c k -> k ∈ seen -> acts0 = a1 ++ e :: a2 -> ends e = Some k ->
    Forall (spared k) a1 -> Forall (ignored k) a2 -> story k c seen acts0.

Lemma story_fate k c seen acts0 a c' : story k c seen acts0 -> fate k c a c' -> story k c' seen (acts0 ++ a).
Proof.
  intros [H1 H2 H3|H1 H2 H3|a1 e a2 H1 H2 -> He H3 H4] [G1 G2 G3|G1 G2 G3|b1 e' b2 G1 G2 -> Ge G3 G4]; try done.
  - apply story_unknown; [done..|]. by apply Forall_app.
  - apply story_alive; [done..|]. by apply Forall_app.
  - eapply (story_over _ _ _ _ (acts0 ++ b1) e' b2); [done..| |done|by apply Forall_app|done]. by rewrite <- app_assoc.
  - eapply (story_over _ _ _ _ a1 e (a2 ++ a)); [done..| |done|done|by apply Forall_app]. by rewrite <- app_assoc.
Qed.

(** The same jobs, or one more. *)
Lemma story_jobs k c c' seen acts0 : (live c' k <-> live c k) -> story k c seen acts0 -> story k c' seen acts0.
Proof. intros H [H1 H2 H3|H1 H2 H3|a1 e a2 H1 H2 Ha He H3 H4]; rewrite <- H in H1; by econstructor. Qed.

Lemma reach_story k c seen acts0 : reach c seen acts0 -> story k c seen acts0.
Proof.
  induction 1 as [shards now l context profile clk Hl|c seen acts0 clk spec key0 sink resume0 now r s Hr IH Hres Ha Hk|
    c seen acts0 clk obs now c' a Hr IH Hadm Ho Hh].
  - apply story_unknown; [by apply start_ok|by intros ?%not_elem_of_nil|constructor].
  - destruct (admit_command_spec _ _ _ _ _ _ _ _ _ (reach_ok _ _ _ Hr) Hres Ha) as [e c' Hok Hj|k' c1 a c' Hn Hok Hoth Hl Hs].
    + rewrite app_nil_r. eapply story_jobs; [|exact IH]. unfold live. by rewrite Hj.
    + eapply story_fate; [|by eapply steps_fate]. destruct (decide (k = k')) as [->|Hne].
      * specialize (Hk _ eq_refl). apply story_alive; [done|by left|]. destruct IH as [|? Hin|]; [by apply ignored_spared|done..].
      * assert (Hlk : live c1 k <-> live c k) by (unfold live; by rewrite Hoth).
        destruct IH as [H1 H2 H3|H1 H2 H3|a1 e a2 H1 H2 Ha' He H3 H4].
        -- apply story_unknown; [by rewrite Hlk| |done]. by intros [?|?]%elem_of_cons.
        -- apply story_alive; [by apply Hlk|by right|done].
        -- eapply (story_over _ _ _ _ a1 e a2); try done; [by rewrite Hlk|by right].
  - eapply story_fate; [exact IH|]. eapply steps_fate, handle_steps; [by eapply reach_ok|done..].
Qed.

Lemma reach_accounted c seen acts0 : reach c seen acts0 -> Forall accounted acts0.
Proof.
  induction 1 as [shards now l context profile clk Hl|c seen acts0 clk spec key0 sink resume0 now r s Hr IH Hres Ha Hk|
    c seen acts0 clk obs now c' a Hr IH Hadm Ho Hh]; [constructor|apply Forall_app; split; [done|]..].
  - destruct (admit_command_spec _ _ _ _ _ _ _ _ _ (reach_ok _ _ _ Hr) Hres Ha); [constructor|by eapply steps_accounted].
  - eapply steps_accounted, handle_steps; [by eapply reach_ok|done..].
Qed.

(** How often an action list ends a job. *)
Definition endings (k : key) (l : list Action) : nat := length (retain (fun a => bool_decide (ends a = Some k)) l).

Lemma endings_app k l1 l2 : endings k (l1 ++ l2) = (endings k l1 + endings k l2)%nat.
Proof. unfold endings, retain. by rewrite filter_app, length_app. Qed.

Lemma endings_spared k l : Forall (spared k) l -> endings k l = 0%nat.
Proof.
  induction 1 as [|a l Ha Hl IH]; [done|]. change (a :: l) with ([a] ++ l). rewrite endings_app, IH.
  unfold endings, retain. cbn. rewrite decide_False; [done|]. intros H%bool_decide_eq_true. by apply Ha.
Qed.

Lemma endings_once k a1 e a2 : Forall (spared k) a1 -> ends e = Some k -> Forall (ignored k) a2 -> endings k (a1 ++ e :: a2) = 1%nat.
Proof.
  intros H1 He H2. rewrite endings_app, endings_spared by done. change (e :: a2) with ([e] ++ a2).
  rewrite endings_app, (endings_spared k a2) by (by apply ignored_spared). unfold endings, retain. cbn.
  by rewrite decide_True by (by apply bool_decide_eq_true).
Qed.

Lemma spared_split k a1 e a2 : Forall (spared k) (a1 ++ e :: a2) -> ends e ≠ Some k.
Proof. intros [_ H]%Forall_app. by inversion H. Qed.

Lemma ending_unique k a1 e a2 b1 e' b2 : a1 ++ e :: a2 = b1 ++ e' :: b2 -> Forall (spared k) a1 -> Forall (ignored k) a2 ->
  ends e' = Some k -> b1 = a1 /\ e' = e /\ a2 = b2.
Proof.
  revert b1. induction a1 as [|x a1 IH]; intros [|y b1] Heq H1 H2 He'; cbn in Heq.
  - by injection Heq as -> ->.
  - injection Heq as -> ->. apply ignored_spared in H2. by apply spared_split in H2.
  - injection Heq as -> Hq. by inversion H1.
  - injection Heq as -> Hq. inversion H1; subst. by destruct (IH b1 Hq) as (->&->&->).
Qed.

(** ** [assert_invariants] *)

Lemma last_end_below lb l n : RangeSet.norm lb l -> lb <= n -> (forall x, RangeSet.in_list x l -> x < n) -> RangeSet.last_end lb l <= n.
Proof.
  revert lb. induction l as [|r l IH]; intros lb; [done|]. intros (H1&H2&H3) Hlb Hx. cbn. apply IH; [done| |].
  - assert (Hr : ByteRange.end_ r - 1 < n); [|lia]. apply Hx. apply RangeSet.in_list_cons. left. unfold ByteRange.mem. lia.
  - intros x Hin. apply Hx. apply RangeSet.in_list_cons. by right.
Qed.

Lemma covered_below s n : RangeSet.wf s -> 0 <= n -> (forall x, RangeSet.mem x s -> x < n) -> RangeSet.covered_len s <= n.
Proof.
  intros (Hn&_&Hc) H0 Hx. unfold RangeSet.covered_len. rewrite Hc. unfold RangeSet.mem in Hx.
  destruct (RangeSet.ranges s) as [|r l]; [done|]. destruct Hn as (H1&H2&H3). cbn.
  pose proof (RangeSet.total_bound _ _ H3). pose proof (last_end_below _ _ n H3) as Hl.
  assert (ByteRange.end_ r - 1 < n) by (apply Hx, RangeSet.in_list_cons; left; unfold ByteRange.mem; lia).
  enough (RangeSet.last_end (ByteRange.end_ r) l <= n) by lia. apply Hl; [lia|].
  intros x Hin. apply Hx, RangeSet.in_list_cons. by right.
Qed.

Lemma has_key_true {V} (m : slotmap V) k : is_Some (sm_get m k) -> WorldModel.has_key m k = true.
Proof. intros H. by apply bool_decide_eq_true. Qed.

Lemma job_linked_true w k j : tables_ok w -> sm_get (WorldModel.jobs w) k = Some j -> job_ok j -> WorldModel.job_linked w j = true.
Proof.
  intros Ht Hj Hok. destruct (jl_job _ (to_jobs _ Ht) _ _ Hj) as (_&(d&Hd&_)&Ha&Hs). unfold WorldModel.job_linked.
  rewrite !has_key_true by eauto. cbn [andb]. apply andb_true_iff. split.
  - apply forallb_forall. intros s Hin. apply has_key_true. rewrite Forall_forall in Hs. by apply Hs, list_elem_of_In.
  - destruct (JobNode.plan j) as [p|] eqn:Ep; [|done]. destruct (SegmentPlan.total p) as [n|] eqn:Et; [|done].
    destruct (jk_plan _ Hok _ Ep) as [[F1 F2 F3 _] _]. unfold extent in *. rewrite Et in *. cbn in *. apply Z.leb_le.
    apply covered_below; [done|unfold in_u64 in F1; lia|]. intros x Hx. by apply F3.
Qed.

(** Two jobs never write to one destination. *)
Lemma one_job_per_destination w i j k k' : tables_ok w -> sm_get (WorldModel.jobs w) k = Some i -> sm_get (WorldModel.jobs w) k' = Some j ->
  JobNode.destination i = JobNode.destination j -> k = k'.
Proof.
  intros Ht Hi Hj He. destruct (jl_job _ (to_jobs _ Ht) _ _ Hi) as (_&(d&Hd&Hl)&_).
  destruct (jl_job _ (to_jobs _ Ht) _ _ Hj) as (_&(d'&Hd'&Hl')&_). congruence.
Qed.

Lemma NoDup_all_eq (l : list key) : NoDup l -> (forall x y, x ∈ l -> y ∈ l -> x = y) -> (length l <= 1)%nat.
Proof.
  intros Hn H. destruct l as [|x [|y l]]; cbn; [lia..|]. exfalso. inversion Hn as [|? ? Hx _]; subst. apply Hx.
  rewrite (H x y); [left|left|right; left].
Qed.

Lemma holders_single w d : tables_ok w -> (length (WorldModel.holders w d) <= 1)%nat.
Proof.
  intros Ht. apply NoDup_all_eq.
  - unfold WorldModel.holders. eapply sublist_NoDup; [apply (sm_iter_nodup _ (WorldModel.jobs w))|]. apply fmap_sublist, sublist_filter.
  - intros k k'. unfold WorldModel.holders. intros ([i x]&->&[H1 H2]%retain_elem)%list_elem_of_fmap ([j y]&->&[H3 H4]%retain_elem)%list_elem_of_fmap.
    apply sm_iter_Some in H2, H4. apply bool_decide_eq_true in H1, H3. cbn in *. eapply one_job_per_destination; [done..|congruence].
Qed.

Lemma assert_invariants_true c : ok c -> WorldModel.assert_invariants (Ctl.world c) = true.
Proof.
  intros [Ht Hj _]. unfold WorldModel.assert_invariants. rewrite !andb_true_iff, !forallb_forall. split_and!.
  - intros [k j] Hin. apply list_elem_of_In, sm_iter_Some in Hin. by eapply job_linked_true, Hj.
  - intros [k d] _. unfold WorldModel.lease_single. destruct (_ || _); [|done]. apply Nat.leb_le. by apply holders_single.
  - intros [k n] Hin. apply list_elem_of_In, sm_iter_Some in Hin. cbn in *. unfold WorldModel.connection_listed.
    destruct (cl_conn _ (to_conns _ Ht) _ _ Hin) as (<-&o&Ho&Hl). unfold WorldModel.get_origin. rewrite Ho. by apply bool_decide_eq_true.
Qed.
End runs.
