(* ===== verification/Commands.v ===== *)
(** * What the control thread sends out ([core/events.rs], [shard.rs],
    [snapshot.rs], [progress.rs], [core/credentials.rs]).

    The event stream, the commands to the shards, the outcome a waiter gets, the
    projections shown to the user, and the thread that calls a progress
    callback. *)

From Stdlib Require Import String.
From S2P Require Import Prelude Ranges Float Rates Errors Disk Spec SlotMap Timers Segment World Controller.
Local Open Scope Z_scope.

Inductive SplitReason := WorkStealing | Straggler | TailCut.

(** The outcome delivered to a waiting job. *)
Record JobOutcome := mkJobOutcome { oc_bytes : Z; oc_digest : option Digest; oc_resumed_bytes : Z }.

(** The coordinator of a file destination; its lock file is open as long as it
    exists. *)
Record FileDestinationCoordinator := mkCoordinator {
  co_final_path : string; co_part_path : string; co_lock_path : string; co_journal_path : string }.

(** A job's context: the shared cell (see [Context]), by its number. *)
Record JobContext := mkJobContext { cell : nat; ctx_deadline : option Z; ctx_durability : Durability }.

Section commands.
Context {L : SlotMapLib} {W : WebLib}.

Inductive Event :=
| Started (job : key) (total : option Z) (resumed_bytes : Z)
| SourceProbed (job source : key) (supports_ranges : bool) (total : option Z) (protocol : Protocol) (ttfb : Z)
| SourceQuarantined (job : key) (sources : list key) (reason : string)
| ConnectionOpened (job connection : key) (protocol : Protocol) (shard : Z)
| ConnectionReused (job connection : key) (protocol : Protocol)
| WorkerAdded (job : key) (range : ByteRange.t) (connection : key)
| WorkerFinished (job : key) (range : ByteRange.t) (rate : Rate.t)
    (receive_active destination_blocked next_pending max_frame_gap send_ready headers : Z)
    (data_frames dest_accepts copy_count copied_bytes avg_frame frame_p50 frame_p90 : Z)
    (io_reads_submitted io_reads_completed zero_read max_zero_read : Z)
| RangeSplit (job : key) (original kept stolen : ByteRange.t) (reason : SplitReason)
| StragglerDetected (job : key) (range : ByteRange.t) (rate fleet_median : Rate.t)
| ConcurrencyChanged (job origin : key) (connections streams : Z) (reason : string)
| ProgressEvent (job : key) (done : Z) (total : option Z) (rate : Rate.t) (eta : option Z)
| Retrying (job : key) (range : option ByteRange.t) (attempt delay : Z) (reason : string)
| CredentialRefreshRequired (job source : key) (status : Z)
| Checkpointed (job : key) (bytes_done : Z) (durable : bool)
| IntegrityVerified (job : key) (digest_hex : string)
| BottleneckChanged (job : option key) (description : string) (confidence : f64)
| DestinationProfile (job : key) (writes bytes total_latency max_latency : Z)
| TransportProfile (job : key) (physical_connections_opened peak_logical_streams : Z)
| Completed (job : key) (bytes duration : Z) (average_rate : Rate.t)
| Failed (job : key) (error : string)
| Cancelled (job : key).

(** What a shard needs to ask a source. *)
Record SourceContext := mkSourceContext {
  sc_url : Url; sc_if_range : option string; sc_allow_compressed : bool;
  sc_extra_headers : list (string * HeaderValue); sc_deadline : option Z }.

(** Where to connect. *)
Record ConnectTarget := mkTarget { ct_key : TransportOriginKey; ct_addr : SocketAddr; ct_sni : string; ct_tls : bool }.

(** Acknowledgement channels are left out of the commands; their answers are
    the environment's (see [Control]). The representation lock of a job is
    named by the job, its provenance by a number. *)
Inductive ShardCommand :=
| CmdOpenConnection (connection : key) (target : ConnectTarget) (prefer_h3 : bool)
| CmdProbe (job connection source_id : key) (source : SourceContext) (context : JobContext)
| CmdStartRange (job : key) (assignment : AssignmentRef) (attempt : Z) (range : ByteRange.t) (overlap : Z)
    (is_resume frontier : bool) (connection : key) (source : SourceContext) (source_id : key) (part_path : string)
    (context : JobContext) (rep_lock : key) (provenance : nat)
| CmdStartFullBody (job : key) (attempt : Z) (assignment : AssignmentRef) (connection : key) (frontier : bool)
    (source : SourceContext) (part_path : string) (context : JobContext) (source_id : key) (rep_lock : key)
    (provenance : nat)
| CmdCloseConnection (connection : key)
| CmdAttachDestination (job : key)
| CmdCommitSharedDestination (job : key) (final_length : Z) (integrity : option DigestCheck)
| CmdCloseLane (part_path : string)
| CmdTruncateAssignment (job : key) (assignment : AssignmentRef) (connection : key) (new_end : Z)
| CmdSampleMirror (job source_id connection : key) (range : ByteRange.t) (source : SourceContext) (part_path : string)
    (context : JobContext) (rep_lock : key)
| CmdCommitDestination (job : key) (part_path : string) (coordinator : FileDestinationCoordinator) (final_length : Z)
    (integrity : option DigestCheck) (durability : Durability).

(** Why a mailbox does not take a command. *)
Inductive TrySendError := Full | Disconnected.

Record RefreshRequest := mkRefreshRequest { rq_url : string; rq_status : Z; rq_attempt : Z }.
Record RefreshedSource := mkRefreshedSource { rs_url : option string; rs_headers : option (list (string * HeaderValue)) }.

(** ** Snapshots *)

Inductive SnapshotPhase := SnCreated | SnProbing | SnTransferring | SnCommitting | SnCompleted | SnCancelling | SnFailed.

Definition snapshot_phase (p : JobPhase) : SnapshotPhase :=
  match p with
  | Created => SnCreated
  | Probing => SnProbing
  | Transferring => SnTransferring
  | Committing => SnCommitting
  | World.Completed => SnCompleted
  | Cancelling => SnCancelling
  | Failing => SnCancelling
  | World.Failed => SnFailed
  end.

Record JobSnapshot := mkJobSnapshot {
  sn_phase : SnapshotPhase; sn_total_length : option Z; sn_verified_bytes : Z; sn_resumed_bytes : Z;
  sn_receive_rate_bps : option f64; sn_active_connections : Z; sn_active_streams : Z; sn_protocols : list Protocol }.

Record EngineSnapshot := mkEngineSnapshot {
  es_active_jobs : Z; es_physical_connections : Z; es_active_streams : Z; es_protocol_counts : list (Protocol * Z);
  es_active_origins : Z; es_memory_used : Z; es_memory_limit : Z }.
End commands.

(** ** Progress *)

Module DownloadProgress.

Record t := mk {
  downloaded_bytes : Z; total_bytes : option Z; fraction : option f64; bytes_per_second : option f64; eta : option Z }.

(** [None] is the panic of [Duration::from_secs_f64]. *)
Definition new (done : Z) (total : option Z) (rate : option f64) : option t :=
  let fraction0 := option_map (fun total => if total =? 0 then f64_one else f64_div (f64_of_Z done) (f64_of_Z total)) total in
  let remaining := match total with Some total => if done <=? total then Some (total - done) else None | None => None end in
  let positive := match rate with Some r => if f64_ltb f64_zero r then Some r else None | None => None end in
  match remaining, positive with
  | Some n, Some r =>
      match from_secs_f64 (f64_div (f64_of_Z n) r) with
      | Some d => Some (mk done total fraction0 rate (Some d))
      | None => None
      end
  | _, _ => Some (mk done total fraction0 rate None)
  end.
End DownloadProgress.

Module ProgressPublisher.

(** What the publisher and the callback thread share. *)
Record State := mkState { latest : DownloadProgress.t; generation : Z; closed : bool }.

Definition publish (p : DownloadProgress.t) (s : State) : State := mkState p (generation s +% 1) (closed s).

Definition close (p : option DownloadProgress.t) (s : State) : State :=
  match p with
  | Some p => mkState p (generation s +% 1) true
  | None => mkState (latest s) (generation s) true
  end.

Definition first (p : DownloadProgress.t) : State := mkState p 1 false.

(** One turn of [run_callback] that gets the lock: it keeps waiting, or reports
    what it finds (a callback that panics is caught) and stops if closed. *)
Inductive turn := Waits | Reports (p : option DownloadProgress.t) (seen : Z) (stops : bool).

Definition run_callback (seen : Z) (s : State) : turn :=
  if (generation s =? seen) && negb (closed s) then Waits
  else Reports (if generation s =? seen then None else Some (latest s)) (generation s) (closed s).

(** The thread wakes up between the publisher's calls at will: the calls of the
    publisher and the moments it gets the lock, in their order. *)
Inductive step := Publish (p : DownloadProgress.t) | Close (p : option DownloadProgress.t) | Wakes.

Record thread := mkThread { shared : State; seen : Z; reported : list DownloadProgress.t; stopped : bool }.

Definition run_step (t : thread) (x : step) : thread :=
  match x with
  | Publish p => mkThread (publish p (shared t)) (seen t) (reported t) (stopped t)
  | Close p => mkThread (close p (shared t)) (seen t) (reported t) (stopped t)
  | Wakes =>
      if stopped t then t
      else match run_callback (seen t) (shared t) with
           | Waits => t
           | Reports p n b =>
               mkThread (shared t) n (reported t ++ match p with Some p => [p] | None => [] end) b
           end
  end.

Definition spawn (p : DownloadProgress.t) : thread := mkThread (first p) 0 [] false.
End ProgressPublisher.
