(* ===== verification/Control.v ===== *)
(** * The control thread ([control.rs]).

    The loop that owns the controller, the timers and what the engine keeps per
    job (its result channel, its context, its journal, its destination), feeds
    observations to the controller and executes the actions it returns. What it
    sends to other threads is a trace of effects; what they and the operating
    system answer (a full mailbox, a failed write, the clock, the iteration order
    of a [HashMap]) is an environment that is asked question after question. *)

From Stdlib Require Import String.
From S2P Require Import Prelude Ranges Float Rates Errors Disk Context Representation Policy Spec SlotMap Timers Segment Credits World Controller Lifecycle Adaptive Handle Admission Runs Commands Journal.
Local Open Scope Z_scope.

(** ** State *)

(** Per-job state. The result channel is named by the job; [st_shared] is the
    application's destination with its properties, [st_progress] whether there is
    a publisher, [st_provenance] the number of the shared provenance. *)
Record JobState := mkJobState {
  st_context : JobContext;
  st_coordinator : option FileDestinationCoordinator;
  st_part_path : string;
  st_journal : option Journal;
  st_shared : option (Z * DestinationHints);
  st_refresher : option (RefreshRequest -> option RefreshedSource);
  st_progress : bool;
  st_provenance : nat }.

#[export] Instance JobState_rebuild : Rebuild JobState := fun s =>
  mkJobState (st_context s) (st_coordinator s) (st_part_path s) (st_journal s) (st_shared s) (st_refresher s)
    (st_progress s) (st_provenance s).

Section effects.
Context {L : SlotMapLib} {W : WebLib}.

(** What leaves the thread: a command offered to the mailbox of a shard and
    whether it was refused, a request to the resolver, an observation posted to
    the loop's own mailbox, an event, an answer to the submitter ([admit_tx]),
    the outcome of a job ([result_tx], which belongs to a job once it is
    admitted), a result channel dropped without an answer, and progress. *)
Inductive Effect :=
| Sends (shard : Z) (cmd : ShardCommand) (refused : option TrySendError)
| Resolves (origin : key) (host : string) (port : Z)
| Posts (obs : Observation)
| Emits (e : Event)
| Answers (r : result key)
| Rejects (e : Error)
| Replies (job : key) (outcome0 : result JobOutcome)
| Drops (job : key)
| Publishes (job : key) (p : DownloadProgress.t)
| Closes (job : key) (p : option DownloadProgress.t)
| Shows (s : option JobSnapshot)
| ShowsEngine (s : EngineSnapshot)
| Exports (p : PersistedProfile).

(** A snapshot query. *)
Inductive StatusRequest := StatusJob (job : key) | StatusEngine.

(** A submission; the coordinator is the answer to opening the final path. *)
Record ControlCommand := mkCommand {
  cc_spec : JobSpec (Url := Url);
  cc_destination_key : string;
  cc_coordinator : option (result FileDestinationCoordinator);
  cc_shared : option (Z * DestinationHints);
  cc_refresher : option (RefreshRequest -> option RefreshedSource);
  cc_progress : bool;
  cc_shutdown : bool }.

(** What [recv_timeout] of the observations gives. *)
Inductive received := Got (obs : Observation) | TimedOut | Gone.

(** What one turn of the loop finds in its mailboxes, and whether the senders of
    both upstream ones are gone. *)
Record Inbox := mkInbox {
  in_commands : list ControlCommand;
  in_cancels : list key;
  in_status : list StatusRequest;
  in_observation : received;
  in_disconnected : bool }.

Definition is_reply (k : key) (e : Effect) : bool := match e with Replies j _ => bool_decide (j = k) | _ => false end.
Definition is_drop (k : key) (e : Effect) : bool := match e with Drops j => bool_decide (j = k) | _ => false end.
End effects.

(** The environment; the questions are numbered. *)
Record Env := mkEnv {
  clocks : nat -> Clock;
  mailboxes : nat -> option TrySendError;
  disk_faults : nat -> option (nat * ErrorKind);
  lane_acks : nat -> bool;
  commit_acks : nat -> option (result (option Digest));
  memory_used : nat -> Z }.

Section loop_state.
Context {L : SlotMapLib} {S : SecMapLib L} {W : WebLib}.

Record Loop := mkLoop {
  controller : Ctl.t;
  timers : TimerQueue.t TimerEvent;
  states : gmap key JobState;
  shard_count : Z;
  subscribed : bool;
  current_network_context : option key;
  memory_limit : Z;
  contexts : list Inner;
  fs : disk;
  asked : nat;
  trace : list Effect }.

#[export] Instance Loop_rebuild : Rebuild Loop := fun l =>
  mkLoop (controller l) (timers l) (states l) (shard_count l) (subscribed l) (current_network_context l) (memory_limit l)
    (contexts l) (fs l) (asked l) (trace l).

(** ** The monad of the loop *)

Definition C (A : Type) : Type := Loop -> outcome (A * Loop).

Definition cret {A} (a : A) : C A := fun l => Done (a, l).
Definition cbind {A B} (m : C A) (f : A -> C B) : C B := fun l =>
  match m l with
  | Done (a, l') => f a l'
  | Panicked => Panicked
  | OutOfFuel => OutOfFuel
  end.
Definition look {A} (f : Loop -> A) : C A := fun l => Done (f l, l).
Definition change (f : Loop -> Loop) : C unit := fun l => Done (tt, f l).
Definition cpanic {A} : C A := fun _ => Panicked.
Definition cwhen (b : bool) (m : C unit) : C unit := if b then m else cret tt.

Fixpoint each {A} (l : list A) (f : A -> C unit) : C unit :=
  match l with
  | [] => cret tt
  | x :: l' => cbind (f x) (fun _ => each l' f)
  end.

Definition effect (e : Effect) : C unit := change (fun l => l <| trace ::= fun t => t ++ [e] |>).

(** A handler of the controller, with the actions it returns. *)
Definition run_controller {A} (m : M A) : C (A * list Action) := fun l =>
  match m (mkMachine (controller l) []) with
  | Done (a, s) => Done ((a, acts s), l <| controller := ctl s |>)
  | Panicked => Panicked
  | OutOfFuel => OutOfFuel
  end.
End loop_state.

Declare Scope loop_scope.
Delimit Scope loop_scope with loop.
Notation "'let!' x := m 'in' k" := (cbind m (fun x => k))
  (at level 10, x binder, m at level 100, k at level 200) : loop_scope.
Notation "m ;; k" := (cbind m (fun _ => k)) (at level 100, right associativity) : loop_scope.
Open Scope loop_scope.

Section loop.
Context {L : SlotMapLib} {S : SecMapLib L} {W : WebLib}.
Context (exp : f64 -> f64) (fuel : nat) (env : Env).
(** [postcard] and [crc32c]. *)
Context (to_allocvec : Wire -> option (list Z)) (from_bytes : list Z -> option Wire) (crc32c : list Z -> Z).
(** The order in which a [HashMap] yields its keys. *)
Context (key_order : list key -> list key).

Definition question {A} (f : Env -> nat -> A) : C A := fun l => Done (f env (asked l), l <| asked ::= Datatypes.S |>).
Definition read_clock : C Clock := question clocks.

Definition emit_event (e : Event) : C unit :=
  let! on := look subscribed in
  cwhen on (effect (Emits e)).

Definition state_of (k : key) : C (option JobState) := look (fun l => states l !! k).
Definition modify_state (k : key) (f : JobState -> JobState) : C unit := change (fun l => l <| states ::= alter f k |>).
Definition job_node (k : key) : C (option JobNode.t) := look (fun l => Ctl.job (controller l) k).

(** [context.cancel()] and [context.finish()] on the shared cell. *)
Definition on_context (f : Inner -> Inner) (c : JobContext) : C unit := change (fun l => l <| contexts ::= alter f (cell c) |>).

(** [Controller::handle] with the time of one reading of the clock. *)
Definition handle_obs (obs : Observation) : C (list Action) :=
  let! clk := read_clock in
  let! r := run_controller (handle_m exp clk fuel obs (instant clk)) in
  cret r.2.

(** ** Talking to the shards *)

Definition offer (shard : Z) (cmd : ShardCommand) : C (option TrySendError) :=
  let! refused := question mailboxes in
  effect (Sends shard cmd refused) ;;
  cret refused.

Definition send_shard (shard : Z) (cmd : ShardCommand) : C unit :=
  let! n := look shard_count in
  if negb ((0 <=? shard) && (shard <? n)) then cret tt
  else
    let! refused := offer shard cmd in
    match refused with
    | None => cret tt
    | Some e =>
        effect (Posts (DispatchFailed (match e with Full => OpStartAssignment | Disconnected => OpCloseConnection end)
                         None None None None))
    end.

(** The mailboxes in turn. *)
Definition all_shards : C (list Z) := look (fun l => Z.of_nat <$> seq 0 (Z.to_nat (shard_count l))).

Definition broadcast (cmd : ShardCommand) : C unit :=
  let! l := all_shards in
  each l (fun shard => offer shard cmd ;; cret tt).

Fixpoint await_acks (remaining : nat) (deadline : Z) : C unit :=
  match remaining with
  | O => cret tt
  | Datatypes.S n =>
      let! clk := read_clock in
      if deadline <=? instant clk then cret tt
      else
        let! acknowledged := question lane_acks in
        if acknowledged : bool then await_acks n deadline else cret tt
  end.

Definition close_lanes_everywhere (part_path : string) : C unit :=
  broadcast (CmdCloseLane part_path) ;;
  let! n := look shard_count in
  let! clk := read_clock in
  await_acks (Z.to_nat n) (instant clk + from_secs 5).

Definition shard_of_connection (k : key) : C Z :=
  look (fun l => match Ctl.conn (controller l) k with Some n => ConnectionNode.shard n | None => 0 end).

(** ** What commands carry *)

Definition set_port (a : SocketAddr) (port : Z) : SocketAddr :=
  match a with SocketV4 ip _ => SocketV4 ip port | SocketV6 ip _ f s => SocketV6 ip port f s end.

Definition build_target (w : WorldModel.t) (origin endpoint : key) : option ConnectTarget :=
  match WorldModel.get_origin w origin, sm_get (WorldModel.endpoints w) endpoint with
  | Some o, Some e =>
      let k := OriginNode.okey o in
      Some (mkTarget k (address e) (ok_host k) (bool_decide (ok_scheme k = "https")))
  | _, _ => None
  end.

Definition build_source_context (w : WorldModel.t) (job source : key) : option SourceContext :=
  match WorldModel.get_job w job, sm_get (WorldModel.sources w) source with
  | Some j, Some s =>
      match url_parse (src_url s) with
      | None => None
      | Some u =>
          let if_range := match JobNode.fingerprint_etag j with
                          | Some e => if strong_etag (Some e) then Some e else None
                          | None => None
                          end in
          Some (mkSourceContext u if_range (allow_compressed (JobNode.policy j)) (src_headers s) (JobNode.deadline j))
      end
  | _, _ => None
  end.

(** What is sent when there is no context. *)
Definition invalid_context : SourceContext := mkSourceContext url_invalid None false [] None.

(** Whether a source of the job lives on the connection's origin. *)
Definition on_origin (w : WorldModel.t) (origin : option key) (sid : key) : bool :=
  match sm_get (WorldModel.sources w) sid with Some s => bool_decide (Some (src_origin s) = origin) | None => false end.

Definition source_for_connection (c : Ctl.t) (job connection : key) : option key :=
  let conn_origin := option_map ConnectionNode.origin (Ctl.conn c connection) in
  match Ctl.job c job with
  | None => None
  | Some j =>
      match match Ctl.conn c connection with Some n => ConnectionNode.serving_source n | None => None end with
      | Some sid => Some sid
      | None =>
          WorldModel.option_or (find (on_origin (Ctl.world c) conn_origin) (JobNode.active_sources j)) (JobNode.active_source j)
      end
  end.

(** ** The journal *)

Definition unless_some {A} (o : option A) (d : A) : option A := match o with Some _ => o | None => Some d end.

Definition with_fingerprint (fp : JournaledFingerprint.t -> JournaledFingerprint.t) (p : JournalPayload) : JournalPayload :=
  mkPayload (format_version p) (fp (fingerprint p)) (completed p) (durable p) (total p) (bytes_written p) (created_unix p)
    (updated_unix p) (overlap_bytes p) (source_urls p).
Definition with_total (t : option Z) (p : JournalPayload) : JournalPayload :=
  mkPayload (format_version p) (fingerprint p) (completed p) (durable p) t (bytes_written p) (created_unix p)
    (updated_unix p) (overlap_bytes p) (source_urls p).
Definition with_sources (urls : list string) (p : JournalPayload) : JournalPayload :=
  mkPayload (format_version p) (fingerprint p) (completed p) (durable p) (total p) (bytes_written p) (created_unix p)
    (updated_unix p) (overlap_bytes p) urls.

(** [payload_mut()]. *)
Definition on_payload (f : JournalPayload -> JournalPayload) (j : Journal) : Journal := mkJournal (path j) (f (payload j)) true.

Definition set_validators (etag0 : option string) (lm content_length0 : option Z) (f : JournaledFingerprint.t) : JournaledFingerprint.t :=
  JournaledFingerprint.mk content_length0 etag0 lm (JournaledFingerprint.final_url f) (JournaledFingerprint.redirect_chain f)
    (JournaledFingerprint.header_identity f) (JournaledFingerprint.content_coding f).

Definition set_identity (identity : list Z) (f : JournaledFingerprint.t) : JournaledFingerprint.t :=
  JournaledFingerprint.mk (JournaledFingerprint.content_length f) (JournaledFingerprint.etag f)
    (JournaledFingerprint.last_modified_unix f) (JournaledFingerprint.final_url f) (JournaledFingerprint.redirect_chain f)
    identity (JournaledFingerprint.content_coding f).

(** Copies the controller's view of the representation into the journal. *)
Definition sync_fingerprint (node : option JobNode.t) (j : Journal) : Journal :=
  match node with
  | None => j
  | Some n =>
      on_payload (fun p => with_fingerprint (fun f =>
        set_validators (match JobNode.fingerprint_etag n with
                        | Some e => unless_some (JournaledFingerprint.etag f) e
                        | None => JournaledFingerprint.etag f
                        end) (JournaledFingerprint.last_modified_unix f) (JobNode.total_length n) f)
        (with_total (WorldModel.option_or (JobNode.total_length n) (total p)) p)) j
  end.

Definition set_journal (k : key) (j : Journal) : C unit := modify_state k (fun s => s <| st_journal := Some j |>).

(** [persist_blocking] of a job's journal. *)
Definition persist_journal (k : key) (j : Journal) : C bool :=
  let! fault := question disk_faults in
  let! d := look fs in
  let r := persist_blocking to_allocvec crc32c j fault d in
  set_journal k r.1.1 ;;
  change (fun l => l <| fs := r.1.2 |>) ;;
  cret match r.2 with inl _ => false | inr _ => true end.

Definition checkpoint_journal_at (k : key) (mutate : Journal -> Journal) : C bool :=
  let! state := state_of k in
  match state with
  | None => cret false
  | Some s =>
      match st_journal s with
      | None => cret false
      | Some j =>
          let! node := job_node k in
          let! persisted := persist_journal k (sync_fingerprint node (mutate j)) in
          if persisted : bool then
            let! state' := state_of k in
            emit_event (Checkpointed k match state' with
                                       | Some s' => match st_journal s' with Some j' => bytes_written (payload j') | None => 0 end
                                       | None => 0 end true) ;;
            cret true
          else cret false
      end
  end.

Definition checkpoint_journal (k : key) : C bool := checkpoint_journal_at k mark_completed_durable.

Definition record_only (k : key) (range : ByteRange.t) : C unit :=
  let! clk := read_clock in
  modify_state k (fun s => s <| st_journal ::= option_map (fun j => record_completed (unix_secs clk) j range) |>).

Definition schedule_timer (at0 : Z) (e : TimerEvent) : C unit := change (fun l => l <| timers ::= fun q => TimerQueue.schedule q at0 e |>).

Definition schedule_checkpoint (k : key) (interval : Z) : C unit :=
  let! clk := read_clock in
  schedule_timer (instant clk + interval) (CheckpointDue k).

Definition note_probe (etag0 : option string) (last_modified0 total0 : option Z) (j : Journal) : Journal :=
  on_payload (fun p => with_fingerprint (set_validators etag0 last_modified0 total0) (with_total total0 p)) j.

Definition record_progress (obs : Observation) : C unit :=
  match obs with
  | Probed k _ _ _ total0 etag0 lm _ _ => modify_state k (fun s => s <| st_journal ::= option_map (note_probe etag0 (option_map (Z.max 0) lm) total0) |>)
  | AssignmentVerified k _ range _ _ _ =>
      let! node := job_node k in
      match node with
      | None => cret tt
      | Some j =>
          match JobNode.durability j with
          | CrashSafe =>
              let! clk := read_clock in
              checkpoint_journal_at k (fun j => mark_completed_durable (record_completed (unix_secs clk) j range)) ;;
              cret tt
          | Periodic interval => record_only k range ;; schedule_checkpoint k interval
          | Relaxed => record_only k range
          end
      end
  | _ => cret tt
  end.

(** ** Snapshots and progress *)

Definition count_protocol (p : Protocol) (l : list (key * ConnectionNode.t)) : Z :=
  Z.of_nat (length (retain (fun kc => bool_decide (ConnectionNode.protocol kc.2 = p)) l)).

(** [protocol_counts] is a map ordered by the names [Http1_1 < Http2 < Http3]. *)
Definition build_engine_snapshot (c : Ctl.t) (used limit : Z) : EngineSnapshot :=
  let active := retain (fun kj => negb (is_terminal (JobNode.phase kj.2)) && negb (phase_is (JobNode.phase kj.2) Cancelling)) (Ctl.jobs c) in
  let streams := foldl (fun n kj => n + match JobNode.plan kj.2 with Some p => SegmentPlan.in_flight p | None => 0 end) 0 (Ctl.jobs c) in
  let counts := retain (fun pc => 0 <? pc.2) ((fun p => (p, count_protocol p (Ctl.conns c))) <$> [Http1_1; Http2; Http3]) in
  mkEngineSnapshot (Z.of_nat (length active)) (Z.of_nat (length (Ctl.conns c))) streams counts
    (Z.of_nat (length (remove_dups ((fun kc => ConnectionNode.origin kc.2) <$> Ctl.conns c)))) used limit.

Definition push_protocol (acc : Z * list Protocol) (n : ConnectionNode.t) : Z * list Protocol :=
  (acc.1 + 1, if bool_decide (ConnectionNode.protocol n ∈ acc.2) then acc.2 else acc.2 ++ [ConnectionNode.protocol n]).

Definition build_snapshot (c : Ctl.t) (k : key) : option JobSnapshot :=
  match Ctl.job c k with
  | None => None
  | Some j =>
      let live_here := retain (fun kc => bool_decide (ConnectionNode.origin kc.2 = JobNode.origin j) &&
                                         status_is (ConnectionNode.status kc.2) Ready) (Ctl.conns c) in
      let '(active, protocols) := foldl push_protocol (0, []) live_here.*2 in
      let rate := match JobNode.plan j with
                  | Some p => let stats := SegmentPlan.rate_stats exp p in
                              if EwmaWithVariance.is_warm stats then Some (EwmaWithVariance.mean stats) else None
                  | None => None
                  end in
      Some (mkJobSnapshot (snapshot_phase (JobNode.phase j)) (JobNode.total_length j)
              (match JobNode.plan j with Some p => SegmentPlan.bytes_done p | None => 0 end) (JobNode.resumed_bytes j) rate active
              (match JobNode.plan j with Some p => SegmentPlan.in_flight p | None => 0 end) protocols)
  end.

Definition publish_progress (k : key) : C unit :=
  let! state := state_of k in
  match state with
  | Some s =>
      if st_progress s then
        let! snapshot := look (fun l => build_snapshot (controller l) k) in
        match snapshot with
        | None => cret tt
        | Some n =>
            match DownloadProgress.new (sn_verified_bytes n) (sn_total_length n) (sn_receive_rate_bps n) with
            | None => cpanic
            | Some p => effect (Publishes k p)
            end
        end
      else cret tt
  | None => cret tt
  end.

(** ** Events *)

Definition emit_observation_events (obs : Observation) : C unit :=
  match obs with
  | ConnectionReady connection _ protocol =>
      let! c := look controller in
      match Ctl.conn c connection with
      | None => cret tt
      | Some n =>
          match find (fun kj => bool_decide (JobNode.origin kj.2 = ConnectionNode.origin n)) (Ctl.jobs c) with
          | Some kj => emit_event (ConnectionOpened kj.1 connection protocol (ConnectionNode.shard n))
          | None => cret tt
          end
      end
  | Probed k connection _ supports_ranges total0 _ _ _ _ =>
      let! c := look controller in
      emit_event (SourceProbed k (default key_null (match Ctl.job c k with Some j => JobNode.active_source j | None => None end))
        supports_ranges total0 (match Ctl.conn c connection with Some n => ConnectionNode.protocol n | None => Http1_1 end) 0)
  | AssignmentVerified k _ range s _ _ =>
      emit_event (WorkerFinished k range (Rate.from_bps (TransferSample.receive_rate s)) (TransferSample.receive_active s)
        (TransferSample.destination_blocked s) (TransferSample.next_pending s) (TransferSample.max_frame_gap s)
        (TransferSample.send_ready s) (TransferSample.headers s) (TransferSample.data_frames s) (TransferSample.dest_accepts s)
        (TransferSample.copy_count s) (TransferSample.copied_bytes s) (TransferSample.avg_frame s) (TransferSample.frame_p50 s)
        (TransferSample.frame_p90 s) (TransferSample.io_reads_submitted s) (TransferSample.io_reads_completed s)
        (TransferSample.zero_read s) (TransferSample.max_zero_read s))
  | _ => cret tt
  end.

(** ** The end of a job *)

(** [remove_file(journal.path())], whose result is ignored. *)
Definition remove_journal (k : key) : C unit :=
  let! state := state_of k in
  match state with
  | Some s =>
      match st_journal s with
      | Some j =>
          let! fault := question disk_faults in
          change (fun l => l <| fs ::= fun d => (exec persistence_io [RemoveFile (path j)] fault d).1 |>)
      | None => cret tt
      end
  | None => cret tt
  end.

Definition outcome_event (k : key) (outcome0 : result JobOutcome) (shown : Error -> string) : Event :=
  match outcome0 with
  | inr o => Completed k (oc_bytes o) 0 Rate.FLOOR
  | inl Errors.Cancelled => Cancelled k
  | inl e => Failed k (shown e)
  end.

(** The progress a publisher is closed with; [None] is a panic. *)
Definition final_progress (outcome0 : result JobOutcome) : option (option DownloadProgress.t) :=
  match outcome0 with
  | inr o => option_map Some (DownloadProgress.new (oc_bytes o) (Some (oc_bytes o)) None)
  | inl _ => Some None
  end.

(** [shown] is [Error::to_string]. *)
Definition finish_job_state (shown : Error -> string) (k : key) (outcome0 : result JobOutcome) : C unit :=
  let good := match outcome0 with inr _ => true | inl _ => false end in
  (if good then remove_journal k else checkpoint_journal k ;; cret tt) ;;
  let! state := state_of k in
  match state with
  | None => cret tt
  | Some s =>
      change (fun l => l <| states ::= delete k |>) ;;
      emit_event (outcome_event k outcome0 shown) ;;
      (if st_progress s then
         match final_progress outcome0 with
         | Some p => effect (Closes k p)
         | None => cpanic
         end
       else cret tt) ;;
      effect (Replies k outcome0) ;;
      on_context (if good then finish else cancel) (st_context s)
  end.

(** ** Executing the actions *)

(** [Error::to_string]. *)
Context (shown : Error -> string).

Abbreviation finish_job := (finish_job_state shown).

Definition attempt_of (c : Ctl.t) (k assign : key) : Z :=
  match Ctl.job c k with
  | Some j => match JobNode.plan j with
              | Some p => match sm_get (SegmentPlan.assignments p) assign with Some a => Assignment.attempt a | None => 0 end
              | None => 0
              end
  | None => 0
  end.

Definition resumes (c : Ctl.t) (k : key) : bool :=
  match Ctl.job c k with
  | Some j => verify_on_resume (JobNode.integrity j) && (0 <? JobNode.resumed_bytes j)
  | None => false
  end.

Definition source_of (c : Ctl.t) (k source : key) : SourceContext :=
  default invalid_context (build_source_context (Ctl.world c) k source).

Definition start_range (k : key) (assignment : AssignmentRef) (connection : key) (range : ByteRange.t) (overlap : Z)
    (frontier : bool) : C unit :=
  let! state := state_of k in
  match state with
  | None => cret tt
  | Some s =>
      emit_event (WorkerAdded k range connection) ;;
      let! c := look controller in
      match source_for_connection c k connection with
      | None => cret tt
      | Some sid =>
          let! shard := shard_of_connection connection in
          send_shard shard (CmdStartRange k assignment (attempt_of c k (ar_assignment assignment)) range overlap (resumes c k)
            frontier connection (source_of c k sid) sid (st_part_path s) (st_context s) k (st_provenance s))
      end
  end.

Definition start_full_body (k : key) (assignment : AssignmentRef) (connection : key) (frontier : bool) : C unit :=
  let! state := state_of k in
  match state with
  | None => cret tt
  | Some s =>
      let! c := look controller in
      match source_for_connection c k connection with
      | None => cret tt
      | Some sid =>
          let! shard := shard_of_connection connection in
          send_shard shard (CmdStartFullBody k 0 assignment connection frontier (source_of c k sid) (st_part_path s)
            (st_context s) sid k (st_provenance s))
      end
  end.

Definition send_probe (k connection : key) (source : option key) : C unit :=
  let! c := look controller in
  match WorldModel.option_or source (match Ctl.job c k with Some j => JobNode.active_source j | None => None end) with
  | None => cret tt
  | Some sid =>
      match build_source_context (Ctl.world c) k sid with
      | None => cret tt
      | Some context =>
          let! state := state_of k in
          match state with
          | None => cret tt
          | Some s =>
              let! shard := shard_of_connection connection in
              send_shard shard (CmdProbe k connection sid context (st_context s))
          end
      end
  end.

Definition sample_mirror (k source connection : key) (range : ByteRange.t) : C unit :=
  let! state := state_of k in
  match state with
  | None => cret tt
  | Some s =>
      let! c := look controller in
      match build_source_context (Ctl.world c) k source with
      | None => cret tt
      | Some context =>
          let! shard := shard_of_connection connection in
          send_shard shard (CmdSampleMirror k source connection range context (st_part_path s) (st_context s) k)
      end
  end.

(** The answer to a commit of a shared destination; no answer in time is a
    failure. *)
Definition commit_observation (k : key) (final_length : Z) (answer : option (result (option Digest))) : Observation :=
  match answer with
  | Some (inr digest) => DestinationCommitted k final_length digest
  | Some (inl e) => DestinationFailed k (destination_failure_from_error e)
  | None => DestinationFailed k DfDestinationError
  end.

Definition commit_destination (k : key) (final_length : Z) (integrity : option DigestCheck) : C unit :=
  let! state := state_of k in
  match state with
  | None => cret tt
  | Some s =>
      match st_shared s with
      | Some _ =>
          send_shard 0 (CmdCommitSharedDestination k final_length integrity) ;;
          let! answer := question commit_acks in
          effect (Posts (commit_observation k final_length answer))
      | None =>
          match st_coordinator s with
          | None => effect (Posts (DestinationCommitted k final_length None))
          | Some co =>
              modify_state k (fun s => s <| st_coordinator := None |>) ;;
              close_lanes_everywhere (st_part_path s) ;;
              send_shard 0 (CmdCommitDestination k (st_part_path s) co final_length integrity (ctx_durability (st_context s)))
          end
      end
  end.

(** Removing the state drops the result channel. *)
Definition discard_destination (k : key) : C unit :=
  let! state := state_of k in
  match state with
  | None => cret tt
  | Some s =>
      change (fun l => l <| states ::= delete k |>) ;;
      on_context cancel (st_context s) ;;
      effect (Drops k)
  end.

Definition fail_error (error : string) : Error :=
  if bool_decide (error = CANCELLED_SENTINEL) then Errors.Cancelled
  else if bool_decide (error = DEADLINE_SENTINEL) then DeadlineExceeded
  else destination error.

Definition reset_resume_data (k : key) : C unit :=
  let! state := state_of k in
  match state with
  | Some s => match st_journal s with
              | Some j => persist_journal k (clear_ranges j) ;; cret tt
              | None => cret tt
              end
  | None => cret tt
  end.

Definition refresh_observation (k : key) (s : JobState) (rq : RefreshRequest) : Observation :=
  match st_refresher s with
  | Some refresh =>
      match refresh rq with
      | Some r => SourceRefreshed k (rs_url r) (rs_headers r)
      | None => CredentialRefreshFailed k (rq_status rq)
      end
  | None => CredentialRefreshFailed k (rq_status rq)
  end.

Definition open_connection (connection origin endpoint : key) (shard : Z) (prefer_h3 : bool) (alt_port : option Z) : C unit :=
  let! c := look controller in
  match build_target (Ctl.world c) origin endpoint with
  | None => cret tt
  | Some t =>
      let t' := match alt_port with
                | Some p => mkTarget (ct_key t) (set_port (ct_addr t) p) (ct_sni t) (ct_tls t)
                | None => t
                end in
      send_shard shard (CmdOpenConnection connection t' prefer_h3)
  end.

(** [again] routes the actions of an observation made on the spot. *)
Definition route_action (again : list Action -> C unit) (a : Action) : C unit :=
  match a with
  | Resolve origin host port => effect (Resolves origin host port)
  | OpenConnection connection origin endpoint shard prefer_h3 alt_port =>
      open_connection connection origin endpoint shard prefer_h3 alt_port
  | Probe k connection source => send_probe k connection source
  | StartAssignment k assignment connection range overlap frontier => start_range k assignment connection range overlap frontier
  | StartFullBody k assignment connection frontier => start_full_body k assignment connection frontier
  | SampleMirror k source connection range => sample_mirror k source connection range
  | ReportSourceQuarantined k sources reason => emit_event (SourceQuarantined k sources reason)
  | TruncateAssignment k assignment connection new_end =>
      let! shard := shard_of_connection connection in
      send_shard shard (CmdTruncateAssignment k assignment connection new_end)
  | CloseConnection connection => broadcast (CmdCloseConnection connection)
  | CommitDestination k final_length integrity => commit_destination k final_length integrity
  | DiscardDestination k => discard_destination k
  | FailJob k error => finish_job k (inl (fail_error error))
  | CompleteJob k total_bytes digest resumed_bytes => finish_job k (inr (mkJobOutcome total_bytes digest resumed_bytes))
  | ResetResumeData k => reset_resume_data k
  | RequestCredentialRefresh k url0 status attempt =>
      let! state := state_of k in
      match state with
      | None => cret tt
      | Some s =>
          let! acts0 := handle_obs (refresh_observation k s (mkRefreshRequest url0 status attempt)) in
          again acts0
      end
  | ScheduleTimer at0 e =>
      match e with
      | RetryReady assignment range attempt =>
          let! clk := read_clock in
          emit_event (Retrying (ar_job assignment) (Some range) attempt (u64_sat_sub at0 (instant clk)) "retry backoff")
      | _ => cret tt
      end ;;
      schedule_timer at0 e
  end.

(** [depth] bounds how often a refresh asks for another one. *)
Fixpoint route_actions (depth : nat) (l : list Action) : C unit :=
  each l (route_action (match depth with O => fun _ _ => OutOfFuel | Datatypes.S d => route_actions d end)).

(** ** Admission *)

Definition read_now (p : string) : C (ErrorKind + list Z) :=
  let! fault := question disk_faults in
  let! d := look fs in
  cret match fault with
       | Some (_, k) => inl k
       | None => match now_image d !! p with Some f => inr (data f) | None => inl NotFoundKind end
       end.

(** Zero when the file is not there or cannot be examined. *)
Definition part_length (p : string) : C Z :=
  let! r := read_now p in
  cret match r with inl _ => 0 | inr b => Z.of_nat (length b) end.

(** [None]: [expect] on the sources. *)
Definition fresh_journal (now : Z) (spec : JobSpec (Url := Url)) (p : string) : option Journal :=
  match js_sources spec with
  | [] => None
  | src :: _ =>
      let fp := JournaledFingerprint.mk None None None (url_as_str (url src)) [] (representation_fingerprint url_as_str blake3 src) None in
      Some (create p (with_sources [url_as_str (url src)] (JournalPayload_new now fp None (Spec.overlap_bytes (js_integrity spec)))))
  end.

(** The durable ranges that the partial file can hold. *)
Definition surviving (part_len : Z) (p : JournalPayload) : JournalPayload :=
  let d := foldl RangeSet.insert RangeSet.empty (retain (fun r => ByteRange.end_ r <=? part_len) (RangeSet.iter (durable p))) in
  with_ranges p d d (RangeSet.covered_len d) (updated_unix p).

Definition note_source (spec : JobSpec (Url := Url)) (p : JournalPayload) : JournalPayload :=
  match js_sources spec with
  | [] => p
  | src :: _ =>
      let u := url_as_str (url src) in
      let p' := with_fingerprint (set_identity (representation_fingerprint url_as_str blake3 src)) p in
      if bool_decide (u ∈ source_urls p) then p' else with_sources (source_urls p ++ [u]) p'
  end.

(** Every path of [discover_resume] yields a journal. *)
Definition discover_resume (co : FileDestinationCoordinator) (spec : JobSpec (Url := Url)) : C Journal :=
  let p := co_journal_path co in
  let fresh := let! clk := read_clock in
               match fresh_journal (unix_secs clk) spec p with Some j => cret j | None => cpanic end in
  let! r := read_now p in
  match load_blocking from_bytes crc32c p r with
  | inr (Some j) =>
      let! n := part_length (co_part_path co) in
      if n =? 0 then fresh
      else cret (mark_dirty (on_payload (fun pl => note_source spec (surviving n pl)) j))
  | _ => fresh
  end.

(** [UNIX_EPOCH.checked_add]. *)
Definition system_time (unix : Z) : option Z := if unix <=? 9223372036854775807 then Some unix else None.

Definition evidence_of (p : JournalPayload) : ResumeEvidence :=
  let fp := fingerprint p in
  mkResumeEvidence (durable p) (total p) (JournaledFingerprint.etag fp)
    (match JournaledFingerprint.last_modified_unix fp with Some u => system_time u | None => None end)
    [JournaledFingerprint.final_url fp].

(** A refused submission is told twice: by the reply to the submission and on
    the result channel, there as a destination error. *)
Definition reject (e : Error) : C unit :=
  effect (Answers (inl e)) ;;
  effect (Rejects match e with Destination (Rejected _) => e | _ => destination (shown e) end).

Definition new_state (cmd : ControlCommand) (co : option FileDestinationCoordinator) (j : option Journal) (n : nat) : JobState :=
  mkJobState (mkJobContext n (js_deadline (cc_spec cmd)) (js_persistence (cc_spec cmd))) co
    (match co with Some c => co_part_path c | None => "" end) j (cc_shared cmd) (cc_refresher cmd) (cc_progress cmd) n.

Definition insert_state (k : key) (cmd : ControlCommand) (co : option FileDestinationCoordinator) (j : option Journal) : C unit :=
  change (fun l => l <| states ::= <[k := new_state cmd co j (length (contexts l))]> |> <| contexts ::= fun cs => cs ++ [new] |>).

(** The sink's properties, and its hand-over to the shards; [None] stops. *)
Definition attach_shared (k : key) (shared0 : option (Z * DestinationHints)) : C bool :=
  match shared0 with
  | None => cret true
  | Some _ =>
      let! r := run_controller (set_sink k shared0) in
      match r.1 with
      | inl e => effect (Answers (inl e)) ;; cret false
      | inr _ => broadcast (CmdAttachDestination k) ;; cret true
      end
  end.

(** Once the coordinator, if any, is open. *)
Definition admit_opened (depth : nat) (cmd : ControlCommand) (co : option FileDestinationCoordinator) : C unit :=
  let spec := cc_spec cmd in
  let! clk := read_clock in
  let! entered := run_controller (enter clk spec (cc_destination_key cmd)) in
  match entered.1 with
  | inl e => reject e
  | inr k =>
      let! j := match co with
                | Some c => let! j := discover_resume c spec in cret (Some j)
                | None => cret None
                end in
      let resume0 := option_map (fun j => evidence_of (payload j)) j in
      insert_state k cmd co j ;;
      let! going := attach_shared k (cc_shared cmd) in
      if negb going then cret tt
      else
        effect (Answers (inr k)) ;;
        emit_event (Started k None (match resume0 with Some r => RangeSet.covered_len (re_durable r) | None => 0 end)) ;;
        let! r := run_controller (handle_m exp clk fuel (JobAdmitted k spec resume0) (instant clk)) in
        route_actions depth r.2
  end.

Definition admit_command (depth : nat) (cmd : ControlCommand) : C unit :=
  match cc_coordinator cmd with
  | Some (inl e) => effect (Answers (inl e)) ;; effect (Rejects (destination (shown e)))
  | Some (inr co) => admit_opened depth cmd (Some co)
  | None => admit_opened depth cmd None
  end.

(** ** The loop *)

Definition observe (depth : nat) (obs : Observation) : C unit :=
  let! acts0 := handle_obs obs in
  route_actions depth acts0.

Definition on_command (depth : nat) (cmd : ControlCommand) : C unit :=
  if cc_shutdown cmd then cret tt else admit_command depth cmd.

(** Shutdown cancels every job of the table. *)
Definition cancel_all (depth : nat) : C unit :=
  let! ks := look (fun l => key_order (map_to_list (states l)).*1) in
  each ks (fun k => observe depth (JobCancelled k)).

Definition on_cancel (depth : nat) (k : key) : C unit :=
  let! state := state_of k in
  match state with Some s => on_context cancel (st_context s) | None => cret tt end ;;
  observe depth (JobCancelled k).

Definition on_status (r : StatusRequest) : C unit :=
  match r with
  | StatusJob k =>
      let! c := look controller in
      effect (Shows (build_snapshot c k))
  | StatusEngine =>
      let! used := question memory_used in
      let! limit := look memory_limit in
      let! c := look controller in
      effect (ShowsEngine (build_engine_snapshot c used limit))
  end.

Definition progress_job (obs : Observation) : option key :=
  match obs with
  | Probed k _ _ _ _ _ _ _ _ => Some k
  | AssignmentVerified k _ _ _ _ _ => Some k
  | _ => None
  end.

Definition on_observation (depth : nat) (obs : Observation) : C unit :=
  emit_observation_events obs ;;
  record_progress obs ;;
  let! acts0 := handle_obs obs in
  match progress_job obs with Some k => publish_progress k | None => cret tt end ;;
  route_actions depth acts0.

Definition on_timer (depth : nat) (e : TimerEvent) : C unit :=
  match e with CheckpointDue k => checkpoint_journal k ;; cret tt | _ => cret tt end ;;
  observe depth (TimerExpired e).

Definition expire_timers (depth : nat) : C unit :=
  let! clk := read_clock in
  let! q := look timers in
  let '(events, q') := TimerQueue.drain_expired q (instant clk) in
  change (fun l => l <| timers := q' |>) ;;
  each events (on_timer depth).

(** One turn; whether there is another one. How long the thread waits for an
    observation is left out. *)
Definition iteration (depth : nat) (i : Inbox) : C bool :=
  each (in_commands i) (on_command depth) ;;
  let stop := existsb cc_shutdown (in_commands i) in
  cwhen stop (cancel_all depth) ;;
  each (in_cancels i) (on_cancel depth) ;;
  each (take 16 (in_status i)) on_status ;;
  match in_observation i with
  | Gone => cret false
  | r =>
      match r with Got obs => on_observation depth obs | _ => cret tt end ;;
      expire_timers depth ;;
      cret (negb (stop || in_disconnected i))
  end.

(** What is left is answered explicitly. *)
Definition answer_gone (k : key) : C unit :=
  let! state := state_of k in
  match state with
  | Some s =>
      change (fun l => l <| states ::= delete k |>) ;;
      on_context cancel (st_context s) ;;
      effect (Replies k (inl (Runtime RuntimeEngineGone)))
  | None => cret tt
  end.

Definition shut_down : C unit :=
  let! ks := look (fun l => key_order (map_to_list (states l)).*1) in
  each ks answer_gone ;;
  let! clk := read_clock in
  let! c := look controller in
  effect (Exports (WorldModel.export_profiles clk (Ctl.world c))).

(** The turns one after the other, until one is the last; [false] when the
    inboxes given do not end the loop. *)
Fixpoint run_loop (depth : nat) (l : list Inbox) : C bool :=
  match l with
  | [] => cret false
  | i :: l' =>
      let! go := iteration depth i in
      if go : bool then run_loop depth l' else shut_down ;; cret true
  end.
End loop.

Section boot.
Context {L : SlotMapLib} {S : SecMapLib L} {W : WebLib}.

(** The loop as [run_loop] sets it up. *)
Definition boot (shards now : Z) (limits : EngineLimits.t) (context : option NetworkContextKey) (profile : option PersistedProfile)
    (clk : Clock) (subscribed0 : bool) (memory : Z) (d : disk) : Loop :=
  let c := start shards now limits context profile clk in
  mkLoop c TimerQueue.new ∅ shards subscribed0
    (match context with Some _ => WorldModel.current_context (Ctl.world c) | None => None end) memory [] d 0 [].
End boot.
