(* ===== verification/ControlLaws.v ===== *)
(** * The control thread, turn by turn.

    Most of what the thread does leaves the controller, the table of its jobs and
    their contexts alone ([calm]); the rest keeps the invariant [loop_ok]: the
    controller is in a reachable state, a job that is in the table is one the
    controller has, every other job that was admitted has been told its outcome
    once, and its context is closed. *)

From Stdlib Require Import String.
From S2P Require Import Prelude Ranges Float Rates Errors Disk Context Representation Policy Spec SlotMap Timers Segment PlanFrame World Controller Lifecycle Adaptive Handle Protocol Frames Refine Admission Runs Commands Journal Control.
Local Open Scope Z_scope.

Create HintDb calm.

Section laws.
Context {L : SlotMapLib} {HL : SlotMapLaws L} {S : SecMapLib L} {W : WebLib}.

Definition cwp {A} (m : C A) (l : Loop) (Q : A -> Loop -> Prop) : Prop :=
  match m l with Done (a, l') => Q a l' | _ => True end.

Lemma cwp_ret {A} (a : A) l (Q : A -> Loop -> Prop) : Q a l -> cwp (cret a) l Q.
Proof. done. Qed.
Lemma cwp_look {A} (f : Loop -> A) l (Q : A -> Loop -> Prop) : Q (f l) l -> cwp (look f) l Q.
Proof. done. Qed.
Lemma cwp_change f l (Q : unit -> Loop -> Prop) : Q tt (f l) -> cwp (change f) l Q.
Proof. done. Qed.
Lemma cwp_bind {A B} (m : C A) (f : A -> C B) l (Q : B -> Loop -> Prop) :
  cwp m l (fun a l' => cwp (f a) l' Q) -> cwp (cbind m f) l Q.
Proof. unfold cwp, cbind. by destruct (m l) as [[a l']| |]. Qed.
Lemma cwp_mono {A} (m : C A) l (P Q : A -> Loop -> Prop) : cwp m l P -> (forall a l', P a l' -> Q a l') -> cwp m l Q.
Proof. unfold cwp. destruct (m l) as [[a l']| |]; auto. Qed.
Lemma cwp_done {A} (m : C A) l (Q : A -> Loop -> Prop) a l' : cwp m l Q -> m l = Done (a, l') -> Q a l'.
Proof. unfold cwp. intros H E. by rewrite E in H. Qed.

(** ** Calm operations *)

Definition journals_ok (l : Loop) : Prop := forall k s j, states l !! k = Some s -> st_journal s = Some j -> JournalSpec.ok j.

(** An effect that tells nobody the outcome of a job and admits none. *)
Definition silent (e : Effect) : Prop :=
  match e with Replies _ _ | Drops _ | Answers (inr _) => False | _ => True end.

(** The job a command works for, and the context it is given. *)
Definition cmd_carries (cmd : ShardCommand) : option (key * JobContext) :=
  match cmd with
  | CmdProbe k _ _ _ x => Some (k, x)
  | CmdStartRange k _ _ _ _ _ _ _ _ _ _ x _ _ => Some (k, x)
  | CmdStartFullBody k _ _ _ _ _ _ x _ _ _ => Some (k, x)
  | CmdSampleMirror k _ _ _ _ _ x _ => Some (k, x)
  | _ => None
  end.

Definition carries (e : Effect) : option (key * JobContext) :=
  match e with Sends _ cmd _ => cmd_carries cmd | _ => None end.

Definition sent_for (l : Loop) (e : Effect) : Prop := forall k x, carries e = Some (k, x) -> st_context <$> states l !! k = Some x.

Record calm (l l' : Loop) : Prop := {
  ca_controller : controller l' = controller l;
  ca_contexts : contexts l' = contexts l;
  ca_states k : st_context <$> (states l' !! k) = st_context <$> (states l !! k);
  ca_journals : journals_ok l -> journals_ok l';
  ca_trace : exists t, trace l' = trace l ++ t /\ Forall silent t /\ Forall (sent_for l) t }.

Lemma sent_for_states l l' e : (forall k, st_context <$> (states l' !! k) = st_context <$> (states l !! k)) -> sent_for l' e <-> sent_for l e.
Proof. intros H. unfold sent_for. setoid_rewrite H. done. Qed.

Lemma sent_for_none l t : Forall (fun e => carries e = None) t -> Forall (sent_for l) t.
Proof. intros H. eapply Forall_impl; [exact H|]. intros e He k x. by rewrite He. Qed.

Lemma calm_refl l : calm l l.
Proof. split; try done. exists []. by rewrite app_nil_r. Qed.

Lemma calm_only l l' t : controller l' = controller l -> contexts l' = contexts l -> states l' = states l ->
  trace l' = trace l ++ t -> Forall silent t -> Forall (sent_for l) t -> calm l l'.
Proof. intros H1 H2 H3 H4 H5 H6. split; [done..|by rewrite H3|unfold journals_ok; by rewrite H3|by exists t]. Qed.

Lemma calm_trans l1 l2 l3 : calm l1 l2 -> calm l2 l3 -> calm l1 l3.
Proof.
  intros [A1 A2 A3 A4 (t&A5&A6&A7)] [B1 B2 B3 B4 (u&B5&B6&B7)]. split; [congruence..|intros k; congruence|auto|].
  exists (t ++ u). rewrite B5, A5. split_and!; [by rewrite app_assoc|by apply Forall_app|]. apply Forall_app. split; [done|].
  eapply Forall_impl; [exact B7|]. intros e. by apply sent_for_states.
Qed.

Definition is_calm {A} (m : C A) : Prop := forall l, cwp m l (fun _ l' => calm l l').

Lemma calm_ret {A} (a : A) : is_calm (cret a).
Proof. intros l. apply calm_refl. Qed.
Lemma calm_look {A} (f : Loop -> A) : is_calm (look f).
Proof. intros l. apply calm_refl. Qed.
Lemma calm_panic {A} : is_calm (cpanic (A := A)).
Proof. by intros l. Qed.
Lemma calm_bind {A B} (m : C A) (f : A -> C B) : is_calm m -> (forall a, is_calm (f a)) -> is_calm (cbind m f).
Proof.
  intros Hm Hf l. apply cwp_bind. eapply cwp_mono; [apply Hm|]. intros a l1 H1. cbn. eapply cwp_mono; [apply Hf|].
  intros b l2 H2. exact (calm_trans _ _ _ H1 H2).
Qed.
Lemma calm_when b m : is_calm m -> is_calm (cwhen b m).
Proof. intros Hm. destruct b; [exact Hm|apply calm_ret]. Qed.
Lemma calm_each {A} (l : list A) f : (forall x, is_calm (f x)) -> is_calm (each l f).
Proof. intros Hf. induction l as [|x l IH]; [apply calm_ret|]. apply calm_bind; [apply Hf|by intros _]. Qed.
Lemma calm_effect e : silent e -> carries e = None -> is_calm (effect e).
Proof.
  intros He Hc l. apply cwp_change, (calm_only _ _ [e]); try done; [by constructor|]. apply sent_for_none. by constructor.
Qed.

(** Changes of the state of a job but for its context. *)
Lemma calm_modify_state k f : (forall s, st_context (f s) = st_context s) ->
  (forall s j, st_journal (f s) = Some j -> (forall i, st_journal s = Some i -> JournalSpec.ok i) -> JournalSpec.ok j) ->
  is_calm (modify_state k f).
Proof.
  intros Hc Hj l. split; cbn; try done.
  - intros i. destruct (decide (i = k)) as [->|Hi]; [|by rewrite lookup_alter_ne].
    rewrite lookup_alter_eq. destruct (states l !! k) as [s|]; [|done]. cbn. by rewrite Hc.
  - intros Hok i s j. cbn. destruct (decide (i = k)) as [->|Hi]; [|rewrite lookup_alter_ne by done; apply Hok].
    rewrite lookup_alter_eq. intros (s0&Hs&->)%fmap_Some. intros H. apply (Hj s0); [exact H|]. intros i0. by apply Hok with k.
  - exists []. by rewrite app_nil_r.
Qed.

Lemma calm_aside f : (forall l, controller (f l) = controller l) -> (forall l, contexts (f l) = contexts l) ->
  (forall l, states (f l) = states l) -> (forall l, trace (f l) = trace l) -> is_calm (change f).
Proof. intros H1 H2 H3 H4 l. apply cwp_change, (calm_only _ _ []); cbn; try done. by rewrite app_nil_r. Qed.
End laws.

#[export] Hint Resolve calm_ret calm_look calm_panic calm_when calm_effect : calm.
#[export] Hint Extern 1 (silent _) => exact I : calm.
#[export] Hint Extern 1 (carries _ = None) => reflexivity : calm.
#[export] Hint Extern 1 (cmd_carries _ = None) => first [reflexivity|assumption] : calm.

Ltac calm_step :=
  match goal with
  | |- is_calm (cbind _ _) => apply calm_bind; [|intros ?]
  | |- is_calm (each _ _) => apply calm_each; intros ?
  | |- is_calm (cwhen _ _) => apply calm_when
  | |- is_calm (match ?x with _ => _ end) => destruct x
  | |- is_calm (let '_ := ?x in _) => destruct x
  | _ => solve [eauto with calm]
  end.
Ltac calm_tac := repeat calm_step.

Section operations.
Context {L : SlotMapLib} {HL : SlotMapLaws L} {S : SecMapLib L} {W : WebLib}.
Context (exp : f64 -> f64) (fuel : nat) (env : Env).
Context (to_allocvec : Wire -> option (list Z)) (from_bytes : list Z -> option Wire) (crc32c : list Z -> Z).
Context (key_order : list key -> list key) (shown : Error -> string).

Lemma calm_question {A} (f : Env -> nat -> A) : is_calm (question env f).
Proof. intros l. refine (calm_only l (l <| asked ::= Datatypes.S |>) [] _ _ _ _ _ _); try done. cbn. by rewrite app_nil_r. Qed.
#[local] Hint Resolve calm_question : calm.

Lemma calm_emit e : is_calm (emit_event e).
Proof. unfold emit_event. calm_tac. Qed.
#[local] Hint Resolve calm_emit : calm.

Lemma calm_state_of k : is_calm (state_of k).
Proof. apply calm_look. Qed.
#[local] Hint Resolve calm_state_of : calm.

(** A command is offered with the context of a job of the table, or none. *)
Lemma cwp_offer shard cmd l : sent_for l (Sends shard cmd None) -> cwp (offer env shard cmd) l (fun _ l' => calm l l').
Proof.
  intros Hs. unfold offer. apply cwp_bind. eapply cwp_mono; [apply calm_question|]. intros refused l1 H1. apply cwp_bind, cwp_change, cwp_ret.
  eapply calm_trans; [exact H1|]. apply (calm_only _ _ [Sends shard cmd refused]); try done; [by constructor|].
  constructor; [|constructor]. apply (sent_for_states l); [apply H1|exact Hs].
Qed.

Lemma calm_offer shard cmd : cmd_carries cmd = None -> is_calm (offer env shard cmd).
Proof. intros Hc l. apply cwp_offer. intros k x. cbn. by rewrite Hc. Qed.
#[local] Hint Resolve calm_offer : calm.

Lemma cwp_send_shard shard cmd l : sent_for l (Sends shard cmd None) -> cwp (send_shard env shard cmd) l (fun _ l' => calm l l').
Proof.
  intros Hs. unfold send_shard. apply cwp_bind, cwp_look. destruct (negb _); [apply calm_ret|]. apply cwp_bind.
  eapply cwp_mono; [by apply cwp_offer|]. intros refused l1 H1. destruct refused; [|by apply cwp_ret].
  eapply cwp_mono; [by apply calm_effect|]. intros ? l2 H2. by eapply calm_trans.
Qed.

Lemma calm_send_shard shard cmd : cmd_carries cmd = None -> is_calm (send_shard env shard cmd).
Proof. intros Hc l. apply cwp_send_shard. intros k x. cbn. by rewrite Hc. Qed.
#[local] Hint Resolve calm_send_shard : calm.

Lemma calm_broadcast cmd : cmd_carries cmd = None -> is_calm (broadcast env cmd).
Proof. intros Hc. unfold broadcast, all_shards. calm_tac. Qed.
#[local] Hint Resolve calm_broadcast : calm.

Lemma calm_read_clock : is_calm (read_clock env).
Proof. apply calm_question. Qed.
#[local] Hint Resolve calm_read_clock : calm.

Lemma calm_await n d : is_calm (await_acks env n d).
Proof. induction n as [|n IH]; cbn; calm_tac. Qed.
#[local] Hint Resolve calm_await : calm.

Lemma calm_close_lanes p : is_calm (close_lanes_everywhere env p).
Proof. unfold close_lanes_everywhere. calm_tac. Qed.
#[local] Hint Resolve calm_close_lanes : calm.

Lemma calm_shard_of k : is_calm (shard_of_connection k).
Proof. apply calm_look. Qed.
#[local] Hint Resolve calm_shard_of : calm.

Lemma calm_timer at0 e : is_calm (schedule_timer at0 e).
Proof. by apply calm_aside. Qed.
#[local] Hint Resolve calm_timer : calm.

(** *** The journal *)

Lemma journal_ok_same (i j : Journal) : JournalSpec.ok i -> completed (payload j) = completed (payload i) ->
  durable (payload j) = durable (payload i) -> bytes_written (payload j) = bytes_written (payload i) -> JournalSpec.ok j.
Proof. unfold JournalSpec.ok, payload_wf. by intros H -> -> ->. Qed.

Lemma sync_ok node j : JournalSpec.ok j -> JournalSpec.ok (sync_fingerprint node j).
Proof. intros H. destruct node; [|done]. by eapply journal_ok_same. Qed.

Lemma persist_same j fault d : let r := persist_blocking to_allocvec crc32c j fault d in payload r.1.1 = payload j.
Proof.
  unfold persist_blocking. destruct (negb (dirty j)); [done|]. destruct (encode _ _ _); [done|].
  by destruct (exec _ _ _ _) as [? []].
Qed.

Lemma calm_set_journal k j l : (journals_ok l -> JournalSpec.ok j) -> cwp (set_journal k j) l (fun _ l' => calm l l').
Proof.
  intros Hj. split; cbn; try done.
  - intros i. destruct (decide (i = k)) as [->|Hi]; [|by rewrite lookup_alter_ne].
    rewrite lookup_alter_eq. by destruct (states l !! k).
  - intros Hok i s j'. cbn. destruct (decide (i = k)) as [->|Hi]; [|rewrite lookup_alter_ne by done; apply Hok].
    rewrite lookup_alter_eq. intros (s0&Hs&->)%fmap_Some. intros [= <-]. auto.
  - exists []. by rewrite app_nil_r.
Qed.

Lemma calm_persist k j l : (journals_ok l -> JournalSpec.ok j) -> cwp (persist_journal env to_allocvec crc32c k j) l (fun _ l' => calm l l').
Proof.
  intros Hj. unfold persist_journal. apply cwp_bind. set (l1 := l <| asked ::= Datatypes.S |>).
  change (cwp (question env disk_faults) l _) with (cwp (cret (disk_faults env (asked l))) l1
    (fun a l' => cwp (cbind (look fs) (fun d => let r := persist_blocking to_allocvec crc32c j a d in
       set_journal k r.1.1 ;; change (fun l => l <| fs := r.1.2 |>) ;; cret match r.2 with inl _ => false | inr _ => true end)) l'
       (fun _ l' => calm l l'))).
  apply cwp_ret, cwp_bind, cwp_look. cbv zeta. set (r := persist_blocking _ _ _ _ _).
  apply cwp_bind. eapply cwp_mono; [apply (calm_set_journal _ _ l1)|].
  - intros Ho. pose proof (persist_same j (disk_faults env (asked l)) (fs l1)) as Hp. cbv zeta in Hp. fold r in Hp.
    eapply journal_ok_same; [by apply Hj|by rewrite Hp..].
  - intros [] l2 H2. eapply (calm_trans l l1); [exact (calm_question disk_faults l)|]. eapply (calm_trans l1 l2); [exact H2|].
    apply (calm_only _ _ []); try done. cbn. by rewrite app_nil_r.
Qed.


Lemma calm_checkpoint_at k f : (forall j, JournalSpec.ok j -> JournalSpec.ok (f j)) ->
  is_calm (checkpoint_journal_at env to_allocvec crc32c k f).
Proof.
  intros Hf l. unfold checkpoint_journal_at, state_of, job_node. apply cwp_bind, cwp_look.
  destruct (states l !! k) as [s|] eqn:Es; [|apply calm_ret]. destruct (st_journal s) as [j|] eqn:Ej; [|apply calm_ret].
  apply cwp_bind, cwp_look, cwp_bind. eapply cwp_mono.
  - apply calm_persist. intros Ho. apply sync_ok, Hf. by eapply Ho.
  - intros b l1 H1. eapply cwp_mono; [|intros ? l2 H2; exact (calm_trans _ _ _ H1 H2)]. clear H1. revert l1. change (is_calm (if b then
      let! state' := look (fun l => states l !! k) in
      emit_event (Checkpointed k match state' with
                                 | Some s' => match st_journal s' with Some j' => bytes_written (payload j') | None => 0 end
                                 | None => 0 end true) ;;
      cret true else cret false)). calm_tac.
Qed.

Lemma calm_checkpoint k : is_calm (checkpoint_journal env to_allocvec crc32c k).
Proof. apply calm_checkpoint_at. intros j Hj. by apply (JournalSpec.apply_ok j JournalSpec.MarkDurable). Qed.
#[local] Hint Resolve calm_checkpoint : calm.

Lemma calm_on_journal k g : (forall j, JournalSpec.ok j -> JournalSpec.ok (g j)) ->
  is_calm (modify_state k (fun s => s <| st_journal ::= option_map g |>)).
Proof.
  intros Hg. apply calm_modify_state; [done|]. intros s j. cbn. destruct (st_journal s) as [i|]; [|done]. cbn. intros [= <-] H. auto.
Qed.

Lemma record_ok now r j : ByteRange.wf r -> JournalSpec.ok j -> JournalSpec.ok (record_completed now j r).
Proof. intros Hr Hj. by apply (JournalSpec.apply_ok j (JournalSpec.Complete now r)). Qed.

(** What a shard may report: the ranges of its reports are ranges. *)
Definition obs_fine (obs : Observation) : Prop := is_admission obs = false /\ forall c, obs_ok c obs.

Lemma calm_record_progress obs : obs_fine obs -> is_calm (record_progress env to_allocvec crc32c obs).
Proof.
  intros [_ Ho]. destruct obs; try apply calm_ret; cbn [record_progress].
  - apply calm_on_journal. intros j Hj. by eapply journal_ok_same.
  - assert (Hr : ByteRange.wf range) by (apply (Ho (Ctl.with_shards 0 0))). unfold job_node. calm_step; [apply calm_look|].
    destruct a as [j|]; [|apply calm_ret]. destruct (JobNode.durability j).
    all: try (unfold record_only, schedule_checkpoint; calm_tac; apply calm_on_journal; intros ? Hj; by apply record_ok).
    calm_step; [apply calm_read_clock|]. calm_step; [|apply calm_ret]. apply calm_checkpoint_at. intros j0 Hj.
    apply (JournalSpec.apply_ok _ JournalSpec.MarkDurable); [by apply record_ok|done].
Qed.

Lemma calm_events obs : is_calm (emit_observation_events obs).
Proof. destruct obs; cbn [emit_observation_events]; calm_tac. Qed.

Lemma calm_publish k : is_calm (publish_progress exp k).
Proof. unfold publish_progress. calm_tac. Qed.

Lemma calm_status r : is_calm (on_status exp env r).
Proof. unfold on_status. calm_tac. Qed.

Lemma calm_remove_journal k : is_calm (remove_journal env k).
Proof. unfold remove_journal. calm_tac. by apply calm_aside. Qed.
#[local] Hint Resolve calm_remove_journal : calm.

(** *** Actions *)

Lemma cwp_calm_bind {A B} (m : C A) (f : A -> C B) l : cwp m l (fun _ l' => calm l l') ->
  (forall a l', calm l l' -> cwp (f a) l' (fun _ l'' => calm l' l'')) -> cwp (cbind m f) l (fun _ l' => calm l l').
Proof.
  intros Hm Hf. apply cwp_bind. eapply cwp_mono; [exact Hm|]. intros a l1 H1. eapply cwp_mono; [by apply Hf|].
  intros b l2 H2. exact (calm_trans _ _ _ H1 H2).
Qed.

(** What is sent for a job in the table. *)
Lemma sent_known k s l l' shard cmd : states l !! k = Some s -> calm l l' -> cmd_carries cmd = Some (k, st_context s) ->
  sent_for l' (Sends shard cmd None).
Proof. intros Hk Hc Hcmd i x. cbn. rewrite Hcmd. intros [= <- <-]. by rewrite (ca_states _ _ Hc), Hk. Qed.

Ltac sends_known Hk := unfold shard_of_connection; apply cwp_bind, cwp_look; apply cwp_send_shard; eapply (sent_known _ _ _ _ _ _ Hk); [eassumption|done].

Lemma calm_start_range k assignment connection range overlap frontier :
  is_calm (start_range env k assignment connection range overlap frontier).
Proof.
  intros l. unfold start_range. apply cwp_bind, cwp_look. destruct (states l !! k) as [s|] eqn:Hk; [|apply calm_ret].
  apply cwp_calm_bind; [apply calm_emit|]. intros ? l1 H1. apply cwp_bind, cwp_look. destruct (source_for_connection _ _ _); [|apply calm_ret].
  sends_known Hk.
Qed.

Lemma calm_start_full_body k assignment connection frontier : is_calm (start_full_body env k assignment connection frontier).
Proof.
  intros l. unfold start_full_body. apply cwp_bind, cwp_look. destruct (states l !! k) as [s|] eqn:Hk; [|apply calm_ret].
  pose proof (calm_refl l). apply cwp_bind, cwp_look. destruct (source_for_connection _ _ _); [|apply calm_ret]. sends_known Hk.
Qed.

Lemma calm_send_probe k connection source : is_calm (send_probe env k connection source).
Proof.
  intros l. unfold send_probe. pose proof (calm_refl l). apply cwp_bind, cwp_look. destruct (WorldModel.option_or _ _) as [sid|]; [|apply calm_ret].
  destruct (build_source_context _ _ _) as [sc|]; [|apply calm_ret]. apply cwp_bind, cwp_look.
  destruct (states l !! k) as [st|] eqn:Hk; [|apply calm_ret]. sends_known Hk.
Qed.

Lemma calm_sample_mirror k source connection range : is_calm (sample_mirror env k source connection range).
Proof.
  intros l. unfold sample_mirror. pose proof (calm_refl l). apply cwp_bind, cwp_look.
  destruct (states l !! k) as [s|] eqn:Hk; [|apply calm_ret]. apply cwp_bind, cwp_look.
  destruct (build_source_context _ _ _); [|apply calm_ret]. sends_known Hk.
Qed.

Lemma calm_open_connection connection origin endpoint shard h3 alt : is_calm (open_connection env connection origin endpoint shard h3 alt).
Proof. unfold open_connection. calm_tac. Qed.

Lemma calm_commit k n i : is_calm (commit_destination env k n i).
Proof.
  unfold commit_destination. calm_tac. apply calm_modify_state; [done|]. intros ? ? Hj H. by apply H.
Qed.

Lemma calm_reset k : is_calm (reset_resume_data env to_allocvec crc32c k).
Proof.
  intros l. unfold reset_resume_data, state_of. apply cwp_bind, cwp_look. destruct (states l !! k) as [s|] eqn:Es; [|apply calm_ret].
  destruct (st_journal s) as [j|] eqn:Ej; [|apply calm_ret]. apply cwp_bind. eapply cwp_mono.
  - apply calm_persist. intros Ho. apply (JournalSpec.apply_ok j JournalSpec.Clear); [by eapply Ho|done].
  - intros b l1 H1. exact H1.
Qed.
End operations.

#[export] Hint Resolve calm_question calm_emit calm_state_of calm_offer calm_send_shard calm_broadcast calm_read_clock calm_await
  calm_close_lanes calm_shard_of calm_timer calm_checkpoint calm_record_progress calm_events calm_publish calm_status
  calm_remove_journal calm_start_range calm_start_full_body calm_send_probe calm_sample_mirror calm_open_connection calm_commit
  calm_reset : calm.

(** ** The invariant of the loop *)

Section invariant.
Context {L : SlotMapLib} {HL : SlotMapLaws L} {S : SecMapLib L} {W : WebLib}.
Context (exp : f64 -> f64) (fuel : nat).

(** How often the trace tells the outcome of a job or gives its channel up, and
    the jobs it admits. *)
Definition told (k : key) (t : list Effect) : nat := length (retain (fun e => is_reply k e || is_drop k e) t).
Definition replies (k : key) (t : list Effect) : nat := length (retain (is_reply k) t).
Definition drops (k : key) (t : list Effect) : nat := length (retain (is_drop k) t).
Definition admitted (t : list Effect) : list key := omap (fun e => match e with Answers (inr k) => Some k | _ => None end) t.

(** The outcome a job is ended with, and the job. *)
Definition outcome_of (a : Action) : option (key * result JobOutcome) :=
  match a with
  | FailJob k e => Some (k, inl (fail_error e))
  | CompleteJob k n digest resumed_bytes => Some (k, inr (mkJobOutcome n digest resumed_bytes))
  | _ => None
  end.

(** Why a waiter hears of its job, when [acts0] are the actions the controller
    has ever returned: it gets the outcome that the controller ended the job
    with, or, once the loop is [gone], is told so of a job that still lived;
    its channel is given up where the controller discards the destination. *)
Definition backed (gone : bool) (c : Ctl.t) (acts0 : list Action) (e : Effect) : Prop :=
  match e with
  | Replies k o => (exists a, a ∈ acts0 /\ outcome_of a = Some (k, o)) \/
      (gone = true /\ live c k /\ o = inl (Runtime RuntimeEngineGone))
  | Drops k => DiscardDestination k ∈ acts0
  | _ => True
  end.

Lemma backed_grows gone c c' acts0 acts1 e : (gone = true -> c' = c) -> backed gone c acts0 e -> backed gone c' (acts0 ++ acts1) e.
Proof.
  intros Hc. destruct e; cbn; try done.
  - intros [(a&Ha&Ho)|(Hg&Hl&Ho)]; [left|right; by rewrite Hc]. exists a. split; [|done]. apply elem_of_app. by left.
  - intros H. apply elem_of_app. by left.
Qed.

Lemma backed_gone c acts0 e : backed false c acts0 e -> backed true c acts0 e.
Proof. destruct e; cbn; try done. intros [H|(?&_)]; [by left|done]. Qed.

Lemma silent_backed gone c acts0 t : Forall silent t -> Forall (backed gone c acts0) t.
Proof. intros H. eapply Forall_impl; [exact H|]. by intros []. Qed.

(** [pending] are the actions that are still to be executed. *)
Record loop_ok (gone : bool) (pending : list Action) (l : Loop) : Prop := {
  lo_reach : exists seen acts0, reach exp fuel (controller l) seen acts0 /\ (forall k, k ∈ seen <-> k ∈ admitted (trace l)) /\
    (forall a, a ∈ pending -> a ∈ acts0) /\ Forall (backed gone (controller l) acts0) (trace l);
  lo_table k s : states l !! k = Some s ->
    k ∈ admitted (trace l) /\ (live (controller l) k \/ exists a, a ∈ pending /\ ends a = Some k);
  lo_told k : told k (trace l) = if decide (k ∈ admitted (trace l) /\ states l !! k = None) then 1%nat else 0%nat;
  lo_cells k s : states l !! k = Some s -> (cell (st_context s) < length (contexts l))%nat;
  lo_owner k k' s s' : states l !! k = Some s -> states l !! k' = Some s' -> cell (st_context s) = cell (st_context s') -> k = k';
  lo_closed i c : contexts l !! i = Some c -> state c = ACTIVE -> exists k s, states l !! k = Some s /\ cell (st_context s) = i;
  lo_journals : journals_ok l;
  lo_sent e k x : e ∈ trace l -> carries e = Some (k, x) -> k ∈ admitted (trace l) /\
    match states l !! k with
    | Some s => st_context s = x
    | None => exists c, contexts l !! cell x = Some c /\ state c ≠ ACTIVE
    end }.

Lemma told_app k t u : told k (t ++ u) = (told k t + told k u)%nat.
Proof. unfold told, retain. by rewrite filter_app, length_app. Qed.
Lemma admitted_app t u : admitted (t ++ u) = admitted t ++ admitted u.
Proof. apply omap_app. Qed.

Lemma told_split k t : told k t = (replies k t + drops k t)%nat.
Proof.
  assert (Hc : forall (f : Effect -> bool) e u, length (retain f (e :: u)) = ((if f e then 1 else 0) + length (retain f u))%nat).
  { intros f e u. unfold retain. rewrite filter_cons. case_decide as H; destruct (f e); done. }
  induction t as [|e t IH]; [done|]. unfold told, replies, drops in *. rewrite !Hc, IH.
  destruct e; cbn; try done; case_bool_decide; cbn; lia.
Qed.

Lemma drops_in k t : drops k t ≠ 0%nat -> Drops k ∈ t.
Proof.
  unfold drops. destruct (retain (is_drop k) t) as [|e l] eqn:E; [done|]. intros _.
  assert (He : e ∈ retain (is_drop k) t) by (rewrite E; left). apply retain_elem in He as [He Ht].
  destruct e; try done. by apply bool_decide_eq_true in He as ->.
Qed.

Lemma silent_told k t : Forall silent t -> told k t = 0%nat.
Proof.
  induction 1 as [|e t He Ht IH]; [done|]. change (e :: t) with ([e] ++ t). rewrite told_app, IH.
  by destruct e; try destruct r; cbn in He.
Qed.
Lemma silent_admitted t : Forall silent t -> admitted t = [].
Proof.
  induction 1 as [|e t He Ht IH]; [done|]. change (e :: t) with ([e] ++ t). rewrite admitted_app, IH. destruct e; try done. by destruct r.
Qed.

Lemma calm_ok g p l l' : calm l l' -> loop_ok g p l -> loop_ok g p l'.
Proof.
  intros [C1 C2 C3 C4 (t&C5&C6&C7)] [H1 H2 H3 H4 H5 H6 H7 H8].
  assert (Ha : admitted (trace l') = admitted (trace l)) by (by rewrite C5, admitted_app, (silent_admitted t C6), app_nil_r).
  assert (Hs : forall k s', states l' !! k = Some s' -> exists s, states l !! k = Some s /\ st_context s = st_context s').
  { intros k s' Hk. specialize (C3 k). rewrite Hk in C3. cbn in C3. symmetry in C3. by apply fmap_Some in C3 as (s&?&?); exists s. }
  assert (Hs' : forall k s, states l !! k = Some s -> exists s', states l' !! k = Some s' /\ st_context s = st_context s').
  { intros k s Hk. specialize (C3 k). rewrite Hk in C3. cbn in C3. by apply fmap_Some in C3 as (s'&?&?); exists s'. }
  split; [| | | | | |auto|].
  - destruct H1 as (seen&acts0&R1&R2&R3&R4). exists seen, acts0. rewrite C1, Ha, C5.
    split_and!; [done..|]. apply Forall_app. split; [done|by apply silent_backed].
  - intros k s' (s&Hk&_)%Hs. rewrite Ha, C1. by eapply H2.
  - intros k. rewrite C5, told_app, (silent_told k t C6), Nat.add_0_r, <- C5, Ha, H3. specialize (C3 k).
    destruct (states l' !! k), (states l !! k); cbn in *; try done; repeat case_decide; naive_solver.
  - intros k s' (s&Hk&<-)%Hs. rewrite C2. by eapply H4.
  - intros k k' s1 s2 (s&Hk&<-)%Hs (s'&Hk'&<-)%Hs. by apply H5.
  - intros i c. rewrite C2. intros Hi Hc. destruct (H6 _ _ Hi Hc) as (k&s&(s'&Hk&He)%Hs'&<-). exists k, s'. by rewrite He.
  - intros e k x He Hx. rewrite Ha, C2. rewrite C5 in He. apply elem_of_app in He as [He|He].
    + destruct (H8 _ _ _ He Hx) as [Hin Hst]. split; [done|]. specialize (C3 k).
      destruct (states l' !! k), (states l !! k); try done. cbn in C3. congruence.
    + rewrite Forall_forall in C7. specialize (C7 _ He _ _ Hx). specialize (C3 k). rewrite C7 in C3.
      apply fmap_Some in C7 as (s&Hs0&->). apply fmap_Some in C3 as (s'&->&->). split; [by eapply H2|done].
Qed.

Lemma gone_ok g p l : loop_ok g p l -> loop_ok true p l.
Proof.
  intros [H1 H2 H3 H4 H5 H6 H7 H8]. split; try done. destruct H1 as (seen&acts0&R1&R2&R3&R4). exists seen, acts0.
  split_and!; [done..|]. eapply Forall_impl; [exact R4|]. intros e He. destruct g; [done|by apply backed_gone].
Qed.

(** An action is done with when it has taken its job off the table. *)
Lemma settle g a rest l : loop_ok g (a :: rest) l -> (forall k, ends a = Some k -> states l !! k = None) -> loop_ok g rest l.
Proof.
  intros [H1 H2 H3 H4 H5 H6 H7 H8] Ha. split; try done.
  { destruct H1 as (seen&acts0&R1&R2&R3&R4). exists seen, acts0. split_and!; [done..| |done]. intros b Hb. apply R3. by right. }
  intros k s Hk. destruct (H2 _ _ Hk) as (Hin&[Hl|(b&[->|Hb]%elem_of_cons&He)]).
  - by split; [|left].
  - apply Ha in He. congruence.
  - split; [done|]. right. by exists b.
Qed.

(** Taking a job off the table, telling its outcome and closing its context. *)
Definition removed (k : key) (s : JobState) (f : Inner -> Inner) (e : Effect) (l : Loop) : Loop :=
  l <| states ::= delete k |> <| trace ::= fun t => t ++ [e] |> <| contexts ::= alter f (cell (st_context s)) |>.

Lemma remove_now g g' p k s f e l : loop_ok g p l -> (g = true -> g' = true) ->
  (forall acts0, (forall a, a ∈ p -> a ∈ acts0) -> backed g' (controller l) acts0 e) -> states l !! k = Some s -> (forall c, state (f c) ≠ ACTIVE) ->
  (forall i, is_reply i e || is_drop i e = bool_decide (i = k)) -> carries e = None -> (forall i, e ≠ Answers (inr i)) -> loop_ok g' p (removed k s f e l).
Proof.
  intros [H1 H2 H3 H4 H5 H6 H7 H8] Hg Hback Hk Hf He Hca Ha.
  assert (Hadm : admitted (trace l ++ [e]) = admitted (trace l)).
  { rewrite admitted_app. cbn. destruct e; try by rewrite app_nil_r. destruct r; [by rewrite app_nil_r|by destruct (Ha k0)]. }
  assert (Hd : forall i s', delete k (states l) !! i = Some s' -> i ≠ k /\ states l !! i = Some s').
  { intros i s' [Hi Hs]%lookup_delete_Some. done. }
  split; cbn -[admitted told].
  - destruct H1 as (seen&acts0&R1&R2&R3&R4). exists seen, acts0. rewrite Hadm. split_and!; [done..|]. apply Forall_app. split.
    + eapply Forall_impl; [exact R4|]. intros e' He'. destruct g, g'; [done|by destruct Hg|by apply backed_gone|done].
    + constructor; [by apply Hback|done].
  - intros i s' [Hi Hs]%Hd. rewrite Hadm. by eapply H2.
  - intros i. rewrite told_app, Hadm, H3. unfold told, retain. cbn. rewrite He. destruct (decide (i = k)) as [->|Hi].
    + rewrite lookup_delete_eq. destruct (H2 _ _ Hk) as [Hin _]. rewrite bool_decide_eq_true_2 by done. cbn.
      rewrite decide_False by (intros [_ ?]; congruence). by rewrite !decide_True.
    + rewrite lookup_delete_ne by done. rewrite bool_decide_eq_false_2 by done. cbn. by rewrite Nat.add_0_r.
  - intros i s' [Hi Hs]%Hd. rewrite length_alter. by eapply H4.
  - intros i i' s1 s2 [Hi Hs]%Hd [Hi' Hs']%Hd. by apply H5.
  - intros i c. destruct (decide (i = cell (st_context s))) as [->|Hi].
    + rewrite list_lookup_alter_eq. intros (c0&_&->)%fmap_Some Hc. by destruct (Hf c0).
    + rewrite list_lookup_alter_ne by done. intros Hc Hst. destruct (H6 _ _ Hc Hst) as (i'&s'&Hs'&<-).
      exists i', s'. rewrite lookup_delete_ne; [done|]. intros ->. congruence.
  - intros i s' j [Hi Hs]%Hd. by apply H7 with i.
  - intros e' i x [Hin| ->%list_elem_of_singleton]%elem_of_app Hx; [|congruence]. destruct (H8 _ _ _ Hin Hx) as [Hadm' Hst].
    rewrite Hadm. split; [done|]. destruct (decide (i = k)) as [->|Hi].
    + rewrite lookup_delete_eq. rewrite Hk in Hst. subst x. destruct (lookup_lt_is_Some_2 (contexts l) (cell (st_context s))) as [c Hc];
        [by eapply H4|]. exists (f c). by rewrite list_lookup_alter_eq, Hc.
    + rewrite lookup_delete_ne by done. destruct (states l !! i); [done|]. destruct Hst as (c&Hc&Hn).
      destruct (decide (cell x = cell (st_context s))) as [Heq|Hne].
      * exists (f c). by rewrite <- Heq, list_lookup_alter_eq, Hc.
      * exists c. by rewrite list_lookup_alter_ne.
Qed.

Lemma remove_ok g p k s f e l l1 : loop_ok g p l ->
  (forall acts0, (forall a, a ∈ p -> a ∈ acts0) -> backed g (controller l) acts0 e) -> states l !! k = Some s -> (forall c, state (f c) ≠ ACTIVE) ->
  (forall i, is_reply i e || is_drop i e = bool_decide (i = k)) -> carries e = None -> (forall i, e ≠ Answers (inr i)) ->
  calm (l <| states ::= delete k |>) l1 ->
  loop_ok g p (l1 <| trace ::= fun t => t ++ [e] |> <| contexts ::= alter f (cell (st_context s)) |>).
Proof.
  intros Hok Hback Hk Hf He Hca Ha [C1 C2 C3 C4 C5]. cbn in *.
  assert (Hn : states l1 !! k = None).
  { specialize (C3 k). rewrite lookup_delete_eq in C3. by destruct (states l1 !! k). }
  assert (Hc : calm l (l1 <| states ::= <[k := s]> |>)).
  { split; cbn; try done.
    - intros i. destruct (decide (i = k)) as [->|Hi]; [by rewrite lookup_insert_eq, Hk|].
      rewrite lookup_insert_ne by done. rewrite C3. by rewrite lookup_delete_ne.
    - intros Ho i s' j. cbn. destruct (decide (i = k)) as [->|Hi].
      + rewrite lookup_insert_eq. intros [= <-]. by apply Ho with k.
      + rewrite lookup_insert_ne by done. apply C4. intros i' s1 j'. cbn. intros [_ Hs]%lookup_delete_Some. by apply Ho with i'.
    - destruct C5 as (t&C5&C6&C7). exists t. split_and!; [done|done|]. eapply Forall_impl; [exact C7|].
      intros e' Hs i x Hx. specialize (Hs i x Hx). cbn in Hs. destruct (decide (i = k)) as [->|Hi];
        [by rewrite lookup_delete_eq in Hs|by rewrite lookup_delete_ne in Hs]. }
  pose proof (remove_now g g p k s f e _ (calm_ok _ _ _ _ Hc Hok) (fun H => H)) as G. cbn in G. rewrite lookup_insert_eq in G. rewrite <- C1 in Hback.
  specialize (G Hback eq_refl Hf He Hca Ha). unfold removed in G. cbn in G. rewrite delete_insert_id in G by done.
  by destruct l1.
Qed.
End invariant.
