(* ===== verification/ControlRuns.v ===== *)
(** * Runs of the control thread.

    Each part of a turn keeps the invariant of the loop; the actions a handler
    returned are pending until they are executed. *)

From Stdlib Require Import String.
From S2P Require Import Prelude Ranges Float Rates Errors Disk Context Representation Policy Spec SlotMap Timers Segment PlanFrame World Controller Lifecycle Adaptive Handle Protocol Frames Refine Admission Runs Commands Journal Control ControlLaws.
Local Open Scope Z_scope.

Create HintDb ops.

Section ops.
Context {L : SlotMapLib} {HL : SlotMapLaws L} {S : SecMapLib L} {W : WebLib}.
Context (exp : f64 -> f64) (fuel : nat) (env : Env).
Context (to_allocvec : Wire -> option (list Z)) (from_bytes : list Z -> option Wire) (crc32c : list Z -> Z).
Context (key_order : list key -> list key) (shown : Error -> string).

Abbreviation loop_ok := (loop_ok exp fuel false).

(** [m] only adds to the trace, and as long as no key is admitted twice it turns
    the pending actions [pre] into [post]. *)
Definition op_ok {A} (m : C A) (pre : list Action) (post : A -> list Action) : Prop := forall l,
  cwp m l (fun a l' => trace l `prefix_of` trace l' /\ (NoDup (admitted (trace l')) -> loop_ok pre l -> loop_ok (post a) l')).

Lemma admitted_prefix t u : t `prefix_of` u -> NoDup (admitted u) -> NoDup (admitted t).
Proof. intros [v ->]. rewrite admitted_app. by intros (?&_)%NoDup_app. Qed.

Lemma op_calm {A} (m : C A) p : is_calm m -> op_ok m p (fun _ => p).
Proof.
  intros Hm l. eapply cwp_mono; [apply Hm|]. cbn. intros a l' Hc. split; [|intros _; by apply calm_ok].
  destruct Hc as [_ _ _ _ (t&->&_)]. by apply prefix_app_r.
Qed.

Lemma op_bind {A B} (m : C A) (f : A -> C B) p q r : op_ok m p q -> (forall a, op_ok (f a) (q a) r) -> op_ok (cbind m f) p r.
Proof.
  intros Hm Hf l. apply cwp_bind. eapply cwp_mono; [apply Hm|]. intros a l1 [P1 H1]. eapply cwp_mono; [apply Hf|].
  intros b l2 [P2 H2]. split; [by etransitivity|]. intros Hn Hok. apply H2; [done|]. apply H1; [by eapply admitted_prefix|done].
Qed.

(** The same from the state [l] on. *)
Definition op_from {A} (l : Loop) (m : C A) (pre : list Action) (post : A -> list Action) : Prop :=
  cwp m l (fun a l' => trace l `prefix_of` trace l' /\ (NoDup (admitted (trace l')) -> loop_ok pre l -> loop_ok (post a) l')).

Lemma op_each {A} (l : list A) f p : (forall x, x ∈ l -> op_ok (f x) p (fun _ => p)) -> op_ok (each l f) p (fun _ => p).
Proof.
  induction l as [|x l IH]; intros Hf; [by apply op_calm, calm_ret|].
  eapply op_bind; [apply Hf; left|]. intros ?. apply IH. intros y Hy. apply Hf. by right.
Qed.

(** ** Observations *)

Lemma still_pending (p : list Action) acts0 acts1 : (forall a, a ∈ p -> a ∈ acts0) -> forall a, a ∈ acts1 ++ p -> a ∈ acts0 ++ acts1.
Proof. intros Hp a. rewrite !elem_of_app. intros [?|?%Hp]; [by right|by left]. Qed.

Lemma still_backed c c' acts0 acts1 t : Forall (backed false c acts0) t -> Forall (backed false c' (acts0 ++ acts1)) t.
Proof. intros H. eapply Forall_impl; [exact H|]. intros e. by apply backed_grows. Qed.

Lemma op_handle obs p : obs_fine obs -> op_ok (handle_obs exp fuel env obs) p (fun a => a ++ p).
Proof.
  intros [Hadm Ho]. unfold handle_obs. eapply op_bind; [apply op_calm, calm_read_clock|]. intros clk l.
  unfold cwp, cbind, run_controller. destruct (handle_m _ _ _ _ _ _) as [[u s]| |] eqn:Eh; [|done..]. cbn -[admitted].
  split; [done|]. intros _ [(seen&acts0&Hr&Hs&Hp&Hb) H2 H3 H4 H5 H6 H7].
  assert (Hh : handle exp clk fuel obs (instant clk) (controller l) = Done (ctl s, acts s)) by (unfold handle; by rewrite Eh).
  pose proof (handle_steps _ _ _ _ _ _ _ _ (reach_ok _ _ _ _ _ Hr) (Ho (controller l)) Hh) as Hst.
  split; cbn -[admitted told]; try done.
  - exists seen, (acts0 ++ acts s). split_and!; [by eapply reach_observe|done|by apply still_pending|by eapply still_backed].
  - intros k st Hk. destruct (H2 _ _ Hk) as [Hin Hl]. split; [done|]. destruct Hl as [Hl|(a&Ha&He)].
    + destruct (steps_fate _ k _ _ _ Hst) as [|Hd|a1 e a2 _ _ -> He _ _]; [by left|done|].
      right. exists e. split; [|done]. apply elem_of_app. left. apply elem_of_app. right. left.
    + right. exists a. split; [|done]. apply elem_of_app. by right.
Qed.

(** ** Actions *)

Lemma settle_none a rest l : ends a = None -> loop_ok (a :: rest) l -> loop_ok rest l.
Proof. intros Ha H. apply (settle _ _ _ a); [done|]. congruence. Qed.

Lemma op_settle {A} (m : C A) a rest : ends a = None -> is_calm m -> op_ok m (a :: rest) (fun _ => rest).
Proof.
  intros Ha Hm l. eapply cwp_mono; [by apply (op_calm m (a :: rest))|]. cbn. intros b l' [Hp H]. split; [done|].
  intros Hn Hok. by apply (settle_none a), H.
Qed.

Lemma finish_closes c : state (finish c) ≠ ACTIVE.
Proof. unfold finish, set_state. destruct (Z.eqb_spec (state c) ACTIVE); [done|done]. Qed.
Lemma cancel_closes c : state (cancel c) ≠ ACTIVE.
Proof. unfold cancel, set_state. destruct (Z.eqb_spec (state c) ACTIVE); [done|done]. Qed.

(** The end of a job takes it off the table. *)
Lemma op_finish k o p : (exists a, a ∈ p /\ outcome_of a = Some (k, o)) -> forall l, cwp (finish_job_state env to_allocvec crc32c shown k o) l (fun _ l' =>
  trace l `prefix_of` trace l' /\ states l' !! k = None /\ (loop_ok p l -> loop_ok p l')).
Proof.
  intros (a&Ha&Ho) l. unfold finish_job_state. apply cwp_bind.
  assert (H1 : is_calm (if match o with inr _ => true | inl _ => false end then remove_journal env k
    else cbind (checkpoint_journal env to_allocvec crc32c k) (fun _ => cret tt))) by (destruct o; calm_tac).
  eapply cwp_mono; [apply H1|]. clear H1. intros [] l1 H1. cbn in H1. apply cwp_bind, cwp_look.
  assert (Hp1 : trace l `prefix_of` trace l1) by (destruct H1 as [_ _ _ _ (t&->&_)]; by apply prefix_app_r).
  destruct (states l1 !! k) as [s|] eqn:Es; [|apply cwp_ret; split_and!; [done|done|by apply calm_ok]].
  apply cwp_bind, cwp_change, cwp_bind. eapply cwp_mono; [apply calm_emit|]. intros [] l2 H2. cbn in H2.
  apply cwp_bind.
  assert (H3 : is_calm (if st_progress s then match final_progress o with Some p => effect (Closes k p) | None => cpanic end else cret tt))
    by calm_tac.
  eapply cwp_mono; [apply H3|]. clear H3. intros [] l3 H3. cbn in H3. apply cwp_bind, cwp_change, cwp_change.
  pose proof (calm_trans _ _ _ H2 H3) as Hc. split_and!.
  - etransitivity; [exact Hp1|]. destruct Hc as [_ _ _ _ (t&Ht&_)]. cbn in *. rewrite Ht, <- app_assoc. by apply prefix_app_r.
  - cbn. pose proof (ca_states _ _ Hc k) as Hk. cbn in Hk. rewrite lookup_delete_eq in Hk. by destruct (states l3 !! k).
  - intros Hok. apply (remove_ok _ _ false p k s (if match o with inr _ => true | inl _ => false end then finish else cancel) (Replies k o) l1 l3); try done.
    + by apply (calm_ok _ _ _ _ l).
    + intros acts0 Hp. left. exists a. split; [by apply Hp|done].
    + intros c. destruct o; [apply cancel_closes|apply finish_closes].
    + intros i. cbn. rewrite orb_false_r. apply bool_decide_ext. by split.
Qed.

Lemma op_discard k p : DiscardDestination k ∈ p -> op_ok (discard_destination k) p (fun _ => p).
Proof.
  intros Hin l. unfold discard_destination, state_of. apply cwp_bind, cwp_look. destruct (states l !! k) as [s|] eqn:Es; [|by apply cwp_ret].
  change (trace l `prefix_of` trace l ++ [Drops k] /\ (NoDup (admitted (trace l ++ [Drops k])) -> loop_ok p l ->
    loop_ok p (removed k s cancel (Drops k) l))).
  split; [by apply prefix_app_r|]. intros _ Hok. eapply remove_now; try done; [|apply cancel_closes|].
  - intros acts0 Hp. by apply Hp.
  - intros i. cbn. apply bool_decide_ext. by split.
Qed.

Lemma refresh_fine k s rq : obs_fine (refresh_observation k s rq).
Proof. unfold refresh_observation. by repeat case_match. Qed.

(** An operation that keeps what is pending, for an action that ends no job. *)
Lemma op_passes {A} (m : C A) a rest : ends a = None -> op_ok m (a :: rest) (fun _ => a :: rest) -> op_ok m (a :: rest) (fun _ => rest).
Proof.
  intros Ha Hm l. eapply cwp_mono; [apply Hm|]. intros b l' [Hp H]. split; [done|]. intros Hn Hok. by apply (settle_none a), H.
Qed.

Lemma op_ends k o a rest : ends a = Some k -> outcome_of a = Some (k, o) ->
  op_ok (finish_job_state env to_allocvec crc32c shown k o) (a :: rest) (fun _ => rest).
Proof.
  intros Ha Ho l. eapply cwp_mono; [apply (op_finish k o (a :: rest)); exists a; split; [left|done]|]. intros [] l' (Hp&Hn&H). split; [done|].
  intros _ Hok. apply (settle _ _ _ a); [by apply H|]. intros i. rewrite Ha. by intros [= <-].
Qed.

Abbreviation route_action := (route_action exp fuel env to_allocvec crc32c shown).
Abbreviation route_actions := (route_actions exp fuel env to_allocvec crc32c shown).

Lemma op_route_action again a rest : (forall acts0 p, op_ok (again acts0) (acts0 ++ p) (fun _ => p)) ->
  op_ok (route_action again a) (a :: rest) (fun _ => rest).
Proof.
  intros Hag. destruct a; cbn [Control.route_action]; try solve [apply op_settle; [done|calm_tac]]; try (by eapply op_ends).
  - apply op_passes; [done|]. eapply op_bind; [apply op_calm, calm_state_of|]. intros [s|]; [|apply op_calm, calm_ret].
    eapply op_bind; [apply op_handle, refresh_fine|]. intros acts0. apply Hag.
  - apply op_passes; [done|]. apply op_discard. left.
Qed.

Lemma op_route_each again l p : (forall acts0 p, op_ok (again acts0) (acts0 ++ p) (fun _ => p)) ->
  op_ok (each l (route_action again)) (l ++ p) (fun _ => p).
Proof.
  intros Hag. induction l as [|a l IH]; [by apply op_calm, calm_ret|]. eapply op_bind; [by apply op_route_action|].
  intros ?. apply IH.
Qed.

Lemma op_route depth l p : op_ok (route_actions depth l) (l ++ p) (fun _ => p).
Proof.
  revert l p. induction depth as [|depth IH]; intros l p; apply op_route_each; [|exact IH]. by intros acts0 q l0.
Qed.

(** ** The parts of a turn *)

Lemma op_observe depth obs p : obs_fine obs -> op_ok (observe exp fuel env to_allocvec crc32c shown depth obs) p (fun _ => p).
Proof. intros Ho. eapply op_bind; [by apply op_handle|]. intros acts0. apply op_route. Qed.

Lemma op_on_observation depth obs p : obs_fine obs -> op_ok (on_observation exp fuel env to_allocvec crc32c shown depth obs) p (fun _ => p).
Proof.
  intros Ho. unfold on_observation. eapply op_bind; [apply op_calm, calm_events|]. intros ?.
  eapply op_bind; [by apply op_calm, calm_record_progress|]. intros ?. eapply op_bind; [by apply op_handle|]. intros acts0.
  eapply op_bind; [apply op_calm; destruct (progress_job obs); calm_tac|]. intros ?. apply op_route.
Qed.

Lemma cancelled_fine k : obs_fine (JobCancelled k).
Proof. done. Qed.

Lemma op_cancel_all depth p : op_ok (cancel_all exp fuel env to_allocvec crc32c key_order shown depth) p (fun _ => p).
Proof.
  unfold cancel_all. eapply op_bind; [apply op_calm, calm_look|]. intros ks. apply op_each. intros k _. apply op_observe, cancelled_fine.
Qed.

(** Cancelling the context of a job that is in the table. *)
Lemma op_on_context k s p l : states l !! k = Some s -> loop_ok p l -> loop_ok p (l <| contexts ::= alter cancel (cell (st_context s)) |>).
Proof.
  intros Hk [H1 H2 H3 H4 H5 H6 H7 H8]. split; cbn -[admitted told]; try done.
  - intros i s' Hi. rewrite length_alter. by eapply H4.
  - intros i c. destruct (decide (i = cell (st_context s))) as [->|Hi]; [by exists k, s|].
    rewrite list_lookup_alter_ne by done. by apply H6.
  - intros e i x He Hx. destruct (H8 _ _ _ He Hx) as [Hin Hst]. split; [done|]. destruct (states l !! i); [done|].
    destruct Hst as (c&Hc&Hn). destruct (decide (cell x = cell (st_context s))) as [Heq|Hne].
    + exists (cancel c). rewrite <- Heq, list_lookup_alter_eq, Hc. split; [done|apply cancel_closes].
    + exists c. by rewrite list_lookup_alter_ne.
Qed.

Lemma op_on_cancel depth k p : op_ok (on_cancel exp fuel env to_allocvec crc32c shown depth k) p (fun _ => p).
Proof.
  unfold on_cancel. intros l. apply cwp_bind, cwp_look. apply cwp_bind.
  eapply (cwp_mono _ _ (fun _ l' => trace l' = trace l /\ (loop_ok p l -> loop_ok p l'))).
  - destruct (states l !! k) as [s|] eqn:Es; [|by apply cwp_ret]. apply cwp_change. split; [done|]. by apply (op_on_context k).
  - intros [] l1 [Ht H1]. eapply cwp_mono; [apply op_observe, cancelled_fine|]. intros [] l2 [Hp H2]. rewrite <- Ht.
    split; [done|]. intros Hn Hok. by apply H2, H1.
Qed.

Lemma op_on_timer depth e p : op_ok (on_timer exp fuel env to_allocvec crc32c shown depth e) p (fun _ => p).
Proof.
  unfold on_timer. eapply op_bind; [apply op_calm; destruct e; calm_tac|]. intros ?. by apply op_observe.
Qed.

Lemma op_expire depth p : op_ok (expire_timers exp fuel env to_allocvec crc32c shown depth) p (fun _ => p).
Proof.
  unfold expire_timers. eapply op_bind; [apply op_calm, calm_read_clock|]. intros clk.
  eapply op_bind; [apply op_calm, calm_look|]. intros q. destruct (TimerQueue.drain_expired _ _) as [events q'].
  eapply op_bind; [by apply op_calm, calm_aside|]. intros ?. apply op_each. intros e _. apply op_on_timer.
Qed.
End ops.

(** ** Admission *)

Section admission.
Context {L : SlotMapLib} {HL : SlotMapLaws L} {S : SecMapLib L} {W : WebLib}.
Context (exp : f64 -> f64) (fuel : nat) (env : Env).
Context (to_allocvec : Wire -> option (list Z)) (from_bytes : list Z -> option Wire) (crc32c : list Z -> Z).
Context (shown : Error -> string).

(** [postcard] decodes the offsets of a range as [u64]. *)
Definition decodes_u64 : Prop := forall b w, from_bytes b = Some w ->
  Forall (fun p => in_u64 p.1 /\ in_u64 p.2) (w_completed w) /\ Forall (fun p => in_u64 p.1 /\ in_u64 p.2) (w_durable w).

(** How much of the partial file there is. *)
Definition part_size (d : disk) (p : string) : Z :=
  match now_image d !! p with Some f => Z.of_nat (length (data f)) | None => 0 end.

Lemma surviving_spec n p : payload_wf p -> let q := surviving n p in
  RangeSet.wf (durable q) /\ completed q = durable q /\ bytes_written q = RangeSet.covered_len (durable q) /\
  forall x, RangeSet.mem x (durable q) <-> exists r, r ∈ RangeSet.iter (durable p) /\ ByteRange.mem x r /\ ByteRange.end_ r <= n.
Proof.
  intros [_ Hd]. cbn. set (l := retain _ _).
  destruct (RangeSet.insert_all_wf_mem RangeSet.empty l) as [Hw Hm]; [apply RangeSet.empty_wf| |].
  - apply Forall_forall. intros r [_ Hr]%retain_elem. pose proof (RangeSet.wf_ranges _ Hd) as Hf. rewrite Forall_forall in Hf. by apply Hf.
  - split_and!; try done. intros x. rewrite Hm, RangeSet.mem_empty. unfold RangeSet.in_list. rewrite Exists_exists. split.
    + intros [[]|(r&[He Hr]%retain_elem&Hx)]. exists r. by apply Z.leb_le in He.
    + intros (r&Hr&Hx&He). right. exists r. split; [|done]. apply retain_elem. split; [by apply Z.leb_le|done].
Qed.

Lemma decode_spec raw pl : decodes_u64 -> decode from_bytes crc32c raw = inr pl -> payload_wf pl.
Proof.
  intros Hdec. unfold decode. cbv zeta. repeat (match goal with |- (if ?b then _ else _) = _ -> _ => destruct b; [done|] end).
  destruct (from_bytes _) as [w|] eqn:Ew; [|done]. intros [= <-].
  apply Hdec in Ew as [H1 H2]. split; cbn; by apply deserialize_spec.
Qed.

Lemma load_spec p r j : decodes_u64 -> load_blocking from_bytes crc32c p r = inr (Some j) -> payload_wf (payload j) /\ path j = p.
Proof.
  intros Hdec. unfold load_blocking. destruct r as [[]|raw]; try done. destruct (decode _ _ raw) as [|pl] eqn:E; [done|].
  intros [= <-]. split; [by eapply decode_spec|done].
Qed.

Lemma fresh_ok now spec p j : fresh_journal now spec p = Some j -> JournalSpec.ok j /\ durable (payload j) = RangeSet.empty.
Proof.
  unfold fresh_journal. destruct (js_sources spec) as [|src rest]; [done|]. intros [= <-]. split; [|done].
  unfold JournalSpec.ok, payload_wf. cbn. split_and!; try done; apply RangeSet.empty_wf.
Qed.

Lemma note_source_same spec p : completed (note_source spec p) = completed p /\ durable (note_source spec p) = durable p /\
  bytes_written (note_source spec p) = bytes_written p.
Proof. unfold note_source. destruct (js_sources spec); [done|]. by destruct (bool_decide _). Qed.

(** What the journal of a new job is: one that starts empty, or that of an
    earlier run, cut to the ranges that the partial file holds. *)
Definition discovered (d : disk) (co : FileDestinationCoordinator) (j : Journal) : Prop :=
  durable (payload j) = RangeSet.empty \/
  exists f j0, now_image d !! co_journal_path co = Some f /\
    load_blocking from_bytes crc32c (co_journal_path co) (inr (data f)) = inr (Some j0) /\
    forall x, RangeSet.mem x (durable (payload j)) <->
      exists r, r ∈ RangeSet.iter (durable (payload j0)) /\ ByteRange.mem x r /\ ByteRange.end_ r <= part_size d (co_part_path co).

Lemma cwp_question {A B} (f : Env -> nat -> A) (g : A -> C B) l (Q : B -> Loop -> Prop) :
  cwp (g (f env (asked l))) (l <| asked ::= Datatypes.S |>) Q -> cwp (cbind (question env f) g) l Q.
Proof. done. Qed.

Lemma cwp_fresh spec p l (Q : Journal -> Loop -> Prop) :
  (forall j, JournalSpec.ok j -> durable (payload j) = RangeSet.empty -> Q j (l <| asked ::= Datatypes.S |>)) ->
  cwp (cbind (read_clock env) (fun clk => match fresh_journal (unix_secs clk) spec p with Some j => cret j | None => cpanic end)) l Q.
Proof.
  intros H. apply cwp_question. destruct (fresh_journal _ _ _) as [j|] eqn:E; [|done]. apply fresh_ok in E as [H1 H2]. by apply H.
Qed.

Lemma calm_asked l l' : l' = l <| asked := asked l' |> -> calm l l'.
Proof. intros ->. apply (calm_only _ _ []); try done. cbn. by rewrite app_nil_r. Qed.

Lemma cwp_discover co spec l : decodes_u64 -> cwp (discover_resume env from_bytes crc32c co spec) l (fun j l' =>
  calm l l' /\ fs l' = fs l /\ JournalSpec.ok j /\ discovered (fs l) co j).
Proof.
  intros Hdec. unfold discover_resume. apply cwp_bind. unfold read_now at 1. apply cwp_question, cwp_bind, cwp_look, cwp_ret. cbv beta.
  set (r := match disk_faults env (asked l) with Some _ => _ | None => _ end).
  assert (Hfresh : forall l1, calm l l1 -> fs l1 = fs l ->
    cwp (cbind (read_clock env) (fun clk => match fresh_journal (unix_secs clk) spec (co_journal_path co) with Some j => cret j | None => cpanic end)) l1
      (fun j l' => calm l l' /\ fs l' = fs l /\ JournalSpec.ok j /\ discovered (fs l) co j)).
  { intros l1 Hc Hf. apply cwp_fresh. intros j Hj Hd. split_and!; [|done|done|by left].
    eapply calm_trans; [exact Hc|by apply calm_asked]. }
  destruct (load_blocking _ _ _ r) as [e|[j0|]] eqn:El; [apply Hfresh; [by apply calm_asked|done]| |apply Hfresh; [by apply calm_asked|done]].
  apply cwp_bind. unfold part_length, read_now. apply cwp_bind, cwp_question, cwp_bind, cwp_look, cwp_ret, cwp_ret. cbv beta.
  match goal with |- cwp (if ?x =? 0 then _ else _) _ _ => set (n := x) end.
  destruct (n =? 0) eqn:En; [apply Hfresh; [by apply calm_asked|done]|]. apply cwp_ret. apply Z.eqb_neq in En.
  destruct (load_spec _ _ _ Hdec El) as [Hw _].
  destruct (surviving_spec n (payload j0) Hw) as (S1&S2&S3&S4). destruct (note_source_same spec (surviving n (payload j0))) as (N1&N2&N3).
  split_and!; [by apply calm_asked|done| |].
  - unfold JournalSpec.ok, payload_wf. cbn. rewrite N1, N2, N3, S2. by split_and!.
  - right. clear Hfresh. subst r. destruct (disk_faults env (asked l)) as [[m kd]|]; [by destruct kd|]. cbn in El.
    destruct (now_image (fs l) !! co_journal_path co) as [f|] eqn:Ef; [|done]. exists f, j0. split_and!; [done|done|].
    intros x. cbn. rewrite N2. assert (Hn : n = part_size (fs l) (co_part_path co)); [|by rewrite <- Hn].
    unfold n, part_size in *. destruct (disk_faults env _) as [[m kd]|]; [done|]. by destruct (now_image _ !! co_part_path co).
Qed.

(** *** Entering the controller *)

Lemma enter_spec clk spec key0 c r s : enter clk spec key0 (mkMachine c []) = Done (r, s) ->
  acts s = [] /\ forall k, r = inr k -> live (ctl s) k.
Proof.
  unfold enter, bind, ask, upd. cbn [ctl acts]. destruct (_ >=? _); [by intros [= <- <-]|].
  destruct (WorldModel.admit_job _ _ _ _) as [[w [e|[k art]]]|]; cbn [expect panic ret fst snd ctl acts]; [by intros [= <- <-]| |done].
  unfold WorldModel.set_destination_part_path. cbn [ctl acts].
  destruct (WorldModel.get_job _ k) as [j|] eqn:Ej; cbn; intros [= <- <-]; [|done]. split; [done|]. intros i [= <-]. by exists j.
Qed.

Lemma set_sink_done k sink c : live c k -> exists c', set_sink k sink (mkMachine c []) = Done (inr tt, mkMachine c' []).
Proof.
  intros [j Hj]. unfold set_sink. destruct sink as [[caps hints]|]; [|by exists c].
  unfold bind, ask, upd, ret, WorldModel.set_sink_properties. cbn. unfold Ctl.job in Hj. rewrite Hj. by eexists.
Qed.

(** The operations of an admission, put together. *)
Lemma admitted_run clk spec key0 sink resume0 c k s1 c2 u s3 : enter clk spec key0 (mkMachine c []) = Done (inr k, s1) ->
  set_sink k sink (mkMachine (ctl s1) []) = Done (inr tt, mkMachine c2 []) ->
  handle_m exp clk fuel (JobAdmitted k spec resume0) (instant clk) (mkMachine c2 []) = Done (u, s3) ->
  Admission.admit_command exp clk fuel spec key0 sink resume0 (instant clk) (mkMachine c []) = Done (inr k, s3).
Proof.
  intros H1 H2 H3. pose proof (enter_spec _ _ _ _ _ _ H1) as [Ha _]. unfold Admission.admit_command, bind. rewrite H1.
  destruct s1 as [c1 a1]. cbn [ctl acts] in *. subst a1. by rewrite H2, H3.
Qed.

Abbreviation loop_ok := (loop_ok exp fuel false).

Lemma evidence_ok j : JournalSpec.ok j -> resume_ok (Some (evidence_of (payload j))).
Proof. intros ((_&Hd)&_) e [= <-]. exact Hd. Qed.

(** Refused: the controller has the jobs it had. *)
Lemma refused_ok p l clk spec key0 e s : loop_ok p l -> enter clk spec key0 (mkMachine (controller l) []) = Done (inl e, s) ->
  loop_ok p (l <| controller := ctl s |>).
Proof.
  intros [(seen&acts0&Hr&Hs&Hp&Hb) H2 H3 H4 H5 H6 H7] He.
  assert (Ha : Admission.admit_command exp clk fuel spec key0 None None 0 (mkMachine (controller l) []) = Done (inl e, s))
    by (unfold Admission.admit_command, bind; by rewrite He).
  pose proof (admit_command_spec exp fuel clk spec key0 None None 0 _ _ _ (reach_ok _ _ _ _ _ Hr)
    ltac:(by intros ?) Ha) as Hsub. inversion Hsub as [e' c' Hok Hj|]; subst.
  split; cbn -[admitted told]; try done.
  - exists seen, (acts0 ++ acts s). split_and!; [|done|intros a Ha'; apply elem_of_app; left; by apply Hp|by eapply still_backed]. change seen with (match inl e : result key with inr k => k :: seen | inl _ => seen end).
    by eapply reach_submit; [..|exact Ha|].
  - intros k st Hk. destruct (H2 _ _ Hk) as [Hin Hl]. split; [done|]. destruct Hl as [Hl|Hl]; [left|by right]. unfold live. by rewrite Hj.
Qed.

(** Admitted: one more job in the controller, one more state in the table. *)
Lemma admitted_ok p b l' clk spec key0 sink resume0 now0 k s3 st t1 t2 : loop_ok p b -> resume_ok resume0 -> k ∉ admitted (trace b) ->
  Admission.admit_command exp clk fuel spec key0 sink resume0 now0 (mkMachine (controller b) []) = Done (inr k, s3) ->
  controller l' = ctl s3 -> cell (st_context st) = length (contexts b) ->
  (forall i, st_context <$> states l' !! i = st_context <$> <[k := st]> (states b) !! i) -> contexts l' = contexts b ++ [new] ->
  trace l' = trace b ++ t1 ++ Answers (inr k) :: t2 -> Forall silent t1 -> Forall silent t2 -> Forall (sent_for l') t1 ->
  Forall (sent_for l') t2 -> journals_ok l' ->
  loop_ok (acts s3 ++ p) l'.
Proof.
  intros [(seen&acts0&Hr&Hs&Hp&Hb) H2 H3 H4 H5 H6 H7 H8] Hres Hk Ha Hc Hcell Hst Hctx Ht Ht1 Ht2 Hs1 Hs2 Hj.
  assert (Hadm : admitted (trace l') = admitted (trace b) ++ [k]).
  { rewrite Ht, !admitted_app, (silent_admitted t1 Ht1). change (Answers (inr k) :: t2) with ([Answers (inr k)] ++ t2).
    by rewrite admitted_app, (silent_admitted t2 Ht2). }
  assert (Htold : forall i, told i (trace l') = told i (trace b)).
  { intros i. rewrite Ht, !told_app, (silent_told i t1 Ht1). change (Answers (inr k) :: t2) with ([Answers (inr k)] ++ t2).
    rewrite told_app, (silent_told i t2 Ht2). change (told i [Answers (inr k)]) with 0%nat. lia. }
  assert (Hnone : states b !! k = None).
  { destruct (states b !! k) as [s|] eqn:E; [|done]. by destruct (H2 _ _ E). }
  assert (Hstk : forall i s', states l' !! i = Some s' -> (i = k /\ cell (st_context s') = length (contexts b)) \/
    (i ≠ k /\ exists s, states b !! i = Some s /\ st_context s = st_context s')).
  { intros i s' Hi. specialize (Hst i). rewrite Hi in Hst. cbn in Hst. symmetry in Hst. destruct (decide (i = k)) as [->|Hne].
    - left. rewrite lookup_insert_eq in Hst. cbn in Hst. injection Hst as Hst. split; [done|]. by rewrite <- Hst.
    - right. rewrite lookup_insert_ne in Hst by done. apply fmap_Some in Hst as (s&?&?). split; [done|]. by exists s. }
  assert (Hsome : is_Some (states l' !! k)).
  { specialize (Hst k). rewrite lookup_insert_eq in Hst. by destruct (states l' !! k). }
  pose proof (admit_command_spec exp fuel clk spec key0 sink resume0 now0 _ _ _ (reach_ok _ _ _ _ _ Hr) Hres Ha) as Hsub.
  inversion Hsub as [|k1 c1 a1 c' Hdead Hok1 Hoth Hl1 Hsteps]; subst.
  assert (Hfate : forall i, live c1 i -> live (ctl s3) i \/ exists a, a ∈ acts s3 ++ p /\ ends a = Some i).
  { intros i Hi. destruct (steps_fate _ i _ _ _ Hsteps) as [|Hd|x e y _ _ -> He _ _]; [by left|done|].
    right. exists e. split; [|done]. apply elem_of_app. left. apply elem_of_app. right. left. }
  split.
  - exists (k :: seen), (acts0 ++ acts s3). rewrite Hc, Hadm. split_and!.
    + change (k :: seen) with (match inr k : result key with inr k => k :: seen | inl _ => seen end).
      eapply reach_submit; [exact Hr|exact Hres|exact Ha|]. intros i [= <-]. by rewrite Hs.
    + intros i. rewrite elem_of_cons, elem_of_app, list_elem_of_singleton, Hs. tauto.
    + by apply still_pending.
    + rewrite Ht, !Forall_app, Forall_cons. split_and!; [by eapply still_backed|by apply silent_backed|done|by apply silent_backed].
  - intros i s' Hi. rewrite Hadm, Hc. destruct (Hstk _ _ Hi) as [[-> _]|[Hne (s&Hs'&_)]].
    + split; [apply elem_of_app; right; by left|by apply Hfate].
    + destruct (H2 _ _ Hs') as [Hin Hl]. split; [apply elem_of_app; by left|]. destruct Hl as [Hl|(a&Ha'&He)].
      * apply Hfate. unfold live. by rewrite Hoth.
      * right. exists a. split; [|done]. apply elem_of_app. by right.
  - intros i. rewrite Htold, H3, Hadm. destruct (decide (i = k)) as [->|Hne].
    + destruct Hsome as [s' ->]. rewrite !decide_False; [done|by intros [_ ?]|by intros [? _]].
    + specialize (Hst i). rewrite lookup_insert_ne in Hst by done.
      assert (Hn : states l' !! i = None <-> states b !! i = None) by (destruct (states l' !! i), (states b !! i); done).
      apply decide_ext. rewrite Hn, elem_of_app, list_elem_of_singleton. tauto.
  - intros i s' Hi. rewrite Hctx, length_app. cbn. destruct (Hstk _ _ Hi) as [[_ ->]|[_ (s&Hs'&<-)]]; [lia|]. apply H4 in Hs'. lia.
  - intros i i' s1 s2 Hi Hi'. destruct (Hstk _ _ Hi) as [[-> E]|[_ (s&Hs'&E)]], (Hstk _ _ Hi') as [[-> E']|[_ (s'&Hs''&E')]].
    + done.
    + rewrite E, <- E'. apply H4 in Hs''. lia.
    + rewrite <- E, E'. apply H4 in Hs'. lia.
    + rewrite <- E, <- E'. by apply H5.
  - intros i c. rewrite Hctx. destruct (decide (i < length (contexts b))%nat) as [Hlt|Hge].
    + rewrite lookup_app_l by done. intros Hi Hact. destruct (H6 _ _ Hi Hact) as (i'&s&Hs'&<-). specialize (Hst i').
      assert (i' ≠ k) by (intros ->; congruence). rewrite lookup_insert_ne, Hs' in Hst by done. cbn in Hst.
      apply fmap_Some in Hst as (s'&Hs''&->). by exists i', s'.
    + rewrite lookup_app_r by lia. intros Hi _. destruct Hsome as [s' Hs']. exists k, s'. split; [done|].
      destruct (Hstk _ _ Hs') as [[_ ->]|[? _]]; [|done]. apply list_lookup_singleton_Some in Hi as [Hi _]. lia.
  - done.
  - assert (Hnew : forall e i x, carries e = Some (i, x) -> sent_for l' e -> i ∈ admitted (trace l') /\
      match states l' !! i with Some s => st_context s = x | None => exists c, contexts l' !! cell x = Some c /\ state c ≠ ACTIVE end).
    { intros e i x Hx Hsent. specialize (Hsent _ _ Hx). destruct (states l' !! i) as [s'|] eqn:Ei; [|done]. cbn in Hsent.
      split; [|congruence]. rewrite Hadm. apply elem_of_app. destruct (Hstk _ _ Ei) as [[-> _]|[_ (s0&Hs0&_)]]; [right; by left|left].
      by eapply H2. }
    intros e i x He Hx. rewrite Ht in He. apply elem_of_app in He as [He|[He|[->|He]%elem_of_cons]%elem_of_app].
    + destruct (H8 _ _ _ He Hx) as [Hin Hold]. rewrite Hadm. split; [apply elem_of_app; by left|].
      assert (i ≠ k) by (intros ->; contradiction). specialize (Hst i). rewrite lookup_insert_ne in Hst by done.
      destruct (states l' !! i), (states b !! i); try done; cbn in Hst; [congruence|]. destruct Hold as (c&Hc0&Hn).
      exists c. split; [|done]. rewrite Hctx. by apply lookup_app_l_Some.
    + rewrite Forall_forall in Hs1. eapply Hnew; [exact Hx|by apply Hs1].
    + done.
    + rewrite Forall_forall in Hs2. eapply Hnew; [exact Hx|by apply Hs2].
Qed.

(** *** The whole of an admission *)

Lemma calm_frame l c l2 : calm (l <| controller := c |>) l2 -> calm l (l2 <| controller := controller l |>).
Proof. intros [C1 C2 C3 C4 C5]. by split. Qed.

Lemma cwp_run_controller {A B} (m : M A) (g : A * list Action -> C B) l (Q : B -> Loop -> Prop) :
  (forall a s, m (mkMachine (controller l) []) = Done (a, s) -> cwp (g (a, acts s)) (l <| controller := ctl s |>) Q) ->
  cwp (cbind (run_controller m) g) l Q.
Proof.
  intros H. unfold cwp, cbind, run_controller. destruct (m _) as [[a s]| |] eqn:E; [|done..]. exact (H a s eq_refl).
Qed.

Lemma cwp_attach k sink l : live (controller l) k -> cwp (attach_shared env k sink) l (fun going l' => going = true /\
  exists c2, set_sink k sink (mkMachine (controller l) []) = Done (inr tt, mkMachine c2 []) /\ calm (l <| controller := c2 |>) l').
Proof.
  intros Hl. destruct (set_sink_done k sink _ Hl) as [c2 Hs]. unfold attach_shared. destruct sink as [x|].
  - apply cwp_run_controller. rewrite Hs. intros a s [= <- <-]. cbn [fst]. apply cwp_bind. eapply cwp_mono; [by apply calm_broadcast|].
    intros [] l' Hc. split; [done|]. by exists c2.
  - apply cwp_ret. split; [done|]. exists c2. split; [done|]. injection Hs as <-. apply (calm_only _ _ []); try done. cbn. by rewrite app_nil_r.
Qed.

(** The journal a new job gets. *)
Lemma cwp_journal co spec l : decodes_u64 ->
  cwp (match co with
       | Some c => cbind (discover_resume env from_bytes crc32c c spec) (fun j => cret (Some j))
       | None => cret None
       end) l (fun j l' => calm l l' /\ forall j0, j = Some j0 -> JournalSpec.ok j0).
Proof.
  intros Hdec. destruct co as [c|]; [|by apply cwp_ret; split; [apply calm_refl|]]. apply cwp_bind.
  eapply cwp_mono; [by apply cwp_discover|]. intros j l' (Hc&_&Hj&_). apply cwp_ret. split; [done|]. by intros j0 [= <-].
Qed.

Lemma insert_journals k st l cs : (forall j, st_journal st = Some j -> JournalSpec.ok j) -> journals_ok l ->
  journals_ok (l <| states ::= <[k := st]> |> <| contexts := cs |>).
Proof.
  intros Hst H i s j. cbn. destruct (decide (i = k)) as [->|Hi]; [rewrite lookup_insert_eq; intros [= <-]; apply Hst|].
  rewrite lookup_insert_ne by done. apply H.
Qed.

Lemma op_admit_opened depth cmd co p : decodes_u64 ->
  op_ok exp fuel (admit_opened exp fuel env to_allocvec from_bytes crc32c shown depth cmd co) p (fun _ => p).
Proof.
  intros Hdec l. unfold admit_opened, read_clock. apply cwp_question. set (clk := clocks env (asked l)). set (l0 := l <| asked ::= Datatypes.S |>).
  apply cwp_run_controller. intros r s1 He. cbn [fst]. change (controller l0) with (controller l) in He.
  assert (H0 : loop_ok p l -> loop_ok p l0) by (apply calm_ok; by apply calm_asked). destruct r as [e|k].
  - assert (Hc : is_calm (reject shown e)) by (unfold reject; calm_tac). eapply cwp_mono; [apply Hc|]. cbv beta.
    intros [] l' H1. split; [|intros _ Hok; eapply calm_ok; [exact H1|]; exact (refused_ok p l0 _ _ _ _ _ (H0 Hok) He)].
    destruct H1 as [_ _ _ _ (t&->&_)]. by apply prefix_app_r.
  - pose proof (enter_spec _ _ _ _ _ _ He) as [_ Hlive]. specialize (Hlive k eq_refl).
    apply cwp_bind. eapply cwp_mono; [by apply cwp_journal|]. intros j l2 [C2 Hj]. cbv zeta. set (resume0 := option_map _ j).
    apply cwp_bind, cwp_change. set (st := new_state cmd co j (length (contexts l2))). set (l3 := l2 <| states ::= _ |> <| contexts ::= _ |>).
    assert (E3 : controller l3 = ctl s1) by exact (ca_controller _ _ C2).
    apply cwp_bind. eapply cwp_mono; [apply cwp_attach; by rewrite E3|]. intros going l5 (->&c2&Hsink&C5). rewrite E3 in Hsink. cbn [negb].
    apply cwp_bind, cwp_change, cwp_bind. eapply cwp_mono; [apply calm_emit|]. intros [] l7 C7. apply cwp_run_controller.
    intros u s3 Hh. cbn [snd]. assert (E7 : controller l7 = c2) by (rewrite (ca_controller _ _ C7); exact (ca_controller _ _ C5)).
    rewrite E7 in Hh. pose proof (admitted_run _ _ _ _ _ _ _ _ _ _ _ He Hsink Hh) as Hrun.
    set (l8 := l7 <| controller := ctl s3 |>). eapply cwp_mono; [apply (op_route exp fuel env to_allocvec crc32c shown depth (acts s3) p l8)|].
    destruct (ca_trace _ _ C2) as (t2&T2&S2). destruct (ca_trace _ _ C5) as (t5&T5&S5&U5).
    destruct (ca_trace _ _ C7) as (t7&T7&S7&U7).
    cbn -[admitted] in T2, T5, T7.
    assert (Ht : trace l8 = trace l2 ++ t5 ++ Answers (inr k) :: t7) by (cbn; rewrite T7, T5, <- !app_assoc; done).
    intros [] l' [Hp Hok']. split.
    + etransitivity; [|exact Hp]. rewrite Ht, T2, <- app_assoc. by apply prefix_app_r.
    + intros Hn Hok. apply Hok'; [done|]. set (b := l2 <| controller := controller l |>).
      assert (Hb : loop_ok p b) by (eapply calm_ok; [exact (calm_frame l0 _ _ C2)|by apply H0]).
      assert (Hfresh : k ∉ admitted (trace b)).
      { apply (admitted_prefix _ _ Hp) in Hn. rewrite Ht, !admitted_app in Hn.
        change (Answers (inr k) :: t7) with ([Answers (inr k)] ++ t7) in Hn. rewrite admitted_app in Hn.
        apply NoDup_app in Hn as (_&Hn&_). intros Hin. apply (Hn _ Hin). apply elem_of_app. right. apply elem_of_app. left. by left. }
      eapply (admitted_ok p b l8 clk (cc_spec cmd) _ _ resume0 (instant clk) k s3 st t5 t7); try done.
      * unfold resume0. destruct j as [j|]; [by apply evidence_ok, Hj|by intros ?].
      * intros i. change (states l8) with (states l7). rewrite (ca_states _ _ C7). cbn. rewrite (ca_states _ _ C5). done.
      * change (contexts l8) with (contexts l7). rewrite (ca_contexts _ _ C7). cbn. rewrite (ca_contexts _ _ C5). done.
      * eapply Forall_impl; [exact U5|]. intros e Hsent. eapply sent_for_states; [|exact Hsent]. intros i.
        change (states l8) with (states l7). rewrite (ca_states _ _ C7). cbn. by rewrite (ca_states _ _ C5).
      * eapply Forall_impl; [exact U7|]. intros e Hsent. eapply sent_for_states; [|exact Hsent]. intros i. apply (ca_states _ _ C7).
      * apply (ca_journals _ _ C7), (ca_journals _ _ C5). apply insert_journals; [|exact (lo_journals _ _ _ _ _ Hb)].
        intros j0. by apply Hj.
Qed.

Lemma op_admit depth cmd p : decodes_u64 ->
  op_ok exp fuel (Control.admit_command exp fuel env to_allocvec from_bytes crc32c shown depth cmd) p (fun _ => p).
Proof.
  intros Hdec. unfold Control.admit_command. destruct (cc_coordinator cmd) as [[e|co]|]; [|by apply op_admit_opened..].
  apply op_calm. calm_tac.
Qed.
End admission.

(** ** Turns and runs *)

Section turns.
Context {L : SlotMapLib} {HL : SlotMapLaws L} {S : SecMapLib L} {W : WebLib}.
Context (exp : f64 -> f64) (fuel : nat) (env : Env).
Context (to_allocvec : Wire -> option (list Z)) (from_bytes : list Z -> option Wire) (crc32c : list Z -> Z).
Context (key_order : list key -> list key) (shown : Error -> string).
Hypothesis decodes : decodes_u64 from_bytes.

Abbreviation loop_ok := (loop_ok exp fuel false).
Abbreviation loop_safe := (ControlLaws.loop_ok exp fuel).
Abbreviation iteration := (iteration exp fuel env to_allocvec from_bytes crc32c key_order shown).
Abbreviation run_loop := (run_loop exp fuel env to_allocvec from_bytes crc32c key_order shown).

(** The observations of an inbox come from shards. *)
Definition inbox_fine (i : Inbox) : Prop := forall obs, in_observation i = Got obs -> obs_fine obs.

Lemma op_iteration depth i p : inbox_fine i -> op_ok exp fuel (iteration depth i) p (fun _ => p).
Proof.
  intros Hi. unfold Control.iteration. eapply op_bind.
  { apply op_each. intros cmd _. unfold on_command. destruct (cc_shutdown cmd); [apply op_calm, calm_ret|by apply op_admit]. }
  intros ?. eapply op_bind.
  { unfold cwhen. destruct (existsb _ _); [apply op_cancel_all|apply op_calm, calm_ret]. }
  intros ?. eapply op_bind; [apply op_each; intros k _; apply op_on_cancel|]. intros ?.
  eapply op_bind; [apply op_calm; calm_tac|]. intros ?.
  destruct (in_observation i) as [obs| |] eqn:Eo; [| |apply op_calm, calm_ret].
  - eapply op_bind; [by apply op_on_observation, Hi|]. intros ?. eapply op_bind; [apply op_expire|]. intros ?. apply op_calm, calm_ret.
  - eapply op_bind; [apply op_calm, calm_ret|]. intros ?. eapply op_bind; [apply op_expire|]. intros ?. apply op_calm, calm_ret.
Qed.

(** *** The end *)

Lemma cwp_answer_gone g k l : cwp (answer_gone k) l (fun _ l' =>
  trace l `prefix_of` trace l' /\ (loop_safe g [] l -> loop_safe true [] l') /\ states l' = delete k (states l)).
Proof.
  unfold answer_gone, state_of. apply cwp_bind, cwp_look. destruct (states l !! k) as [s|] eqn:Es.
  - set (e := Replies k (inl (Runtime RuntimeEngineGone))).
    change (trace l `prefix_of` trace l ++ [e] /\ (loop_safe g [] l -> loop_safe true [] (removed k s cancel e l)) /\ delete k (states l) = delete k (states l)).
    split_and!; [by apply prefix_app_r| |done]. intros Hok. eapply remove_now; try done; [|apply cancel_closes|].
    + intros acts0 _. right. split_and!; [done| |done]. destruct (lo_table _ _ _ _ _ Hok _ _ Es) as [_ [Hl|(a&Ha&_)]]; [done|].
      by apply elem_of_nil in Ha.
    + intros i. cbn. rewrite orb_false_r. apply bool_decide_ext. by split.
  - apply cwp_ret. split_and!; [done|apply gone_ok|]. by rewrite delete_id.
Qed.

Lemma cwp_answer_all g ks l : cwp (each ks answer_gone) l (fun _ l' =>
  trace l `prefix_of` trace l' /\ (loop_safe g [] l -> loop_safe true [] l') /\
  forall k, states l' !! k = if decide (k ∈ ks) then None else states l !! k).
Proof.
  revert g l. induction ks as [|k ks IH]; intros g l; [apply cwp_ret; split_and!; [done|apply gone_ok|done]|].
  apply cwp_bind. eapply cwp_mono; [apply (cwp_answer_gone g k)|]. intros [] l1 (P1&O1&S1).
  eapply cwp_mono; [apply (IH true)|]. intros [] l2 (P2&O2&S2). split_and!; [by etransitivity|auto|]. intros i. rewrite S2, S1.
  destruct (decide (i = k)) as [->|Hi].
  - rewrite lookup_delete_eq, (decide_True (P := k ∈ k :: ks)) by (by left). by case_decide.
  - rewrite lookup_delete_ne by done. apply decide_ext. rewrite elem_of_cons. tauto.
Qed.

(** [drain()] yields every key. *)
Definition orders_all : Prop := forall l, key_order l ≡ₚ l.

Lemma cwp_shut_down l : orders_all -> cwp (shut_down env key_order) l (fun _ l' =>
  trace l `prefix_of` trace l' /\ (loop_ok [] l -> loop_safe true [] l') /\ states l' = ∅).
Proof.
  intros Ho. unfold shut_down. apply cwp_bind, cwp_look, cwp_bind. eapply cwp_mono; [apply (cwp_answer_all false _)|].
  intros [] l1 (P1&O1&S1). unfold read_clock. apply cwp_question, cwp_bind, cwp_look.
  set (l2 := l1 <| asked ::= Datatypes.S |>). eapply cwp_mono; [by apply (calm_effect (Exports _))|].
  intros [] l3 C3. pose proof (ca_trace _ _ C3) as (t&T3&_). split_and!.
  - rewrite T3. change (trace l2) with (trace l1). etransitivity; [exact P1|]. by apply prefix_app_r.
  - intros Hok. eapply calm_ok; [exact C3|]. eapply calm_ok; [|by apply O1]. by apply calm_asked.
  - apply map_eq. intros k. rewrite lookup_empty. pose proof (ca_states _ _ C3 k) as Hk.
    change (states l2) with (states l1) in Hk. rewrite S1 in Hk.
    assert (Hin : states l !! k = None \/ k ∈ key_order (map_to_list (states l)).*1).
    { destruct (states l !! k) as [s|] eqn:E; [right|by left]. rewrite (Ho _). apply list_elem_of_fmap. exists (k, s).
      split; [done|]. by apply elem_of_map_to_list. }
    destruct (states l3 !! k); [|done]. cbn in Hk. case_decide; [done|]. destruct Hin as [Hn|]; [|done]. by rewrite Hn in Hk.
Qed.

(** *** Runs *)

Lemma cwp_run depth boxes l : orders_all -> Forall inbox_fine boxes -> cwp (run_loop depth boxes) l (fun ended l' =>
  trace l `prefix_of` trace l' /\ (NoDup (admitted (trace l')) -> loop_ok [] l -> loop_safe ended [] l') /\ (ended = true -> states l' = ∅)).
Proof.
  intros Ho Hb. revert l. induction Hb as [|i boxes Hi Hb IH]; intros l; [by apply cwp_ret|]. cbn [Control.run_loop].
  apply cwp_bind. eapply cwp_mono; [by apply (op_iteration depth i [])|]. intros [] l1 [P1 O1].
  - eapply cwp_mono; [apply IH|]. intros ended l2 (P2&O2&E2). split_and!; [by etransitivity| |done]. intros Hn Hok.
    apply O2; [done|]. apply O1; [by eapply admitted_prefix|done].
  - apply cwp_bind. eapply cwp_mono; [by apply cwp_shut_down|]. intros [] l2 (P2&O2&E2). apply cwp_ret.
    split_and!; [by etransitivity| |done]. intros Hn Hok. apply O2, O1; [by eapply admitted_prefix|done].
Qed.

Lemma boot_ok shards now limits context profile clk on memory d : in_u64 (EngineLimits.max_active_assignments limits) ->
  loop_ok [] (boot shards now limits context profile clk on memory d).
Proof.
  intros Hl. split; cbn; try done.
  - exists [], []. split; [by apply reach_start|done].
  - by intros e k x ?%not_elem_of_nil.
Qed.
End turns.
