(* ===== verification/Refresh.v ===== *)
(** * Refreshing credentials on the spot.

    The control thread answers a request for fresh credentials while it executes
    the actions of an observation, by handling the answer at once and executing
    what comes of that. The answer to a request never leads to another one, so
    this nests once. *)

From Stdlib Require Import String.
From S2P Require Import Prelude Ranges Float Rates Errors Disk Context Representation Policy Spec SlotMap Timers Segment World Controller Lifecycle Adaptive Handle Commands Journal Control.
Local Open Scope Z_scope.

Section emissions.
Context {L : SlotMapLib} {S : SecMapLib L} {W : WebLib}.
Context (clk : Clock) (fuel : nat).

Definition asks_refresh (a : Action) : bool := match a with RequestCredentialRefresh _ _ _ _ => true | _ => false end.

(** [m] asks for no refresh. *)
Definition tame {A} (m : M A) : Prop := forall s a s', m s = Done (a, s') ->
  exists t, acts s' = acts s ++ t /\ Forall (fun x => asks_refresh x = false) t.

Lemma tame_ret {A} (a : A) : tame (ret a).
Proof. intros s b s' [= <- <-]. exists []. by rewrite app_nil_r. Qed.
Lemma tame_ask {A} (f : Ctl.t -> A) : tame (ask f).
Proof. intros s b s' [= <- <-]. exists []. by rewrite app_nil_r. Qed.
Lemma tame_upd f : tame (upd f).
Proof. intros s b s' [= <- <-]. exists []. by rewrite app_nil_r. Qed.
Lemma tame_emit x : asks_refresh x = false -> tame (emit x).
Proof. intros Hx s b s' [= <- <-]. exists [x]. split; [done|]. by constructor. Qed.
Lemma tame_fuel {A} : tame (out_of_fuel (A := A)).
Proof. by intros s b s'. Qed.

Lemma tame_bind {A B} (m : M A) (f : A -> M B) : tame m -> (forall a, tame (f a)) -> tame (bind m f).
Proof.
  intros Hm Hf s b s'. unfold bind. destruct (m s) as [[a s1]| |] eqn:E; [|done..]. intros E2.
  destruct (Hm _ _ _ E) as (t1&T1&F1), (Hf _ _ _ _ E2) as (t2&T2&F2). exists (t1 ++ t2).
  rewrite T2, T1, app_assoc. split; [done|]. by apply Forall_app.
Qed.

Lemma tame_dial origin e b serving now : tame (dial_best clk origin e b serving now).
Proof.
  apply tame_bind; [apply tame_ask|]. intros shard s a s'. unfold dial_connection.
  destruct (Ctl.dial_connection _ _ _ _ _ _ _ _) as [[k c] x] eqn:E. intros [= <- <-]. exists [x]. split; [done|].
  constructor; [|done]. unfold Ctl.dial_connection in E. destruct (WorldModel.allocate_connection _ _ _ _ _). by injection E as _ _ <-.
Qed.
End emissions.

Create HintDb tame.
#[local] Hint Resolve tame_ret tame_ask tame_upd tame_fuel tame_dial : tame.
Ltac tame_tac := repeat first
  [ solve [auto with tame] | apply tame_emit; solve [done | by case_match]
  | apply tame_bind; [|intros ?] | progress cbv beta | case_match ].

Section handlers.
Context {L : SlotMapLib} {S : SecMapLib L} {W : WebLib}.
Context (exp : f64 -> f64) (clk : Clock) (fuel : nat).

Lemma tame_open origin now b : tame (open_one_connection clk origin now b).
Proof. unfold open_one_connection. tame_tac. Qed.

Lemma tame_probes n origin now : tame (ensure_probes clk n origin now).
Proof.
  unfold ensure_probes. apply tame_bind; [auto with tame|]. intros []; [auto with tame|].
  induction n as [|n IH]; cbn [probe_loop]; unfold modify_job, modify_connection; [auto with tame|]. tame_tac; done.
Qed.
#[local] Hint Resolve tame_open tame_probes : tame.

Lemma tame_finish k o : tame (finish_job clk fuel k o).
Proof. unfold finish_job. tame_tac. Qed.

(** What is made of the answer to a refresh. *)
Lemma tame_refresh k s rq now : tame (handle_m exp clk fuel (refresh_observation k s rq) now).
Proof.
  unfold refresh_observation. repeat case_match; try apply tame_finish.
  cbn [handle_m]. unfold on_source_refreshed, modify_job, bump_generation. tame_tac.
Qed.
End handlers.

(** ** Executing actions, up to equal results *)

Section routing.
Context {L : SlotMapLib} {S : SecMapLib L} {W : WebLib}.
Context (exp : f64 -> f64) (fuel : nat) (env : Env).
Context (to_allocvec : Wire -> option (list Z)) (from_bytes : list Z -> option Wire) (crc32c : list Z -> Z).
Context (key_order : list key -> list key) (shown : Error -> string).

Definition same {A} (m m' : C A) : Prop := forall l, m l = m' l.

#[local] Instance same_equiv {A} : Equivalence (same (A := A)).
Proof. split; [done|by intros m m' H l|intros a b c H1 H2 l; by rewrite H1]. Qed.

#[local] Instance cbind_proper {A B} : Proper (same ==> pointwise_relation A same ==> same) (cbind (B := B)).
Proof. intros m m' Hm f f' Hf l. unfold cbind. rewrite Hm. destruct (m' l) as [[a l']| |]; [apply Hf|done..]. Qed.

Lemma same_each {A} (l : list A) f f' : (forall x, x ∈ l -> same (f x) (f' x)) -> same (each l f) (each l f').
Proof.
  induction l as [|x l IH]; intros H; [done|]. cbn [each]. rewrite (H x) by left.
  apply cbind_proper; [done|]. intros _. apply IH. intros y Hy. apply H. by right.
Qed.

Abbreviation route_action := (route_action exp fuel env to_allocvec crc32c shown).
Abbreviation route_actions := (route_actions exp fuel env to_allocvec crc32c shown).
Abbreviation iteration := (iteration exp fuel env to_allocvec from_bytes crc32c key_order shown).
Abbreviation run_loop := (run_loop exp fuel env to_allocvec from_bytes crc32c key_order shown).

Lemma route_tame again again' a : asks_refresh a = false -> same (route_action again a) (route_action again' a).
Proof. by destruct a. Qed.

Lemma routes_tame d d' l : Forall (fun x => asks_refresh x = false) l -> same (route_actions d l) (route_actions d' l).
Proof.
  intros Hl. rewrite Forall_forall in Hl. destruct d, d'; cbn [Control.route_actions]; apply same_each; intros x Hx; by apply route_tame, Hl.
Qed.

Lemma routes_deep d l : same (route_actions (Datatypes.S d) l) (route_actions 1 l).
Proof.
  cbn [Control.route_actions]. apply same_each. intros a _. destruct (asks_refresh a) eqn:Ha; [|by apply route_tame].
  destruct a; try done. cbn [Control.route_action]. apply cbind_proper; [done|]. intros [s|]; [|done].
  intros l0. unfold cbind, handle_obs, cbind, read_clock, question, run_controller. cbn [controller].
  destruct (handle_m _ _ _ _ _ _) as [[u s1]| |] eqn:E; [|done..].
  destruct (tame_refresh _ _ _ _ _ _ _ _ _ _ E) as (t&T&F). cbn in T. rewrite <- T in F. exact (routes_tame d 0 _ F _).
Qed.

Lemma observe_deep d obs : same (observe exp fuel env to_allocvec crc32c shown (Datatypes.S d) obs)
  (observe exp fuel env to_allocvec crc32c shown 1 obs).
Proof. apply cbind_proper; [done|]. intros acts0. apply routes_deep. Qed.

Lemma admit_deep d cmd co : same (admit_opened exp fuel env to_allocvec from_bytes crc32c shown (Datatypes.S d) cmd co)
  (admit_opened exp fuel env to_allocvec from_bytes crc32c shown 1 cmd co).
Proof.
  unfold admit_opened. repeat (apply cbind_proper; [done|intros ?]). case_match; [done|].
  repeat first [apply routes_deep | apply cbind_proper; [done|intros ?] | case_match; [done|]].
Qed.

Lemma iteration_deep d i : same (iteration (Datatypes.S d) i) (iteration 1 i).
Proof.
  assert (Ho : forall obs, same (observe exp fuel env to_allocvec crc32c shown (Datatypes.S d) obs)
    (observe exp fuel env to_allocvec crc32c shown 1 obs)) by apply observe_deep.
  unfold Control.iteration. apply cbind_proper.
  { apply same_each. intros cmd _. unfold on_command, Control.admit_command. repeat (case_match; [done|]). repeat case_match; try done; apply admit_deep. }
  intros _. apply cbind_proper.
  { unfold cwhen. case_match; [|done]. apply cbind_proper; [done|]. intros ks. apply same_each. intros k _. apply Ho. }
  intros _. apply cbind_proper.
  { apply same_each. intros k _. apply cbind_proper; [done|]. intros s. apply cbind_proper; [done|]. intros _. apply Ho. }
  intros _. apply cbind_proper; [done|]. intros _. assert (He : same (expire_timers exp fuel env to_allocvec crc32c shown (Datatypes.S d))
    (expire_timers exp fuel env to_allocvec crc32c shown 1)).
  { unfold expire_timers. do 2 (apply cbind_proper; [done|intros ?]). case_match. apply cbind_proper; [done|]. intros _. apply same_each.
    intros e _. apply cbind_proper; [done|]. intros _. apply Ho. }
  destruct (in_observation i) as [obs| |]; [| |done].
  - apply cbind_proper; [|intros _; apply cbind_proper; [apply He|done]]. unfold on_observation.
    do 3 (apply cbind_proper; [done|intros ?]). apply cbind_proper; [done|]. intros _. apply routes_deep.
  - apply cbind_proper; [done|]. intros _. apply cbind_proper; [apply He|done].
Qed.

(** However many refreshes are allowed to ask for another one while a turn's
    actions are executed, one is enough: the loop does the same with any number
    of rounds as with one. *)
Theorem refresh_nests_once d boxes l : run_loop (Datatypes.S d) boxes l = run_loop 1 boxes l.
Proof.
  revert l. induction boxes as [|i boxes IH]; intros l; [done|]. cbn [Control.run_loop].
  apply (cbind_proper _ _ (iteration_deep d i)). intros [] l'; [apply IH|done].
Qed.
End routing.
