(* ===== verification/Engine.v ===== *)
(** * The engine and its handles ([engine.rs], [job.rs], the handle of [control.rs]).

    What an application calls: the builders of an engine and of a download, the
    submission of a job, its handle, and the teardown. The control thread is on
    the other side of mailboxes; what it answers is an argument. *)

From Stdlib Require Import String.
From S2P Require Import Prelude Ranges Errors Text Policy Spec SlotMap Representation World Commands Control.
Local Open Scope Z_scope.

(** ** The engine builder *)

Record EngineConfig := mkEngineConfig {
  limits : EngineLimits.t; shards : Z; memory_limit_bytes : Z; h2_prior_knowledge : bool;
  danger_accept_invalid_certs : bool; profile_path : option string }.
#[export] Instance EngineConfig_rebuild : Rebuild EngineConfig := fun c =>
  mkEngineConfig (limits c) (shards c) (memory_limit_bytes c) (h2_prior_knowledge c) (danger_accept_invalid_certs c) (profile_path c).

(** [cores] is what [available_parallelism] says, one if it fails. *)
Definition EngineBuilder_default (cores : Z) : EngineConfig :=
  mkEngineConfig EngineLimits.default (Z.min 2 cores) (256 * 1024 * 1024) false false None.

Inductive engine_setter :=
| SetLimits (l : EngineLimits.t) | SetShards (count : Z) | SetMemoryLimit (bytes : Z) | SetPriorKnowledge (on : bool)
| SetDangerAcceptInvalidCerts (on : bool) | SetProfilePath (p : string).

Definition configure (c : EngineConfig) (s : engine_setter) : EngineConfig :=
  match s with
  | SetLimits l => c <| limits := l |>
  | SetShards n => c <| shards := Z.max n 1 |>
  | SetMemoryLimit b => c <| memory_limit_bytes := Z.max b 1 |>
  | SetPriorKnowledge on => c <| h2_prior_knowledge := on |>
  | SetDangerAcceptInvalidCerts on => c <| danger_accept_invalid_certs := on |>
  | SetProfilePath p => c <| profile_path := Some p |>
  end.

(** ** Mailboxes *)

(** What a bounded mailbox says to a [try_send]. *)
Inductive mailbox := HasRoom | IsFull | IsGone.

Definition submit_error (m : mailbox) : result unit :=
  match m with
  | HasRoom => inr tt
  | IsFull => inl (Runtime EngineBusy)
  | IsGone => inl (Runtime RuntimeEngineGone)
  end.

(** The sender's side of a cancellation does not tell the two apart. *)
Definition cancel_error (m : mailbox) : result unit :=
  match m with HasRoom => inr tt | IsFull | IsGone => inl (Runtime RuntimeEngineGone) end.

(** [shutdown] waits ten seconds for room. *)
Definition shutdown_error (m : mailbox) : result unit := submit_error m.

(** ** Downloads *)

Section download.
Context {L : SlotMapLib} {W : WebLib}.

Record DownloadBuilder := mkDownload {
  d_url : string; mirrors : list string; d_destination : option string; shared_destination : option (Z * DestinationHints);
  priority : Priority; urgency : Urgency; integrity : IntegritySpec; durability : Durability; timeout : option Z;
  policy : TransferPolicy; refresher : option (RefreshRequest -> option RefreshedSource); wants_progress : bool }.
#[export] Instance DownloadBuilder_rebuild : Rebuild DownloadBuilder := fun b =>
  mkDownload (d_url b) (mirrors b) (d_destination b) (shared_destination b) (priority b) (urgency b) (integrity b) (durability b)
    (timeout b) (policy b) (refresher b) (wants_progress b).

Definition download (url : string) : DownloadBuilder :=
  mkDownload url [] None None Normal ThroughputSensitive IntegritySpec_default Durability_default None TransferPolicy_default None false.

(** A sequential destination is wrapped by a [ReorderingDestination]. *)
Definition reordering_caps : Z :=
  Z.lor (Z.lor DestinationCaps.RANDOM_ACCESS DestinationCaps.PARALLEL_WRITES)
    (Z.lor DestinationCaps.OUT_OF_ORDER DestinationCaps.CONTIGUOUS_SUBMISSION).
Definition reordering_hints (h : DestinationHints) : DestinationHints :=
  mkDestinationHints (h_alignment h) (h_max_operation_bytes h) (Z.min (h_max_inflight_bytes h) (8 * 1024 * 1024)) (h_max_parallel_writes h).

Inductive download_setter :=
| To (path : string) | ToDestination (caps : Z) (hints : DestinationHints) | ToSequential (hints : DestinationHints)
| AddMirror (url : string) | SetPriority (p : Priority) | SetUrgency (u : Urgency) | SetIntegrity (i : IntegritySpec)
| SetDurability (d : Durability) | SetPolicy (p : TransferPolicy) | SetTimeout (t : Z) | OnProgress
| SetRefresher (r : RefreshRequest -> option RefreshedSource).

Definition set (b : DownloadBuilder) (s : download_setter) : DownloadBuilder :=
  match s with
  | To path => b <| d_destination := Some path |> <| shared_destination := None |>
  | ToDestination caps hints => b <| d_destination := None |> <| shared_destination := Some (caps, hints) |>
  | ToSequential hints => b <| d_destination := None |> <| shared_destination := Some (reordering_caps, reordering_hints hints) |>
  | AddMirror url => b <| mirrors ::= fun l => l ++ [url] |>
  | SetPriority p => b <| priority := p |>
  | SetUrgency u => b <| urgency := u |>
  | SetIntegrity i => b <| integrity := i |>
  | SetDurability d => b <| durability := d |>
  | SetPolicy p => b <| policy := p |>
  | SetTimeout t => b <| timeout := Some t |>
  | OnProgress => b <| wants_progress := true |>
  | SetRefresher r => b <| refresher := Some r |>
  end.

(** What goes to the control thread, which opens the file of [final_path]. *)
Record Submission := mkSubmission {
  sub_spec : JobSpec (Url := Url); sub_key : string; final_path : option string; sub_shared : option (Z * DestinationHints);
  sub_refresher : option (RefreshRequest -> option RefreshedSource); sub_progress : bool }.

Definition to_command (s : Submission) (opens : string -> result FileDestinationCoordinator) : ControlCommand :=
  mkCommand (sub_spec s) (sub_key s) (opens <$> final_path s) (sub_shared s) (sub_refresher s) (sub_progress s) false.

(** [pid] and the counter name a destination that has no path. *)
Definition anonymous_key (pid counter : Z) : string := "anon-" +:+ show_u64 pid +:+ "-" +:+ show_u64 counter.

Definition with_policy (spec : JobSpec (Url := Url)) (p : TransferPolicy) : JobSpec (Url := Url) :=
  mkJobSpec (js_sources spec) (js_integrity spec) (js_priority spec) (js_urgency spec) (js_deadline spec) (js_persistence spec) p (js_label spec).

(** [submit] up to the mailbox; the counter moves only if it is asked. *)
Definition submit (c : EngineConfig) (pid counter : Z) (spec : JobSpec (Url := Url)) (b : DownloadBuilder) : Submission * Z :=
  let clamped := with_policy spec (EngineLimits.clamp_policy (limits c) (js_policy spec)) in
  match d_destination b with
  | Some path => (mkSubmission clamped path (Some path) (shared_destination b) (refresher b) (wants_progress b), counter)
  | None => (mkSubmission clamped (anonymous_key pid counter) None (shared_destination b) (refresher b) (wants_progress b), counter + 1)
  end.

Fixpoint parse_all (urls : list string) : option (list Url) :=
  match urls with
  | [] => Some []
  | u :: us => match url_parse u with
               | Some x => match parse_all us with Some xs => Some (x :: xs) | None => None end
               | None => None
               end
  end.

(** [start]; the deadline is counted from here. What the parser says of a bad URL
    stands as one text. *)
Definition start (c : EngineConfig) (pid counter now : Z) (b : DownloadBuilder) : result (Submission * Z) :=
  match url_parse (d_url b) with
  | None => inl (Config "invalid URL")
  | Some url =>
      match parse_all (mirrors b) with
      | None => inl (Config "invalid URL")
      | Some urls =>
          inr (submit c pid counter
            (mkJobSpec (SourceRequest_new url :: (SourceRequest_new <$> urls)) (integrity b) (priority b) (urgency b)
               (option_map (fun t => now + t) (timeout b)) (durability b) (policy b) None) b)
      end
  end.
End download.

(** ** Job handles *)

Module Job.

#[export] Instance SnapshotPhase_eq_dec : EqDecision SnapshotPhase.
Proof. solve_decision. Defined.

(** [sent] counts the cancellations that reached the mailbox. *)
Record t := mk { cancelled : bool; sent : nat }.
Definition new : t := mk false 0.

Definition cancel (m : mailbox) (j : t) : t :=
  if cancelled j then j
  else mk true (match cancel_error m with inr _ => S (sent j) | inl _ => sent j end).

(** [wait], [wait_blocking]: [None] when the other side is gone. *)
Definition wait {A} (received : option (result A)) : result A :=
  match received with Some outcome => outcome | None => inl (Runtime RuntimeEngineGone) end.

(** What of a snapshot counts as movement. *)
Record ProgressSig := mkSig { g_phase : option SnapshotPhase; verified : Z; connections : Z; streams : Z; total : option Z }.
#[global] Instance ProgressSig_eq_dec : EqDecision ProgressSig.
Proof. solve_decision. Defined.
Definition ProgressSig_default : ProgressSig := mkSig None 0 0 0 None.
Definition ProgressSig_from (s : JobSnapshot) : ProgressSig :=
  mkSig (Some (sn_phase s)) (sn_verified_bytes s) (sn_active_connections s) (sn_active_streams s) (sn_total_length s).

Section progressing.
Context {Sig : Type} `{!EqDecision Sig} {A : Type}.

(** One turn: the time at its start, what the outcome channel says within 25 ms,
    the progress signature if a snapshot came, and the time after it. *)
Inductive heard := Outcome (r : result A) | Disconnected | Nothing (snapshot : option Sig).
Record turn := mkTurn { before : Z; said : heard; after : Z }.

Definition overall_timeout : Error := Stalled "overall timeout".
Definition no_progress : Error := Stalled "no progress".

(** [wait_blocking_progressing] over the turns to come; [None] while it waits. *)
Fixpoint progressing (started stall overall : Z) (last_move : Z) (sig : Sig) (ts : list turn) : option (result A) :=
  match ts with
  | [] => None
  | t :: ts' =>
      if before t - started >? overall then Some (inl overall_timeout)
      else
        match said t with
        | Outcome r => Some r
        | Disconnected => Some (inl (Runtime RuntimeEngineGone))
        | Nothing None => progressing started stall overall last_move sig ts'
        | Nothing (Some next) =>
            if decide (next = sig) then
              if after t - last_move >? stall then Some (inl no_progress)
              else progressing started stall overall last_move sig ts'
            else progressing started stall overall (after t) next ts'
        end
  end.
End progressing.

(** Both clocks are read at the call, the second after the first. *)
Definition wait_blocking_progressing {A} (stall overall started last_move : Z) (ts : list (turn (Sig := ProgressSig) (A := A))) : option (result A) :=
  progressing started stall overall last_move ProgressSig_default ts.
End Job.

(** ** Teardown *)

Module Teardown.

(** [running]: the runtime and the control thread are still to be joined. *)
Record t := mk { running : bool; joined : nat }.
Definition started : t := mk true 0.

Definition join (s : t) : t := if running s then mk false (S (joined s)) else s.

(** [Engine::shutdown]. *)
Definition shutdown (m : mailbox) (s : t) : t * result unit :=
  match shutdown_error m with
  | inl e => (s, inl e)
  | inr _ => (join s, inr tt)
  end.

(** [EngineInner::terminate], which [Drop] runs. *)
Definition terminate (m : mailbox) (s : t) : t :=
  let loop_gone := match shutdown_error m with inl (Runtime RuntimeEngineGone) => true | _ => false end in
  if running s then mk false (if loop_gone then joined s else S (joined s)) else s.

Inductive action := Shutdown (m : mailbox) | Terminate (m : mailbox).
Definition act (s : t) (a : action) : t :=
  match a with Shutdown m => (shutdown m s).1 | Terminate m => terminate m s end.
End Teardown.

(** ** Properties *)

Section download_laws.
Context {L : SlotMapLib} {W : WebLib}.

(** At most one place to write to. *)
Lemma one_destination ss url : let b := foldl set (download url) ss in d_destination b = None \/ shared_destination b = None.
Proof.
  assert (H : forall b, d_destination b = None \/ shared_destination b = None ->
    d_destination (foldl set b ss) = None \/ shared_destination (foldl set b ss) = None); [|by apply H; left].
  induction ss as [|x ss IH]; intros b Hb; [done|]. apply IH. destruct x; cbn; auto.
Qed.

Lemma parse_all_spec urls xs : parse_all urls = Some xs <-> Forall2 (fun u x => url_parse u = Some x) urls xs.
Proof.
  revert xs. induction urls as [|u us IH]; intros xs; cbn.
  - split; [intros [= <-]; constructor|by inversion 1].
  - destruct (url_parse u) as [x|] eqn:Eu; [|split; [done|inversion 1; congruence]]. destruct (parse_all us) as [ys|].
    + split; [intros [= <-]; constructor; [done|by apply IH]|]. inversion 1 as [|? ? ? zs ? Hz]; subst. apply IH in Hz. congruence.
    + split; [done|]. inversion 1 as [|? ? ? zs ? Hz]; subst. by apply IH in Hz.
Qed.

Lemma show_u64_inj a b : in_u64 a -> in_u64 b -> show_u64 a = show_u64 b -> a = b.
Proof. intros Ha Hb E. pose proof (parse_show a Ha) as H1. rewrite E, (parse_show b Hb) in H1. congruence. Qed.

Lemma anonymous_keys_differ pid i j : in_u64 i -> in_u64 j -> anonymous_key pid i = anonymous_key pid j -> i = j.
Proof.
  intros Hi Hj. unfold anonymous_key. intros H%append_cancel. apply append_cancel, append_cancel in H. by apply show_u64_inj.
Qed.
End download_laws.

Module EngineSpec.

Section submissions.
Context {L : SlotMapLib} {W : WebLib}.

(** Where the last of the setters sends the bytes. *)
Definition target_of (x : download_setter) (last : option string * option (Z * DestinationHints)) :
    option string * option (Z * DestinationHints) :=
  match x with
  | To path => (Some path, None)
  | ToDestination caps hints => (None, Some (caps, hints))
  | ToSequential hints => (None, Some (reordering_caps, reordering_hints hints))
  | _ => last
  end.
Definition targets (ss : list download_setter) : option string * option (Z * DestinationHints) :=
  foldl (fun acc x => target_of x acc) (None, None) ss.

Lemma targets_spec ss b : (d_destination (foldl set b ss), shared_destination (foldl set b ss)) =
  foldl (fun acc x => target_of x acc) (d_destination b, shared_destination b) ss.
Proof. revert b. induction ss as [|x ss IH]; intros b; [done|]. cbn [foldl]. rewrite IH. by destruct x. Qed.

(** The mirrors, in the order they were added. *)
Definition mirrors_of (ss : list download_setter) : list string :=
  ss ≫= fun x => match x with AddMirror u => [u] | _ => [] end.

Lemma mirrors_spec ss b : mirrors (foldl set b ss) = mirrors b ++ mirrors_of ss.
Proof.
  revert b. induction ss as [|x ss IH]; intros b; cbn [foldl]; [by rewrite app_nil_r|]. rewrite IH.
  destruct x; cbn; by rewrite <- ?app_assoc.
Qed.

Lemma url_spec ss b : d_url (foldl set b ss) = d_url b.
Proof. revert b. induction ss as [|x ss IH]; intros b; [done|]. cbn [foldl]. rewrite IH. by destruct x. Qed.

(** However a download is configured, what is submitted has one place to write to,
    the one set last; its sources are the URL and the mirrors in the order they
    were given, each parsed; no ceiling of its policy is above that of the
    engine; and it starts exactly when all its URLs parse. *)
Theorem submission_is_what_was_set c pid counter now url ss :
  let b := foldl set (download url) ss in
  match start c pid counter now b with
  | inr (s, _) =>
      (final_path s, sub_shared s) = targets ss /\ (final_path s = None \/ sub_shared s = None) /\
      Forall2 (fun u src => url_parse u = Some (Spec.url src) /\ src = SourceRequest_new (Spec.url src)) (url :: mirrors_of ss) (js_sources (sub_spec s)) /\
      max_physical_connections (transport (js_policy (sub_spec s))) <= Z.max 1 (as_u8 (EngineLimits.max_connections_per_origin (limits c)))
  | inl e => e = Config "invalid URL" /\ exists u, u ∈ url :: mirrors_of ss /\ url_parse u = None
  end.
Proof.
  intros b. unfold start. pose proof (url_spec ss (download url)) as Hu. pose proof (mirrors_spec ss (download url)) as Hm.
  pose proof (targets_spec ss (download url)) as Ht. cbn in Hu, Hm, Ht. fold b in Hu, Hm, Ht. rewrite Hu, Hm.
  destruct (url_parse url) as [x|] eqn:Ex; [|split; [done|]; exists url; split; [by left|done]].
  destruct (parse_all (mirrors_of ss)) as [xs|] eqn:Exs.
  - unfold submit. apply parse_all_spec in Exs.
    assert (Hsrc : Forall2 (fun u src => url_parse u = Some (Spec.url src) /\ src = SourceRequest_new (Spec.url src)) (url :: mirrors_of ss)
      (SourceRequest_new x :: (SourceRequest_new <$> xs))).
    { constructor; [done|]. apply Forall2_fmap_r. eapply Forall2_impl; [exact Exs|]. done. }
    assert (H1 : d_destination b = None \/ shared_destination b = None) by exact (one_destination ss url).
    destruct (d_destination b) as [path|] eqn:Ed; cbn; split_and!; (done || lia || by left).
  - split; [done|]. clear -Exs. revert Exs. generalize (mirrors_of ss) as l. induction l as [|u l IH]; cbn; [done|].
    destruct (url_parse u) eqn:Eu; [|intros _; exists u; split; [right; by left|done]].
    destruct (parse_all l); [done|]. intros Hn. destruct (IH Hn) as (v&Hv&Hp). exists v. split; [|done].
    apply elem_of_cons in Hv as [->|Hv]; [by left|]. by do 2 right.
Qed.

(** The submissions of one process, the counter passed on. *)
Fixpoint start_all (c : EngineConfig) (pid counter now : Z) (bs : list DownloadBuilder) : list Submission :=
  match bs with
  | [] => []
  | b :: bs' =>
      match start c pid counter now b with
      | inr (s, n) => s :: start_all c pid n now bs'
      | inl _ => start_all c pid counter now bs'
      end
  end.

(** Every key without a path is that of a counter not used before. *)
Lemma start_all_keys c pid now bs counter : in_u64 counter -> counter + Z.of_nat (length bs) <= u64_max ->
  Forall (fun s => final_path s = None -> exists i, counter <= i < counter + Z.of_nat (length bs) /\ sub_key s = anonymous_key pid i)
    (start_all c pid counter now bs) /\
  ForallOrdPairs (fun s s' => final_path s = None -> final_path s' = None -> sub_key s <> sub_key s') (start_all c pid counter now bs).
Proof.
  revert counter. induction bs as [|b bs IH]; intros counter Hc Hn; cbn [start_all]; [split; constructor|]. cbn [length] in *.
  unfold start, submit. destruct (url_parse (d_url b)) as [x|].
  2:{ destruct (IH counter Hc ltac:(lia)) as [I1 I2]. split; [|done]. eapply Forall_impl; [exact I1|]. cbn. intros s Hs Hf.
      destruct (Hs Hf) as (i&Hi&->). exists i. split; [lia|done]. }
  destruct (parse_all (mirrors b)) as [xs|].
  2:{ destruct (IH counter Hc ltac:(lia)) as [I1 I2]. split; [|done]. eapply Forall_impl; [exact I1|]. cbn. intros s Hs Hf.
      destruct (Hs Hf) as (i&Hi&->). exists i. split; [lia|done]. }
  destruct (d_destination b) as [path|].
  - destruct (IH counter Hc ltac:(lia)) as [I1 I2]. split; constructor; try done.
    + eapply Forall_impl; [exact I1|]. cbn. intros s Hs Hf. destruct (Hs Hf) as (i&Hi&->). exists i. split; [lia|done].
    + apply Forall_forall. cbn. done.
  - unfold in_u64 in *. destruct (IH (counter + 1) ltac:(lia) ltac:(lia)) as [I1 I2]. split; constructor; try done.
    + cbn. intros _. exists counter. split; [lia|done].
    + eapply Forall_impl; [exact I1|]. cbn. intros s Hs Hf. destruct (Hs Hf) as (i&Hi&->). exists i. split; [lia|done].
    + eapply Forall_impl; [exact I1|]. cbn. intros s Hs _ Hf E. destruct (Hs Hf) as (i&Hi&Ek). rewrite Ek in E.
      apply anonymous_keys_differ in E; [lia|unfold in_u64; lia..].
Qed.
End submissions.

(** ** Waiting *)

Section waiting.
Import Job.
Context {Sig : Type} `{!EqDecision Sig} {A : Type}.
Abbreviation turn := (turn (Sig := Sig) (A := A)).

(** When the signature last changed, and to what. *)
Definition moved (p : Z * Sig) (t : turn) : Z * Sig :=
  match said t with Nothing (Some next) => if decide (next = p.2) then p else (after t, next) | _ => p end.

Definition quiet (t : turn) : Prop := exists o, said t = Nothing o.

(** Waiting with a stall limit gives up as stalled only if it is: at some turn a
    snapshot came that is the one seen at the last change, and that change is
    longer ago than the limit, with no outcome in between; and it never waits
    past a turn that begins after the overall limit. *)
Theorem stall_is_real started stall overall now sig (ts : list turn) r : progressing started stall overall now sig ts = r ->
  (r = None -> Forall (fun t => quiet t /\ before t - started <= overall) ts) /\
  (forall e, r = Some (inl e) -> exists pre t post, ts = pre ++ t :: post /\ Forall quiet pre /\
     ((e = overall_timeout /\ before t - started > overall) \/ said t = Outcome (inl e) \/
      (e = Runtime RuntimeEngineGone /\ said t = Disconnected) \/
      (e = no_progress /\ said t = Nothing (Some (foldl moved (now, sig) pre).2) /\ after t - (foldl moved (now, sig) pre).1 > stall))).
Proof.
  revert now sig. induction ts as [|t ts IH]; intros now sig; cbn [progressing].
  - intros <-. split; [constructor|done].
  - rewrite Z.gtb_ltb. case Z.ltb_spec; intros Ho.
    { intros <-. split; [done|]. intros e [= <-]. exists [], t, ts. split_and!; [done|constructor|]. left. split; [done|lia]. }
    assert (Hstep : forall n s, (n, s) = moved (now, sig) t -> quiet t -> progressing started stall overall n s ts = r ->
      (r = None -> Forall (fun t => quiet t /\ before t - started <= overall) (t :: ts)) /\
      (forall e, r = Some (inl e) -> exists pre u post, t :: ts = pre ++ u :: post /\ Forall quiet pre /\
         ((e = overall_timeout /\ before u - started > overall) \/ said u = Outcome (inl e) \/
          (e = Runtime RuntimeEngineGone /\ said u = Disconnected) \/
          (e = no_progress /\ said u = Nothing (Some (foldl moved (now, sig) pre).2) /\ after u - (foldl moved (now, sig) pre).1 > stall)))).
    { intros n s Hm Hq Hp. destruct (IH n s Hp) as [I1 I2]. split.
      - intros Hr. constructor; [split; [done|lia]|by apply I1].
      - intros e He. destruct (I2 e He) as (pre&u&post&->&Hpre&Hc). exists (t :: pre), u, post. cbn [foldl]. rewrite <- Hm.
        split_and!; [done|by constructor|done]. }
    destruct (said t) as [o| |[next|]] eqn:Es.
    + intros <-. split; [done|]. intros e [= ->]. exists [], t, ts. split_and!; [done|constructor|]. right. by left.
    + intros <-. split; [done|]. intros e [= <-]. exists [], t, ts. split_and!; [done|constructor|]. do 2 right. by left.
    + destruct (decide (next = sig)) as [->|Hne].
      * rewrite Z.gtb_ltb. case Z.ltb_spec; intros Hs.
        { intros <-. split; [done|]. intros e [= <-]. exists [], t, ts. split_and!; [done|constructor|]. do 3 right. split_and!; [done..|cbn; lia]. }
        apply Hstep; [unfold moved; rewrite Es; cbn; by rewrite decide_True|by eexists].
      * apply Hstep; [unfold moved; rewrite Es; cbn; by rewrite decide_False|by eexists].
    + apply Hstep; [unfold moved; by rewrite Es|by eexists].
Qed.
End waiting.

(** A cancellation that finds its mailbox full is lost, and asking again sends
    nothing. *)
Lemma full_mailbox_loses_cancel m : Job.cancel m (Job.cancel IsFull Job.new) = Job.mk true 0.
Proof. by destruct m. Qed.

(** Asking twice cancels once. *)
Lemma cancel_once ms : (Job.sent (foldl (fun j m => Job.cancel m j) Job.new ms) <= 1)%nat.
Proof.
  destruct ms as [|m ms]; [cbn; lia|]. cbn [foldl].
  assert (H : forall j, Job.cancelled j = true -> foldl (fun j m => Job.cancel m j) j ms = j).
  { induction ms as [|x ms IH]; intros j Hj; [done|]. cbn [foldl]. unfold Job.cancel at 2. rewrite Hj. by apply IH. }
  rewrite H by (by destruct m). destruct m; cbn; lia.
Qed.

(** The threads are joined at most once, whatever is called and in which order. *)
Lemma joined_once acts : let s := foldl Teardown.act Teardown.started acts in
  (Teardown.joined s + (if Teardown.running s then 1 else 0) <= 1)%nat.
Proof.
  cbn zeta. assert (H : forall s, (Teardown.joined s + (if Teardown.running s then 1 else 0) <= 1)%nat ->
    (Teardown.joined (foldl Teardown.act s acts) + (if Teardown.running (foldl Teardown.act s acts) then 1 else 0) <= 1)%nat); [|by apply H].
  induction acts as [|a acts IH]; intros s Hs; [done|]. cbn [foldl]. apply IH.
  destruct a as [m|m], m; cbn; destruct s as [[] n]; cbn in *; lia.
Qed.

(** Dropping the engine joins a loop that does not answer, and not one that has
    ended. *)
Lemma teardown_joins_the_wedged :
  Teardown.terminate IsFull Teardown.started = Teardown.mk false 1 /\ Teardown.terminate IsGone Teardown.started = Teardown.mk false 0.
Proof. by split. Qed.

(** A wait that hears the same snapshot for too long. *)
Definition two_bytes : Job.ProgressSig := Job.mkSig (Some SnTransferring) 2 1 1 (Some 9).
Definition stalled_wait : list (Job.turn (Sig := Job.ProgressSig) (A := unit)) :=
  [Job.mkTurn 0 (Job.Nothing (Some two_bytes)) 3; Job.mkTurn 3 (Job.Nothing None) 9; Job.mkTurn 9 (Job.Nothing (Some two_bytes)) 14].

Lemma stalled_wait_ends : Job.wait_blocking_progressing 10 100 0 0 stalled_wait = Some (inl Job.no_progress).
Proof. vm_compute. reflexivity. Qed.

Lemma stall_is_real_witness : exists pre t post, stalled_wait = pre ++ t :: post /\ Job.after t - (foldl moved (0, Job.ProgressSig_default) pre).1 > 10.
Proof.
  destruct (stall_is_real 0 10 100 0 Job.ProgressSig_default stalled_wait (Some (inl Job.no_progress)) stalled_wait_ends) as [_ H].
  destruct (H _ eq_refl) as (pre&t&post&E&_&[[Hd _]|[Hd|[[Hd _]|(_&_&Hd)]]]); [discriminate Hd| |discriminate Hd|by exists pre, t, post].
  exfalso. unfold stalled_wait in E. destruct pre as [|a [|b [|d pre]]]; injection E; intros; subst; try discriminate Hd. by destruct pre.
Defined.
End EngineSpec.
