(* ===== verification/Shard.v ===== *)
(** * Shards ([shard.rs], [net/connector.rs]).

    A shard thread receives commands, keeps connection pools, lanes and attached
    destinations, and runs a task per dial, probe, fetch and sample. The tasks
    share the pools and the end flags with the loop, so both are kept in a
    store and named by a number. What a task and the loop await (a dial, the
    file system, the fetch itself) is an answer that comes with the event; [Fetch] models what a fetch
    does in between, [Sinks] what its sink does. *)

From Stdlib Require Import String.
From S2P Require Import Prelude Fetch Ranges Float Rates Errors Disk Context Representation Policy Spec SlotMap Timers Segment World Controller Commands.
Local Open Scope Z_scope.

(** ** Physical connections *)

(** The one sender of an HTTP/1 connection is there unless a session has it;
    the others hand out clones. *)
Record PhysicalConnection := mkPhysical { wire : WireProtocol; sender : bool }.

Definition Protocol_from (w : WireProtocol) : Protocol :=
  match w with Fetch.Http1 => Http1_1 | Fetch.Http2 => Http2 | Fetch.Http3 => Http3 end.

Definition open_session (c : PhysicalConnection) : option PhysicalConnection :=
  match wire c with
  | Fetch.Http1 => if sender c then Some (mkPhysical Fetch.Http1 false) else None
  | _ => Some c
  end.

Definition return_session (c : PhysicalConnection) : PhysicalConnection :=
  match wire c with Fetch.Http1 => mkPhysical Fetch.Http1 true | _ => c end.

Module ConnPool.

(** [ConnPool::H1] or [ConnPool::Multiplexed]. *)
Record t := mk { h1 : bool; conn : option PhysicalConnection; dead : bool }.

Definition new (c : PhysicalConnection) : t := mk (match wire c with Fetch.Http1 => true | _ => false end) (Some c) false.

(** One poll of [acquire]: a session of this protocol, none ever, or not yet. The
    listener that [acquire] waits with and the notifications of [release],
    [retire] and [close] are not modelled: a request that got [Pending] may poll
    again at any later step. *)
Inductive acquired := Session (w : WireProtocol) (p : t) | Retired | Pending.

Definition acquire (p : t) : acquired :=
  if dead p then Retired
  else match conn p with
       | None => Retired
       | Some c =>
           match open_session c with
           | Some c' => Session (wire c) (mk (h1 p) (Some c') (dead p))
           | None => if h1 p then Pending else Retired
           end
       end.

(** A session that is returned to a pool without its connection is dropped. *)
Definition release (p : t) : t := if h1 p then mk true (option_map return_session (conn p)) (dead p) else p.

Definition retire (p : t) : t := if dead p then p else mk (h1 p) None true.
Definition close (p : t) : t := mk (h1 p) None true.
End ConnPool.

(** ** Failures *)

Definition failure_connection_state (w : WireProtocol) (e : Error) : ConnectionState :=
  match w with
  | Fetch.Http1 => StatePoisoned
  | _ =>
      match e with
      | Transport (ConnectionRetired _) => StateGone
      | Transport (TransportIo _) | Transport ConnectTimeout | Transport (TlsError _) | Errors.Http (Errors.Protocol _) => StatePoisoned
      | _ => StateReusable
      end
  end.

Definition connect_failure_kind (e : Error) : ConnectFailure :=
  match e with
  | DeadlineExceeded => CfTimeout
  | Transport ConnectTimeout => CfTimeout
  | Transport (TlsError _) => CfTls
  | Transport (TransportIo ConnectionRefused) => CfRefused
  | _ => CfOther
  end.

Definition pool_retired : Error := Transport (ConnectionRetired "pool retired").

#[export] Instance AssignmentRef_countable {L : SlotMapLib} : Countable AssignmentRef.
Proof. apply (inj_countable' (fun a => (ar_job a, ar_assignment a)) (fun p => mkAssignmentRef p.1 p.2)). by intros []. Defined.

Section shard.
Context {L : SlotMapLib} {S : SecMapLib L} {W : WebLib}.

(** ** State *)

(** What a task does. A fetch of [None] is one of the full body; one without a
    lane writes to the shared destination of its job. *)
Inductive Work :=
| Connects (connection : key)
| Probes (job connection source_id : key)
| Fetches (job : key) (assignment : AssignmentRef) (attempt : Z) (connection : key) (range : option ByteRange.t)
    (lane : option nat) (flag : nat)
| Samples (job source_id connection : key) (lane : nat).

(** [on_pool] is where it gets its session; [session], once it has one, its protocol. *)
Record Task := mkTask { work : Work; on_pool : option nat; session : option WireProtocol }.

(** What leaves the shard: observations and acknowledgements. *)
Inductive Output :=
| Observes (obs : Observation)
| AcksLane (part_path : string)
| AcksCommit (job : key) (r : result (option Digest)).

Record Shard := mkShard {
  pools : gmap key nat;
  store : list ConnPool.t;
  lanes : gmap string nat;
  lanes_opened : nat;
  shared_dests : gset key;
  end_flags : gmap AssignmentRef nat;
  flags : list Z;
  tasks : list (option Task);
  sent : list Output }.

#[export] Instance Shard_rebuild : Rebuild Shard := fun s =>
  mkShard (pools s) (store s) (lanes s) (lanes_opened s) (shared_dests s) (end_flags s) (flags s) (tasks s) (sent s).

Definition idle : Shard := mkShard ∅ [] ∅ 0 ∅ ∅ [] [] [].

(** What the loop is told while it handles a command: whether the lane can be
    opened, and what came of a commit. *)
Record Answers := mkAnswers { lane_opens : bool; commit_result : result (option Digest) }.

Definition put (o : Output) (s : Shard) : Shard := s <| sent ::= fun l => l ++ [o] |>.
Definition report (obs : Observation) (s : Shard) : Shard := put (Observes obs) s.
Definition on_store (f : ConnPool.t -> ConnPool.t) (i : nat) (s : Shard) : Shard := s <| store ::= alter f i |>.
Definition spawn (t : Task) (s : Shard) : Shard := s <| tasks ::= fun l => l ++ [Some t] |>.

(** ** Commands *)

(** Observations about a connection that the shard does not have. *)
Definition unknown_connection (job : key) (assignment : AssignmentRef) (attempt : Z) : Observation :=
  AssignmentFailed job assignment attempt (RetrySameRange None "unknown connection") None StateGone StreamFailed.
Definition destination_unavailable (job : key) (assignment : AssignmentRef) (connection : key) : Observation :=
  AssignmentFailed job assignment 0 (Fatal 0 "destination unavailable") (Some connection) StatePoisoned StreamFailed.

(** The lane of a path, opened on first use. *)
Definition lane_for (part_path : string) (opens : bool) (s : Shard) : option (nat * Shard) :=
  match lanes s !! part_path with
  | Some lane => Some (lane, s)
  | None =>
      if opens then Some (lanes_opened s, s <| lanes ::= <[part_path := lanes_opened s]> |> <| lanes_opened ::= Datatypes.S |>)
      else None
  end.

(** The end flag of a range is its end, that of a full body never cuts. *)
Definition start_task (job : key) (assignment : AssignmentRef) (attempt : Z) (connection : key) (range : option ByteRange.t)
    (lane : option nat) (pool : nat) (s : Shard) : Shard :=
  let flag := length (flags s) in
  let limit := match range with Some r => ByteRange.end_ r | None => u64_max end in
  spawn (mkTask (Fetches job assignment attempt connection range lane flag) (Some pool) None)
    (s <| flags ::= fun l => l ++ [limit] |> <| end_flags ::= <[assignment := flag]> |>).

(** What [StartRange] and [StartFullBody] have in common. *)
Definition start_fetch (job : key) (assignment : AssignmentRef) (attempt : Z) (connection : key) (range : option ByteRange.t)
    (part_path : string) (a : Answers) (s : Shard) : Shard :=
  if decide (job ∈ shared_dests s) then
    match pools s !! connection with
    | None => report (unknown_connection job assignment attempt) s
    | Some pool => start_task job assignment attempt connection range None pool s
    end
  else
    match pools s !! connection with
    | None => report (unknown_connection job assignment 0) s
    | Some pool =>
        match lane_for part_path (lane_opens a) s with
        | None => report (destination_unavailable job assignment connection) s
        | Some (lane, s') => start_task job assignment attempt connection range (Some lane) pool s'
        end
    end.

Definition start_range (job : key) (assignment : AssignmentRef) (attempt : Z) (connection : key) (range : ByteRange.t) :=
  start_fetch job assignment attempt connection (Some range).
Definition start_full_body (job : key) (assignment : AssignmentRef) (attempt : Z) (connection : key) :=
  start_fetch job assignment attempt connection None.

Definition start_probe (job connection source_id : key) (s : Shard) : Shard :=
  match pools s !! connection with
  | None => report (ProbeFailed job connection source_id (mkProbeFailure PfTransport 0) StateGone) s
  | Some pool => spawn (mkTask (Probes job connection source_id) (Some pool) None) s
  end.

Definition start_sample (job source_id connection : key) (part_path : string) (a : Answers) (s : Shard) : Shard :=
  match pools s !! connection with
  | None => report (MirrorSampled job source_id connection false false) s
  | Some pool =>
      match lane_for part_path (lane_opens a) s with
      | None => report (MirrorSampled job source_id connection false false) s
      | Some (lane, s') => spawn (mkTask (Samples job source_id connection lane) (Some pool) None) s'
      end
  end.

Definition truncate_assignment (assignment : AssignmentRef) (new_end : Z) (s : Shard) : Shard :=
  match end_flags s !! assignment with
  | Some flag => s <| flags ::= <[flag := new_end]> |>
  | None => s
  end.

Definition commit_observation (job : key) (final_length : Z) (r : result (option Digest)) : Observation :=
  match r with
  | inr digest => DestinationCommitted job final_length digest
  | inl e => DestinationFailed job (destination_failure_from_error e)
  end.

Definition close_connection (connection : key) (s : Shard) : Shard :=
  match pools s !! connection with
  | Some pool => on_store ConnPool.close pool (s <| pools ::= delete connection |>)
  | None => s
  end.

(** The body of the loop. *)
Definition on_command (cmd : ShardCommand) (a : Answers) (s : Shard) : Shard :=
  match cmd with
  | CmdOpenConnection connection _ _ => spawn (mkTask (Connects connection) None None) s
  | CmdProbe job connection source_id _ _ => start_probe job connection source_id s
  | CmdStartRange job assignment attempt range _ _ _ connection _ _ part_path _ _ _ =>
      start_range job assignment attempt connection range part_path a s
  | CmdStartFullBody job attempt assignment connection _ _ part_path _ _ _ _ =>
      start_full_body job assignment attempt connection part_path a s
  | CmdSampleMirror job source_id connection _ _ part_path _ _ => start_sample job source_id connection part_path a s
  | CmdCloseLane part_path => put (AcksLane part_path) (s <| lanes ::= delete part_path |>)
  | CmdTruncateAssignment _ assignment _ new_end => truncate_assignment assignment new_end s
  | CmdCommitDestination job part_path _ final_length _ _ =>
      report (commit_observation job final_length (commit_result a)) (s <| lanes ::= delete part_path |>)
  | CmdAttachDestination job => s <| shared_dests ::= union {[job]} |>
  | CmdCommitSharedDestination job _ _ =>
      let r := if decide (job ∈ shared_dests s) then commit_result a
               else inl (destination "shared destination missing at commit") in
      put (AcksCommit job r) (s <| shared_dests ::= fun d => d ∖ {[job]} |>)
  | CmdCloseConnection connection => close_connection connection s
  end.

(** ** Tasks *)

(** Of a probe's result, what is reported. *)
Inductive ProbeOutcome :=
| ProbeReady (supports_ranges : bool) (total_length : option Z) (etag : option string) (last_modified : option Z)
    (connection_reusable compressed : bool) (alt_svc_h3_port : option Z)
| ProbeRedirect (status : Z) (location : string) (connection_close : bool).

Definition end_task (i : nat) (s : Shard) : Shard := s <| tasks ::= <[i := None]> |>.
Definition drop_flag (assignment : AssignmentRef) (s : Shard) : Shard := s <| end_flags ::= delete assignment |>.

(** The dial of a connection; [None] when the QUIC endpoint cannot be bound. *)
Definition dialed (i : nat) (connection : key) (r : option (result (WireProtocol * Z))) (s : Shard) : Shard :=
  let s' := end_task i s in
  match r with
  | Some (inr (w, handshake)) =>
      report (ConnectionReady connection handshake (Protocol_from w))
        (s' <| pools ::= <[connection := length (store s)]> |> <| store ::= fun l => l ++ [ConnPool.new (mkPhysical w true)] |>)
  | Some (inl e) => report (ConnectionFailed connection (connect_failure_kind e)) s'
  | None => report (ConnectionFailed connection CfOther) s'
  end.

Definition connection_state_of (w : WireProtocol) (r : result (TransferSample.t * bool)) : ConnectionState :=
  match r with
  | inr (_, true) => StateReusable
  | inr (_, false) => StatePoisoned
  | inl e => failure_connection_state w e
  end.

Definition verified_range (range : option ByteRange.t) (bytes : Z) : ByteRange.t :=
  match range with
  | Some r => ByteRange.new (ByteRange.start r) (ByteRange.start r +% bytes)
  | None => ByteRange.new 0 bytes
  end.

Definition fetch_report (job : key) (assignment : AssignmentRef) (attempt : Z) (connection : key) (range : option ByteRange.t)
    (r : result (TransferSample.t * bool)) (st : ConnectionState) : Observation :=
  match r with
  | inr (sample, reusable) =>
      AssignmentVerified job assignment (verified_range range (TransferSample.bytes sample)) sample connection reusable
  | inl e => AssignmentFailed job assignment attempt (classify_transport_error e) (Some connection) st StreamFailed
  end.

Definition probe_report (job connection source_id : key) (r : result ProbeOutcome) (alive : bool) : Observation :=
  match r with
  | inr (ProbeReady ranges total etag lm _ compressed alt) =>
      Probed job connection source_id ranges total etag lm (alive && negb compressed) alt
  | inr (ProbeRedirect status location _) => ProbeRedirected job connection status location
  | inl e =>
      ProbeFailed job connection source_id (probe_failure_from_error e)
        (if is_destination_error e then StateReusable else StatePoisoned)
  end.

(** A session that may be used again goes back; otherwise the pool is retired,
    in some tasks only if the job is not cancelled. *)
Definition give_back (pool : nat) (reusable retires : bool) (s : Shard) : Shard :=
  if reusable then on_store ConnPool.release pool s
  else if retires then on_store ConnPool.retire pool s else s.

Definition probe_reusable (r : result ProbeOutcome) : bool :=
  match r with
  | inr (ProbeReady _ _ _ _ reusable compressed _) => reusable && negb compressed
  | inr (ProbeRedirect _ _ close) => negb close
  | inl _ => false
  end.

(** What is reported when the pool has no session to give. *)
Definition refused (i : nat) (w : Work) (s : Shard) : Shard :=
  match w with
  | Fetches job assignment attempt connection range _ _ =>
      report (fetch_report job assignment attempt connection range (inl pool_retired) StateGone) (drop_flag assignment (end_task i s))
  | Probes job connection source_id => report (probe_report job connection source_id (inl pool_retired) false) (end_task i s)
  | Samples job source_id connection _ => report (MirrorSampled job source_id connection false false) (end_task i s)
  | Connects _ => s
  end.

(** A task that waits for a session is polled. *)
Definition poll_task (i : nat) (t : Task) (pool : nat) (s : Shard) : Shard :=
  match store s !! pool with
  | None => s
  | Some p =>
      match ConnPool.acquire p with
      | ConnPool.Session w p' => s <| store ::= <[pool := p']> |> <| tasks ::= <[i := Some (mkTask (work t) (Some pool) (Some w))]> |>
      | ConnPool.Pending => s
      | ConnPool.Retired => refused i (work t) s
      end
  end.

(** What becomes of the session when a fetch has ended with [st]: into a lane
    ([run_range], [run_full_body]), or into a shared destination. *)
Definition run_range (pool : nat) (st : ConnectionState) (s : Shard) : Shard :=
  give_back pool (match st with StateReusable => true | _ => false end) true s.
Definition run_full_body (pool : nat) (st : ConnectionState) (s : Shard) : Shard := run_range pool st s.
Definition run_shared (pool : nat) (st : ConnectionState) (cancelled : bool) (s : Shard) : Shard :=
  give_back pool (match st with StateReusable => true | _ => false end) (negb cancelled) s.
Definition run_shared_full_body (pool : nat) (st : ConnectionState) (cancelled : bool) (s : Shard) : Shard := run_shared pool st cancelled s.

Definition session_ends (range : option ByteRange.t) (lane : option nat) (pool : nat) (st : ConnectionState) (cancelled : bool) (s : Shard) : Shard :=
  match lane, range with
  | Some _, Some _ => run_range pool st s
  | Some _, None => run_full_body pool st s
  | None, Some _ => run_shared pool st cancelled s
  | None, None => run_shared_full_body pool st cancelled s
  end.

Definition fetched (i : nat) (job : key) (assignment : AssignmentRef) (attempt : Z) (connection : key) (range : option ByteRange.t)
    (lane : option nat) (pool : nat) (w : WireProtocol) (r : result (TransferSample.t * bool)) (cancelled : bool) (s : Shard) : Shard :=
  let st := connection_state_of w r in
  report (fetch_report job assignment attempt connection range r st)
    (drop_flag assignment (session_ends range lane pool st cancelled (end_task i s))).

Definition probed (i : nat) (job connection source_id : key) (pool : nat) (r : result ProbeOutcome) (cancelled : bool) (s : Shard) : Shard :=
  let alive := probe_reusable r in
  report (probe_report job connection source_id r alive) (give_back pool alive (negb cancelled) (end_task i s)).

(** [r] is the fetch of the sample: whether it compared equal, and if the
    connection can be used again. *)
Definition sampled (i : nat) (job source_id connection : key) (pool : nat) (r : result bool) (cancelled : bool) (s : Shard) : Shard :=
  let reusable := match r with inr b => b | inl _ => false end in
  report (MirrorSampled job source_id connection (match r with inr _ => true | inl _ => false end) reusable)
    (give_back pool reusable (negb cancelled) (end_task i s)).

(** ** Runs

    The loop and the tasks in any order; [None] when the event cannot happen. *)

Inductive event :=
| Receives (cmd : ShardCommand) (a : Answers)
| Dialed (task : nat) (r : option (result (WireProtocol * Z)))
| Polled (task : nat)
| Fetched (task : nat) (r : result (TransferSample.t * bool)) (cancelled : bool)
| ProbeEnded (task : nat) (r : result ProbeOutcome) (cancelled : bool)
| SampleEnded (task : nat) (r : result bool) (cancelled : bool).

Definition task_at (i : nat) (s : Shard) : option Task := mjoin (tasks s !! i).

Definition step (s : Shard) (e : event) : option Shard :=
  match e with
  | Receives cmd a => Some (on_command cmd a s)
  | Dialed i r =>
      match task_at i s with
      | Some (mkTask (Connects connection) None None) => Some (dialed i connection r s)
      | _ => None
      end
  | Polled i =>
      match task_at i s with
      | Some (mkTask w (Some pool) None) => Some (poll_task i (mkTask w (Some pool) None) pool s)
      | _ => None
      end
  | Fetched i r cancelled =>
      match task_at i s with
      | Some (mkTask (Fetches job assignment attempt connection range lane _) (Some pool) (Some w)) =>
          Some (fetched i job assignment attempt connection range lane pool w r cancelled s)
      | _ => None
      end
  | ProbeEnded i r cancelled =>
      match task_at i s with
      | Some (mkTask (Probes job connection source_id) (Some pool) (Some w)) => Some (probed i job connection source_id pool r cancelled s)
      | _ => None
      end
  | SampleEnded i r cancelled =>
      match task_at i s with
      | Some (mkTask (Samples job source_id connection _) (Some pool) (Some w)) =>
          Some (sampled i job source_id connection pool r cancelled s)
      | _ => None
      end
  end.

Fixpoint run (es : list event) (s : Shard) : option Shard :=
  match es with
  | [] => Some s
  | e :: es' => match step s e with Some s' => run es' s' | None => None end
  end.

(** The loop has ended: the pools are closed and the lanes let go. *)
Definition finish_service (s : Shard) : Shard :=
  (foldr (fun kp => on_store ConnPool.close kp.2) s (map_to_list (pools s))) <| pools := ∅ |> <| lanes := ∅ |>.
End shard.
