(* ===== verification/Wire.v ===== *)
(** * Connections on the wire ([net/connector.rs], [net/h3.rs], [net/tls.rs], [net/tcp.rs], [net/body.rs]).

    Dialling, the one entry point for a request over any protocol, and the body
    of a response as a source of DATA. What the protocol libraries answer is an
    argument, with the time of the answer; the decisions are the code's. The
    last section makes the body the environment of [Fetch]. *)

From Stdlib Require Import String Mergesort Orders.
From S2P Require Import Prelude Fetch Float Errors Reorder Representation Commands Shard.
Local Open Scope Z_scope.

(** ** Dialling *)

Record TcpTuning := mkTcpTuning {
  nodelay : bool; quickack : bool; send_buffer : option Z; recv_buffer : option Z; user_timeout : option Z;
  notsent_lowat : option Z; keepalive : option Z }.
Definition TcpTuning_default : TcpTuning :=
  mkTcpTuning true true None None (Some (from_secs 30)) (Some (128 * 1024)) (Some (from_secs 60)).

Record ConnectorConfig := mkConnectorConfig {
  tcp : TcpTuning; connect_timeout : Z; h2_initial_stream_window : Z; h2_initial_conn_window : Z; h2_adaptive_window : bool;
  h2_max_frame_size : Z; h1_read_buf : Z; h2_read_buf : Z; h1_writev : bool; force_http1 : bool; prior_knowledge_http2 : bool;
  danger_accept_invalid_certs : bool }.
Definition ConnectorConfig_default : ConnectorConfig :=
  mkConnectorConfig TcpTuning_default (from_secs 15) (8 * 1024 * 1024) (32 * 1024 * 1024) false (1024 * 1024) (256 * 1024)
    (1024 * 1024) true false false false.

(** The protocols a client offers, in its order of preference. *)
Record TlsSetup := mkTls { alpn_protocols : list string }.
Definition default_client : TlsSetup := mkTls ["h2"; "http/1.1"]%string.
Definition http1_only : TlsSetup := mkTls ["http/1.1"]%string.

Record ConnectMetrics := mkConnectMetrics { tcp_handshake : Z; tls_handshake : Z; m_protocol : WireProtocol }.

(** What hyper is told before a handshake; setting a window turns adaptive windows off. *)
Inductive HttpSettings :=
| H1Settings (writev : bool) (max_buf_size : Z) (preserve_header_case : bool)
| H2Settings (max_frame_size : Z) (adaptive_window : bool) (windows : option (Z * Z)).

(** What the network says to a dial, and when. [None]: the timer was first. *)
Record Dial := mkDial {
  d_start : Z; d_tcp : option (ErrorKind + unit); d_tcp_at : Z;
  d_tls : TlsSetup -> ErrorKind + option string; d_tls_at : Z;
  d_http : HttpSettings -> string + unit }.

Definition handshake_h1 (cfg : ConnectorConfig) (d : Dial) : result PhysicalConnection :=
  match d_http d (H1Settings (h1_writev cfg) (h1_read_buf cfg) false) with
  | inr _ => inr (mkPhysical Fetch.Http1 true)
  | inl e => inl (Errors.Http (Errors.Protocol ("h1 handshake: " +:+ e)))
  end.

Definition handshake_h2 (cfg : ConnectorConfig) (d : Dial) : result PhysicalConnection :=
  match d_http d (H2Settings (h2_max_frame_size cfg) (h2_adaptive_window cfg)
                    (if h2_adaptive_window cfg then None else Some (h2_initial_stream_window cfg, h2_initial_conn_window cfg))) with
  | inr _ => inr (mkPhysical Fetch.Http2 true)
  | inl e => inl (Errors.Http (Errors.Protocol ("h2 handshake: " +:+ e)))
  end.

Definition handshake (cfg : ConnectorConfig) (p : WireProtocol) (d : Dial) : result PhysicalConnection :=
  match p with Fetch.Http2 => handshake_h2 cfg d | _ => handshake_h1 cfg d end.

(** [Connector::connect]. *)
Definition connect (cfg : ConnectorConfig) (tls : bool) (d : Dial) : result (PhysicalConnection * ConnectMetrics) :=
  match d_tcp d with
  | None => inl DeadlineExceeded
  | Some (inl e) => inl (Transport (TransportIo e))
  | Some (inr _) =>
      let tcp_time := d_tcp_at d - d_start d in
      if negb tls then
        let p := if prior_knowledge_http2 cfg then Fetch.Http2 else Fetch.Http1 in
        match handshake cfg p d with
        | inl e => inl e
        | inr conn => inr (conn, mkConnectMetrics tcp_time 0 p)
        end
      else
        match d_tls d (if force_http1 cfg then http1_only else default_client) with
        | inl e => inl (Transport (TransportIo e))
        | inr negotiated =>
            let p := if bool_decide (negotiated = Some "h2"%string) && negb (force_http1 cfg) then Fetch.Http2 else Fetch.Http1 in
            match handshake cfg p d with
            | inl e => inl e
            | inr conn => inr (conn, mkConnectMetrics tcp_time (d_tls_at d - d_tcp_at d) p)
            end
        end
  end.

(** What QUIC says to a dial. *)
Record QuicDial := mkQuicDial {
  q_start : Z; q_config : string + unit; q_connect : string + unit; q_handshake : option (string + unit); q_http3 : string + unit; q_at : Z }.

Definition open_h3 (d : QuicDial) : result PhysicalConnection :=
  match q_connect d with
  | inl e => inl (Transport (TlsError ("quic connect: " +:+ e)))
  | inr _ =>
      match q_handshake d with
      | None => inl (Transport ConnectTimeout)
      | Some (inl e) => inl (Transport (TlsError ("quic handshake: " +:+ e)))
      | Some (inr _) =>
          match q_http3 d with
          | inl e => inl (Transport (ConnectionRetired ("h3 handshake: " +:+ e)))
          | inr _ => inr (mkPhysical Fetch.Http3 true)
          end
      end
  end.

Definition client_config (q : string + unit) (accept_invalid_certs : bool) : option unit :=
  if accept_invalid_certs then Some tt else match q with inr _ => Some tt | inl _ => None end.

(** [h3_config]: what the first dial made of it is kept. *)
Definition connect_h3 (cfg : ConnectorConfig) (h3_config : option (option unit)) (d : QuicDial) :
    option (option unit) * result (PhysicalConnection * ConnectMetrics) :=
  let built := match h3_config with Some c => c | None => client_config (q_config d) (danger_accept_invalid_certs cfg) end in
  (Some built,
   match built with
   | None => inl (Transport (TlsError "h3 client TLS configuration unavailable"))
   | Some _ =>
       match open_h3 d with
       | inl e => inl e
       | inr conn => inr (conn, mkConnectMetrics (q_at d - q_start d) 0 Fetch.Http3)
       end
   end).

(** [is_ready], [is_closed] of a connection; [ready] and [gone] are the sender's. *)
Definition is_ready (c : PhysicalConnection) (ready : bool) : bool :=
  match wire c with Fetch.Http1 => sender c && ready | Fetch.Http2 => ready | Fetch.Http3 => true end.
Definition is_closed (c : PhysicalConnection) (gone : bool) : bool :=
  match wire c with Fetch.Http1 => negb (sender c) || gone | Fetch.Http2 => gone | Fetch.Http3 => false end.
Definition session_is_closed (p : WireProtocol) (gone : bool) : bool :=
  match p with Fetch.Http1 | Fetch.Http2 => gone | Fetch.Http3 => false end.

(** ** Request bodies *)

Module EngineBody.
Record t := mk { inner : option (list Z) }.
Definition empty : t := mk None.
Definition from_bytes (b : list Z) : t := mk (Some b).
Definition poll_frame (b : t) : t * option (list Z) := (mk None, inner b).
Definition is_end_stream (b : t) : bool := match inner b with None => true | _ => false end.
Definition size_hint (b : t) : Z := match inner b with Some d => Z.of_nat (length d) | None => 0 end.
End EngineBody.

(** ** Response bodies *)

Module BodyWireStats.
Record t := mk {
  data_frames : Z; copy_count : Z; copied_bytes : Z; pending : Z; max_gap : Z; frame_sizes : list Z;
  pending_since : option Z; last_frame : option Z }.
#[export] Instance rebuild : Rebuild t := fun s =>
  mk (data_frames s) (copy_count s) (copied_bytes s) (pending s) (max_gap s) (frame_sizes s) (pending_since s) (last_frame s).
Definition default : t := mk 0 0 0 0 0 [] None None.

Definition u32_max : Z := 4294967295.

(** The clock is read once, where the code reads it for each difference. *)
Definition note_frame (now len : Z) (s : t) : t :=
  let s := match pending_since s with Some since => s <| pending ::= Z.add (now - since) |> <| pending_since := None |> | None => s end in
  let s := match last_frame s with Some last => s <| max_gap ::= Z.max (now - last) |> | None => s end in
  s <| last_frame := Some now |> <| data_frames ::= Z.add 1 |> <| frame_sizes ::= fun l => l ++ [Z.min len u32_max] |>.

Definition note_pending (now : Z) (s : t) : t :=
  match pending_since s with None => s <| pending_since := Some now |> | Some _ => s end.

Definition note_copy (len : Z) (s : t) : t := s <| copy_count ::= Z.add 1 |> <| copied_bytes ::= Z.add len |>.

Definition avg_frame (s : t) : Z :=
  if data_frames s =? 0 then 0 else (foldl Z.add 0 (frame_sizes s) / data_frames s) mod 4294967296.

(** [f64::round], then a saturating cast. *)
Definition round_to_usize (x : f64) : Z :=
  let n := f64_to_u64 x in if f64_leb f64_half (f64_sub x (f64_of_Z n)) then n + 1 else n.

Definition frame_percentile (p : f64) (s : t) : Z :=
  match frame_sizes s with
  | [] => 0
  | _ :: _ =>
      let v := merge_sort Z.le (frame_sizes s) in
      let n := Z.of_nat (length v) in
      let i := round_to_usize (f64_mul (f64_div p (f64_of_Z 100)) (f64_sub (f64_of_Z n) f64_one)) in
      v !!! Z.to_nat (Z.min i (n - 1))
  end.
End BodyWireStats.

(** One poll of a body of hyper. *)
Inductive event := FrameData (b : list byte) | FrameTrailers | NotYet.

(** What the library of a body still answers before the body ends, each with its
    time: hyper to [poll_frame], and h3 to [recv_data], whose answers with data
    are all there is to see of it. *)
Inductive WireBodyInner := Hyper (polls : list (Z * event)) | H3 (received : list (Z * list byte)).

(** [ending]: how the library says that the body is over, and says from then on. *)
Record WireBody := mkBody { inner : WireBodyInner; ending : string + unit; stats : BodyWireStats.t }.

Definition hyper (polls : list (Z * event)) (ending : string + unit) : WireBody := mkBody (Hyper polls) ending BodyWireStats.default.
Definition h3_body (received : list (Z * list byte)) (ending : string + unit) : WireBody := mkBody (H3 received) ending BodyWireStats.default.

(** How many answers there are still to come. *)
Definition to_come (i : WireBodyInner) : nat := match i with Hyper es => length es | H3 ds => length ds end.
Definition is_h3 (b : WireBody) : bool := match inner b with H3 _ => true | Hyper _ => false end.

Definition ended (text : string) (ending : string + unit) : result (option (list byte)) :=
  match ending with inl e => inl (Transport (ConnectionRetired (text +:+ e))) | inr _ => inr None end.

(** [poll_hyper_frame]; [None] is [Pending]. *)
Fixpoint poll_hyper_frame (es : list (Z * event)) (ending : string + unit) (st : BodyWireStats.t) :
    list (Z * event) * BodyWireStats.t * option (result (option (list byte))) :=
  match es with
  | [] => ([], st, Some (ended "body error: " ending))
  | (_, FrameTrailers) :: es' | (_, FrameData []) :: es' => poll_hyper_frame es' ending st
  | (now, FrameData d) :: es' => (es', BodyWireStats.note_frame now (Z.of_nat (length d)) st, Some (inr (Some d)))
  | (now, NotYet) :: es' => (es', BodyWireStats.note_pending now st, None)
  end.

(** Polled until it is ready. *)
Fixpoint next_hyper (fuel : nat) (es : list (Z * event)) (ending : string + unit) (st : BodyWireStats.t) :
    list (Z * event) * BodyWireStats.t * result (option (list byte)) :=
  match poll_hyper_frame es ending st with
  | (es', st', Some r) => (es', st', r)
  | (es', st', None) => match fuel with O => (es', st', inr None) | Datatypes.S fuel' => next_hyper fuel' es' ending st' end
  end.

Definition next_data (b : WireBody) : WireBody * result (option (list byte)) :=
  match inner b with
  | Hyper es =>
      let '(es', st, r) := next_hyper (length es) es (ending b) (stats b) in
      (mkBody (Hyper es') (ending b) st, r)
  | H3 ((now, d) :: ds) =>
      let n := Z.of_nat (length d) in
      (mkBody (H3 ds) (ending b) (BodyWireStats.note_copy n (BodyWireStats.note_frame now n (stats b))), inr (Some d))
  | H3 [] => (b, ended "h3 body error: " (ending b))
  end.

(** [discard]; every turn takes a frame. *)
Fixpoint discard_turns (fuel : nat) (b : WireBody) : WireBody :=
  match fuel with
  | O => b
  | Datatypes.S fuel' =>
      match next_data b with
      | (b', inr (Some (_ :: _))) => discard_turns fuel' b'
      | (b', _) => b'
      end
  end.
Definition discard (b : WireBody) : WireBody := discard_turns (Datatypes.S (to_come (inner b))) b.

(** ** Requests *)

Section requests.
Context {H : HeaderMapLib}.

Record WireResponse := mkWireResponse { w_head : Response; w_body : WireBody; send_ready : Z; header_wait : Z }.

(** The head of a response, with what its body answers: [x_polls] when it is
    hyper's, [x_received] when it is h3's. *)
Record Answer := mkAnswer { x_head : Response; x_polls : list (Z * event); x_received : list (Z * list byte); x_ending : string + unit }.

(** How an exchange goes: when the sender was ready, and when the head came. *)
Record Exchange := mkExchange { x_start : Z; x_ready : Z * (string + unit); x_answer : Z * (string + Answer) }.

Definition retired (text e : string) : Error := Transport (ConnectionRetired (text +:+ e)).

(** [send_get]; over HTTP/3 the request is sent where the others wait for room. *)
Definition send_get (p : WireProtocol) (x : Exchange) : result WireResponse :=
  let '(ready_text, answer_text) := match p with
    | Fetch.Http3 => ("h3 send_request: ", "h3 recv_response: ")
    | _ => ("request failed: ", "request failed: ") end%string in
  match (x_ready x).2 with
  | inl e => inl (retired ready_text e)
  | inr _ =>
      match (x_answer x).2 with
      | inl e => inl (retired answer_text e)
      | inr a =>
          inr (mkWireResponse (x_head a)
                 (match p with Fetch.Http3 => h3_body (x_received a) (x_ending a) | _ => hyper (x_polls a) (x_ending a) end)
                 ((x_ready x).1 - x_start x) ((x_answer x).1 - (x_ready x).1))
      end
  end.
End requests.

(** ** The body as the environment of a fetch *)

Section over_wire.
Context {H : HeaderMapLib} {W : Type} (E : Env W).

(** The connection of a fetch, its answer to come, what its body has yielded, and
    the rest of the engine. *)
Record World := mkWorld { body : WireBody; exchange : Exchange; yielded : list byte; rest : W }.

Definition at_rest {A} (f : W -> W * A) (w : World) : World * A :=
  let '(v, a) := f (rest w) in (mkWorld (body w) (exchange w) (yielded w) v, a).

(** [E] with its connection replaced by one on the wire. *)
Definition over_wire : Env World := {|
  Fetch.send_get _ w :=
    match send_get (protocol_of E (rest w)) (exchange w) with
    | inl e => (w, inl e)
    | inr r => (mkWorld (w_body r) (exchange w) [] (rest w), inr (w_head r))
    end;
  Fetch.next_data w :=
    let '(b, r) := next_data (body w) in
    (mkWorld b (exchange w) (yielded w ++ (match r with inr (Some d) => d | _ => [] end)) (rest w), r);
  end_offset := at_rest (end_offset E);
  acquire_memory n := at_rest (acquire_memory E n);
  sink_accept c := at_rest (sink_accept E c);
  sink_finish := at_rest (sink_finish E);
  rep_lock w := rep_lock E (rest w);
  set_rep_lock l w := mkWorld (body w) (exchange w) (yielded w) (set_rep_lock E l (rest w));
  protocol_of w := protocol_of E (rest w);
  sender_is_ready w := sender_is_ready E (rest w);
  sender_is_closed w := session_is_closed (protocol_of E (rest w)) (sender_is_closed E (rest w));
  memory_limit := memory_limit E; max_chunk_size := max_chunk_size E; user_agent := user_agent E;
  parse_http_date := parse_http_date E; now w := now E (rest w) |}.
End over_wire.

(** ** Properties *)

(** What is left to read of a body: the non-empty DATA frames of hyper, and
    whatever h3 receives. *)
Definition payloads (b : WireBody) : list (list byte) :=
  match inner b with
  | Hyper es => es ≫= fun e => match e.2 with FrameData (x :: d) => [x :: d] | _ => [] end
  | H3 ds => ds.*2
  end.

(** The counts, and what one more chunk makes of them. *)
Definition counts (st : BodyWireStats.t) : Z * list Z * Z :=
  (BodyWireStats.data_frames st, BodyWireStats.frame_sizes st, BodyWireStats.copied_bytes st).
Definition counted (copies : bool) (d : list byte) (c : Z * list Z * Z) : Z * list Z * Z :=
  (1 + c.1.1, c.1.2 ++ [Z.min (Z.of_nat (length d)) BodyWireStats.u32_max], if copies then Z.of_nat (length d) + c.2 else c.2).

Lemma note_frame_counts t d st : counts (BodyWireStats.note_frame t (Z.of_nat (length d)) st) = counted false d (counts st).
Proof. unfold BodyWireStats.note_frame. destruct st as [? ? ? ? ? ? [?|] [?|]]; reflexivity. Qed.
Lemma note_copy_counts t d st :
  counts (BodyWireStats.note_copy (Z.of_nat (length d)) (BodyWireStats.note_frame t (Z.of_nat (length d)) st)) = counted true d (counts st).
Proof. unfold BodyWireStats.note_frame. destruct st as [? ? ? ? ? ? [?|] [?|]]; reflexivity. Qed.
Lemma note_pending_counts t st : counts (BodyWireStats.note_pending t st) = counts st.
Proof. unfold BodyWireStats.note_pending. by destruct (BodyWireStats.pending_since st). Qed.

(** A chunk is the next one to read; an answer without one is the end. *)
Definition reads_on (b b' : WireBody) (r : result (option (list byte))) : Prop :=
  ending b' = ending b /\ is_h3 b' = is_h3 b /\
  match r with
  | inr (Some d) => (to_come (inner b') < to_come (inner b))%nat /\ payloads b = d :: payloads b' /\
      counts (stats b') = counted (is_h3 b) d (counts (stats b))
  | _ => to_come (inner b') = 0%nat /\ payloads b = [] /\ counts (stats b') = counts (stats b) /\
      r = ended (if is_h3 b then "h3 body error: " else "body error: ") (ending b)
  end.

Lemma poll_hyper_frame_spec es fin st : match poll_hyper_frame es fin st with
  | (es', st', Some r) => reads_on (mkBody (Hyper es) fin st) (mkBody (Hyper es') fin st') r
  | (es', st', None) => (length es' < length es)%nat /\ payloads (mkBody (Hyper es) fin st) = payloads (mkBody (Hyper es') fin st') /\ counts st' = counts st
  end.
Proof.
  revert st. induction es as [|[t e] es IH]; intros st; [by destruct fin|]. destruct e as [[|x d]| |]; cbn.
  1,3: specialize (IH st); unfold reads_on in *; destruct (poll_hyper_frame es fin st) as [[es' st'] [[?|[d'|]]|]]; cbn in *; intuition lia.
  - unfold reads_on. cbn. split_and!; [done..|lia|done|apply (note_frame_counts t (x :: d))].
  - split_and!; [lia|done|apply note_pending_counts].
Qed.

(** A body of so many polls needs no more turns. *)
Lemma next_hyper_spec fuel es fin st : (length es <= fuel)%nat -> match next_hyper fuel es fin st with
  | (es', st', r) => reads_on (mkBody (Hyper es) fin st) (mkBody (Hyper es') fin st') r
  end.
Proof.
  revert es st. induction fuel as [|fuel IH]; intros es st Hf; cbn [next_hyper]; pose proof (poll_hyper_frame_spec es fin st) as Hp;
    destruct (poll_hyper_frame es fin st) as [[es' st'] [r|]]; try done; destruct Hp as (H1&H2&H3); [lia|].
  specialize (IH es' st' ltac:(lia)). destruct (next_hyper fuel es' fin st') as [[es2 st2] r].
  unfold reads_on in *. cbn in *. rewrite H2, <- H3. destruct IH as (?&?&I). split_and!; [done..|]. destruct r as [?|[d|]]; [done| |done].
  destruct I as (?&?&?). split_and!; [lia|done..].
Qed.

Lemma next_data_spec b b' r : next_data b = (b', r) -> reads_on b b' r.
Proof.
  unfold next_data. destruct b as [[es|[|[t d] ds]] fin st]; cbn [inner ending stats].
  - pose proof (next_hyper_spec (length es) es fin st (Nat.le_refl _)) as Hs. destruct (next_hyper _ es fin st) as [[es' st'] r'].
    by intros [= <- <-].
  - intros [= <- <-]. by destruct fin.
  - intros [= <- <-]. unfold reads_on. cbn -[Z.of_nat]. split_and!; [done..|lia|done|by apply (note_copy_counts t)].
Qed.

(** Reading to the end. *)
Fixpoint read_all (fuel : nat) (b : WireBody) : WireBody * list (list byte) * result unit :=
  match fuel with
  | O => (b, [], inr tt)
  | Datatypes.S fuel' =>
      match next_data b with
      | (b', inr (Some d)) => let '(b2, ds, r) := read_all fuel' b' in (b2, d :: ds, r)
      | (b', inr None) => (b', [], inr tt)
      | (b', inl e) => (b', [], inl e)
      end
  end.

Module WireSpec.

Lemma counted_all copies ds c : foldl (fun c d => counted copies d c) c ds =
  (c.1.1 + Z.of_nat (length ds), c.1.2 ++ ((fun d => Z.min (Z.of_nat (length d)) BodyWireStats.u32_max) <$> ds),
   if copies then c.2 + Z.of_nat (length (concat ds)) else c.2).
Proof.
  revert c. induction ds as [|d ds IH]; intros [[n l] k]; cbn [foldl].
  - cbn. rewrite app_nil_r, !Z.add_0_r. by destruct copies.
  - rewrite IH. unfold counted. cbn -[Z.of_nat]. rewrite <- app_assoc, length_app. cbn -[Z.of_nat]. f_equal; [f_equal; lia|].
    destruct copies; lia.
Qed.

(** C37. Reading a response body to its end yields what the library of the protocol
    received, in order and nothing else: of hyper the non-empty DATA frames,
    however they are interleaved with waiting, empty frames and trailers, of h3
    every chunk, empty ones too. Then comes the end, or the error that the body
    ends with as a retired connection. The reader returns after as many turns
    as there are answers; the frames are counted as they are, and the bytes
    copied are none, or over HTTP/3 all. *)
Theorem body_is_read_to_its_end b : let '(b', ds, r) := read_all (Datatypes.S (to_come (inner b))) b in
  ds = payloads b /\ to_come (inner b') = 0%nat /\
  r = (match ending b with inr _ => inr tt | inl e => inl (retired (if is_h3 b then "h3 body error: " else "body error: ") e) end) /\
  BodyWireStats.data_frames (stats b') = BodyWireStats.data_frames (stats b) + Z.of_nat (length ds) /\
  BodyWireStats.copied_bytes (stats b') = BodyWireStats.copied_bytes (stats b) + (if is_h3 b then Z.of_nat (length (concat ds)) else 0).
Proof.
  assert (Hall : forall fuel b, (to_come (inner b) < fuel)%nat -> let '(b', ds, r) := read_all fuel b in
    ds = payloads b /\ to_come (inner b') = 0%nat /\
    r = (match ending b with inr _ => inr tt | inl e => inl (retired (if is_h3 b then "h3 body error: " else "body error: ") e) end) /\
    counts (stats b') = foldl (fun c d => counted (is_h3 b) d c) (counts (stats b)) ds).
  { clear b. induction fuel as [|fuel IH]; intros b Hf; [lia|]. cbn [read_all].
    destruct (next_data b) as [b' r] eqn:E. apply next_data_spec in E as (He&Hh&Hr). destruct r as [e|[d|]].
    - destruct Hr as (?&->&Hc&Hx). split_and!; [done..| |done]. unfold ended in Hx. destruct (ending b); [|done]. injection Hx as ->. done.
    - destruct Hr as (Hl&Hp&Hc). specialize (IH b' ltac:(lia)). destruct (read_all fuel b') as [[b2 ds] r]. destruct IH as (->&?&->&Hc').
      rewrite Hh, He in *. split_and!; [done..|by rewrite Hc', Hc].
    - destruct Hr as (?&->&Hc&Hx). split_and!; [done..| |done]. unfold ended in Hx. by destruct (ending b). }
  specialize (Hall _ b (Nat.lt_succ_diag_r _)). destruct (read_all _ b) as [[b' ds] r]. destruct Hall as (->&?&->&Hc).
  rewrite counted_all in Hc. unfold counts in Hc. cbn in Hc. injection Hc as -> _ ->. split_and!; try done. destruct (is_h3 b); lia.
Qed.

(** Over TCP a discarded body is read to its end. *)
Lemma discard_drains b : is_h3 b = false -> to_come (inner (discard b)) = 0%nat.
Proof.
  unfold discard. assert (Hall : forall fuel b, (to_come (inner b) < fuel)%nat -> is_h3 b = false -> to_come (inner (discard_turns fuel b)) = 0%nat);
    [|intros Hh; apply Hall; [lia|done]].
  clear b. induction fuel as [|fuel IH]; intros b Hf Hh; [lia|]. cbn [discard_turns].
  destruct (next_data b) as [b' r] eqn:E. apply next_data_spec in E as (He&Hh'&Hr). rewrite Hh in *.
  destruct r as [e|[[|x d]|]]; [by destruct Hr| | |by destruct Hr].
  - exfalso. destruct Hr as (_&Hp&_). assert (Hin : [] ∈ payloads b) by (rewrite Hp; by left).
    unfold is_h3 in Hh. unfold payloads in Hin. destruct (inner b); [|done].
    apply list_elem_of_bind in Hin as ([t [[|? ?]| |]]&Hin&_); cbn in Hin; set_solver.
  - destruct Hr as (Hl&_&_). apply IH; [lia|done].
Qed.

(** Over HTTP/3 an empty chunk ends it. *)
Lemma discard_stops_at_empty_frame :
  inner (discard (h3_body [(0, []); (1, [7])] (inr tt))) = H3 [(1, [7])].
Proof. reflexivity. Qed.
End WireSpec.

Section environment.
Context {H : HeaderMapLib} {W : Type} (E : Env W) (log : W -> list TransferChunk) (stream : W -> list byte) `{!EnvLaws E log stream}.

(** The wire keeps what a fetch relies on. *)
#[export] Instance over_wire_laws : EnvLaws (over_wire E) (fun w => log (rest w)) yielded.
Proof.
  destruct EnvLaws0 as [_ _ L3 L4 L5 L6 L7 L8]. split; cbn; unfold at_rest.
  - intros h w w' r. destruct (send_get _ _) as [e|x]; intros [= <- <-]; (split; [done|]); by intros ? [=].
  - intros w w' r. destruct (next_data (body w)) as [b r']. intros [= <- <-]. by split.
  - intros w w' e. destruct (end_offset E (rest w)) as [v a] eqn:Ev. intros [= <- <-]. split; [|done]. by apply (L3 _ _ _ Ev).
  - intros n w w' r. destruct (acquire_memory E n (rest w)) as [v a] eqn:Ev. intros [= <- <-]. split; [|by destruct a]. by apply (L4 _ _ _ _ Ev).
  - intros c w w' r. destruct (sink_accept E c (rest w)) as [v a] eqn:Ev. intros [= <- <-]. split; [|done]. by apply (L5 _ _ _ _ Ev).
  - intros w w' r. destruct (sink_finish E (rest w)) as [v a] eqn:Ev. intros [= <- <-]. split; [|done]. by apply (L6 _ _ _ Ev).
  - intros l w. split; [|done]. by apply (L7 l (rest w)).
  - done.
Qed.

(** A body on the wire is one of finitely many frames. *)
Lemma over_wire_finite : FetchSpec.finite_body (over_wire E) (fun w => to_come (inner (body w))).
Proof.
  split; cbn; unfold at_rest.
  - intros w w' d. destruct (next_data (body w)) as [b r] eqn:Eb. intros [= <- ->]. by apply next_data_spec in Eb as (_&_&?&_).
  - intros w w' e. destruct (end_offset E (rest w)). intros [= <- <-]. done.
  - intros n w w'. destruct (acquire_memory E n (rest w)). intros [= <- _]. done.
  - intros c w w'. destruct (sink_accept E c (rest w)). intros [= <- _]. done.
  - done.
Qed.
End environment.

Module Dialling.

(** What a dial of [d] comes to with a server that chooses among what it is offered. *)
Lemma dial_speaks_what_was_agreed cfg tls d :
  (forall s p, d_tls d s = inr (Some p) -> p ∈ alpn_protocols s) ->
  match connect cfg tls d with
  | inr (conn, m) =>
      wire conn = m_protocol m /\ d_tcp d = Some (inr tt) /\
      (if tls then exists negotiated, d_tls d (if force_http1 cfg then http1_only else default_client) = inr negotiated /\
                                      (wire conn = Fetch.Http2 <-> negotiated = Some "h2"%string)
       else wire conn = Fetch.Http2 <-> prior_knowledge_http2 cfg = true) /\
      (wire conn = Fetch.Http2 \/ wire conn = Fetch.Http1)
  | inl e =>
      connect_failure_kind e = match d_tcp d with None => CfTimeout | Some (inl ConnectionRefused) => CfRefused
                               | Some _ => match e with Transport (TransportIo ConnectionRefused) => CfRefused | _ => CfOther end end /\
      connect_failure_kind e <> CfTls
  end.
Proof.
  intros Halpn. unfold connect. destruct (d_tcp d) as [[k|[]]|]; [destruct k; done| |done]. destruct tls; cbn.
  - destruct (d_tls d _) as [k|negotiated] eqn:Et; [destruct k; done|]. unfold handshake.
    assert (Hforce : force_http1 cfg = true -> negotiated <> Some "h2"%string).
    { intros Hf ->. rewrite Hf in Et. apply Halpn in Et. cbn in Et. set_solver. }
    destruct (decide (negotiated = Some "h2"%string)) as [->|Hn].
    + rewrite bool_decide_true by done. destruct (force_http1 cfg) eqn:Ef; [by destruct Hforce|]. cbn.
      unfold handshake_h2. destruct (d_http d _); [done|]. split_and!; [done..| |by left]. eexists. split; [done|]. done.
    + rewrite bool_decide_false by done. cbn. unfold handshake_h1. destruct (d_http d _); [done|]. split_and!; [done..| |by right].
      eexists. split; [done|]. done.
  - unfold handshake. destruct (prior_knowledge_http2 cfg); [unfold handshake_h2|unfold handshake_h1]; destruct (d_http d _); cbn; (done || (split_and!; auto; done)).
Qed.

(** The windows asked for are those that hyper is given, by default. *)
Lemma default_windows_are_kept d : exists frame, handshake_h2 ConnectorConfig_default d =
  match d_http d (H2Settings frame false (Some (8 * 1024 * 1024, 32 * 1024 * 1024))) with
  | inr _ => inr (mkPhysical Fetch.Http2 true)
  | inl e => inl (Errors.Http (Errors.Protocol ("h2 handshake: " +:+ e)))
  end.
Proof. by eexists. Qed.

(** Once the TLS configuration of HTTP/3 could not be built, no dial succeeds. *)
Lemma h3_config_failure_is_kept cfg d d' : (connect_h3 cfg None d).1 = Some None -> exists e, connect_h3 cfg (connect_h3 cfg None d).1 d' = (Some None, inl e).
Proof. intros ->. by eexists. Qed.

(** A percentile is the size of a frame that was received. *)
Lemma frame_percentile_received p st : BodyWireStats.frame_sizes st <> [] -> BodyWireStats.frame_percentile p st ∈ BodyWireStats.frame_sizes st.
Proof.
  intros Hne. unfold BodyWireStats.frame_percentile. destruct (BodyWireStats.frame_sizes st) as [|x l] eqn:E; [done|]. cbn zeta.
  assert (Hp : merge_sort Z.le (x :: l) ≡ₚ x :: l) by apply merge_sort_Permutation. apply (elem_of_Permutation_proper _ _ _ Hp).
  set (v := merge_sort Z.le (x :: l)) in *. assert (Hl : length v = Datatypes.S (length l)) by by rewrite Hp.
  set (i := BodyWireStats.round_to_usize _). assert (Hi : 0 <= i).
  { unfold i, BodyWireStats.round_to_usize. pose proof (f64_to_u64_range (f64_mul (f64_div p (f64_of_Z 100)) (f64_sub (f64_of_Z (Z.of_nat (length v))) f64_one))) as Hu.
    unfold in_u64 in Hu. case_match; lia. }
  destruct (lookup_lt_is_Some_2 v (Z.to_nat (Z.min i (Z.of_nat (length v) - 1)))) as [y Hy]; [lia|].
  rewrite (list_lookup_total_correct _ _ _ Hy). by apply list_elem_of_lookup_2 in Hy.
Qed.
End Dialling.
