(* ===== verification/Demo.v ===== *)
(** * A concrete engine, for evaluating the model.

    The parameters of the controller instantiated: counting arenas, URLs that
    are strings, a digest that is no digest. The scenarios of the witnesses run
    on it. *)

From Stdlib Require Import String.
From S2P Require Import Prelude Ranges Float Rates Errors Representation Policy Spec SlotMap Timers Segment PlanFrame World Controller Lifecycle Adaptive Handle Protocol Frames Refine Admission Runs.
Local Open Scope Z_scope.

Module Demo.
#[global] Existing Instance Counter.lib.
#[global] Existing Instance Counter.sec_lib.

(** [https://host/path] or [http://host/path], as scheme, host and path. *)
Record DemoUrl := mkUrl { u_scheme : string; u_host : string; u_path : string }.

Definition demo_as_str (u : DemoUrl) : string := (u_scheme u +:+ "://" +:+ u_host u +:+ u_path u)%string.

Definition site : DemoUrl := mkUrl "https" "example.test" "/a.bin".
Definition insecure : DemoUrl := mkUrl "http" "example.test" "/a.bin".
Definition other_site : DemoUrl := mkUrl "https" "other.test" "/a.bin".

Definition demo_parse (s : string) : option DemoUrl :=
  find (fun u => String.eqb (demo_as_str u) s) [site; insecure; other_site].

#[global] Instance web : WebLib := {|
  Url := DemoUrl;
  url_scheme := u_scheme;
  url_host_str u := Some (u_host u);
  url_port_or_known_default u := if String.eqb (u_scheme u) "https" then Some 443 else Some 80;
  url_as_str := demo_as_str;
  url_parse := demo_parse;
  url_invalid := mkUrl "about" "" "invalid";
  blake3 _ := [];
  debug_string s := s;
  debug_ip _ := ""%string |}.

Definition no_exp (x : f64) : f64 := f64_zero.
Definition clock (t : Z) : Clock := mkClock t t.

Definition fresh_engine : Ctl.t := start 2 0 EngineLimits.default None None (clock 0).

Definition submit (u : DemoUrl) (file : string) (c : Ctl.t) : outcome (result key * machine) :=
  admit_command no_exp (clock 1) 20 (JobSpec_new u) file None None 1 (mkMachine c []).

Definition observe (obs : Observation) (now : Z) (c : Ctl.t) : outcome (Ctl.t * list Action) :=
  handle no_exp (clock now) 20 obs now c.

(** ** Scenarios *)

Definition observed (o : outcome (Ctl.t * list Action)) : Ctl.t * list Action :=
  match o with Done r => r | _ => (fresh_engine, []) end.
Definition is_done {A} (o : outcome A) : bool := match o with Done _ => true | _ => false end.

Lemma observed_done o : is_done o = true -> o = Done ((observed o).1, (observed o).2).
Proof. by destruct o as [[]| |]. Qed.

Definition alive (c : Ctl.t) (k : key) : bool := match Ctl.job c k with Some _ => true | None => false end.

Lemma alive_spec c k : if alive c k then live c k else ~ live c k.
Proof. unfold alive, live. destruct (Ctl.job c k); [by eexists|by intros []]. Qed.

Lemma alive_live c k : alive c k = true -> live c k.
Proof. intros H. pose proof (alive_spec c k) as Hs. by rewrite H in Hs. Qed.
Lemma alive_dead c k : alive c k = false -> ~ live c k.
Proof. intros H. pose proof (alive_spec c k) as Hs. by rewrite H in Hs. Qed.

Abbreviation reach := (reach no_exp 20).

Lemma reach_observed c seen acts0 obs now : reach c seen acts0 -> is_admission obs = false -> obs_ok c obs ->
  is_done (observe obs now c) = true -> reach (observed (observe obs now c)).1 seen (acts0 ++ (observed (observe obs now c)).2).
Proof.
  intros Hr Ha Ho Hd. eapply (reach_observe _ _ c seen acts0 (clock now) obs now); [done..|].
  unfold observe in *. destruct (handle _ _ _ _ _ _) as [[c' a]| |]; done.
Qed.

Lemma fresh_reach : reach fresh_engine [] [].
Proof. apply reach_start. vm_compute. split; discriminate. Qed.

Definition replied (o : outcome (result key * machine)) : result key * machine :=
  match o with Done r => r | _ => (inl Cancelled, mkMachine fresh_engine []) end.

Lemma reach_submitted c seen acts0 u file k : reach c seen acts0 -> (replied (submit u file c)).1 = inr k -> k ∉ seen ->
  reach (ctl (replied (submit u file c)).2) (k :: seen) (acts0 ++ acts (replied (submit u file c)).2).
Proof.
  intros Hr Hk Hn. unfold submit in *. destruct (admit_command _ _ _ _ _ _ _ _ _) as [[r s]| |] eqn:E; [|done..].
  cbn [replied fst snd] in *. subst r.
  refine (reach_submit (W := web) _ _ c seen acts0 _ _ _ _ _ _ _ _ Hr _ E _); [discriminate|congruence].
Qed.

(** One download: admitted, resolved, connected, probed, transferred, committed. *)
Definition admission : result key * machine := replied (submit site "file" fresh_engine).
Definition admitted : Ctl.t := ctl admission.2.

Lemma admitted_reach : reach admitted [1%N] (acts admission.2).
Proof. apply (reach_submitted fresh_engine [] [] site "file" 1%N fresh_reach); [vm_compute; reflexivity|apply not_elem_of_nil]. Qed.

Definition address1 : SocketAddr := SocketV4 1 443.
Definition found : Observation := Resolved 1%N [address1] false [] false.
Definition connected : Observation := ConnectionReady 1%N 10 Http1_1.
Definition answered : Observation := Probed 1%N 1%N 1%N true (Some 100000) None None true None.
Definition sample : TransferSample.t := TransferSample.mk 100000 5 100 90 0 0 0 0 0 0 0 0 0 0 0 0 0 0 0 0 0.
Definition piece1 : AssignmentRef := mkAssignmentRef (L := Counter.lib) 1%N 1%N.
Definition verified : Observation := AssignmentVerified 1%N piece1 (ByteRange.new 0 100000) sample 1%N true.
Definition published : Observation := DestinationCommitted 1%N 100000 None.

Definition resolved_run := observed (observe found 2 admitted).
Definition ready_run := observed (observe connected 3 resolved_run.1).
Definition probed_run := observed (observe answered 4 ready_run.1).
Definition transferred_run := observed (observe verified 5 probed_run.1).
Definition finished_run := observed (observe published 6 transferred_run.1).

Lemma probed_done : handle no_exp (clock 4) 20 answered 4 ready_run.1 = Done (probed_run.1, probed_run.2).
Proof. apply observed_done. vm_compute. reflexivity. Qed.

Lemma transferred_done : handle no_exp (clock 5) 20 verified 5 probed_run.1 = Done (transferred_run.1, transferred_run.2).
Proof. apply observed_done. vm_compute. reflexivity. Qed.

(** What the answered probe and the verified piece led to. *)
Definition first_piece : Action := StartAssignment 1%N piece1 1%N (ByteRange.new 0 100000) 0 true.
Definition whole_file : Action := CommitDestination 1%N 100000 None.

Lemma probed_orders : probed_run.2 =
  [ScheduleTimer 2300000004 (AdaptiveTick 1%N); ScheduleTimer 1000000004 (RebalanceTick 1%N); first_piece].
Proof. vm_cast_no_check (@eq_refl (list Action) probed_run.2). Qed.

Lemma transferred_orders : transferred_run.2 = [whole_file].
Proof. vm_cast_no_check (@eq_refl (list Action) transferred_run.2). Qed.

Lemma answered_ok : obs_ok ready_run.1 answered.
Proof. vm_compute. split; discriminate. Qed.
Lemma verified_ok : obs_ok probed_run.1 verified.
Proof. vm_compute. repeat split; discriminate. Qed.

Lemma resolved_reach : reach resolved_run.1 [1%N] (acts admission.2 ++ resolved_run.2).
Proof. apply reach_observed; [exact admitted_reach|done|done|vm_compute; reflexivity]. Qed.

Lemma ready_reach : reach ready_run.1 [1%N] ((acts admission.2 ++ resolved_run.2) ++ ready_run.2).
Proof. apply reach_observed; [exact resolved_reach|done|done|vm_compute; reflexivity]. Qed.

Lemma probed_reach : reach probed_run.1 [1%N] (((acts admission.2 ++ resolved_run.2) ++ ready_run.2) ++ probed_run.2).
Proof. apply reach_observed; [exact ready_reach|done|exact answered_ok|vm_compute; reflexivity]. Qed.

Lemma transferred_reach : reach transferred_run.1 [1%N]
  ((((acts admission.2 ++ resolved_run.2) ++ ready_run.2) ++ probed_run.2) ++ transferred_run.2).
Proof. apply reach_observed; [exact probed_reach|done|exact verified_ok|vm_compute; reflexivity]. Qed.

Definition finished_actions : list Action :=
  ((((acts admission.2 ++ resolved_run.2) ++ ready_run.2) ++ probed_run.2) ++ transferred_run.2) ++ finished_run.2.

Lemma finished_reach : reach finished_run.1 [1%N] finished_actions.
Proof. apply reach_observed; [exact transferred_reach|done|done|vm_compute; reflexivity]. Qed.

(** A file that takes many pieces: the job has more work to give. *)
Definition answered_big : Observation := Probed 1%N 1%N 1%N true (Some 100000000) None None true None.
Definition busy_run := observed (observe answered_big 4 ready_run.1).

Lemma busy_reach : reach busy_run.1 [1%N] (((acts admission.2 ++ resolved_run.2) ++ ready_run.2) ++ busy_run.2).
Proof. apply reach_observed; [exact ready_reach|done|vm_compute; split; discriminate|vm_compute; reflexivity]. Qed.

Lemma busy_origin1 : exists o, WorldModel.get_origin (Ctl.world busy_run.1) 1%N = Some o /\ OriginNode.endpoints o = [1%N].
Proof.
  assert (H : match WorldModel.get_origin (Ctl.world busy_run.1) 1%N with
              | Some o => bool_decide (OriginNode.endpoints o = [1%N]) | None => false end = true) by (vm_compute; reflexivity).
  destruct (WorldModel.get_origin _ _) as [o|]; [|discriminate]. exists o. split; [reflexivity|]. exact (bool_decide_eq_true_1 _ H).
Qed.

Lemma busy_connection1 : exists n e, WorldModel.get_connection (Ctl.world busy_run.1) 1%N = Some n /\
  sm_get (WorldModel.endpoints (Ctl.world busy_run.1)) (ConnectionNode.endpoint n) = Some e.
Proof.
  assert (H : match WorldModel.get_connection (Ctl.world busy_run.1) 1%N with
              | Some n => match sm_get (WorldModel.endpoints (Ctl.world busy_run.1)) (ConnectionNode.endpoint n) with
                          | Some _ => true | None => false end
              | None => false end = true) by (vm_compute; reflexivity).
  destruct (WorldModel.get_connection _ _) as [n|]; [|discriminate].
  destruct (sm_get _ _) as [e|] eqn:E; [|discriminate]. exists n, e. split; [reflexivity|exact E].
Qed.

(** A job cancelled before anything was fetched. *)
Definition cancelled_run := observed (observe (JobCancelled 1%N) 3 resolved_run.1).

Lemma cancelled_done : handle no_exp (clock 3) 20 (JobCancelled 1%N) 3 resolved_run.1 = Done (cancelled_run.1, cancelled_run.2).
Proof. apply observed_done. vm_compute. reflexivity. Qed.

Lemma resolved_job1 : exists j, Ctl.job resolved_run.1 1%N = Some j /\ (plan_in_flight j >? 0) = false.
Proof.
  assert (H : match Ctl.job resolved_run.1 1%N with Some j => plan_in_flight j >? 0 | None => true end = false) by (vm_compute; reflexivity).
  destruct (Ctl.job _ _) as [j|]; [|discriminate]. exists j. split; [reflexivity|exact H].
Qed.

(** A probe redirected to another site. *)
Definition redirected_run := observed (observe (ProbeRedirected 1%N 1%N 302 "https://other.test/a.bin"%string) 4 ready_run.1).

Lemma redirected_done : handle no_exp (clock 4) 20 (ProbeRedirected 1%N 1%N 302 "https://other.test/a.bin"%string) 4 ready_run.1 =
  Done (redirected_run.1, redirected_run.2).
Proof. apply observed_done. vm_compute. reflexivity. Qed.

Lemma ready_job1 : exists j src, Ctl.job ready_run.1 1%N = Some j /\ JobNode.active_source j = Some 1%N /\
  sm_get (WorldModel.sources (Ctl.world ready_run.1)) 1%N = Some src.
Proof.
  assert (H : match Ctl.job ready_run.1 1%N, sm_get (WorldModel.sources (Ctl.world ready_run.1)) 1%N with
              | Some j, Some _ => bool_decide (JobNode.active_source j = Some 1%N) | _, _ => false end = true) by (vm_compute; reflexivity).
  destruct (Ctl.job _ _) as [j|]; [|discriminate]. destruct (sm_get _ _) as [src|]; [|discriminate].
  exists j, src. split; [reflexivity|]. split; [exact (bool_decide_eq_true_1 _ H)|reflexivity].
Qed.
End Demo.
