(* ===== verification/ControllerSpec.v ===== *)
(** * What the controller promises.

    The theorems about the composed controller: every handler follows the
    protocol, the tables stay linked, every job ends once, work is started only
    where there is room and committed only when every byte is verified. Their
    witnesses run the download of [Demo]. *)

From Stdlib Require Import String.
From S2P Require Import Prelude Ranges Float Rates Errors Representation Policy Spec SlotMap Timers Segment PlanFrame World Controller Lifecycle Adaptive Handle Protocol Frames Refine Admission Runs Demo.
Local Open Scope Z_scope.

Module Orders.
Section orders.
Context {L : SlotMapLib} {HL : SlotMapLaws L} {S : SecMapLib L} {W : WebLib}.
Context (exp : f64 -> f64) (fuel : nat).

(** C1. Refinement: whatever a handler does to a reachable controller, and
    whatever it orders, is a sequence of the protocol's elementary steps (a
    dial, a claim, a commit, the end of a job, a change of one job that gives
    no verified byte back, bookkeeping), each giving its own orders in turn;
    the state it leaves satisfies the invariant again. *)
Theorem handle_follows_protocol clk c seen acts0 obs now c' acts1 : reach exp fuel c seen acts0 -> obs_ok c obs ->
  handle exp clk fuel obs now c = Done (c', acts1) -> steps (probed_by obs) c acts1 c' /\ ok c'.
Proof.
  intros Hr%reach_ok Ho Hh. pose proof (handle_steps _ _ _ _ _ _ _ _ Hr Ho Hh) as Hs. split; [done|by eapply steps_ok].
Qed.

(** C2. In every reachable state the checks of [assert_invariants] pass: every
    job has its destination, artifact and sources and no more verified bytes
    than its length, every connection is on its origin's list; moreover a
    destination is leased exactly to the job that writes it, and two jobs never
    write to one destination. *)
Theorem reachable_world_linked c seen acts0 : reach exp fuel c seen acts0 ->
  WorldModel.assert_invariants (Ctl.world c) = true /\
  (forall k j, Ctl.job c k = Some j -> exists d,
     sm_get (WorldModel.destinations (Ctl.world c)) (JobNode.destination j) = Some d /\ leased_by d = Some k) /\
  (forall i d k, sm_get (WorldModel.destinations (Ctl.world c)) i = Some d -> leased_by d = Some k ->
     exists j, Ctl.job c k = Some j /\ JobNode.destination j = i) /\
  (forall k k' j j', Ctl.job c k = Some j -> Ctl.job c k' = Some j' -> JobNode.destination j = JobNode.destination j' -> k = k').
Proof.
  intros Hok%reach_ok. split_and!.
  - by apply assert_invariants_true.
  - intros k j Hj. by apply (jl_job _ (to_jobs _ (ok_tables _ Hok)) _ _ Hj).
  - intros i d k. apply (jl_lease _ (to_jobs _ (ok_tables _ Hok))).
  - intros k k' j j' Hj Hj'. exact (one_job_per_destination _ j j' k k' (ok_tables _ Hok) Hj Hj').
Qed.

(** C3. Along every run a job that has been admitted is ended exactly once when
    it is gone and never while it lives, by [FailJob] or [CompleteJob]. After
    that no work is ordered for it: no probe, mirror sample, journal reset,
    quarantine report, truncation, assignment or commit. All that may still
    name it are the leftovers of a failed assignment whose job ended while it
    was being disposed of: a retry timer, a request to refresh credentials, an
    order to discard what was written. *)
Theorem jobs_end_once c seen acts0 k : reach exp fuel c seen acts0 ->
  endings k acts0 = (if decide (k ∈ seen /\ ~ live c k) then 1 else 0)%nat /\
  forall a1 e a2, acts0 = a1 ++ e :: a2 -> ends e = Some k ->
    Forall (fun a => orders a ≠ Some k /\ (names a = Some k -> leftover a = true)) a2.
Proof.
  intros Hr. pose proof (reach_accounted _ _ _ _ _ Hr) as Hacc. destruct (reach_story exp fuel k _ _ _ Hr) as [H1 H2 H3|H1 H2 H3|a1 e a2 H1 H2 -> He H3 H4].
  - rewrite decide_False by tauto. apply ignored_spared in H3. split; [by apply endings_spared|]. intros a1 e a2 -> He. by destruct (spared_split k a1 e a2).
  - rewrite decide_False by tauto. split; [by apply endings_spared|]. intros a1 e a2 -> He. by destruct (spared_split k a1 e a2).
  - rewrite decide_True by done. split; [by apply endings_once|]. intros b1 e' b2 Heq He'.
    destruct (ending_unique k _ _ _ _ _ _ Heq) as (_&_& <-); [done..|]. apply Forall_app in Hacc as [_ [_ Hacc]%Forall_cons].
    rewrite Forall_forall in H4, Hacc |- *. intros a Ha. by apply ignored_leftover; [apply H4|apply Hacc].
Qed.



(** C6. Verified bytes are never given back: across any handled observation
    but the answer to its own probe, a job that goes on keeps its plan, its
    destination, its sources and every byte that was verified. *)
Theorem verified_bytes_kept clk c seen acts0 obs now c' acts1 k : reach exp fuel c seen acts0 -> obs_ok c obs ->
  handle exp clk fuel obs now c = Done (c', acts1) -> probed_by obs ≠ Some k -> keeps k c c'.
Proof.
  intros Hr%reach_ok Ho Hh Hp. eapply steps_keeps; [done| |done]. by eapply handle_steps.
Qed.

(** C19. The nodes of a reachable controller are well typed: a job is stored
    under its own key and is never in a terminal phase, its plan is of its own
    length with the verified ranges normalized and inside it, its evidence to
    resume from is unused before the first probe; the count of active
    assignments and the number of jobs are within the engine's limits. *)
Theorem controller_well_typed c seen acts0 : reach exp fuel c seen acts0 ->
  (forall k j, Ctl.job c k = Some j ->
     JobNode.id j = k /\ is_terminal (JobNode.phase j) = false /\
     (forall p, JobNode.plan j = Some p -> SegmentPlan.total p = JobNode.total_length j /\
        RangeSet.wf (SegmentPlan.completed p) /\ forall x, RangeSet.mem x (SegmentPlan.completed p) -> 0 <= x < extent p) /\
     (JobNode.phase j = Committing -> exists p, JobNode.plan j = Some p /\ SegmentPlan.is_complete p = true) /\
     (is_Some (JobNode.resume j) -> JobNode.total_length j = None)) /\
  0 <= Ctl.active_assignment_count c <= Ctl.engine_max_active_assignments c /\
  sm_len (WorldModel.jobs (Ctl.world c)) <= Ctl.engine_max_jobs c.
Proof.
  intros Hok%reach_ok. split; [|by split; apply (ok_counts _ Hok)]. intros k j Hj. pose proof (ok_jobs _ Hok _ _ Hj) as [J1 J2 J3 J4 J5].
  split_and!; [by apply (jl_job _ (to_jobs _ (ok_tables _ Hok)) _ _ Hj)|done| |done|intros [r Hres]; by eapply J5].
  intros p Hp. destruct (J3 _ Hp) as [[F1 F2 F3 _] Ht]. by split_and!.
Qed.
End orders.

Import Demo.

Lemma handle_follows_protocol_witness :
  (steps (Some 1%N) ready_run.1 probed_run.2 probed_run.1 /\ ok probed_run.1) /\ length probed_run.2 = 3%nat.
Proof.
  split; [|vm_compute; reflexivity].
  exact (handle_follows_protocol no_exp 20 (clock 4) _ _ _ answered 4 _ _ ready_reach answered_ok probed_done).
Defined.

Lemma reachable_world_linked_witness :
  WorldModel.assert_invariants (Ctl.world probed_run.1) = true /\ length (Ctl.jobs probed_run.1) = 1%nat.
Proof. split; [apply (reachable_world_linked no_exp 20 _ _ _ probed_reach)|vm_compute; reflexivity]. Defined.

Lemma jobs_end_once_witness : endings 1%N finished_actions = 1%nat /\ ~ live finished_run.1 1%N.
Proof.
  assert (Hn : ~ live finished_run.1 1%N) by (apply alive_dead; vm_compute; reflexivity).
  split; [|exact Hn]. pose proof (jobs_end_once no_exp 20 _ _ _ 1%N finished_reach) as [H _].
  rewrite decide_True in H; [exact H|]. split; [left|exact Hn].
Defined.



Lemma verified_bytes_kept_witness : keeps 1%N probed_run.1 transferred_run.1 /\ live transferred_run.1 1%N.
Proof.
  split; [|apply alive_live; vm_compute; reflexivity].
  by apply (verified_bytes_kept no_exp 20 (clock 5) _ _ _ verified 5 _ _ 1%N probed_reach verified_ok transferred_done).
Defined.

Lemma controller_well_typed_witness : Ctl.active_assignment_count probed_run.1 = 1 /\
  0 <= Ctl.active_assignment_count probed_run.1 <= Ctl.engine_max_active_assignments probed_run.1.
Proof. split; [vm_compute; reflexivity|apply (controller_well_typed no_exp 20 _ _ _ probed_reach)]. Defined.
End Orders.
