(* ===== verification/SchedulingSpec.v ===== *)
(** * Scheduling: fairness, termination, the choice of endpoints.

    The theorems about how the controller chooses: the fair queue picks the
    least served job, the pump and the initial ramp come to an end, the dialled
    endpoint is the best ranked, and endpoint evidence stays bounded. *)

From Stdlib Require Import String SpecFloat.
From S2P Require Import Prelude Ranges Float Rates Errors Representation Policy Spec SlotMap Timers Segment PlanFrame World Controller Lifecycle Adaptive Handle Protocol Frames Refine Admission Runs Demo.
Local Open Scope Z_scope.

(** ** The order of doubles *)

(** A double that is a number, as a triple in lexicographic order. *)
Definition f64_order (x : f64) : Z * Z * Z :=
  match x with
  | S754_infinity true => (-2, 0, 0)
  | S754_finite true m e => (-1, - e, Z.neg m)
  | S754_finite false m e => (1, e, Z.pos m)
  | S754_infinity false => (2, 0, 0)
  | S754_zero _ | S754_nan => (0, 0, 0)
  end.

Definition lex_lt (a b : Z * Z * Z) : Prop :=
  a.1.1 < b.1.1 \/ (a.1.1 = b.1.1 /\ (a.1.2 < b.1.2 \/ (a.1.2 = b.1.2 /\ a.2 < b.2))).

Lemma f64_compare_order x y : f64_is_nan x = false -> f64_is_nan y = false ->
  match SFcompare x y with
  | Some Lt => lex_lt (f64_order x) (f64_order y)
  | Some Eq => f64_order x = f64_order y
  | Some Gt => lex_lt (f64_order y) (f64_order x)
  | None => False
  end.
Proof.
  unfold lex_lt. intros Hx Hy. destruct x as [[]|[]| |[] m1 e1], y as [[]|[]| |[] m2 e2]; try done; cbn; try lia.
  all: destruct (Z.compare_spec e1 e2) as [->|He|He]; cbn; [|lia..].
  all: change (Pos.compare_cont Eq m1 m2) with (m1 ?= m2)%positive; destruct (Pos.compare_spec m1 m2); subst; cbn; try lia; done.
Qed.

Lemma f64_ltb_order x y : f64_is_nan x = false -> f64_is_nan y = false ->
  f64_ltb x y = true <-> lex_lt (f64_order x) (f64_order y).
Proof.
  intros Hx Hy. pose proof (f64_compare_order x y Hx Hy) as H. unfold f64_ltb, SFltb. unfold lex_lt in *.
  destruct (SFcompare x y) as [[]|]; [rewrite H| | |done]; split; try done; lia.
Qed.

Lemma f64_leb_order x y : f64_is_nan x = false -> f64_is_nan y = false ->
  f64_leb x y = true <-> ~ lex_lt (f64_order y) (f64_order x).
Proof.
  intros Hx Hy. pose proof (f64_compare_order x y Hx Hy) as H. unfold f64_leb, SFleb. unfold lex_lt in *.
  destruct (SFcompare x y) as [[]|]; [rewrite H| | |done]; split; try done; lia.
Qed.

(** ** Weighted fair queueing *)

Module Fairness.
Section fairness.
Context {L : SlotMapLib} {HL : SlotMapLaws L} {S : SecMapLib L} {W : WebLib}.
Context (clk : Clock) (c : Ctl.t) (o : key).

(** Less service, or the same and the older key. *)
Definition served_before (a b : key * f64) : bool :=
  f64_ltb a.2 b.2 || (f64_leb a.2 b.2 && f64_leb b.2 a.2 && key_ltb a.1 b.1).

Definition is_number (b : key * f64) : Prop := f64_is_nan b.2 = false.
Definition account (kj : key * JobNode.t) : key * f64 := (kj.1, JobNode.virt_service kj.2).
Definition runnable (kj : key * JobNode.t) : bool := Ctl.is_runnable clk c kj.1 o.

Lemma served_before_order : weak_order is_number served_before.
Proof.
  unfold is_number, served_before. split.
  - intros a b Ha Hb. rewrite orb_true_iff, orb_false_iff, !andb_true_iff, <- !not_true_iff_false, !andb_true_iff,
      !f64_ltb_order, !f64_leb_order by done. unfold lex_lt. intros [H|[[H1 H2] H3]]; (split; [lia|]); intros [[H4 H5] H6]; [lia|].
    pose proof (key_ltb_trans _ _ _ H3 H6) as H. by rewrite key_ltb_irrefl in H.
  - intros a b d Ha Hb Hd. rewrite !orb_false_iff, <- !not_true_iff_false, !andb_true_iff, !f64_ltb_order, !f64_leb_order by done.
    unfold lex_lt. intros [H1 K1] [H2 K2]. split; [lia|]. intros [[H3 H4] H5].
    assert (E1 : key_ltb a.1 b.1 ≠ true) by (intros E; apply K1; split; [lia|done]).
    assert (E2 : key_ltb b.1 d.1 ≠ true) by (intros E; apply K2; split; [lia|done]).
    apply not_true_iff_false in E1, E2. destruct (key_ltb b.1 a.1) eqn:E3.
    + pose proof (key_ltb_trans _ _ _ E3 H5). congruence.
    + pose proof (key_ltb_total _ _ E1 E3) as E. rewrite E in H5. congruence.
Qed.

Lemma wfq_step_account best x : Ctl.wfq_step clk c o best x =
  if runnable x
  then Some match best with Some b => if served_before (account x) b then account x else b | None => account x end
  else best.
Proof.
  unfold Ctl.wfq_step, runnable, served_before, account. destruct (Ctl.is_runnable clk c x.1 o); [|done].
  destruct best as [[b s]|]; [|done]. cbn. by destruct (_ || _).
Qed.

(** The loop of [pick_wfq_job] is a search for the least account. *)
Lemma wfq_fold l best : foldl (Ctl.wfq_step clk c o) best l =
  match best with
  | Some b => Some (min_from served_before b (account <$> retain runnable l))
  | None => min_by served_before (account <$> retain runnable l)
  end.
Proof.
  revert best. induction l as [|x l IH]; intros best; [by destruct best|]. cbn [foldl]. rewrite IH, wfq_step_account. clear IH.
  assert (Hr : retain runnable (x :: l) = if runnable x then x :: retain runnable l else retain runnable l)
    by (unfold retain; rewrite filter_cons; destruct (runnable x); by case_decide).
  rewrite Hr. destruct (runnable x); [|done]. by destruct best.
Qed.
End fairness.

Section pick.
Context {L : SlotMapLib} {HL : SlotMapLaws L} {S : SecMapLib L} {W : WebLib}.

(** C20. The fair queue: while the engine has room the job that is given the next
    piece is a runnable one, no runnable job has been served less, and among
    those served equally it has the least key; no job is picked only when the
    engine is at its ceiling or no job is runnable. *)
Theorem wfq_picks_least_served clk (c : Ctl.t) o :
  Forall (fun kj => f64_is_nan (JobNode.virt_service kj.2) = false) (Ctl.jobs c) ->
  match Ctl.pick_wfq_job clk c o with
  | Some k => Ctl.active_assignment_count c < Ctl.engine_max_active_assignments c /\ Ctl.is_runnable clk c k o = true /\
      exists j, Ctl.job c k = Some j /\ forall k' j', Ctl.job c k' = Some j' -> Ctl.is_runnable clk c k' o = true ->
        served_before (k', JobNode.virt_service j') (k, JobNode.virt_service j) = false
  | None => Ctl.engine_max_active_assignments c <= Ctl.active_assignment_count c \/
      forall k, Ctl.is_runnable clk c k o = false
  end.
Proof.
  intros Hn. destruct (Ctl.pick_wfq_job clk c o) as [k|] eqn:Ep.
  - split; [by eapply pick_has_room|]. split; [by eapply pick_runnable|]. unfold Ctl.pick_wfq_job in Ep. destruct (_ >=? _); [done|].
    rewrite wfq_fold in Ep. destruct (min_by _ _) as [[k0 v]|] eqn:Em; [|done]. injection Ep as ->.
    pose proof (min_by_elem _ _ _ Em) as ([k1 j]&[= -> ->]&[_ Hj]%retain_elem)%list_elem_of_fmap. apply sm_iter_Some in Hj.
    exists j. split; [exact Hj|]. intros k' j' Hj' Hr'.
    apply (min_by_least is_number _ _ _ served_before_order) with (y := (k', JobNode.virt_service j')) in Em; [exact Em| |].
    + apply Forall_fmap. apply Forall_forall. intros x [_ Hx]%retain_elem. rewrite Forall_forall in Hn. by apply Hn.
    + apply list_elem_of_fmap. exists (k', j'). split; [done|]. apply retain_elem. split; [exact Hr'|]. by apply sm_iter_Some.
  - unfold Ctl.pick_wfq_job in Ep. destruct (_ >=? _) eqn:E; [left; rewrite Z.geb_leb in E; by apply Z.leb_le|]. right. intros k.
    rewrite wfq_fold in Ep. destruct (min_by _ _) eqn:Em; [done|]. apply min_by_None, fmap_nil_inv in Em.
    destruct (Ctl.is_runnable clk c k o) eqn:Er; [|done]. destruct (Ctl.job c k) as [j|] eqn:Ej; [|by unfold Ctl.is_runnable in Er; rewrite Ej in Er].
    assert (H : (k, j) ∈ retain (runnable clk c o) (Ctl.jobs c)) by (apply retain_elem; split; [exact Er|by apply sm_iter_Some]).
    rewrite Em in H. by apply not_elem_of_nil in H.
Qed.
End pick.

Import Demo.

Lemma wfq_picks_least_served_witness : Ctl.pick_wfq_job (clock 5) busy_run.1 1%N = Some 1%N /\
  Ctl.active_assignment_count busy_run.1 < Ctl.engine_max_active_assignments busy_run.1.
Proof.
  assert (E : Ctl.pick_wfq_job (clock 5) busy_run.1 1%N = Some 1%N) by (vm_compute; reflexivity). split; [exact E|].
  pose proof (wfq_picks_least_served (clock 5) busy_run.1 1%N) as H. rewrite E in H. apply H.
  assert (Hn : forallb (fun kj => negb (f64_is_nan (JobNode.virt_service kj.2))) (Ctl.jobs busy_run.1) = true) by (vm_compute; reflexivity).
  rewrite forallb_forall in Hn. apply Forall_forall. intros kj Hk.
  exact (proj1 (negb_true_iff _) (Hn kj (proj1 (list_elem_of_In _ _) Hk))).
Defined.
End Fairness.

(** ** The loops come to an end *)

Module Progress.
Section progress.
Context {L : SlotMapLib} {HL : SlotMapLaws L} {S : SecMapLib L} {W : WebLib}.
Context (clk : Clock).

Lemma bind_fuel {A B} (m : M A) (f : A -> M B) s : m s ≠ OutOfFuel ->
  (forall a s', m s = Done (a, s') -> f a s' ≠ OutOfFuel) -> bind m f s ≠ OutOfFuel.
Proof. unfold bind. destruct (m s) as [[a s']| |] eqn:E; intros Hm Hf; [by apply Hf|done|done]. Qed.

(** *** The pump *)

Lemma for_each_emit l s : for_each l emit s = Done (tt, mkMachine (ctl s) (acts s ++ l)).
Proof.
  revert s. induction l as [|a l IH]; intros [c b]; cbn.
  - unfold ret. by rewrite app_nil_r.
  - unfold bind, emit at 1. rewrite IH. cbn. by rewrite <- app_assoc.
Qed.

(** Every claim that succeeds takes one of the engine's slots. *)
Lemma claim_one_slot k now s : claim_one clk k now s ≠ OutOfFuel /\
  forall s', claim_one clk k now s = Done (true, s') ->
    Ctl.active_assignment_count (ctl s') = (Ctl.active_assignment_count (ctl s) +% 1) /\
    Ctl.engine_max_active_assignments (ctl s') = Ctl.engine_max_active_assignments (ctl s).
Proof.
  destruct s as [c l]. unfold claim_one, claim_on_plan, bind, ask, modify_job, upd, ret. cbn [ctl acts].
  destruct (Ctl.conn c k) as [n|]; [|done]. destruct (negb _); [done|]. destruct (Ctl.pick_wfq_job _ _ _) as [j|]; [|done]. cbn [ctl].
  destruct (match Ctl.job c j with Some _ => JobNode.plan _ | None => None end) as [p|]; [|done].
  destruct (expect _ _) as [[[claim p'] s1]| |] eqn:E; [|done|].
  - unfold expect in E. destruct (claim_piece _ _ _ _ _ _ _); [|done]. injection E as -> <-. cbn [fst snd].
    destruct claim as [piece|]; [|done]. rewrite for_each_emit. cbn. split; [done|]. intros s' [= <-]. cbn.
    unfold count_in_flight. cbn. by destruct (sec_get _ k).
  - unfold expect in E. by destruct (claim_piece _ _ _ _ _ _ _).
Qed.

Lemma pump_loop_ends n l now s : in_u64 (Ctl.engine_max_active_assignments (ctl s)) -> 0 <= Ctl.active_assignment_count (ctl s) ->
  (Z.to_nat (Ctl.engine_max_active_assignments (ctl s) - Ctl.active_assignment_count (ctl s)) < n)%nat ->
  pump_loop clk n l now s ≠ OutOfFuel.
Proof.
  revert s. induction n as [|n IH]; intros s Hm Ha Hn; [lia|]. cbn [pump_loop].
  apply bind_fuel; [done|]. intros full s0 [= <- <-]. destruct (_ >=? _) eqn:Ef; [done|]. rewrite Z.geb_leb, Z.leb_gt in Ef.
  apply bind_fuel; [done|]. intros best s0 [= <- <-]. destruct (next_connection _ _) as [k|]; [|done].
  pose proof (claim_one_slot k now s) as [Hc Hs]. apply bind_fuel; [done|]. intros claimed s' E. destruct claimed; [|done]. cbn [negb].
  destruct (Hs s' E) as [H1 H2]. rewrite u64_add_small in H1 by u64_lia. apply IH; rewrite ?H1, ?H2; [done|lia|lia].
Qed.

(** *** The ramp *)

Lemma count_inserted {V} (m m' : slotmap V) k v P : sm_get m k = None ->
  (forall i, sm_get m' i = if decide (i = k) then Some v else sm_get m i) -> P (k, v) = true ->
  length (retain P (sm_iter m')) = Datatypes.S (length (retain P (sm_iter m))).
Proof.
  intros Hk Hm Hp.
  assert (Hv : sm_view m' = <[k := v]> (sm_view m)).
  { apply map_eq. intros i. rewrite <- !sm_get_view, Hm. case_decide as E; [subst; by rewrite lookup_insert_eq|].
    by rewrite lookup_insert_ne, sm_get_view by done. }
  assert (Hl : sm_iter m' ≡ₚ (k, v) :: sm_iter m).
  { rewrite !sm_iter_perm, Hv. apply map_to_list_insert. by rewrite <- sm_get_view. }
  unfold retain. rewrite Hl, filter_cons. by rewrite decide_True.
Qed.

Lemma live_connections_dial o e sh allow serving now c :
  WorldModel.live_connections_for_origin (Ctl.world (Ctl.dial_connection clk o e sh allow serving now c).1.2) o =
  WorldModel.live_connections_for_origin (Ctl.world c) o + 1.
Proof.
  pose proof (dial_tables clk o e sh allow serving now c) as H. cbn zeta in H.
  destruct (Ctl.dial_connection _ _ _ _ _ _ _ _) as [[k c'] a]. cbn in H |- *. destruct H as (_&Hf&(n&Hcs&_&Ho&Hst)&_).
  unfold WorldModel.live_connections_for_origin, WorldModel.conn_iter.
  rewrite (count_inserted (WorldModel.connections (Ctl.world c)) _ k n); [lia|exact Hf|exact Hcs|].
  cbn. rewrite Ho, Hst. by rewrite bool_decide_eq_true_2.
Qed.

Lemma scale_loop_ends n o target now s :
  (Z.to_nat (target - WorldModel.live_connections_for_origin (Ctl.world (ctl s)) o) <= n)%nat ->
  scale_loop clk n o target now s ≠ OutOfFuel.
Proof.
  revert s. induction n as [|n IH]; intros s Hn; cbn [scale_loop]; (apply bind_fuel; [done|]); intros live s0 [= <- <-];
    rewrite Z.geb_leb; case Z.leb_spec; intros Hl; try done; [lia|].
  apply bind_fuel; [done|]. intros ep s0 [= <- <-]. destruct (Ctl.best_endpoint _ _ _) as [e|]; [|done].
  unfold dial_best, dial_connection. apply bind_fuel; [unfold bind, ask; by destruct (Ctl.dial_connection _ _ _ _ _ _ _ _) as [[]]|].
  intros k s'. unfold bind, ask. pose proof (live_connections_dial o e (Ctl.place_shard (ctl s)) true None now (ctl s)) as H.
  destruct (Ctl.dial_connection _ _ _ _ _ _ _ _) as [[k' c'] a]. cbn in H. intros [= _ <-]. apply IH. cbn. lia.
Qed.
End progress.

(** C21. The loops of the scheduler come to an end: filling the connections of an
    origin with work stops because every turn takes one of the engine's slots,
    and opening the initial connections because every turn adds one; the bounds
    the model computes beforehand are always enough. *)
Theorem scheduling_terminates {L : SlotMapLib} {HL : SlotMapLaws L} {S : SecMapLib L} {W : WebLib} exp fuel clk c seen acts0 o now l :
  reach exp fuel c seen acts0 ->
  pump clk o now (mkMachine c l) ≠ OutOfFuel /\ scale_connections clk (Some o) now (mkMachine c l) ≠ OutOfFuel.
Proof.
  intros Hok%reach_ok. destruct (ok_counts _ Hok) as [C1 C2 _]. split.
  - unfold pump. apply bind_fuel; [done|]. intros ? ? [= <- <-]. apply bind_fuel; [done|]. intros ? ? [= <- <-].
    apply pump_loop_ends; cbn; [done|lia|lia].
  - unfold scale_connections. apply bind_fuel; [done|]. intros cool ? [= <- <-]. destruct (Ctl.cooled_down _ _ _); [done|].
    apply bind_fuel; [done|]. intros ? ? [= <- <-]. destruct (connection_targets _ _) as [[t m]|]; [|done]. cbv zeta.
    apply bind_fuel; [done|]. intros ? ? [= <- <-]. apply scale_loop_ends. cbn [ctl]. unfold WorldModel.live_connections_for_origin. lia.
Qed.

Import Demo.

Lemma scheduling_terminates_witness :
  pump (clock 5) 1%N 5 (mkMachine busy_run.1 []) ≠ OutOfFuel /\ length (Ctl.jobs busy_run.1) = 1%nat.
Proof. split; [exact (proj1 (scheduling_terminates (L := Counter.lib) no_exp 20 (clock 5) _ _ _ 1%N 5 [] busy_reach))|vm_compute; reflexivity]. Defined.
End Progress.

(** ** The choice of an endpoint *)

Module Endpoints.
Section endpoints.
Context {L : SlotMapLib} {HL : SlotMapLaws L} {S : SecMapLib L} {W : WebLib}.

Lemma ranked_before_order (w : WorldModel.t) o protocol now : weak_order (fun _ => True) (WorldModel.ranked_before w o protocol now).
Proof.
  unfold WorldModel.ranked_before, WorldModel.rank_ltb. split; intros a b.
  - destruct (WorldModel.endpoint_rank w o protocol now a) as [[[a1 a2] a3] a4], (WorldModel.endpoint_rank w o protocol now b) as [[[b1 b2] b3] b4]. lia.
  - intros d. destruct (WorldModel.endpoint_rank w o protocol now a) as [[[a1 a2] a3] a4],
      (WorldModel.endpoint_rank w o protocol now b) as [[[b1 b2] b3] b4], (WorldModel.endpoint_rank w o protocol now d) as [[[d1 d2] d3] d4]. lia.
Qed.

(** Dialling goes to the best endpoint: [select_endpoint] yields an endpoint
    of the origin that is not excluded and that no other such endpoint outranks
    (fewer failures, then the higher median rate on this network, then the
    quicker handshake, then the lower port), and none only when all are
    excluded; [ranked_endpoints] lists all of them in that order. *)
Theorem endpoint_choice_is_best (w : WorldModel.t) origin protocol now exclude o : WorldModel.get_origin w origin = Some o ->
  match WorldModel.select_endpoint w origin protocol now exclude with
  | Some e => e ∈ OriginNode.endpoints o /\ exclude e = false /\
      forall e', e' ∈ OriginNode.endpoints o -> exclude e' = false ->
        WorldModel.rank_ltb (WorldModel.endpoint_rank w o protocol now e') (WorldModel.endpoint_rank w o protocol now e) = false
  | None => forall e, e ∈ OriginNode.endpoints o -> exclude e = true
  end /\
  WorldModel.ranked_endpoints w origin now protocol ≡ₚ OriginNode.endpoints o /\
  StronglySorted (fun a b => WorldModel.ranked_before w o protocol now b a = false) (WorldModel.ranked_endpoints w origin now protocol).
Proof.
  intros Ho. unfold WorldModel.select_endpoint, WorldModel.ranked_endpoints. rewrite Ho. pose proof (ranked_before_order w o protocol now) as Hw.
  assert (Hall : forall l : list key, Forall (fun _ => True) l) by (intros l; by apply Forall_forall).
  split_and!; [|apply sort_by_perm|by eapply sort_by_sorted].
  destruct (min_by _ _) as [e|] eqn:E.
  - pose proof (min_by_elem _ _ _ E) as [He1 He2]%retain_elem. apply negb_true_iff in He1. split_and!; [done|done|]. intros e' Hin Hex.
    apply (min_by_least _ _ _ _ Hw (Hall _) E). apply retain_elem. by rewrite Hex.
  - apply min_by_None in E. intros e He. destruct (exclude e) eqn:Ex; [done|].
    assert (H : e ∈ retain (fun e => negb (exclude e)) (OriginNode.endpoints o)) by (apply retain_elem; by rewrite Ex).
    rewrite E in H. by apply not_elem_of_nil in H.
Qed.

(** Evidence about an endpoint stays bounded and fresh: a sample is kept only
    if bytes arrived and the transfer was not mostly stalled on us; afterwards
    the endpoint holds at most eight samples, each within its time to live or
    the endpoint was left as it was, and the new sample is the last of them. *)
Theorem endpoint_samples_bounded (w : WorldModel.t) connection sample now n e :
  WorldModel.get_connection w connection = Some n -> sm_get (WorldModel.endpoints w) (ConnectionNode.endpoint n) = Some e ->
  exists e', sm_get (WorldModel.endpoints (WorldModel.note_endpoint_sample connection sample now w)) (ConnectionNode.endpoint n) = Some e' /\
    (e' = e /\ (TransferSample.bytes sample = 0 \/ f64_leb f64_half (TransferSample.stall_fraction sample) = true) \/
     (Z.of_nat (length (samples e')) <= MAX_SAMPLES_PER_ENDPOINT /\ Forall (fun s => WorldModel.fresh_enough now s = true) (samples e') /\
      last (samples e') = Some (mkSample (ConnectionNode.network_context n) (ConnectionNode.protocol n) (TransferSample.receive_rate sample) now))).
Proof.
  intros Hn He. unfold WorldModel.note_endpoint_sample. rewrite Hn. destruct (_ || _) eqn:Eb.
  - exists e. split; [done|]. left. split; [done|]. apply orb_true_iff in Eb as [Eb|Eb]; [left; by apply Z.eqb_eq|by right].
  - unfold WorldModel.modify_endpoint. cbn -[sm_modify]. rewrite get_modify, decide_True by done. rewrite He. cbn. eexists. split; [reflexivity|].
    right. cbn. set (x := mkSample _ _ _ _).
    assert (Hx : WorldModel.fresh_enough now x = true).
    { unfold WorldModel.fresh_enough, WorldModel.sample_cutoff. destruct (_ <=? now); [|done]. cbn. apply Z.leb_le.
      assert (0 <= SAMPLE_TTL) by (vm_compute; discriminate). lia. }
    assert (Hr : retain (WorldModel.fresh_enough now) (samples e ++ [x]) = retain (WorldModel.fresh_enough now) (samples e) ++ [x])
      by (unfold retain; rewrite filter_app; f_equal; rewrite filter_cons; by rewrite decide_True).
    unfold WorldModel.cap_samples. rewrite Hr. assert (Hm : Z.to_nat MAX_SAMPLES_PER_ENDPOINT = 8%nat) by reflexivity. rewrite Hm.
    split_and!.
    + rewrite length_drop. unfold MAX_SAMPLES_PER_ENDPOINT. lia.
    + apply Forall_drop, Forall_app. split; [|by constructor]. apply Forall_forall. by intros s [? _]%retain_elem.
    + rewrite length_app. cbn. rewrite drop_app_le by lia. apply last_snoc.
Qed.
End endpoints.

Import Demo.

Lemma endpoint_choice_is_best_witness : exists o, OriginNode.endpoints o = [1%N] /\
  WorldModel.ranked_endpoints (Ctl.world busy_run.1) 1%N 5 None ≡ₚ OriginNode.endpoints o.
Proof.
  destruct busy_origin1 as (o&Ho&He). exists o. split; [exact He|].
  pose proof (endpoint_choice_is_best (L := Counter.lib) (S := Counter.sec_lib) (Ctl.world busy_run.1)) as H.
  specialize (H 1%N None 5 (fun _ => false) o Ho). destruct H as (_&H&_). exact H.
Defined.

Lemma endpoint_samples_bounded_witness : exists n e',
  sm_get (WorldModel.endpoints (WorldModel.note_endpoint_sample 1%N sample 5 (Ctl.world busy_run.1))) (ConnectionNode.endpoint n) = Some e'.
Proof.
  destruct busy_connection1 as (n&e&Hn&He). exists n.
  pose proof (endpoint_samples_bounded (L := Counter.lib) (S := Counter.sec_lib) (Ctl.world busy_run.1)) as H.
  specialize (H 1%N sample 5 n e Hn He).
  destruct H as (e'&He'&_). exists e'. exact He'.
Defined.
End Endpoints.
