(* ===== verification/LifecycleSpec.v ===== *)
(** * The life of a job: admission, cancellation, redirects, resumption. *)

From Stdlib Require Import String.
From S2P Require Import Prelude Ranges Float Rates Errors Text Representation Policy Spec SlotMap Timers Segment PlanFrame World Controller Lifecycle Adaptive Handle Protocol Frames Refine Admission Runs Demo.
Local Open Scope Z_scope.

(** ** Endings *)

Section endings.
Context {L : SlotMapLib} {HL : SlotMapLaws L} {S : SecMapLib L} {W : WebLib}.
Context (clk : Clock) (fuel : nat).

(** [finish_job] tells the waiter first, and the job stays gone. *)
Lemma finish_job_done k j o c l u s : ok c -> Ctl.job c k = Some j -> finish_job clk fuel k o (mkMachine c l) = Done (u, s) ->
  ok (ctl s) /\ ~ live (ctl s) k /\ exists b, acts s = l ++ verdict k j o :: b.
Proof.
  intros Hok Hj. unfold finish_job, bind, ask, upd, emit. cbn [ctl acts]. rewrite Hj.
  pose proof (mi_finish None c k j o Hj) as Hm. pose proof (micro_ok _ _ _ _ Hm Hok) as Hok1.
  pose proof (sim_ensure_probes None clk any fuel (JobNode.origin j) (instant clk) (close_job k j c) Hok1 (l ++ [verdict k j o])) as H.
  unfold close_job, verdict in *. cbn [ctl acts]. destruct (ensure_probes _ _ _ _ _) as [[v s']| |]; [|done..].
  destruct H as (b&Hb&Hs&_&_). intros [= _ <-]. split_and!.
  - by eapply steps_ok.
  - assert (Hd : ~ live (close_job k j c) k) by (unfold live; rewrite job_close, decide_True by done; by intros []).
    by destruct (steps_fate _ k _ _ _ Hs).
  - exists b. by rewrite Hb, <- app_assoc.
Qed.

(** C7. Cancelling a job: with no request in flight it ends at once, its waiter is
    told first and its destination is free again; otherwise it drains, nothing
    being ordered until its requests have reported. A job that is not there is
    ignored. *)
Theorem cancellation_ends_or_drains exp c seen acts0 k now c' acts1 : reach exp fuel c seen acts0 ->
  handle exp clk fuel (JobCancelled k) now c = Done (c', acts1) ->
  match Ctl.job c k with
  | None => c' = c /\ acts1 = []
  | Some j =>
      if plan_in_flight j >? 0
      then acts1 = [] /\ exists j', Ctl.job c' k = Some j' /\ JobNode.phase j' = Cancelling /\
             JobNode.pending_terminal j' = Some (inl CANCELLED_SENTINEL) /\ JobNode.plan j' = JobNode.plan j
      else ~ live c' k /\ (exists b, acts1 = FailJob k CANCELLED_SENTINEL :: b) /\
           forall d, sm_get (WorldModel.destinations (Ctl.world c')) (JobNode.destination j) = Some d -> leased_by d ≠ Some k
  end.
Proof.
  intros Hok%reach_ok. unfold handle, handle_m, on_job_cancelled, bind, ask. cbn [ctl acts].
  destruct (Ctl.job c k) as [j|] eqn:Ej; [|by intros [= <- <-]]. rewrite (jk_phase _ (ok_jobs _ Hok _ _ Ej)).
  unfold modify_job, bump_generation, upd. cbn [ctl acts]. unfold try_complete_drain at 1, bind, ask. cbn [ctl acts].
  set (f := fun j => j <| JobNode.phase := Cancelling |> <| JobNode.pending_terminal := Some (inl CANCELLED_SENTINEL) |>).
  set (c1 := Ctl.bump_generation _ _ _).
  assert (Hj1 : Ctl.job c1 k = Some (f j)).
  { change (Ctl.job (c <| Ctl.world ::= WorldModel.modify_job k f |>) k = Some (f j)). rewrite job_modify, decide_True by done. by rewrite Ej. }
  assert (Hok1 : ok c1).
  { apply (micro_ok None (c <| Ctl.world ::= WorldModel.modify_job k f |>) [] c1).
    - apply mi_books. books_tac.
    - eapply (micro_ok None c []); [|exact Hok]. apply mi_job. intros j0 _. unfold f. same_step. }
  rewrite Hj1. change (is_draining (JobNode.phase (f j))) with true. cbn [negb].
  change (plan_in_flight (f j)) with (plan_in_flight j). destruct (plan_in_flight j >? 0).
  - unfold ret. intros [= <- <-]. split; [done|]. exists (f j). by split_and!.
  - change (default (inl "drained"%string) (JobNode.pending_terminal (f j))) with (inl CANCELLED_SENTINEL : Outcome).
    destruct (finish_job _ _ _ _ _) as [[u s]| |] eqn:Ef; [|done..]. intros [= <- <-].
    destruct (finish_job_done _ _ _ _ _ _ _ Hok1 Hj1 Ef) as (Hok2&Hn&b&Hb). split_and!; [done|by exists b|].
    intros d Hd Hl. destruct (jl_lease _ (to_jobs _ (ok_tables _ Hok2)) _ _ _ Hd Hl) as (j2&Hj2&_). apply Hn. by exists j2.
Qed.

(** ** Redirects *)

Lemma foldl_keeps {A B} (g : WorldModel.t -> B) (f : WorldModel.t -> A -> WorldModel.t) l w :
  (forall w x, g (f w x) = g w) -> g (foldl f w l) = g w.
Proof. intros Hf. revert w. induction l as [|x l IH]; intros w; [done|]. cbn. by rewrite IH, Hf. Qed.

Lemma created_sources k w id w' : WorldModel.get_or_create_origin clk k w = (id, w') -> WorldModel.sources w' = WorldModel.sources w.
Proof.
  unfold WorldModel.get_or_create_origin. destruct (_ !! k); [by intros [= _ <-]|]. destruct (sm_insert _ _) as [i m]. intros [= _ <-].
  unfold WorldModel.apply_pending_learning. repeat case_match; try done. rewrite (foldl_keeps WorldModel.sources); [done|].
  intros w1 po. unfold WorldModel.apply_persisted. repeat case_match; try done. cbn -[foldl]. rewrite (foldl_keeps WorldModel.sources); [done|].
  intros w2 ps. unfold WorldModel.apply_sample. by repeat case_match.
Qed.

Lemma drain_insensitive_safe seen h : Forall (fun e => is_sensitive e.2 = false) (drain_insensitive seen h) /\
  forall e, e ∈ drain_insensitive seen h -> e ∈ h.
Proof.
  revert seen. induction h as [|[n v] h IH]; intros seen; cbn; [by split; [constructor|]|].
  destruct (bool_decide _); [destruct (IH seen) as [H1 H2]; split; [done|intros; right; auto]|].
  destruct (is_sensitive v) eqn:Ev; destruct (IH (n :: seen)) as [H1 H2]; [split; [done|intros; right; auto]|].
  split; [by constructor|]. intros e [->|He]%elem_of_cons; [left|right; auto].
Qed.

(** Headers that carry no credential: neither by name nor by mark. *)
Definition harmless (h : list (string * HeaderValue)) : Prop :=
  Forall (fun e => is_credential e.1 = false /\ is_sensitive e.2 = false) h.

Lemma strip_harmless h : harmless (strip_credentials h).
Proof.
  unfold strip_credentials, harmless. destruct (drain_insensitive_safe [] (retain (fun e => negb (is_credential e.1)) h)) as [H1 H2].
  rewrite Forall_forall in H1 |- *. intros e He. split; [|by apply H1]. apply H2, retain_elem in He as [He _]. by apply negb_true_iff.
Qed.

(** What becomes of the job and of its source when a hop is followed. *)
Definition hopped (k sid : key) (j : JobNode.t) (u : Url) (c' : Ctl.t) (safe : Prop) : Prop := exists j' s',
  Ctl.job c' k = Some j' /\ JobNode.redirect_chain j' = JobNode.redirect_chain j ++ [url_as_str u] /\
  sm_get (WorldModel.sources (Ctl.world c')) sid = Some s' /\ src_url s' = url_as_str u /\ (safe -> harmless (src_headers s')).

Lemma wp_follow_same k x sid u c j src (safe : Prop) : Ctl.job c k = Some j ->
  sm_get (WorldModel.sources (Ctl.world c)) sid = Some src -> ~ safe ->
  wp None any (follow_same_origin k x sid u) c (fun _ c' => hopped k sid j u c' safe).
Proof.
  intros Hj Hs Hn. pose proof (live_job _ _ _ Hj) as Hlive. unfold follow_same_origin. wp_run.
  exists (j <| JobNode.redirect_chain ::= fun l => l ++ [url_as_str u] |>), (src <| src_url := url_as_str u |>). split_and!; try done.
  - rewrite job_modify, decide_True by done. unfold Ctl.job, WorldModel.get_job in *. cbn. by rewrite Hj.
  - cbn -[sm_modify]. rewrite get_modify, decide_True by done. by rewrite Hs.
Qed.

(** The end of a hop to another origin, from the state in which the origin was
    found or made. *)
Lemma cross_hopped k x sid u o nk c j src w (safe : Prop) f g : Ctl.job c k = Some j ->
  sm_get (WorldModel.sources (Ctl.world c)) sid = Some src -> WorldModel.get_or_create_origin clk nk (Ctl.world c) = (o, w) ->
  (forall j, JobNode.redirect_chain (f j) = JobNode.redirect_chain j ++ [url_as_str u]) ->
  (forall s, src_url (g s) = url_as_str u /\ src_headers (g s) = src_headers s) -> (safe -> harmless (src_headers src)) ->
  hopped k sid j u (Ctl.drop_connection x (c <| Ctl.world := w |> <| Ctl.world ::= WorldModel.modify_job k f |>
    <| Ctl.world ::= WorldModel.modify_source sid g |>)) safe.
Proof.
  intros Hj Hs Eo Hf Hg Hsafe. pose proof (frame_created _ _ _ _ _ Eo) as Hfr. pose proof (created_sources _ _ _ _ Eo) as Hsw.
  set (c3 := _ <| Ctl.world ::= WorldModel.modify_source sid g |>). destruct (drop_tables x c3) as (_&_&_&_&Hds&_).
  exists (detach x (f j)), (g src). rewrite job_drop, Hds. destruct (Hg src) as [Hg1 Hg2]. rewrite Hg2. split_and!; [|by apply Hf| |done|done].
  - unfold c3, Ctl.job, WorldModel.get_job. cbn -[sm_modify]. rewrite get_modify, decide_True by done.
    rewrite (wf_jobs _ _ Hfr). unfold Ctl.job, WorldModel.get_job in Hj. by rewrite Hj.
  - unfold c3. cbn -[sm_modify]. rewrite get_modify, decide_True by done. by rewrite Hsw, Hs.
Qed.

Lemma wp_follow_cross k x sid u nk fwd c j src : Ctl.job c k = Some j ->
  sm_get (WorldModel.sources (Ctl.world c)) sid = Some src ->
  wp None any (follow_cross_origin clk k x sid u nk fwd) c (fun _ c' => hopped k sid j u c' (fwd = false)).
Proof.
  intros Hj Hs. unfold follow_cross_origin. destruct fwd; cbn [negb when]; wp_run.
  - by eapply cross_hopped.
  - match goal with H : WorldModel.get_or_create_origin clk nk (Ctl.world ?c1) = _ |- _ =>
      eapply (cross_hopped k x sid u _ nk c1 j); [exact Hj| |exact H|done|done|] end.
    + cbn -[sm_modify]. rewrite get_modify, decide_True by done. rewrite Hs. reflexivity.
    + intros _. apply strip_harmless.
Qed.

(** The conditions under which a hop is followed. *)
Record hop_allowed (c : Ctl.t) (j : JobNode.t) (u : Url) (new_key : TransportOriginKey) : Prop := {
  ha_bounded : Z.of_nat (length (JobNode.redirect_chain j)) < Z.max (max_redirects (JobNode.policy j)) 1;
  ha_scheme : from_url url_scheme url_host_str url_port_or_known_default u = Some new_key;
  ha_no_loop : url_as_str u ∉ JobNode.redirect_chain j;
  ha_no_downgrade : forall o, Ctl.org c (JobNode.origin j) = Some o -> ok_scheme (OriginNode.okey o) = "https"%string ->
    ok_scheme new_key = "http"%string -> allow_https_to_http (redirects (JobNode.policy j)) = true }.

(** The hop leaves the origin of the job. *)
Definition crosses (c : Ctl.t) (j : JobNode.t) (new_key : TransportOriginKey) : Prop :=
  option_map OriginNode.okey (Ctl.org c (JobNode.origin j)) ≠ Some new_key.

Lemma wp_fail_with k e c j (Q : unit -> Ctl.t -> Prop) : Ctl.job c k = Some j -> (forall c', ~ live c' k -> Q tt c') ->
  wp None any (fail_with clk fuel k e) c Q.
Proof.
  intros Hj HQ Hok l. pose proof (sim_finish_job None clk fuel k (inl e) c Hok l) as H. unfold fail_with.
  destruct (finish_job _ _ _ _ _) as [[[] s]| |] eqn:Ef; [|done..]. destruct H as (b&?&?&_&_). exists b.
  split_and!; try done. apply HQ. by apply (finish_job_done _ _ _ _ _ _ _ Hok Hj Ef).
Qed.

Lemma wp_handle_probe_redirect k x st loc now c j sid src : Ctl.job c k = Some j -> JobNode.active_source j = Some sid ->
  sm_get (WorldModel.sources (Ctl.world c)) sid = Some src ->
  wp None any (handle_probe_redirect clk fuel k x st loc now) c (fun _ c' => ~ live c' k \/
    exists u new_key, url_parse loc = Some u /\ hop_allowed c j u new_key /\
      hopped k sid j u c' (crosses c j new_key /\ forward_credentials_cross_origin (redirects (JobNode.policy j)) = false)).
Proof.
  intros Hj Hsid Hs. unfold handle_probe_redirect. wp_step. wp_step. rewrite Hj. cbv zeta.
  wp_step; [apply (wp_fail_with _ _ _ j); auto|]. wp_step; [|apply (wp_fail_with _ _ _ j); auto].
  wp_step; [|apply (wp_fail_with _ _ _ j); auto]. wp_step; [apply (wp_fail_with _ _ _ j); auto|]. rewrite Hsid.
  wp_step. wp_step. wp_step; [apply (wp_fail_with _ _ _ j); auto|].
  assert (Hall : hop_allowed c j u t).
  { split; [lia|done| |].
    - apply negb_false_iff, bool_decide_eq_true, NoDup_app in Heqb0 as (_&Hn&_). intros Hin. by apply (Hn _ Hin), list_elem_of_singleton.
    - intros o Ho H1 H2. rewrite Ho in Heqb1. cbn in Heqb1. rewrite H1, H2 in Heqb1. cbn in Heqb1. by apply negb_false_iff. }
  assert (Hdone : forall c' safe, hopped k sid j u c' safe -> (crosses c j t /\ forward_credentials_cross_origin (redirects (JobNode.policy j)) = false -> safe) ->
    ~ live c' k \/ exists u0 new_key, Some u = Some u0 /\ hop_allowed c j u0 new_key /\
      hopped k sid j u0 c' (crosses c j new_key /\ forward_credentials_cross_origin (redirects (JobNode.policy j)) = false)).
  { intros c' safe (j'&s'&H1&H2&H3&H4&H5) Hsafe. right. exists u, t. split_and!; [done|done|]. exists j', s'. split_and!; auto. }
  destruct (option_map OriginNode.okey (Ctl.org c (JobNode.origin j))) as [ok0|] eqn:Eo; [destruct (bool_decide (ok0 = t)) eqn:E; [apply bool_decide_eq_true in E; subst ok0|]|].
  - eapply wp_conseq; [exact (wp_follow_same k x sid u c j src False Hj Hs (fun f => f))|]. intros [] c' _ _ Hh. apply (Hdone _ _ Hh).
    intros [Hc _]. by apply Hc.
  - eapply wp_conseq; [exact (wp_follow_cross k x sid u t _ c j src Hj Hs)|]. intros [] c' _ _ Hh. apply (Hdone _ _ Hh). by intros [_ ?].
  - eapply wp_conseq; [exact (wp_follow_cross k x sid u t _ c j src Hj Hs)|]. intros [] c' _ _ Hh. apply (Hdone _ _ Hh). by intros [_ ?].
Qed.

(** C16. A redirect answered to a probe is followed only when the chain is below
    the policy's limit, the target is an http or https URL not visited before,
    and the hop does not go from https to http unless the policy allows it;
    then the job's chain and its source's URL are the target, and a hop to
    another origin leaves the source no credential header and no header marked
    sensitive unless the policy forwards them. Otherwise the job ends. *)
Theorem redirect_hops_are_safe exp c seen acts0 k x st loc now c' acts1 j sid src : reach exp fuel c seen acts0 ->
  Ctl.job c k = Some j -> JobNode.active_source j = Some sid -> sm_get (WorldModel.sources (Ctl.world c)) sid = Some src ->
  handle exp clk fuel (ProbeRedirected k x st loc) now c = Done (c', acts1) ->
  ~ live c' k \/
  exists u new_key, url_parse loc = Some u /\ hop_allowed c j u new_key /\
    hopped k sid j u c' (crosses c j new_key /\ forward_credentials_cross_origin (redirects (JobNode.policy j)) = false).
Proof.
  intros Hok%reach_ok Hj Hsid Hs. pose proof (wp_handle_probe_redirect k x st loc now c j sid src Hj Hsid Hs Hok []) as H.
  unfold handle. cbn [handle_m]. destruct (handle_probe_redirect _ _ _ _ _ _ _ _) as [[u s]| |]; [|done..].
  destruct H as (b&_&_&_&H). by intros [= <- _].
Qed.
End endings.

(** ** Admission *)

Section admission.
Context {L : SlotMapLib} {HL : SlotMapLaws L} {S : SecMapLib L} {W : WebLib}.

(** A destination of that name is leased to a job. *)
Definition leased (w : WorldModel.t) (key0 : string) : Prop := exists i d k,
  WorldModel.destination_index w !! key0 = Some i /\ sm_get (WorldModel.destinations w) i = Some d /\ leased_by d = Some k.

(** Of a job without a source only the destination is looked up, or made. *)
Lemma admit_job_no_source clk spec key0 w : tables_ok w -> js_sources spec = [] -> ~ leased w key0 ->
  exists w', WorldModel.admit_job clk spec key0 w = Some (w', inl NoSource) /\ ~ leased w' key0.
Proof.
  intros Hok Hs Hn. unfold WorldModel.admit_job. destruct (lease_target_total key0 w Hok) as [[w1 [e|i]] E].
  - destruct (lease_target_ok _ _ _ _ Hok E) as (_&_&_&_&H). by destruct Hn.
  - rewrite E, Hs. exists w1. split; [done|]. destruct (lease_target_ok _ _ _ _ Hok E) as ([[_ _ J3] _ _]&_&node&Hi&Hl&Hk).
    intros (i'&d&k&H1&H2&H3). assert (H : WorldModel.destination_index w1 !! key0 = Some i) by (apply J3; by exists node). congruence.
Qed.

(** C18. Admission into a reachable controller never panics and has three
    outcomes: it is refused as busy exactly when a live job holds the
    destination, and then nothing changes; it is refused for want of a source
    exactly when the destination is free and the job names no source, and then
    there is no new job and the destination stays free; otherwise there is one
    more job, under a fresh key, newly created with the policy it asked for,
    and the destination of that name is leased to it. The tables stay linked in
    each case. *)
Theorem admission_outcome exp fuel clk spec key0 c seen acts0 : reach exp fuel c seen acts0 ->
  exists w r, WorldModel.admit_job clk spec key0 (Ctl.world c) = Some (w, r) /\ tables_ok w /\
    (leased (Ctl.world c) key0 <-> r = inl (Busy key0)) /\
    (~ leased (Ctl.world c) key0 /\ js_sources spec = [] <-> r = inl NoSource) /\
    match r with
    | inl (Busy s) => s = key0 /\ w = Ctl.world c
    | inl NoSource => ~ leased w key0 /\ WorldModel.jobs w = WorldModel.jobs (Ctl.world c)
    | inr (k, _) => Ctl.job c k = None /\ sm_len (WorldModel.jobs w) = sm_len (WorldModel.jobs (Ctl.world c)) + 1 /\
        exists j, admitted_as spec j /\
          (exists d, sm_get (WorldModel.destinations w) (JobNode.destination j) = Some d /\ d_key d = key0 /\ leased_by d = Some k) /\
          forall i, sm_get (WorldModel.jobs w) i = if decide (i = k) then Some j else Ctl.job c i
    end.
Proof.
  intros Hok%reach_ok. destruct (admit_job_total clk spec key0 _ (ok_tables _ Hok)) as [[w r] E].
  exists w, r. destruct (admit_job_tables _ _ _ _ _ _ (ok_tables _ Hok) E) as [Ht Hr].
  assert (Hb : leased (Ctl.world c) key0 -> r = inl (Busy key0)).
  { intros (i&d&k&H1&H2&H3). rewrite (admit_job_busy clk spec _ _ _ _ _ H1 H2 H3) in E. congruence. }
  assert (Hs : ~ leased (Ctl.world c) key0 -> js_sources spec = [] -> r = inl NoSource /\ ~ leased w key0).
  { intros Hn He. destruct (admit_job_no_source clk spec key0 _ (ok_tables _ Hok) He Hn) as (w'&E'&Hl). split; congruence. }
  assert (Hn : r = inl NoSource -> ~ leased (Ctl.world c) key0 /\ js_sources spec = []).
  { intros ->. split; [by intros ?%Hb|apply Hr]. }
  split_and!; [done|done| | |].
  - split; [exact Hb|]. intros ->. by destruct Hr as (_&_&H).
  - split; [intros [H1 H2]; by apply Hs|exact Hn].
  - destruct r as [[s|]|[k art]]; [by destruct Hr as (?&?&_)| |exact Hr]. destruct (Hn eq_refl) as [H1 H2].
    split; [by apply Hs|apply Hr].
Qed.
End admission.

(** ** Resumption *)

Section resumption.
Context {L : SlotMapLib} {W : WebLib}.

(** The loop over the durable ranges keeps those that end within the length. *)
Lemma seed_fold_mem total l : Forall ByteRange.wf l -> forall acc, RangeSet.wf acc.1 ->
  RangeSet.wf (foldl (seed_step total) acc l).1 /\
  forall x, RangeSet.mem x (foldl (seed_step total) acc l).1 <-> RangeSet.mem x acc.1 \/
    exists r, r ∈ l /\ ByteRange.mem x r /\ (forall t, total = Some t -> ByteRange.end_ r <= t).
Proof.
  induction 1 as [|r l Hr Hl IH]; intros acc Hw; cbn [foldl]; [split; [done|]; intros x; split; [by left|]; intros [?|(r&Hin&_)]; [done|by apply not_elem_of_nil in Hin]|].
  assert (Hs : RangeSet.wf (seed_step total acc r).1 /\ forall x, RangeSet.mem x (seed_step total acc r).1 <->
    RangeSet.mem x acc.1 \/ (ByteRange.mem x r /\ forall t, total = Some t -> ByteRange.end_ r <= t)).
  { unfold seed_step. destruct (match total with Some t => _ | None => _ end) eqn:E; cbn.
    - destruct (RangeSet.insert_wf_mem acc.1 r Hw Hr) as [Hi Hm]. split; [done|]. intros x. rewrite Hm.
      assert (forall t, total = Some t -> ByteRange.end_ r <= t) by (intros t ->; by apply Z.leb_le). tauto.
    - split; [done|]. intros x. destruct total as [t|]; [|done]. apply Z.leb_gt in E. split; [by left|]. intros [?|[_ H]]; [done|].
      specialize (H t eq_refl). lia. }
  destruct Hs as [Hw1 Hm1]. destruct (IH _ Hw1) as [Hw2 Hm2]. split; [done|]. intros x. rewrite Hm2, Hm1. split.
  - intros [[?|[? ?]]|(r'&?&?&?)]; [by left|right; exists r; split_and!; [left|done|done]|right; exists r'; split_and!; [by right|done|done]].
  - intros [?|(r'&[->|?]%elem_of_cons&?&?)]; [by left; left|left; by right|right; by exists r'].
Qed.

(** What makes the evidence of an earlier run trustworthy: the same final URL,
    the same length if one was recorded, the same validators, and a strong entity
    tag unless the job waives the verification of resumed bytes. *)
Record trusted (r : ResumeEvidence) (chain : list string) (i : IntegritySpec) (total : option Z) (etag : option string)
    (last_modified : option Z) : Prop := {
  tr_url : exists u, last (re_urls r) = Some u /\ last chain = Some u;
  tr_length : re_total r = None \/ (is_Some total /\ re_total r = total);
  tr_etag : re_etag r = etag;
  tr_date : strong_etag etag = true \/ re_last_modified r = last_modified;
  tr_strong : strong_etag etag = true \/ verify_on_resume i = false }.

Lemma agree_spec {A} `{EqDecision A} (a b : option A) : agree a b = true <-> a = b.
Proof. destruct a, b; cbn; rewrite ?bool_decide_eq_true; split; congruence. Qed.

Lemma trusts_journal_spec r chain i total etag lm :
  trusts_journal (judge_resume r chain total etag lm) i = true <-> trusted r chain i total etag lm.
Proof.
  unfold trusts_journal, judge_resume. cbn. rewrite !andb_true_iff, orb_true_iff, negb_true_iff.
  assert (Hu : (match last (re_urls r) with Some u => bool_decide (last chain = Some u) | None => false end) = true <->
    exists u, last (re_urls r) = Some u /\ last chain = Some u).
  { destruct (last (re_urls r)) as [u|]; [rewrite bool_decide_eq_true|]; split; [by exists u|by intros (?&[= <-]&?)|done|by intros (?&?&_)]. }
  assert (Hl : (match re_total r, total with Some a, Some b => a =? b | None, _ => true | Some _, None => false end) = true <->
    re_total r = None \/ (is_Some total /\ re_total r = total)).
  { destruct (re_total r) as [a|], total as [b|]; rewrite ?Z.eqb_eq; split; try done; try (by left).
    - intros ->. right. split; [by eexists|done].
    - by intros [?|[_ [= ->]]].
    - by intros [?|[[] _]]. }
  rewrite Hu, Hl. destruct (strong_etag etag) eqn:Es; rewrite ?andb_true_iff, !agree_spec.
  - split; [intros [[[? ?] ?] _]; split; auto|intros [? ? ? _ _]; auto].
  - split; [intros [[[? ?] [? ?]] [?|?]]; [done|split; auto]|intros [? ? ? [?|?] [?|?]]; try congruence; split_and!; auto].
Qed.

(** C17. Resuming trusts only evidence that matches: a byte of an earlier run is
    taken as verified exactly when the journal is about the same URL, length and
    representation as the server's answer now (a strong entity tag, or a weak
    one when the job waives verification) and the durable range that holds it
    ends within the length; the journal is wiped only when nothing is taken
    over and the evidence contradicts the answer or need not be kept. *)
Theorem resume_seeds_only_trusted resume0 chain i total etag lm : resume_ok resume0 ->
  (forall x, RangeSet.mem x (seed_from resume0 chain i total etag lm).1.1 <->
     exists e r, resume0 = Some e /\ trusted e chain i total etag lm /\ r ∈ RangeSet.iter (re_durable e) /\ ByteRange.mem x r /\
       forall t, total = Some t -> ByteRange.end_ r <= t) /\
  ((seed_from resume0 chain i total etag lm).2 = true ->
     (seed_from resume0 chain i total etag lm).1 = (RangeSet.empty, 0) /\
     exists e, resume0 = Some e /\ keeps_bytes (judge_resume e chain total etag lm) i = false).
Proof.
  intros Hres. unfold seed_from. destruct resume0 as [e|].
  - specialize (Hres e eq_refl). pose proof (trusts_journal_spec e chain i total etag lm) as Ht.
    destruct (trusts_journal _ i) eqn:E; cbn.
    + destruct (seed_fold_mem total _ (RangeSet.wf_ranges _ Hres : Forall _ (RangeSet.iter (re_durable e))) (RangeSet.empty, 0) RangeSet.empty_wf) as [_ Hm].
      split; [|done]. intros x. rewrite Hm, RangeSet.mem_empty. split.
      * intros [[]|(r&?&?&?)]. exists e, r. split_and!; try done. by apply Ht.
      * intros (e'&r&[= <-]&_&?&?&?). right. by exists r.
    + split; [|intros H; split; [done|]; exists e; split; [done|]; by apply negb_true_iff].
      intros x. rewrite RangeSet.mem_empty. split; [done|]. intros (e'&r&[= <-]&Hs&_). by apply Ht in Hs.
  - cbn. split; [|done]. intros x. rewrite RangeSet.mem_empty. split; [done|]. by intros (?&?&?&_).
Qed.
End resumption.

Module Endings.
Import Demo.

Lemma cancellation_ends_or_drains_witness : ~ live cancelled_run.1 1%N /\ exists b, cancelled_run.2 = FailJob 1%N CANCELLED_SENTINEL :: b.
Proof.
  destruct resolved_job1 as (j&Hj&Hp).
  pose proof (cancellation_ends_or_drains (L := Counter.lib) (clock 3) 20 no_exp resolved_run.1 _ _ 1%N 3 _ _ resolved_reach cancelled_done) as H.
  rewrite Hj, Hp in H. destruct H as (Hn&Hb&_). split; [exact Hn|exact Hb].
Defined.

Lemma redirect_hops_are_safe_witness : exists j u new_key, live redirected_run.1 1%N /\ hop_allowed ready_run.1 j u new_key /\
  hopped 1%N 1%N j u redirected_run.1 (crosses ready_run.1 j new_key /\
    forward_credentials_cross_origin (redirects (JobNode.policy j)) = false).
Proof.
  assert (Hl : live redirected_run.1 1%N) by (apply alive_live; vm_compute; reflexivity).
  destruct ready_job1 as (j&src&Hj&Ha&Hs).
  pose proof (redirect_hops_are_safe (L := Counter.lib) (clock 4) 20 no_exp ready_run.1) as H.
  specialize (H _ _ 1%N 1%N 302 "https://other.test/a.bin"%string 4 _ _ j 1%N src ready_reach Hj Ha Hs redirected_done).
  destruct H as [H|(u&nk&_&H1&H2)]; [destruct (H Hl)|]. exists j, u, nk. split; [exact Hl|]. split; [exact H1|exact H2].
Defined.

Definition admits (spec : JobSpec) (key0 : string) (p : DestinationLeaseError + key * key -> bool) : bool :=
  match WorldModel.admit_job (clock 9) spec key0 (Ctl.world busy_run.1) with Some (_, r) => p r | None => false end.

(** In a controller that downloads to [file]: another job for [file], a job
    without a source, and one that is taken in. *)
Lemma admission_outcome_witness : leased (Ctl.world busy_run.1) "file" /\
  admits (mkJobSpec [] IntegritySpec_default Normal ThroughputSensitive None CrashSafe TransferPolicy_default None) "other"
    (fun r => match r with inl NoSource => true | _ => false end) = true /\
  (exists w r, WorldModel.admit_job (clock 9) (JobSpec_new other_site) "other" (Ctl.world busy_run.1) = Some (w, inr r) /\ tables_ok w).
Proof.
  pose proof (admission_outcome (L := Counter.lib) (S := Counter.sec_lib) (W := web) no_exp 20 (clock 9)) as H. split; [|split].
  - destruct (H (JobSpec_new other_site) "file"%string busy_run.1 _ _ busy_reach) as (w&r&E&_&Hb&_). apply Hb.
    assert (Hr : admits (JobSpec_new other_site) "file" (fun r => match r with inl (Busy s) => String.eqb s "file" | _ => false end) = true)
      by (vm_compute; reflexivity). unfold admits in Hr. rewrite E in Hr. destruct r as [[s|]|]; try discriminate Hr.
    apply String.eqb_eq in Hr. by rewrite Hr.
  - vm_compute. reflexivity.
  - destruct (H (JobSpec_new other_site) "other"%string busy_run.1 _ _ busy_reach) as (w&r&E&Ht&_).
    assert (Hr : admits (JobSpec_new other_site) "other" (fun r => match r with inr _ => true | _ => false end) = true)
      by (vm_compute; reflexivity). unfold admits in Hr. rewrite E in Hr. destruct r as [|r]; [discriminate Hr|]. exists w, r. split; [exact E|exact Ht].
Defined.

Definition journal_evidence : ResumeEvidence :=
  mkResumeEvidence (RangeSet.insert RangeSet.empty (ByteRange.new 0 100)) (Some 200) (Some (String (Ascii.ascii_of_nat 34) "v1"%string)) None ["u"%string].

Lemma resume_seeds_only_trusted_witness : resume_ok (Some journal_evidence) /\
  RangeSet.mem 5 (seed_from (Some journal_evidence) ["u"%string] IntegritySpec_default (Some 200)
    (Some (String (Ascii.ascii_of_nat 34) "v1"%string)) None).1.1.
Proof.
  assert (Hr : resume_ok (Some journal_evidence)).
  { intros e [= <-]. apply RangeSet.insert_wf_mem; [exact RangeSet.empty_wf|vm_compute; repeat split; discriminate]. }
  split; [exact Hr|]. apply (resume_seeds_only_trusted _ _ _ _ _ _ Hr).
  exists journal_evidence, (ByteRange.new 0 100). split; [reflexivity|]. split; [|split; [vm_compute; left|split; [vm_compute; split; [discriminate|reflexivity]|]]].
  - split; [exists "u"%string; split; reflexivity|right; split; [eexists; reflexivity|reflexivity]|reflexivity|left; reflexivity|left; reflexivity].
  - intros t [= <-]. vm_compute. discriminate.
Defined.
End Endings.
