(* ===== verification/ControlSpec.v ===== *)
(** * What the control thread promises.

    From the start on, whatever the mailboxes bring and however the
    environment answers: waiters are told once, the work of a job carries its
    context and stops with it, and a job resumes from what is on disk. *)

From Stdlib Require Import String.
From S2P Require Import Prelude Ranges Float Rates Errors Disk Context Representation Policy Spec SlotMap Timers Segment PlanFrame World Controller Lifecycle Adaptive Handle Protocol Frames Refine Admission Runs Commands Journal Control ControlLaws ControlRuns Demo.
Local Open Scope Z_scope.

Section promises.
Context {L : SlotMapLib} {HL : SlotMapLaws L} {S : SecMapLib L} {W : WebLib}.
Context (exp : f64 -> f64) (fuel : nat) (env : Env).
Context (to_allocvec : Wire -> option (list Z)) (from_bytes : list Z -> option Wire) (crc32c : list Z -> Z).
Context (key_order : list key -> list key) (shown : Error -> string).

Abbreviation run_loop := (run_loop exp fuel env to_allocvec from_bytes crc32c key_order shown).

(** [l] is what the loop is after it started on [d] and went through [boxes]. *)
Record ran (depth : nat) (boxes : list Inbox) (d : disk) (ended : bool) (l : Loop) : Prop := {
  ran_decodes : decodes_u64 from_bytes;
  ran_orders : orders_all key_order;
  ran_inboxes : Forall inbox_fine boxes;
  ran_from : exists shards now limits context profile clk on memory, in_u64 (EngineLimits.max_active_assignments limits) /\
    run_loop depth boxes (boot shards now limits context profile clk on memory d) = Done (ended, l);
  ran_keys : NoDup (admitted (trace l)) }.

Lemma ran_ok depth boxes d ended l : ran depth boxes d ended l -> loop_ok exp fuel ended [] l /\ (ended = true -> states l = ∅).
Proof.
  intros [Hdec Ho Hb (sh&now&lim&cx&pr&clk&on&mem&Hl&Hr) Hn].
  pose proof (cwp_run exp fuel env to_allocvec from_bytes crc32c key_order shown Hdec depth boxes
    (boot sh now lim cx pr clk on mem d) Ho Hb) as Hw.
  apply (cwp_done _ _ _ _ _ Hw) in Hr as (_&H1&H2). split; [|done]. apply H1; [done|]. by apply boot_ok.
Qed.

(** C8. A waiter hears of its job exactly once, and not before the job has left
    the table; while it is there the controller has it. What it hears is the
    outcome that the controller ended the job with; or, of a job that still
    lived when the loop ended, that the engine is gone. Only where the
    controller discards the destination, the result channel is given up and no
    outcome is sent. When the loop has ended, every job that was ever admitted
    has been answered in one of these ways. *)
Theorem waiters_told_once depth boxes d ended l k : ran depth boxes d ended l ->
  exists seen acts0, reach exp fuel (controller l) seen acts0 /\
  (replies k (trace l) + drops k (trace l) = if decide (k ∈ admitted (trace l) /\ states l !! k = None) then 1 else 0)%nat /\
  (forall o, Replies k o ∈ trace l ->
     (exists a, a ∈ acts0 /\ outcome_of a = Some (k, o)) \/
     (ended = true /\ live (controller l) k /\ o = inl (Runtime RuntimeEngineGone))) /\
  (drops k (trace l) ≠ 0%nat -> DiscardDestination k ∈ acts0) /\
  (is_Some (states l !! k) -> k ∈ admitted (trace l) /\ live (controller l) k) /\
  (ended = true -> replies k (trace l) + drops k (trace l) = if decide (k ∈ admitted (trace l)) then 1 else 0)%nat.
Proof.
  intros Hr. destruct (ran_ok _ _ _ _ _ Hr) as [Hok He]. destruct (lo_reach _ _ _ _ _ Hok) as (seen&acts0&R1&_&_&R4).
  rewrite Forall_forall in R4. exists seen, acts0. rewrite <- told_split, (lo_told _ _ _ _ _ Hok k). split_and!; [done|done| | | |].
  - intros o Ho. exact (R4 _ Ho).
  - intros Hd%drops_in. exact (R4 _ Hd).
  - intros [s Hs]. destruct (lo_table _ _ _ _ _ Hok _ _ Hs) as [Hin [Hl|(a&Ha&_)]]; [done|]. by apply elem_of_nil in Ha.
  - intros Hend. apply decide_ext. rewrite (He Hend), lookup_empty. tauto.
Qed.

(** C9. Whatever work was sent to a shard for a job carries the context of that
    job: the one in the table while the job is there, a closed one afterwards.
    When the loop has ended no context of any job is active. *)
Theorem work_ends_with_job depth boxes d ended l : ran depth boxes d ended l ->
  (forall e k x, e ∈ trace l -> carries e = Some (k, x) -> k ∈ admitted (trace l) /\
     match states l !! k with
     | Some s => st_context s = x
     | None => exists c, contexts l !! cell x = Some c /\ state c ≠ ACTIVE
     end) /\
  (forall i c, contexts l !! i = Some c -> state c = ACTIVE -> exists k s, states l !! k = Some s /\ cell (st_context s) = i) /\
  (forall k k' s s', states l !! k = Some s -> states l !! k' = Some s' -> cell (st_context s) = cell (st_context s') -> k = k') /\
  (ended = true -> Forall (fun c => state c ≠ ACTIVE) (contexts l)).
Proof.
  intros Hr. destruct (ran_ok _ _ _ _ _ Hr) as [Hok He]. split_and!.
  - exact (lo_sent _ _ _ _ _ Hok).
  - exact (lo_closed _ _ _ _ _ Hok).
  - exact (lo_owner _ _ _ _ _ Hok).
  - intros Hend. apply Forall_lookup. intros i c Hi Ha. destruct (lo_closed _ _ _ _ _ Hok _ _ Hi Ha) as (k&s&Hs&_).
    by rewrite (He Hend), lookup_empty in Hs.
Qed.

(** ** What a checkpoint leaves on disk *)

Lemma exec_all err ops fault d d' : exec err ops fault d = (d', inr tt) -> d' = foldl (fun d o => apply_op o d) d ops.
Proof.
  revert fault d. induction ops as [|o ops IH]; cbn; intros fault d; [by intros [= ->]|].
  destruct fault as [[[|n] kd]|]; [done|apply IH|apply IH].
Qed.

Lemma persisted_on_disk j fault d j' d' : persist_blocking to_allocvec crc32c j fault d = (j', d', inr tt) -> dirty j = true ->
  exists body, to_allocvec (to_wire (payload j)) = Some body /\ j' = mkJournal (path j) (payload j) false /\
    now_image d' !! path j = Some (mkFile (frame crc32c body) true) /\ rollback d' = [].
Proof.
  unfold persist_blocking. intros H Hd. rewrite Hd in H. cbn [negb] in H. unfold encode in H.
  destruct (to_allocvec _) as [body|]; [|done]. exists body. split; [done|].
  destruct (exec _ _ _ _) as [d2 [e|[]]] eqn:Ex; [done|]. injection H as <- <-. split; [done|].
  apply exec_all in Ex. subst d2. cbn -[tmp_path frame].
  pose proof (tmp_path_ne (path j)) as Hne. rewrite !lookup_alter_eq, lookup_insert_eq. cbn [option_map fmap option_fmap].
  cbn -[tmp_path frame]. by rewrite lookup_insert_eq.
Qed.

Lemma survived d p f after : now_image d !! p = Some f -> synced f = true -> rollback d = [] -> power_loss d after -> after p = Some (data f).
Proof.
  intros Hp Hs Hr (i&Hi&Ha)%Exists_exists. rewrite Hr in Hi. apply list_elem_of_singleton in Hi as ->. specialize (Ha p).
  rewrite Hp in Ha. by apply Ha.
Qed.

(** The record of the journal is on disk for good. *)
Definition on_disk (d : disk) (j : Journal) : Prop := forall after, power_loss d after ->
  load_blocking from_bytes crc32c (path j) (read_file after (path j)) = inr (Some (mkJournal (path j) (payload j) false)).

(** C11. What a job resumes from is what is on disk: the journal a new job is given
    starts empty or is the decoded journal file of the destination, and then a
    byte is claimed if and only if that journal has it in a durable range that
    ends within the partial file as it is found. Completed and durable are the
    same, and the evidence that the controller judges is that journal's. No file
    is touched. *)
Theorem resume_is_from_disk co spec l j l' : decodes_u64 from_bytes -> discover_resume env from_bytes crc32c co spec l = Done (j, l') ->
  fs l' = fs l /\ JournalSpec.ok j /\ RangeSet.wf (re_durable (evidence_of (payload j))) /\
  (re_durable (evidence_of (payload j)) = RangeSet.empty \/
   exists f j0, now_image (fs l) !! co_journal_path co = Some f /\
     load_blocking from_bytes crc32c (co_journal_path co) (inr (data f)) = inr (Some j0) /\
     forall x, RangeSet.mem x (re_durable (evidence_of (payload j))) <->
       exists r, r ∈ RangeSet.iter (durable (payload j0)) /\ ByteRange.mem x r /\ ByteRange.end_ r <= part_size (fs l) (co_part_path co)).
Proof.
  intros Hdec Hrun. destruct (cwp_done _ _ _ _ _ (cwp_discover env from_bytes crc32c co spec l Hdec) Hrun) as (_&Hf&Hj&Hd).
  split_and!; [done|done| |exact Hd]. exact (proj2 (proj1 Hj)).
Qed.

Lemma synced_ranges node j : completed (payload (sync_fingerprint node j)) = completed (payload j) /\
  durable (payload (sync_fingerprint node j)) = durable (payload j) /\ path (sync_fingerprint node j) = path j /\
  (dirty j = true -> dirty (sync_fingerprint node j) = true).
Proof. by destruct node. Qed.

(** What the code relies on of [postcard] and the checksum. *)
Abbreviation codec := (JournalSpec.codec_laws to_allocvec from_bytes crc32c).

(** The header has 32 bits for the length of the record. *)
Definition fits (j : Journal) : Prop := forall b, to_allocvec (to_wire (payload j)) = Some b -> Z.of_nat (length b) < 2 ^ 32.

(** Why a journal cannot be written: its record cannot be encoded, or the
    [q]-th answer of the disk is that one of the calls that write it fails:
    creating the temporary file, writing it, syncing it, the rename, syncing
    the directory. *)
Definition cannot_write (q : nat) (j : Journal) : Prop :=
  to_allocvec (to_wire (payload j)) = None \/ exists n kd, disk_faults env q = Some (n, kd) /\ (n < 5)%nat.

Lemma written_on_disk j fault d j' d' : codec -> payload_wf (payload j) -> dirty j = true ->
  persist_blocking to_allocvec crc32c j fault d = (j', d', inr tt) -> (fits j' -> on_disk d' j') /\ j' = mkJournal (path j) (payload j) false.
Proof.
  intros [Hpc Hcrc] Hw Hd H. apply persisted_on_disk in H as (body&Hb&->&Hn&Hr); [|done]. split; [|done].
  intros Hshort after Ha. cbn [path payload]. unfold read_file. rewrite (survived _ _ _ _ Hn eq_refl Hr Ha). cbn [data].
  eapply load_encoded; try done; [by eapply Hshort|]. unfold encode. by rewrite Hb.
Qed.

Lemma failed_write j q d j' d' e : persist_blocking to_allocvec crc32c j (disk_faults env q) d = (j', d', inl e) ->
  j' = j /\ cannot_write q j.
Proof.
  unfold persist_blocking, cannot_write. destruct (negb (dirty j)); [done|]. unfold encode. destruct (to_allocvec _); [|intros [= <- _ _]; by auto].
  destruct (exec _ _ _ _) as [d2 []] eqn:Ex; [|done]. intros [= <- _ _]. apply exec_fault in Ex as (n&kd&?&?&_). eauto 6.
Qed.

Lemma persist_spec k j l st : codec -> states l !! k = Some st -> payload_wf (payload j) -> dirty j = true ->
  cwp (persist_journal env to_allocvec crc32c k j) l (fun persisted l' => exists j',
    states l' !! k = Some (st <| st_journal := Some j' |>) /\ path j' = path j /\ payload j' = payload j /\
    dirty j' = negb persisted /\ (persisted = true -> fits j' -> on_disk (fs l') j') /\
    (persisted = false -> cannot_write (asked l) j') /\ trace l' = trace l /\ subscribed l' = subscribed l).
Proof.
  intros Hfit Hk Hw Hd. unfold persist_journal. apply cwp_question, cwp_bind, cwp_look.
  change (fs (l <| asked ::= Datatypes.S |>)) with (fs l).
  destruct (persist_blocking to_allocvec crc32c j _ (fs l)) as [[j2 d2] res] eqn:Ep. cbn [fst snd].
  apply cwp_bind, cwp_change, cwp_bind, cwp_change, cwp_ret. exists j2.
  split; [cbn; by rewrite lookup_alter_eq, Hk|]. destruct res as [e|[]].
  - apply failed_write in Ep as [-> Hc]. by split_and!.
  - apply written_on_disk in Ep as [H ->]; [|done..]. by split_and!.
Qed.

(** A checkpoint writes [f j]: if the write went through, the record is on disk
    and this is announced; otherwise it is not announced. *)
Lemma checkpoint_spec k f l st j : codec -> states l !! k = Some st -> st_journal st = Some j ->
  payload_wf (payload (f j)) -> dirty (f j) = true ->
  cwp (checkpoint_journal_at env to_allocvec crc32c k f) l (fun persisted l' => exists st' j',
    states l' !! k = Some st' /\ st_journal st' = Some j' /\ path j' = path (f j) /\
    completed (payload j') = completed (payload (f j)) /\ durable (payload j') = durable (payload (f j)) /\
    dirty j' = negb persisted /\ (persisted = true -> fits j' -> on_disk (fs l') j') /\
    (persisted = false -> cannot_write (asked l) j') /\
    trace l' = trace l ++ if persisted && subscribed l then [Emits (Checkpointed k (bytes_written (payload j')) true)] else []).
Proof.
  intros Hfit Hk Hj Hw Hd. unfold checkpoint_journal_at, state_of, job_node. apply cwp_bind, cwp_look. rewrite Hk, Hj.
  apply cwp_bind, cwp_look. set (j1 := sync_fingerprint _ _). destruct (synced_ranges (Ctl.job (controller l) k) (f j)) as (E1&E2&E3&E4).
  fold j1 in E1, E2, E3, E4. apply cwp_bind. eapply cwp_mono.
  { apply (persist_spec k j1 l st Hfit Hk); [|by apply E4]. unfold payload_wf. by rewrite E1, E2. }
  intros persisted l2 (j'&K2&P2&L2&D2&S2&X2&T2&U2). destruct persisted; cbn [negb andb] in *.
  - apply cwp_bind, cwp_look. rewrite K2. unfold emit_event. apply cwp_bind, cwp_bind, cwp_look. rewrite U2.
    set (st' := st <| st_journal := Some j' |>) in *. destruct (subscribed l); cbn [cwhen].
    + apply cwp_change, cwp_ret. exists st', j'. cbn. rewrite L2, T2, E1, E2, P2, E3. by split_and!; auto.
    + apply cwp_ret, cwp_ret. exists st', j'. rewrite L2, T2, E1, E2, P2, E3, app_nil_r. by split_and!; auto.
  - apply cwp_ret. exists (st <| st_journal := Some j' |>), j'. rewrite L2, T2, E1, E2, P2, E3, app_nil_r. by split_and!.
Qed.

Lemma crash_safe_progress k a r smp conn cross l node st j :
  codec -> Ctl.job (controller l) k = Some node -> JobNode.durability node = CrashSafe ->
  states l !! k = Some st -> st_journal st = Some j -> JournalSpec.ok j -> ByteRange.wf r ->
  cwp (record_progress env to_allocvec crc32c (AssignmentVerified k a r smp conn cross)) l (fun _ l' =>
  exists st' j', states l' !! k = Some st' /\ st_journal st' = Some j' /\ path j' = path j /\
    (forall x, RangeSet.mem x (durable (payload j')) <-> RangeSet.mem x (completed (payload j)) \/ ByteRange.mem x r) /\
    if dirty j' then cannot_write (Datatypes.S (asked l)) j' /\ trace l' = trace l
    else (fits j' -> on_disk (fs l') j') /\
         trace l' = trace l ++ if subscribed l then [Emits (Checkpointed k (bytes_written (payload j')) true)] else []).
Proof.
  intros Hfit Hn Hc Hk Hj Hok Hr. cbn [record_progress]. unfold job_node. apply cwp_bind, cwp_look. rewrite Hn, Hc.
  apply cwp_question, cwp_bind. set (f := fun j => _). destruct Hok as [[Hw Hw2] _]. destruct (RangeSet.insert_wf_mem _ r Hw Hr) as [Hi Hm].
  eapply cwp_mono; [by apply (checkpoint_spec k f _ st j Hfit)|]. intros persisted l2 (st'&j'&K&J&P&E1&E2&D&O&X&T).
  apply cwp_ret. exists st', j'. split_and!; [done..| |].
  - intros x. rewrite E2. apply Hm.
  - rewrite D. destruct persisted; cbn [negb andb] in *; [split; [by apply O|exact T]|split; [by apply X|by rewrite T, app_nil_r]].
Qed.

(** C10. A piece of a crash-safe job that a shard has verified is in the journal,
    as durable, before anything else happens, and the record is read back with
    the piece, and all that was complete before it, after any loss of power,
    provided that it is shorter than the 4 GiB its header can say. Only if the
    record cannot be encoded, or the disk fails one of the five calls that write
    it, it is not on disk: then the journal stays dirty and no checkpoint is
    announced. *)
Theorem crash_safe_pieces_survive k a r smp conn cross l node st j u l' :
  codec -> Ctl.job (controller l) k = Some node -> JobNode.durability node = CrashSafe ->
  states l !! k = Some st -> st_journal st = Some j -> JournalSpec.ok j -> ByteRange.wf r ->
  record_progress env to_allocvec crc32c (AssignmentVerified k a r smp conn cross) l = Done (u, l') ->
  exists st' j', states l' !! k = Some st' /\ st_journal st' = Some j' /\ path j' = path j /\
    (forall x, RangeSet.mem x (durable (payload j')) <-> RangeSet.mem x (completed (payload j)) \/ ByteRange.mem x r) /\
    if dirty j' then cannot_write (Datatypes.S (asked l)) j' /\ trace l' = trace l
    else (fits j' -> on_disk (fs l') j') /\
         trace l' = trace l ++ if subscribed l then [Emits (Checkpointed k (bytes_written (payload j')) true)] else [].
Proof.
  intros Hfit Hn Hc Hk Hj Hok Hr. apply (cwp_done _ _ _ _ _ (crash_safe_progress k a r smp conn cross l node st j Hfit Hn Hc Hk Hj Hok Hr)).
Qed.

(** ** The commit *)

(** Only the trace grew, by [t]. *)
Definition says (t : list Effect) (l l' : Loop) : Prop := l' = l <| trace := trace l ++ t |> <| asked := asked l' |>.

Lemma says_trans t1 t2 l1 l2 l3 : says t1 l1 l2 -> says t2 l2 l3 -> says (t1 ++ t2) l1 l3.
Proof. unfold says. intros -> ->. cbn. by rewrite app_assoc. Qed.

Lemma offer_says shard cmd l : cwp (offer env shard cmd) l (fun r l' => says [Sends shard cmd r] l l').
Proof. done. Qed.

(** The commands of a broadcast, in the order of the shards, with the answers. *)
Definition sends_all (n : nat) (cmd : ShardCommand) (rs : list (option TrySendError)) : list Effect :=
  zip_with (fun shard r => Sends shard cmd r) (Z.of_nat <$> seq 0 n) rs.

Lemma offers_say cmd ks l : cwp (each ks (fun shard => offer env shard cmd ;; cret tt)) l (fun _ l' =>
  exists rs, length rs = length ks /\ says (zip_with (fun shard r => Sends shard cmd r) ks rs) l l').
Proof.
  revert l. induction ks as [|i ks IH]; intros l; cbn [each].
  - apply cwp_ret. exists []. split; [done|]. unfold says. cbn. rewrite app_nil_r. by destruct l.
  - apply cwp_bind, cwp_bind. eapply cwp_mono; [apply offer_says|]. intros r l1 H1. apply cwp_ret.
    eapply cwp_mono; [apply IH|]. intros [] l2 (rs&Hl&H2). exists (r :: rs). split; [cbn; by rewrite Hl|].
    exact (says_trans [_] _ _ _ _ H1 H2).
Qed.

Lemma broadcast_says cmd l : cwp (broadcast env cmd) l (fun _ l' => exists rs,
  length rs = Z.to_nat (shard_count l) /\ says (sends_all (Z.to_nat (shard_count l)) cmd rs) l l').
Proof.
  unfold broadcast, all_shards. apply cwp_bind, cwp_look. eapply cwp_mono; [apply offers_say|]. intros [] l' (rs&Hl&H).
  exists rs. split; [|exact H]. by rewrite Hl, length_fmap, length_seq.
Qed.

Lemma await_silent n deadline l : cwp (await_acks env n deadline) l (fun _ l' => says [] l l').
Proof.
  assert (Hr : forall l, says [] l l) by (intros []; unfold says; cbn; by rewrite app_nil_r).
  assert (Ha : forall l, says [] l (l <| asked ::= Datatypes.S |>)) by (intros []; unfold says; cbn; by rewrite app_nil_r).
  revert l. induction n as [|n IH]; intros l; cbn [await_acks]; [by apply cwp_ret|].
  apply cwp_question. destruct (_ <=? _); [apply cwp_ret, Ha|]. apply cwp_question. set (l2 := l <| asked ::= _ |> <| asked ::= _ |>).
  assert (H2 : says [] l l2) by (apply (says_trans [] [] _ (l <| asked ::= Datatypes.S |>)); apply Ha).
  destruct (lane_acks _ _); [|by apply cwp_ret]. eapply cwp_mono; [apply IH|]. intros [] l' H. by apply (says_trans [] [] _ _ _ H2).
Qed.

Lemma close_lanes_says p l : cwp (close_lanes_everywhere env p) l (fun _ l' => exists rs,
  length rs = Z.to_nat (shard_count l) /\ says (sends_all (Z.to_nat (shard_count l)) (CmdCloseLane p) rs) l l').
Proof.
  unfold close_lanes_everywhere. apply cwp_bind. eapply cwp_mono; [apply broadcast_says|]. intros [] l1 (rs&Hl&H1).
  apply cwp_bind, cwp_look, cwp_question. eapply cwp_mono; [apply await_silent|]. intros [] l2 H2. exists rs. split; [done|].
  rewrite <- (app_nil_r (sends_all _ _ _)). eapply says_trans; [|exact H2]. unfold says in *. rewrite H1. done.
Qed.

Lemma send_shard_says shard cmd l : 0 <= shard < shard_count l -> cwp (send_shard env shard cmd) l (fun _ l' => exists r,
  says (Sends shard cmd r :: match r with
        | None => []
        | Some e => [Posts (DispatchFailed (match e with Full => OpStartAssignment | Disconnected => OpCloseConnection end) None None None None)]
        end) l l').
Proof.
  intros Hs. unfold send_shard. apply cwp_bind, cwp_look. rewrite (proj2 (Z.leb_le _ _)), (proj2 (Z.ltb_lt _ _)) by lia. cbn [andb negb].
  apply cwp_bind. eapply cwp_mono; [apply offer_says|]. intros [e|] l1 H1; [|apply cwp_ret; by exists None].
  apply cwp_change. exists (Some e). eapply (says_trans [_]); [exact H1|]. unfold says. by destruct l1.
Qed.

Lemma commit_barrier k n i l st co : 0 < shard_count l ->
  states l !! k = Some st -> st_shared st = None -> st_coordinator st = Some co ->
  cwp (commit_destination env k n i) l (fun _ l' => exists rs r, length rs = Z.to_nat (shard_count l) /\
   l' = l <| states ::= alter (fun s => s <| st_coordinator := None |>) k |> <| asked := asked l' |>
     <| trace := trace l ++ sends_all (Z.to_nat (shard_count l)) (CmdCloseLane (st_part_path st)) rs ++
       Sends 0 (CmdCommitDestination k (st_part_path st) co n i (ctx_durability (st_context st))) r ::
       match r with
       | None => []
       | Some e => [Posts (DispatchFailed (match e with Full => OpStartAssignment | Disconnected => OpCloseConnection end) None None None None)]
       end |>).
Proof.
  intros Hn Hk Hsh Hco. unfold commit_destination, state_of. apply cwp_bind, cwp_look. rewrite Hk, Hsh, Hco.
  apply cwp_bind, cwp_change, cwp_bind. set (l1 := l <| states ::= _ |>).
  eapply cwp_mono; [apply close_lanes_says|]. intros [] l2 (rs&Hl&H2). change (shard_count l1) with (shard_count l) in *.
  eapply cwp_mono.
  { apply send_shard_says. unfold says in H2. rewrite H2. cbn. lia. }
  intros [] l3 (r&H3). exists rs, r. split; [done|]. unfold says in *. rewrite H3, H2. cbn. rewrite <- app_assoc. done.
Qed.

(** C12. A file is committed behind a barrier: its coordinator is given up, every
    shard is told to close its lane on the partial file, in the order of the
    shards, and only then is the first shard told to commit. If its mailbox does
    not take that, the failure is posted. The coordinator is given up only once:
    a second commit is answered on the spot, as done, and sends nothing. *)
Theorem commit_is_behind_barrier k n i l st co u l' : 0 < shard_count l ->
  states l !! k = Some st -> st_shared st = None -> st_coordinator st = Some co ->
  commit_destination env k n i l = Done (u, l') ->
  (exists rs r, length rs = Z.to_nat (shard_count l) /\
     trace l' = trace l ++ sends_all (Z.to_nat (shard_count l)) (CmdCloseLane (st_part_path st)) rs ++
       Sends 0 (CmdCommitDestination k (st_part_path st) co n i (ctx_durability (st_context st))) r ::
       match r with
       | None => []
       | Some e => [Posts (DispatchFailed (match e with Full => OpStartAssignment | Disconnected => OpCloseConnection end) None None None None)]
       end) /\
  states l' !! k = Some (st <| st_coordinator := None |>) /\
  forall n' i', commit_destination env k n' i' l' = Done (tt, l' <| trace ::= fun t => t ++ [Posts (DestinationCommitted k n' None)] |>).
Proof.
  intros Hn Hk Hsh Hco Hrun. destruct (cwp_done _ _ _ _ _ (commit_barrier k n i l st co Hn Hk Hsh Hco) Hrun) as (rs&r&Hl&->).
  split_and!.
  - by exists rs, r.
  - cbn. by rewrite lookup_alter_eq, Hk.
  - intros n' i'. unfold commit_destination, state_of, cbind, look. cbn -[sends_all]. rewrite lookup_alter_eq, Hk. cbn -[sends_all]. by rewrite Hsh.
Qed.
End promises.

Module Progress.
Import ProgressPublisher.

(** What is published, in its order. *)
Definition publication (x : step) : list DownloadProgress.t :=
  match x with Publish p | Close (Some p) => [p] | _ => [] end.

Definition opens (x : step) : bool := match x with Close _ => false | _ => true end.
Definition late (x : step) : bool := match x with Publish _ | Close (Some _) => false | _ => true end.

(** [ps] has been published; the callback has seen the first [n] of it. *)
Record inv (ps : list DownloadProgress.t) (t : thread) : Prop := {
  inv_generation : generation (shared t) = Z.of_nat (length ps);
  inv_latest : last ps = Some (latest (shared t));
  inv_seen : exists n, seen t = Z.of_nat n /\ (n <= length ps)%nat /\
    sublist (reported t) (take n ps) /\ last (reported t) = last (take n ps);
  inv_stopped : stopped t = true -> seen t = generation (shared t) }.

Lemma last_take_all {A} (ps : list A) n : (length ps <= n)%nat -> last (take n ps) = last ps.
Proof. intros H. by rewrite take_ge. Qed.

Lemma inv_published ps t p b : inv ps t -> Z.of_nat (length ps) < 2 ^ 64 - 1 -> stopped t = false ->
  inv (ps ++ [p]) (mkThread (mkState p (u64_add (generation (shared t)) 1) b) (seen t) (reported t) (stopped t)).
Proof.
  intros [Hg Hl (n&Hn&Hle&Hs&Hr) Hst] Hlt Hns. split; cbn.
  - rewrite Hg, length_app. cbn. rewrite u64_add_small; [lia|u64_lia].
  - by rewrite last_snoc.
  - exists n. rewrite length_app, take_app_le by done. split_and!; [done|lia|done|done].
  - congruence.
Qed.

Lemma inv_wakes ps t : inv ps t -> inv ps (run_step t Wakes) /\ shared (run_step t Wakes) = shared t /\
  stopped (run_step t Wakes) = stopped t || closed (shared t).
Proof.
  intros Hi. pose proof Hi as [Hg Hl (n&Hn&Hle&Hs&Hr) Hst]. cbn [run_step]. destruct (stopped t) eqn:Es; [by split_and!|].
  unfold run_callback. rewrite Hg, Hn in *. destruct (Z.eqb_spec (Z.of_nat (length ps)) (Z.of_nat n)) as [He|He]; cbn [andb].
  - destruct (closed (shared t)) eqn:Ec; cbn [negb]; [|by split_and!]. cbn.
    split_and!; [|done|done]. split; cbn; try done. exists n. rewrite app_nil_r. split_and!; [lia|done|done|done].
  - cbn. split_and!; [|done|done]. split; cbn; try done. exists (length ps). rewrite last_snoc, take_ge by done. split_and!; [done|lia| |done].
    apply last_Some in Hl as [ps0 Hps]. transitivity (take n ps ++ [latest (shared t)]); [by apply sublist_app|].
    rewrite Hps, length_app in *. cbn in *. rewrite take_app_le by lia. apply sublist_app; [apply sublist_take|done].
Qed.

Lemma inv_spawn p : inv [p] (spawn p).
Proof. split; try done. exists 0%nat. by split_and!; try lia. Qed.

(** While the publisher is open. *)
Lemma open_run xs ps t : inv ps t -> stopped t = false -> closed (shared t) = false -> Forall (fun x => opens x = true) xs ->
  Z.of_nat (length (ps ++ mjoin (publication <$> xs))) < 2 ^ 64 ->
  let t' := foldl run_step t xs in inv (ps ++ mjoin (publication <$> xs)) t' /\ stopped t' = false /\ closed (shared t') = false.
Proof.
  intros Hi Hs Hc Hx. revert ps t Hi Hs Hc. induction Hx as [|x xs Hx _ IH]; intros ps t Hi Hs Hc Hlen; cbn; [by rewrite app_nil_r|].
  destruct x as [p|p|]; [|done|]; cbn in *.
  - rewrite cons_middle, app_assoc in *. apply IH; [|done..|done]. apply inv_published; [done| |done]. rewrite !length_app in Hlen. cbn in Hlen. lia.
  - destruct (inv_wakes _ _ Hi) as (H1&H2&H3). apply IH; [done| | |done]; cbn in *; [by rewrite H3, Hs, Hc|by rewrite H2].
Qed.

(** Once it is closed. *)
Lemma closed_run xs ps t : inv ps t -> closed (shared t) = true -> Forall (fun x => late x = true) xs ->
  let t' := foldl run_step t xs in inv ps t' /\ (stopped t = true \/ Wakes ∈ xs -> stopped t' = true).
Proof.
  intros Hi Hc Hx. revert t Hi Hc. induction Hx as [|x xs Hx _ IH]; intros t Hi Hc; cbn.
  - split; [done|]. by intros [?|?%not_elem_of_nil].
  - destruct x as [p|[p|]|]; [done|done| |].
    + destruct (IH (run_step t (Close None))) as [H1 H2]; [by destruct Hi|done|]. split; [done|]. intros Hw. apply H2.
      destruct Hw as [|Hw]; [by left|]. right. by apply elem_of_cons in Hw as [|].
    + destruct (inv_wakes _ _ Hi) as (H1&H2&H3). destruct (IH (run_step t Wakes)) as [H4 H5]; [done|by rewrite H2|].
      split; [done|]. intros _. apply H5. left. by rewrite H3, Hc, orb_true_r.
Qed.

(** The callback is shown some of what is published, in its order, and however
    it is scheduled never misses the end: once the publisher is closed, at the
    callback thread's next turn it has been shown the last value there is and
    the thread is done. (Fewer than [2 ^ 64] values are published.) *)
Theorem last_progress_is_shown p0 before final after :
  Forall (fun x => opens x = true) before -> Forall (fun x => late x = true) after -> Wakes ∈ after ->
  let ps := p0 :: mjoin (publication <$> before) ++ publication (Close final) in
  Z.of_nat (length ps) < 2 ^ 64 ->
  let t := foldl run_step (spawn p0) (before ++ Close final :: after) in
  sublist (reported t) ps /\ last (reported t) = last ps /\ stopped t = true.
Proof.
  intros Hb Ha Hw ps Hlen t. unfold ps in Hlen. rewrite app_comm_cons, length_app in Hlen.
  destruct (open_run before [p0] (spawn p0)) as (H1&H2&H3); [apply inv_spawn|done|done|done|cbn in *; lia|]. cbn [app] in H1.
  set (t0 := foldl run_step (spawn p0) before) in *.
  assert (Hcl : inv ps (run_step t0 (Close final)) /\ closed (shared (run_step t0 (Close final))) = true).
  { split; [|by destruct final]. unfold ps. destruct final as [p|]; cbn.
    - rewrite app_comm_cons. apply inv_published; [done|cbn in *; lia|done].
    - rewrite app_nil_r. by destruct H1. }
  destruct Hcl as [Hi Hc]. destruct (closed_run after ps _ Hi Hc Ha) as [Hi' Hst]. specialize (Hst (or_intror Hw)).
  unfold t. rewrite foldl_app. fold t0. cbn [foldl]. destruct Hi' as [Hg Hl (n&Hn&Hle&Hs&Hr) Hsn].
  specialize (Hsn Hst). assert (n = length ps) by lia. subst n. by rewrite take_ge in Hs, Hr.
Qed.

Definition at_bytes (n : Z) : DownloadProgress.t := DownloadProgress.mk n (Some 100) None None None.

(** The thread gets the lock once in the middle and once after the end. *)
Lemma last_progress_is_shown_witness :
  let steps := [Publish (at_bytes 10); Publish (at_bytes 20); Wakes; Publish (at_bytes 30)] in
  let t := foldl run_step (spawn (at_bytes 0)) (steps ++ Close (Some (at_bytes 100)) :: [Close None; Wakes]) in
  reported t = [at_bytes 20; at_bytes 100] /\ last (reported t) = Some (at_bytes 100) /\ stopped t = true.
Proof.
  intros steps t. split; [reflexivity|].
  pose proof (last_progress_is_shown (at_bytes 0) steps (Some (at_bytes 100)) [Close None; Wakes]) as H.
  destruct H as (_&H1&H2); [repeat constructor|repeat constructor|right; left|reflexivity|]. split; [exact H1|exact H2].
Defined.
End Progress.

(** ** A session *)

Module Session.
Import Demo.

(** A quiet environment: a clock that ticks with every question, mailboxes with
    room, a disk without faults. *)
Definition quiet : Env := mkEnv (fun n => clock (Z.of_nat n)) (fun _ => None) (fun _ => None) (fun _ => true) (fun _ => None) (fun _ => 0).
Definition no_file (b : list Z) : option Wire := None.
Definition no_record (w : Wire) : option (list Z) := None.
Definition no_sum (b : list Z) : Z := 0.
Definition in_order (l : list key) : list key := l.
Definition no_text (e : Error) : string := "".

Definition place : FileDestinationCoordinator := mkCoordinator "a.bin" "a.bin.part" "a.bin.lock" "a.bin.part.state".
Definition request : ControlCommand := mkCommand (JobSpec_new site) "file" (Some (inr place)) None None true false.
Definition stop : ControlCommand := mkCommand (JobSpec_new site) "" None None None false true.

Definition brings (o : Observation) : Inbox := mkInbox [] [] [] (Got o) false.
Definition asks : Inbox := mkInbox [request] [] [] TimedOut false.
Definition ends_now : Inbox := mkInbox [stop] [] [] TimedOut false.

Definition booted (d : disk) : Loop := boot 2 0 EngineLimits.default None None (clock 0) true 0 d.
Definition quiet_loop (boxes : list Inbox) : outcome (bool * Loop) :=
  run_loop no_exp 20 quiet no_record no_file no_sum in_order no_text 2 boxes (booted (mkDisk ∅ [])).
Definition session (boxes : list Inbox) : bool * Loop :=
  match quiet_loop boxes with Done r => r | _ => (false, booted (mkDisk ∅ [])) end.

(** A download that is finished, and one that is cut off. *)
Definition download : list Inbox := [asks; brings found; brings connected; brings answered; brings verified; brings published; ends_now].
Definition cut_off : list Inbox := [asks; brings found; brings connected; brings answered; ends_now].

Lemma found_fine : obs_fine found.
Proof. by split. Qed.
Lemma connected_fine : obs_fine connected.
Proof. by split. Qed.
Lemma answered_fine : obs_fine answered.
Proof. split; [done|]. intros c. vm_compute. split; discriminate. Qed.
Lemma verified_fine : obs_fine verified.
Proof. split; [done|]. intros c. vm_compute. repeat split; discriminate. Qed.
Lemma published_fine : obs_fine published.
Proof. by split. Qed.

Lemma brings_fine o : obs_fine o -> inbox_fine (brings o).
Proof. intros H obs. by intros [= <-]. Qed.

Lemma no_file_decodes : decodes_u64 no_file.
Proof. by intros b w. Qed.

Lemma session_ran boxes : Forall inbox_fine boxes -> is_done (quiet_loop boxes) = true ->
  bool_decide (NoDup (ControlLaws.admitted (trace (session boxes).2))) = true ->
  ran no_exp 20 quiet no_record no_file no_sum in_order no_text 2 boxes (mkDisk ∅ []) (session boxes).1 (session boxes).2.
Proof.
  intros Hb Hd Hn. split; [exact no_file_decodes|by intros l|done| |by apply bool_decide_eq_true in Hn].
  exists 2, 0, EngineLimits.default, None, None, (clock 0), true, 0. split; [vm_compute; split; discriminate|].
  change (quiet_loop boxes = Done ((session boxes).1, (session boxes).2)). unfold session. by destruct (quiet_loop boxes) as [[]| |].
Qed.

Lemma download_ran : ran no_exp 20 quiet no_record no_file no_sum in_order no_text 2 download (mkDisk ∅ [])
  (session download).1 (session download).2.
Proof.
  apply session_ran; [|vm_compute; reflexivity..].
  repeat apply Forall_cons_2; [by intros ?|apply brings_fine, found_fine|apply brings_fine, connected_fine|apply brings_fine, answered_fine|
    apply brings_fine, verified_fine|apply brings_fine, published_fine|by intros ?|apply Forall_nil_2].
Qed.

Lemma cut_off_ran : ran no_exp 20 quiet no_record no_file no_sum in_order no_text 2 cut_off (mkDisk ∅ [])
  (session cut_off).1 (session cut_off).2.
Proof.
  apply session_ran; [|vm_compute; reflexivity..].
  repeat apply Forall_cons_2; [by intros ?|apply brings_fine, found_fine|apply brings_fine, connected_fine|apply brings_fine, answered_fine|
    by intros ?|apply Forall_nil_2].
Qed.

Lemma waiters_told_once_witness :
  (replies 1%N (trace (session download).2) + drops 1%N (trace (session download).2) = 1)%nat /\
  (replies 1%N (trace (session cut_off).2) + drops 1%N (trace (session cut_off).2) = 1)%nat /\
  (replies 2%N (trace (session download).2) + drops 2%N (trace (session download).2) = 0)%nat /\
  drops 1%N (trace (session download).2) = 0%nat /\ drops 1%N (trace (session cut_off).2) = 0%nat.
Proof.
  destruct (waiters_told_once (L := Counter.lib) _ _ _ _ _ _ _ _ _ _ _ _ _ 1%N download_ran) as (?&?&_&_&_&_&_&H1).
  destruct (waiters_told_once (L := Counter.lib) _ _ _ _ _ _ _ _ _ _ _ _ _ 1%N cut_off_ran) as (?&?&_&_&_&_&_&H2).
  destruct (waiters_told_once (L := Counter.lib) _ _ _ _ _ _ _ _ _ _ _ _ _ 2%N download_ran) as (?&?&_&_&_&_&_&H3).
  rewrite H1, H2, H3 by (vm_compute; reflexivity). vm_compute. repeat split; reflexivity.
Defined.

(** The work that was sent for the job of a download that is cut off. *)
Lemma work_ends_with_job_witness : (length (retain (fun e => match carries e with Some _ => true | None => false end) (trace (session cut_off).2)) = 2)%nat /\
  Forall (fun c => state c ≠ ACTIVE) (contexts (session cut_off).2).
Proof.
  split; [vm_compute; reflexivity|].
  destruct (work_ends_with_job (L := Counter.lib) _ _ _ _ _ _ _ _ _ _ _ _ _ cut_off_ran) as (_&_&_&H). apply H. vm_compute. reflexivity.
Defined.

(** A codec that knows one record. *)
#[local] Instance fingerprint_eq_dec : EqDecision JournaledFingerprint.t.
Proof. solve_decision. Defined.
#[local] Instance wire_eq_dec : EqDecision Wire.
Proof. solve_decision. Defined.

Definition knows_to (w0 w : Wire) : option (list Z) := if decide (w = w0) then Some [1; 2; 3] else None.
Definition knows_from (w0 : Wire) (b : list Z) : option Wire := if decide (b = [1; 2; 3]) then Some w0 else None.

Lemma knows_codec w0 : JournalSpec.codec_laws (knows_to w0) (knows_from w0) no_sum.
Proof.
  split; [|by intros b; vm_compute].
  intros w b. unfold knows_to, knows_from. destruct (decide _) as [->|]; [|done]. by intros [= <-].
Qed.

(** A journal of an earlier run, two durable ranges, and a partial file that has
    lost its tail. *)
Definition earlier : Journal :=
  mark_completed_durable (record_completed 8 (record_completed 7 (create "a.bin.part.state"
    (JournalPayload_new 5 (JournaledFingerprint.mk (Some 8) None None "https://example.test/a.bin" [] [] None) (Some 8) 0))
    (ByteRange.new 0 4)) (ByteRange.new 6 8)).
Definition found_disk : disk :=
  mkDisk (<["a.bin.part.state"%string := mkFile (frame no_sum [1; 2; 3]) true]>
         (<["a.bin.part"%string := mkFile (repeat 0 6) true]> ∅)) [].
Definition rediscover := discover_resume quiet (knows_from (to_wire (payload earlier))) no_sum place (JobSpec_new site).

Definition resumed : Journal * Loop :=
  match rediscover (booted found_disk) with Done r => r | _ => (earlier, booted found_disk) end.

Lemma earlier_decodes : decodes_u64 (knows_from (to_wire (payload earlier))).
Proof.
  intros b w. unfold knows_from. destruct (decide _); [|done]. intros [= <-]. split; repeat constructor; cbn; u64_lia.
Qed.

Lemma resume_is_from_disk_witness : RangeSet.ranges (durable (payload resumed.1)) = [ByteRange.new 0 4] /\
  JournalSpec.ok resumed.1 /\ fs resumed.2 = found_disk.
Proof.
  assert (Hd : is_done (rediscover (booted found_disk)) = true) by (vm_compute; reflexivity).
  assert (H : rediscover (booted found_disk) = Done (resumed.1, resumed.2)) by (unfold resumed; by destruct (rediscover _) as [[]| |]).
  split; [vm_compute; reflexivity|].
  destruct (resume_is_from_disk (L := Counter.lib) (W := web) quiet _ no_sum place (JobSpec_new site) (booted found_disk) resumed.1 resumed.2
    earlier_decodes H) as (H1&H2&_). split; [exact H2|exact H1].
Defined.

(** A crash-safe download, up to its first piece. *)
Definition safe_spec : JobSpec := mkJobSpec [SourceRequest_new site] IntegritySpec_default Normal ThroughputSensitive None CrashSafe TransferPolicy_default None.
Definition safe_request : ControlCommand := mkCommand safe_spec "file" (Some (inr place)) None None true false.
Definition safe_start : list Inbox := [mkInbox [safe_request] [] [] TimedOut false; brings found; brings connected; brings answered].
Definition before_piece : Loop := (session safe_start).2.

Definition node1 : option JobNode.t := Ctl.job (controller before_piece) 1%N.
Definition state1 : option JobState := states before_piece !! 1%N.
Definition journal1 : option Journal := state1 ≫= st_journal.
Definition recorded : Journal :=
  sync_fingerprint node1 (mark_completed_durable (record_completed (Z.of_nat (asked before_piece)) (default earlier journal1) (ByteRange.new 0 100000))).

Definition known_to : Wire -> option (list Z) := knows_to (to_wire (payload recorded)).
Definition known_from : list Z -> option Wire := knows_from (to_wire (payload recorded)).
Definition record_piece : outcome (unit * Loop) :=
  record_progress quiet known_to no_sum (AssignmentVerified 1%N piece1 (ByteRange.new 0 100000) sample 1%N true) before_piece.
Definition after_piece : Loop := match record_piece with Done (_, l) => l | _ => before_piece end.
Definition journal_after : Journal := default earlier (states after_piece !! 1%N ≫= st_journal).

Lemma safe_start_journals st j : state1 = Some st -> st_journal st = Some j -> JournalSpec.ok j.
Proof.
  assert (Hran : ran no_exp 20 quiet no_record no_file no_sum in_order no_text 2 safe_start (mkDisk ∅ [])
    (session safe_start).1 before_piece).
  { apply session_ran; [|vm_compute; reflexivity..].
    repeat apply Forall_cons_2; [by intros ?|apply brings_fine, found_fine|apply brings_fine, connected_fine|apply brings_fine, answered_fine|
      apply Forall_nil_2]. }
  destruct (ran_ok (L := Counter.lib) _ _ _ _ _ _ _ _ _ _ _ _ _ Hran) as [Hok _]. exact (lo_journals _ _ _ _ _ Hok 1%N st j).
Qed.

Lemma node1_safe : exists n, node1 = Some n /\ JobNode.durability n = CrashSafe.
Proof.
  assert (H : match node1 with Some n => match JobNode.durability n with CrashSafe => true | _ => false end | None => false end = true)
    by (vm_compute; reflexivity).
  destruct node1 as [n|]; [|discriminate H]. exists n. split; [reflexivity|]. by destruct (JobNode.durability n).
Qed.

Lemma state1_journal : exists st j, state1 = Some st /\ st_journal st = Some j.
Proof.
  assert (H : match state1 with Some st => match st_journal st with Some _ => true | None => false end | None => false end = true)
    by (vm_compute; reflexivity).
  destruct state1 as [st|]; [|discriminate H]. exists st. destruct (st_journal st) as [j|]; [|discriminate H]. by exists j.
Qed.

Lemma record_piece_done : record_piece = Done (tt, after_piece).
Proof.
  assert (Hd : is_done record_piece = true) by (vm_compute; reflexivity).
  unfold after_piece. by destruct record_piece as [[[]]| |].
Qed.

Lemma crash_safe_pieces_survive_witness : exists j', (states after_piece !! 1%N ≫= st_journal) = Some j' /\
  RangeSet.mem 99999 (durable (payload j')) /\ on_disk known_from no_sum (fs after_piece) j'.
Proof.
  destruct node1_safe as (n&Hn&Hc), state1_journal as (st&j&Hs&Hj). pose proof (safe_start_journals st j Hs Hj) as Hok.
  assert (Hr : ByteRange.wf (ByteRange.new 0 100000)) by (repeat split; cbn; u64_lia).
  assert (Hclean : dirty journal_after = false) by (vm_compute; reflexivity). unfold journal_after in Hclean.
  pose proof record_piece_done as Hrun. unfold record_piece in Hrun. revert Hclean Hrun. generalize after_piece as l'. intros l' Hclean Hrun.
  destruct (crash_safe_pieces_survive (L := Counter.lib) (W := web) quiet known_to known_from no_sum 1%N piece1 (ByteRange.new 0 100000) sample 1%N true
    before_piece n st j tt l' (knows_codec _) Hn Hc Hs Hj Hok Hr Hrun) as (st'&j'&K&J&P&M&O).
  assert (E : (states l' !! 1%N ≫= st_journal) = Some j') by (apply bind_Some; exists st'; split; [exact K|exact J]).
  rewrite E in Hclean. cbn [default] in Hclean. exists j'. split; [exact E|]. change (dirty j' = false) in Hclean. rewrite Hclean in O.
  split; [apply M; right; unfold ByteRange.mem; cbn; lia|]. apply (proj1 O). intros b. unfold known_to, knows_to.
  destruct (decide _); [|done]. by intros [= <-].
Defined.

(** A commit, with two shards. *)
Definition at_commit : Loop := (session [asks; brings found; brings connected; brings answered]).2.
Definition commit_now : outcome (unit * Loop) := commit_destination quiet 1%N 100000 None at_commit.
Definition committed_loop : Loop := match commit_now with Done (_, l) => l | _ => at_commit end.

Lemma commit_now_done : commit_now = Done (tt, committed_loop).
Proof.
  assert (Hd : is_done commit_now = true) by (vm_compute; reflexivity).
  unfold committed_loop. by destruct commit_now as [[[]]| |].
Qed.

Lemma at_commit_state : exists st, states at_commit !! 1%N = Some st /\ st_shared st = None /\ exists co, st_coordinator st = Some co.
Proof.
  assert (H : match states at_commit !! 1%N with
              | Some st => match st_shared st, st_coordinator st with None, Some _ => true | _, _ => false end | None => false end = true)
    by (vm_compute; reflexivity).
  destruct (states at_commit !! 1%N) as [st|]; [|discriminate H]. exists st.
  destruct (st_shared st); [discriminate H|]. destruct (st_coordinator st) as [co|]; [|discriminate H]. by eauto.
Qed.

Lemma commit_is_behind_barrier_witness : length (trace committed_loop) = (length (trace at_commit) + 3)%nat /\
  exists p rs c r t, length rs = 2%nat /\ trace committed_loop = trace at_commit ++ sends_all 2 (CmdCloseLane p) rs ++ Sends 0 c r :: t.
Proof.
  split; [vm_compute; reflexivity|].
  destruct at_commit_state as (st&Hst&Hsh&co&Hco). pose proof commit_now_done as Hrun. unfold commit_now in Hrun. revert Hrun.
  generalize committed_loop as l'. intros l' Hrun.
  destruct (commit_is_behind_barrier (L := Counter.lib) (W := web) quiet 1%N 100000 None at_commit st co tt l'
    ltac:(vm_compute; reflexivity) Hst Hsh Hco Hrun) as ((rs&r&Hl&Ht)&_&_).
  assert (Hn : Z.to_nat (shard_count at_commit) = 2%nat) by (vm_compute; reflexivity). rewrite Hn in Hl, Ht.
  do 5 eexists. split; [exact Hl|exact Ht].
Defined.

(** A download with a request in flight that is shut down: its waiter is told that
    the engine is gone, not that the job is cancelled, and nothing is
    checkpointed. *)
Lemma shutdown_gives_up_draining :
  existsb (fun e => match e with Replies 1%N (inl (Runtime RuntimeEngineGone)) => true | _ => false end) (trace (session cut_off).2) = true /\
  existsb (fun e => match e with Emits (Checkpointed _ _ _) => true | _ => false end) (trace (session cut_off).2) = false.
Proof. vm_compute. by split. Qed.
End Session.
