(* ===== verification/ShardSpec.v ===== *)
(** * What a shard promises.

    Along every run of the loop and its tasks: each fetch that was ordered is
    reported once, one request at a time uses an HTTP/1 connection, a shortened
    assignment stops where it is told to. *)

From Stdlib Require Import String.
From S2P Require Import Prelude Fetch Ranges Float Rates Errors Disk Context Representation Policy Spec SlotMap Timers Segment World Controller Commands Shard Demo.
Local Open Scope Z_scope.

(** How many elements pass a test. *)
Definition tally {A} (f : A -> bool) (l : list A) : nat := length (retain f l).
Arguments tally : simpl never.

Lemma tally_app {A} (f : A -> bool) l k : tally f (l ++ k) = (tally f l + tally f k)%nat.
Proof. unfold tally, retain. by rewrite filter_app, length_app. Qed.

Lemma tally_one {A} (f : A -> bool) x : tally f [x] = if f x then 1%nat else 0%nat.
Proof. unfold tally, retain. rewrite filter_cons, filter_nil. destruct (f x); by case_decide. Qed.

Lemma tally_snoc {A} (f : A -> bool) l x : tally f (l ++ [x]) = (tally f l + if f x then 1 else 0)%nat.
Proof. by rewrite tally_app, tally_one. Qed.

Lemma tally_cons {A} (f : A -> bool) x l : tally f (x :: l) = ((if f x then 1 else 0) + tally f l)%nat.
Proof. by rewrite (tally_app f [x] l : tally f (x :: l) = _), tally_one. Qed.

Lemma tally_set {A} (f : A -> bool) l i x y : l !! i = Some x ->
  (tally f (<[i := y]> l) + (if f x then 1 else 0) = tally f l + (if f y then 1 else 0))%nat.
Proof.
  revert i. induction l as [|z l IH]; intros [|i] Hi; try done.
  - injection Hi as ->. change (<[0%nat := y]> (x :: l)) with (y :: l). rewrite !tally_cons. lia.
  - change (<[Datatypes.S i := y]> (z :: l)) with (z :: <[i := y]> l). rewrite !tally_cons. specialize (IH i Hi). lia.
Qed.

Lemma tally_pos {A} (f : A -> bool) l : (0 < tally f l)%nat <-> exists i x, l !! i = Some x /\ f x = true.
Proof.
  induction l as [|z l IH].
  - split; [intros H; by apply Nat.lt_irrefl in H|]. by intros (i&x&?&_).
  - rewrite tally_cons. destruct (f z) eqn:Ez.
    + split; [|lia]. intros _. by exists 0%nat, z.
    + rewrite Nat.add_0_l, IH. split; intros (i&x&Hi&Hx); [by exists (Datatypes.S i), x|]. destruct i as [|i]; [|by exists i, x].
      injection Hi as ->. congruence.
Qed.

Lemma tally_two {A} (f : A -> bool) l i j x y : l !! i = Some x -> l !! j = Some y -> f x = true -> f y = true -> i <> j ->
  (2 <= tally f l)%nat.
Proof.
  revert i j. induction l as [|z l IH]; intros [|i] [|j] Hi Hj Hx Hy Hn; try done; cbn in *; rewrite tally_cons.
  - injection Hi as ->. rewrite Hx. assert (0 < tally f l)%nat by (apply tally_pos; eauto). lia.
  - injection Hj as ->. rewrite Hy. assert (0 < tally f l)%nat by (apply tally_pos; eauto). lia.
  - assert (2 <= tally f l)%nat by (eapply IH; eauto). lia.
Qed.

Section shard.
Context {L : SlotMapLib} {S : SecMapLib L} {W : WebLib}.

Lemma tasks_at i s t : task_at i s = Some t -> tasks s !! i = Some (Some t).
Proof. unfold task_at. destruct (tasks s !! i) as [[]|]; cbn; congruence. Qed.

(** ** Reports *)

Definition works_on (a : AssignmentRef) (t : option Task) : bool :=
  match t with Some (mkTask (Fetches _ b _ _ _ _ _) _ _) => bool_decide (b = a) | _ => false end.

Definition tells (a : AssignmentRef) (o : Output) : bool :=
  match o with
  | Observes (AssignmentVerified _ b _ _ _ _) | Observes (AssignmentFailed _ b _ _ _ _ _) => bool_decide (b = a)
  | _ => false
  end.

Definition starts (a : AssignmentRef) (e : event) : bool :=
  match e with
  | Receives (CmdStartRange _ b _ _ _ _ _ _ _ _ _ _ _ _) _ | Receives (CmdStartFullBody _ _ b _ _ _ _ _ _ _ _) _ => bool_decide (b = a)
  | _ => false
  end.

(** Running fetches and reports of an assignment. *)
Definition account (a : AssignmentRef) (s : Shard) : nat := (tally (works_on a) (tasks s) + tally (tells a) (sent s))%nat.

Lemma account_put a o s : account a (put o s) = (account a s + if tells a o then 1 else 0)%nat.
Proof. unfold account. change (sent (put o s)) with (sent s ++ [o]). rewrite tally_snoc. change (tasks (put o s)) with (tasks s). lia. Qed.

Lemma account_spawn a t s : account a (spawn t s) = (account a s + if works_on a (Some t) then 1 else 0)%nat.
Proof. unfold account. change (tasks (spawn t s)) with (tasks s ++ [Some t]). rewrite tally_snoc. change (sent (spawn t s)) with (sent s). lia. Qed.

Lemma account_same a s s' : tasks s' = tasks s -> sent s' = sent s -> account a s' = account a s.
Proof. unfold account. by intros -> ->. Qed.

Lemma account_set a s s' i t t' : task_at i s = Some t -> tasks s' = <[i := t']> (tasks s) -> sent s' = sent s ->
  (account a s' + (if works_on a (Some t) then 1 else 0) = account a s + (if works_on a t' then 1 else 0))%nat.
Proof.
  intros Ht E1 E2. unfold account. rewrite E1, E2. pose proof (tally_set (works_on a) (tasks s) i (Some t) t' (tasks_at _ _ _ Ht)). lia.
Qed.

Lemma lane_same p b s l s' : lane_for p b s = Some (l, s') -> tasks s' = tasks s /\ sent s' = sent s /\ pools s' = pools s /\ store s' = store s /\
  end_flags s' = end_flags s /\ flags s' = flags s.
Proof. unfold lane_for. destruct (lanes s !! p); [by intros [= _ <-]|]. destruct b; [by intros [= _ <-]|done]. Qed.

Lemma give_back_same p b c s : tasks (give_back p b c s) = tasks s /\ sent (give_back p b c s) = sent s /\
  end_flags (give_back p b c s) = end_flags s /\ flags (give_back p b c s) = flags s /\ pools (give_back p b c s) = pools s.
Proof. unfold give_back. destruct b; [done|]. by destruct c. Qed.

(** The ending of a fetch, in its four kinds. *)
Lemma session_ends_gives range lane pool st cancelled s : exists reusable retires,
  session_ends range lane pool st cancelled s = give_back pool reusable retires s /\ (cancelled = false -> retires = true).
Proof. destruct lane, range; cbn; do 2 eexists; (split; [reflexivity|]); by intros ->. Qed.

Lemma account_start a job b attempt connection range part_path ans s :
  account a (start_fetch job b attempt connection range part_path ans s) = (account a s + if bool_decide (b = a) then 1 else 0)%nat.
Proof.
  unfold start_fetch. assert (H : forall s0 range0 lane pool, tasks s0 = tasks s -> sent s0 = sent s ->
    account a (start_task job b attempt connection range0 lane pool s0) = (account a s + if bool_decide (b = a) then 1 else 0)%nat).
  { intros s0 range0 lane pool E1 E2. unfold start_task. rewrite account_spawn. f_equal. by apply account_same. }
  destruct (decide _); destruct (pools s !! connection) as [pool|]; [by apply H|by apply account_put| |by apply account_put].
  destruct (lane_for part_path (lane_opens ans) s) as [[lane s']|] eqn:El; [|by apply account_put].
  apply H; by apply (lane_same _ _ _ _ _ El).
Qed.

Lemma account_end a i t s s' obs : task_at i s = Some t -> tasks s' = <[i := None]> (tasks s) -> sent s' = sent s ->
  works_on a (Some t) = tells a (Observes obs) -> account a (report obs s') = account a s.
Proof.
  intros Ht E1 E2 Hw. unfold report. rewrite account_put, <- Hw. pose proof (account_set a s s' i t None Ht E1 E2). cbn in *. lia.
Qed.

Lemma fetch_report_tells a job b attempt connection range r st :
  tells a (Observes (fetch_report job b attempt connection range r st)) = bool_decide (b = a).
Proof. by destruct r as [|[]]. Qed.

Lemma account_refused a i t s : task_at i s = Some t -> account a (refused i (work t) s) = account a s.
Proof.
  intros Ht. destruct t as [w q z]. cbn. destruct w; [done|..].
  - by eapply account_end.
  - eapply account_end; [exact Ht|done..|]. by rewrite fetch_report_tells.
  - by eapply account_end.
Qed.

Lemma account_command a cmd ans s : account a (on_command cmd ans s) = (account a s + if starts a (Receives cmd ans) then 1 else 0)%nat.
Proof.
  destruct cmd; cbn [on_command starts]; rewrite ?Nat.add_0_r; try by apply account_start.
  - by rewrite account_spawn, Nat.add_0_r.
  - unfold start_probe. destruct (pools s !! connection); [by rewrite account_spawn, Nat.add_0_r|].
    unfold report. by rewrite account_put, Nat.add_0_r.
  - unfold close_connection. by destruct (pools s !! connection).
  - done.
  - by rewrite account_put, Nat.add_0_r.
  - by rewrite account_put, Nat.add_0_r.
  - unfold truncate_assignment. by destruct (end_flags s !! assignment).
  - unfold start_sample, report. destruct (pools s !! connection); [|by rewrite account_put, Nat.add_0_r].
    destruct (lane_for part_path (lane_opens ans) s) as [[lane s']|] eqn:El; [|by rewrite account_put, Nat.add_0_r].
    rewrite account_spawn, Nat.add_0_r. by apply account_same; apply (lane_same _ _ _ _ _ El).
  - unfold commit_observation, report. rewrite account_put. by destruct (commit_result ans); rewrite Nat.add_0_r.
Qed.

Lemma account_step a s e s' : step s e = Some s' -> account a s' = (account a s + if starts a e then 1 else 0)%nat.
Proof.
  destruct e as [cmd ans|i r|i|i r b|i r b|i r b]; cbn [step].
  - intros [= <-]. apply account_command.
  - destruct (task_at i s) as [[[] [] []]|] eqn:Ht; try done. intros [= <-]. rewrite Nat.add_0_r. unfold dialed.
    destruct r as [[e|[w h]]|]; by eapply account_end.
  - destruct (task_at i s) as [[w [pool|] []]|] eqn:Ht; try done. intros [= <-]. rewrite Nat.add_0_r. unfold poll_task.
    destruct (store s !! pool) as [p|]; [|done]. destruct (ConnPool.acquire p) as [z p'| |]; [| |done].
    + cbn [work]. match goal with |- account a ?s' = _ => pose proof (account_set a s s' i _ _ Ht eq_refl eq_refl) as H end.
      cbn [works_on] in H. lia.
    + exact (account_refused a i _ s Ht).
  - destruct (task_at i s) as [[[] [pool|] [w|]]|] eqn:Ht; try done. intros [= <-]. rewrite Nat.add_0_r. unfold fetched.
    match goal with |- context [session_ends ?a0 ?b0 ?c0 ?d0 ?e0 ?s0] => destruct (session_ends_gives a0 b0 c0 d0 e0 s0) as (u&v&->&_) end.
    eapply account_end; [exact Ht|cbn; by rewrite (proj1 (give_back_same _ _ _ _))|cbn; by rewrite (proj1 (proj2 (give_back_same _ _ _ _)))|].
    by rewrite fetch_report_tells.
  - destruct (task_at i s) as [[[] [pool|] [w|]]|] eqn:Ht; try done. intros [= <-]. rewrite Nat.add_0_r. unfold probed.
    eapply account_end; [exact Ht|by rewrite (proj1 (give_back_same _ _ _ _))|by rewrite (proj1 (proj2 (give_back_same _ _ _ _)))|].
    by destruct r as [|[]].
  - destruct (task_at i s) as [[[] [pool|] [w|]]|] eqn:Ht; try done. intros [= <-]. rewrite Nat.add_0_r. unfold sampled.
    by eapply account_end; [exact Ht|by rewrite (proj1 (give_back_same _ _ _ _))|by rewrite (proj1 (proj2 (give_back_same _ _ _ _)))|].
Qed.

Lemma account_run a es s s' : run es s = Some s' -> account a s' = (account a s + tally (starts a) es)%nat.
Proof.
  revert s. induction es as [|e es IH]; intros s; cbn [run].
  - intros [= <-]. change (tally (starts a) []) with 0%nat. lia.
  - destruct (step s e) as [s1|] eqn:E; [|done]. intros H. rewrite (IH _ H), (account_step a _ _ _ E), tally_cons. lia.
Qed.

(** C13. Every fetch that is ordered is answered for, whatever the shard is in the
    middle of: at any moment the reports about an assignment and the tasks that
    still work on it are together as many as the orders given for it. *)
Theorem every_start_reports_once a es s : run es idle = Some s ->
  tally (starts a) es = (tally (works_on a) (tasks s) + tally (tells a) (sent s))%nat.
Proof. intros H. symmetry. exact (account_run a es idle s H). Qed.

(** ** Sessions *)

(** The task holds the session of pool [p], an HTTP/1 one. *)
Definition holder (p : nat) (t : option Task) : bool :=
  match t with Some (mkTask _ (Some q) (Some Fetch.Http1)) => bool_decide (q = p) | _ => false end.

Definition is_h1 (w : WireProtocol) : bool := match w with Fetch.Http1 => true | _ => false end.

(** Whether the session is in the pool. *)
Definition free (q : ConnPool.t) : nat :=
  match ConnPool.conn q with Some (mkPhysical Fetch.Http1 true) => 1 | _ => 0 end.

Record pool_ok (q : ConnPool.t) : Prop := {
  pk_kind : forall c, ConnPool.conn q = Some c -> ConnPool.h1 q = is_h1 (wire c);
  pk_dead : ConnPool.dead q = match ConnPool.conn q with Some _ => false | None => true end }.

(** With [strict], the session of a connection that is not given up is either in
    its pool or held by a task. *)
Record sessions_ok (strict : bool) (s : Shard) : Prop := {
  so_pool : forall p q, store s !! p = Some q -> pool_ok q;
  so_one : forall p q, store s !! p = Some q -> (tally (holder p) (tasks s) + free q <= 1)%nat;
  so_strict : strict = true -> forall p q c, store s !! p = Some q -> ConnPool.conn q = Some c -> wire c = Fetch.Http1 ->
    (tally (holder p) (tasks s) + free q = 1)%nat;
  so_on : forall i t p, tasks s !! i = Some (Some t) -> on_pool t = Some p -> (p < length (store s))%nat;
  so_pools : forall k p, pools s !! k = Some p -> (p < length (store s))%nat;
  so_wire : forall i t p w q, tasks s !! i = Some (Some t) -> on_pool t = Some p -> session t = Some w -> store s !! p = Some q ->
    ConnPool.h1 q = is_h1 w }.

Lemma sessions_same b s s' : sessions_ok b s -> tasks s' = tasks s -> store s' = store s ->
  (forall k p, pools s' !! k = Some p -> pools s !! k = Some p) -> sessions_ok b s'.
Proof. intros [H1 H2 H3 H4 H5 H6] E1 E2 E3. split; rewrite ?E1, ?E2; eauto. Qed.

Lemma sessions_spawn b s s' w op : sessions_ok b s -> (forall p, op = Some p -> (p < length (store s))%nat) ->
  tasks s' = tasks s ++ [Some (mkTask w op None)] -> store s' = store s -> pools s' = pools s -> sessions_ok b s'.
Proof.
  intros [H1 H2 H3 H4 H5 H6] Hop E1 E2 E3.
  assert (Ht : forall p, tally (holder p) (tasks s') = tally (holder p) (tasks s)).
  { intros p. rewrite E1, tally_snoc. cbn. destruct op; lia. }
  assert (Hl : forall i t, tasks s' !! i = Some (Some t) -> tasks s !! i = Some (Some t) \/ t = mkTask w op None).
  { intros i t. rewrite E1. intros [[_ ?]|[_ Hx]]%lookup_snoc_Some; [by left|right; congruence]. }
  split.
  - by rewrite E2.
  - intros p q. rewrite E2, Ht. apply H2.
  - intros Hb p q c. rewrite E2, Ht. by apply H3.
  - intros i t p Hi Hp. rewrite E2. destruct (Hl _ _ Hi) as [Hx| ->]; [by eapply H4|by apply Hop].
  - intros k p. rewrite E3, E2. apply H5.
  - intros i t p z q Hi Hp Hz. rewrite E2. destruct (Hl _ _ Hi) as [Hx| ->]; [by eapply H6|done].
Qed.

(** What becomes of the pool of a task that ends. *)
Definition given (strict : bool) (w : WireProtocol) (q q' : ConnPool.t) : Prop :=
  pool_ok q' /\ ConnPool.h1 q' = ConnPool.h1 q /\
  (ConnPool.conn q' = None \/ (is_h1 w = false /\ q' = q) \/ (is_h1 w = true /\ free q' = 1%nat) \/
   (is_h1 w = true /\ strict = false /\ q' = q)).

Lemma free_None q : ConnPool.conn q = None -> free q = 0%nat.
Proof. unfold free. by intros ->. Qed.

Lemma sessions_end b s s' i t p w : sessions_ok b s -> task_at i s = Some t -> on_pool t = Some p -> session t = Some w ->
  tasks s' = <[i := None]> (tasks s) -> pools s' = pools s ->
  (forall j q', store s' !! j = Some q' -> exists q, store s !! j = Some q /\ if decide (j = p) then given b w q q' else q' = q) ->
  length (store s') = length (store s) -> sessions_ok b s'.
Proof.
  intros [H1 H2 H3 H4 H5 H6] Ht Hp Hw E1 E3 E2 El. apply tasks_at in Ht.
  assert (Hh : forall j, holder j (Some t) = bool_decide (p = j) && is_h1 w).
  { intros j. destruct t as [x op z]. cbn in Hp, Hw. subst op z. cbn. destruct w; by rewrite ?andb_true_r, ?andb_false_r. }
  assert (Hn : forall j, (tally (holder j) (tasks s') + (if bool_decide (p = j) && is_h1 w then 1 else 0) = tally (holder j) (tasks s))%nat).
  { intros j. rewrite E1, <- Hh. pose proof (tally_set (holder j) (tasks s) i (Some t) None Ht) as Hs. change (if holder j None then 1%nat else 0%nat) with 0%nat in Hs. lia. }
  assert (Hl : forall k u, tasks s' !! k = Some (Some u) -> tasks s !! k = Some (Some u)).
  { intros k u. rewrite E1. intros [(_&?&_)|[_ ?]]%list_lookup_insert_Some; [congruence|done]. }
  split.
  - intros j q' Hj. destruct (E2 _ _ Hj) as (q&Hq&Hg). case_decide; [apply Hg|]. subst q'. by eapply H1.
  - intros j q' Hj. destruct (E2 _ _ Hj) as (q&Hq&Hg). specialize (Hn j). specialize (H2 _ _ Hq). case_decide as Hd.
    + subst j. destruct Hg as (_&_&[Hc|[[Hz ->]|[[Hz Hf]|(Hz&_&->)]]]); [rewrite (free_None _ Hc)|..]; rewrite bool_decide_true in Hn by done;
        rewrite ?Hz in Hn; cbn in Hn; try lia.
    + subst q'. rewrite bool_decide_false in Hn by congruence. cbn in Hn. lia.
  - intros Hb j q' c Hj Hc Hz. destruct (E2 _ _ Hj) as (q&Hq&Hg). specialize (Hn j). case_decide as Hd.
    + subst j. destruct Hg as (_&_&[Hx|[[Hy ->]|[[Hy Hf]|(Hy&Hx&->)]]]); [congruence| | |congruence].
      * specialize (H3 Hb _ _ _ Hq Hc Hz). rewrite Hy, bool_decide_true in Hn by done. cbn in Hn. lia.
      * specialize (H2 _ _ Hq). rewrite Hy, bool_decide_true in Hn by done. cbn in Hn. lia.
    + subst q'. specialize (H3 Hb _ _ _ Hq Hc Hz). rewrite bool_decide_false in Hn by congruence. cbn in Hn. lia.
  - intros k u j Hk Hj. rewrite El. by eapply H4; [apply Hl|].
  - intros k j. rewrite E3, El. apply H5.
  - intros k u j z q' Hk Hj Hz Hq'. destruct (E2 _ _ Hq') as (q&Hq&Hg). pose proof (H6 _ _ _ _ _ (Hl _ _ Hk) Hj Hz Hq) as Hx.
    case_decide; [by rewrite (proj1 (proj2 Hg))|by subst q'].
Qed.

Lemma given_back b w q f : pool_ok q -> ConnPool.h1 q = is_h1 w ->
  f = ConnPool.release \/ f = ConnPool.retire \/ (f = id /\ b = false) -> given b w q (f q).
Proof.
  intros [Hk Hd] Hw [->|[->|[-> ->]]]; unfold given.
  - unfold ConnPool.release. rewrite Hw. destruct (is_h1 w) eqn:Ez; [|by split_and!; auto]. destruct (ConnPool.conn q) as [c|] eqn:Ec.
    + specialize (Hk c eq_refl). rewrite Hw in Hk. destruct c as [[] x]; try done. cbn. split_and!; [|done|right; right; left; done].
      split; cbn; [by intros c [= <-]|done].
    + cbn. split_and!; [split; cbn; [done|by rewrite Hd]|done|by left].
  - unfold ConnPool.retire. destruct (ConnPool.dead q) eqn:Ex; cbn.
    + destruct (ConnPool.conn q) eqn:Ec; [done|]. split_and!; [split; [by rewrite Ec|by rewrite Ec, Ex]|done|by left].
    + split_and!; [by split|done|by left].
  - split_and!; [by split|done|]. destruct (is_h1 w) eqn:Ez; [by right; right; right|by right; left].
Qed.

(** A task with a session ends. *)
Lemma sessions_finish b s s' i t p w reusable retires : sessions_ok b s -> task_at i s = Some t -> on_pool t = Some p -> session t = Some w ->
  (b = true -> reusable = true \/ retires = true) ->
  tasks s' = <[i := None]> (tasks s) -> pools s' = pools s -> store s' = store (give_back p reusable retires s) -> sessions_ok b s'.
Proof.
  intros Hs Ht Hp Hw Hb E1 E3 E2. set (f := if reusable then ConnPool.release else if retires then ConnPool.retire else id).
  assert (Ef : store s' = alter f p (store s)).
  { rewrite E2. unfold give_back, f. destruct reusable; [done|]. destruct retires; [done|]. symmetry. by apply list_alter_id. }
  assert (Hf : f = ConnPool.release \/ f = ConnPool.retire \/ (f = id /\ b = false)).
  { unfold f. destruct reusable; [by left|]. destruct retires; [by right; left|]. right. right. split; [done|].
    destruct b; [|done]. by destruct (Hb eq_refl). }
  eapply sessions_end; try done; rewrite Ef; [|by rewrite length_alter].
  intros j q' Hj. destruct (decide (j = p)) as [->|Hd].
  - rewrite list_lookup_alter, decide_True in Hj by done. apply fmap_Some in Hj as (q&Hq&->). exists q. split; [done|]. apply given_back; [by eapply so_pool| |done]. by eapply (so_wire _ _ Hs _ _ _ _ _ (tasks_at _ _ _ Ht)).
  - rewrite list_lookup_alter, decide_False in Hj by congruence. by exists q'.
Qed.

Lemma acquired_spec q z q' : pool_ok q -> ConnPool.acquire q = ConnPool.Session z q' ->
  pool_ok q' /\ ConnPool.h1 q' = ConnPool.h1 q /\ ConnPool.h1 q = is_h1 z /\
  exists c', ConnPool.conn q' = Some c' /\ if is_h1 z then free q = 1%nat /\ free q' = 0%nat else wire c' <> Fetch.Http1 /\ free q' = free q.
Proof.
  intros [Hk Hd]. unfold ConnPool.acquire. destruct (ConnPool.dead q) eqn:Ex; [done|]. destruct (ConnPool.conn q) as [c|] eqn:Ec; [|done].
  specialize (Hk c eq_refl). destruct (open_session c) as [c'|] eqn:Eo; [|by destruct (ConnPool.h1 q)]. intros [= <- <-]. cbn.
  destruct c as [[] x]; cbn in *; [destruct x; [|done]|..]; injection Eo as <-; (split_and!; [split; cbn; [intros c0 [= <-]; exact Hk|done]|done|exact Hk|]);
    (eexists; split; [done|]); unfold free; rewrite ?Ec; cbn; done.
Qed.

Lemma sessions_acquire b s s' i t p q z q' : sessions_ok b s -> task_at i s = Some t -> on_pool t = Some p -> session t = None ->
  store s !! p = Some q -> ConnPool.acquire q = ConnPool.Session z q' ->
  store s' = <[p := q']> (store s) -> tasks s' = <[i := Some (mkTask (work t) (Some p) (Some z))]> (tasks s) -> pools s' = pools s -> sessions_ok b s'.
Proof.
  intros Hok Ht Hp Hz Hq Ha E2 E1 E3. pose proof Hok as [H1 H2 H3 H4 H5 H6]. apply tasks_at in Ht.
  destruct (acquired_spec q z q' (H1 _ _ Hq) Ha) as (G1&G2&G3&c'&G4&G5). set (t' := mkTask (work t) (Some p) (Some z)) in *.
  assert (Hn : forall j, tally (holder j) (tasks s') = (tally (holder j) (tasks s) + if bool_decide (p = j) && is_h1 z then 1 else 0)%nat).
  { intros j. rewrite E1. pose proof (tally_set (holder j) (tasks s) i (Some t) (Some t') Ht) as Hs.
    assert (Ho : holder j (Some t) = false) by (destruct t as [x op y]; cbn in *; subst y; by destruct op).
    assert (Hw : holder j (Some t') = bool_decide (p = j) && is_h1 z) by (cbn; by destruct z; rewrite ?andb_true_r, ?andb_false_r).
    rewrite Ho, Hw in Hs. lia. }
  assert (Hst : forall j x, store s' !! j = Some x -> (j = p /\ x = q') \/ (j <> p /\ store s !! j = Some x)).
  { intros j x. rewrite E2. intros [(->&->&_)|[? ?]]%list_lookup_insert_Some; [by left|right; by split; [congruence|]]. }
  assert (Hl : forall k u, tasks s' !! k = Some (Some u) -> tasks s !! k = Some (Some u) \/ u = t').
  { intros k u. rewrite E1. intros [(_&?&_)|[_ ?]]%list_lookup_insert_Some; [right; congruence|by left]. }
  assert (Hlt : (p < length (store s))%nat) by (by eapply lookup_lt_Some).
  split.
  - intros j x [[-> ->]|[_ Hj]]%Hst; [done|by eapply H1].
  - intros j x [[-> ->]|[Hd Hj]]%Hst; rewrite Hn.
    + specialize (H2 _ _ Hq). rewrite bool_decide_true by done. cbn. destruct (is_h1 z); lia.
    + specialize (H2 _ _ Hj). rewrite bool_decide_false by congruence. cbn. lia.
  - intros Hb j x c [[-> ->]|[Hd Hj]]%Hst Hc Hw; rewrite Hn.
    + specialize (H2 _ _ Hq). rewrite bool_decide_true by done. cbn. rewrite G4 in Hc. injection Hc as <-. destruct (is_h1 z); [lia|]. by destruct G5.
    + specialize (H3 Hb _ _ _ Hj Hc Hw). rewrite bool_decide_false by congruence. cbn. lia.
  - intros k u j Hk Hj. rewrite E2, length_insert. destruct (Hl _ _ Hk) as [Hx| ->]; [by eapply H4|]. cbn in Hj. congruence.
  - intros k j. rewrite E3, E2, length_insert. apply H5.
  - intros k u j w x Hk Hj Hw [[-> ->]|[Hd Hx]]%Hst.
    + rewrite G2. destruct (Hl _ _ Hk) as [Hy| ->]; [by eapply H6|]. cbn in Hw. congruence.
    + destruct (Hl _ _ Hk) as [Hy| ->]; [by eapply H6|]. cbn in Hj. congruence.
Qed.

(** A pool whose connection is taken out. *)
Lemma sessions_close b s s' p : sessions_ok b s -> tasks s' = tasks s -> store s' = alter ConnPool.close p (store s) ->
  (forall k j, pools s' !! k = Some j -> pools s !! k = Some j) -> sessions_ok b s'.
Proof.
  intros [H1 H2 H3 H4 H5 H6] E1 E2 E3.
  assert (Hst : forall j x, store s' !! j = Some x -> exists q, store s !! j = Some q /\ ConnPool.h1 x = ConnPool.h1 q /\
    (x = q \/ (pool_ok x /\ ConnPool.conn x = None))).
  { intros j x. rewrite E2, list_lookup_alter. case_decide; [subst j|by intros ?; exists x; auto].
    intros (q&Hq&->)%fmap_Some. exists q. split_and!; [done|done|]. right. split; [split; cbn; [by intros c|done]|done]. }
  split; rewrite ?E1.
  - intros j x (q&Hq&_&[->|[? _]])%Hst; [by eapply H1|done].
  - intros j x (q&Hq&_&[->|[_ Hc]])%Hst; [by eapply H2|]. rewrite (free_None _ Hc). specialize (H2 _ _ Hq). lia.
  - intros Hb j x c (q&Hq&_&[->|[_ Hc]])%Hst; [by apply (H3 Hb)|by rewrite Hc].
  - intros k t j. rewrite E2, length_alter. apply H4.
  - intros k j Hk%E3. rewrite E2, length_alter. by eapply H5.
  - intros k t j w x Hk Hj Hw (q&Hq&->&_)%Hst. by eapply H6.
Qed.

(** A connection is added. *)
Lemma sessions_dial b s s' i k w : sessions_ok b s -> task_at i s = Some (mkTask (Connects k) None None) ->
  tasks s' = <[i := None]> (tasks s) -> store s' = store s ++ [ConnPool.new (mkPhysical w true)] ->
  pools s' = <[k := length (store s)]> (pools s) -> sessions_ok b s'.
Proof.
  intros Hok Ht E1 E2 E3. pose proof Hok as [H1 H2 H3 H4 H5 H6]. apply tasks_at in Ht.
  assert (Hn : forall j, tally (holder j) (tasks s') = tally (holder j) (tasks s)).
  { intros j. rewrite E1. pose proof (tally_set (holder j) (tasks s) i _ None Ht) as Hs. cbn [holder] in Hs. lia. }
  assert (Hz : tally (holder (length (store s))) (tasks s) = 0%nat).
  { destruct (tally _ _) eqn:E; [done|]. destruct (proj1 (tally_pos (holder (length (store s))) (tasks s)) ltac:(lia)) as (j&[[x [p|] [[]|]]|]&Hj&Hh); try done.
    cbn in Hh. apply bool_decide_eq_true in Hh. specialize (H4 _ _ p Hj eq_refl). lia. }
  assert (Hl : forall j u, tasks s' !! j = Some (Some u) -> tasks s !! j = Some (Some u)).
  { intros j u. rewrite E1. intros [(_&?&_)|[_ ?]]%list_lookup_insert_Some; [congruence|done]. }
  assert (Hst : forall j x, store s' !! j = Some x -> store s !! j = Some x \/ (j = length (store s) /\ x = ConnPool.new (mkPhysical w true))).
  { intros j x. rewrite E2. intros [[_ ?]|[-> ?]]%lookup_snoc_Some; [by left|right; by split]. }
  split.
  - intros j x [Hj|[-> ->]]%Hst; [by eapply H1|]. split; cbn; [by intros c [= <-]|done].
  - intros j x [Hj|[-> ->]]%Hst; rewrite Hn; [by eapply H2|]. rewrite Hz. unfold free. cbn. destruct w; lia.
  - intros Hb j x c [Hj|[-> ->]]%Hst Hc Hw; rewrite Hn; [by eapply H3|]. rewrite Hz. cbn in Hc. injection Hc as <-. cbn in Hw. by subst w.
  - intros j u p Hj Hp. rewrite E2, length_app. specialize (H4 _ _ _ (Hl _ _ Hj) Hp). lia.
  - intros k' p. rewrite E3, E2, length_app. intros [[_ <-]|[_ Hp]]%lookup_insert_Some; [cbn; lia|]. specialize (H5 _ _ Hp). lia.
  - intros j u p z x Hj Hp Hw [Hx|[-> _]]%Hst; [by eapply H6; [apply Hl|..]|]. specialize (H4 _ _ _ (Hl _ _ Hj) Hp). lia.
Qed.

(** A task that has no session ends. *)
Lemma sessions_drop b s s' i t : sessions_ok b s -> task_at i s = Some t -> session t = None ->
  tasks s' = <[i := None]> (tasks s) -> store s' = store s -> pools s' = pools s -> sessions_ok b s'.
Proof.
  intros [H1 H2 H3 H4 H5 H6] Ht Hz E1 E2 E3. apply tasks_at in Ht.
  assert (Hn : forall j, tally (holder j) (tasks s') = tally (holder j) (tasks s)).
  { intros j. rewrite E1. pose proof (tally_set (holder j) (tasks s) i _ None Ht) as Hs.
    assert (Ho : holder j (Some t) = false) by (destruct t as [x op y]; cbn in *; subst y; by destruct op).
    rewrite Ho in Hs. change (if holder j None then 1%nat else 0%nat) with 0%nat in Hs. lia. }
  assert (Hl : forall j u, tasks s' !! j = Some (Some u) -> tasks s !! j = Some (Some u)).
  { intros j u. rewrite E1. intros [(_&?&_)|[_ ?]]%list_lookup_insert_Some; [congruence|done]. }
  split; rewrite ?E2, ?E3; try done.
  - intros p q. rewrite Hn. apply H2.
  - intros Hb p q c. rewrite Hn. by apply H3.
  - intros j u p Hj. by eapply H4, Hl.
  - intros j u p w q Hj. by eapply H6, Hl.
Qed.

Lemma sessions_over b s s' i x p w reusable retires : sessions_ok b s -> task_at i s = Some (mkTask x (Some p) (Some w)) ->
  (b = true -> reusable = true \/ retires = true) ->
  tasks s' = tasks (give_back p reusable retires (end_task i s)) -> pools s' = pools (give_back p reusable retires (end_task i s)) ->
  store s' = store (give_back p reusable retires (end_task i s)) -> sessions_ok b s'.
Proof.
  intros Hs Ht Hb E1 E3 E2. destruct (give_back_same p reusable retires (end_task i s)) as (T1&_&_&_&P1).
  eapply sessions_finish; [exact Hs|exact Ht|done|done|exact Hb|by rewrite E1, T1|by rewrite E3, P1|].
  rewrite E2. unfold give_back. destruct reusable; [done|]. by destruct retires.
Qed.

(** The job was cancelled when the task ended. *)
Definition cancels (e : event) : bool :=
  match e with Fetched _ _ b | ProbeEnded _ _ b | SampleEnded _ _ b => b | _ => false end.

Lemma sessions_start b s job a attempt connection range part_path ans : sessions_ok b s ->
  sessions_ok b (start_fetch job a attempt connection range part_path ans s).
Proof.
  intros Hs. unfold start_fetch. destruct (pools s !! connection) as [pool|] eqn:Ep.
  - pose proof (so_pools _ _ Hs _ _ Ep) as Hlt. destruct (decide _).
    + eapply (sessions_spawn b s _ _ (Some pool)); [exact Hs|intros p [= <-]; exact Hlt|done..].
    + destruct (lane_for part_path (lane_opens ans) s) as [[lane s1]|] eqn:El; [|by eapply sessions_same].
      destruct (lane_same _ _ _ _ _ El) as (T1&_&P1&S1&_). eapply (sessions_spawn b s _ _ (Some pool)); [exact Hs| |..].
      * intros p [= <-]. exact Hlt.
      * by rewrite <- T1.
      * exact S1.
      * exact P1.
  - destruct (decide _); by eapply sessions_same.
Qed.

Lemma sessions_command b s cmd ans : sessions_ok b s -> sessions_ok b (on_command cmd ans s).
Proof.
  intros Hs. destruct cmd; cbn [on_command]; try by apply sessions_start.
  - by eapply (sessions_spawn b s _ _ None).
  - unfold start_probe. destruct (pools s !! connection) as [pool|] eqn:Ep; [|by eapply sessions_same].
    eapply (sessions_spawn b s _ _ (Some pool)); [exact Hs| |done..]. intros p [= <-]. by eapply so_pools.
  - unfold close_connection. destruct (pools s !! connection) as [pool|] eqn:Ep; [|done]. eapply sessions_close; [exact Hs|done|done|].
    intros k j. cbn. by intros [_ ?]%lookup_delete_Some.
  - by eapply sessions_same.
  - by eapply sessions_same.
  - by eapply sessions_same.
  - unfold truncate_assignment. destruct (end_flags s !! assignment); [|done]. by eapply sessions_same.
  - unfold start_sample. destruct (pools s !! connection) as [pool|] eqn:Ep; [|by eapply sessions_same].
    destruct (lane_for part_path (lane_opens ans) s) as [[lane s1]|] eqn:El; [|by eapply sessions_same].
    destruct (lane_same _ _ _ _ _ El) as (T1&_&P1&S1&_). eapply (sessions_spawn b s _ _ (Some pool)); [exact Hs| | |exact S1|exact P1].
    + intros p [= <-]. by eapply so_pools.
    + by rewrite <- T1.
  - by eapply sessions_same.
Qed.

Lemma sessions_step b s e s' : step s e = Some s' -> (b = true -> cancels e = false) -> sessions_ok b s -> sessions_ok b s'.
Proof.
  destruct e as [cmd ans|i r|i|i r x|i r x|i r x]; cbn [step cancels]; intros Hst Hc Hs.
  - injection Hst as <-. by apply sessions_command.
  - destruct (task_at i s) as [[[] [] []]|] eqn:Ht; try done. injection Hst as <-. unfold dialed.
    destruct r as [[e|[w h]]|]; [by eapply sessions_drop|by eapply sessions_dial|by eapply sessions_drop].
  - destruct (task_at i s) as [[w [pool|] []]|] eqn:Ht; try done. injection Hst as <-. unfold poll_task.
    destruct (store s !! pool) as [p|] eqn:Ep; [|done]. destruct (ConnPool.acquire p) as [z p'| |] eqn:Ea; [| |done].
    + by eapply sessions_acquire.
    + cbn [work]. destruct w; [done|..]; by eapply sessions_drop.
  - destruct (task_at i s) as [[[] [pool|] [w|]]|] eqn:Ht; try done. injection Hst as <-. unfold fetched.
    match goal with |- context [session_ends ?a0 ?b0 ?c0 ?d0 ?e0 ?s0] => destruct (session_ends_gives a0 b0 c0 d0 e0 s0) as (u&v&->&Hv) end.
    eapply sessions_over; [exact Hs|exact Ht| |done..]. intros ->. right. by apply Hv, Hc.
  - destruct (task_at i s) as [[[] [pool|] [w|]]|] eqn:Ht; try done. injection Hst as <-. unfold probed.
    eapply sessions_over; [exact Hs|exact Ht| |done..]. intros ->. rewrite (Hc eq_refl). by right.
  - destruct (task_at i s) as [[[] [pool|] [w|]]|] eqn:Ht; try done. injection Hst as <-. unfold sampled.
    eapply sessions_over; [exact Hs|exact Ht| |done..]. intros ->. rewrite (Hc eq_refl). by right.
Qed.

Lemma sessions_idle b : sessions_ok b idle.
Proof. split; cbn; intros; try done; by rewrite lookup_nil in *. Qed.

Lemma sessions_run b es s s' : run es s = Some s' -> (b = true -> forallb (fun e => negb (cancels e)) es = true) -> sessions_ok b s -> sessions_ok b s'.
Proof.
  revert s. induction es as [|e es IH]; intros s; cbn [run forallb].
  - by intros [= <-].
  - destruct (step s e) as [s1|] eqn:E; [|done]. intros H Hb Hs. eapply IH; [exact H| |].
    + intros Ht. by apply Hb, andb_true_iff in Ht as [_ ?].
    + eapply sessions_step; [exact E| |exact Hs]. intros Ht. apply Hb, andb_true_iff in Ht as [Hc _]. by apply negb_true_iff.
Qed.

(** C14. An HTTP/1 connection carries one request at a time: in any run, whatever
    tasks were started on it and in whichever order they are polled and end, at
    most one of them holds its session, and none while the session is in the
    pool. *)
Theorem one_request_per_h1_connection es s p q : run es idle = Some s -> store s !! p = Some q ->
  (tally (holder p) (tasks s) + free q <= 1)%nat.
Proof. intros Hr. apply (sessions_run false es idle s Hr); [done|apply sessions_idle]. Qed.

Lemma pending_spec q : pool_ok q -> ConnPool.acquire q = ConnPool.Pending ->
  exists c, ConnPool.conn q = Some c /\ wire c = Fetch.Http1 /\ free q = 0%nat.
Proof.
  intros [Hk _]. unfold ConnPool.acquire. destruct (ConnPool.dead q); [done|]. destruct (ConnPool.conn q) as [c|] eqn:Ec; [|done].
  specialize (Hk c eq_refl). destruct (open_session c) eqn:Eo; [done|]. intros _. exists c. unfold free. rewrite Ec.
  destruct c as [[] x]; try done. by destruct x.
Qed.

(** C15. As long as no task ends after its job was cancelled, a request waits only
    for another one: the session that it is not given is held by a task that
    runs, and that gives it back or retires the pool when it ends. *)
Theorem waits_only_for_a_request es s i w p q : run es idle = Some s -> forallb (fun e => negb (cancels e)) es = true ->
  task_at i s = Some (mkTask w (Some p) None) -> store s !! p = Some q -> ConnPool.acquire q = ConnPool.Pending ->
  exists j t, task_at j s = Some t /\ j <> i /\ holder p (Some t) = true.
Proof.
  intros Hr Hc Ht Hq Ha. assert (Hs : sessions_ok true s) by (apply (sessions_run true es idle s Hr); [done|apply sessions_idle]).
  destruct (pending_spec q (so_pool _ _ Hs _ _ Hq) Ha) as (c&Ec&Ew&Ef). pose proof (so_strict _ _ Hs eq_refl _ _ _ Hq Ec Ew) as H1.
  destruct (proj1 (tally_pos (holder p) (tasks s)) ltac:(lia)) as (j&[t|]&Hj&Hh); [|done]. exists j, t.
  unfold task_at. rewrite Hj. split_and!; [done| |done]. intros ->. unfold task_at in Ht. rewrite Hj in Ht. cbn in Ht. injection Ht as ->. done.
Qed.

(** ** End flags *)

Definition flag_of (t : option Task) : option (AssignmentRef * nat) :=
  match t with Some (mkTask (Fetches _ a _ _ _ _ flag) _ _) => Some (a, flag) | _ => None end.

(** Where an assignment was last told to end. *)
Definition told (a : AssignmentRef) (limit : option Z) (e : event) : option Z :=
  match e with
  | Receives (CmdStartRange _ b _ range _ _ _ _ _ _ _ _ _ _) _ => if bool_decide (b = a) then Some (ByteRange.end_ range) else limit
  | Receives (CmdStartFullBody _ _ b _ _ _ _ _ _ _ _) _ => if bool_decide (b = a) then Some u64_max else limit
  | Receives (CmdTruncateAssignment _ b _ new_end) _ => if bool_decide (b = a) then option_map (fun _ => new_end) limit else limit
  | _ => limit
  end.

Record flags_ok (a : AssignmentRef) (limit : option Z) (s : Shard) : Prop := {
  fo_end : forall b f, end_flags s !! b = Some f -> (f < length (flags s))%nat;
  fo_has : forall i t f, tasks s !! i = Some t -> flag_of t = Some (a, f) -> end_flags s !! a = Some f;
  fo_owner : forall i t c f, tasks s !! i = Some t -> flag_of t = Some (a, f) -> end_flags s !! c = Some f -> c = a;
  fo_told : forall i t f, tasks s !! i = Some t -> flag_of t = Some (a, f) -> flags s !! f = limit }.

Lemma flag_works a t f : flag_of t = Some (a, f) -> works_on a t = true.
Proof. destruct t as [[[] op z]|]; cbn; try done. intros [= -> _]. by apply bool_decide_true. Qed.

(** Nothing works on the assignment. *)
Definition unworked (a : AssignmentRef) (s : Shard) : Prop := forall i t, tasks s !! i = Some t -> works_on a t = false.

(** No fetch is added. *)
Definition fewer (s s' : Shard) : Prop :=
  forall i t x, tasks s' !! i = Some t -> flag_of t = Some x -> exists j u, tasks s !! j = Some u /\ flag_of u = Some x.

Lemma flags_same a limit s s' : flags_ok a limit s -> fewer s s' -> end_flags s' = end_flags s -> flags s' = flags s -> flags_ok a limit s'.
Proof.
  intros [H1 H2 H3 H4] Ht E1 E2. split; rewrite ?E1, ?E2; [done|..].
  - intros i t f Hi Hf. destruct (Ht _ _ _ Hi Hf) as (j&u&Hj&Hu). by eapply H2.
  - intros i t c f Hi Hf. destruct (Ht _ _ _ Hi Hf) as (j&u&Hj&Hu). by eapply H3.
  - intros i t f Hi Hf. destruct (Ht _ _ _ Hi Hf) as (j&u&Hj&Hu). by eapply H4.
Qed.

Lemma flags_none a limit s s' : flags_ok a limit s -> unworked a s' -> (forall b f, end_flags s' !! b = Some f -> end_flags s !! b = Some f) ->
  flags s' = flags s -> forall limit', flags_ok a limit' s'.
Proof.
  intros [H1 _ _ _] Hn E1 E2 limit'. assert (Hx : forall i t f, tasks s' !! i = Some t -> flag_of t = Some (a, f) -> False).
  { intros i t f Hi Hf%flag_works. by rewrite (Hn _ _ Hi) in Hf. }
  split; rewrite ?E2; [by eauto|..]; intros; exfalso; eauto.
Qed.

Lemma flags_start a limit job b attempt connection range lane pool s : flags_ok a limit s -> (b = a -> unworked a s) ->
  flags_ok a (if bool_decide (b = a) then Some (match range with Some r => ByteRange.end_ r | None => u64_max end) else limit)
    (start_task job b attempt connection range lane pool s).
Proof.
  intros [H1 H2 H3 H4] Hn. unfold start_task. set (flag := length (flags s)).
  assert (Hl : forall i t f, tasks s !! i = Some t -> flag_of t = Some (a, f) -> b <> a /\ end_flags s !! a = Some f /\ (f < flag)%nat).
  { intros i t f Hi Hf. split; [|by split; eauto]. intros ->. apply flag_works in Hf. by rewrite (Hn eq_refl _ _ Hi) in Hf. }
  split; cbn -[flag_of]; rewrite ?length_app.
  - intros c f [[<- <-]|[_ Hc]]%lookup_insert_Some; [cbn; lia|]. specialize (H1 _ _ Hc). lia.
  - intros i t f [[_ Hi]|[_ <-]]%lookup_snoc_Some Hf; [|injection Hf as -> <-; apply lookup_insert_eq].
    destruct (Hl _ _ _ Hi Hf) as (Hd&He&_). by rewrite lookup_insert_ne.
  - intros i t c f [[_ Hi]|[_ <-]]%lookup_snoc_Some Hf [[<- <-]|[Hd Hc]]%lookup_insert_Some.
    + destruct (Hl _ _ _ Hi Hf) as (_&_&?). lia.
    + by eapply H3.
    + by injection Hf as ->.
    + injection Hf as -> <-. specialize (H1 _ _ Hc). lia.
  - intros i t f [[_ Hi]|[_ <-]]%lookup_snoc_Some Hf.
    + destruct (Hl _ _ _ Hi Hf) as (Hd&_&Hlt). rewrite bool_decide_false, lookup_app_l by done. by eapply H4.
    + injection Hf as -> <-. rewrite bool_decide_true, lookup_app_r, Nat.sub_diag by (done || lia). done.
Qed.

Lemma flags_truncate a limit b new_end s : flags_ok a limit s ->
  flags_ok a (if bool_decide (b = a) then option_map (fun _ => new_end) limit else limit) (truncate_assignment b new_end s).
Proof.
  intros [H1 H2 H3 H4]. unfold truncate_assignment. destruct (end_flags s !! b) as [flag|] eqn:Eb.
  - split; cbn -[flag_of]; rewrite ?length_insert; [done..|]. intros i t f Hi Hf. destruct (decide (b = a)) as [->|Hd].
    + specialize (H2 _ _ _ Hi Hf). assert (flag = f) as -> by congruence.
      rewrite bool_decide_true, list_lookup_insert_eq, <- (H4 _ _ _ Hi Hf) by (done || by eapply H1).
      by destruct (lookup_lt_is_Some_2 _ _ (H1 _ _ H2)) as [x ->].
    + rewrite bool_decide_false, list_lookup_insert_ne by (done || intros ->; by eapply Hd, H3). by eapply H4.
  - split; [done..|]. intros i t f Hi Hf. destruct (decide (b = a)) as [->|Hd]; [by rewrite (H2 _ _ _ Hi Hf) in Eb|].
    rewrite bool_decide_false by done. by eapply H4.
Qed.

Lemma flags_drop a limit b s s' : flags_ok a limit s -> fewer s s' -> (b = a -> unworked a s') ->
  end_flags s' = delete b (end_flags s) -> flags s' = flags s -> flags_ok a limit s'.
Proof.
  intros Hok Ht Hn E1 E2. destruct (decide (b = a)) as [Ha|Hd].
  - eapply flags_none; [exact Hok|by apply Hn| |done]. intros c f. rewrite E1. by intros [_ ?]%lookup_delete_Some.
  - destruct Hok as [H1 H2 H3 H4]. split; rewrite ?E1, ?E2.
    + intros c f [_ Hc]%lookup_delete_Some. by eapply H1.
    + intros i t f Hi Hf. rewrite lookup_delete_ne by done. destruct (Ht _ _ _ Hi Hf) as (j&u&Hj&Hu). by eapply H2.
    + intros i t c f Hi Hf [_ Hc]%lookup_delete_Some. destruct (Ht _ _ _ Hi Hf) as (j&u&Hj&Hu). by eapply H3.
    + intros i t f Hi Hf. destruct (Ht _ _ _ Hi Hf) as (j&u&Hj&Hu). by eapply H4.
Qed.

Lemma fewer_same s s' : tasks s' = tasks s -> fewer s s'.
Proof. intros E i t x. rewrite E. eauto. Qed.

Lemma fewer_set s s' i t : tasks s' = <[i := t]> (tasks s) -> flag_of t = None \/ flag_of t = flag_of (mjoin (tasks s !! i)) -> fewer s s'.
Proof.
  intros E Hf j u x. rewrite E. intros [(->&->&Hl)|[_ ?]]%list_lookup_insert_Some Hx; [|by eauto]. destruct Hf as [Hf|Hf]; [congruence|].
  rewrite Hf in Hx. exists j. destruct (tasks s !! j) as [v|]; [|done]. by exists v.
Qed.

Lemma fewer_spawn s s' t : tasks s' = tasks s ++ [t] -> flag_of t = None -> fewer s s'.
Proof. intros E Hf j u x. rewrite E. intros [[_ ?]|[_ <-]]%lookup_snoc_Some; [by eauto|congruence]. Qed.

Lemma unworked_tally a s : tally (works_on a) (tasks s) = 0%nat -> unworked a s.
Proof.
  intros H i t Hi. destruct (works_on a t) eqn:Ew; [|done]. assert (0 < tally (works_on a) (tasks s))%nat by (apply tally_pos; eauto). lia.
Qed.

Lemma flags_start_fetch a limit job b attempt connection range part_path ans s : flags_ok a limit s -> (b = a -> unworked a s) ->
  flags_ok a (if bool_decide (b = a) then Some (match range with Some r => ByteRange.end_ r | None => u64_max end) else limit)
    (start_fetch job b attempt connection range part_path ans s).
Proof.
  intros Hok Hn. assert (Hput : forall o, flags_ok a (if bool_decide (b = a) then Some (match range with Some r => ByteRange.end_ r | None => u64_max end) else limit) (put o s)).
  { intros o. destruct (decide (b = a)) as [Ha|Hd].
    - eapply flags_none; [exact Hok|by apply Hn|by intros c f|done].
    - rewrite bool_decide_false by done. eapply flags_same; [exact Hok|by apply fewer_same|done..]. }
  unfold start_fetch. destruct (decide _); destruct (pools s !! connection) as [pool|]; [by apply flags_start|by apply Hput| |by apply Hput].
  destruct (lane_for part_path (lane_opens ans) s) as [[lane s1]|] eqn:El; [|by apply Hput].
  destruct (lane_same _ _ _ _ _ El) as (T1&_&_&_&E1&F1). apply flags_start.
  - eapply flags_same; [exact Hok|by apply fewer_same|done..].
  - intros Ha i t. rewrite T1. by apply Hn.
Qed.

Lemma flags_command a limit cmd ans s : flags_ok a limit s -> (starts a (Receives cmd ans) = true -> unworked a s) ->
  flags_ok a (told a limit (Receives cmd ans)) (on_command cmd ans s).
Proof.
  intros Hok Hn. destruct cmd; cbn [on_command told]; try (by apply flags_truncate); try (eapply flags_same; [exact Hok|by apply fewer_same|done..]).
  - eapply flags_same; [exact Hok|by eapply fewer_spawn|done..].
  - unfold start_probe. destruct (pools s !! connection); (eapply flags_same; [exact Hok|first [by eapply fewer_spawn|by apply fewer_same]|done..]).
  - apply (flags_start_fetch a limit job assignment attempt connection (Some range)); [exact Hok|]. intros ->. apply Hn. by apply bool_decide_true.
  - apply (flags_start_fetch a limit job assignment attempt connection None); [exact Hok|]. intros ->. apply Hn. by apply bool_decide_true.
  - unfold close_connection. destruct (pools s !! connection); [|done]. eapply flags_same; [exact Hok|by apply fewer_same|done..].
  - unfold start_sample. destruct (pools s !! connection); [|by (eapply flags_same; [exact Hok|by apply fewer_same|..])].
    destruct (lane_for part_path (lane_opens ans) s) as [[lane s1]|] eqn:El; [|by (eapply flags_same; [exact Hok|by apply fewer_same|..])].
    destruct (lane_same _ _ _ _ _ El) as (T1&_&_&_&E1&F1). eapply flags_same; [exact Hok| |exact E1|exact F1].
    eapply fewer_spawn; [by rewrite <- T1|done].
Qed.

Lemma flags_put a limit o s : flags_ok a limit s -> flags_ok a limit (put o s).
Proof. intros Hok. eapply flags_same; [exact Hok|by apply fewer_same|done..]. Qed.

(** The end of a task, and its report. *)
Lemma flags_end a limit s s' i t obs : flags_ok a limit s -> task_at i s = Some t -> (account a s <= 1)%nat ->
  tasks s' = <[i := None]> (tasks s) -> flags s' = flags s ->
  end_flags s' = match flag_of (Some t) with Some (b, _) => delete b (end_flags s) | None => end_flags s end ->
  flags_ok a limit (report obs s').
Proof.
  intros Hok Ht Ha E1 E2 E3. apply flags_put. assert (Hf : fewer s s') by (eapply fewer_set; [exact E1|by left]).
  destruct (flag_of (Some t)) as [[b f]|] eqn:Ef; [|by eapply flags_same]. eapply flags_drop; [exact Hok|exact Hf| |exact E3|exact E2].
  intros ->. apply unworked_tally. pose proof (tally_set (works_on a) (tasks s) i _ None (tasks_at _ _ _ Ht)) as Hs.
  rewrite (flag_works _ _ _ Ef) in Hs. change (works_on a None) with false in Hs. cbv iota in Hs. unfold account in Ha. rewrite E1. lia.
Qed.

Lemma flags_step a limit s e s' : step s e = Some s' -> flags_ok a limit s -> (account a s + (if starts a e then 1 else 0) <= 1)%nat ->
  flags_ok a (told a limit e) s'.
Proof.
  intros Hst Hok Ha. assert (Ha1 : (account a s <= 1)%nat) by lia. destruct e as [cmd ans|i r|i|i r x|i r x|i r x]; cbn [step] in Hst; cbn [told].
  - injection Hst as <-. apply flags_command; [exact Hok|]. intros Hb. rewrite Hb in Ha. apply unworked_tally. unfold account in Ha. lia.
  - destruct (task_at i s) as [[[] [] []]|] eqn:Ht; try done. injection Hst as <-. unfold dialed.
    destruct r as [[e|[w h]]|]; by eapply flags_end.
  - destruct (task_at i s) as [[w [pool|] []]|] eqn:Ht; try done. injection Hst as <-. unfold poll_task.
    destruct (store s !! pool) as [p|]; [|done]. destruct (ConnPool.acquire p) as [z p'| |]; [| |done].
    + eapply flags_same; [exact Hok| |done..]. eapply fewer_set; [done|]. right. rewrite (tasks_at _ _ _ Ht). by destruct w.
    + cbn [work]. destruct w; [done|..]; by eapply flags_end.
  - destruct (task_at i s) as [[[] [pool|] [w|]]|] eqn:Ht; try done. injection Hst as <-. unfold fetched.
    match goal with |- context [session_ends ?a0 ?b0 ?c0 ?d0 ?e0 ?s0] => destruct (session_ends_gives a0 b0 c0 d0 e0 s0) as (u&v&->&_) end.
    match goal with |- context [give_back pool ?b ?c ?s0] => destruct (give_back_same pool b c s0) as (T1&_&E1&F1&_) end.
    eapply flags_end; [exact Hok|exact Ht|exact Ha1|cbn -[give_back]; by rewrite T1|cbn -[give_back]; by rewrite F1|cbn -[give_back]; by rewrite E1].
  - destruct (task_at i s) as [[[] [pool|] [w|]]|] eqn:Ht; try done. injection Hst as <-. unfold probed.
    match goal with |- context [give_back pool ?b ?c ?s0] => destruct (give_back_same pool b c s0) as (T1&_&E1&F1&_) end.
    by eapply flags_end.
  - destruct (task_at i s) as [[[] [pool|] [w|]]|] eqn:Ht; try done. injection Hst as <-. unfold sampled.
    match goal with |- context [give_back pool ?b ?c ?s0] => destruct (give_back_same pool b c s0) as (T1&_&E1&F1&_) end.
    by eapply flags_end.
Qed.

Lemma flags_run a es s s' limit : run es s = Some s' -> (account a s + tally (starts a) es <= 1)%nat -> flags_ok a limit s ->
  flags_ok a (foldl (told a) limit es) s'.
Proof.
  revert s limit. induction es as [|e es IH]; intros s limit; cbn [run foldl]; [by intros [= <-]|].
  destruct (step s e) as [s1|] eqn:E; [|done]. rewrite tally_cons. intros H Ha Hok. pose proof (account_step a _ _ _ E).
  apply (IH s1); [exact H|lia|]. eapply flags_step; [exact E|exact Hok|lia].
Qed.

(** A shortened assignment stops where the controller last told it to: the limit
    that the fetch of an assignment reads while it runs is the end it was
    ordered with or the last truncation of that assignment since, and no order
    about another assignment moves it. *)
Theorem truncation_reaches_the_fetch a es s i job attempt connection range lane flag op z : run es idle = Some s ->
  (tally (starts a) es <= 1)%nat -> task_at i s = Some (mkTask (Fetches job a attempt connection range lane flag) op z) ->
  flags s !! flag = foldl (told a) None es.
Proof.
  intros Hr Ha Ht%tasks_at. apply (fo_told _ _ _ (flags_run a es idle s None Hr Ha ltac:(by split)) _ _ _ Ht). done.
Qed.
End shard.

(** ** Concrete runs *)

Module Traffic.
Import Demo.

Definition piece2 : AssignmentRef := mkAssignmentRef (L := Counter.lib) 1%N 2%N.
Definition context : JobContext := mkJobContext 0 None Relaxed.
Definition origin : SourceContext (W := web) := mkSourceContext site None false [] None.
Definition yes : Answers := mkAnswers true (inr None).
Definition target : ConnectTarget := mkTarget (mkOriginKey "https" "example.test" 443) address1 "example.test" true.

Definition open1 : event := Receives (CmdOpenConnection 1%N target false) yes.
Definition start (a : AssignmentRef) (r : ByteRange.t) : event :=
  Receives (CmdStartRange 1%N a 1 r 0 false true 1%N origin 1%N "a.part" context 1%N 0) yes.
Definition truncate (a : AssignmentRef) (new_end : Z) : event := Receives (CmdTruncateAssignment 1%N a 1%N new_end) yes.

(** Two pieces on one HTTP/1 connection, both shortened while the second waits. *)
Definition two_pieces : list event :=
  [open1; Dialed 0 (Some (inr (Fetch.Http1, 10))); start piece1 (ByteRange.new 0 100); start piece2 (ByteRange.new 100 200); Polled 1; Polled 2;
   truncate piece1 50; truncate piece2 150].
Definition crowded : Shard (L := Counter.lib) := default idle (run two_pieces idle).

Lemma crowded_runs : run two_pieces idle = Some crowded.
Proof.
  assert (H : match run (L := Counter.lib) (W := web) two_pieces idle with Some _ => true | None => false end = true) by (vm_compute; reflexivity).
  unfold crowded. destruct (run two_pieces idle); [reflexivity|discriminate H].
Qed.

Lemma every_start_reports_once_witness : tally (starts piece2) two_pieces = 1%nat /\
  1%nat = (tally (works_on piece2) (tasks crowded) + tally (tells piece2) (sent crowded))%nat.
Proof. split; [vm_compute; reflexivity|]. apply (every_start_reports_once piece2 two_pieces crowded). exact crowded_runs. Defined.

Lemma crowded_pool : store crowded !! 0%nat = Some (ConnPool.mk true (Some (mkPhysical Fetch.Http1 false)) false).
Proof. vm_compute. reflexivity. Qed.

Lemma one_request_per_h1_connection_witness : tally (holder 0) (tasks crowded) = 1%nat /\
  (tally (holder 0) (tasks crowded) + free (ConnPool.mk true (Some (mkPhysical Fetch.Http1 false)) false) <= 1)%nat.
Proof. split; [vm_compute; reflexivity|]. apply (one_request_per_h1_connection two_pieces crowded 0); [exact crowded_runs|exact crowded_pool]. Defined.

Lemma crowded_second : exists job attempt connection range lane,
  task_at 2 crowded = Some (mkTask (Fetches job piece2 attempt connection range lane 1) (Some 0%nat) None).
Proof.
  assert (H : match task_at 2 crowded with
              | Some (mkTask (Fetches _ a _ _ _ _ flag) (Some pool) None) => bool_decide (a = piece2) && (flag =? 1)%nat && (pool =? 0)%nat
              | _ => false end = true) by (vm_compute; reflexivity).
  destruct (task_at 2 crowded) as [[[] [pool|] []]|]; try discriminate H.
  apply andb_true_iff in H as [[H1%bool_decide_eq_true H2%Nat.eqb_eq]%andb_true_iff H3%Nat.eqb_eq]. subst. eauto 10.
Qed.

Lemma waits_only_for_a_request_witness : exists j t, task_at j crowded = Some t /\ j <> 2%nat /\ holder 0 (Some t) = true.
Proof.
  destruct crowded_second as (job&attempt&connection&range&lane&Ht).
  apply (waits_only_for_a_request (L := Counter.lib) (W := web) two_pieces crowded 2
    (Fetches job piece2 attempt connection range lane 1) 0 (ConnPool.mk true (Some (mkPhysical Fetch.Http1 false)) false)
    crowded_runs); [vm_compute; reflexivity|exact Ht|exact crowded_pool|reflexivity].
Defined.

Lemma truncation_reaches_the_fetch_witness : flags crowded !! 1%nat = foldl (told piece2) None two_pieces /\ foldl (told piece2) None two_pieces = Some 150.
Proof.
  split; [|vm_compute; reflexivity]. destruct crowded_second as (job&attempt&connection&range&lane&Ht).
  apply (truncation_reaches_the_fetch (L := Counter.lib) (W := web) piece2 two_pieces crowded 2 job attempt connection range lane 1 (Some 0%nat) None
    crowded_runs); [vm_compute; lia|exact Ht].
Defined.

(** A connection that is closed while it is dialled is kept when the dial
    succeeds; nothing tells the shard to close it any more. *)
Definition lost_race : list event := [open1; Receives (CmdCloseConnection 1%N) yes; Dialed 0 (Some (inr (Fetch.Http1, 10)))].

Lemma late_connection_stays : match run (L := Counter.lib) (W := web) lost_race idle with
  | Some s => (map_to_list (pools (L := Counter.lib) s), store s) = ([(1%N, 0%nat)], [ConnPool.new (mkPhysical Fetch.Http1 true)]) | None => False end.
Proof. vm_compute. reflexivity. Qed.

(** A mirror sample whose job is cancelled keeps the session: the fetch of the
    next job on that connection waits, and nothing that runs holds it. *)
Definition cancelled_sample : list event :=
  [open1; Dialed 0 (Some (inr (Fetch.Http1, 10))); Receives (CmdSampleMirror 2%N 2%N 1%N (ByteRange.new 0 10) origin "b.part" context 2%N) yes;
   Polled 1; SampleEnded 1 (inl Errors.Cancelled) true; start piece1 (ByteRange.new 0 100); Polled 2].

Lemma cancelled_sample_strands : match run (L := Counter.lib) (W := web) cancelled_sample idle with
  | Some s => match store s !! 0%nat, task_at 2 s with
              | Some q, Some _ => match ConnPool.acquire q with ConnPool.Pending => (tally (holder 0) (tasks s) =? 0)%nat | _ => false end
              | _, _ => false end
  | None => false end = true.
Proof. vm_compute. reflexivity. Qed.
End Traffic.
